(* ===== verification/_CoqProject ===== *)
-Q . S2P
Prelude.v
CxxLib.v
Exceptions.v
Settings.v
QtSize.v
Image.v
ImageInstance.v
CacheInterface.v
CacheHelper.v
ImageExtractor.v
Files.v
LocalArt.v
Threads.v
CacheRace.v
Keys.v
Backoff.v
Thumbnailer.v
CacheLife.v
Access.v
ThumbnailerInstance.v
Concurrent.v
PoolCorrect.v
Downloader.v
Downloads.v
RateLimiter.v
Credentials.v
Version.v
Inactivity.v
Service.v
Admin.v
AdminTool.v
VsThumb.v
ResourcePtr.v
GobjPtr.v
ResourceLocks.v
ServiceInv.v
ServiceSpec.v
ServiceCorrect.v
ServiceFailures.v
ServicePools.v
Client.v
ClientApi.v
ClientSlots.v
QmlPlugin.v
ServiceMain.v
EndToEnd.v
WholeSystem.v
