(* ===== verification/Prelude.v ===== *)
(** * Verification of the thumbnailer service: overview and prelude

    The program is a D-Bus service that makes thumbnails of local media files and
    of remote album and artist art, a client library for Qt programs, a QML plugin
    on top of it, a helper process that extracts frames and embedded art, and an
    administration tool.  This development models all of them, as executable
    definitions, and proves what makes them correct, each alone and together: the
    client and the service, the event loop of the service and its thread pools, and
    the three in one system.

    ** Parts and files

    A call enters at [DBusInterface] (src/src/service/dbusinterface.cpp), which
    creates one [Handler] (handler.cpp) per call and queues it behind the other
    calls with the same key.  A handler asks for the credentials of its peer
    (credentialscache.cpp), checks the caches in a thread pool, schedules a
    download or extraction with a rate limiter (ratelimiter.cpp), and creates the
    thumbnail.  The look-up is [RequestBase::thumbnail] (thumbnailer.cpp), over
    three persistent caches (cachehelper.h), the image code (image.cpp), the
    backoff after network failures (backoff_adjuster.cpp) and the sources of
    images: local files, vs-thumb (imageextractor.cpp), embedded album art
    (local_album_art.cpp) and the network (ubuntuserverdownloader.cpp).  On the
    other side of the bus the client library (libthumbnailer-qt.cpp) limits the
    calls in flight and gives programs requests they can wait for or cancel; the
    QML plugin wraps them as image responses.  The administration tool talks to
    the second interface of the service (admininterface.cpp).

    - Prelude.v        this file: outcomes, state with failures, machine integers,
                       sums over maps, tactics.
    - CxxLib.v         the C++ library functions on numbers and strings.
    - Exceptions.v     Exception.cpp, UnityExceptions.h: the exception classes with
                       their chains of causes and histories, on a heap.
    - Settings.v       settings.cpp.
    - QtSize.v         QSize and QSize::scale as the code uses them.
    - Image.v          image.cpp: loading, orientation, scaling, pixels, encoding,
                       over GdkPixbuf and libexif as the interface [ImageLibs];
                       ImageInstance.v shows the interface can be implemented.
    - CacheInterface.v what the thumbnailer requires of a cache (class [Cache] and
                       its laws); CacheHelper.v models cachehelper.h with its
                       recovery of corrupt databases and discharges the laws.
    - ImageExtractor.v imageextractor.cpp: the vs-thumb process and its pipe.
    - VsThumb.v        src/vs-thumb: the process itself, over GStreamer and GdkPixbuf
                       as an interface, with the references it holds.
    - LocalArt.v       local_album_art.cpp over TagLib.
    - Keys.v           the keys of thumbnailer.cpp: how requests name cache entries.
    - Backoff.v        backoff_adjuster.cpp.
    - Thumbnailer.v    thumbnailer.cpp: the request classes, [thumbnail()], the
                       [Thumbnailer] object, its maintenance and its restart, over
                       the interfaces [Cache] and [Host]; ThumbnailerInstance.v has
                       the witnesses, over CacheHelper.v and ImageInstance.v.
    - CacheLife.v      the thumbnailer in use: any look-ups and maintenance between a
                       look-up and a later one, and what they leave of an entry.
    - Threads.v        threads that share a state, as trees of accesses: running
                       alone, pools, bounds, and rules for one thread in any company.
    - CacheRace.v      cachehelper.h among threads: its calls access by access.
    - Concurrent.v     the thread pools: [thumbnail()] and the maintenance of the
                       [Thumbnailer] access by access, in any number of threads;
                       PoolCorrect.v has the properties.
    - Files.v          file_io.cpp, file_lock.cpp, safe_strerror.cpp,
                       make_directories.cpp.
    - ResourcePtr.v    ResourcePtr.h and GobjPtr.v gobj_memory.h: the handles, as
                       state machines over the set of resources that are held.
    - ResourceLocks.v  ResourcePtr.h among threads: its calls access by access, with
                       their mutexes.
    - Access.v         check_access.cpp, mimetype.cpp, and the interface [Host]
                       implemented with the functions of this repository.
    - Downloader.v     ubuntuserverdownloader.cpp, artdownloader.cpp, artreply.h.
    - Downloads.v      a request from [download()] to [downloadFinished()]: what the
                       extractor or the reply has become when it emits [finished()].
    - Version.v        version.cpp.
    - RateLimiter.v    ratelimiter.cpp, used by the service and by the client.
    - Credentials.v    credentialscache.cpp.
    - Inactivity.v     inactivityhandler.cpp.
    - Service.v        handler.cpp and dbusinterface.cpp as one state and the events
                       of the event loop; ServiceInv.v (the chains per key, the
                       credentials callbacks, the limiter jobs, each with its
                       invariant), ServiceSpec.v (the invariant of the state and its
                       preservation) and ServiceCorrect.v (the properties).
    - ServiceFailures.v the same service when [download()] throws, for want of file
                       descriptors or of a valid address.
    - ServicePools.v   the event loop of Service.v and the pools of Concurrent.v side
                       by side: jobs start, run and report to their handlers.
    - Admin.v          admininterface.cpp and stats.cpp: the calls of the second
                       interface and the encoding of the statistics.
    - AdminTool.v      src/thumbnailer-admin: the command line, its parsing, and
                       what each command prints and calls.
    - Client.v         libthumbnailer-qt.cpp: requests, replies, the event loop;
                       ClientApi.v: the public classes and their signal;
                       ClientSlots.v: programs that call the library from the slots
                       of that signal.
    - QmlPlugin.v      the plugin's providers and image responses.
    - ServiceMain.v    main.cpp of the service, trace.cpp, and several instances of
                       the service side by side.
    - EndToEnd.v       the client library and the service composed, with programs
                       that block in [waitForFinished()].
    - WholeSystem.v    the client library, the event loop and the thread pools in
                       one system.

    ** How code becomes definitions

    A class is a record, a member function a function on it; where it can throw
    the result is an [outcome], and where it changes the object and can throw a
    computation of the monad [M], which keeps the state of an exception.  A failed
    [assert], undefined behaviour and a call of [abort()] are the outcome [Crash],
    so that "does not crash" is a statement about them.  Objects shared by address
    (handlers, client requests, cells of the limiter's queue) are entries of a map
    whose keys are the addresses.  A signal runs its slots in the order of their
    connection inside the emission; the event loop is a step relation, and a
    property of all its states is proved for every reachable one.  What runs in
    a thread pool is given twice: as one step (Thumbnailer.v, CacheHelper.v), and
    as the tree of its accesses to what the threads share, where an operation
    that locks itself (a call of the cache library) is one access and a field that
    nothing protects is read and written by accesses of its own; alone the two
    do the same.  Code outside
    the repository is a parameter with laws stating its documented behaviour:
    GdkPixbuf, libexif, the persistent cache, TagLib, GIO, AppArmor, Qt's network
    classes, the file system, the clock (an argument [now] of each operation).
    [int] is 32 bits wide; arithmetic that could overflow is checked ([as_int]) or
    wraps ([narrow_int]) as the code's types say.

    Fuel: [begin] of Service.v recurses through the calls chained for one key and
    gets one more than the number of handlers; [read_loop] and [copy_loop] get the
    length of the file and [lock_loop] the number of attempts the waiting time
    allows; the walk through the exceptions of Exceptions.v gets [fuel_for] the
    heap, more than the exceptions there are; running out is a [Crash], which the
    properties exclude.  The trees of Threads.v need none: a look-up makes at most
    [longest] = 11 accesses.  [emit_finished] of ClientSlots.v gets the depth of slots
    inside slots: the requests that have not finished are enough unless slots create
    new ones without end ([slots_return]).

    ** What the theorems show

    - Service: one reply per call, never two; every run without new calls
      ends with all calls answered; calls for a key are served one at a time in
      order of arrival; the limiters hold; the idle exit loses nothing; and
      exactly one kind of call leads to undefined behaviour ([service_crashes_only_on_refusal]).
    - Downloads that cannot start: no call is lost or answered twice, and the limits
      hold, but each failure keeps a slot of its limiter for good, and when all are
      gone the calls that wait are never answered ([lost_slots_starve]).
    - The thread pools: in every interleaving of look-ups of different keys and
      maintenance the caches stay valid, nothing crashes, thumbnails that were
      made stay, keys do not disturb each other, every run is finite; the handlers
      see to it that no two look-ups of a key run at once and none starts before its
      download is over, take every result, and with the look-ups in their threads
      all calls are answered.  Two things are
      not safe: the backoff state can lose a failure ([failure_lost]), and a
      corrupt cache that two threads recover at once crashes ([recovery_race]).
    - Client: no crash in any interleaving of requests, cancellations, waits,
      deletions and replies; the pump is posted once; no request is stuck; waiting
      ends; [finished] is emitted once, and what a request then reports is the image
      of a reply that came for it or the error of its cause; the plugin answers the
      QML engine once - but with neither a texture nor an error when the bytes of
      the reply are no image ([neither_texture_nor_error]); slots may call the library again as
      long as they destroy no request ([slots_run_after], [destroyed_in_its_slot]).
    - Together: a request shows the one reply the service sent for its call; every
      run without new work ends with all requests finished and no program left
      blocked in [waitForFinished()], with the look-ups in their threads and
      whatever their schedule.  (A run of the whole projects to a run of each
      composition of two by construction, [whole_refines].)
    - The process: at most one instance has the caches open; what is acquired is
      given back.
    - Thumbnailer: [thumbnail()] never crashes and says what it did by its status;
      a success is a cache hit from then on, a permanent failure is remembered for
      its time, both for records no larger than their cache, whatever look-ups and
      maintenance follow and until the entry is evicted or cleared (CacheLife.v); a
      transient failure is not remembered; sizes are bounded; the backoff survives a
      restart, or is cleared with the caches by an upgrade.
    - Image, extraction, album art, keys, caches, files: sizes fit, orientation is
      applied, pixels are read in bounds, keys are injective, the album art choice
      agrees between formats, corrupt caches recover, writes are atomic; the art
      vs-thumb finds is the art the service reads; vs-thumb, [ResourcePtr] and
      [gobj_ptr] release what they hold exactly once - vs-thumb unless it stops at
      one of the places of [stops], [gobj_ptr] unless an object floats -; threads that share a
      [ResourcePtr] see its calls one at a time and never deadlock ([threads_atomic]).
    - Administration: the calls apply the library's own operation to the caches their
      selector says and to no other, and keep the idle handler balanced also when
      they throw; the tool calls the method its command names; sizes and statistics
      survive the bus.
    - Exceptions: [what()] renders the whole chain of causes.

    ** Not modelled

    The insides of GStreamer, GdkPixbuf, libexif, TagLib, GLib, GIO and Qt, which
    are parameters; slots of a program that throw; the tests, examples and tools
    of the repository.  An access to a field is atomic and the accesses of all
    threads are in one order: what a compiler or a processor may do to an
    unprotected field beyond that is outside the model.  The pools are given valid
    caches: the recovery of a corrupt one among threads is in CacheRace.v.  One
    client has its library modelled beside the service; the calls of others come
    at any time.

    Where a definition is coarser than the code: [put()] of a record larger than
    the cache is one that adds nothing, the exception by which a library may
    report it being one that [thumbnail()] turns into a [ResourceException] of its
    own; the replies of EndToEnd.v come from the service, errors the bus makes up
    itself (a timeout, an unknown service) are events of Client.v but no steps of the
    composition; Client.v takes the emission of [finished] and the uses of members
    after it as one step, which ClientSlots.v takes apart, and ClientApi.v derives
    the emission from the change of [finished_] in that step; [try_lock()] of a mutex
    the thread owns returns normally in ResourceLocks.v; the instances of
    ServiceMain.v share one lock file, as processes with one cache directory do; a
    process that fails to start reports it to Downloads.v as a later event of the
    loop; and the reference that a copy constructor of [gobj_ptr] leaks when it
    throws is counted among those the program holds outside. *)

From Stdlib Require Export ZArith Lia Ascii.
From stdpp Require Export base gmap strings relations tactics list.

Open Scope Z_scope.

(** stdpp keeps [+:+] folded; here it reduces on constructors. *)
#[global] Arguments String.append !_ _ / : simpl nomatch.
#[global] Arguments Ascii.eqb : simpl never.

(** ** Outcomes: values, exceptions, crashes *)

(** The C++ exceptions the code throws, with the message where it matters.  A
    [unity::Exception] remembers the exception that was being handled when it was
    constructed: [unity_nested]. *)
Inductive exn : Type :=
  | runtime_error (msg : string)
  | invalid_argument (msg : string)
  | out_of_range (msg : string)
  | logic_error (msg : string)
  | domain_error (msg : string)
  | system_error (code : Z) (msg : string)
  | unity_exception (name reason : string)
  | unity_nested (name reason : string) (caught : exn)
  | thrown_string (msg : string)          (* a QString or std::string *)
  | unknown_exception.

#[export] Instance exn_eq_dec : EqDecision exn.
Proof. solve_decision. Defined.

Definition newline : string := String "010" EmptyString.

(** [get_margin] of Exception.cpp: [indent], once per level. *)
Fixpoint margin (level : nat) (indent : string) : string :=
  match level with O => "" | S level => indent +:+ margin level indent end.

(** What [unity::Exception] prints of itself. *)
Definition name_and_reason (name reason : string) : string :=
  name +:+ (if bool_decide (reason = "") then "" else ": " +:+ reason).

(** An exception as [unity::Exception::to_string] prints it at a level, with the
    exceptions nested in it one level further in each. *)
Fixpoint exn_text (level : nat) (indent : string) (e : exn) : string :=
  margin level indent +:+
  match e with
  | runtime_error m | invalid_argument m | out_of_range m | logic_error m | domain_error m
  | system_error _ m => m
  | unity_exception n r => name_and_reason n r
  | unity_nested n r c => name_and_reason n r +:+ ":" +:+ newline +:+ exn_text (S level) indent c
  | thrown_string _ | unknown_exception => "unknown exception"
  end.

(** [e.what()]; for a string that was thrown, the string. *)
Definition exn_what (e : exn) : string :=
  match e with
  | thrown_string m => m
  | unknown_exception => ""
  | e => exn_text 0 "    " e
  end.

(** Caught by [catch (std::exception const&)]. *)
Definition is_std (e : exn) : bool :=
  match e with unknown_exception | thrown_string _ => false | _ => true end.

(** Ways a run stops without an exception: a failed [assert] (debug builds),
    behaviour the C++ standard leaves undefined, or a call of [abort()]. *)
Inductive fault : Type :=
  | AssertFailed (site : string)
  | Undefined (site : string)
  | Aborted (site : string).

#[export] Instance fault_eq_dec : EqDecision fault.
Proof. solve_decision. Defined.

Inductive outcome (A : Type) : Type :=
  | Ok (a : A)
  | Throw (e : exn)
  | Crash (f : fault).
Arguments Ok {A} a.
Arguments Throw {A} e.
Arguments Crash {A} f.

#[export] Instance outcome_eq_dec {A} `{EqDecision A} : EqDecision (outcome A).
Proof. solve_decision. Defined.

#[export] Instance outcome_ret : MRet outcome := fun A => @Ok A.
#[export] Instance outcome_bind : MBind outcome := fun A B f m =>
  match m with Ok a => f a | Throw e => Throw e | Crash c => Crash c end.

(** [try m h]: a [try]/[catch (std::exception const&)] block. *)
Definition try_catch {A} (m : outcome A) (h : exn -> outcome A) : outcome A :=
  match m with Throw e => h e | _ => m end.

Definition is_ok {A} (m : outcome A) : bool :=
  match m with Ok _ => true | _ => false end.

(** [assert(b)] at [site]. *)
Definition assert_ (b : bool) (site : string) : outcome unit :=
  if b then Ok tt else Crash (AssertFailed site).

Lemma outcome_bind_Ok {A B} (m : outcome A) (f : A -> outcome B) b :
  m ≫= f = Ok b <-> exists a, m = Ok a /\ f a = Ok b.
Proof. destruct m; simpl; naive_solver. Qed.

Lemma assert_Ok b site u : assert_ b site = Ok u <-> b = true.
Proof. destruct u, b; simpl; naive_solver. Qed.

(** ** Stateful computations that keep the state when they fail *)

(** Member functions that mutate [this] and may throw: the object's state after
    the call is part of the result whether the call returned or not. *)
Definition M (S A : Type) : Type := S -> S * outcome A.

#[export] Instance M_ret {S} : MRet (M S) := fun A a s => (s, Ok a).
#[export] Instance M_bind {S} : MBind (M S) := fun A B f m s =>
  match m s with
  | (s', Ok a) => f a s'
  | (s', Throw e) => (s', Throw e)
  | (s', Crash c) => (s', Crash c)
  end.

Definition getS {S} : M S S := fun s => (s, Ok s).
Definition modify {S} (f : S -> S) : M S unit := fun s => (f s, Ok tt).
Definition lift {S A} (m : outcome A) : M S A := fun s => (s, m).
Definition throw {S A} (e : exn) : M S A := fun s => (s, Throw e).
Definition crash {S A} (c : fault) : M S A := fun s => (s, Crash c).
Definition catchM {S A} (m : M S A) (h : exn -> M S A) : M S A := fun s =>
  match m s with (s', Throw e) => h e s' | r => r end.

Lemma M_bind_Ok {S A B} (m : M S A) (f : A -> M S B) s s' b :
  (m ≫= f) s = (s', Ok b) <->
  exists s1 a, m s = (s1, Ok a) /\ f a s1 = (s', Ok b).
Proof.
  unfold mbind, M_bind. destruct (m s) as [s1 [a|e|c]]; split; naive_solver.
Qed.

Lemma M_bind_assoc {S A B D} (m : M S A) (f : A -> M S B) (g : B -> M S D) s :
  (m ≫= fun a => f a ≫= g) s = ((m ≫= f) ≫= g) s.
Proof. unfold mbind, M_bind. by destruct (m s) as [s1 [a|e|c]]. Qed.

(** [keeps R m]: however [m] ends, its states are related by [R]. *)
Section Keeps.
Context {S : Type} (R : relation S) {R_preorder : PreOrder R}.

Definition keeps {A} (m : M S A) : Prop := forall s, R s (m s).1.

Lemma keeps_bind {A B} (m : M S A) (f : A -> M S B) : keeps m -> (forall a, keeps (f a)) -> keeps (m ≫= f).
Proof.
  intros Hm Hf s. specialize (Hm s). unfold mbind, M_bind. destruct (m s) as [s1 [a|e|c]]; simpl in *; [|done..].
  etransitivity; [exact Hm|apply Hf].
Qed.

Lemma keeps_same {A} (m : M S A) : (forall s, (m s).1 = s) -> keeps m.
Proof. intros H s. by rewrite H. Qed.

Lemma keeps_modify f : (forall s, R s (f s)) -> keeps (modify f).
Proof. intros H s. apply H. Qed.

Lemma keeps_catch {A} (m : M S A) (h : exn -> M S A) : keeps m -> (forall e, keeps (h e)) -> keeps (catchM m h).
Proof.
  intros Hm Hh s. specialize (Hm s). unfold catchM. destruct (m s) as [s1 [a|e|c]]; simpl in *; [done| |done].
  etransitivity; [exact Hm|apply Hh].
Qed.
End Keeps.

(** [wpx R m Q s]: from [s], [m] does not crash, every exception it throws
    satisfies [R], and [Q] holds of the state and value it returns. *)
Definition wpx {S A} (R : exn -> Prop) (m : M S A) (Q : S -> A -> Prop) (s : S) : Prop :=
  match m s with
  | (s', Ok a) => Q s' a
  | (_, Throw e) => R e
  | (_, Crash _) => False
  end.

(** Only standard exceptions; no exception at all. *)
Notation wp := (wpx (fun e => is_std e = true)).
Notation wp_total := (wpx (fun _ => False)).

Lemma wp_bind {S A B} (R : exn -> Prop) (m : M S A) (f : A -> M S B) Q s :
  wpx R m (fun s' a => wpx R (f a) Q s') s -> wpx R (m ≫= f) Q s.
Proof. unfold wpx, mbind, M_bind. by destruct (m s) as [s1 [a|e|c]]. Qed.

Lemma wp_ret {S A} (R : exn -> Prop) (a : A) (Q : S -> A -> Prop) s : Q s a -> wpx R (mret a) Q s.
Proof. done. Qed.

Lemma wp_getS {S} (R : exn -> Prop) (Q : S -> S -> Prop) s : Q s s -> wpx R getS Q s.
Proof. done. Qed.

Lemma wp_modify {S} (R : exn -> Prop) (f : S -> S) Q s : Q (f s) tt -> wpx R (modify f) Q s.
Proof. done. Qed.

Lemma wp_lift {S A} (R : exn -> Prop) (o : outcome A) (Q : S -> A -> Prop) s :
  match o with Ok a => Q s a | Throw e => R e | Crash _ => False end -> wpx R (lift o) Q s.
Proof. unfold wpx, lift. by destruct o. Qed.

Lemma wp_mono {S A} (R : exn -> Prop) (m : M S A) (Q Q' : S -> A -> Prop) s :
  wpx R m Q s -> (forall s' a, Q s' a -> Q' s' a) -> wpx R m Q' s.
Proof. unfold wpx. destruct (m s) as [s1 [a|e|c]]; auto. Qed.

(** ** Machine integers *)

(** [int] is 32 bits wide on every platform the project builds for; overflow of
    a signed operation is undefined, so arithmetic results are range-checked. *)
Definition INT_MAX : Z := 2 ^ 31 - 1.
Definition INT_MIN : Z := - 2 ^ 31.
Definition int_ok (z : Z) : bool := (INT_MIN <=? z) && (z <=? INT_MAX).
Definition as_int (z : Z) (site : string) : outcome Z :=
  if int_ok z then Ok z else Crash (Undefined site).

Lemma int_ok_spec z : int_ok z = true <-> - 2147483648 <= z <= 2147483647.
Proof. unfold int_ok, INT_MIN, INT_MAX. rewrite andb_true_iff, !Z.leb_le. lia. Qed.

(** A wider value converted to [int]: the low 32 bits, two's complement. *)
Definition narrow_int (z : Z) : Z := (z + 2 ^ 31) mod 2 ^ 32 - 2 ^ 31.

Lemma narrow_int_id z : int_ok z = true -> narrow_int z = z.
Proof. intros H%int_ok_spec. unfold narrow_int. rewrite Z.mod_small; lia. Qed.

Lemma narrow_int_mod z : narrow_int z mod 2 ^ 32 = z mod 2 ^ 32.
Proof.
  unfold narrow_int. rewrite Zminus_mod, Zmod_mod, <- Zminus_mod. f_equal. lia.
Qed.

(** ** Tactics *)

(** Split a boolean condition of the code into propositions. *)
Ltac bsimpl :=
  repeat match goal with
  | H : _ && _ = true |- _ => apply andb_true_iff in H; destruct H
  | H : _ || _ = false |- _ => apply orb_false_iff in H; destruct H
  | H : negb _ = true |- _ => apply negb_true_iff in H
  | H : negb _ = false |- _ => apply negb_false_iff in H
  | H : (_ <=? _)%Z = true |- _ => apply Z.leb_le in H
  | H : (_ <=? _)%Z = false |- _ => apply Z.leb_gt in H
  | H : (_ <? _)%Z = true |- _ => apply Z.ltb_lt in H
  | H : (_ <? _)%Z = false |- _ => apply Z.ltb_ge in H
  | H : (_ >? _)%Z = true |- _ => rewrite Z.gtb_ltb in H; apply Z.ltb_lt in H
  | H : (_ >? _)%Z = false |- _ => rewrite Z.gtb_ltb in H; apply Z.ltb_ge in H
  | H : (_ >=? _)%Z = true |- _ => rewrite Z.geb_leb in H; apply Z.leb_le in H
  | H : (_ >=? _)%Z = false |- _ => rewrite Z.geb_leb in H; apply Z.leb_gt in H
  | H : (_ =? _)%Z = true |- _ => apply Z.eqb_eq in H
  | H : (_ =? _)%Z = false |- _ => apply Z.eqb_neq in H
  end.

(** Case analysis on the first [if] or [match] of the goal, with its equation. *)
Ltac case_goal :=
  match goal with
  | |- context [if ?b then _ else _] => let E := fresh "E" in destruct b eqn:E
  | |- context [match ?x with _ => _ end] => let E := fresh "E" in destruct x eqn:E
  end.

Ltac case_hyp H :=
  match type of H with
  | context [if ?b then _ else _] => let E := fresh "E" in destruct b eqn:E
  | context [match ?x with _ => _ end] => let E := fresh "E" in destruct x eqn:E
  end.

Create HintDb thumb discriminated.

(** Discharge [x = true] side conditions of the code's guards. *)
Ltac solve_guard := rewrite ?andb_true_iff, ?orb_true_iff, ?negb_true_iff,
  ?Z.leb_le, ?Z.ltb_lt, ?Z.eqb_eq, ?Z.leb_gt, ?Z.ltb_ge, ?Z.eqb_neq; try lia.

(** ** Sums over the entries of a map *)

Section MapSum.
Context `{Countable K} {A : Type} (f : A -> Z).
Implicit Types (m : gmap K A).

Definition map_sum m : Z := map_fold (fun _ a n => f a + n) 0 m.

Lemma map_sum_empty : map_sum ∅ = 0.
Proof. apply map_fold_empty. Qed.

Lemma map_sum_insert m i x :
  m !! i = None -> map_sum (<[i:=x]> m) = f x + map_sum m.
Proof. intros Hi. unfold map_sum. rewrite map_fold_insert_L; [done| |done]. intros. lia. Qed.

Lemma map_sum_delete m i x :
  m !! i = Some x -> map_sum m = f x + map_sum (delete i m).
Proof. intros Hi. unfold map_sum. rewrite (map_fold_delete_L _ _ i x m); [done| |done]. intros. lia. Qed.

Lemma map_sum_update m i x y :
  m !! i = Some x -> map_sum (<[i:=y]> m) = map_sum m - f x + f y.
Proof.
  intros Hi. rewrite (map_sum_delete m i x Hi), <- insert_delete_eq.
  rewrite map_sum_insert by apply lookup_delete_eq. lia.
Qed.

Lemma map_sum_nonneg m : (forall x, 0 <= f x) -> 0 <= map_sum m.
Proof.
  intros Hf. unfold map_sum. apply (map_fold_weak_ind (fun r _ => 0 <= r)); [lia|].
  intros i x m' r _ Hr. specialize (Hf x). lia.
Qed.

Lemma map_sum_const n m : (forall x, f x = n) -> map_sum m = n * Z.of_nat (size m).
Proof.
  intros Hf. induction m as [|i x m Hi IH] using map_ind; [by rewrite map_sum_empty, map_size_empty, Z.mul_0_r|].
  rewrite map_sum_insert, map_size_insert_None, IH, Hf by done. lia.
Qed.
End MapSum.

(** Counting the entries that satisfy [f]. *)
Section MapCount.
Context `{Countable K} {A : Type} (f : A -> bool).
Implicit Types (m : gmap K A).

Definition map_count m : Z := map_sum (fun a => Z.b2z (f a)) m.

Lemma map_count_empty : map_count ∅ = 0.
Proof. apply map_sum_empty. Qed.

Lemma map_count_insert m i x :
  m !! i = None -> map_count (<[i:=x]> m) = Z.b2z (f x) + map_count m.
Proof. apply (map_sum_insert (fun a => Z.b2z (f a))). Qed.

Lemma map_count_delete m i x :
  m !! i = Some x -> map_count m = Z.b2z (f x) + map_count (delete i m).
Proof. apply (map_sum_delete (fun a => Z.b2z (f a))). Qed.

Lemma map_count_update m i x y :
  m !! i = Some x -> map_count (<[i:=y]> m) = map_count m - Z.b2z (f x) + Z.b2z (f y).
Proof. apply (map_sum_update (fun a => Z.b2z (f a))). Qed.

Lemma map_count_nonneg m : 0 <= map_count m.
Proof. apply map_sum_nonneg. intros x. by destruct (f x). Qed.

Lemma map_count_pos m : 0 < map_count m -> exists i x, m !! i = Some x /\ f x = true.
Proof.
  induction m as [|i x m Hi IH] using map_ind; [rewrite map_count_empty; lia|].
  rewrite map_count_insert by done. destruct (f x) eqn:E; simpl; intros Hp.
  - exists i, x. by rewrite lookup_insert_eq.
  - destruct IH as (j & y & Hj & Hy); [lia|]. exists j, y.
    rewrite lookup_insert_ne by congruence. done.
Qed.

Lemma map_count_none m : (forall i x, m !! i = Some x -> f x = false) -> map_count m = 0.
Proof.
  intros Hno. pose proof (map_count_nonneg m). destruct (decide (0 < map_count m)) as [Hp|]; [|lia].
  apply map_count_pos in Hp as (i & x & Hi & Hx). by rewrite (Hno i x Hi) in Hx.
Qed.
End MapCount.

(** A relation between states of the invariant [inv] that always lowers [n], or
    keeps it and takes a terminating step [S] of the part [f], or keeps both and
    lowers [k]. *)
Lemma lex_acc {A B} (R : A -> A -> Prop) (inv : A -> Prop) (n k : A -> nat) (f : A -> B) (S : B -> B -> Prop) :
  (forall a a', inv a -> R a a' -> inv a') ->
  (forall a, inv a -> Acc (fun y x => S x y) (f a)) ->
  (forall a a', inv a -> R a a' ->
    (n a' < n a)%nat \/ n a' = n a /\ (S (f a) (f a') \/ f a' = f a /\ (k a' < k a)%nat)) ->
  forall a, inv a -> Acc (fun y x => R x y) a.
Proof.
  intros Hinv Hacc Hstep. enough (H : forall i a, n a = i -> inv a -> Acc (fun y x => R x y) a) by eauto.
  induction i as [i IHn] using lt_wf_ind. intros a Hn Ha. specialize (Hacc a Ha) as Hb. remember (f a) as b eqn:Hf.
  revert a Hn Hf Ha. induction Hb as [b _ IHb].
  enough (H : forall j a, k a = j -> n a = i -> b = f a -> inv a -> Acc (fun y x => R x y) a) by eauto.
  induction j as [j IHk] using lt_wf_ind. intros a Hk Hn Hf Ha. constructor. intros a' Hr.
  pose proof (Hinv _ _ Ha Hr) as Ha'. destruct (Hstep _ _ Ha Hr) as [Hlt|[Hu [Hs|[Hv Hlt]]]].
  - eapply IHn; [|reflexivity|done]. lia.
  - eapply (IHb (f a')); [by subst|congruence|done|done].
  - eapply (IHk (k a')); [lia|done|congruence|congruence|done].
Qed.

(** What every step keeps holds at the end of a run. *)
Lemma rtc_invariant {A} (R : relation A) (inv : A -> Prop) x y :
  (forall a b, inv a -> R a b -> inv b) -> rtc R x y -> inv x -> inv y.
Proof. intros Hs. induction 1; eauto. Qed.
