(* ===== verification/CxxLib.v ===== *)
(** * The C++ standard library functions the sources use on strings

    [std::to_string], [std::stoi], [std::stoll] and the formatted extraction of
    an [int] from a stream, in the "C" locale. *)

From S2P Require Import Prelude.
From Stdlib Require Import Decimal DecimalString DecimalZ DecimalPos.

Module Cxx.

Definition NUL : ascii := "000"%char.
Definition nul : string := String NUL EmptyString.

(** [std::to_string(int)]. *)
Definition to_string (z : Z) : string := NilZero.string_of_int (Z.to_int z).

Definition digit_val (c : ascii) : option Z :=
  let n := Z.of_nat (nat_of_ascii c) in
  if (48 <=? n) && (n <=? 57) then Some (n - 48) else None.

Definition isspace (c : ascii) : bool :=
  let n := Z.of_nat (nat_of_ascii c) in ((9 <=? n) && (n <=? 13)) || (n =? 32).

Fixpoint skip_space (s : string) : string :=
  match s with
  | String c s' => if isspace c then skip_space s' else s
  | EmptyString => s
  end.

(** The longest run of digits: its value on top of [acc], and what follows. *)
Fixpoint scan_digits (s : string) (acc : Z) : Z * string :=
  match s with
  | String c s' =>
      match digit_val c with
      | Some d => scan_digits s' (10 * acc + d)
      | None => (acc, s)
      end
  | EmptyString => (acc, s)
  end.

(** Optional white space, optional sign, one or more digits. *)
Definition scan_int (s : string) : option (Z * string) :=
  let s1 := skip_space s in
  let '(neg, s2) :=
    match s1 with
    | String "-" t => (true, t)
    | String "+" t => (false, t)
    | _ => (false, s1)
    end in
  match s2 with
  | String c _ =>
      match digit_val c with
      | Some _ => let '(v, r) := scan_digits s2 0 in Some ((if neg then - v else v), r)
      | None => None
      end
  | EmptyString => None
  end.

(** [std::stoi]: trailing characters are ignored. *)
Definition stoi (s : string) : outcome Z :=
  match scan_int s with
  | None => Throw (invalid_argument "stoi")
  | Some (v, _) => if int_ok v then Ok v else Throw (out_of_range "stoi")
  end.

Definition LLONG_MAX : Z := 2 ^ 63 - 1.
Definition LLONG_MIN : Z := - 2 ^ 63.

Definition stoll (s : string) : outcome Z :=
  match scan_int s with
  | None => Throw (invalid_argument "stoll")
  | Some (v, _) =>
      if (LLONG_MIN <=? v) && (v <=? LLONG_MAX) then Ok v else Throw (out_of_range "stoll")
  end.

(** An input stream: the characters left, and the fail bit. *)
Record istream : Type := mkStream { chars : string; failed : bool }.

(** [stream >> n] for an [int] whose value was [old]: nothing happens on a
    failed stream; without digits 0 is stored, out of range the nearest limit,
    and the stream fails in both cases. *)
Definition extract_int (st : istream) (old : Z) : istream * Z :=
  if failed st then (st, old)
  else match scan_int (chars st) with
       | None => (mkStream (skip_space (chars st)) true, 0)
       | Some (v, r) =>
           if v <? INT_MIN then (mkStream r true, INT_MIN)
           else if INT_MAX <? v then (mkStream r true, INT_MAX)
           else (mkStream r false, v)
       end.

(** Characters of a string, and membership. *)
Fixpoint mem_char (c : ascii) (s : string) : bool :=
  match s with
  | EmptyString => false
  | String d s' => if Ascii.eqb c d then true else mem_char c s'
  end.

Definition nul_free (s : string) : Prop := mem_char NUL s = false.

(** [s.find(p) == 0] and [QString::endsWith]-like prefix tests. *)
Fixpoint starts_with (p s : string) : bool :=
  match p, s with
  | EmptyString, _ => true
  | String c p', String d s' => if Ascii.eqb c d then starts_with p' s' else false
  | _, EmptyString => false
  end.

#[global] Arguments starts_with : simpl never.

(** ** Lemmas *)

Lemma app_assoc_s (a b c : string) : ((a +:+ b) +:+ c) = (a +:+ (b +:+ c)).
Proof. induction a as [|x a IH]; [done|]. cbn. by f_equal. Qed.

Lemma app_nil_s (a : string) : (a +:+ EmptyString) = a.
Proof. induction a as [|x a IH]; [done|]. cbn. by f_equal. Qed.

(** Right-nest appends, computing on literal strings. *)
Ltac append_norm := repeat (progress (rewrite ?app_assoc_s; cbn [String.append])).

Lemma mem_char_app c a b : mem_char c (a +:+ b) = mem_char c a || mem_char c b.
Proof. induction a as [|d a IH]; [done|]. cbn. destruct (Ascii.eqb c d); [done|]. apply IH. Qed.

(** Two strings cut at their first NUL. *)
Lemma nul_split a b r s :
  nul_free a -> nul_free b ->
  a +:+ String NUL r = b +:+ String NUL s -> a = b /\ r = s.
Proof.
  unfold nul_free. revert b. induction a as [|c a IH]; intros [|d b]; cbn; intros Ha Hb H.
  - by injection H.
  - injection H as <- ?. by rewrite Ascii.eqb_refl in Hb.
  - injection H as -> ?. by rewrite Ascii.eqb_refl in Ha.
  - injection H as -> H. destruct (Ascii.eqb NUL d); [done|].
    destruct (IH b) as [-> ->]; done.
Qed.

Lemma nul_absent a b s : nul_free a -> a = b +:+ String NUL s -> False.
Proof.
  unfold nul_free. intros Ha ->. rewrite mem_char_app in Ha.
  change (mem_char NUL (String NUL s)) with true in Ha. by rewrite orb_true_r in Ha.
Qed.

(** ... and at their last one. *)
Lemma nul_split_last a b r s :
  nul_free r -> nul_free s ->
  a +:+ String NUL r = b +:+ String NUL s -> a = b /\ r = s.
Proof.
  revert b. induction a as [|c a IH]; intros [|d b] Hr Hs H; cbn in H.
  - by injection H.
  - injection H as _ H. by apply nul_absent in H.
  - injection H as _ H. symmetry in H. by apply nul_absent in H.
  - injection H as -> H. destruct (IH b) as [-> ->]; done.
Qed.

Lemma uint_no_nul d : nul_free (NilEmpty.string_of_uint d).
Proof. unfold nul_free. induction d; cbn; auto. Qed.

Lemma to_string_nul_free z : nul_free (to_string z).
Proof.
  unfold to_string, NilZero.string_of_int, NilZero.string_of_uint.
  destruct (Z.to_int z) as [d|d]; destruct d; try apply uint_no_nul; try done;
    unfold nul_free; cbn; apply uint_no_nul.
Qed.

(** Compute the code of a literal character. *)
Ltac char_value := repeat match goal with
  | |- context [Z.of_nat (nat_of_ascii ?c)] =>
      let v := eval vm_compute in (Z.of_nat (nat_of_ascii c)) in
      change (Z.of_nat (nat_of_ascii c)) with v
  | |- context [isspace (Ascii ?a ?b ?c ?d ?e ?f ?g ?h)] =>
      let v := eval vm_compute in (isspace (Ascii a b c d e f g h)) in
      change (isspace (Ascii a b c d e f g h)) with v
  | |- context [digit_val (Ascii ?a ?b ?c ?d ?e ?f ?g ?h)] =>
      let v := eval vm_compute in (digit_val (Ascii a b c d e f g h)) in
      change (digit_val (Ascii a b c d e f g h)) with v
  end.

(** [r] does not start with a digit, so a number printed before it ends there. *)
Definition ends_number (r : string) : Prop :=
  match r with String c _ => digit_val c = None | EmptyString => True end.

Lemma scan_digits_end r acc : ends_number r -> scan_digits r acc = (acc, r).
Proof. destruct r as [|c r]; cbn; [done|]. by intros ->. Qed.

Lemma scan_digits_uint_acc d r acc :
  ends_number r ->
  scan_digits (NilEmpty.string_of_uint d +:+ r) (Z.pos acc) =
    (Z.pos (Pos.of_uint_acc d acc), r).
Proof.
  intros Hr. revert acc. induction d; intros acc; [by apply scan_digits_end|..];
    cbn [Pos.of_uint_acc]; rewrite <- IHd; cbn -[Z.mul Z.add Pos.mul Pos.add]; f_equal; char_value; lia.
Qed.

Lemma scan_digits_uint d r :
  ends_number r ->
  scan_digits (NilEmpty.string_of_uint d +:+ r) 0 = (Z.of_N (Pos.of_uint d), r).
Proof.
  intros Hr. induction d; try exact IHd; [by apply scan_digits_end|..];
    cbn -[Z.mul Z.add]; rewrite <- scan_digits_uint_acc by done; done.
Qed.

Lemma scan_int_uint d r :
  d <> Nil -> ends_number r ->
  scan_int (NilEmpty.string_of_uint d +:+ r) = Some (Z.of_N (Pos.of_uint d), r) /\
  scan_int (String "-" (NilEmpty.string_of_uint d +:+ r)) = Some (- Z.of_N (Pos.of_uint d), r).
Proof.
  intros Hd Hr. pose proof (scan_digits_uint d r Hr) as Hsc.
  unfold scan_int. change (skip_space (String "-" ?s)) with (String "-" s).
  destruct d; try done; cbn [NilEmpty.string_of_uint String.append] in *;
    cbn -[scan_digits Z.of_N isspace digit_val]; char_value;
    cbn -[scan_digits Z.of_N]; rewrite Hsc; char_value; done.
Qed.

Lemma string_of_nonnil d :
  d <> Nil -> NilZero.string_of_uint d = NilEmpty.string_of_uint d.
Proof. by destruct d. Qed.

(** What [to_string] prints reads back, whatever non-digit follows. *)
Lemma scan_int_to_string z r :
  ends_number r -> scan_int (to_string z +:+ r) = Some (z, r).
Proof.
  intros Hr. pose proof (DecimalZ.of_to z) as Hz. unfold to_string, NilZero.string_of_int.
  destruct z as [|p|p]; cbn [Z.to_int] in *.
  - apply (scan_int_uint (D0 Nil)); done.
  - pose proof (DecimalPos.Unsigned.to_uint_nonnil p) as Hn.
    rewrite string_of_nonnil by done. destruct (scan_int_uint _ r Hn Hr) as [-> _].
    unfold Z.of_int, Z.of_uint in Hz. by rewrite Hz.
  - pose proof (DecimalPos.Unsigned.to_uint_nonnil p) as Hn.
    rewrite string_of_nonnil by done. destruct (scan_int_uint _ r Hn Hr) as [_ H].
    change (String "-" ?a +:+ r) with (String "-" (a +:+ r)). rewrite H.
    unfold Z.of_int, Z.of_uint in Hz. by rewrite Hz.
Qed.

Lemma to_string_inj z1 z2 : to_string z1 = to_string z2 -> z1 = z2.
Proof.
  intros H. pose proof (scan_int_to_string z1 EmptyString I) as H1.
  pose proof (scan_int_to_string z2 EmptyString I) as H2.
  rewrite H in H1. congruence.
Qed.

Lemma stoi_to_string z : int_ok z = true -> stoi (to_string z) = Ok z.
Proof.
  intros Hz. unfold stoi. rewrite <- (app_nil_s (to_string z)).
  rewrite scan_int_to_string by done. by rewrite Hz.
Qed.

Lemma stoll_to_string z : LLONG_MIN <= z <= LLONG_MAX -> stoll (to_string z) = Ok z.
Proof.
  intros Hz. unfold stoll. rewrite <- (app_nil_s (to_string z)).
  rewrite scan_int_to_string by done.
  destruct (LLONG_MIN <=? z) eqn:E1, (z <=? LLONG_MAX) eqn:E2; bsimpl; simpl; done || lia.
Qed.

Lemma extract_int_to_string z r old :
  int_ok z = true -> ends_number r ->
  extract_int (mkStream (to_string z +:+ r) false) old = (mkStream r false, z).
Proof.
  intros Hz Hr. unfold extract_int. cbn [failed chars]. rewrite scan_int_to_string by done.
  apply int_ok_spec in Hz. unfold INT_MIN, INT_MAX. repeat case_goal; bsimpl; try done; lia.
Qed.

End Cxx.

#[export] Hint Resolve Cxx.to_string_nul_free : thumb.
