(* ===== verification/Exceptions.v ===== *)
(** * The exception classes (src/src/Exception.cpp, UnityExceptions.cpp)

    Exception objects live in a heap and are referred to by address, the way
    [exception_ptr] does; an object keeps the one that was being handled when it
    was constructed ([nested_exception]) and the one it was told to remember.
    [to_string] follows both.  [exn] of Prelude.v is the view the rest of the
    development has of an exception; [what_renders] justifies it. *)

From S2P Require Import Prelude CxxLib.
Import Cxx.

Module Exceptions.

Inductive Class : Type :=
  | InvalidArgumentException | LogicException | ShutdownException | FileException
  | SyscallException | ResourceException.

#[export] Instance Class_eq_dec : EqDecision Class.
Proof. solve_decision. Defined.

(** [std::exception_ptr]: an address or null. *)
Definition ptr : Type := option nat.

(** [unity::Exception], its [std::nested_exception] and the [err_] of the two
    classes that have one. *)
Record Exception : Type := mkException {
  class_ : Class;
  name_ : string;
  reason_ : string;
  what_ : string;
  earlier_ : ptr;
  nested_ : ptr;
  err_ : Z
}.

(** An exception object: ours, another that derives from [std::nested_exception]
    and perhaps from [std::exception], or any other. *)
Inductive object : Type :=
  | Unity (e : Exception)
  | WithNested (e : exn) (nested : ptr)
  | Plain (e : exn).

(** The objects, each at its place in the order of their creation; an
    [exception_ptr] keeps its object alive. *)
Notation Heap := (list object).

(** *** Construction *)

(** [Exception(name, reason)] while [current] is being handled. *)
Definition Exception_ctor (current : ptr) (c : Class) (name reason : string) (err : Z) : outcome Exception :=
  _ ← assert_ (negb (bool_decide (name = ""))) "Exception()";
  Ok (mkException c name reason "" None current err).

Definition reason_with_errno (reason : string) (err : Z) : string :=
  reason +:+ (if bool_decide (reason = "") then "" else " ") +:+ "(errno = " +:+ to_string err +:+ ")".

(** The constructors of the derived classes. *)
Definition InvalidArgumentException_ctor (current : ptr) (reason : string) : outcome Exception :=
  Exception_ctor current InvalidArgumentException "unity::InvalidArgumentException" reason 0.
Definition LogicException_ctor (current : ptr) (reason : string) : outcome Exception :=
  Exception_ctor current LogicException "unity::LogicException" reason 0.
Definition ShutdownException_ctor (current : ptr) (reason : string) : outcome Exception :=
  Exception_ctor current ShutdownException "unity::ShutdownException" reason 0.
Definition FileException_ctor (current : ptr) (reason : string) (err : Z) : outcome Exception :=
  Exception_ctor current FileException "unity::FileException" (reason_with_errno reason err) err.
Definition SyscallException_ctor (current : ptr) (reason : string) (err : Z) : outcome Exception :=
  Exception_ctor current SyscallException "unity::SyscallException" (reason_with_errno reason err) err.
Definition ResourceException_ctor (current : ptr) (reason : string) : outcome Exception :=
  Exception_ctor current ResourceException "unity::ResourceException" reason 0.

Definition make (current : ptr) (c : Class) (reason : string) (err : Z) : outcome Exception :=
  match c with
  | InvalidArgumentException => InvalidArgumentException_ctor current reason
  | LogicException => LogicException_ctor current reason
  | ShutdownException => ShutdownException_ctor current reason
  | FileException => FileException_ctor current reason err
  | SyscallException => SyscallException_ctor current reason err
  | ResourceException => ResourceException_ctor current reason
  end.

(** A new object. *)
Definition alloc (o : object) : M Heap nat := fun h => (h ++ [o], Ok (length h)).

Definition deref (i : nat) : M Heap Exception := fun h =>
  match h !! i with
  | Some (Unity e) => (h, Ok e)
  | _ => (h, Crash (Undefined "unity::Exception: lifetime"))
  end.
Definition update (i : nat) (e : Exception) : M Heap unit := modify (fun h => <[i := Unity e]> h).

(** [self()] copies the object; [remember()] returns the copy. *)
Definition self (i : nat) : M Heap nat := e ← deref i; alloc (Unity e).

Definition set_earlier (p : ptr) (e : Exception) : Exception :=
  mkException (class_ e) (name_ e) (reason_ e) (what_ e) p (nested_ e) (err_ e).
Definition set_what (w : string) (e : Exception) : Exception :=
  mkException (class_ e) (name_ e) (reason_ e) w (earlier_ e) (nested_ e) (err_ e).

Definition remember (i : nat) (earlier_exception : ptr) : M Heap nat :=
  e ← deref i;
  _ ← (if negb (bool_decide (earlier_ e = earlier_exception)) then update i (set_earlier earlier_exception e) else mret tt);
  self i.

Definition get_earlier (e : Exception) : ptr := earlier_ e.
Definition name (e : Exception) : string := name_ e.
Definition reason (e : Exception) : string := reason_ e.
Definition error (e : Exception) : Z := err_ e.

(** [operator=] of a class; the two objects have that class. *)
Definition assign (i j : nat) : M Heap unit := e ← deref j; update i e.

(** *** Printing *)

(** [name()] and [reason()] as the code appends them to a string. *)
Definition own_text (e : Exception) : string := name_and_reason (name_ e) (reason_ e).

Definition print_name_and_reason (s : string) (o : object) : string :=
  match o with
  | Unity e => s +:+ own_text e
  | WithNested e _ | Plain e =>
      if is_std e then (s +:+ exn_what e) +:+ " (derived from std::exception and std::nested_exception)"
      else s +:+ "std::nested_exception"
  end.

(** The exception an object is when it is thrown out of the printing code. *)
Definition thrown (o : object) : exn :=
  match o with
  | Unity e => unity_exception (name_ e) (reason_ e)
  | WithNested e _ | Plain e => e
  end.

Definition overflow {A} : outcome A := Crash (Undefined "stack overflow").

(** [to_string], [follow_nested] and [follow_history] call each other; a chain of
    pointers that closes on itself has them recurse until the stack is exhausted. *)
Fixpoint to_string_at (fuel : nat) (h : Heap) (e : Exception) (indent_level : nat) (indent : string) : outcome string :=
  match fuel with
  | O => overflow
  | S fuel =>
      let s := margin indent_level indent +:+ own_text e in
      s ← match get_earlier e with
          | None => Ok s
          | Some p =>
              let s := s +:+ newline +:+ margin indent_level indent +:+ indent +:+ "Exception history:" in
              match h !! p with
              | Some (Unity e') =>
                  r ← follow_history fuel h s e' (indent_level + 2) indent;
                  Ok (fst r)
              | Some o => Throw (thrown o)
              | None => Crash (Undefined "exception_ptr")
              end
          end;
      follow_nested fuel h s (nested_ e) indent_level indent
  end
with follow_nested (fuel : nat) (h : Heap) (s : string) (nested : ptr) (indent_level : nat) (indent : string) : outcome string :=
  match fuel with
  | O => overflow
  | S fuel =>
      match nested with
      | None => Ok s
      | Some p =>
          let s := s +:+ ":" +:+ newline in
          match h !! p with
          | Some (Unity e) =>
              t ← to_string_at fuel h e (S indent_level) indent;
              Ok (s +:+ t)
          | Some (WithNested x n) =>
              follow_nested fuel h (print_name_and_reason (s +:+ margin indent_level indent +:+ indent) (WithNested x n)) n
                (S indent_level) indent
          | Some (Plain x) =>
              Ok ((s +:+ margin indent_level indent +:+ indent) +:+ (if is_std x then exn_what x else "unknown exception"))
          | None => Crash (Undefined "exception_ptr")
          end
      end
  end
with follow_history (fuel : nat) (h : Heap) (s : string) (e : Exception) (indent_level : nat) (indent : string)
    : outcome (string * Z) :=
  match fuel with
  | O => overflow
  | S fuel =>
      r ← match get_earlier e with
          | None => Ok (s, 1)
          | Some p =>
              match h !! p with
              | Some (Unity e') =>
                  r ← follow_history fuel h s e' indent_level indent;
                  Ok (fst r, snd r + 1)
              | Some o => Throw (thrown o)
              | None => Crash (Undefined "exception_ptr")
              end
          end;
      let s := fst r +:+ newline +:+ margin indent_level indent +:+ "Exception #" +:+ to_string (snd r) +:+ ":" +:+ newline in
      let s := print_name_and_reason (s +:+ margin indent_level indent +:+ indent) (Unity e) in
      s ← follow_nested fuel h s (nested_ e) (S indent_level) indent;
      Ok (s, snd r)
  end.

(** Enough when every pointer leads to an older object ([ordered] below). *)
Definition fuel_for (h : Heap) : nat := 2 * length h + 2.

Definition to_string_default (h : Heap) (e : Exception) (indent : string) : outcome string :=
  to_string_at (fuel_for h) h e 0 indent.

(** [what()]: an exception that escapes from [to_string()] is handled. *)
Definition what (i : nat) : M Heap string := fun h =>
  match h !! i with
  | Some (Unity e) =>
      match to_string_default h e "    " with
      | Ok s => (<[i := Unity (set_what s e)]> h, Ok s)
      | Throw x => (h, Ok (if is_std x then exn_what x else "unknown exception"))
      | Crash c => (h, Crash c)
      end
  | _ => (h, Crash (Undefined "unity::Exception: lifetime"))
  end.

(** *** Programs *)

Inductive op : Type :=
  | Throw_ (current : ptr) (c : Class) (reason : string) (err : Z)
  | ThrowNested (current : ptr) (e : exn)
  | ThrowOther (e : exn)
  | Remember (i : nat) (earlier : ptr)
  | Copy (i : nat)
  | Assign (i j : nat)
  | What (i : nat).

Definition exec (o : op) : M Heap unit :=
  match o with
  | Throw_ current c reason err => e ← lift (make current c reason err); _ ← alloc (Unity e); mret tt
  | ThrowNested current e => _ ← alloc (WithNested e current); mret tt
  | ThrowOther e => _ ← alloc (Plain e); mret tt
  | Remember i p => _ ← remember i p; mret tt
  | Copy i => _ ← self i; mret tt
  | Assign i j => assign i j
  | What i => _ ← what i; mret tt
  end.

Fixpoint run (ops : list op) : M Heap unit :=
  match ops with [] => mret tt | o :: ops => _ ← exec o; run ops end.

(** ** Lemmas *)

Definition older (n : nat) (p : ptr) : Prop := forall q, p = Some q -> (q < n)%nat.

Definition older_object (n : nat) (o : object) : Prop :=
  match o with
  | Unity e => older n (earlier_ e) /\ older n (nested_ e)
  | WithNested _ p => older n p
  | Plain _ => True
  end.

(** Every exception points to exceptions that were created before it. *)
Definition ordered (h : Heap) : Prop := forall i o, h !! i = Some o -> older_object i o.

Definition no_crash {A} (m : outcome A) : Prop := match m with Crash _ => False | _ => True end.

Lemma no_crash_bind {A B} (m : outcome A) (f : A -> outcome B) :
  no_crash m -> (forall a, no_crash (f a)) -> no_crash (m ≫= f).
Proof. destruct m; simpl; auto. Qed.

Lemma older_le n m p : older n p -> (n <= m)%nat -> older m p.
Proof. intros H Hn q Hq. specialize (H q Hq). lia. Qed.

Lemma ordered_app h o : ordered h -> older_object (length h) o -> ordered (h ++ [o]).
Proof.
  intros Hh Ho i o' Hi. apply lookup_app_Some in Hi as [Hi|[Hle Hi]]; [by apply Hh|].
  apply list_lookup_singleton_Some in Hi as [Hz <-]. by replace i with (length h) by lia.
Qed.

Lemma ordered_insert h i o : ordered h -> older_object i o -> ordered (<[i := o]> h).
Proof.
  intros Hh Ho j o' Hj. destruct (decide (i = j)) as [<-|Hij].
  - apply list_lookup_insert_Some in Hj as [(_ & <- & _)|[? _]]; [done|congruence].
  - rewrite list_lookup_insert_ne in Hj by done. by apply Hh.
Qed.

(** What a pointer leads to, and that it leads to even older objects. *)
Lemma ordered_target h n p : ordered h -> (p < n)%nat -> (n <= length h)%nat ->
  exists o, h !! p = Some o /\ older_object p o.
Proof. intros Hh Hp Hn. destruct (lookup_lt_is_Some_2 h p) as [o Ho]; [lia|]. exists o. auto. Qed.

Section Total.
Context (h : Heap) (Hh : ordered h).

(** Printing ends: twice the number of older objects is fuel enough. *)
Lemma printing_ends n : (n <= length h)%nat ->
  (forall fuel e lvl indent, older n (earlier_ e) -> older n (nested_ e) -> (2 * n + 2 <= fuel)%nat ->
     no_crash (to_string_at fuel h e lvl indent)) /\
  (forall fuel s p lvl indent, older n p -> (2 * n + 1 <= fuel)%nat -> no_crash (follow_nested fuel h s p lvl indent)) /\
  (forall fuel s e lvl indent, older n (earlier_ e) -> older n (nested_ e) -> (2 * n + 2 <= fuel)%nat ->
     no_crash (follow_history fuel h s e lvl indent)).
Proof.
  induction n as [n IH] using lt_wf_ind. intros Hn.
  assert (Hnested : forall fuel s p lvl indent, older n p -> (2 * n + 1 <= fuel)%nat -> no_crash (follow_nested fuel h s p lvl indent)).
  { intros [|fuel] s [p|] lvl indent Hp Hf; [lia|lia| |done]. specialize (Hp p eq_refl).
    destruct (ordered_target h n p Hh Hp Hn) as (o & Ho & Hold). cbn [follow_nested]. rewrite Ho.
    destruct (IH p Hp ltac:(lia)) as (H1 & H2 & _). destruct o as [e|x q|x]; [|apply H2; [done|lia]|done].
    apply no_crash_bind; [|done]. destruct Hold. apply H1; [done|done|lia]. }
  assert (Hhistory : forall fuel s e lvl indent, older n (earlier_ e) -> older n (nested_ e) -> (2 * n + 2 <= fuel)%nat ->
     no_crash (follow_history fuel h s e lvl indent)).
  { intros [|fuel] s e lvl indent He Hne Hf; [lia|]. cbn [follow_history]. apply no_crash_bind.
    - unfold get_earlier. destruct (earlier_ e) as [p|]; [|done]. specialize (He p eq_refl).
      destruct (ordered_target h n p Hh He Hn) as (o & Ho & Hold). rewrite Ho.
      destruct (IH p He ltac:(lia)) as (_ & _ & H3). destruct o as [e'|x q|x]; try done.
      apply no_crash_bind; [|done]. destruct Hold. apply H3; [done|done|lia].
    - intros r. apply no_crash_bind; [|done]. apply Hnested; [done|lia]. }
  split; [|by split]. intros [|fuel] e lvl indent He Hne Hf; [lia|]. cbn [to_string_at]. apply no_crash_bind.
  - unfold get_earlier. destruct (earlier_ e) as [p|]; [|done]. specialize (He p eq_refl).
    destruct (ordered_target h n p Hh He Hn) as (o & Ho & Hold). rewrite Ho.
    destruct (IH p He ltac:(lia)) as (_ & _ & H3). destruct o as [e'|x q|x]; try done.
    apply no_crash_bind; [|done]. destruct Hold. apply H3; [done|done|lia].
  - intros s. apply Hnested; [done|lia].
Qed.
End Total.

(** [what()] returns, and the object changes in [what_] only. *)
Lemma what_ends h i e : ordered h -> h !! i = Some (Unity e) ->
  exists s w, what i h = (<[i := Unity (set_what w e)]> h, Ok s).
Proof.
  intros Hh Hi. unfold what, to_string_default. rewrite Hi. pose proof (lookup_lt_Some _ _ _ Hi) as Hlt.
  destruct (Hh i _ Hi) as [H1 H2].
  destruct (printing_ends h Hh i ltac:(lia)) as (Ht & _). specialize (Ht (fuel_for h) e 0%nat "    " H1 H2 ltac:(unfold fuel_for; lia)).
  destruct (to_string_at (fuel_for h) h e 0 "    ") as [s|x|c]; [by exists s, s| |done].
  eexists _, (what_ e). f_equal. rewrite list_insert_id; [done|]. rewrite Hi. by destruct e.
Qed.

(** *** What is printed *)

(** An address holds the exception [c], as the rest of the development sees it. *)
Inductive represents (h : Heap) : nat -> exn -> Prop :=
  | rep_unity p e : h !! p = Some (Unity e) -> earlier_ e = None -> nested_ e = None ->
      represents h p (unity_exception (name_ e) (reason_ e))
  | rep_unity_nested p e q c : h !! p = Some (Unity e) -> earlier_ e = None -> nested_ e = Some q -> represents h q c ->
      represents h p (unity_nested (name_ e) (reason_ e) c)
  | rep_plain p x : h !! p = Some (Plain x) -> (forall n r, x <> unity_exception n r) ->
      (forall n r c, x <> unity_nested n r c) -> represents h p x.

(** The text of the exception nested in one printed at [lvl]. *)
Definition nested_text (lvl : nat) (indent : string) (c : option exn) : string :=
  match c with None => "" | Some c => ":" +:+ newline +:+ exn_text (S lvl) indent c end.

Definition nested_is (h : Heap) (p : ptr) (c : option exn) : Prop :=
  match p, c with None, None => True | Some p, Some c => represents h p c | _, _ => False end.

Lemma margin_snoc n indent : margin n indent +:+ indent = margin (S n) indent.
Proof. induction n as [|n IH]; simpl; [by rewrite app_nil_s|]. by rewrite app_assoc_s, IH. Qed.

Lemma exn_text_plain lvl indent x : (forall n r c, x <> unity_nested n r c) ->
  exn_text lvl indent x = margin lvl indent +:+ (if is_std x then exn_what x else "unknown exception").
Proof. intros H. destruct x; try done. exfalso. by eapply H. Qed.

(** Both printing functions, on an exception without history. *)
Lemma represents_prints h p c : represents h p c ->
  exists n, forall fuel, (n <= fuel)%nat ->
    (forall e lvl indent, h !! p = Some (Unity e) -> to_string_at fuel h e lvl indent = Ok (exn_text lvl indent c)) /\
    (forall s lvl indent, follow_nested fuel h s (Some p) lvl indent = Ok (s +:+ nested_text lvl indent (Some c))).
Proof.
  intros Hr.
  assert (Hfrom : forall n c' p' e', h !! p' = Some (Unity e') ->
      (forall fuel, (n <= fuel)%nat -> forall lvl indent, to_string_at fuel h e' lvl indent = Ok (exn_text lvl indent c')) ->
      exists n, forall fuel, (n <= fuel)%nat ->
        (forall e lvl indent, h !! p' = Some (Unity e) -> to_string_at fuel h e lvl indent = Ok (exn_text lvl indent c')) /\
        (forall s lvl indent, follow_nested fuel h s (Some p') lvl indent = Ok (s +:+ nested_text lvl indent (Some c')))).
  { intros n c' p' e' Hp Hn. exists (S n). intros fuel Hf. split.
    - intros e lvl indent He. assert (e = e') as -> by congruence. apply Hn. lia.
    - intros s lvl indent. destruct fuel as [|fuel]; [lia|]. cbn [follow_nested]. rewrite Hp, Hn by lia.
      cbn [mbind outcome_bind]. unfold nested_text. by rewrite !app_assoc_s. }
  induction Hr as [p e Hp He Hne|p e q c Hp He Hne Hq [n IH]|p x Hp Hx1 Hx2].
  - apply (Hfrom 2%nat _ p e Hp). intros [|[|fuel]] Hf lvl indent; [lia|lia|].
    cbn [to_string_at]. unfold get_earlier. rewrite He. cbn [mbind outcome_bind follow_nested]. by rewrite Hne.
  - apply (Hfrom (S n) _ p e Hp). intros [|fuel] Hf lvl indent; [lia|].
    cbn [to_string_at]. unfold get_earlier. rewrite He. cbn [mbind outcome_bind]. rewrite Hne.
    destruct (IH fuel ltac:(lia)) as [_ ->]. unfold nested_text. cbn [exn_text]. by rewrite app_assoc_s.
  - exists 1%nat. intros [|fuel] Hf; [lia|]. split; [congruence|]. intros s lvl indent.
    cbn [follow_nested]. rewrite Hp. unfold nested_text. rewrite exn_text_plain by done.
    by rewrite <- margin_snoc, !app_assoc_s.
Qed.

Lemma nested_prints h p c : nested_is h p c ->
  exists n, forall fuel, (n <= fuel)%nat -> forall s lvl indent, follow_nested fuel h s p lvl indent = Ok (s +:+ nested_text lvl indent c).
Proof.
  destruct p as [p|], c as [c|]; try done; intros H.
  - destruct (represents_prints h p c H) as [n Hn]. exists n. intros fuel Hf. by apply Hn.
  - exists 1%nat. intros [|fuel] Hf s lvl indent; [lia|]. simpl. by rewrite app_nil_s.
Qed.

(** The history of an exception, most recent first, each with what is nested. *)
Inductive history (h : Heap) : ptr -> list (Exception * option exn) -> Prop :=
  | history_none : history h None []
  | history_some p e c l : h !! p = Some (Unity e) -> nested_is h (nested_ e) c -> history h (earlier_ e) l ->
      history h (Some p) ((e, c) :: l).

(** The entry number [k] of the history. *)
Definition entry (lvl : nat) (indent : string) (k : Z) (x : Exception * option exn) : string :=
  newline +:+ margin lvl indent +:+ "Exception #" +:+ to_string k +:+ ":" +:+ newline +:+
  margin (S lvl) indent +:+ own_text (fst x) +:+ nested_text (S lvl) indent (snd x).

(** All entries, oldest first, numbered from 1. *)
Fixpoint entries (lvl : nat) (indent : string) (l : list (Exception * option exn)) : string :=
  match l with
  | [] => ""
  | x :: l => entries lvl indent l +:+ entry lvl indent (Z.of_nat (S (length l))) x
  end.

Lemma history_prints h p l : history h p l ->
  match p with
  | None => True
  | Some p => exists e, h !! p = Some (Unity e) /\ exists n, forall fuel, (n <= fuel)%nat -> forall s lvl indent,
      follow_history fuel h s e lvl indent = Ok (s +:+ entries lvl indent l, Z.of_nat (length l))
  end.
Proof.
  induction 1 as [|p e c l Hp Hc Hl IH]; [done|]. exists e. split; [done|].
  destruct (nested_prints _ _ _ Hc) as [n Hn].
  assert (Hearlier : exists n', forall fuel, (n' <= fuel)%nat -> forall s lvl indent,
      (match get_earlier e with
       | None => Ok (s, 1)
       | Some p => match h !! p with
                   | Some (Unity e') => r ← follow_history fuel h s e' lvl indent; Ok (fst r, snd r + 1)
                   | Some o => Throw (thrown o)
                   | None => Crash (Undefined "exception_ptr") end end) =
      Ok (s +:+ entries lvl indent l, Z.of_nat (S (length l)))).
  { unfold get_earlier. destruct (earlier_ e) as [q|].
    - destruct IH as (e' & Hq & n' & Hn'). exists n'. intros fuel Hf s lvl indent. rewrite Hq, Hn' by done.
      cbn [mbind outcome_bind fst snd]. do 2 f_equal. lia.
    - inversion Hl. exists 0%nat. intros fuel _ s lvl indent. simpl. by rewrite app_nil_s. }
  destruct Hearlier as [n' Hn']. exists (S (n + n')). intros [|fuel] Hf s lvl indent; [lia|]. cbn [follow_history].
  rewrite Hn' by lia. cbn [mbind outcome_bind fst snd]. rewrite Hn by lia. cbn [outcome_bind print_name_and_reason entries length].
  unfold entry. do 2 f_equal. cbn [fst snd]. by rewrite <- margin_snoc, !app_assoc_s.
Qed.

(** *** Fuel *)

Lemma bind_same {A B} (m m' : outcome A) (f f' : A -> outcome B) :
  no_crash (m ≫= f) -> (no_crash m -> m' = m) -> (forall a, no_crash (f a) -> f' a = f a) -> (m' ≫= f') = (m ≫= f).
Proof. intros H Hm Hf. destruct m as [a|x|c]; simpl in *; [|by rewrite Hm|done]. rewrite Hm by done. simpl. auto. Qed.

(** More fuel changes nothing once it was enough. *)
Lemma fuel_enough h fuel : forall fuel', (fuel <= fuel')%nat ->
  (forall e lvl indent, no_crash (to_string_at fuel h e lvl indent) ->
     to_string_at fuel' h e lvl indent = to_string_at fuel h e lvl indent) /\
  (forall s p lvl indent, no_crash (follow_nested fuel h s p lvl indent) ->
     follow_nested fuel' h s p lvl indent = follow_nested fuel h s p lvl indent) /\
  (forall s e lvl indent, no_crash (follow_history fuel h s e lvl indent) ->
     follow_history fuel' h s e lvl indent = follow_history fuel h s e lvl indent).
Proof.
  induction fuel as [|fuel IH]; intros [|fuel'] Hle; [by split_and!|by split_and!|lia|].
  destruct (IH fuel' ltac:(lia)) as (H1 & H2 & H3). clear IH. split_and!.
  - intros e lvl indent. cbn [to_string_at]. intros Hc. apply bind_same; [done| |by intros; apply H2].
    destruct (get_earlier e) as [p|]; [|done]. destruct (h !! p) as [[e'|x n|x]|]; try done.
    intros Hc'. apply bind_same; [done| |done]. apply H3.
  - intros s p lvl indent. cbn [follow_nested]. destruct p as [p|]; [|done].
    destruct (h !! p) as [[e'|x n|x]|]; try done; [|apply H2].
    intros Hc'. apply bind_same; [done| |done]. apply H1.
  - intros s e lvl indent. cbn [follow_history]. intros Hc. apply bind_same; [done| |].
    + destruct (get_earlier e) as [p|]; [|done]. destruct (h !! p) as [[e'|x n|x]|]; try done.
      intros Hc'. apply bind_same; [done| |done]. apply H3.
    + intros r Hc'. apply bind_same; [done| |done]. apply H2.
Qed.

(** What [to_string()] adds for the history of an exception. *)
Definition history_text (lvl : nat) (indent : string) (l : list (Exception * option exn)) : string :=
  match l with
  | [] => ""
  | _ => newline +:+ margin (S lvl) indent +:+ "Exception history:" +:+ entries (lvl + 2) indent l
  end.

Lemma to_string_prints h e l c : history h (earlier_ e) l -> nested_is h (nested_ e) c ->
  exists n, forall fuel, (n <= fuel)%nat -> forall lvl indent, to_string_at fuel h e lvl indent =
    Ok (margin lvl indent +:+ own_text e +:+ history_text lvl indent l +:+ nested_text lvl indent c).
Proof.
  intros Hl Hc. destruct (nested_prints _ _ _ Hc) as [n Hn]. destruct (earlier_ e) as [p|] eqn:Ee.
  - destruct (history_prints _ _ _ Hl) as (e' & Hp & n' & Hn'). exists (S (n + n')). intros [|fuel] Hf lvl indent; [lia|].
    cbn [to_string_at]. unfold get_earlier. rewrite Ee, Hp, Hn' by lia. cbn [mbind outcome_bind fst]. rewrite Hn by lia.
    inversion Hl; subst. unfold history_text. f_equal. by rewrite <- margin_snoc, !app_assoc_s.
  - inversion Hl; subst. exists (S n). intros [|fuel] Hf lvl indent; [lia|]. cbn [to_string_at]. unfold get_earlier. rewrite Ee.
    cbn [mbind outcome_bind]. rewrite Hn by lia. by rewrite !app_assoc_s.
Qed.

Lemma what_value h i e t : ordered h -> h !! i = Some (Unity e) ->
  (exists n, forall fuel, (n <= fuel)%nat -> to_string_at fuel h e 0 "    " = Ok t) ->
  what i h = (<[i := Unity (set_what t e)]> h, Ok t).
Proof.
  intros Hh Hi [n Hn]. unfold what, to_string_default. rewrite Hi. pose proof (lookup_lt_Some _ _ _ Hi) as Hlt.
  destruct (Hh i _ Hi) as [H1 H2]. destruct (printing_ends h Hh i ltac:(lia)) as (Ht & _).
  specialize (Ht (fuel_for h) e 0%nat "    " H1 H2 ltac:(unfold fuel_for; lia)).
  destruct (fuel_enough h (fuel_for h) (n + fuel_for h) ltac:(lia)) as (Hm & _).
  rewrite <- (Hm _ _ _ Ht), Hn by lia. done.
Qed.

(** An exception without history prints as the value of Prelude.v that stands
    for it. *)
Lemma what_is_exn_what h i e c : ordered h -> h !! i = Some (Unity e) -> represents h i c ->
  (what i h).2 = Ok (exn_what c).
Proof.
  intros Hh Hi Hr. destruct (represents_prints _ _ _ Hr) as [n Hn].
  assert (Hc : exn_what c = exn_text 0 "    " c).
  { inversion Hr; try done. congruence. }
  erewrite (what_value h i e (exn_what c) Hh Hi); [done|]. exists n. intros fuel Hf. rewrite Hc. by apply Hn.
Qed.

(** *** Operations keep the order *)

(** Use within the lifetimes; an exception that is remembered or assigned from
    is older, or points to older ones. *)
Definition allowed (o : op) (h : Heap) : Prop :=
  let unity i := exists e, h !! i = Some (Unity e) in
  match o with
  | Throw_ current _ _ _ | ThrowNested current _ => older (length h) current
  | ThrowOther _ => True
  | Remember i p => unity i /\ older i p
  | Copy i | What i => unity i
  | Assign i j => unity i /\ exists e, h !! j = Some (Unity e) /\ older_object i (Unity e)
  end.

Fixpoint allowed_run (ops : list op) (h : Heap) : Prop :=
  match ops with [] => True | o :: ops => allowed o h /\ allowed_run ops (exec o h).1 end.

Lemma make_ok current c reason err : exists e, make current c reason err = Ok e /\ earlier_ e = None /\ nested_ e = current.
Proof. destruct c; eexists; by split_and!. Qed.

Lemma older_copy h i e n : ordered h -> h !! i = Some (Unity e) -> (i <= n)%nat -> older_object n (Unity e).
Proof. intros Hh Hi Hle. destruct (Hh i _ Hi) as [H1 H2]. split; by eapply older_le. Qed.

Lemma remember_run h i e p : ordered h -> h !! i = Some (Unity e) -> older i p ->
  exists h', remember i p h = (h' ++ [Unity (set_earlier p e)], Ok (length h)) /\ ordered (h' ++ [Unity (set_earlier p e)]) /\
    h' = <[i := Unity (set_earlier p e)]> h.
Proof.
  intros Hh Hi Hp. pose proof (lookup_lt_Some _ _ _ Hi) as Hlt. pose proof (Hh i _ Hi) as [_ Hn].
  set (o := Unity (set_earlier p e)). assert (Ho : older_object i o) by done.
  exists (<[i := o]> h). split_and!; [| |done].
  - unfold remember, self, mbind, M_bind. unfold deref at 1. rewrite Hi. case_bool_decide as Ee; simpl.
    + assert (o = Unity e) as -> by (unfold o; rewrite <- Ee; by destruct e).
      rewrite list_insert_id by done. unfold deref. by rewrite Hi.
    + unfold deref. rewrite list_lookup_insert_eq by done. unfold alloc. by rewrite length_insert.
  - apply ordered_app; [by apply ordered_insert|]. rewrite length_insert. split; [|by eapply older_le, Nat.lt_le_incl].
    eapply older_le; [exact Hp|lia].
Qed.

Lemma exec_ok o h : ordered h -> allowed o h -> exists h', exec o h = (h', Ok tt) /\ ordered h'.
Proof.
  intros Hh Ha. destruct o as [cur c reason err|cur x|x|i p|i|i j|i]; simpl in Ha |- *.
  - destruct (make_ok cur c reason err) as (e & He & H1 & H2). unfold mbind, M_bind, lift. rewrite He.
    eexists. split; [done|]. apply ordered_app; [done|]. split; [by rewrite H1|by rewrite H2].
  - eexists. split; [done|]. by apply ordered_app.
  - eexists. split; [done|]. by apply ordered_app.
  - destruct Ha as [[e Hi] Hp]. destruct (remember_run h i e p Hh Hi Hp) as (h' & Hr & Ho & _).
    unfold mbind, M_bind. rewrite Hr. by eexists.
  - destruct Ha as [e Hi]. pose proof (lookup_lt_Some _ _ _ Hi) as Hlt.
    unfold self, mbind, M_bind, deref. rewrite Hi. eexists. split; [done|]. apply ordered_app; [done|].
    eapply older_copy; [done|done|lia].
  - destruct Ha as [_ [e [Hj Ho]]]. unfold assign, mbind, M_bind, deref. rewrite Hj. eexists. split; [done|].
    by apply ordered_insert.
  - destruct Ha as [e Hi]. destruct (what_ends h i e Hh Hi) as (s & w & Hw). unfold mbind, M_bind. rewrite Hw.
    eexists. split; [done|]. apply ordered_insert; [done|]. by destruct (Hh i _ Hi).
Qed.

(** The history of an exception reaches an object of another class. *)
Inductive reaches_foreign (h : Heap) (o : object) : ptr -> Prop :=
  | foreign_here p : h !! p = Some o -> (forall e, o <> Unity e) -> reaches_foreign h o (Some p)
  | foreign_later p e : h !! p = Some (Unity e) -> reaches_foreign h o (earlier_ e) -> reaches_foreign h o (Some p).

(** Recalling it throws that object, whatever was printed before. *)
Lemma foreign_thrown h o p : reaches_foreign h o p -> exists n, forall fuel, (n <= fuel)%nat ->
  (forall s e lvl indent, earlier_ e = p -> follow_history fuel h s e lvl indent = Throw (thrown o)) /\
  (forall e lvl indent, earlier_ e = p -> to_string_at fuel h e lvl indent = Throw (thrown o)).
Proof.
  induction 1 as [p Hp Ho|p e Hp Hr [n IH]].
  - exists 1%nat. intros [|fuel] Hf; [lia|]. split; intros *; intros He; cbn [follow_history to_string_at]; unfold get_earlier;
      rewrite He, Hp; destruct o; try done; by destruct (Ho e0).
  - exists (S n). intros [|fuel] Hf; [lia|]. split; intros *; intros He; cbn [follow_history to_string_at]; unfold get_earlier;
      rewrite He, Hp; destruct (IH fuel ltac:(lia)) as [-> _]; done.
Qed.

(** An exception that remembers itself. *)
Lemma own_history_overflows e : earlier_ e = Some 0%nat -> forall fuel s lvl indent,
  follow_history fuel [Unity e] s e lvl indent = overflow /\ to_string_at fuel [Unity e] e lvl indent = overflow.
Proof.
  intros He. assert (H : forall fuel s lvl indent, follow_history fuel [Unity e] s e lvl indent = overflow).
  { induction fuel as [|fuel IH]; [done|]. intros s lvl indent. cbn [follow_history]. unfold get_earlier. rewrite He. simpl.
    by rewrite IH. }
  intros [|fuel] s lvl indent; [done|]. split; [apply H|]. cbn [to_string_at]. unfold get_earlier. rewrite He. simpl.
  by rewrite H.
Qed.

(** ** Properties *)

(** C34. [what()] shows everything: the name and reason of the exception, then its
    history, oldest first, numbered from 1 and each with the exceptions nested
    in it, then the exceptions nested in the exception itself, each one level
    further in. *)
Theorem what_renders h i e l c :
  ordered h -> h !! i = Some (Unity e) -> history h (earlier_ e) l -> nested_is h (nested_ e) c ->
  (what i h).2 = Ok (own_text e +:+ history_text 0 "    " l +:+ nested_text 0 "    " c).
Proof.
  intros Hh Hi Hl Hc. destruct (to_string_prints h e l c Hl Hc) as [n Hn].
  erewrite (what_value h i e _ Hh Hi); [done|]. exists n. intros fuel Hf. by rewrite Hn.
Qed.

(** Exceptions can be printed: in a program that nests an exception in later
    ones only, and lets an exception remember only earlier ones, no operation
    fails and [what()] of every exception returns, whatever was remembered.
    Without the restriction the printing need not end ([own_history_overflows]). *)
Theorem exceptions_end ops h :
  ordered h -> allowed_run ops h ->
  exists h', run ops h = (h', Ok tt) /\ ordered h' /\
    forall i e, h' !! i = Some (Unity e) -> exists s w, what i h' = (<[i := Unity (set_what w e)]> h', Ok s).
Proof.
  revert h. induction ops as [|o ops IH]; intros h Hh Ha; simpl in *.
  - exists h. split_and!; [done|done|]. intros i e. by apply what_ends.
  - destruct Ha as [Ho Ha]. destruct (exec_ok o h Hh Ho) as (h1 & He & H1). rewrite He in Ha. simpl in Ha.
    destruct (IH h1 H1 Ha) as (h' & Hr & H'). exists h'. split; [|done]. unfold mbind, M_bind. by rewrite He.
Qed.

(** A history with an exception of another library in it is not shown: [what()]
    then returns the text of that exception alone, or "unknown exception" for one
    that is not a [std::exception]; nothing of the exception asked is left. *)
Theorem foreign_history_lost h i e o :
  ordered h -> h !! i = Some (Unity e) -> reaches_foreign h o (earlier_ e) ->
  what i h = (h, Ok (if is_std (thrown o) then exn_what (thrown o) else "unknown exception")).
Proof.
  intros Hh Hi Hr. destruct (foreign_thrown _ _ _ Hr) as [n Hn]. unfold what, to_string_default. rewrite Hi.
  pose proof (lookup_lt_Some _ _ _ Hi) as Hlt. destruct (Hh i _ Hi) as [H1 H2].
  destruct (printing_ends h Hh i ltac:(lia)) as (Ht & _).
  specialize (Ht (fuel_for h) e 0%nat "    " H1 H2 ltac:(unfold fuel_for; lia)).
  destruct (fuel_enough h (fuel_for h) (n + fuel_for h) ltac:(lia)) as (Hm & _).
  rewrite <- (Hm _ _ _ Ht). destruct (Hn (n + fuel_for h)%nat ltac:(lia)) as [_ ->]; done.
Qed.

(** ** Witnesses *)

(** Two steps of a shutdown fail, the second while an exception of another
    library is handled, and a third exception reports both. *)
Definition shutdown : list op :=
  [Throw_ None FileException "open" 2;                 (* 0, and its copy 1 *)
   Remember 0 None;
   ThrowOther (runtime_error "disk full");             (* 2 *)
   Throw_ (Some 2%nat) SyscallException "" 28;         (* 3, and its copy 4 *)
   Remember 3 (Some 1%nat);
   Throw_ None ShutdownException "bye" 0;              (* 5, and its copy 6 *)
   Remember 5 (Some 4%nat)].

Lemma exceptions_end_witness : exists h', run shutdown [] = (h', Ok tt) /\ ordered h' /\
  forall i e, h' !! i = Some (Unity e) -> exists s w, what i h' = (<[i := Unity (set_what w e)]> h', Ok s).
Proof.
  apply exceptions_end; [by intros i o|]. simpl. split_and!; try done; try (by eexists);
    intros q; rewrite ?(inj_iff Some); intros; simplify_eq; lia.
Defined.

Definition shutdown_heap : Heap := (run shutdown []).1.

(** The text, with bars for line ends. *)
Example shutdown_text :
  (what 6 shutdown_heap).2 =
  Ok ("unity::ShutdownException: bye" +:+ newline +:+
      "    Exception history:" +:+ newline +:+
      "        Exception #1:" +:+ newline +:+
      "            unity::FileException: open (errno = 2)" +:+ newline +:+
      "        Exception #2:" +:+ newline +:+
      "            unity::SyscallException: (errno = 28):" +:+ newline +:+
      "                disk full").
Proof. by vm_compute. Qed.

Definition shutdown_exception (i : nat) : Exception :=
  match shutdown_heap !! i with Some (Unity e) => e | _ => mkException ResourceException "" "" "" None None 0 end.

Lemma shutdown_ordered : ordered shutdown_heap.
Proof.
  intros i o. do 7 (destruct i as [|i]; [vm_compute; intros [= <-]; try done; split; intros q [= <-]; lia|]).
  intros Hi%lookup_lt_Some. change (length shutdown_heap) with 7%nat in Hi. lia.
Qed.

Lemma what_renders_witness : (what 6 shutdown_heap).2 =
  Ok (own_text (shutdown_exception 6) +:+
      history_text 0 "    " [(shutdown_exception 4, Some (runtime_error "disk full")); (shutdown_exception 1, None)] +:+
      nested_text 0 "    " None).
Proof.
  apply what_renders; [apply shutdown_ordered|reflexivity| |done].
  apply history_some; [reflexivity|by apply rep_plain|].
  apply history_some; [reflexivity|done|]. apply history_none.
Defined.

(** The shutdown function of Exception.h: it remembers what
    [make_exception_ptr(current_exception())] returns, an object that holds an
    [exception_ptr]. *)
Definition documented_shutdown : list op :=
  [Throw_ None ResourceException "one" 0;
   ThrowOther unknown_exception;
   Throw_ None ResourceException "two" 0;
   Remember 2 (Some 1%nat)].

Definition documented_heap : Heap := (run documented_shutdown []).1.

Lemma foreign_history_lost_witness : what 3 documented_heap = (documented_heap, Ok "unknown exception").
Proof.
  apply (foreign_history_lost _ _
    (mkException ResourceException "unity::ResourceException" "two" "" (Some 1%nat) None 0) (Plain unknown_exception)).
  - intros i o. do 4 (destruct i as [|i]; [vm_compute; intros [= <-]; try done; split; intros q [= <-]; lia|]).
    intros Hi%lookup_lt_Some. change (length documented_heap) with 4%nat in Hi. lia.
  - reflexivity.
  - by apply foreign_here.
Defined.

End Exceptions.
