(* ===== verification/Settings.v ===== *)
(** * Settings (src/settings.cpp)

    The values read from gsettings, their validation and their defaults.  The
    default constants are generated by the build from the schema file
    data/com.canonical.Unity.Thumbnailer.gschema.xml, so they are an argument of
    the model ([Defaults]); [schema_defaults] are the values that file has. *)

From S2P Require Import Prelude CxxLib.
Import Cxx.

Module Settings.

(** The constants of the generated settings-defaults.h. *)
Record Defaults : Type := mkDefaults {
  DASH_UBUNTU_COM_KEY_DEFAULT : string;
  FULL_SIZE_CACHE_SIZE_DEFAULT : Z;
  THUMBNAIL_CACHE_SIZE_DEFAULT : Z;
  FAILURE_CACHE_SIZE_DEFAULT : Z;
  MAX_THUMBNAIL_SIZE_DEFAULT : Z;
  RETRY_NOT_FOUND_HOURS_DEFAULT : Z;
  RETRY_ERROR_HOURS_DEFAULT : Z;
  MAX_DOWNLOADS_DEFAULT : Z;
  MAX_EXTRACTIONS_DEFAULT : Z;
  EXTRACTION_TIMEOUT_DEFAULT : Z;
  MAX_BACKLOG_DEFAULT : Z;
  TRACE_CLIENT_DEFAULT : bool;
  LOG_LEVEL_DEFAULT : Z
}.

Definition schema_defaults : Defaults :=
  mkDefaults "0f450aa882a6125ebcbfb3d7f7aa25bc" 50 100 2 1920 168 2 8 0 10 10 false 1.

(** The values a gsettings schema holds; the [int] ones are 32 bits wide. *)
Inductive gvalue : Type :=
  | gv_string (s : option string)   (* g_settings_get_string may return NULL *)
  | gv_int (i : Z)
  | gv_bool (b : bool).

(** [class Settings]; [settings_] is [None] when the schema is not installed. *)
Record Settings : Type := mkSettings {
  schema_name_ : string;
  settings_ : option (gmap string gvalue)
}.

(** The constructor: [g_settings_schema_source_lookup] in the installed schemas. *)
Definition init (installed : gmap string (gmap string gvalue)) (schema_name : string) : Settings :=
  mkSettings schema_name (installed !! schema_name).

(** [settings_] and the key exist. *)
Definition lookup_value (s : Settings) (key : string) : option gvalue :=
  match settings_ s with None => None | Some vs => vs !! key end.

Definition get_string (s : Settings) (key default_value : string) : outcome string :=
  match lookup_value s key with
  | None => Ok default_value
  | Some (gv_string (Some value)) => Ok value
  | Some (gv_string None) => Ok default_value
  | Some _ => Crash (Undefined "g_settings_get_string: wrong type")
  end.

Definition get_int (s : Settings) (key : string) (default_value : Z) : outcome Z :=
  match lookup_value s key with
  | None => Ok default_value
  | Some (gv_int i) => Ok i
  | Some _ => Crash (Undefined "g_settings_get_int: wrong type")
  end.

Definition get_bool (s : Settings) (key : string) (default_value : bool) : outcome bool :=
  match lookup_value s key with
  | None => Ok default_value
  | Some (gv_bool b) => Ok b
  | Some _ => Crash (Undefined "g_settings_get_boolean: wrong type")
  end.

Definition get_positive_int (s : Settings) (key : string) (default_value : Z) : outcome Z :=
  i ← get_int s key default_value;
  if i <=? 0 then
    Throw (domain_error ((((("Settings::get_positive_int(): invalid zero or negative value for "
      +:+ key) +:+ ": ") +:+ to_string i) +:+ " in schema ") +:+ schema_name_ s))
  else Ok i.

Definition get_positive_or_zero_int (s : Settings) (key : string) (default_value : Z) : outcome Z :=
  i ← get_int s key default_value;
  if i <? 0 then
    Throw (domain_error ((((("Settings::get_positive_or_zero_int(): invalid negative value for "
      +:+ key) +:+ ": ") +:+ to_string i) +:+ " in schema ") +:+ schema_name_ s))
  else Ok i.

Section Getters.
Context (d : Defaults).
Implicit Types s : Settings.

Definition art_api_key s := get_string s "dash-ubuntu-com-key" (DASH_UBUNTU_COM_KEY_DEFAULT d).
Definition full_size_cache_size s :=
  get_positive_int s "full-size-cache-size" (FULL_SIZE_CACHE_SIZE_DEFAULT d).
Definition thumbnail_cache_size s :=
  get_positive_int s "thumbnail-cache-size" (THUMBNAIL_CACHE_SIZE_DEFAULT d).
Definition failure_cache_size s :=
  get_positive_int s "failure-cache-size" (FAILURE_CACHE_SIZE_DEFAULT d).
Definition max_thumbnail_size s :=
  get_positive_int s "max-thumbnail-size" (MAX_THUMBNAIL_SIZE_DEFAULT d).
Definition retry_not_found_hours s :=
  get_positive_int s "retry-not-found-hours" (RETRY_NOT_FOUND_HOURS_DEFAULT d).
Definition max_downloads s := get_positive_int s "max-downloads" (MAX_DOWNLOADS_DEFAULT d).
Definition max_extractions s :=
  get_positive_or_zero_int s "max-extractions" (MAX_EXTRACTIONS_DEFAULT d).
Definition extraction_timeout s :=
  get_positive_int s "extraction-timeout" (EXTRACTION_TIMEOUT_DEFAULT d).
Definition max_backlog s := get_positive_int s "max-backlog" (MAX_BACKLOG_DEFAULT d).
Definition trace_client s := get_bool s "trace-client" (TRACE_CLIENT_DEFAULT d).

(** [2 * extraction_timeout()] is an [int] multiplication. *)
Definition retry_error_max_seconds s : outcome Z :=
  retry_error_hours ← get_positive_int s "retry-error-hours" (RETRY_ERROR_HOURS_DEFAULT d);
  let retry_max := retry_error_hours * 3600 in
  timeout ← extraction_timeout s;
  retry_min ← as_int (2 * timeout) "Settings::retry_error_max_seconds";
  let retry_max := if retry_max <? retry_min then retry_min else retry_max in
  Ok (narrow_int retry_max).

(** [env] is the value of the environment variable, if it is set. *)
Definition log_level s (env : option string) : outcome Z :=
  level ← get_positive_or_zero_int s "log-level" (LOG_LEVEL_DEFAULT d);
  match env with
  | None => Ok level
  | Some EmptyString => Ok level
  | Some e =>
      match stoi e with
      | Ok l => if (l <? 0) || (2 <? l) then Ok level else Ok l
      | Throw _ => Ok level
      | Crash c => Crash c
      end
  end.

(** ** Lemmas *)

Lemma get_positive_int_pos s key dv i : get_positive_int s key dv = Ok i -> 0 < i.
Proof.
  unfold get_positive_int. intros H. apply outcome_bind_Ok in H as (j & _ & H).
  case_hyp H; [done|]. injection H as <-. bsimpl. lia.
Qed.

(** The upper limit of the retry backoff, while it fits an [int]. *)
Lemma retry_error_max_seconds_Ok s m :
  retry_error_max_seconds s = Ok m ->
  exists hours timeout,
    get_positive_int s "retry-error-hours" (RETRY_ERROR_HOURS_DEFAULT d) = Ok hours /\
    extraction_timeout s = Ok timeout /\ 0 < hours /\ 0 < timeout /\
    (hours * 3600 <= INT_MAX -> m = Z.max (hours * 3600) (2 * timeout)).
Proof.
  unfold retry_error_max_seconds. intros H.
  apply outcome_bind_Ok in H as (h & Hh & H). apply outcome_bind_Ok in H as (t & Ht & H).
  apply outcome_bind_Ok in H as (r & Hr & H). exists h, t.
  pose proof (get_positive_int_pos _ _ _ _ Hh). pose proof (get_positive_int_pos _ _ _ _ Ht).
  split_and!; try done. intros Hle. unfold as_int in Hr. case_hyp Hr; [|done].
  injection Hr as <-. injection H as <-. apply int_ok_spec in E. unfold INT_MAX in Hle.
  case_goal; bsimpl; rewrite narrow_int_id by (apply int_ok_spec; lia); lia.
Qed.

(** ** Properties *)

(** Whatever the environment variable holds, the log level is the valid
    level 0, 1 or 2 it spells, or else the one of the settings: a bad variable
    never makes the service fail. *)
Theorem log_level_total s level env :
  get_positive_or_zero_int s "log-level" (LOG_LEVEL_DEFAULT d) = Ok level ->
  log_level s env = Ok level \/
  exists e l, env = Some e /\ stoi e = Ok l /\ 0 <= l <= 2 /\ log_level s env = Ok l.
Proof.
  intros H. unfold log_level. rewrite H; simpl. destruct env as [[|c e]|]; auto.
  destruct (stoi (String c e)) as [l|x|x] eqn:Hs; auto.
  - case_goal; auto. bsimpl. right. exists (String c e), l. split_and!; auto; lia.
  - exfalso. unfold stoi in Hs. repeat case_hyp Hs; discriminate.
Qed.
End Getters.

(** ** Witnesses *)

Lemma log_level_total_witness :
  let s := mkSettings "com.canonical.Unity.Thumbnailer" None in
  log_level schema_defaults s (Some "2x") = Ok 2 /\
  (log_level schema_defaults s (Some "3") = Ok 1 \/
   exists e l, Some "3" = Some e /\ stoi e = Ok l /\ 0 <= l <= 2 /\
     log_level schema_defaults s (Some "3") = Ok l).
Proof. split; [reflexivity|]. apply log_level_total. reflexivity. Defined.

End Settings.
