(* ===== verification/QtSize.v ===== *)
(** * Sizes (the parts of Qt's [QSize] the sources use)

    [QSize::scale(..., Qt::KeepAspectRatio)] is code of the toolkit: a parameter
    of the models, with its documented result as the class [QSizeScaleLaws]. *)

From S2P Require Import Prelude.

Module QtSize.

Record QSize : Type := mkSize { width : Z; height : Z }.

#[export] Instance QSize_eq_dec : EqDecision QSize.
Proof. solve_decision. Defined.

(** A default-constructed [QSize]. *)
Definition invalid_size : QSize := mkSize (-1) (-1).

Definition isValid (s : QSize) : bool := (0 <=? width s) && (0 <=? height s).
Definition transpose (s : QSize) : QSize := mkSize (height s) (width s).
Definition setWidth (w : Z) (s : QSize) : QSize := mkSize w (height s).
Definition setHeight (h : Z) (s : QSize) : QSize := mkSize (width s) h.

(** [size.scale(target, Qt::KeepAspectRatio)]. *)
Class QSizeScale : Type := qscale : QSize -> QSize -> QSize.

(** "The size is scaled to a rectangle as large as possible inside [target],
    preserving the aspect ratio." *)
Class QSizeScaleLaws {q : QSizeScale} : Prop := {
  qscale_inside s t :
    0 < width s -> 0 < height s -> 0 <= width t -> 0 <= height t ->
    0 <= width (qscale s t) <= width t /\ 0 <= height (qscale s t) <= height t;
  qscale_touches s t :
    0 < width s -> 0 < height s -> 0 <= width t -> 0 <= height t ->
    width (qscale s t) = width t \/ height (qscale s t) = height t
}.
Arguments QSizeScaleLaws q : clear implicits.

(** An instance, for the concrete inputs of the witnesses. *)
Definition integer_scale : QSizeScale := fun s t =>
  let rw := height t * width s / height s in
  if rw <=? width t then mkSize rw (height t)
  else mkSize (width t) (width t * height s / width s).

Lemma integer_scale_laws : QSizeScaleLaws integer_scale.
Proof.
  split; intros [w h] [tw th]; unfold qscale, integer_scale; simpl; intros;
    destruct (th * w / h <=? tw) eqn:E; bsimpl; simpl; auto.
  - split; [|lia]. split; [apply Z.div_pos; nia|lia].
  - split; [lia|]. split; [apply Z.div_pos; nia|].
    assert (tw * h < th * w).
    { pose proof (Z.mul_div_le (th * w) h ltac:(lia)). nia. }
    apply Z.lt_succ_r, Z.div_lt_upper_bound; nia.
Qed.

Lemma isValid_spec s : isValid s = true <-> 0 <= width s /\ 0 <= height s.
Proof. unfold isValid. rewrite andb_true_iff, !Z.leb_le. done. Qed.

Lemma isValid_transpose s : isValid (transpose s) = isValid s.
Proof. unfold isValid, transpose; simpl. apply andb_comm. Qed.

(** [a] fits into the request [b], whose zero dimensions are free. *)
Definition fits (w h : Z) (b : QSize) : Prop :=
  (width b = 0 \/ w <= width b) /\ (height b = 0 \/ h <= height b).

Lemma fits_transpose w h b : fits w h (transpose b) <-> fits h w b.
Proof. unfold fits, transpose; simpl. tauto. Qed.

End QtSize.
