(* ===== verification/Image.v ===== *)
(** * Image (src/image.cpp, include/internal/image.h)

    Loading with EXIF orientation, scaling, pixel access and encoding.  The
    gdk-pixbuf and libexif calls the code makes are the operations of the
    interface [ImageLibs], their documented behaviour is [ImageLaws]. *)

From S2P Require Import Prelude CxxLib QtSize.
Import Cxx QtSize.

Module Image.

(** ** The libraries *)

Inductive rotation : Type :=
  | ROTATE_COUNTERCLOCKWISE | ROTATE_UPSIDEDOWN | ROTATE_CLOCKWISE.

(** An EXIF entry after [exif_entry_fix]: whether its format is SHORT, and its
    value read as one. *)
Record exif_entry : Type := mkEntry { entry_is_short : bool; entry_short : Z }.

(** The handler of the "size-prepared" signal: called with the size of the
    image, it may call [gdk_pixbuf_loader_set_size]. *)
Definition size_prepared : Type := Z -> Z -> option (Z * Z).

(** [P] pixbufs, [L] pixbuf loaders, [I] animation iterators, [E] EXIF loaders
    and [D] EXIF data.  Fallible calls return [inl] of the error message. *)
Class ImageLibs (P L I E D : Type) : Type := {
  gdk_width : P -> Z;
  gdk_height : P -> Z;
  gdk_has_alpha : P -> bool;
  gdk_is_rgb : P -> bool;
  gdk_bits_per_sample : P -> Z;
  gdk_n_channels : P -> Z;
  gdk_rowstride : P -> Z;
  gdk_byte_length : P -> Z;
  gdk_read_pixels : P -> Z -> Z;
  gdk_flip : P -> bool -> option P;
  gdk_rotate_simple : P -> rotation -> option P;
  gdk_scale_simple : P -> Z -> Z -> option P;
  gdk_save_to_buffer : P -> string -> string -> string -> string + string;
  loader_new : option L;
  loader_write : size_prepared -> L -> string -> string + L;
  loader_get_iter : L -> option I;
  iter_on_currently_loading_frame : L -> I -> bool;
  loader_close : size_prepared -> L -> string + L;
  loader_get_pixbuf : L -> option P;
  exif_loader_new : option E;
  exif_loader_write : E -> string -> E * bool;
  exif_loader_get_data : E -> option D;
  exif_orientation : D -> option exif_entry;
  exif_data : D -> option string
}.

Section Defs.
Context {P L I E D : Type} `{libs : ImageLibs P L I E D} `{qs : QSizeScale}.
Context (safe_strerror : Z -> string).

(** ** Readers *)

(** An open file: its contents, the file offset, and the [errno] a read or
    seek fails with. *)
Record file_desc : Type := mkFd {
  fd_contents : string;
  fd_offset : nat;
  fd_read_errno : option Z;
  fd_seek_errno : option Z
}.

Inductive Reader : Type :=
  | BufferReader (data : string) (first_read : bool)
  | FdReader (fd : file_desc).

Definition FD_BUFFER : nat := 64 * 1024.

(** [read]: the reader after the call and the segment, if there was one. *)
Definition read (r : Reader) : outcome (Reader * option string) :=
  match r with
  | BufferReader data first_read =>
      if first_read then Ok (BufferReader data false, Some data) else Ok (r, None)
  | FdReader fd =>
      match fd_read_errno fd with
      | Some e => Throw (runtime_error ("FdReader::read() failed: " +:+ safe_strerror e))
      | None =>
          let seg := String.substring (fd_offset fd) FD_BUFFER (fd_contents fd) in
          let n_read := String.length seg in
          Ok (FdReader (mkFd (fd_contents fd) (fd_offset fd + n_read) None (fd_seek_errno fd)),
              if (0 <? n_read)%nat then Some seg else None)
      end
  end.

Definition rewind (r : Reader) : outcome Reader :=
  match r with
  | BufferReader data _ => Ok (BufferReader data true)
  | FdReader fd =>
      match fd_seek_errno fd with
      | Some e => Throw (runtime_error ("FdReader::rewind() failed: " +:+ safe_strerror e))
      | None => Ok (FdReader (mkFd (fd_contents fd) 0 (fd_read_errno fd) None))
      end
  end.

(** Segments a reader can still deliver: the fuel of the loops below. *)
Definition reads_left (r : Reader) : nat :=
  match r with
  | BufferReader _ first_read => if first_read then 1 else 0
  | FdReader fd => String.length (fd_contents fd) - fd_offset fd
  end.

Definition out_of_fuel {A} : outcome A := Crash (Undefined "out of fuel").

(** ** Loading *)

(** The loop of [load_image]: the loader and [first_frame_finished]. *)
Fixpoint load_loop (fuel : nat) (cb : size_prepared) (r : Reader) (loader : L) (iter : option I)
    : outcome (L * bool) :=
  match fuel with
  | O => out_of_fuel
  | S fuel' =>
      '(r', seg) ← read r;
      match seg with
      | None => Ok (loader, false)
      | Some data =>
          match loader_write cb loader data with
          | inl err => Throw (runtime_error ("load_image(): cannot write to pixbuf loader: " +:+ err))
          | inr loader' =>
              let iter' := match iter with Some _ => iter | None => loader_get_iter loader' end in
              match iter' with
              | Some i => if negb (iter_on_currently_loading_frame loader' i) then Ok (loader', true)
                          else load_loop fuel' cb r' loader' iter'
              | None => load_loop fuel' cb r' loader' iter'
              end
          end
      end
  end.

Definition load_image (r : Reader) (cb : size_prepared) : outcome P :=
  match loader_new with
  | None => Throw (runtime_error "load_image(): cannot allocate GdkPixbufLoader")
  | Some l0 =>
      '(l1, first_frame_finished) ← load_loop (S (reads_left r)) cb r l0 None;
      l2 ← (if negb first_frame_finished then
              match loader_close cb l1 with
              | inl err => Throw (runtime_error ("load_image(): cannot close pixbuf loader: " +:+ err))
              | inr l2 => Ok l2
              end
            else Ok l1);
      match loader_get_pixbuf l2 with
      | None => Throw (runtime_error "load_image(): cannot create pixbuf")
      | Some pixbuf => Ok pixbuf
      end
  end.

(** Fill in the missing dimensions of a request. *)
Definition fill_missing (requested : QSize) (w h : Z) : QSize :=
  let r1 := if width requested =? 0 then setWidth w requested else requested in
  if height r1 =? 0 then setHeight h r1 else r1.

Definition maybe_scale_thumbnail (requested : QSize) : size_prepared := fun w h =>
  if ((width requested =? 0) || (w <? width requested)) &&
     ((height requested =? 0) || (h <? height requested)) then Some (0, 0)
  else
    let requested := fill_missing requested w h in
    let image_size := qscale (mkSize w h) requested in
    if negb (width image_size =? w) || negb (height image_size =? h)
    then Some (width image_size, height image_size) else None.

Definition maybe_scale_image (requested : QSize) : size_prepared := fun w h =>
  if negb (isValid requested) then None
  else
    let requested := fill_missing requested w h in
    if (w <=? width requested) && (h <=? height requested) then None
    else
      let image_size := qscale (mkSize w h) requested in
      Some (width image_size, height image_size).

(** [class Image]. *)
Record Image : Type := mkImage { pixbuf_ : option P; has_alpha_ : bool }.

(** [Image()]. *)
Definition empty_image : Image := mkImage None false.

(** The EXIF pass over the data: write segments until the loader has enough. *)
Fixpoint exif_loop (fuel : nat) (r : Reader) (el : E) : outcome (Reader * E) :=
  match fuel with
  | O => out_of_fuel
  | S fuel' =>
      '(r', seg) ← read r;
      match seg with
      | None => Ok (r', el)
      | Some data =>
          let '(el', more) := exif_loader_write el data in
          if more then exif_loop fuel' r' el' else Ok (r', el')
      end
  end.

Definition orientation_of (exif : option D) : Z :=
  match exif with
  | None => 1
  | Some d =>
      match exif_orientation d with
      | None => 1
      | Some e => if entry_is_short e then entry_short e else 1
      end
  end.

Definition unrotate (orientation : Z) (s : QSize) : QSize :=
  if (5 <=? orientation) && (orientation <=? 8) then transpose s else s.

Definition flip (horizontal : bool) (p : option P) : option P :=
  p ← p; gdk_flip p horizontal.
Definition rotate (angle : rotation) (p : option P) : option P :=
  p ← p; gdk_rotate_simple p angle.

(** "Correct the image orientation, if needed". *)
Definition orient (orientation : Z) (p : option P) : option P :=
  match orientation with
  | 1 => p
  | 2 => flip true p
  | 3 => rotate ROTATE_UPSIDEDOWN p
  | 4 => flip false p
  | 5 => flip true (rotate ROTATE_CLOCKWISE p)
  | 6 => rotate ROTATE_CLOCKWISE p
  | 7 => flip true (rotate ROTATE_COUNTERCLOCKWISE p)
  | 8 => rotate ROTATE_COUNTERCLOCKWISE p
  | _ => p
  end.

(** The embedded thumbnail, when a size is requested; [None] to go on. *)
Definition load_thumbnail (exif : option D) (requested unrotated : QSize) : outcome (option P) :=
  match exif with
  | None => Ok None
  | Some d =>
      match exif_data d with
      | None => Ok None
      | Some bytes =>
          if isValid requested then
            match load_image (BufferReader bytes true) (maybe_scale_thumbnail unrotated) with
            | Ok p => Ok (Some p)
            | Throw (runtime_error _) => Ok None
            | Throw e => Throw e
            | Crash c => Crash c
            end
          else Ok None
      end
  end.

Definition load (r : Reader) (requested_size : QSize) : outcome Image :=
  match exif_loader_new with
  | None => Throw (runtime_error "Image(): could not create ExifLoader")
  | Some el0 =>
      '(r1, el) ← exif_loop (S (reads_left r)) r el0;
      r2 ← rewind r1;
      let exif := exif_loader_get_data el in
      let orientation := orientation_of exif in
      let unrotated := unrotate orientation requested_size in
      thumb ← load_thumbnail exif requested_size unrotated;
      p ← match thumb with
          | Some p => Ok p
          | None => load_image r2 (maybe_scale_image unrotated)
          end;
      Ok (mkImage (orient orientation (Some p)) (gdk_has_alpha p))
  end.

(** The constructors. *)
Definition image_of_string (data : string) (requested_size : QSize) : outcome Image :=
  load (BufferReader data true) requested_size.
Definition image_of_fd (fd : file_desc) (requested_size : QSize) : outcome Image :=
  load (FdReader fd) requested_size.

(** ** Access *)

Definition get_pixbuf (i : Image) (site : string) : outcome P :=
  match pixbuf_ i with Some p => Ok p | None => Crash (AssertFailed site) end.

Definition image_width (i : Image) : outcome Z :=
  p ← get_pixbuf i "Image::width";
  let w := gdk_width p in
  if w <? 1 then Throw (runtime_error ("Image::width(): invalid image width: " +:+ to_string w))
  else Ok w.

Definition image_height (i : Image) : outcome Z :=
  p ← get_pixbuf i "Image::height";
  let h := gdk_height p in
  if h <? 1 then Throw (runtime_error ("Image::height(): invalid image height: " +:+ to_string h))
  else Ok h.

(** [data[i]] of the pixel buffer. *)
Definition pixel_byte (p : P) (i : Z) : outcome Z :=
  if (0 <=? i) && (i <? gdk_byte_length p) then Ok (gdk_read_pixels p i)
  else Crash (Undefined "Image::pixel: out of bounds").

Definition pixel (i : Image) (x y : Z) : outcome Z :=
  p ← get_pixbuf i "Image::pixel";
  _ ← assert_ (gdk_is_rgb p) "Image::pixel";
  _ ← assert_ (gdk_bits_per_sample p =? 8) "Image::pixel";
  w ← image_width i;
  if (x <? 0) || (x >=? w) then
    Throw (runtime_error ("Image::pixel(): invalid x coordinate: " +:+ to_string x))
  else
  h ← image_height i;
  if (y <? 0) || (y >=? h) then
    Throw (runtime_error ("Image::pixel(): invalid y coordinate: " +:+ to_string y))
  else
    let n_channels := gdk_n_channels p in
    let off := y * gdk_rowstride p + x * n_channels in
    p0 ← pixel_byte p off;
    p1 ← pixel_byte p (off + 1);
    p2 ← pixel_byte p (off + 2);
    p3 ← (if n_channels =? 4 then pixel_byte p (off + 3) else Ok 255);
    Ok (narrow_int
          (Z.lor (Z.lor (Z.lor (Z.shiftl p0 24) (Z.shiftl p1 16)) (Z.shiftl p2 8)) p3)).

(** ** Scaling *)

(** "Make sure that we don't try to scale down to zero". *)
Definition at_least_one (s : QSize) : QSize :=
  let s := if width s =? 0 then setWidth 1 s else s in
  if height s =? 0 then setHeight 1 s else s.

Definition scale (i : Image) (requested_size : QSize) : outcome Image :=
  p ← get_pixbuf i "Image::scale";
  if negb (isValid requested_size) then Ok i
  else
    w ← image_width i;
    h ← image_height i;
    let requested := fill_missing requested_size w h in
    if (w <=? width requested) && (h <=? height requested) then Ok i
    else
      let scaled_size := at_least_one (qscale (mkSize w h) requested) in
      match gdk_scale_simple p (width scaled_size) (height scaled_size) with
      | None => Throw (runtime_error "Image::scale(): could not create scaled image")
      | Some q => Ok (mkImage (Some q) false)   (* has_alpha_ of a fresh Image *)
      end.

Definition has_alpha (i : Image) : outcome bool :=
  _ ← get_pixbuf i "Image::has_alpha"; Ok (has_alpha_ i).

(** ** Encoding *)

Definition jpeg_data (i : Image) (quality : Z) : outcome string :=
  p ← get_pixbuf i "Image::jpeg_data";
  if (quality <? 0) || (quality >? 100) then
    Throw (invalid_argument ("Image::jpeg_data(): quality out of range [0..100]: " +:+ to_string quality))
  else
    match gdk_save_to_buffer p "jpeg" "quality" (to_string quality) with
    | inl err => Throw (runtime_error ("Image::jpeg_data(): cannot convert to jpeg: " +:+ err))
    | inr s => Ok s
    end.

Definition png_data (i : Image) : outcome string :=
  p ← get_pixbuf i "Image::png_data";
  match gdk_save_to_buffer p "png" "compression" "6" with
  | inl err => Throw (runtime_error ("Image::png_data(): cannot convert to png: " +:+ err))
  | inr s => Ok s
  end.

Definition DEFAULT_QUALITY : Z := 75.

Definition jpeg_or_png_data (i : Image) (quality : Z) : outcome string :=
  _ ← get_pixbuf i "Image::jpeg_or_png_data";
  if negb (has_alpha_ i) then jpeg_data i quality else png_data i.
End Defs.

Arguments Image : clear implicits.

(** ** The documented behaviour of the libraries *)

(** The byte of channel [c] at (x, y). *)
Definition channel {P L I E D} `{ImageLibs P L I E D} (p : P) (x y c : Z) : Z :=
  gdk_read_pixels p (y * gdk_rowstride p + x * gdk_n_channels p + c).

(** The value of four channels as one [int]. *)
Definition pack {P L I E D} `{ImageLibs P L I E D} (p : P) (x y : Z) : Z :=
  narrow_int (Z.lor (Z.lor (Z.lor (Z.shiftl (channel p x y 0) 24) (Z.shiftl (channel p x y 1) 16))
    (Z.shiftl (channel p x y 2) 8)) (if gdk_n_channels p =? 4 then channel p x y 3 else 255)).

(** [cb] handled the size of the image that became the pixbuf [p]. *)
Definition sized_by {P L I E D} `{ImageLibs P L I E D} (cb : size_prepared) (p : P) : Prop :=
  exists w h, 0 < w /\ 0 < h /\
    match cb w h with
    | None => gdk_width p = w /\ gdk_height p = h
    | Some (w', h') => 0 < w' /\ 0 < h' /\ gdk_width p = w' /\ gdk_height p = h'
    end.

(** [loader_of cb l]: the loader [l] was created and fed with the handler [cb]
    connected.  Memory allocation is assumed to succeed. *)
Class ImageLaws (P L I E D : Type) `{ImageLibs P L I E D} : Type := {
  loader_of : size_prepared -> L -> Prop;
  loader_new_of cb l : loader_new = Some l -> loader_of cb l;
  loader_write_of cb l d l' : loader_of cb l -> loader_write cb l d = inr l' -> loader_of cb l';
  loader_close_of cb l l' : loader_of cb l -> loader_close cb l = inr l' -> loader_of cb l';
  loader_pixbuf_sized cb l p : loader_of cb l -> loader_get_pixbuf l = Some p -> sized_by cb p;
  gdk_wf p : 0 < gdk_width p /\ 0 < gdk_height p /\ gdk_is_rgb p = true /\
    gdk_bits_per_sample p = 8 /\ gdk_n_channels p = (if gdk_has_alpha p then 4 else 3) /\
    gdk_width p * gdk_n_channels p <= gdk_rowstride p /\
    (gdk_height p - 1) * gdk_rowstride p + gdk_width p * gdk_n_channels p <= gdk_byte_length p;
  gdk_bytes p i : 0 <= gdk_read_pixels p i < 256;
  gdk_flip_law p (b : bool) : exists q, gdk_flip p b = Some q /\
    gdk_n_channels q = gdk_n_channels p /\
    gdk_width q = gdk_width p /\ gdk_height q = gdk_height p /\
    forall x y c, 0 <= x < gdk_width q -> 0 <= y < gdk_height q -> 0 <= c < gdk_n_channels p ->
      channel q x y c = if b then channel p (gdk_width p - 1 - x) y c
                        else channel p x (gdk_height p - 1 - y) c;
  gdk_rotate_law p a : exists q, gdk_rotate_simple p a = Some q /\
    gdk_n_channels q = gdk_n_channels p /\
    (gdk_width q, gdk_height q) =
      match a with ROTATE_UPSIDEDOWN => (gdk_width p, gdk_height p)
                 | _ => (gdk_height p, gdk_width p) end /\
    forall x y c, 0 <= x < gdk_width q -> 0 <= y < gdk_height q -> 0 <= c < gdk_n_channels p ->
      channel q x y c =
        match a with
        | ROTATE_UPSIDEDOWN => channel p (gdk_width p - 1 - x) (gdk_height p - 1 - y) c
        | ROTATE_CLOCKWISE => channel p y (gdk_height p - 1 - x) c
        | ROTATE_COUNTERCLOCKWISE => channel p (gdk_width p - 1 - y) x c
        end;
  gdk_scale_law p w h : 0 < w -> 0 < h -> exists q, gdk_scale_simple p w h = Some q /\
    gdk_width q = w /\ gdk_height q = h
}.

(** The one exception class [Image] throws while loading. *)
Definition is_runtime_error (e : exn) : Prop := exists msg, e = runtime_error msg.

(** The pixel of the stored image that EXIF orientation [o] shows at (x, y),
    for a stored image of [w] by [h] pixels (EXIF 2.3, tag 0x0112). *)
Definition exif_source (o w h x y : Z) : Z * Z :=
  match o with
  | 2 => (w - 1 - x, y)
  | 3 => (w - 1 - x, h - 1 - y)
  | 4 => (x, h - 1 - y)
  | 5 => (y, x)
  | 6 => (y, h - 1 - x)
  | 7 => (w - 1 - y, h - 1 - x)
  | 8 => (w - 1 - y, x)
  | _ => (x, y)
  end.

Definition swaps (o : Z) : bool := (5 <=? o) && (o <=? 8).

#[export] Hint Unfold is_runtime_error : thumb.

Section Theorems.
Context {P L I E D : Type} {libs : ImageLibs P L I E D} {laws : ImageLaws P L I E D}.
Context {qs : QSizeScale} {qlaws : QSizeScaleLaws qs}.
Context (safe_strerror : Z -> string).

(** ** Lemmas *)

Lemma read_cases r :
  match read safe_strerror r with
  | Ok (r', Some _) => (reads_left r' < reads_left r)%nat
  | Ok (_, None) => True
  | Throw e => is_runtime_error e
  | Crash _ => False
  end.
Proof.
  destruct r as [data [|]|[s off [e|] sk]]; simpl; try done; [lia|by eexists|].
  destruct (0 <? _)%nat eqn:Hn; [|done]. apply Nat.ltb_lt in Hn. revert Hn.
  assert (Hl : forall n m (t : string), (String.length (String.substring n m t) <= String.length t - n)%nat).
  { clear. intros n m t. revert n m. induction t as [|c t IH]; intros [|n] [|m]; simpl; try lia.
    - specialize (IH 0%nat m). lia.
    - apply IH.
    - apply IH. }
  specialize (Hl off FD_BUFFER s). lia.
Qed.

Lemma exif_loop_total fuel r (el : E) :
  (reads_left r < fuel)%nat ->
  match exif_loop safe_strerror fuel r el with
  | Ok _ => True | Throw e => is_runtime_error e | Crash _ => False end.
Proof.
  revert r el. induction fuel as [|fuel IH]; intros r el Hf; [lia|]. simpl.
  pose proof (read_cases r) as Hr. destruct (read safe_strerror r) as [[r' [seg|]]|x|x]; try done.
  simpl. destruct (exif_loader_write el seg) as [el' [|]]; [|done]. apply IH. lia.
Qed.

Lemma load_loop_total fuel cb r (l : L) iter :
  (reads_left r < fuel)%nat -> loader_of cb l ->
  match load_loop safe_strerror fuel cb r l iter with
  | Ok (l', _) => loader_of cb l' | Throw e => is_runtime_error e | Crash _ => False end.
Proof.
  revert r l iter. induction fuel as [|fuel IH]; intros r l iter Hf Hl; [lia|]. simpl.
  pose proof (read_cases r) as Hr. destruct (read safe_strerror r) as [[r' [seg|]]|x|x]; try done.
  simpl. destruct (loader_write cb l seg) as [err|l'] eqn:Hw; [by eexists|].
  pose proof (loader_write_of _ _ _ _ Hl Hw) as Hl'.
  destruct (match iter with Some _ => iter | None => loader_get_iter l' end) as [i|];
    [destruct (negb _); [done|]|]; apply IH; (done || lia).
Qed.

(** Loading terminates without undefined behaviour, with a pixbuf of the size
    the handler decided. *)
Lemma load_image_total r cb :
  match load_image safe_strerror r cb with
  | Ok p => sized_by cb p | Throw e => is_runtime_error e | Crash _ => False end.
Proof.
  unfold load_image. destruct loader_new as [l0|] eqn:Hn; [|by eexists].
  pose proof (load_loop_total (S (reads_left r)) cb r l0 None ltac:(lia) (loader_new_of _ _ Hn)) as H.
  destruct (load_loop _ _ _ _ _ _) as [[l1 [|]]|x|x]; try done; simpl.
  - destruct (loader_get_pixbuf l1) as [p|] eqn:Hp; [|by eexists]. by eapply loader_pixbuf_sized.
  - destruct (loader_close cb l1) as [err|l2] eqn:Hc; simpl; [by eexists|].
    destruct (loader_get_pixbuf l2) as [p|] eqn:Hp; [|by eexists].
    eapply loader_pixbuf_sized; [|done]. by eapply loader_close_of.
Qed.

Lemma fill_missing_spec s w h :
  width (fill_missing s w h) = (if width s =? 0 then w else width s) /\
  height (fill_missing s w h) = (if height s =? 0 then h else height s).
Proof.
  unfold fill_missing, setWidth, setHeight. destruct s as [a b]; simpl.
  destruct (a =? 0); simpl; destruct (b =? 0); done.
Qed.

(** A scaled size fits the request it was filled from. *)
Lemma qscale_fill_fits s w h :
  isValid s = true -> 0 < w -> 0 < h ->
  let t := qscale (mkSize w h) (fill_missing s w h) in
  0 <= width t /\ 0 <= height t /\ fits (width t) (height t) s.
Proof.
  intros [Hw Hh]%isValid_spec Hpw Hph. destruct (fill_missing_spec s w h) as [Fw Fh].
  destruct (qscale_inside (mkSize w h) (fill_missing s w h)) as [H1 H2]; simpl; try lia.
  - rewrite Fw. case_goal; lia.
  - rewrite Fh. case_goal; lia.
  - unfold fits. rewrite Fw in H1. rewrite Fh in H2.
    destruct (Z.eqb_spec (width s) 0), (Z.eqb_spec (height s) 0); lia.
Qed.

Lemma scale_image_fits s p :
  isValid s = true -> sized_by (maybe_scale_image s) p -> fits (gdk_width p) (gdk_height p) s.
Proof.
  intros Hv (w & h & Hw & Hh & H). unfold maybe_scale_image in H. rewrite Hv in H. simpl in H.
  destruct (fill_missing_spec s w h) as [Fw Fh].
  destruct (_ && _) eqn:Eq.
  - destruct H as [-> ->]. bsimpl. rewrite Fw in H. rewrite Fh in H0. unfold fits.
    destruct (Z.eqb_spec (width s) 0), (Z.eqb_spec (height s) 0); lia.
  - destruct H as (_ & _ & -> & ->). by apply qscale_fill_fits.
Qed.

Lemma scale_thumbnail_fits s p :
  isValid s = true -> sized_by (maybe_scale_thumbnail s) p -> fits (gdk_width p) (gdk_height p) s.
Proof.
  intros Hv (w & h & Hw & Hh & H). unfold maybe_scale_thumbnail in H.
  destruct (((width s =? 0) || _) && _); [destruct H; lia|].
  pose proof (qscale_fill_fits s w h Hv Hw Hh) as (_ & _ & Hf).
  destruct (_ || _) eqn:Eq in H.
  - by destruct H as (_ & _ & -> & ->).
  - apply orb_false_iff in Eq as [E1 E2]. bsimpl. destruct H as [-> ->].
    rewrite E1, E2 in Hf. done.
Qed.

(** The pixbuf [load] works on fits the unrotated request. *)
Lemma load_thumbnail_total d req unrot :
  isValid unrot = isValid req ->
  match load_thumbnail safe_strerror d req unrot with
  | Ok (Some p) => isValid req = true /\ fits (gdk_width p) (gdk_height p) unrot
  | Ok None => True
  | Throw e => is_runtime_error e
  | Crash _ => False
  end.
Proof.
  intros Hv. unfold load_thumbnail. destruct d as [d|]; [|done].
  destruct (exif_data d) as [bytes|]; [|done]. destruct (isValid req) eqn:Eq; [|done].
  pose proof (load_image_total (BufferReader bytes true) (maybe_scale_thumbnail unrot)) as H.
  destruct (load_image _ _ _) as [p|[]|]; try done. split; [done|].
  by apply scale_thumbnail_fits.
Qed.

(** A horizontal flip after a rotation by 90 degrees. *)
Lemma flip_after (f : Z -> Z -> Z * Z) a p q o :
  (o = 5 \/ o = 7) -> gdk_rotate_simple p a = Some q -> gdk_n_channels q = gdk_n_channels p ->
  gdk_width q = gdk_height p -> gdk_height q = gdk_width p ->
  (forall x y c, 0 <= x < gdk_width q -> 0 <= y < gdk_height q -> 0 <= c < gdk_n_channels p ->
    channel q x y c = channel p (f x y).1 (f x y).2 c) ->
  (forall x y, f (gdk_height p - 1 - x) y = exif_source o (gdk_width p) (gdk_height p) x y) ->
  exists q', flip true (rotate a (Some p)) = Some q' /\ gdk_n_channels q' = gdk_n_channels p /\
    gdk_width q' = gdk_height p /\ gdk_height q' = gdk_width p /\
    forall x y c, 0 <= x < gdk_width q' -> 0 <= y < gdk_height q' -> 0 <= c < gdk_n_channels p ->
      channel q' x y c = channel p (exif_source o (gdk_width p) (gdk_height p) x y).1
                                   (exif_source o (gdk_width p) (gdk_height p) x y).2 c.
Proof.
  intros Ho Hqe Hn Hqw Hqh Hq Hf. unfold flip, rotate. simpl. rewrite Hqe. simpl.
  destruct (gdk_flip_law q true) as (q' & -> & Hn' & Hw & Hh & Hq'). exists q'.
  split; [done|]. split; [congruence|]. split; [congruence|]. split; [congruence|].
  intros x y c Hx Hy Hc. rewrite Hq', Hq by lia. rewrite Hqw, Hf. done.
Qed.

Lemma orient_law o p :
  exists q, orient o (Some p) = Some q /\ gdk_n_channels q = gdk_n_channels p /\
    gdk_width q = (if swaps o then gdk_height p else gdk_width p) /\
    gdk_height q = (if swaps o then gdk_width p else gdk_height p) /\
    forall x y c, 0 <= x < gdk_width q -> 0 <= y < gdk_height q -> 0 <= c < gdk_n_channels p ->
      channel q x y c = channel p (exif_source o (gdk_width p) (gdk_height p) x y).1
                                  (exif_source o (gdk_width p) (gdk_height p) x y).2 c.
Proof.
  destruct (decide (o = 2 \/ o = 4)) as [[-> | ->]|Hf].
  { destruct (gdk_flip_law p true) as (q & ? & ? & ? & ? & ?). eauto 10. }
  { destruct (gdk_flip_law p false) as (q & ? & ? & ? & ? & ?). eauto 10. }
  destruct (decide (o = 3 \/ o = 6 \/ o = 8)) as [[-> | [-> | ->]]|Hr].
  { destruct (gdk_rotate_law p ROTATE_UPSIDEDOWN) as (q & ? & ? & [=] & ?). eauto 10. }
  { destruct (gdk_rotate_law p ROTATE_CLOCKWISE) as (q & ? & ? & [=] & ?). eauto 10. }
  { destruct (gdk_rotate_law p ROTATE_COUNTERCLOCKWISE) as (q & ? & ? & [=] & ?). eauto 10. }
  destruct (decide (o = 5 \/ o = 7)) as [[-> | ->]|Hrf].
  { destruct (gdk_rotate_law p ROTATE_CLOCKWISE) as (q & Hqe & Hn & [= Hqw Hqh] & Hq).
    apply (flip_after (fun x y => (y, gdk_height p - 1 - x)) _ _ q 5); auto.
    intros. simpl. f_equal. lia. }
  { destruct (gdk_rotate_law p ROTATE_COUNTERCLOCKWISE) as (q & Hqe & Hn & [= Hqw Hqh] & Hq).
    by apply (flip_after (fun x y => (gdk_width p - 1 - y, x)) _ _ q 7); auto. }
  exists p. assert (Ho : o = 1 \/ o < 1 \/ 8 < o) by lia.
  assert (Hs : swaps o = false) by (unfold swaps; destruct (Z.leb_spec 5 o), (Z.leb_spec o 8); simpl; lia).
  rewrite Hs. unfold orient, exif_source.
  destruct o as [|[[[[]|[]|]|[[]|[]|]|]|[[[]|[]|]|[[]|[]|]|]|]|]; try lia; auto.
Qed.

Lemma exif_source_range o w h x y :
  0 <= x < (if swaps o then h else w) -> 0 <= y < (if swaps o then w else h) ->
  0 <= (exif_source o w h x y).1 < w /\ 0 <= (exif_source o w h x y).2 < h.
Proof.
  unfold swaps, exif_source. intros Hx Hy.
  destruct o as [|[[[[]|[]|]|[[]|[]|]|]|[[[]|[]|]|[[]|[]|]|]|]|]; simpl in *; lia.
Qed.

Lemma image_width_Some p a : image_width (mkImage (Some p) a) = Ok (gdk_width p).
Proof.
  destruct (gdk_wf p) as (Hw & _). unfold image_width; simpl.
  by destruct (Z.ltb_spec (gdk_width p) 1); [lia|].
Qed.

Lemma image_height_Some p a : image_height (mkImage (Some p) a) = Ok (gdk_height p).
Proof.
  destruct (gdk_wf p) as (_ & Hh & _). unfold image_height; simpl.
  by destruct (Z.ltb_spec (gdk_height p) 1); [lia|].
Qed.

Lemma pixel_byte_Ok p x y c :
  0 <= x < gdk_width p -> 0 <= y < gdk_height p -> 0 <= c < gdk_n_channels p ->
  pixel_byte p (y * gdk_rowstride p + x * gdk_n_channels p + c) = Ok (channel p x y c).
Proof.
  intros Hx Hy Hc. destruct (gdk_wf p) as (Hw & Hh & _ & _ & Hn & Hrs & Hlen).
  assert (0 <= gdk_rowstride p) by nia. assert (0 <= y * gdk_rowstride p) by nia.
  assert (y * gdk_rowstride p <= (gdk_height p - 1) * gdk_rowstride p) by (apply Z.mul_le_mono_nonneg_r; lia).
  assert ((x + 1) * gdk_n_channels p <= gdk_width p * gdk_n_channels p) by (apply Z.mul_le_mono_nonneg_r; lia).
  unfold pixel_byte. destruct (Z.leb_spec 0 (y * gdk_rowstride p + x * gdk_n_channels p + c)); [|nia].
  destruct (Z.ltb_spec (y * gdk_rowstride p + x * gdk_n_channels p + c) (gdk_byte_length p)); [done|nia].
Qed.

Lemma pixel_Ok p a x y :
  0 <= x < gdk_width p -> 0 <= y < gdk_height p ->
  pixel (mkImage (Some p) a) x y = Ok (pack p x y).
Proof.
  intros Hx Hy. destruct (gdk_wf p) as (Hw & Hh & Hrgb & Hbps & Hn & Hrs & Hlen).
  unfold pixel. cbn [get_pixbuf pixbuf_ mbind outcome_bind].
  rewrite Hrgb, Hbps, image_width_Some, image_height_Some. simpl.
  rewrite Z.geb_leb. destruct (Z.ltb_spec x 0), (Z.leb_spec (gdk_width p) x); try lia. simpl.
  rewrite Z.geb_leb. destruct (Z.ltb_spec y 0), (Z.leb_spec (gdk_height p) y); try lia. simpl.
  assert (3 <= gdk_n_channels p) by (rewrite Hn; case_goal; lia).
  rewrite <- (Z.add_0_r (_ + x * _)) at 1. rewrite (pixel_byte_Ok p x y 0), (pixel_byte_Ok p x y 1), (pixel_byte_Ok p x y 2) by lia. simpl.
  unfold pack. destruct (gdk_n_channels p =? 4) eqn:E4; [|done].
  bsimpl. rewrite pixel_byte_Ok by lia. done.
Qed.

Lemma pixel_range p a x y :
  (0 <=? x) && (x <? gdk_width p) && (0 <=? y) && (y <? gdk_height p) = false ->
  exists msg, pixel (mkImage (Some p) a) x y = Throw (runtime_error msg).
Proof.
  intros Hr. destruct (gdk_wf p) as (_ & _ & Hrgb & Hbps & _).
  unfold pixel. cbn [get_pixbuf pixbuf_ mbind outcome_bind].
  rewrite Hrgb, Hbps, image_width_Some, image_height_Some. simpl. rewrite !Z.geb_leb.
  destruct (_ || _) eqn:E1; [by eexists|]. simpl. destruct ((y <? 0) || _) eqn:E2; [by eexists|].
  exfalso. bsimpl. rewrite !andb_false_iff, !Z.leb_gt, !Z.ltb_ge in Hr. lia.
Qed.

Lemma narrow_int_ok z : int_ok (narrow_int z) = true.
Proof.
  apply int_ok_spec. unfold narrow_int.
  pose proof (Z.mod_pos_bound (z + 2 ^ 31) (2 ^ 32) ltac:(lia)). lia.
Qed.

Lemma lor_shift a b n : 0 <= b < 2 ^ n -> 0 <= n -> Z.lor (Z.shiftl a n) b = a * 2 ^ n + b.
Proof.
  intros Hb Hn. rewrite <- Z.shiftl_mul_pow2 by done.
  pose proof (Z.add_lor_land (Z.shiftl a n) b) as Hsum.
  assert (Hl : Z.land (Z.shiftl a n) b = 0); [|lia].
  apply Z.bits_inj'. intros k Hk. rewrite Z.land_spec, Z.bits_0.
  destruct (Z.ltb_spec k n).
  - by rewrite Z.shiftl_spec_low by lia.
  - destruct (Z.eq_dec b 0) as [-> | Hb0]; [by rewrite Z.bits_0, andb_false_r|].
    rewrite (Z.bits_above_log2 b k); [by rewrite andb_false_r|lia|].
    apply Z.lt_le_trans with n; [apply Z.log2_lt_pow2; lia|lia].
Qed.

Lemma pack_sum r g b a :
  0 <= r < 256 -> 0 <= g < 256 -> 0 <= b < 256 -> 0 <= a < 256 ->
  Z.lor (Z.lor (Z.lor (Z.shiftl r 24) (Z.shiftl g 16)) (Z.shiftl b 8)) a =
    r * 2 ^ 24 + g * 2 ^ 16 + b * 2 ^ 8 + a.
Proof.
  intros Hr Hg Hb Ha. rewrite <- !Z.lor_assoc, (lor_shift b a 8), (lor_shift g _ 16), (lor_shift r _ 24); lia.
Qed.

Lemma scale_cases p a req :
  isValid req = true ->
  (fits (gdk_width p) (gdk_height p) req /\
   scale (mkImage (Some p) a) req = Ok (mkImage (Some p) a)) \/
  (~ fits (gdk_width p) (gdk_height p) req /\
   exists q, scale (mkImage (Some p) a) req = Ok (mkImage (Some q) false) /\
     fits (gdk_width q) (gdk_height q) req).
Proof.
  intros Hv. destruct (gdk_wf p) as (Hw & Hh & _).
  destruct (fill_missing_spec req (gdk_width p) (gdk_height p)) as [Fw Fh].
  pose proof (qscale_fill_fits req (gdk_width p) (gdk_height p) Hv Hw Hh) as (H0 & H1 & Hf).
  unfold scale. cbn [get_pixbuf pixbuf_ mbind outcome_bind].
  rewrite Hv, image_width_Some, image_height_Some. cbn -[fill_missing at_least_one].
  pose proof Hv as [Hrw Hrh]%isValid_spec.
  destruct (_ && _) eqn:Eq.
  - left. split; [|done]. bsimpl. rewrite Fw in *. rewrite Fh in *. unfold fits.
    destruct (Z.eqb_spec (width req) 0), (Z.eqb_spec (height req) 0); lia.
  - right. split.
    + intros Hfit. revert Eq. rewrite Fw, Fh, andb_false_iff, !Z.leb_gt. unfold fits in Hfit.
      destruct (Z.eqb_spec (width req) 0), (Z.eqb_spec (height req) 0); lia.
    + set (s := qscale _ _) in *.
      assert (Hs : 0 < width (at_least_one s) /\ 0 < height (at_least_one s) /\
                   fits (width (at_least_one s)) (height (at_least_one s)) req).
      { unfold at_least_one, setWidth, setHeight, fits in *. destruct s as [sw sh]; simpl in *.
        destruct (Z.eqb_spec sw 0); simpl; destruct (Z.eqb_spec sh 0); simpl; lia. }
      destruct Hs as (Hsw & Hsh & Hsf).
      destruct (gdk_scale_law p _ _ Hsw Hsh) as (q & -> & Hqw & Hqh).
      exists q. split; [done|]. by rewrite Hqw, Hqh.
Qed.

Lemma unrotate_fits o w h s :
  fits w h (unrotate o s) -> fits (if swaps o then h else w) (if swaps o then w else h) s.
Proof. unfold unrotate, swaps. case_goal; [apply fits_transpose|done]. Qed.

Lemma isValid_unrotate o s : isValid (unrotate o s) = isValid s.
Proof. unfold unrotate. case_goal; [apply isValid_transpose|done]. Qed.

(** Loading never misbehaves, with or without a requested size. *)
Lemma load_spec r req :
  match load safe_strerror r req with
  | Ok img => exists q, pixbuf_ img = Some q /\
                (isValid req = true -> fits (gdk_width q) (gdk_height q) req)
  | Throw e => is_runtime_error e
  | Crash _ => False
  end.
Proof.
  unfold load. destruct exif_loader_new as [el0|]; [|by eexists].
  pose proof (exif_loop_total (S (reads_left r)) r el0 ltac:(lia)) as He.
  destruct (exif_loop _ _ _ _) as [[r1 el]|x|x]; try done; simpl.
  destruct (rewind safe_strerror r1) as [r2|x|x] eqn:Hrw; simpl;
    [|destruct r1 as [? ?|[? ? ? [?|]]]; simplify_eq/=; by eexists
     |by destruct r1 as [? ?|[? ? ? [?|]]]].
  set (exif := exif_loader_get_data el). set (o := orientation_of exif).
  pose proof (load_thumbnail_total exif req (unrotate o req) (isValid_unrotate _ _)) as Ht.
  assert (Hend : forall p, (isValid req = true -> fits (gdk_width p) (gdk_height p) (unrotate o req)) ->
    exists q, orient o (Some p) = Some q /\
      (isValid req = true -> fits (gdk_width q) (gdk_height q) req)).
  { intros p Hp. destruct (orient_law o p) as (q & -> & _ & Hw & Hh & _). exists q. split; [done|].
    intros Hv. rewrite Hw, Hh. by apply unrotate_fits, Hp. }
  destruct (load_thumbnail _ _ _ _) as [[p|]|x|x]; try done; simpl; [apply Hend; tauto|].
  pose proof (load_image_total r2 (maybe_scale_image (unrotate o req))) as Hi.
  destruct (load_image _ _ _) as [p|x|x]; try done; simpl.
  apply Hend. intros Hv. apply scale_image_fits; [by rewrite isValid_unrotate|done].
Qed.

(** ** Properties *)

(** C24. Loading an image for a valid requested size terminates without
    undefined behaviour; when it succeeds, the image, rotated as its EXIF data
    says, fits within the requested size (a zero dimension is free) and is at
    least one pixel wide and high, whether it came from the embedded EXIF
    thumbnail or from the main image.  A failure is always a runtime_error. *)
Theorem image_load_fits r req :
  isValid req = true ->
  match load safe_strerror r req with
  | Ok img => exists w h, image_width img = Ok w /\ image_height img = Ok h /\
                0 < w /\ 0 < h /\ fits w h req
  | Throw e => is_runtime_error e
  | Crash _ => False
  end.
Proof.
  intros Hv. pose proof (load_spec r req) as H. destruct (load _ _ _) as [img|e|c]; try done.
  destruct H as (q & Hq & Hf). destruct img as [o a]. simpl in Hq. subst o.
  destruct (gdk_wf q) as (? & ? & _). rewrite image_width_Some, image_height_Some. eauto 10.
Qed.

(** C39. The orientation switch implements the EXIF orientation tag: for all
    eight orientations (other values leave the image alone) the result has the
    rotated dimensions and shows at every point exactly the pixel of the stored
    image that the EXIF standard puts there. *)
Theorem image_orientation o p alpha x y :
  let stored := mkImage (Some p) alpha in
  let shown := mkImage (orient o (Some p)) alpha in
  let '(x', y') := exif_source o (gdk_width p) (gdk_height p) x y in
  image_width shown = (if swaps o then image_height stored else image_width stored) /\
  image_height shown = (if swaps o then image_width stored else image_height stored) /\
  if (0 <=? x) && (x <? if swaps o then gdk_height p else gdk_width p) &&
     (0 <=? y) && (y <? if swaps o then gdk_width p else gdk_height p)
  then pixel shown x y = pixel stored x' y' /\ is_ok (pixel shown x y) = true
  else exists msg, pixel shown x y = Throw (runtime_error msg).
Proof.
  cbn zeta. destruct (exif_source o _ _ x y) as [x' y'] eqn:Hs.
  destruct (orient_law o p) as (q & -> & Hn & Hw & Hh & Hc).
  rewrite !image_width_Some, !image_height_Some, Hw, Hh.
  split; [by destruct (swaps o)|]. split; [by destruct (swaps o)|].
  destruct (_ && _) eqn:Eq; bsimpl.
  - pose proof (exif_source_range o (gdk_width p) (gdk_height p) x y ltac:(done) ltac:(done)) as Hr.
    rewrite Hs in Hr. simpl in Hr. rewrite !pixel_Ok by lia. split; [|done].
    unfold pack. destruct (gdk_wf p) as (_ & _ & _ & _ & Hnp & _).
    rewrite Hn, !Hc, Hs by (rewrite ?Hnp; try case_goal; lia). simpl.
    destruct (gdk_n_channels p =? 4) eqn:E4; [|done]. bsimpl. by rewrite Hc, Hs by lia.
  - apply pixel_range. lia.
Qed.

(** Reading a pixel is memory safe: inside the image all four bytes are read
    within the pixel buffer and the result is r << 24 | g << 16 | b << 8 | a
    (modulo 2^32, a being 255 without an alpha channel); outside, the call
    throws before the buffer is touched. *)
Theorem image_pixel_safe p alpha x y :
  if (0 <=? x) && (x <? gdk_width p) && (0 <=? y) && (y <? gdk_height p)
  then exists v, pixel (mkImage (Some p) alpha) x y = Ok v /\ int_ok v = true /\
    v mod 2 ^ 32 = channel p x y 0 * 2 ^ 24 + channel p x y 1 * 2 ^ 16 + channel p x y 2 * 2 ^ 8 +
      (if gdk_has_alpha p then channel p x y 3 else 255)
  else exists msg, pixel (mkImage (Some p) alpha) x y = Throw (runtime_error msg).
Proof.
  destruct (_ && _) eqn:Eq; bsimpl; [|by apply pixel_range; rewrite Eq].
  exists (pack p x y). rewrite pixel_Ok by lia. split; [done|]. split; [apply narrow_int_ok|].
  unfold pack. rewrite narrow_int_mod. destruct (gdk_wf p) as (_ & _ & _ & _ & Hn & _).
  rewrite Hn. unfold channel.
  repeat match goal with |- context [gdk_read_pixels p ?i] =>
    let H := fresh in pose proof (gdk_bytes p i) as H; generalize dependent (gdk_read_pixels p i); intros end.
  destruct (gdk_has_alpha p); simpl (_ =? _); cbv iota;
    rewrite pack_sum by lia; apply Z.mod_small; lia.
Qed.

(** Scaling an image to a valid size never fails: the result fits the
    request (a zero dimension is free) and is at least one pixel wide and high,
    even where the scaled size rounds down to zero; an image that already fits
    is returned unchanged. *)
Theorem image_scale_fits p alpha req :
  isValid req = true ->
  exists img w h, scale (mkImage (Some p) alpha) req = Ok img /\
    image_width img = Ok w /\ image_height img = Ok h /\
    0 < w /\ 0 < h /\ fits w h req /\
    (fits (gdk_width p) (gdk_height p) req -> img = mkImage (Some p) alpha).
Proof.
  intros Hv. destruct (scale_cases p alpha req Hv) as [[Hf ->]|(Hf & q & -> & Hq)].
  - destruct (gdk_wf p) as (? & ? & _). exists (mkImage (Some p) alpha), (gdk_width p), (gdk_height p).
    rewrite image_width_Some, image_height_Some. done.
  - destruct (gdk_wf q) as (? & ? & _). exists (mkImage (Some q) false), (gdk_width q), (gdk_height q).
    rewrite image_width_Some, image_height_Some. done.
Qed.

(** Transparency is lost by scaling: an image that has to be scaled down is
    always encoded as JPEG afterwards, also when the source has an alpha
    channel, because the scaled copy starts without the [has_alpha_] flag. *)
Theorem scaled_image_is_jpeg p alpha req img quality :
  isValid req = true -> ~ fits (gdk_width p) (gdk_height p) req ->
  scale (mkImage (Some p) alpha) req = Ok img ->
  has_alpha img = Ok false /\ jpeg_or_png_data img quality = jpeg_data img quality.
Proof.
  intros Hv Hn Hs. destruct (scale_cases p alpha req Hv) as [[Hf _]|(_ & q & Hq & _)]; [done|].
  rewrite Hs in Hq. injection Hq as ->. done.
Qed.
End Theorems.

End Image.
