(* ===== verification/ImageInstance.v ===== *)
(** * A concrete instance of the image libraries

    A small image format with pixels, EXIF orientation and scaling, to evaluate
    the definitions of Image.v on concrete inputs.  A file is four characters:
    'E' and an orientation digit (any other pair: no EXIF data), the width and
    the height; a fifth character 'A' marks an alpha channel. *)

From S2P Require Import Prelude CxxLib QtSize Image.
Import Cxx QtSize Image.

Module ImageInstance.

(** Width and height less one, the alpha flag and the channels at each point. *)
Record pix : Type := mkPix {
  px_w : nat; px_h : nat; px_alpha : bool; px_at : Z -> Z -> Z -> Z
}.

Definition px_width (p : pix) : Z := Z.of_nat (S (px_w p)).
Definition px_height (p : pix) : Z := Z.of_nat (S (px_h p)).
Definition px_channels (p : pix) : Z := if px_alpha p then 4 else 3.

Definition px_byte (p : pix) (i : Z) : Z :=
  let n := px_channels p in
  let rs := px_width p * n in
  px_at p ((i mod rs) / n) (i / rs) ((i mod rs) mod n) mod 256.

Definition px_flip (p : pix) (b : bool) : option pix :=
  Some (mkPix (px_w p) (px_h p) (px_alpha p)
    (fun x y => if b then px_at p (px_width p - 1 - x) y else px_at p x (px_height p - 1 - y))).

Definition px_rotate (p : pix) (a : rotation) : option pix :=
  Some match a with
  | ROTATE_UPSIDEDOWN => mkPix (px_w p) (px_h p) (px_alpha p)
      (fun x y => px_at p (px_width p - 1 - x) (px_height p - 1 - y))
  | ROTATE_CLOCKWISE => mkPix (px_h p) (px_w p) (px_alpha p)
      (fun x y => px_at p y (px_height p - 1 - x))
  | ROTATE_COUNTERCLOCKWISE => mkPix (px_h p) (px_w p) (px_alpha p)
      (fun x y => px_at p (px_width p - 1 - y) x)
  end.

Definition px_scale (p : pix) (w h : Z) : option pix :=
  if (0 <? w) && (0 <? h) then
    Some (mkPix (Z.to_nat (w - 1)) (Z.to_nat (h - 1)) (px_alpha p)
      (fun x y => px_at p (x * px_width p / w) (y * px_height p / h)))
  else None.

Definition px_save (p : pix) (format key value : string) : string + string :=
  inr (format +:+ ":" +:+ value +:+ ":" +:+ to_string (px_width p) +:+ "x" +:+ to_string (px_height p)).

(** The colours of a decoded image. *)
Definition gradient (x y c : Z) : Z := 40 * x + 7 * y + c.

Definition code (c : ascii) : Z := Z.of_nat (nat_of_ascii c).

Definition decode (cb : size_prepared) (data : string) : option pix :=
  match data with
  | String _ (String _ (String w (String h rest))) =>
      let alpha := match rest with String "A" _ => true | _ => false end in
      let '(w', h') := default (code w, code h) (cb (code w) (code h)) in
      if (0 <? code w) && (0 <? code h) && (0 <? w') && (0 <? h')
      then Some (mkPix (Z.to_nat (w' - 1)) (Z.to_nat (h' - 1)) alpha gradient) else None
  | _ => None
  end.

(** The data written so far, and the image once the loader is closed. *)
Definition loader : Type := string * option pix.

#[export] Instance px_libs : ImageLibs pix loader unit string string := {
  gdk_width := px_width;
  gdk_height := px_height;
  gdk_has_alpha := px_alpha;
  gdk_is_rgb _ := true;
  gdk_bits_per_sample _ := 8;
  gdk_n_channels := px_channels;
  gdk_rowstride p := px_width p * px_channels p;
  gdk_byte_length p := px_height p * (px_width p * px_channels p);
  gdk_read_pixels := px_byte;
  gdk_flip := px_flip;
  gdk_rotate_simple := px_rotate;
  gdk_scale_simple := px_scale;
  gdk_save_to_buffer := px_save;
  loader_new := Some ("", None);
  loader_write _ l d := inr (l.1 +:+ d, l.2);
  loader_get_iter _ := None;
  iter_on_currently_loading_frame _ _ := true;
  loader_close cb l := if (4 <=? Z.of_nat (String.length l.1)) then inr (l.1, decode cb l.1) else inl "truncated";
  loader_get_pixbuf l := l.2;
  exif_loader_new := Some "";
  exif_loader_write e d := (e +:+ d, true);
  exif_loader_get_data e := match e with String "E" _ => Some e | _ => None end;
  exif_orientation d := match d with
    | String _ (String o _) => Some (mkEntry true (code o - 48))
    | _ => None end;
  exif_data _ := None
}.

Arguments px_width : simpl never.
Arguments px_height : simpl never.
Arguments px_channels : simpl never.

Lemma px_dims p : 0 < px_width p /\ 0 < px_height p /\ 3 <= px_channels p.
Proof. unfold px_width, px_height, px_channels. destruct (px_alpha p); lia. Qed.

Lemma px_channel p x y c :
  0 <= x < px_width p -> 0 <= c < px_channels p ->
  channel (H := px_libs) p x y c = px_at p x y c mod 256.
Proof.
  intros Hx Hc. destruct (px_dims p) as (Hw & Hh & Hn). unfold channel; simpl. unfold px_byte.
  assert (Hr : 0 <= x * px_channels p + c < px_width p * px_channels p) by nia.
  replace (y * (px_width p * px_channels p) + x * px_channels p + c)
    with (x * px_channels p + c + y * (px_width p * px_channels p)) by lia.
  set (N := px_width p * px_channels p) in *.
  rewrite (Z.mod_add _ y N), (Z.div_add _ y N), (Z.mod_small _ N), (Z.div_small _ N) by lia.
  rewrite (Z.add_comm (x * _)), (Z.mod_add c x), (Z.div_add c x) by lia.
  rewrite (Z.mod_small c), (Z.div_small c) by lia. done.
Qed.

Lemma decode_sized cb s p : decode cb s = Some p -> sized_by cb p.
Proof.
  unfold decode. destruct s as [|c0 [|c1 [|w [|h rest]]]]; try done.
  destruct (default _ _) as [w' h'] eqn:Hd. destruct (_ && _) eqn:Hp; [|done]. intros [= <-].
  bsimpl. exists (code w), (code h). split; [done|]. split; [done|].
  destruct (cb (code w) (code h)) as [[w1 h1]|]; simpl in Hd; injection Hd as <- <-; simpl;
    unfold px_width, px_height; simpl; split_and?; lia.
Qed.

#[export] Instance px_laws : ImageLaws pix loader unit string string.
Proof.
  refine {| loader_of cb (l : loader) := forall p, l.2 = Some p -> sized_by cb p |}.
  - by intros cb l [= <-].
  - by intros cb l d l' Hl [= <-].
  - intros cb l l' Hl. simpl. destruct (4 <=? _); [|done]. intros [= <-] p. simpl. apply decode_sized.
  - intros cb l p Hl Hp. by apply Hl.
  - intros p. destruct (px_dims p) as (? & ? & ?). simpl. split_and!; try done; nia.
  - intros p i. simpl. unfold px_byte. apply Z.mod_pos_bound. lia.
  - intros p b. eexists. split; [done|]. split_and!; try done. intros x y c Hx Hy Hc.
    simpl in Hx, Hy, Hc. change (px_width _) with (px_width p) in Hx.
    rewrite px_channel by done. cbn beta iota delta [px_at].
    destruct b; rewrite px_channel by (simpl; lia); done.
  - intros p a. eexists. split; [done|]. split; [by destruct a|]. split; [by destruct a|].
    intros x y c Hx Hy Hc. destruct (px_dims p) as (? & ? & ?).
    destruct a; unfold gdk_width, gdk_height, gdk_n_channels, px_libs in *;
      unfold px_width, px_height in Hx, Hy; simpl in Hx, Hy;
      rewrite !px_channel by (unfold px_width, px_height; simpl; done || lia); done.
  - intros p w h Hw Hh. simpl. unfold px_scale.
    destruct (Z.ltb_spec 0 w), (Z.ltb_spec 0 h); try lia. simpl.
    eexists. split; [done|]. unfold px_width, px_height; simpl. lia.
Defined.

#[export] Instance px_qscale : QSizeScale := integer_scale.
#[export] Instance px_qscale_laws : QSizeScaleLaws px_qscale := integer_scale_laws.

(** ** Witnesses of the properties of Image.v *)

Definition errno_text (e : Z) : string := "error " +:+ to_string e.

(** A rotated image of 80 by 40 pixels. *)
Definition rotated_file : string := String "E" (String "6" (String "P" (String "(" ""))).

Lemma image_load_fits_witness :
  exists img, load errno_text (BufferReader rotated_file true) (mkSize 30 0) = Ok img /\
    exists w h, image_width img = Ok w /\ image_height img = Ok h /\ 0 < w /\ 0 < h /\
      fits w h (mkSize 30 0).
Proof.
  pose proof (image_load_fits errno_text (BufferReader rotated_file true) (mkSize 30 0) eq_refl) as H.
  destruct (load _ _ _) as [img| |] eqn:E; [by exists img|vm_compute in E; discriminate E..].
Defined.

Definition photo : pix := mkPix 79 39 true gradient.

Lemma image_scale_fits_witness :
  exists img w h, scale (mkImage (Some photo) true) (mkSize 8 8) = Ok img /\
    image_width img = Ok w /\ image_height img = Ok h /\
    0 < w /\ 0 < h /\ fits w h (mkSize 8 8) /\
    (fits (gdk_width photo) (gdk_height photo) (mkSize 8 8) -> img = mkImage (Some photo) true).
Proof. apply (image_scale_fits photo true (mkSize 8 8)). reflexivity. Defined.

Definition scaled_photo : Image pix :=
  match scale (mkImage (Some photo) true) (mkSize 8 8) with Ok i => i | _ => empty_image end.

Lemma scaled_image_is_jpeg_witness :
  has_alpha (mkImage (Some photo) true) = Ok true /\
  jpeg_or_png_data scaled_photo 75 = Ok "jpeg:75:8x4" /\
  has_alpha scaled_photo = Ok false /\ jpeg_or_png_data scaled_photo 75 = jpeg_data scaled_photo 75.
Proof.
  split; [reflexivity|]. split; [reflexivity|].
  apply (scaled_image_is_jpeg photo true (mkSize 8 8)); [reflexivity| |reflexivity].
  intros [[H|H] _]; vm_compute in H; [discriminate H|apply H; reflexivity].
Defined.

End ImageInstance.
