(* ===== verification/CacheInterface.v ===== *)
(** * The cache interface of the service

    What the thumbnailer uses of its three persistent caches, and what it may
    rely on.  CacheHelper.v implements the interface over the cache library;
    Thumbnailer.v is verified against it. *)

From S2P Require Import Prelude.

Module CacheInterface.

(** Operations on a string cache of state [C]; times are nanoseconds, an expiry
    time of [no_expiry] means never. *)
Definition no_expiry : Z := 0.

Class Cache (C : Type) : Type := {
  cache_get : string -> Z -> M C (option string);
  cache_put : string -> string -> Z -> Z -> M C bool;    (* key value expiry now *)
  cache_contains_key : string -> Z -> M C bool;
  cache_stats : M C string;
  cache_clear_stats : M C unit;
  cache_invalidate : M C unit;
  cache_compact : M C unit
}.

Definition live (expiry now : Z) : bool := (expiry =? no_expiry) || (now <? expiry).

(** A cache holds at each time a partial map ([cache_lookup]).  A [cache_usable]
    one may have to repair itself first (its map is then empty); it is
    [cache_valid] after any of the calls that can do so.  Any call may evict
    other entries to make room, none invents one, and time alone only takes entries
    away.  A cache accepts a record that has not expired and is no larger than the
    size it was opened with; one that is larger it may refuse. *)
Class CacheLaws (C : Type) `{Cache C} : Type := {
  cache_usable : C -> Prop;
  cache_valid : C -> Prop;
  cache_valid_usable c : cache_valid c -> cache_usable c;
  cache_lookup : C -> Z -> string -> option string;
  cache_expire c now now' k : now <= now' ->
    cache_lookup c now' k = cache_lookup c now k \/ cache_lookup c now' k = None;
  cache_room : C -> Z;                       (* the size it was opened with *)
  cache_record : string -> string -> Z;      (* the size of a record *)
  cache_get_law k now c : cache_usable c ->
    exists c', cache_get k now c = (c', Ok (cache_lookup c now k)) /\ cache_valid c' /\
      forall now' k', cache_lookup c' now' k' = cache_lookup c now' k';
  cache_put_law k v expiry now c : cache_usable c ->
    exists c' added, cache_put k v expiry now c = (c', Ok added) /\ cache_valid c' /\
      (forall now' k', k' <> k ->
         cache_lookup c' now' k' = cache_lookup c now' k' \/ cache_lookup c' now' k' = None) /\
      (added = true -> forall now',
         cache_lookup c' now' k = if live expiry now' then Some v else None);
  cache_put_accepts k v expiry now c : cache_usable c -> cache_record k v <= cache_room c ->
    live expiry now = true -> (cache_put k v expiry now c).2 = Ok true;
  cache_invalidate_law c : cache_usable c ->
    exists c', cache_invalidate c = (c', Ok tt) /\ cache_valid c' /\
      forall now' k', cache_lookup c' now' k' = None;
  cache_compact_law c : cache_usable c ->
    exists c', cache_compact c = (c', Ok tt) /\ cache_valid c' /\
      forall now' k', cache_lookup c' now' k' = cache_lookup c now' k';
  cache_contains_law k now c : cache_valid c ->
    exists c', cache_contains_key k now c = (c', Ok (bool_decide (is_Some (cache_lookup c now k)))) /\
      cache_valid c' /\ forall now' k', cache_lookup c' now' k' = cache_lookup c now' k';
  cache_clear_stats_law c : cache_valid c ->
    exists c', cache_clear_stats c = (c', Ok tt) /\ cache_valid c' /\
      forall now' k', cache_lookup c' now' k' = cache_lookup c now' k';
  cache_stats_law c : cache_valid c ->
    exists c' st, cache_stats c = (c', Ok st) /\ cache_valid c' /\
      forall now' k', cache_lookup c' now' k' = cache_lookup c now' k';
  cache_get_room k now c : cache_room (cache_get k now c).1 = cache_room c;
  cache_put_room k v expiry now c : cache_room (cache_put k v expiry now c).1 = cache_room c;
  cache_contains_room k now c : cache_room (cache_contains_key k now c).1 = cache_room c;
  cache_clear_stats_room c : cache_room (cache_clear_stats c).1 = cache_room c;
  cache_invalidate_room c : cache_room (cache_invalidate c).1 = cache_room c;
  cache_compact_room c : cache_room (cache_compact c).1 = cache_room c
}.

(** The record is not larger than the cache. *)
Definition cache_fits {C : Type} `{CacheLaws C} (c : C) (k v : string) : Prop := cache_record (C := C) k v <= cache_room c.

End CacheInterface.
