(* ===== verification/CacheHelper.v ===== *)
(** * CacheHelper (include/internal/cachehelper.h)

    The wrapper around [core::PersistentStringCache] that wipes a corrupt
    database and retries, first against the interface of the cache library
    ([CacheLib], with its documented behaviour [CacheLibLaws]).  The interface
    the helper offers in turn to the rest of the service is [Cache] with
    [CacheLaws] (CacheInterface.v); [helper_cache_laws] shows that the helper implements it. *)

From S2P Require Import Prelude CxxLib CacheInterface.
Import Cxx CacheInterface.

Module CacheHelper.

(** ** The cache library *)

Inductive CacheDiscardPolicy : Type := lru_only | lru_ttl.

(** [W] is the cache directory with what the library keeps of it, [H] an open
    cache.  [lib_close] is the destructor of the cache object. *)
Class CacheLib (W H : Type) : Type := {
  lib_open : Z -> CacheDiscardPolicy -> W -> W * outcome H;
  lib_open_existing : W -> W * outcome H;
  lib_close : H -> W -> W;
  lib_resize : H -> Z -> M W unit;
  lib_get : H -> string -> Z -> M W (option string);
  lib_put : H -> string -> string -> Z -> Z -> M W bool;
  lib_contains_key : H -> string -> Z -> M W bool;
  lib_stats : H -> M W string;
  lib_clear_stats : H -> M W unit;
  lib_invalidate : H -> M W unit;
  lib_compact : H -> M W unit;
  remove_all : M W unit
}.

Section Helper.
Context {W H : Type} {lib : CacheLib W H}.

(** [class CacheHelper], with the directory it works on. *)
Record CacheHelper : Type := mkHelper {
  size_ : Z;
  policy_ : CacheDiscardPolicy;
  c_ : option H;
  dir : W
}.

Definition set_dir (w : W) (s : CacheHelper) : CacheHelper := mkHelper (size_ s) (policy_ s) (c_ s) w.

(** A library call that is not a member of the cache object. *)
Definition on_dir {A} (f : W -> W * outcome A) : M CacheHelper A := fun s =>
  let '(w, r) := f (dir s) in (set_dir w s, r).

(** A call through [c_]. *)
Definition deref {A} (f : H -> M W A) : M CacheHelper A := fun s =>
  match c_ s with
  | None => (s, Crash (Undefined "null c_"))
  | Some h => on_dir (f h) s
  end.

(** [c_ = move(...)] and [c_.reset()]: the cache held before is closed. *)
Definition set_c (c : option H) : M CacheHelper unit := fun s =>
  let w := match c_ s with Some h => lib_close h (dir s) | None => dir s end in
  (mkHelper (size_ s) (policy_ s) c w, Ok tt).

(** [std::logic_error] and the standard exceptions derived from it. *)
Definition is_logic_error (e : exn) : bool :=
  match e with
  | logic_error _ | invalid_argument _ | out_of_range _ | domain_error _ => true
  | _ => false
  end.

Definition init_cache : M CacheHelper unit := fun s =>
  catchM (h ← on_dir (lib_open (size_ s) (policy_ s)); set_c (Some h))
    (fun e => if is_logic_error e then
                h ← on_dir lib_open_existing;
                _ ← set_c (Some h);
                deref (fun h => lib_resize h (size_ s))
              else throw e) s.

Definition recover (e : exn) : M CacheHelper unit :=
  match e with
  | system_error code _ =>
      if negb (code =? 666) then throw e
      else
        _ ← set_c None;
        _ ← on_dir remove_all;
        init_cache
  | _ => throw e
  end.

Definition call {A} (func : M CacheHelper A) : M CacheHelper A :=
  catchM func (fun e => _ ← recover e; func).

(** The constructor and [open] with a size. *)
Definition open (max_size_in_bytes : Z) (policy : CacheDiscardPolicy) (w : W)
    : CacheHelper * outcome unit :=
  call init_cache (mkHelper max_size_in_bytes policy None w).

Definition get (key : string) (now : Z) : M CacheHelper (option string) :=
  call (deref (fun h => lib_get h key now)).
Definition put (key value : string) (expiry now : Z) : M CacheHelper bool :=
  call (deref (fun h => lib_put h key value expiry now)).
Definition contains_key (key : string) (now : Z) : M CacheHelper bool :=
  deref (fun h => lib_contains_key h key now).
Definition stats : M CacheHelper string := deref lib_stats.
Definition clear_stats : M CacheHelper unit := deref lib_clear_stats.
Definition invalidate : M CacheHelper unit := call (deref lib_invalidate).
Definition compact : M CacheHelper unit := call (deref lib_compact).

#[export] Instance helper_cache : Cache CacheHelper := {
  cache_get := get;
  cache_put := put;
  cache_contains_key := contains_key;
  cache_stats := stats;
  cache_clear_stats := clear_stats;
  cache_invalidate := invalidate;
  cache_compact := compact
}.

(** ** What the cache library documents *)

(** An open database is healthy, with the entries it answers ([lib_view]), or
    corrupt: then every access to its data reports [system_error] 666 until the
    directory is removed and the cache opened afresh. *)
Definition corrupt_error (e : exn) : Prop := exists msg, e = system_error 666 msg.

Class CacheLibLaws : Type := {
  lib_healthy : H -> W -> Prop;
  lib_corrupt : H -> W -> Prop;
  lib_gone : W -> Prop;                            (* nothing on disk, nothing open *)
  lib_view : H -> W -> Z -> string -> option string;
  lib_max : H -> W -> Z;                           (* the maximum size *)
  lib_record : string -> string -> Z;              (* the size of a record *)
  lib_view_expire h w now now' k : now <= now' ->
    lib_view h w now' k = lib_view h w now k \/ lib_view h w now' k = None;
  lib_view_corrupt h w now k : lib_corrupt h w -> lib_view h w now k = None;
  lib_close_remove h w : lib_corrupt h w ->
    exists w', remove_all (lib_close h w) = (w', Ok tt) /\ lib_gone w';
  lib_open_gone n p w : lib_gone w ->
    exists w' h, lib_open n p w = (w', Ok h) /\ lib_healthy h w' /\ lib_max h w' = n /\
      forall now k, lib_view h w' now k = None;
  lib_get_corrupt h w k now : lib_corrupt h w ->
    exists w' e, lib_get h k now w = (w', Throw e) /\ corrupt_error e /\ lib_corrupt h w';
  lib_put_corrupt h w k v x now : lib_corrupt h w ->
    exists w' e, lib_put h k v x now w = (w', Throw e) /\ corrupt_error e /\ lib_corrupt h w';
  lib_invalidate_corrupt h w : lib_corrupt h w ->
    exists w' e, lib_invalidate h w = (w', Throw e) /\ corrupt_error e /\ lib_corrupt h w';
  lib_compact_corrupt h w : lib_corrupt h w ->
    exists w' e, lib_compact h w = (w', Throw e) /\ corrupt_error e /\ lib_corrupt h w';
  lib_get_healthy h w k now : lib_healthy h w ->
    exists w', lib_get h k now w = (w', Ok (lib_view h w now k)) /\ lib_healthy h w' /\
      forall now' k', lib_view h w' now' k' = lib_view h w now' k';
  lib_contains_healthy h w k now : lib_healthy h w ->
    exists w', lib_contains_key h k now w = (w', Ok (bool_decide (is_Some (lib_view h w now k)))) /\
      lib_healthy h w' /\ forall now' k', lib_view h w' now' k' = lib_view h w now' k';
  lib_put_healthy h w k v x now : lib_healthy h w ->
    exists w' added, lib_put h k v x now w = (w', Ok added) /\ lib_healthy h w' /\
      (forall now' k', k' <> k ->
         lib_view h w' now' k' = lib_view h w now' k' \/ lib_view h w' now' k' = None) /\
      (added = true -> forall now', lib_view h w' now' k = if live x now' then Some v else None) /\
      (lib_record k v <= lib_max h w -> live x now = true -> added = true);
  lib_invalidate_healthy h w : lib_healthy h w ->
    exists w', lib_invalidate h w = (w', Ok tt) /\ lib_healthy h w' /\
      forall now' k', lib_view h w' now' k' = None;
  lib_compact_healthy h w : lib_healthy h w ->
    exists w', lib_compact h w = (w', Ok tt) /\ lib_healthy h w' /\
      forall now' k', lib_view h w' now' k' = lib_view h w now' k';
  lib_clear_stats_healthy h w : lib_healthy h w ->
    exists w', lib_clear_stats h w = (w', Ok tt) /\ lib_healthy h w' /\
      forall now' k', lib_view h w' now' k' = lib_view h w now' k';
  lib_stats_healthy h w : lib_healthy h w ->
    exists w' st, lib_stats h w = (w', Ok st) /\ lib_healthy h w' /\
      forall now' k', lib_view h w' now' k' = lib_view h w now' k';
  lib_get_max h w k now : lib_max h (lib_get h k now w).1 = lib_max h w;
  lib_put_max h w k v x now : lib_max h (lib_put h k v x now w).1 = lib_max h w;
  lib_contains_max h w k now : lib_max h (lib_contains_key h k now w).1 = lib_max h w;
  lib_clear_stats_max h w : lib_max h (lib_clear_stats h w).1 = lib_max h w;
  lib_stats_max h w : lib_max h (lib_stats h w).1 = lib_max h w;
  lib_invalidate_max h w : lib_max h (lib_invalidate h w).1 = lib_max h w;
  lib_compact_max h w : lib_max h (lib_compact h w).1 = lib_max h w
}.
End Helper.

Arguments CacheHelper : clear implicits.
Arguments CacheLibLaws W H {lib}.

Section Theorems.
Context {W H : Type} {lib : CacheLib W H} {laws : CacheLibLaws W H}.
Implicit Types s : CacheHelper W H.

Definition helper_ok s : Prop := exists h, c_ s = Some h /\ lib_healthy h (dir s) /\ lib_max h (dir s) = size_ s.
Definition helper_corrupt s : Prop := exists h, c_ s = Some h /\ lib_corrupt h (dir s).
Definition helper_view s (now : Z) (k : string) : option string :=
  match c_ s with Some h => lib_view h (dir s) now k | None => None end.

(** ** Lemmas *)

Lemma recover_fresh e s :
  corrupt_error e -> helper_corrupt s ->
  exists s', recover e s = (s', Ok tt) /\ helper_ok s' /\
    forall now k, helper_view s' now k = None.
Proof.
  intros [msg ->] (h & Hc & Hh). destruct (lib_close_remove h (dir s) Hh) as (w & Hr & Hg).
  destruct (lib_open_gone (size_ s) (policy_ s) w Hg) as (w' & h' & Ho & Hh' & Hm & Hv).
  unfold recover, init_cache, catchM, mbind, M_bind, set_c, on_dir. simpl. rewrite Hc. simpl.
  rewrite Hr. simpl. rewrite Ho. simpl. eexists. split; [done|].
  split; [by exists h'|]. intros now k. apply Hv.
Qed.

(** A wrapped library call on a healthy cache is the library call ... *)
Lemma call_healthy {A} (f : H -> M W A) s h w a :
  c_ s = Some h -> f h (dir s) = (w, Ok a) -> call (deref f) s = (set_dir w s, Ok a).
Proof. intros Hc Hf. unfold call, catchM, deref, on_dir. by rewrite Hc, Hf. Qed.

(** ... and on a corrupt one the call on the fresh cache that replaces it. *)
Lemma call_corrupt {A} (f : H -> M W A) s h w e :
  c_ s = Some h -> f h (dir s) = (w, Throw e) -> corrupt_error e -> lib_corrupt h w ->
  exists s', call (deref f) s = deref f s' /\ helper_ok s' /\ forall now k, helper_view s' now k = None.
Proof.
  intros Hc Hf He Hw.
  destruct (recover_fresh e (set_dir w s) He) as (s' & Hr & Hok & Hv); [by exists h|].
  exists s'. unfold call, catchM, mbind, M_bind. unfold deref at 1, on_dir. rewrite Hc, Hf, Hr. done.
Qed.

Lemma helper_ok_corrupt_view s now k : helper_corrupt s -> helper_view s now k = None.
Proof. intros (h & Hc & Hh). unfold helper_view. rewrite Hc. by apply lib_view_corrupt. Qed.

Lemma deref_ok {A} (f : H -> M W A) s h w a :
  c_ s = Some h -> f h (dir s) = (w, Ok a) -> lib_healthy h w -> lib_max h (dir s) = size_ s ->
  (forall w, lib_max h (f h w).1 = lib_max h w) ->
  deref f s = (set_dir w s, Ok a) /\ helper_ok (set_dir w s) /\
  forall now k, helper_view (set_dir w s) now k = lib_view h w now k.
Proof.
  intros Hc Hf Hw Hm Hs. unfold deref, on_dir. specialize (Hs (dir s)). rewrite Hc, Hf in *. split; [done|].
  split; [exists h; split_and!; simpl; [done|done|by rewrite <- Hm]|].
  intros now k. unfold helper_view, set_dir; simpl. by rewrite Hc.
Qed.

(** A wrapped call reduces to the library call on a healthy cache with the
    helper's map. *)
Lemma call_spec {A} (f : H -> M W A) s :
  (forall h w, lib_corrupt h w -> exists w' e, f h w = (w', Throw e) /\ corrupt_error e /\ lib_corrupt h w') ->
  (forall h w, lib_healthy h w -> exists w' a, f h w = (w', Ok a) /\ lib_healthy h w') ->
  helper_ok s \/ helper_corrupt s ->
  exists s' h, call (deref f) s = deref f s' /\ c_ s' = Some h /\ lib_healthy h (dir s') /\
    lib_max h (dir s') = size_ s' /\ forall now k, lib_view h (dir s') now k = helper_view s now k.
Proof.
  intros Hcor Hok [(h & Hc & Hh & Hm)|Hs].
  - destruct (Hok h (dir s) Hh) as (w & a & Hf & _). exists s, h.
    rewrite (call_healthy f s h w a) by done. unfold deref, on_dir, helper_view. by rewrite Hc, Hf.
  - pose proof Hs as (h & Hc & Hh). destruct (Hcor h (dir s) Hh) as (w & e & Hf & He & Hw).
    destruct (call_corrupt f s h w e Hc Hf He Hw) as (s' & Heq & (h' & Hc' & Hh' & Hm') & Hv).
    exists s', h'. split; [done|]. split; [done|]. split; [done|]. split; [done|]. intros now k.
    rewrite (helper_ok_corrupt_view s) by done. specialize (Hv now k). unfold helper_view in Hv.
    by rewrite Hc' in Hv.
Qed.

(** Whatever happens, the size the helper opens its caches with stays. *)
Definition same_size s s' : Prop := size_ s' = size_ s.

#[export] Instance same_size_preorder : PreOrder same_size.
Proof. split; [done|]. intros ??? H1 H2. unfold same_size in *. congruence. Qed.

Lemma keeps_on_dir {A} (f : W -> W * outcome A) : keeps same_size (on_dir f).
Proof. intros s. unfold on_dir. by destruct (f (dir s)). Qed.

Lemma keeps_deref {A} (f : H -> M W A) : keeps same_size (deref f).
Proof. intros s. unfold deref. destruct (c_ s); [apply keeps_on_dir|done]. Qed.

Lemma keeps_init_cache : keeps same_size init_cache.
Proof.
  intros s. refine (keeps_catch same_size _ _ _ _ s).
  - apply (keeps_bind same_size); [apply keeps_on_dir|]. by intros h s'.
  - intros e. destruct (is_logic_error e); [|by apply (keeps_same same_size)].
    apply (keeps_bind same_size); [apply keeps_on_dir|]. intros h. apply (keeps_bind same_size); [by intros s'|].
    intros u. apply keeps_deref.
Qed.

Lemma keeps_call {A} (m : M (CacheHelper W H) A) : keeps same_size m -> keeps same_size (call m).
Proof.
  intros Hm. apply (keeps_catch same_size); [done|]. intros e. apply (keeps_bind same_size); [|done].
  destruct e; try by apply (keeps_same same_size). unfold recover. destruct (negb _); [by apply (keeps_same same_size)|].
  apply (keeps_bind same_size); [by intros s|]. intros u. apply (keeps_bind same_size); [apply keeps_on_dir|].
  intros v. apply keeps_init_cache.
Qed.

(** The helper implements the interface of the service. *)
#[export] Instance helper_cache_laws : CacheLaws (CacheHelper W H).
Proof.
  refine {| cache_usable s := helper_ok s \/ helper_corrupt s;
            cache_valid := helper_ok; cache_lookup := helper_view;
            cache_room := size_; cache_record := lib_record (W := W) (H := H) |}; [auto|..].
  - intros s now now' k Hle. unfold helper_view. destruct (c_ s); [by apply lib_view_expire|by left].
  - intros k now s Hs. destruct (call_spec (fun h => lib_get h k now) s) as (s' & h & Heq & Hc & Hh & Hm & Hv);
      eauto using lib_get_corrupt; [intros ?? (w & ? & ? & ?)%(lib_get_healthy _ _ k now); eauto|].
    destruct (lib_get_healthy h (dir s') k now Hh) as (w & Hf & Hw & Hv').
    destruct (deref_ok (fun h => lib_get h k now) _ _ _ _ Hc Hf Hw Hm) as (Hd & Hok & Hv'');
      [eauto using lib_get_max, lib_put_max, lib_contains_max, lib_clear_stats_max, lib_stats_max, lib_invalidate_max, lib_compact_max|].
    simpl. unfold get. rewrite Heq, Hd, Hv. eexists. split; [done|]. split; [done|].
    intros. by rewrite Hv'', Hv', Hv.
  - intros k v x now s Hs.
    destruct (call_spec (fun h => lib_put h k v x now) s) as (s' & h & Heq & Hc & Hh & Hm & Hv);
      eauto using lib_put_corrupt; [intros ?? (w & b & ? & ? & _)%(lib_put_healthy _ _ k v x now); eauto|].
    destruct (lib_put_healthy h (dir s') k v x now Hh) as (w & b & Hf & Hw & Hv' & Hadd & _).
    destruct (deref_ok (fun h => lib_put h k v x now) _ _ _ _ Hc Hf Hw Hm) as (Hd & Hok & Hv'');
      [eauto using lib_get_max, lib_put_max, lib_contains_max, lib_clear_stats_max, lib_stats_max, lib_invalidate_max, lib_compact_max|].
    simpl. unfold put. rewrite Heq, Hd. eexists _, b. split; [done|]. split; [done|].
    split; intros; rewrite ?Hv''; [rewrite <- Hv; by apply Hv'|by apply Hadd].
  - intros k v x now s Hs Hfit Hlive.
    destruct (call_spec (fun h => lib_put h k v x now) s) as (s' & h & Heq & Hc & Hh & Hm & Hv);
      eauto using lib_put_corrupt; [intros ?? (w & b & ? & ? & _)%(lib_put_healthy _ _ k v x now); eauto|].
    destruct (lib_put_healthy h (dir s') k v x now Hh) as (w & b & Hf & Hw & _ & _ & Hadd).
    assert (Hsz : size_ s' = size_ s).
    { pose proof (keeps_call _ (keeps_deref (fun h => lib_put h k v x now)) s) as H1.
      pose proof (keeps_deref (fun h => lib_put h k v x now) s') as H2. unfold same_size in *. rewrite Heq in H1. congruence. }
    simpl. unfold put. rewrite Heq. unfold deref, on_dir. rewrite Hc, Hf. simpl. f_equal. apply Hadd; [|done]. by rewrite Hm, Hsz.
  - intros s Hs. destruct (call_spec lib_invalidate s) as (s' & h & Heq & Hc & Hh & Hm & Hv);
      eauto using lib_invalidate_corrupt; [intros ?? (w & ? & ? & ?)%lib_invalidate_healthy; eauto|].
    destruct (lib_invalidate_healthy h (dir s') Hh) as (w & Hf & Hw & Hv').
    destruct (deref_ok lib_invalidate _ _ _ _ Hc Hf Hw Hm) as (Hd & Hok & Hv'');
      [eauto using lib_get_max, lib_put_max, lib_contains_max, lib_clear_stats_max, lib_stats_max, lib_invalidate_max, lib_compact_max|].
    simpl. unfold invalidate. rewrite Heq, Hd. eexists. split; [done|]. split; [done|].
    intros. by rewrite Hv'', Hv'.
  - intros s Hs. destruct (call_spec lib_compact s) as (s' & h & Heq & Hc & Hh & Hm & Hv);
      eauto using lib_compact_corrupt; [intros ?? (w & ? & ? & ?)%lib_compact_healthy; eauto|].
    destruct (lib_compact_healthy h (dir s') Hh) as (w & Hf & Hw & Hv').
    destruct (deref_ok lib_compact _ _ _ _ Hc Hf Hw Hm) as (Hd & Hok & Hv'');
      [eauto using lib_get_max, lib_put_max, lib_contains_max, lib_clear_stats_max, lib_stats_max, lib_invalidate_max, lib_compact_max|].
    simpl. unfold compact. rewrite Heq, Hd. eexists. split; [done|]. split; [done|].
    intros. by rewrite Hv'', Hv', Hv.
  - intros k now s (h & Hc & Hh & Hm). destruct (lib_contains_healthy h (dir s) k now Hh) as (w & Hf & Hw & Hv).
    destruct (deref_ok (fun h => lib_contains_key h k now) _ _ _ _ Hc Hf Hw Hm) as (Hd & Hok & Hv');
      [eauto using lib_get_max, lib_put_max, lib_contains_max, lib_clear_stats_max, lib_stats_max, lib_invalidate_max, lib_compact_max|].
    assert (Hs : helper_view s = lib_view h (dir s)) by (unfold helper_view; by rewrite Hc).
    simpl. unfold contains_key. rewrite Hd, Hs. eexists. split; [done|]. split; [done|].
    intros. by rewrite Hv', Hv.
  - intros s (h & Hc & Hh & Hm). destruct (lib_clear_stats_healthy h (dir s) Hh) as (w & Hf & Hw & Hv).
    destruct (deref_ok lib_clear_stats _ _ _ _ Hc Hf Hw Hm) as (Hd & Hok & Hv');
      [eauto using lib_get_max, lib_put_max, lib_contains_max, lib_clear_stats_max, lib_stats_max, lib_invalidate_max, lib_compact_max|].
    simpl. unfold clear_stats. rewrite Hd. eexists. split; [done|]. split; [done|].
    intros. rewrite Hv', Hv. unfold helper_view. by rewrite Hc.
  - intros s (h & Hc & Hh & Hm). destruct (lib_stats_healthy h (dir s) Hh) as (w & st & Hf & Hw & Hv).
    destruct (deref_ok lib_stats _ _ _ _ Hc Hf Hw Hm) as (Hd & Hok & Hv');
      [eauto using lib_get_max, lib_put_max, lib_contains_max, lib_clear_stats_max, lib_stats_max, lib_invalidate_max, lib_compact_max|].
    simpl. unfold stats. rewrite Hd. eexists _, _. split; [done|]. split; [done|].
    intros. rewrite Hv', Hv. unfold helper_view. by rewrite Hc.
  - intros k now s. exact (keeps_call _ (keeps_deref _) s).
  - intros k v x now s. exact (keeps_call _ (keeps_deref _) s).
  - intros k now s. exact (keeps_deref _ s).
  - intros s. exact (keeps_deref _ s).
  - intros s. exact (keeps_call _ (keeps_deref _) s).
  - intros s. exact (keeps_call _ (keeps_deref _) s).
Defined.

(** ** Properties *)


(** A recovery that fails leaves the helper without a cache object: when
    the cache cannot be reopened after the corrupt one was deleted, the error is
    passed on, and every later call dereferences a null pointer. *)
Theorem failed_recovery_poisons s h w w1 w2 e key now now' k :
  c_ s = Some h ->
  lib_get h key now (dir s) = (w, Throw (system_error 666 "corrupt")) ->
  remove_all (lib_close h w) = (w1, Ok tt) ->
  lib_open (size_ s) (policy_ s) w1 = (w2, Throw e) -> is_logic_error e = false ->
  exists s', get key now s = (s', Throw e) /\
    get k now' s' = (s', Crash (Undefined "null c_")) /\
    put k k no_expiry now' s' = (s', Crash (Undefined "null c_")).
Proof.
  intros Hc Hg Hr Ho He. exists (mkHelper (size_ s) (policy_ s) None w2).
  split; [|done]. unfold get, call, recover, init_cache, deref, catchM, mbind, M_bind, set_c, on_dir.
  rewrite Hc, Hg. simpl. rewrite Hc. simpl. rewrite Hr. simpl. rewrite Ho, He. done.
Qed.
End Theorems.

(** ** A concrete cache library, and witnesses *)

(** A database in memory: whether it is corrupt, its entries, its maximum size and
    whether opening it fails.  A record is as large as its key and value. *)
Record store : Type := mkStore {
  st_db : option (bool * gmap string (string * Z));
  st_max : Z;
  st_fail : bool
}.

Definition st_record (k v : string) : Z := Z.of_nat (String.length k + String.length v).

Definition st_find (w : store) (now : Z) (k : string) : option string :=
  match st_db w with
  | Some (false, m) => '(v, x) ← m !! k; if live x now then Some v else None
  | _ => None
  end.

(** Run on a healthy database, or report corruption. *)
Definition st_access {A} (f : gmap string (string * Z) -> gmap string (string * Z) * A) : M store A :=
  fun w => match st_db w with
           | Some (false, m) => let '(m', a) := f m in (mkStore (Some (false, m')) (st_max w) (st_fail w), Ok a)
           | _ => (w, Throw (system_error 666 "corrupt"))
           end.

#[export] Instance store_lib : CacheLib store unit := {
  lib_open n _ w := if st_fail w then (w, Throw (runtime_error "cannot open"))
                    else match st_db w with
                         | None => (mkStore (Some (false, ∅)) n false, Ok tt)
                         | Some _ => (w, if st_max w =? n then Ok tt else Throw (logic_error "other size"))
                         end;
  lib_open_existing w := (w, Ok tt);
  lib_close _ w := w;
  lib_resize _ n w := (mkStore (st_db w) n (st_fail w), Ok tt);
  lib_get _ k now w := st_access (fun m => (m, st_find w now k)) w;
  lib_put _ k v x now w := st_access (fun m =>
    if (st_record k v <=? st_max w) && live x now then (<[k := (v, x)]> m, true) else (m, false)) w;
  lib_contains_key _ k now w := st_access (fun m => (m, bool_decide (is_Some (st_find w now k)))) w;
  lib_stats _ w := (w, Ok "");
  lib_clear_stats _ w := (w, Ok tt);
  lib_invalidate _ := st_access (fun _ => (∅, tt));
  lib_compact _ := st_access (fun m => (m, tt));
  remove_all w := (mkStore None (st_max w) (st_fail w), Ok tt)
}.

Lemma st_access_max {A} (f : gmap string (string * Z) -> gmap string (string * Z) * A) w :
  st_max (st_access f w).1 = st_max w.
Proof. unfold st_access. destruct (st_db w) as [[[] m]|]; [done| |done]. by destruct (f m). Qed.

Lemma st_find_expire w now now' k : now <= now' -> st_find w now' k = st_find w now k \/ st_find w now' k = None.
Proof.
  intros Hle. unfold st_find. destruct (st_db w) as [[[] m]|]; [by left| |by left]. destruct (m !! k) as [[v x]|]; [|by left].
  simpl. unfold live. destruct (Z.eqb_spec x no_expiry), (Z.ltb_spec now x), (Z.ltb_spec now' x); simpl; auto. lia.
Qed.

#[export] Instance store_laws : CacheLibLaws store unit.
Proof.
  refine {| lib_healthy _ w := exists m, st_db w = Some (false, m);
            lib_corrupt _ w := (exists m, st_db w = Some (true, m)) /\ st_fail w = false;
            lib_gone w := st_db w = None /\ st_fail w = false;
            lib_view _ := st_find; lib_max _ := st_max; lib_record := st_record |}.
  - intros []. apply st_find_expire.
  - by intros [] w now k [[m Hm] _]; unfold st_find; rewrite Hm.
  - intros [] w [[m Hm] Hf]. eexists. split; [done|]. done.
  - intros n p [db x f] [Hd Hf]; simpl in *. subst. eexists _, tt. split; [done|]. simpl.
    split; [by eexists|]. split; [done|]. intros now k. unfold st_find; simpl. by rewrite lookup_empty.
  - intros [] w k now ([m Hm] & Hf). unfold lib_get, store_lib, st_access. rewrite Hm. unfold corrupt_error. eauto 10.
  - intros [] w k v x now ([m Hm] & Hf). unfold lib_put, store_lib, st_access. rewrite Hm. unfold corrupt_error. eauto 10.
  - intros [] w ([m Hm] & Hf). unfold lib_invalidate, store_lib, st_access. rewrite Hm. unfold corrupt_error. eauto 10.
  - intros [] w ([m Hm] & Hf). unfold lib_compact, store_lib, st_access. rewrite Hm. unfold corrupt_error. eauto 10.
  - intros [] w k now [m Hm]. unfold lib_get, store_lib, st_access. rewrite Hm. eexists. split; [done|].
    split; [by eexists|]. intros. unfold st_find; simpl. by rewrite Hm.
  - intros [] w k now [m Hm]. unfold lib_contains_key, store_lib, st_access. rewrite Hm. eexists. split; [done|].
    split; [by eexists|]. intros. unfold st_find; simpl. by rewrite Hm.
  - intros [] w k v x now [m Hm]. unfold lib_put, store_lib, st_access. rewrite Hm.
    destruct (Z.leb_spec (st_record k v) (st_max w)), (live x now) eqn:Hx; simpl;
      (eexists _, _; split; [done|]); (split; [by eexists|]); unfold st_find; simpl;
      rewrite Hm; try (split_and!; [by left|done|done || (intros; lia)]).
    split_and!; [|intros _ now'; by rewrite lookup_insert_eq|done]. intros now' k' Hk. rewrite lookup_insert_ne by done. by left.
  - intros [] w [m Hm]. unfold lib_invalidate, store_lib, st_access. rewrite Hm. eexists. split; [done|].
    split; [by eexists|]. intros. unfold st_find; simpl. by rewrite lookup_empty.
  - intros [] w [m Hm]. unfold lib_compact, store_lib, st_access. rewrite Hm. eexists. split; [done|].
    split; [by eexists|]. intros. unfold st_find; simpl. by rewrite Hm.
  - intros [] w [m Hm]. eexists. split; [done|]. split; [by eexists|done].
  - intros [] w [m Hm]. eexists _, _. split; [done|]. split; [by eexists|done].
  - intros. apply st_access_max.
  - intros. apply st_access_max.
  - intros. apply st_access_max.
  - done.
  - done.
  - intros. apply st_access_max.
  - intros. apply st_access_max.
Defined.

(** A helper whose database got corrupt. *)
Definition corrupted (fail : bool) : CacheHelper store unit :=
  mkHelper 1024 lru_only (Some tt) (mkStore (Some (true, {["k" := ("v", 0)]})) 1024 fail).


Lemma failed_recovery_poisons_witness :
  exists s', get "k" 5 (corrupted true) = (s', Throw (runtime_error "cannot open")) /\
    get "j" 6 s' = (s', Crash (Undefined "null c_")) /\
    put "j" "j" no_expiry 6 s' = (s', Crash (Undefined "null c_")).
Proof. eapply failed_recovery_poisons; reflexivity. Defined.

End CacheHelper.
