(* ===== verification/ImageExtractor.v ===== *)
(** * ImageExtractor (src/imageextractor.cpp)

    Running vs-thumb on a media file: the pipe the image arrives on, the
    watchdog timer and the exit codes.  The event loop calls the slots below;
    the answers of read(2) are part of the events. *)

From S2P Require Import Prelude CxxLib.
Import Cxx.

Module ImageExtractor.

(** [QProcess::state()], as far as the code looks at it. *)
Inductive process_state : Type := NotRunning | Running.

Inductive exit_status : Type := NormalExit (code : Z) | CrashExit.

#[export] Instance exit_status_eq_dec : EqDecision exit_status.
Proof. solve_decision. Defined.

(** What read(2) on the non-blocking pipe returns. *)
Inductive read_result : Type :=
  | Data (bytes : string)
  | Eof
  | WouldBlock
  | Interrupted
  | ReadError (errno : Z).

(** [class ImageExtractor]; [finished_signals] counts the emissions of
    [finished()]. *)
Record ImageExtractor : Type := mkExtractor {
  filename_ : string;
  timeout_ms_ : Z;
  read_called_ : bool;
  exe_path_ : string;
  error_ : string;
  write_fd_open : bool;
  image_data_ : string;
  process_ : process_state;
  pid : Z;
  timer_active : bool;
  finished_signals : Z
}.

Section Defs.
Context (safe_strerror : Z -> string) (SHARE_PRIV_ABS : string).

Definition init (filename : string) (timeout : Z) : ImageExtractor :=
  mkExtractor filename timeout false "" "" true "" NotRunning 0 false 0.

Definition set_error (msg : string) (s : ImageExtractor) : ImageExtractor :=
  mkExtractor (filename_ s) (timeout_ms_ s) (read_called_ s) (exe_path_ s) msg (write_fd_open s)
    (image_data_ s) (process_ s) (pid s) (timer_active s) (finished_signals s).
Definition set_data (d : string) (s : ImageExtractor) : ImageExtractor :=
  mkExtractor (filename_ s) (timeout_ms_ s) (read_called_ s) (exe_path_ s) (error_ s) (write_fd_open s)
    d (process_ s) (pid s) (timer_active s) (finished_signals s).
Definition set_process (p : process_state) (s : ImageExtractor) : ImageExtractor :=
  mkExtractor (filename_ s) (timeout_ms_ s) (read_called_ s) (exe_path_ s) (error_ s) (write_fd_open s)
    (image_data_ s) p (pid s) (timer_active s) (finished_signals s).
Definition stop_timer (s : ImageExtractor) : ImageExtractor :=
  mkExtractor (filename_ s) (timeout_ms_ s) (read_called_ s) (exe_path_ s) (error_ s) (write_fd_open s)
    (image_data_ s) (process_ s) (pid s) false (finished_signals s).
Definition emit_finished (s : ImageExtractor) : ImageExtractor :=
  mkExtractor (filename_ s) (timeout_ms_ s) (read_called_ s) (exe_path_ s) (error_ s) (write_fd_open s)
    (image_data_ s) (process_ s) (pid s) (timer_active s) (finished_signals s + 1).

(** The constructor: the errno of a failed [pipe2()], and of the two [fcntl()]. *)
Definition construct (pipe2 set_nonblock clear_cloexec : option Z) (filename : string) (timeout : Z) : outcome ImageExtractor :=
  let failed what errno := Throw (runtime_error ("ImageExtractor(): cannot " +:+ what +:+ ": " +:+ safe_strerror errno)) in
  match pipe2 with
  | Some errno => failed "create pipe" errno
  | None =>
      match set_nonblock with
      | Some errno => failed "set O_NONBLOCK" errno
      | None =>
          match clear_cloexec with
          | Some errno => failed "clear FD_CLOEXEC" errno
          | None => Ok (init filename timeout)
          end
      end
  end.

(** [extract()]; [utildir] is the environment variable, [p] the child's pid. *)
Definition extract (utildir : option string) (p : Z) (s : ImageExtractor) : ImageExtractor :=
  mkExtractor (filename_ s) (timeout_ms_ s) (read_called_ s)
    (default SHARE_PRIV_ABS utildir +:+ "/vs-thumb") (error_ s) (write_fd_open s)
    (image_data_ s) Running p true (finished_signals s).

Definition read : M ImageExtractor string := fun s =>
  match error_ s with
  | EmptyString =>
      if read_called_ s then (s, Crash (AssertFailed "ImageExtractor::read"))
      else (mkExtractor (filename_ s) (timeout_ms_ s) true (exe_path_ s) (error_ s) (write_fd_open s)
              "" (process_ s) (pid s) (timer_active s) (finished_signals s), Ok (image_data_ s))
  | e => (s, Throw (runtime_error ("ImageExtractor::read(): " +:+ e)))
  end.

(** The read loop of [readFromPipe]; after the answers of [rs] no data is
    available. *)
Fixpoint read_loop (rs : list read_result) (s : ImageExtractor) : ImageExtractor :=
  match rs with
  | [] => s
  | Data bytes :: rs' => read_loop rs' (set_data (image_data_ s +:+ bytes) s)
  | Interrupted :: rs' => read_loop rs' s
  | Eof :: _ | WouldBlock :: _ => s
  | ReadError e :: _ =>
      set_error ("cannot read remaining bytes from pipe: " +:+ safe_strerror e) s
  end.

Definition readFromPipe (rs : list read_result) (s : ImageExtractor) : ImageExtractor :=
  match error_ s with
  | EmptyString => read_loop rs s
  | _ => s
  end.

Definition processFinished (st : exit_status) (rs : list read_result) (s : ImageExtractor)
    : ImageExtractor :=
  let s := stop_timer (set_process NotRunning s) in
  let s :=
    match st with
    | NormalExit code =>
        if code =? 0 then set_error "" (readFromPipe rs s)
        else if code =? 1 then set_error ("no artwork for " +:+ filename_ s) s
        else if code =? 2 then set_error ("extractor pipeline failed for " +:+ filename_ s) s
        else set_error ("unknown exit status " +:+ to_string code +:+ " from " +:+ exe_path_ s +:+
                        " for " +:+ filename_ s) s
    | CrashExit =>
        match error_ s with
        | EmptyString => set_error (exe_path_ s +:+ " crashed") s
        | _ => s
        end
    end in
  emit_finished s.

(** The watchdog timer; [process_.kill()] only takes effect later, when the
    process is reported as finished. *)
Definition timeout (s : ImageExtractor) : ImageExtractor :=
  let pid' := match process_ s with Running => pid s | NotRunning => 0 end in
  set_error (exe_path_ s +:+ " (pid " +:+ to_string pid' +:+ ") did not return after " +:+
             to_string (timeout_ms_ s) +:+ " milliseconds")
    (mkExtractor (filename_ s) (timeout_ms_ s) (read_called_ s) (exe_path_ s) (error_ s)
       (write_fd_open s) (image_data_ s) (process_ s) (pid s) false (finished_signals s)).

(** [error()], for the error [FailedToStart] ([failed_to_start]) or another. *)
Definition error (failed_to_start : bool) (s : ImageExtractor) : ImageExtractor :=
  if failed_to_start then
    emit_finished (set_error ("failed to start " +:+ exe_path_ s)
                     (stop_timer (set_process NotRunning s)))
  else s.

(** [started()]: the write end of the pipe is closed. *)
Definition started (s : ImageExtractor) : ImageExtractor :=
  mkExtractor (filename_ s) (timeout_ms_ s) (read_called_ s) (exe_path_ s) (error_ s) false
    (image_data_ s) (process_ s) (pid s) (timer_active s) (finished_signals s).

Definition pipeError (s : ImageExtractor) : ImageExtractor := set_error "broken pipe" s.

(** The destructor: a running child is killed, and [waitForFinished()] reports its
    end to [processFinished()], unless it takes longer than the timeout
    ([finished] is [None]), which is logged. *)
Definition destroy (finished : option (list read_result)) (s : ImageExtractor) : ImageExtractor * option string :=
  match process_ s with
  | NotRunning => (s, None)
  | Running =>
      match finished with
      | Some rs => (processFinished CrashExit rs s, None)
      | None => (s, Some ("~ImageExtractor(): " +:+ exe_path_ s +:+ " (pid" +:+ to_string (pid s) +:+ ") did not exit after " +:+
                          to_string (timeout_ms_ s) +:+ " milliseconds"))
      end
  end.

(** The slots the event loop can call while the child runs. *)
Inductive event : Type :=
  | Started
  | PipeReadable (rs : list read_result)
  | PipeException
  | TimerFired
  | ProcessError.                     (* any error but FailedToStart *)

Definition handle (e : event) (s : ImageExtractor) : ImageExtractor :=
  match e with
  | Started => started s
  | PipeReadable rs => readFromPipe rs s
  | PipeException => pipeError s
  | TimerFired => timeout s
  | ProcessError => error false s
  end.

Definition run (es : list event) (s : ImageExtractor) : ImageExtractor := fold_left (fun s e => handle e s) es s.

(** ** Lemmas *)

(** The bytes the answers of one notification deliver: up to the first one
    that says there are none. *)
Fixpoint delivered (rs : list read_result) : string :=
  match rs with
  | Data bytes :: rs' => bytes +:+ delivered rs'
  | Interrupted :: rs' => delivered rs'
  | _ => ""
  end.

(** No pipe error, exception or timeout. *)
Fixpoint no_read_error (rs : list read_result) : bool :=
  match rs with
  | [] => true
  | Data _ :: rs' | Interrupted :: rs' => no_read_error rs'
  | Eof :: _ | WouldBlock :: _ => true
  | ReadError _ :: _ => false
  end.

Definition quiet (e : event) : bool :=
  match e with
  | Started | ProcessError => true
  | PipeReadable rs => no_read_error rs
  | PipeException | TimerFired => false
  end.

Definition event_data (e : event) : string :=
  match e with PipeReadable rs => delivered rs | _ => "" end.

Lemma read_loop_quiet rs s :
  no_read_error rs = true ->
  read_loop rs s = set_data (image_data_ s +:+ delivered rs) s.
Proof.
  revert s. induction rs as [|[bytes| | | |e] rs IH]; intros s Hq; simpl in *; try done;
    try (rewrite app_nil_s; by destruct s).
  - rewrite IH by done. simpl. by rewrite app_assoc_s.
  - by rewrite IH.
Qed.

Lemma run_quiet es s :
  forallb quiet es = true -> error_ s = "" ->
  error_ (run es s) = "" /\ filename_ (run es s) = filename_ s /\ exe_path_ (run es s) = exe_path_ s /\
  read_called_ (run es s) = read_called_ s /\ finished_signals (run es s) = finished_signals s /\
  image_data_ (run es s) = image_data_ s +:+ fold_right (fun e d => event_data e +:+ d) "" es.
Proof.
  revert s. induction es as [|e es IH]; intros s Hq He; simpl in *.
  { by rewrite app_nil_s. }
  apply andb_true_iff in Hq as [Hqe Hq].
  destruct e as [|rs| | |]; try discriminate; simpl in *.
  - apply (IH (started s)); done.
  - unfold readFromPipe. rewrite He, read_loop_quiet by done.
    destruct (IH (set_data (image_data_ s +:+ delivered rs) s)) as (? & ? & ? & ? & ? & Hd); [done..|].
    split_and!; try done. rewrite Hd. simpl. by rewrite app_assoc_s.
  - by apply IH.
Qed.

Lemma exit_zero rs s :
  no_read_error rs = true -> error_ s = "" ->
  processFinished (NormalExit 0) rs s =
    emit_finished (set_error "" (set_data (image_data_ s +:+ delivered rs)
      (stop_timer (set_process NotRunning s)))).
Proof.
  intros Hr He. unfold processFinished, readFromPipe. simpl. rewrite He.
  by rewrite read_loop_quiet.
Qed.

(** ** Properties *)

(** The error of an end other than exit 0. *)
Definition failure_text (exe file : string) (st : exit_status) : string :=
  match st with
  | CrashExit => exe +:+ " crashed"
  | NormalExit code =>
      if code =? 1 then "no artwork for " +:+ file
      else if code =? 2 then "extractor pipeline failed for " +:+ file
      else "unknown exit status " +:+ to_string code +:+ " from " +:+ exe +:+ " for " +:+ file
  end.

Definition exe_path (utildir : option string) : string := default SHARE_PRIV_ABS utildir +:+ "/vs-thumb".

(** The result of an extraction without timeouts or pipe errors is decided
    by how vs-thumb ended: after exit 0, [read()] returns exactly the bytes that
    arrived on the pipe, in order, including those still unread at the exit;
    after any other end it throws and no image is delivered.  [finished()] is
    emitted exactly once. *)
Lemma extraction_result es st rs file tmo utildir p :
  forallb quiet es = true -> no_read_error rs = true ->
  let s := processFinished st rs (run es (extract utildir p (init file tmo))) in
  finished_signals s = 1 /\
  (read s).2 = if decide (st = NormalExit 0)
               then Ok (fold_right (fun e d => event_data e +:+ d) (delivered rs) es)
               else Throw (runtime_error ("ImageExtractor::read(): " +:+ failure_text (exe_path utildir) file st)).
Proof.
  intros Hq Hr. cbn zeta.
  destruct (run_quiet es (extract utildir p (init file tmo)) Hq eq_refl) as (He & Hfile & Hexe & Hc & Hf & Hd).
  set (s := run es _) in *. simpl in Hd, Hc, Hf, Hfile, Hexe.
  assert (Hcat : fold_right (fun e d => event_data e +:+ d) (delivered rs) es =
                 image_data_ s +:+ delivered rs).
  { rewrite Hd. clear. induction es as [|e es IH]; simpl; [done|]. by rewrite IH, app_assoc_s. }
  destruct (decide (st = NormalExit 0)) as [-> | Hst].
  - rewrite exit_zero by done. split; [simpl; lia|]. unfold read. simpl. by rewrite Hc, Hcat.
  - destruct st as [code|]; unfold processFinished, failure_text.
    + destruct (Z.eqb_spec code 0) as [-> | Hne]; [done|]. unfold read; simpl. rewrite Hfile, Hexe.
      destruct (code =? 1); [|destruct (code =? 2)]; (split; [simpl; lia|done]).
    + simpl. rewrite He. split; [simpl; lia|]. unfold read, exe_path. simpl. rewrite Hexe. by destruct (default SHARE_PRIV_ABS utildir).
Qed.

(** Exit 0 hides earlier errors: when the pipe could not be read or the
    watchdog fired before vs-thumb exits with 0, the last bytes are not read,
    the error is dropped and [read()] delivers the truncated data. *)
Theorem exit_zero_hides_errors s rs :
  error_ s <> "" -> read_called_ s = false ->
  (read (processFinished (NormalExit 0) rs s)).2 = Ok (image_data_ s).
Proof.
  intros He Hc. unfold processFinished, readFromPipe. simpl.
  destruct (error_ s) eqn:Ee; [done|]. unfold read. simpl. by rewrite Hc.
Qed.
End Defs.

(** ** Witnesses *)

Definition text (e : Z) : string := "errno " +:+ to_string e.

Lemma exit_zero_hides_errors_witness :
  let s := run text [PipeReadable [Data "ab"; ReadError 5]] (extract "/usr" None 7 (init "f" 100)) in
  error_ s <> "" /\ (read (processFinished text (NormalExit 0) [Data "cd"] s)).2 = Ok "ab".
Proof.
  split; [discriminate|]. apply exit_zero_hides_errors; [discriminate|reflexivity].
Defined.

End ImageExtractor.
