(* ===== verification/Files.v ===== *)
(** * Files: src/file_io.cpp, src/file_lock.cpp, src/safe_strerror.cpp, src/make_directories.cpp

    The system calls are arguments: [inl errno] when they fail.  A read returns
    at least one byte unless the file is at its end, and how many is up to the
    system; a write may be short. *)

From S2P Require Import Prelude.
From S2P Require Import CxxLib.
From S2P Require Import Exceptions.
Import Cxx Exceptions.

Module Files.

(** ** [safe_strerror] *)

Definition EINVAL : Z := 22.
Definition ERANGE : Z := 34.

(** [strerror_r]: its return value and what it left in the buffer. *)
Definition safe_strerror (strerror_r : Z -> Z * string) (errnum : Z) : string :=
  let '(rc, buf) := strerror_r errnum in
  if rc =? 0 then buf
  else if rc =? EINVAL then "invalid error number " +:+ (to_string errnum +:+ " for strerror_r()")
  else if rc =? ERANGE then
    "buffer size of " +:+ (to_string 512 +:+ (" is too small for strerror_r(), errnum = " +:+ to_string errnum))
  else "impossible return value " +:+ (to_string rc +:+ (" from strerror_r(), errnum = " +:+ to_string errnum)).

(** ** [make_directories] *)

(** [g_mkdir_with_parents] of GLib, on the file system [F]; its result is ignored. *)
Definition make_directories {F} (g_mkdir_with_parents : string -> Z -> F -> F * Z) (path_name : string) (mode : Z)
    (fs : F) : F :=
  (g_mkdir_with_parents path_name mode fs).1.

(** ** Reading *)

(** The first [n] characters and the others. *)
Fixpoint split_at (n : nat) (s : string) : string * string :=
  match n, s with
  | S n', String c s' => let '(a, b) := split_at n' s' in (String c a, b)
  | _, _ => (EmptyString, s)
  end.

Definition quote : string := String "034" EmptyString.

Section Reading.
Context (error_text : Z -> string).

(** The [i]-th [read()] of a descriptor: an error, or how much it delivers. *)
Context (reads : nat -> Z + nat).

Definition read (i bufsize : nat) (contents : string) : Z + string * string :=
  match reads i with
  | inl errno => inl errno
  | inr k => inr (split_at (Nat.min bufsize (Nat.max 1 k)) contents)
  end.

(** [rest] is what the descriptor has not delivered yet. *)
Fixpoint read_loop (fuel i : nat) (filename contents rest : string) : outcome string :=
  match fuel with
  | O => Crash (Undefined "read_loop: fuel")
  | S fuel =>
      match read i 4096 rest with
      | inl errno =>
          Throw (runtime_error ("read_file(): cannot read from " +:+ (quote +:+ (filename +:+ (quote +:+ (": " +:+ error_text errno))))))
      | inr (EmptyString, _) => Ok contents
      | inr (buf, rest) => read_loop fuel (S i) filename (contents +:+ buf) rest
      end
  end.

Definition read_file (filename : string) (open : string -> Z + string) : outcome string :=
  match open filename with
  | inl errno =>
      Throw (runtime_error ("read_file(): cannot open " +:+ (quote +:+ (filename +:+ (quote +:+ (": " +:+ error_text errno))))))
  | inr file => read_loop (S (String.length file)) 0 filename "" file
  end.

(** [write_file(int, int)]: [writes i n] is the result of the [i]-th [write()] of
    [n] bytes.  Returns what was written to [out_fd] and how the call ended. *)
Context (writes : nat -> nat -> Z + nat).

Fixpoint copy_loop (fuel i : nat) (rest out : string) : string * outcome unit :=
  match fuel with
  | O => (out, Crash (Undefined "copy_loop: fuel"))
  | S fuel =>
      match read i (16 * 1024) rest with
      | inl errno => (out, Throw (runtime_error ("read failed: " +:+ error_text errno)))
      | inr (buf, rest) =>
          let bytes_read := String.length buf in
          match writes i bytes_read with
          | inl errno => (out, Throw (runtime_error ("write failed: " +:+ error_text errno)))
          | inr bytes_written =>
              let out := out +:+ (split_at bytes_written buf).1 in
              if negb (Nat.eqb bytes_written bytes_read) then
                (out, Throw (runtime_error ("short write, requested " +:+ (to_string (Z.of_nat bytes_read) +:+
                   (" bytes, wrote " +:+ (to_string (Z.of_nat bytes_written) +:+ " bytes"))))))
              else if Nat.eqb bytes_read 0 then (out, Ok tt)
              else copy_loop fuel (S i) rest out
          end
      end
  end.

Definition copy_fd (in_file : string) : string * outcome unit :=
  copy_loop (S (String.length in_file)) 0 in_file "".
End Reading.

(** ** Writing *)

Notation files := (gmap string string).

(** [write_file(filename, buf, len)]: [dir] is the directory of [filename],
    [mkstemp] names a new file there, [written] is the result of the [write()]
    (at most 0x7ffff000 bytes, so it fits the [int] it is assigned to), [renamed]
    the errno of a failed [rename()]. *)
Definition write_file (error_text : Z -> string) (mkstemp : Z + string) (written : nat -> Z + nat) (renamed : option Z)
    (dir filename buf : string) (fs : files) : files * outcome unit :=
  match mkstemp with
  | inl errno => (fs, Throw (runtime_error ("write_file(): mkstemp() failed for " +:+ (dir +:+ ("/thumbnailer.XXXXXX: " +:+ error_text errno)))))
  | inr tmp_path =>
      let fs := <[tmp_path := ""]> fs in
      match written (String.length buf) with
      | inl errno =>
          (fs, Throw (runtime_error ("write_file(): cannot write to " +:+ (quote +:+ (filename +:+ (quote +:+ (": " +:+ error_text errno)))))))
      | inr rc =>
          let contents := (split_at rc buf).1 in
          let fs := <[tmp_path := contents]> fs in
          if negb (Nat.eqb rc (String.length buf)) then
            (fs, Throw (runtime_error ("write_file(): short write for " +:+ (quote +:+ (filename +:+ quote)))))
          else
            match renamed with
            | Some errno =>
                (delete tmp_path fs,
                 Throw (runtime_error ("write_file(): cannot rename " +:+ (tmp_path +:+ (" to " +:+ (filename +:+ (": " +:+ error_text errno)))))))
            | None => (<[filename := contents]> (delete tmp_path fs), Ok tt)
            end
      end
  end.

(** [write_file(path, fd)]: [opened] is the errno of a failed [open()], which
    otherwise leaves the file empty. *)
Definition write_file_from (error_text : Z -> string) (opened : option Z) (reads : nat -> Z + nat) (writes : nat -> nat -> Z + nat)
    (path in_file : string) (fs : files) : files * outcome unit :=
  match opened with
  | Some errno => (fs, Throw (runtime_error ("write_file(): cannot open " +:+ path +:+ ": " +:+ error_text errno)))
  | None =>
      let '(out, r) := copy_fd error_text reads writes in_file in
      (<[path := out]> fs, r)
  end.

(** [tmp_dir], set when the program starts. *)
Definition tmp_dir (getenv_TMPDIR : option string) : string := default "/tmp" getenv_TMPDIR.

(** [create_tmp_filename()]: the file [mkstemp] made is left empty. *)
Definition create_tmp_filename (error_text : Z -> string) (getenv_TMPDIR : option string) (mkstemp : Z + string) (fs : files)
    : files * outcome string :=
  match mkstemp with
  | inl errno =>
      (fs, Throw (runtime_error ("create_tmp_filename(): mkstemp() failed for " +:+ tmp_dir getenv_TMPDIR +:+
         "/thumbnailer.XXXXXX: " +:+ error_text errno)))
  | inr tmp_path => (<[tmp_path := ""]> fs, Ok tmp_path)
  end.

(** ** [AdvisoryFileLock] *)

Definition sleep_interval : Z := 100.

Record AdvisoryFileLock : Type := mkLock { path_ : string; locked_ : bool }.

(** The constructor; the result of [open()] is an argument. *)
Definition make_lock (error_text : Z -> string) (open : option Z) (path : string) : outcome AdvisoryFileLock :=
  match open with
  | Some errno => Throw (unity_exception "unity::FileException"
      (reason_with_errno ("AdvisoryFileLock::lock(): cannot open " +:+ path) errno))
  | None => Ok (mkLock path false)
  end.

Inductive flock_result : Type := Locked | WouldBlock | FlockError (errno : Z).

Section Locking.
(** What the [i]-th call of [flock()] returns; without [LOCK_NB] it never
    returns [WouldBlock]. *)
Context (flock : nat -> flock_result).

(** The loop of [lock()]: the result with the number of calls made. *)
Fixpoint lock_loop (fuel i : nat) (remaining_time : Z) : outcome bool * nat :=
  match fuel with
  | O => (Crash (Undefined "lock_loop: fuel"), i)
  | S fuel =>
      match flock i with
      | Locked => (Ok true, S i)
      | FlockError errno =>
          (Throw (unity_exception "unity::FileException"
             (reason_with_errno "AdvisoryFileLock::lock(): flock failed" errno)), S i)
      | WouldBlock =>
          let remaining_time := remaining_time - sleep_interval in
          if 0 <? remaining_time then lock_loop fuel (S i) remaining_time else (Ok false, S i)
      end
  end.

(** At most one call per interval started. *)
Definition attempts (msecs : Z) : nat := Z.to_nat (Z.max 1 ((msecs + sleep_interval - 1) / sleep_interval)).

Definition lock (msecs : Z) (l : AdvisoryFileLock) : AdvisoryFileLock * outcome bool * nat :=
  if locked_ l then
    (l, Throw (unity_exception "unity::LogicException" ("AdvisoryFileLock::lock(): locked already: " +:+ path_ l)), 0%nat)
  else
    let '(r, n) := lock_loop (attempts msecs) 0 msecs in
    (match r with Ok b => mkLock (path_ l) b | _ => l end, r, n).
End Locking.

(** [flock(LOCK_UN)]: its errno if it fails. *)
Definition unlock (unlocked : option Z) (l : AdvisoryFileLock) : AdvisoryFileLock * outcome unit :=
  if negb (locked_ l) then
    (l, Throw (unity_exception "unity::LogicException" ("AdvisoryFileLock::unlock(): unlocked already: " +:+ path_ l)))
  else
    match unlocked with
    | Some errno => (l, Throw (unity_exception "unity::FileException"
        (reason_with_errno ("AdvisoryFileLock::unlock(): cannot unlock " +:+ path_ l) errno)))
    | None => (mkLock (path_ l) false, Ok tt)
    end.

(** ** Lemmas *)

Lemma split_at_app n s : (split_at n s).1 +:+ (split_at n s).2 = s.
Proof.
  revert s. induction n as [|n IH]; intros [|c s]; try done. simpl. specialize (IH s).
  destruct (split_at n s) as [a b]. simpl in *. by rewrite IH.
Qed.

Lemma length_app_s a b : String.length (a +:+ b) = (String.length a + String.length b)%nat.
Proof. induction a as [|c a IH]; [done|]. simpl. by rewrite IH. Qed.

Lemma split_at_all s : split_at (String.length s) s = (s, "").
Proof. induction s as [|c s IH]; [done|]. simpl. by rewrite IH. Qed.

(** A read delivers the beginning of what is left, and something if there is any. *)
Lemma read_spec reads i size rest buf rest' :
  (0 < size)%nat -> read reads i size rest = inr (buf, rest') ->
  rest = buf +:+ rest' /\ (buf = "" -> rest = "").
Proof.
  unfold read. intros Hs. destruct (reads i) as [e|k]; [done|]. intros [= Hsp].
  pose proof (split_at_app (Nat.min size (Nat.max 1 k)) rest) as Happ. rewrite Hsp in Happ. simpl in Happ.
  split; [done|]. intros ->. destruct rest as [|c rest]; [done|].
  destruct (Nat.min size (Nat.max 1 k)) as [|n] eqn:E; [lia|]. simpl in Hsp. by destruct (split_at n rest).
Qed.

Lemma read_loop_all reads err filename :
  (forall i e, reads i <> inl e) -> forall fuel i contents rest,
  (String.length rest < fuel)%nat -> read_loop err reads fuel i filename contents rest = Ok (contents +:+ rest).
Proof.
  intros Hok. induction fuel as [|fuel IH]; intros i contents rest Hf; [lia|]. cbn [read_loop].
  destruct (read reads i 4096 rest) as [e|[buf rest']] eqn:E.
  - unfold read in E. destruct (reads i) as [e'|] eqn:Er; [by destruct (Hok i e')|done].
  - apply read_spec in E as [-> Hb]; [|lia]. destruct buf as [|c buf].
    + rewrite (Hb eq_refl). by rewrite app_nil_s.
    + rewrite IH; [by rewrite app_assoc_s|]. rewrite length_app_s in Hf. simpl in Hf. lia.
Qed.

Lemma copy_loop_spec reads writes err : forall fuel i rest out,
  (String.length rest < fuel)%nat ->
  exists written left, rest = written +:+ left /\
    (copy_loop err reads writes fuel i rest out).1 = out +:+ written /\
    match (copy_loop err reads writes fuel i rest out).2 with
    | Ok _ => left = ""
    | Throw _ => True
    | Crash _ => False
    end /\
    ((forall j e, reads j <> inl e) -> (forall j n, writes j n = inr n) ->
     (copy_loop err reads writes fuel i rest out).2 = Ok tt).
Proof.
  induction fuel as [|fuel IH]; intros i rest out Hf; [lia|]. cbn [copy_loop].
  destruct (read reads i (16 * 1024) rest) as [e|[buf rest']] eqn:E.
  - exists "", rest. split_and!; [done|by rewrite app_nil_s|done|]. intros Hr _.
    unfold read in E. destruct (reads i) as [e'|] eqn:Er; [by destruct (Hr i e')|done].
  - apply read_spec in E as [-> Hb]; [|lia].
    destruct (writes i (String.length buf)) as [e|k] eqn:Ew.
    { exists "", (buf +:+ rest'). split_and!; [done|by rewrite app_nil_s|done|]. intros _ Hw. by rewrite Hw in Ew. }
    destruct (Nat.eqb k (String.length buf)) eqn:Ek; simpl negb; cbv iota.
    + apply Nat.eqb_eq in Ek as ->. rewrite split_at_all. simpl fst.
      destruct buf as [|c buf]; simpl Nat.eqb; cbv iota.
      * exists "", rest'. split_and!; try done. by apply Hb.
      * destruct (IH (S i) rest' (out +:+ String c buf)) as (w & l & -> & H1 & H2 & H3);
          [rewrite length_app_s in Hf; simpl in Hf; lia|].
        exists (String c buf +:+ w), l. split_and!; [by rewrite app_assoc_s|by rewrite H1, app_assoc_s|done|done].
    + exists (split_at k buf).1, ((split_at k buf).2 +:+ rest'). split_and!; [|done|done|].
      * by rewrite <- app_assoc_s, split_at_app.
      * intros _ Hw. rewrite Hw in Ew. injection Ew as <-. by rewrite Nat.eqb_refl in Ek.
Qed.

Lemma attempts_step msecs : sleep_interval < msecs -> attempts msecs = S (attempts (msecs - sleep_interval)).
Proof.
  unfold attempts, sleep_interval. intros H.
  replace (msecs + 100 - 1) with ((msecs - 100 + 100 - 1) + 1 * 100) by lia. rewrite Z.div_add by lia.
  assert (1 <= (msecs - 100 + 100 - 1) / 100) by (apply Z.div_le_lower_bound; lia). lia.
Qed.

Lemma attempts_once msecs : msecs <= sleep_interval -> attempts msecs = 1%nat.
Proof.
  unfold attempts, sleep_interval. intros H. assert ((msecs + 100 - 1) / 100 < 2) by (apply Z.div_lt_upper_bound; lia). lia.
Qed.

(** The loop asks until an answer other than [WouldBlock], or as often as allowed. *)
Lemma lock_loop_spec flock : forall n i rem, n = attempts rem ->
  ((forall j, (i <= j < i + n)%nat -> flock j = WouldBlock) /\ lock_loop flock n i rem = (Ok false, (i + n)%nat)) \/
  (exists j, (i <= j < i + n)%nat /\ (forall k, (i <= k < j)%nat -> flock k = WouldBlock) /\
     match flock j with
     | Locked => lock_loop flock n i rem = (Ok true, S j)
     | FlockError e => exists x, lock_loop flock n i rem = (Throw x, S j) /\ is_std x = true
     | WouldBlock => False
     end).
Proof.
  induction n as [|n IH]; intros i rem Hn; [unfold attempts in Hn; lia|]. cbn [lock_loop].
  destruct (flock i) as [| |e] eqn:Ef.
  - right. exists i. rewrite Ef. split_and!; [lia|lia|intros; lia|done].
  - destruct (Z.ltb_spec 0 (rem - sleep_interval)) as [Hr|Hr].
    + rewrite attempts_step in Hn by lia. injection Hn as Hn.
      destruct (IH (S i) (rem - sleep_interval) Hn) as [[Hall Hl]|(j & Hj & Hbefore & Hcase)].
      * left. split; [|rewrite Hl; f_equal; lia]. intros j Hj. destruct (decide (j = i)) as [-> |]; [done|apply Hall; lia].
      * right. exists j. split_and!; [lia|lia| |done]. intros k Hk. destruct (decide (k = i)) as [-> |]; [done|apply Hbefore; lia].
    + rewrite attempts_once in Hn by lia. injection Hn as ->. left. split; [|f_equal; lia].
      intros j Hj. assert (j = i) as -> by lia. done.
  - right. exists i. rewrite Ef. split_and!; [lia|lia|intros; lia|by eexists].
Qed.

(** Unlike [write_file(filename, ..)] the copy to a path is not atomic: after a
    failure the file holds the beginning of the input, and what it held before is
    gone. *)
Lemma write_file_from_prefix err opened reads writes path file fs :
  let '(fs', r) := write_file_from err opened reads writes path file fs in
  (forall f, f <> path -> fs' !! f = fs !! f) /\
  match r with
  | Ok _ => opened = None /\ fs' !! path = Some file
  | Throw _ => fs' = fs \/ exists written left, file = written +:+ left /\ fs' !! path = Some written
  | Crash _ => False
  end.
Proof.
  unfold write_file_from. destruct opened as [e|]; [split; [done|by left]|].
  destruct (copy_loop_spec reads writes err (S (String.length file)) 0 file "" ltac:(lia)) as (w & l & Hf & H1 & H2 & _).
  fold (copy_fd err reads writes file) in H1, H2. destruct (copy_fd err reads writes file) as [out r]. simpl in H1, H2. subst out.
  split; [intros f Hne; by rewrite lookup_insert_ne|]. rewrite lookup_insert_eq. destruct r as [u|x|c]; [|right; by exists w, l|done].
  split; [done|]. by rewrite Hf, H2, app_nil_s.
Qed.

(** ** Properties *)

(** [read_file()] returns the whole file however the system splits the reads,
    and copying one descriptor to another terminates with everything that was
    read written in order: what reached the output is always the beginning of the
    input, all of it when the call returns normally, and it does unless a system
    call failed or a write was short. *)
Theorem file_io_exact err reads writes filename file :
  ((forall i e, reads i <> inl e) -> read_file err reads filename (fun _ => inr file) = Ok file) /\
  (exists written left, file = written +:+ left /\ (copy_fd err reads writes file).1 = written /\
     match (copy_fd err reads writes file).2 with Ok _ => left = "" | Throw _ => True | Crash _ => False end /\
     ((forall i e, reads i <> inl e) -> (forall i n, writes i n = inr n) ->
      (copy_fd err reads writes file).2 = Ok tt)).
Proof.
  split; [intros Hok; by apply (read_loop_all reads err filename Hok); lia|].
  by apply (copy_loop_spec reads writes err); lia.
Qed.

(** [write_file()] is atomic: whatever fails, the file holds afterwards either
    what it held before or the whole new contents, the latter exactly when the
    call returns normally; no other file changes but the temporary one. *)
Theorem write_file_atomic err mkstemp written renamed dir filename buf fs fs' r :
  (forall tmp, mkstemp = inr tmp -> fs !! tmp = None /\ tmp <> filename) ->
  write_file err mkstemp written renamed dir filename buf fs = (fs', r) ->
  fs' !! filename = (if is_ok r then Some buf else fs !! filename) /\
  (is_ok r = true <-> exists tmp, mkstemp = inr tmp /\ written (String.length buf) = inr (String.length buf) /\ renamed = None) /\
  (forall f, f <> filename -> mkstemp <> inr f -> fs' !! f = fs !! f) /\
  (is_ok r = true -> forall tmp, mkstemp = inr tmp -> fs' !! tmp = None).
Proof.
  intros Htmp Hw. unfold write_file in Hw. destruct mkstemp as [e|tmp].
  { injection Hw as <- <-. split_and!; try done. split; [done|]. by intros (? & ? & _). }
  destruct (Htmp tmp eq_refl) as [Hfresh Hne].
  destruct (written (String.length buf)) as [e|k] eqn:Ewr.
  { injection Hw as <- <-. rewrite lookup_insert_ne by done. split_and!; try done.
    - split; [done|]. by intros (? & _ & ? & _).
    - intros f Hf Hft. by rewrite lookup_insert_ne by congruence. }
  rewrite insert_insert_eq in Hw. destruct (Nat.eqb k (String.length buf)) eqn:Ek; simpl in Hw.
  - apply Nat.eqb_eq in Ek as ->. rewrite split_at_all in Hw. simpl in Hw. destruct renamed as [e|]; injection Hw as <- <-; simpl.
    + rewrite delete_insert_eq, lookup_delete_ne by done. split_and!; try done.
      * split; [done|]. by intros (? & _ & _ & ?).
      * intros f Hf Hft. rewrite lookup_delete_ne by congruence. done.
    + rewrite lookup_insert_eq, delete_insert_eq. split_and!; try done.
      * split; [intros _; eauto|done].
      * intros f Hf Hft. by rewrite lookup_insert_ne, lookup_delete_ne by congruence.
      * intros _ t [= <-]. rewrite lookup_insert_ne by done. apply lookup_delete_eq.
  - injection Hw as <- <-. simpl. rewrite lookup_insert_ne by done. split_and!; try done.
    + split; [done|]. intros (? & _ & [= ->] & _). by rewrite Nat.eqb_refl in Ek.
    + intros f Hf Hft. by rewrite lookup_insert_ne by congruence.
Qed.

(** [lock(msecs)] always returns: it asks for the lock at most
    [max 1 (ceil (msecs / 100))] times, once every 100 milliseconds from the
    start, and stops at the first answer other than "would block"; it returns
    true, with the lock noted as held, exactly when that answer grants the lock,
    and false when every attempt was refused - also when the lock becomes free in
    the last 100 milliseconds. *)
Theorem lock_attempts flock msecs l l' r n :
  locked_ l = false -> lock flock msecs l = (l', r, n) ->
  (1 <= n <= attempts msecs)%nat /\
  (forall i, (S i < n)%nat -> flock i = WouldBlock) /\
  match flock (pred n) with
  | Locked => r = Ok true /\ l' = mkLock (path_ l) true
  | WouldBlock => r = Ok false /\ l' = mkLock (path_ l) false /\ n = attempts msecs
  | FlockError _ => (exists x, r = Throw x /\ is_std x = true) /\ l' = l
  end.
Proof.
  intros Hl Hlock. unfold lock in Hlock. rewrite Hl in Hlock.
  assert (Hpos : (1 <= attempts msecs)%nat) by (unfold attempts; lia).
  destruct (lock_loop_spec flock (attempts msecs) 0 msecs eq_refl) as [[Hall E]|(j & Hj & Hbefore & Hcase)].
  - rewrite E in Hlock. injection Hlock as <- <- <-. simpl. split; [lia|]. split; [intros i Hi; apply Hall; lia|].
    rewrite Hall by lia. done.
  - assert (Hn : n = S j /\ match flock j with
        | Locked => r = Ok true /\ l' = mkLock (path_ l) true
        | FlockError _ => (exists x, r = Throw x /\ is_std x = true) /\ l' = l
        | WouldBlock => False end).
    { destruct (flock j) as [| |e]; [|done|].
      - rewrite Hcase in Hlock. by injection Hlock as <- <- <-.
      - destruct Hcase as (x & E & Hx). rewrite E in Hlock. injection Hlock as <- <- <-. eauto. }
    destruct Hn as [-> Hr]. split; [lia|]. split; [intros i Hi; apply Hbefore; lia|]. simpl.
    by destruct (flock j).
Qed.

(** ** Witnesses *)

Lemma write_file_atomic_witness :
  (write_file to_string (inr "/d/thumbnailer.a") (fun n => inr n) None "/d" "/d/f" "new" {["/d/f" := "old"]}).1 !! "/d/f" = Some "new".
Proof.
  destruct (write_file to_string (inr "/d/thumbnailer.a") (fun n => inr n) None "/d" "/d/f" "new" {["/d/f" := "old"]})
    as [fs r] eqn:E.
  pose proof E as E'. vm_compute in E'. injection E' as Ef Er.
  destruct (write_file_atomic to_string (inr "/d/thumbnailer.a") (fun n => inr n) None "/d" "/d/f" "new" {["/d/f" := "old"]} fs r)
    as [H _]; [intros tmp [= <-]; by split; vm_compute|exact E|]. simpl. rewrite H. by rewrite <- Er.
Defined.

Definition busy_once (i : nat) : flock_result := if decide (i = 0%nat) then WouldBlock else Locked.

Lemma lock_attempts_witness :
  (lock busy_once 250 (mkLock "f" false)).2 = 2%nat /\
  (lock busy_once 250 (mkLock "f" false)).1.1 = mkLock "f" true.
Proof.
  destruct (lock_attempts busy_once 250 (mkLock "f" false) (mkLock "f" true) (Ok true) 2) as (_ & _ & H);
    [reflexivity|vm_compute; reflexivity|]. destruct H as [_ H]. split; vm_compute; reflexivity.
Defined.

End Files.
