(* ===== verification/LocalArt.v ===== *)
(** * Embedded album art (src/local_album_art.cpp)

    Which of the pictures of a music file is used.  TagLib, which reads the
    files, is a parameter: what kind of file it finds and which pictures the
    file's tag holds.  [taglib_1_9] is the macro of the same name. *)

From S2P Require Import Prelude.

Module LocalArt.

(** The types of pictures the code distinguishes. *)
Inductive picture_type : Type := FrontCover | Other | AnotherType.

#[export] Instance picture_type_eq_dec : EqDecision picture_type.
Proof. solve_decision. Defined.

Record picture : Type := mkPicture { ptype : picture_type; pdata : string }.

(** What TagLib finds behind a [FileRef], by the dynamic type of its file. *)
Inductive taglib_file : Type :=
  | MpegFile (apic : option (list picture))          (* the APIC frames of the ID3v2 tag *)
  | OggFile (comment : option xiph_comment)
  | FlacFile (pictures : list picture)
  | Mp4File (covr : option (option (list string)))   (* the covers of the "covr" item of the tag *)
  | UnknownFile
with xiph_comment : Type :=
  | XiphComment (metadata_block_picture coverart : option (list string)) (pictures : list picture).

Class TagLib : Type := {
  file_ref : string -> option taglib_file;   (* None: isNull() *)
  from_base64 : string -> string;            (* QByteArray::fromBase64 *)
  flac_picture : string -> picture           (* TagLib::FLAC::Picture(bytes) *)
}.

Section Defs.
Context {tl : TagLib} (taglib_1_9 : bool).

(** [MpegExtractor::get_album_art]: [art] is the result so far; [byte_vector] holds
    the same bytes. *)
Fixpoint mpeg_loop (picture_frames : list picture) (art : string) : string :=
  match picture_frames with
  | [] => art
  | frame :: frames =>
      match ptype frame with
      | FrontCover => pdata frame
      | Other => mpeg_loop frames (if String.eqb art "" then pdata frame else art)
      | AnotherType => mpeg_loop frames art
      end
  end.

Definition mpeg_album_art (tag : option (list picture)) : string :=
  match tag with Some frames => mpeg_loop frames "" | None => "" end.

(** [extract_flac_art]: whether the front cover was found, and the art so far. *)
Definition extract_flac_art (pic : picture) (art : string) : bool * string :=
  match ptype pic with
  | FrontCover => (true, pdata pic)
  | Other => (false, if String.eqb art "" then pdata pic else art)
  | AnotherType => (false, art)
  end.

Fixpoint flac_loop (pics : list picture) (art : string) : string :=
  match pics with
  | [] => art
  | pic :: pics =>
      let '(found, art) := extract_flac_art pic art in
      if found then art else flac_loop pics art
  end.

Definition decode_b64 (base_64 : string) : string := from_base64 base_64.
Definition to_picture (base_64 : string) : picture := flac_picture (decode_b64 base_64).

(** [OggExtractor::get_album_art]. *)
Definition ogg_album_art (comment : option xiph_comment) : string :=
  match comment with
  | None => ""
  | Some (XiphComment metadata_block_picture coverart pictures) =>
      if taglib_1_9 then
        let art := match metadata_block_picture with
                   | Some l => flac_loop (to_picture <$> l) ""
                   | None => ""
                   end in
        match coverart with
        | Some (first :: _) => if String.eqb art "" then decode_b64 first else art
        | _ => art
        end
      else flac_loop pictures ""
  end.

(** [MP4Extractor::get_album_art]. *)
Definition mp4_album_art (covr : option (option (list string))) : string :=
  match covr with
  | Some (Some (img :: _)) => img
  | _ => ""
  end.

(** [make_extractor] and the extractor's [get_album_art]. *)
Definition get_album_art (filename : string) (f : taglib_file) : outcome string :=
  match f with
  | MpegFile apic => Ok (mpeg_album_art apic)
  | OggFile comment => Ok (ogg_album_art comment)
  | FlacFile pictures => Ok (flac_loop pictures "")
  | Mp4File covr => Ok (mp4_album_art covr)
  | UnknownFile => Throw (runtime_error (filename +:+ ": unknown container format"))
  end.

Definition extract_local_album_art (filename : string) : outcome string :=
  match file_ref filename with
  | None => Throw (runtime_error (filename +:+ ": cannot create TagLib::FileRef"))
  | Some f => get_album_art filename f
  end.

(** ** Specification *)

(** The first picture of a type that satisfies [ok]. *)
Definition first_of (t : picture_type) (ok : string -> bool) (l : list picture) : option string :=
  pdata <$> head (filter (fun p => ptype p = t /\ ok (pdata p) = true) l).

(** The front cover wherever it is; without one, the first "other" picture that
    is not empty. *)
Definition best_picture (l : list picture) : string :=
  match first_of FrontCover (fun _ => true) l with
  | Some d => d
  | None => default "" (first_of Other (fun d => negb (String.eqb d "")) l)
  end.

(** The pictures of a file that holds typed ones. *)
Definition typed_pictures (f : taglib_file) : option (list picture) :=
  match f with
  | MpegFile apic => Some (default [] apic)
  | FlacFile l => Some l
  | OggFile (Some (XiphComment mbp None pics)) =>
      Some (if taglib_1_9 then to_picture <$> default [] mbp else pics)
  | OggFile None => Some []
  | _ => None
  end.

(** ** Lemmas *)

Lemma first_of_cons t ok p l :
  first_of t ok (p :: l) = if decide (ptype p = t /\ ok (pdata p) = true) then Some (pdata p) else first_of t ok l.
Proof.
  unfold first_of. destruct (decide _) as [H|H]; [by rewrite filter_cons_True|by rewrite filter_cons_False].
Qed.

Lemma flac_loop_mpeg l art : flac_loop l art = mpeg_loop l art.
Proof.
  revert art. induction l as [|p l IH]; intros art; [done|]. simpl. unfold extract_flac_art.
  by destruct (ptype p); simpl.
Qed.

Lemma mpeg_loop_spec l art :
  mpeg_loop l art = default (if String.eqb art "" then default "" (first_of Other (fun d => negb (String.eqb d "")) l) else art)
                      (first_of FrontCover (fun _ => true) l).
Proof.
  revert art. induction l as [|[t d] l IH]; intros art; [by destruct art|].
  rewrite !first_of_cons. cbn [mpeg_loop ptype pdata]. destruct t.
  - by rewrite (decide_True (P := FrontCover = FrontCover /\ true = true)).
  - rewrite (decide_False (P := Other = FrontCover /\ true = true)) by naive_solver. rewrite IH.
    destruct (first_of FrontCover _ l); [done|]. cbn [default]. destruct (String.eqb art "") eqn:Ea; [|by rewrite Ea].
    destruct d as [|c d]; [by rewrite decide_False by naive_solver|by rewrite decide_True].
  - rewrite !decide_False by naive_solver. apply IH.
Qed.

Lemma mpeg_loop_best l : mpeg_loop l "" = best_picture l.
Proof. rewrite mpeg_loop_spec. unfold best_picture. by destruct (first_of FrontCover _ l). Qed.

(** ** Properties *)

(** The picture used for a music file whose pictures are typed is the front
    cover wherever it is in the file, and without one the first non-empty
    "other" picture, or nothing: the three extractors, which scan the pictures
    differently, agree. *)
Theorem album_art_selection filename f l :
  typed_pictures f = Some l -> get_album_art filename f = Ok (best_picture l).
Proof.
  intros Hl. destruct f as [apic|[[mbp cov pics]|]|pics|covr|]; try done; simpl in *.
  - injection Hl as <-. destruct apic as [l'|]; [|done]. simpl. by rewrite mpeg_loop_best.
  - destruct cov as [|]; [done|]. injection Hl as <-. unfold ogg_album_art. f_equal. destruct taglib_1_9.
    + destruct mbp as [l'|]; [|done]. by rewrite flac_loop_mpeg, mpeg_loop_best.
    + by rewrite flac_loop_mpeg, mpeg_loop_best.
  - by injection Hl as <-.
  - injection Hl as <-. by rewrite flac_loop_mpeg, mpeg_loop_best.
Qed.
End Defs.

(** ** Witness *)

#[local] Instance plain_taglib : TagLib := {
  file_ref _ := None;
  from_base64 s := s;
  flac_picture s := mkPicture Other s
}.

Lemma album_art_selection_witness :
  get_album_art false "f.mp3" (MpegFile (Some [mkPicture Other ""; mkPicture Other "o"; mkPicture FrontCover "front"])) = Ok "front".
Proof.
  apply (album_art_selection false "f.mp3" (MpegFile (Some [mkPicture Other ""; mkPicture Other "o"; mkPicture FrontCover "front"]))
    [mkPicture Other ""; mkPicture Other "o"; mkPicture FrontCover "front"]). reflexivity.
Defined.

End LocalArt.
