(* ===== verification/Threads.v ===== *)
(** * Threads that share a state

    A computation as the tree of its accesses to a shared state: at each node one
    access, and for each answer the rest of the computation.  Several of them run
    in a pool, one access at a time, in any order; a computation that runs alone
    is a computation of the monad [M].  Concurrent.v uses this for the thread pools
    of the service, CacheRace.v for the recovery of a cache. *)

From S2P Require Import Prelude.

Module Threads.

Section Trees.
(** The accesses, and what they do at a time. *)
Context {E : Type -> Type} {S : Type}.

Inductive tree (R : Type) : Type :=
  | Ret (r : R)
  | Vis {X : Type} (e : E X) (k : outcome X -> tree R).
#[global] Arguments Ret {R} r.
#[global] Arguments Vis {R X} e k.

Fixpoint graft {A B} (f : A -> tree B) (m : tree A) : tree B :=
  match m with
  | Ret a => f a
  | Vis e k => Vis e (fun o => graft f (k o))
  end.

(** Computations with a state [L] of their own. *)
Definition T (L A : Type) : Type := L -> tree (L * outcome A).

Definition after {L A B} (f : A -> T L B) (x : L * outcome A) : tree (L * outcome B) :=
  match x with
  | (l, Ok a) => f a l
  | (l, Throw e) => Ret (l, Throw e)
  | (l, Crash c) => Ret (l, Crash c)
  end.

#[export] Instance T_ret L : MRet (T L) := fun A a l => Ret (l, Ok a).
#[export] Instance T_bind L : MBind (T L) := fun A B f m l => graft (after f) (m l).

(** One access; a step on the state of its own; an outcome. *)
Definition access {L X} (e : E X) : T L X := fun l => Vis e (fun o => Ret (l, o)).
Definition private {L A} (m : M L A) : T L A := fun l => Ret (m l).
Definition get_own {L} : T L L := fun l => Ret (l, Ok l).
Definition from {L A} (o : outcome A) : T L A := fun l => Ret (l, o).

Definition rescue {L A} (m : T L A) (h : exn -> T L A) : T L A := fun l =>
  graft (fun x => match x with (l', Throw e) => h e l' | x => Ret x end) (m l).

(** ** Running alone *)

Context (perform : forall X, E X -> Z -> S -> S * outcome X).
#[local] Arguments perform {X}.

Fixpoint run {R} (now : Z) (m : tree R) (s : S) : S * R :=
  match m with
  | Ret r => (s, r)
  | Vis e k => let '(s', o) := perform e now s in run now (k o) s'
  end.

Lemma run_graft {A B} (f : A -> tree B) now m : forall s,
  run now (graft f m) s = let '(s', a) := run now m s in run now (f a) s'.
Proof.
  induction m as [a|X e k IH]; intros s; simpl; [done|]. destruct (perform e now s) as [s' o]. apply IH.
Qed.

Lemma run_bind {L A B} (m : T L A) (f : A -> T L B) now l s :
  run now ((m ≫= f) l) s = let '(s', x) := run now (m l) s in run now (after f x) s'.
Proof. unfold mbind, T_bind. apply run_graft. Qed.

Lemma run_assoc {L A B D} (m : T L A) (f : A -> T L B) (g : B -> T L D) now l s :
  run now ((m ≫= fun a => f a ≫= g) l) s = run now (((m ≫= f) ≫= g) l) s.
Proof.
  rewrite !run_bind. destruct (run now (m l) s) as [s' [l' [a|e|c]]]; simpl; [|done..].
  rewrite <- run_bind. done.
Qed.

(** One access, if there is one to make. *)
Definition next {R} (now : Z) (m : tree R) (s : S) : option (S * tree R) :=
  match m with
  | Ret _ => None
  | Vis e k => let '(s', o) := perform e now s in Some (s', k o)
  end.

(** ** Pools *)

Section Pool.
Context {R : Type}.

(** One thread makes one access. *)
Inductive pool_step : S * gmap nat (tree R) -> S * gmap nat (tree R) -> Prop :=
  | pool_access s p i X (e : E X) k now :
      p !! i = Some (Vis e k) ->
      pool_step (s, p) ((perform e now s).1, <[i := k (perform e now s).2]> p).

(** At most [n] accesses are left. *)
Fixpoint within (n : nat) (m : tree R) {struct m} : Prop :=
  match m with
  | Ret _ => True
  | Vis e k => match n with O => False | Datatypes.S n => forall o, within n (k o) end
  end.

Lemma within_weaken m : forall n n', (n <= n')%nat -> within n m -> within n' m.
Proof.
  induction m as [r|X e k IH]; intros n n' Hn; [done|]. destruct n as [|n]; [done|]. destruct n' as [|n']; [lia|].
  simpl. intros H o. eapply IH; [|apply H]. lia.
Qed.

(** The bounds of the threads. *)
Definition bounded (b : gmap nat nat) (p : gmap nat (tree R)) : Prop :=
  forall i m, p !! i = Some m -> exists n, b !! i = Some n /\ within n m.

Definition total (b : gmap nat nat) : Z := map_sum Z.of_nat b.

Lemma pool_step_bounded b s p s' p' : bounded b p -> pool_step (s, p) (s', p') ->
  exists b', bounded b' p' /\ total b' = total b - 1.
Proof.
  intros Hb Hs. inversion Hs as [s0 p0 i X e k now Hi]; subst.
  destruct (Hb i _ Hi) as ([|n] & Hn & Hw); [done|]. exists (<[i := n]> b). split.
  - intros j m. destruct (decide (j = i)) as [->|Hne].
    + rewrite !lookup_insert_eq. intros [= <-]. exists n. split; [done|]. apply Hw.
    + rewrite !lookup_insert_ne by done. apply Hb.
  - unfold total. rewrite (map_sum_update _ _ _ _ _ Hn). lia.
Qed.

(** Every run is finite, whoever runs when. *)
Lemma pool_run_bounded n : forall b s p s' p', bounded b p -> nsteps pool_step n (s, p) (s', p') -> Z.of_nat n <= total b.
Proof.
  induction n as [|n IH]; intros b s p s' p' Hb Hr.
  - apply map_sum_nonneg. lia.
  - inversion Hr as [|n' x [s1 p1] y Hs Hr']; subst. destruct (pool_step_bounded _ _ _ _ _ Hb Hs) as (b' & Hb' & Ht).
    specialize (IH _ _ _ _ _ Hb' Hr'). lia.
Qed.

Definition finished (p : gmap nat (tree R)) : Prop := forall i m, p !! i = Some m -> exists r, m = Ret r.

Lemma finished_or_not (p : gmap nat (tree R)) :
  finished p \/ exists i X (e : E X) k, p !! i = Some (Vis e k).
Proof.
  induction p as [|i m p Hi IH] using map_ind; [by left; intros i m|].
  destruct m as [r|X e k].
  - destruct IH as [IH|(j & X & e & k & Hj)]; [left|right].
    + intros j m [[<- <-]|[_ Hj]]%lookup_insert_Some; eauto.
    + exists j, X, e, k. rewrite lookup_insert_ne; [done|]. intros ->. by rewrite Hi in Hj.
  - right. exists i, X, e, k. apply lookup_insert_eq.
Qed.

(** ... and can be continued to the end of every thread. *)
Lemma pool_run_finishes b s p : bounded b p ->
  exists s' p', rtc pool_step (s, p) (s', p') /\ finished p' /\ dom p' = dom p.
Proof.
  remember (Z.to_nat (total b)) as n eqn:Hn. revert b s p Hn. induction n as [|n IH]; intros b s p Hn Hb;
    (destruct (finished_or_not p) as [Hf|(i & X & e & k & Hi)]; [by exists s, p|]);
    pose proof (pool_access s p i X e k 0 Hi) as Hs; destruct (pool_step_bounded _ _ _ _ _ Hb Hs) as (b' & Hb' & Ht).
  - pose proof (map_sum_nonneg Z.of_nat b' ltac:(lia)) as Hpos. fold (total b') in Hpos. lia.
  - destruct (IH b' (perform e 0 s).1 _ ltac:(lia) Hb') as (s' & p' & Hr & Hf & Hd). exists s', p'. split; [by eapply rtc_l|]. split; [done|].
    rewrite Hd, dom_insert_L. apply elem_of_dom_2 in Hi. set_solver.
Qed.
End Pool.

Lemma within_graft {A B} (f : A -> tree B) n' m : forall n,
  within n m -> (forall a, within n' (f a)) -> within (n + n') (graft f m).
Proof.
  induction m as [a|X e k IH]; intros n Hw Hf; simpl.
  - eapply within_weaken; [|apply Hf]. lia.
  - destruct n as [|n]; [done|]. simpl in *. intros o. by apply IH.
Qed.

(** ** Reasoning about one thread in any company *)

(** An access with its answer. *)
Inductive accessed : Type := | Accessed {X : Type} (e : E X) (o : outcome X).

(** [allowed]: what the thread may access; [answers]: what it can be told, whatever
    others do; [raises]: what it may throw.  The postcondition sees the last access. *)
Section Good.
Context (allowed : forall X, E X -> Prop) (answers : forall X, E X -> outcome X -> Prop) (raises : exn -> Prop).

Fixpoint good {R} (Q : option accessed -> R -> Prop) (last : option accessed) (m : tree R) : Prop :=
  match m with
  | Ret r => Q last r
  | Vis e k => allowed _ e /\ forall o, answers _ e o -> good Q (Some (Accessed e o)) (k o)
  end.

Lemma good_mono {R} (Q Q' : option accessed -> R -> Prop) m : forall last,
  (forall a r, Q a r -> Q' a r) -> good Q last m -> good Q' last m.
Proof. induction m as [r|X e k IH]; simpl; [auto|]. intros last HQ [Ha Hk]. split; [done|]. intros o Ho. apply IH; auto. Qed.

Lemma good_graft {A B} (f : A -> tree B) (Q : option accessed -> B -> Prop) m : forall last,
  good (fun last a => good Q last (f a)) last m -> good Q last (graft f m).
Proof. induction m as [a|X e k IH]; simpl; [done|]. intros last [Ha Hk]. split; auto. Qed.

(** A computation with a state of its own that does not crash. *)
Definition fine {L A} (Q : option accessed -> L -> A -> Prop) (last : option accessed) (x : L * outcome A) : Prop :=
  match x.2 with Ok a => Q last x.1 a | Throw e => raises e | Crash _ => False end.

(** [safe Q m last l]: the specification of a computation. *)
Definition safe {L A} (Q : option accessed -> L -> A -> Prop) (m : T L A) (last : option accessed) (l : L) : Prop :=
  good (fine Q) last (m l).

Lemma safe_bind {L A B} (m : T L A) (f : A -> T L B) Q last l :
  safe (fun last l' a => safe Q (f a) last l') m last l -> safe Q (m ≫= f) last l.
Proof.
  intros H. unfold safe, mbind, T_bind. apply good_graft. eapply good_mono; [|exact H].
  intros a [l' [x|e|c]]; unfold fine; simpl; [done..].
Qed.

Lemma safe_mono {L A} (Q Q' : option accessed -> L -> A -> Prop) (m : T L A) last l :
  (forall a l' x, Q a l' x -> Q' a l' x) -> safe Q m last l -> safe Q' m last l.
Proof. intros HQ. apply good_mono. intros a [l' [x|e|c]]; unfold fine; simpl; auto. Qed.

Lemma safe_ret {L A} (a : A) Q last (l : L) : Q last l a -> safe Q (mret a) last l.
Proof. done. Qed.

Lemma safe_own {L A} (f : L -> T L A) Q last l : safe Q (f l) last l -> safe Q (get_own ≫= f) last l.
Proof. intros H. by apply safe_bind. Qed.

Lemma safe_from {L A} (o : outcome A) Q last (l : L) :
  match o with Ok a => Q last l a | Throw e => raises e | Crash _ => False end -> safe Q (from o) last l.
Proof. done. Qed.

Lemma safe_private {L A} (m : M L A) Q last (l : L) : wpx raises m (Q last) l -> safe Q (private m) last l.
Proof. unfold safe, private, wpx, fine. simpl. by destruct (m l) as [l' [a|e|c]]. Qed.

Lemma safe_access {L X} (e : E X) Q last (l : L) : allowed _ e ->
  (forall o, answers _ e o -> fine Q (Some (Accessed e o)) (l, o)) -> safe Q (access e) last l.
Proof. by split. Qed.

(** A pool of threads with a specification keeps an invariant that the accesses keep. *)
Lemma pool_sound {R} (I : S -> Prop) (Q : option accessed -> R -> Prop) :
  (forall X (e : E X) now s, allowed X e -> I s -> I (perform e now s).1 /\ answers X e (perform e now s).2) ->
  forall x y, rtc pool_step x y -> I x.1 -> (forall i m, x.2 !! i = Some m -> exists last, good Q last m) ->
    I y.1 /\ forall i m, y.2 !! i = Some m -> exists last, good Q last m.
Proof.
  intros Hp x y Hr. induction Hr as [x|x y z Hs _ IH]; [done|]. intros HI Hg.
  apply IH; destruct Hs as [s p i X e k now Hi]; simpl in *; destruct (Hg i _ Hi) as (last & Ha & Hk);
    destruct (Hp X e now s Ha HI) as [HI' Ho]; [done|].
  intros j m [[<- <-]|[_ Hj]]%lookup_insert_Some; eauto.
Qed.
End Good.
End Trees.

Arguments tree : clear implicits.
Arguments T : clear implicits.
End Threads.
