(* ===== verification/CacheRace.v ===== *)
(** * The recovery of a cache among threads (include/internal/cachehelper.h)

    The threads of the service share three [CacheHelper]s.  The library locks a
    cache object, the helper does not lock its pointer [c_] to it: here the calls
    of the helper are the sequences of their accesses to [c_], to the cache objects
    and to the directory.  Alone they are those of CacheHelper.v; but two that find
    the database corrupt recover it at the same time. *)

From S2P Require Import Prelude CxxLib CacheInterface CacheHelper Threads.
Import Cxx CacheInterface CacheHelper Threads.

Module CacheRace.

Section Defs.
Context {W H : Type} {lib : CacheLib W H}.

(** The memory of a helper: [c_] holds the number of a cache object. *)
Record World : Type := mkWorld {
  ptr : option nat;
  objects : gmap nat H;
  next_object : nat;
  disk : W
}.

Definition set_ptr (p : option nat) (w : World) : World := mkWorld p (objects w) (next_object w) (disk w).
Definition set_disk (d : W) (w : World) : World := mkWorld (ptr w) (objects w) (next_object w) d.

Inductive access_to : Type -> Type :=
  | LoadPtr : access_to (option nat)
  | StorePtr (p : option nat) : access_to unit
  | CallObject {A : Type} (i : nat) (f : Z -> H -> M W A) : access_to A
  | DeleteObject (i : nat) : access_to unit
  | OpenCache (f : W -> W * outcome H) : access_to nat
  | RemoveAll : access_to unit.

Definition perform (X : Type) (e : access_to X) (now : Z) : World -> World * outcome X :=
  match e in access_to Y return World -> World * outcome Y with
  | LoadPtr => fun w => (w, Ok (ptr w))
  | StorePtr p => fun w => (set_ptr p w, Ok tt)
  | CallObject i f => fun w =>
      match objects w !! i with
      | Some h => let '(d, o) := f now h (disk w) in (set_disk d w, o)
      | None => (w, Crash (Undefined "destroyed cache"))
      end
  | DeleteObject i => fun w =>
      match objects w !! i with
      | Some h => (mkWorld (ptr w) (delete i (objects w)) (next_object w) (lib_close h (disk w)), Ok tt)
      | None => (w, Crash (Undefined "cache deleted twice"))
      end
  | OpenCache f => fun w =>
      match f (disk w) with
      | (d, Ok h) => (mkWorld (ptr w) (<[next_object w := h]> (objects w)) (S (next_object w)) d, Ok (next_object w))
      | (d, Throw e) => (set_disk d w, Throw e)
      | (d, Crash c) => (set_disk d w, Crash c)
      end
  | RemoveAll => fun w => let '(d, o) := remove_all (disk w) in (set_disk d w, o)
  end.

Notation Th := (T access_to unit).

(** [c_->...]. *)
Definition deref {A} (f : Z -> H -> M W A) : Th A :=
  p ← access LoadPtr;
  match p with
  | None => from (Crash (Undefined "null c_"))
  | Some i => access (CallObject i f)
  end.

(** [c_.reset()] and the move assignment: read the old pointer, write the new one,
    delete what the old one points to. *)
Definition set_c (p : option nat) : Th unit :=
  old ← access LoadPtr;
  _ ← access (StorePtr p);
  match old with
  | Some i => access (DeleteObject i)
  | None => mret tt
  end.

Context (size : Z) (policy : CacheDiscardPolicy).

Definition init_cache : Th unit :=
  rescue (i ← access (OpenCache (lib_open size policy)); set_c (Some i))
    (fun e => if is_logic_error e then
                i ← access (OpenCache lib_open_existing);
                _ ← set_c (Some i);
                deref (fun _ h => lib_resize h size)
              else from (Throw e)).

Definition recover (e : exn) : Th unit :=
  match e with
  | system_error code _ =>
      if negb (code =? 666) then from (Throw e)
      else
        _ ← set_c None;
        _ ← access RemoveAll;
        init_cache
  | _ => from (Throw e)
  end.

Definition call {A} (func : Th A) : Th A := rescue func (fun e => _ ← recover e; func).

(** The calls of the helper. *)
Inductive operation : Type :=
  | Get (key : string)
  | Put (key value : string) (expiry : Z)
  | ContainsKey (key : string)
  | Stats
  | ClearStats
  | Invalidate
  | Compact.

Inductive answer : Type :=
  | Found (value : option string)
  | Added (b : bool)
  | Contains (b : bool)
  | Statistics (st : string)
  | Done.

Definition body (o : operation) : Th answer :=
  match o with
  | Get k => v ← call (deref (fun now h => lib_get h k now)); mret (Found v)
  | Put k v x => b ← call (deref (fun now h => lib_put h k v x now)); mret (Added b)
  | ContainsKey k => b ← deref (fun now h => lib_contains_key h k now); mret (Contains b)
  | Stats => st ← deref (fun _ h => lib_stats h); mret (Statistics st)
  | ClearStats => _ ← deref (fun _ h => lib_clear_stats h); mret Done
  | Invalidate => _ ← call (deref (fun _ h => lib_invalidate h)); mret Done
  | Compact => _ ← call (deref (fun _ h => lib_compact h)); mret Done
  end.

(** What a thread runs. *)
Definition code (o : operation) : tree access_to (unit * outcome answer) := body o tt.

(** The same call of CacheHelper.v. *)
Definition atomic (o : operation) (now : Z) : M (CacheHelper.CacheHelper W H) answer :=
  match o with
  | Get k => v ← CacheHelper.get k now; mret (Found v)
  | Put k v x => b ← CacheHelper.put k v x now; mret (Added b)
  | ContainsKey k => b ← CacheHelper.contains_key k now; mret (Contains b)
  | Stats => st ← CacheHelper.stats; mret (Statistics st)
  | ClearStats => _ ← CacheHelper.clear_stats; mret Done
  | Invalidate => _ ← CacheHelper.invalidate; mret Done
  | Compact => _ ← CacheHelper.compact; mret Done
  end.

(** ** Alone *)

(** A helper and its memory: the object [c_] points to is the only one. *)
Record sim (s : CacheHelper.CacheHelper W H) (w : World) : Prop := mkSim {
  sim_size : size_ s = size;
  sim_policy : policy_ s = policy;
  sim_dir : dir s = disk w;
  sim_c : match c_ s with
          | None => ptr w = None /\ objects w = ∅
          | Some h => exists i, ptr w = Some i /\ objects w = {[i := h]} /\ (i < next_object w)%nat
          end
}.

Definition alone {A} (now : Z) (m : Th A) (n : M (CacheHelper.CacheHelper W H) A) : Prop :=
  forall s w, sim s w -> exists w', run perform now (m tt) w = (w', (tt, (n s).2)) /\ sim (n s).1 w'.

Lemma helper_bind {A B} now (m : Th A) n (f : A -> Th B) g :
  alone now m n -> (forall a, alone now (f a) (g a)) -> alone now (m ≫= f) (n ≫= g).
Proof.
  intros Hm Hf s w Hs. destruct (Hm s w Hs) as (w1 & H1 & Hs1). rewrite run_bind, H1. unfold mbind, M_bind.
  destruct (n s) as [s1 [a|e|c]]; simpl in *; [by apply Hf|eauto..].
Qed.

Lemma helper_rescue {A} now (m : Th A) n (f : exn -> Th A) g :
  alone now m n -> (forall e, alone now (f e) (g e)) -> alone now (rescue m f) (catchM n g).
Proof.
  intros Hm Hf s w Hs. destruct (Hm s w Hs) as (w1 & H1 & Hs1). unfold rescue. rewrite run_graft, H1. unfold catchM.
  destruct (n s) as [s1 [a|e|c]]; simpl in *; [eauto|by apply Hf|eauto].
Qed.

Lemma helper_lift {A} now (o : outcome A) : alone now (from o) (lift o).
Proof. intros s w Hs. by exists w. Qed.

Lemma helper_deref {A} now (f : Z -> H -> M W A) : alone now (deref f) (CacheHelper.deref (f now)).
Proof.
  intros s w [H1 H2 H3 H4]. unfold deref, CacheHelper.deref. rewrite run_bind. simpl. destruct (c_ s) as [h|] eqn:Hc.
  - destruct H4 as (i & Hp & Ho & Hi). rewrite Hp. simpl. rewrite Ho, lookup_singleton_eq. unfold on_dir. rewrite H3.
    destruct (f now h (disk w)) as [d o]. eexists. split; [done|]. split; simpl; try done. rewrite Hc. eauto.
  - destruct H4 as [Hp Ho]. rewrite Hp. simpl. eexists. split; [done|]. split; simpl; try done. by rewrite Hc.
Qed.

(** [c_ = move(open(...))]. *)
Lemma helper_install now (f : W -> W * outcome H) :
  alone now (i ← access (OpenCache f); set_c (Some i)) (h ← on_dir f; CacheHelper.set_c (Some h)).
Proof.
  intros s w [H1 H2 H3 H4]. rewrite run_bind. unfold mbind, M_bind, on_dir. simpl. rewrite H3.
  destruct (f (disk w)) as [d [h|e|c]]; simpl; [|eexists; split; [done|by split]..].
  unfold CacheHelper.set_c. simpl. destruct (c_ s) as [h0|] eqn:Hc.
  - destruct H4 as (i & Hp & Ho & Hi). rewrite Hp. simpl. rewrite Ho, lookup_insert_ne, lookup_singleton_eq by lia. simpl.
    eexists. split; [done|]. split; simpl; try done. exists (next_object w). split; [done|]. split; [|lia].
    rewrite delete_insert_ne by lia. by rewrite delete_singleton_eq.
  - destruct H4 as [Hp Ho]. rewrite Hp. simpl. eexists. split; [done|]. split; simpl; try done.
    exists (next_object w). rewrite Ho. split; [done|]. split; [done|lia].
Qed.

Lemma helper_reset now : alone now (set_c None) (CacheHelper.set_c None).
Proof.
  intros s w [H1 H2 H3 H4]. unfold set_c, CacheHelper.set_c. rewrite run_bind. simpl. destruct (c_ s) as [h|] eqn:Hc.
  - destruct H4 as (i & Hp & Ho & Hi). rewrite Hp. simpl. rewrite Ho, lookup_singleton_eq. simpl.
    eexists. split; [done|]. split; simpl; try done; [by rewrite H3|]. by rewrite delete_singleton_eq.
  - destruct H4 as [Hp Ho]. rewrite Hp. simpl. eexists. split; [done|]. by split; simpl.
Qed.

Lemma helper_remove now : alone now (access RemoveAll) (on_dir remove_all).
Proof.
  intros s w [H1 H2 H3 H4]. unfold on_dir. simpl. rewrite H3. destruct (remove_all (disk w)) as [d o].
  eexists. split; [done|]. by split.
Qed.

Lemma helper_init now : alone now init_cache CacheHelper.init_cache.
Proof.
  intros s w Hs. unfold CacheHelper.init_cache. rewrite (sim_size _ _ Hs), (sim_policy _ _ Hs). revert s w Hs.
  apply helper_rescue; [apply helper_install|]. intros e. destruct (is_logic_error e); [|apply helper_lift].
  intros s w Hs. rewrite run_assoc, M_bind_assoc. revert s w Hs.
  apply (helper_bind now _ _ (fun _ => deref (fun _ h => lib_resize h size)) (fun _ => CacheHelper.deref (fun h => lib_resize h size)));
    [apply helper_install|intros; apply (helper_deref now (fun _ h => lib_resize h size))].
Qed.

Lemma helper_recover now e : alone now (recover e) (CacheHelper.recover e).
Proof.
  destruct e; try apply helper_lift. unfold recover, CacheHelper.recover. destruct (negb _); [apply helper_lift|].
  apply helper_bind; [apply helper_reset|]. intros _. apply helper_bind; [apply helper_remove|]. intros _. apply helper_init.
Qed.

Lemma helper_call {A} now (f : Z -> H -> M W A) : alone now (call (deref f)) (CacheHelper.call (CacheHelper.deref (f now))).
Proof.
  apply helper_rescue; [apply helper_deref|]. intros e. apply helper_bind; [apply helper_recover|]. intros _. apply helper_deref.
Qed.

End Defs.

(** ** Witnesses, and what happens to a corrupt database *)

Module RaceInstance.

Notation World := (World (W := store) (H := unit)).

(** One open cache. *)
Definition opened (d : store) : World := mkWorld (Some 0%nat) {[0%nat := tt]} 1 d.
Definition damaged : store := mkStore (Some (true, {["k" := ("v", 0)]})) 1024 false.

Definition two_gets : gmap nat (tree access_to (unit * outcome answer)) :=
  code 1024 lru_only <$> {[0%nat := Get "k"; 1%nat := Get "k"]}.

(** The threads of the schedule make one access each. *)
Definition turn (x : World * gmap nat (tree (access_to (W := store) (H := unit)) (unit * outcome answer))) (j : nat) :=
  match x.2 !! j ≫= fun m => next perform 5 m x.1 with
  | Some (w, m) => (w, <[j := m]> x.2)
  | None => x
  end.

Definition ended (x : World * gmap nat (tree (access_to (W := store) (H := unit)) (unit * outcome answer))) (j : nat)
    : option (outcome answer) :=
  match x.2 !! j with
  | Some m => match next perform 5 m x.1 with None => match m with Ret v => Some v.2 | _ => None end | Some _ => None end
  | None => None
  end.

Definition after (d : store) (schedule : list nat) := foldl turn (opened d, two_gets) schedule.

Lemma turn_steps x j : rtc (pool_step perform) x (turn x j).
Proof.
  destruct x as [w p]. unfold turn. simpl. destruct (p !! j) as [[v|X e k]|] eqn:Hj; [done| |done].
  pose proof (pool_access perform w p j X e k 5 Hj) as Hs. simpl. destruct (perform X e 5 w) as [w' o]. by apply rtc_once.
Qed.

Lemma after_reachable d l : rtc (pool_step perform) (opened d, two_gets) (after d l).
Proof.
  unfold after. generalize (opened d, two_gets). induction l as [|j l IH]; intros x; [done|].
  etrans; [apply (turn_steps x j)|apply IH].
Qed.


(** The database is corrupt and two threads look up.  In turn, both get the answer
    of the recovered cache.  When the second comes while the first has set [c_] to
    null, it dereferences a null pointer; when it has read [c_] before, it calls a
    destroyed object. *)
Lemma recovery_race :
  ended (after damaged (repeat 0%nat 20 ++ repeat 1%nat 20)) 0 = Some (Ok (Found None)) /\
  ended (after damaged (repeat 0%nat 20 ++ repeat 1%nat 20)) 1 = Some (Ok (Found None)) /\
  ended (after damaged (repeat 0%nat 4 ++ [1%nat])) 1 = Some (Crash (Undefined "null c_")) /\
  ended (after damaged ([1%nat] ++ repeat 0%nat 5 ++ [1%nat])) 1 = Some (Crash (Undefined "destroyed cache")).
Proof. vm_compute. repeat split; reflexivity. Qed.
End RaceInstance.
End CacheRace.
