(* ===== verification/Keys.v ===== *)
(** * Cache keys (src/thumbnailer.cpp)

    The keys under which requests store their results: the NUL-separated
    concatenations built by the request constructors, the sized key of
    [RequestBase::thumbnail()], and the two reserved keys of the failure cache. *)

From S2P Require Import Prelude CxxLib.
Import Cxx.

Module Keys.

(** The fields of [struct stat] the key of a local file is built from. *)
Record file_stat : Type := mkStat {
  st_ino : Z;
  st_mtim_sec : Z; st_mtim_nsec : Z;
  st_ctim_sec : Z; st_ctim_nsec : Z
}.

(** The key computed by [LocalThumbnailRequest::LocalThumbnailRequest]. *)
Definition local_key (filename : string) (st : file_stat) : string :=
  let key := filename in
  let key := key +:+ nul in
  let key := key +:+ to_string (st_ino st) in
  let key := key +:+ nul in
  let key := key +:+ ((to_string (st_mtim_sec st) +:+ ".") +:+ to_string (st_mtim_nsec st)) in
  let key := key +:+ nul in
  key +:+ ((to_string (st_ctim_sec st) +:+ ".") +:+ to_string (st_ctim_nsec st)).

(** The keys passed to [RequestBase] by [AlbumRequest] and [ArtistRequest]. *)
Definition album_key (artist album : string) : string :=
  (((artist +:+ nul) +:+ album) +:+ nul) +:+ "album".
Definition artist_key (artist album : string) : string :=
  (((artist +:+ nul) +:+ album) +:+ nul) +:+ "artist".

(** [sized_key] of [RequestBase::thumbnail]. *)
Definition sized_key (key : string) (w h : Z) : string :=
  (((key +:+ nul) +:+ to_string w) +:+ nul) +:+ to_string h.

Definition LAST_NETWORK_FAIL_TIME_KEY : string := "/*** LAST_NETWORK_FAIL_TIME ***/".
Definition BACKOFF_PERIOD_KEY : string := "/*** BACKOFF_PERIOD ***/".

(** [RequestBase::printable_key]: every NUL replaced by a backslash and a 0. *)
Fixpoint printable_key (key : string) : string :=
  match key with
  | EmptyString => EmptyString
  | String c s => if Ascii.eqb c NUL then "\0" +:+ printable_key s
                  else String c (printable_key s)
  end.

(** What a request asks for.  File names come from the file system and artist
    and album names from a D-Bus message: neither can contain a NUL. *)
Inductive subject : Type :=
  | LocalFile (filename : string) (st : file_stat)
  | AlbumArt (artist album : string)
  | ArtistArt (artist album : string).

Definition key_of (s : subject) : string :=
  match s with
  | LocalFile f st => local_key f st
  | AlbumArt a b => album_key a b
  | ArtistArt a b => artist_key a b
  end.

Definition subject_ok (s : subject) : Prop :=
  match s with
  | LocalFile f st => nul_free f
  | AlbumArt a b | ArtistArt a b => nul_free a /\ nul_free b
  end.

(** ** Lemmas *)

Lemma nul_app a b : (a +:+ nul) +:+ b = a +:+ String NUL b.
Proof. by rewrite app_assoc_s. Qed.

Lemma local_key_split f st :
  local_key f st = f +:+ String NUL (to_string (st_ino st) +:+ String NUL
    ((to_string (st_mtim_sec st) +:+ String "." (to_string (st_mtim_nsec st))) +:+ String NUL
      (to_string (st_ctim_sec st) +:+ String "." (to_string (st_ctim_nsec st))))).
Proof. unfold local_key, nul. append_norm. done. Qed.

Lemma remote_key_split a b k :
  (((a +:+ nul) +:+ b) +:+ nul) +:+ k = a +:+ String NUL (b +:+ String NUL k).
Proof. unfold nul. append_norm. done. Qed.

Lemma sized_key_split k w h :
  sized_key k w h = (k +:+ String NUL (to_string w)) +:+ String NUL (to_string h).
Proof. unfold sized_key, nul. append_norm. done. Qed.

(** seconds "." nanoseconds reads back. *)
Lemma dotted_inj s n s' n' :
  to_string s +:+ String "." (to_string n) = to_string s' +:+ String "." (to_string n') ->
  s = s' /\ n = n'.
Proof.
  intros H.
  pose proof (scan_int_to_string s (String "." (to_string n)) eq_refl) as H1.
  pose proof (scan_int_to_string s' (String "." (to_string n')) eq_refl) as H2.
  rewrite H, H2 in H1. injection H1 as -> H1. split; [done|].
  apply to_string_inj. congruence.
Qed.

Lemma dotted_nul_free s n : nul_free (to_string s +:+ String "." (to_string n)).
Proof.
  unfold nul_free. rewrite mem_char_app. change (String "." ?x) with ("." +:+ x).
  rewrite mem_char_app, !to_string_nul_free. done.
Qed.

Lemma sized_key_inj k w h k' w' h' :
  sized_key k w h = sized_key k' w' h' -> k = k' /\ w = w' /\ h = h'.
Proof.
  rewrite !sized_key_split. intros H.
  apply nul_split_last in H as [H Hh]; [|auto with thumb..].
  apply nul_split_last in H as [-> Hw]; [|auto with thumb..].
  auto using to_string_inj.
Qed.

(** ** Properties *)

(** C38. Cache keys identify requests: two requests (local file, album art or
    artist art, with NUL-free names) that compute the same cache key are the
    same request, so no cache entry of one is ever served for another; in
    particular local, album and artist keys never collide. *)
Theorem key_of_injective s s' :
  subject_ok s -> subject_ok s' -> key_of s = key_of s' -> s = s'.
Proof.
  destruct s as [f st|a b|a b], s' as [f' st'|a' b'|a' b']; cbn; intros Hs Hs' H;
    unfold album_key, artist_key in H;
    rewrite ?local_key_split, ?remote_key_split in H;
    apply nul_split in H as [-> H]; try (by intuition auto).
  - apply nul_split in H as [Hi H]; [|auto with thumb..].
    apply nul_split in H as [Hm Hc]; [|auto using dotted_nul_free..].
    apply to_string_inj in Hi. apply dotted_inj in Hm as [? ?], Hc as [? ?].
    destruct st, st'; simpl in *; by subst.
  - apply nul_split in H as [_ H]; [|by auto with thumb|by intuition auto].
    symmetry in H. by apply nul_absent in H.
  - apply nul_split in H as [_ H]; [|by auto with thumb|by intuition auto].
    symmetry in H. by apply nul_absent in H.
  - apply nul_split in H as [_ H]; [|by intuition auto|by auto with thumb].
    by apply nul_absent in H.
  - apply nul_split in H as [-> _]; [done|by intuition auto..].
  - apply nul_split in H as [-> H]; [done|by intuition auto..].
  - apply nul_split in H as [_ H]; [|by intuition auto|by auto with thumb].
    by apply nul_absent in H.
  - apply nul_split in H as [-> H]; [done|by intuition auto..].
  - apply nul_split in H as [-> _]; [done|by intuition auto..].
Qed.

Lemma key_of_injective_witness :
  AlbumArt "a" "b" = AlbumArt "a" "b".
Proof. apply key_of_injective; [split; reflexivity..|reflexivity]. Defined.

(** The sized key of the thumbnail cache determines the full key and both
    dimensions, although full keys themselves contain NUL characters. *)
Theorem sized_key_injective k w h k' w' h' :
  sized_key k w h = sized_key k' w' h' -> k = k' /\ w = w' /\ h = h'.
Proof. apply sized_key_inj. Qed.

Lemma sized_key_injective_witness :
  sized_key "k" 1 2 = sized_key "k" 1 2 /\ "k" = "k" /\ 1 = 1 /\ 2 = 2.
Proof. split; [reflexivity|]. apply sized_key_injective. reflexivity. Defined.

(** The two reserved keys of the failure cache, which carry the backoff
    state across restarts, are never the key of a request. *)
Theorem reserved_keys_disjoint s :
  key_of s <> LAST_NETWORK_FAIL_TIME_KEY /\ key_of s <> BACKOFF_PERIOD_KEY.
Proof.
  assert (H : forall k, nul_free k -> key_of s <> k).
  { intros k Hk E. symmetry in E. destruct s; cbn in E; unfold album_key, artist_key in E;
      rewrite ?local_key_split, ?remote_key_split in E; by apply nul_absent in E. }
  split; apply H; reflexivity.
Qed.

End Keys.
