(* ===== verification/Backoff.v ===== *)
(** * BackoffAdjuster (src/backoff_adjuster.cpp)

    The retry limiter for remote artwork.  Durations are seconds, time points
    are nanoseconds since the epoch of [system_clock] (its tick on Linux). *)

From S2P Require Import Prelude.

Module Backoff.

(** [class BackoffAdjuster]. *)
Record BackoffAdjuster : Type := mkBackoff {
  last_fail_time_ : Z;     (* time_point, in ns *)
  backoff_period_ : Z;     (* seconds; zero while in success mode *)
  min_backoff_ : Z;
  max_backoff_ : Z
}.

Definition NS_PER_SEC : Z := 1000000000.

(** A default-constructed [system_clock::time_point]. *)
Definition epoch : Z := 0.

Definition init : BackoffAdjuster := mkBackoff epoch 0 1 2.

Definition last_fail_time (b : BackoffAdjuster) : Z := last_fail_time_ b.
Definition backoff_period (b : BackoffAdjuster) : Z := backoff_period_ b.

Definition set_last_fail_time (t : Z) (b : BackoffAdjuster) : BackoffAdjuster :=
  mkBackoff t (backoff_period_ b) (min_backoff_ b) (max_backoff_ b).

Definition set_backoff_period (p : Z) (b : BackoffAdjuster) : outcome BackoffAdjuster :=
  _ ← assert_ (p <=? max_backoff_ b) "set_backoff_period";
  Ok (mkBackoff (last_fail_time_ b) p (min_backoff_ b) (max_backoff_ b)).

Definition set_min_backoff (m : Z) (b : BackoffAdjuster) : outcome BackoffAdjuster :=
  _ ← assert_ (0 <? m) "set_min_backoff";
  Ok (mkBackoff (last_fail_time_ b) (backoff_period_ b) m (max_backoff_ b)).

Definition set_max_backoff (m : Z) (b : BackoffAdjuster) : outcome BackoffAdjuster :=
  _ ← assert_ (0 <? m) "set_max_backoff";
  _ ← assert_ (2 * min_backoff_ b <=? m) "set_max_backoff";
  Ok (mkBackoff (last_fail_time_ b) (backoff_period_ b) (min_backoff_ b) m).

(** [now > last_fail_time_ + backoff_period_]. *)
Definition expired (b : BackoffAdjuster) (now : Z) : bool :=
  now >? last_fail_time_ b + backoff_period_ b * NS_PER_SEC.

Definition retry_ok (b : BackoffAdjuster) (now : Z) : bool :=
  if backoff_period_ b =? 0 then true else expired b now.

Definition adjust_retry_limit (b : BackoffAdjuster) (now : Z) : BackoffAdjuster * bool :=
  if backoff_period_ b =? 0 then
    (mkBackoff now (min_backoff_ b) (min_backoff_ b) (max_backoff_ b), true)
  else if expired b now then
    (mkBackoff now (Z.min (2 * backoff_period_ b) (max_backoff_ b))
               (min_backoff_ b) (max_backoff_ b), true)
  else (b, false).

Definition reset (b : BackoffAdjuster) (now : Z) : BackoffAdjuster :=
  if negb (backoff_period_ b =? 0) then
    if expired b now then mkBackoff epoch 0 (min_backoff_ b) (max_backoff_ b) else b
  else b.

(** ** Specification *)

(** The limits the two [set_*_backoff] assertions establish. *)
Definition configured (b : BackoffAdjuster) : Prop :=
  0 < min_backoff_ b /\ 2 * min_backoff_ b <= max_backoff_ b.

(** Well-formed state: success mode, or a period between the limits. *)
Definition wf (b : BackoffAdjuster) : Prop :=
  configured b /\
  (backoff_period_ b = 0 \/ min_backoff_ b <= backoff_period_ b <= max_backoff_ b).

(** What the service does to its adjuster between two configurations. *)
Inductive step : BackoffAdjuster -> BackoffAdjuster -> Prop :=
  | step_failure b now : step b (adjust_retry_limit b now).1
  | step_success b now : step b (reset b now)
  | step_clear b b' :
      set_backoff_period 0 (set_last_fail_time epoch b) = Ok b' -> step b b'.

(** Replay a list of temporary failures, oldest first. *)
Definition run_failures (b : BackoffAdjuster) (ts : list Z) : BackoffAdjuster :=
  fold_left (fun b t => (adjust_retry_limit b t).1) ts b.

(** Every failure of [ts] arrives once the previous period has run out. *)
Fixpoint spaced (b : BackoffAdjuster) (ts : list Z) : Prop :=
  match ts with
  | [] => True
  | t :: ts' => retry_ok b t = true /\ spaced (adjust_retry_limit b t).1 ts'
  end.

(** ** Lemmas *)

Lemma adjust_limits b now :
  min_backoff_ (adjust_retry_limit b now).1 = min_backoff_ b /\
  max_backoff_ (adjust_retry_limit b now).1 = max_backoff_ b.
Proof. unfold adjust_retry_limit. repeat case_goal; done. Qed.

Lemma adjust_wf b now : wf b -> wf (adjust_retry_limit b now).1.
Proof.
  intros [[Hmin Hmax] Hp]. unfold adjust_retry_limit, wf, configured.
  repeat case_goal; simpl; bsimpl; lia.
Qed.

Lemma reset_wf b now : wf b -> wf (reset b now).
Proof.
  intros [[Hmin Hmax] Hp]. unfold reset, wf, configured.
  repeat case_goal; simpl; bsimpl; lia.
Qed.

Lemma backoff_step_wf b b' : step b b' -> wf b -> wf b'.
Proof.
  intros [? now|? now|? ? H] Hwf; [by apply adjust_wf | by apply reset_wf |].
  unfold set_backoff_period in H. simpl in H.
  destruct Hwf as [[Hmin Hmax] _].
  apply outcome_bind_Ok in H as (? & _ & [= <-]).
  unfold wf, configured; simpl; lia.
Qed.

Lemma expired_mono b now now' : now <= now' -> expired b now = true -> expired b now' = true.
Proof. unfold expired. rewrite !Z.gtb_ltb, !Z.ltb_lt. lia. Qed.

Lemma run_failures_period b ts :
  wf b -> 0 < backoff_period_ b -> spaced b ts ->
  backoff_period_ (run_failures b ts) =
    Z.min (backoff_period_ b * 2 ^ Z.of_nat (length ts)) (max_backoff_ b).
Proof.
  revert b. induction ts as [|t ts IH]; intros b Hwf Hpos Hsp.
  - simpl. destruct Hwf as [_ [?|?]]; lia.
  - destruct Hsp as [Hok Hsp]. change (run_failures b (t :: ts)) with
      (run_failures (adjust_retry_limit b t).1 ts).
    pose proof (adjust_wf b t Hwf) as Hwf'.
    destruct (adjust_limits b t) as [Hmn Hmx].
    assert (Hp : backoff_period_ (adjust_retry_limit b t).1 =
                 Z.min (2 * backoff_period_ b) (max_backoff_ b)).
    { unfold retry_ok in Hok. unfold adjust_retry_limit.
      destruct (Z.eqb_spec (backoff_period_ b) 0); [lia|]. by rewrite Hok. }
    destruct Hwf as [[Hmin Hmax] _].
    rewrite IH; [|done|lia|done]. rewrite Hp, Hmx.
    change (length (t :: ts)) with (S (length ts)).
    rewrite Nat2Z.inj_succ, Z.pow_succ_r by lia.
    assert (1 <= 2 ^ Z.of_nat (length ts)) by (apply Z.pow_le_mono_r with (b := 0); lia).
    destruct (Z.min_spec (2 * backoff_period_ b) (max_backoff_ b)) as [[? ->]|[? ->]]; nia.
Qed.

Lemma adjust_recorded b b1 now :
  wf b -> adjust_retry_limit b now = (b1, true) ->
  last_fail_time_ b1 = now /\ 0 < backoff_period_ b1.
Proof.
  intros [[? ?] ?]. unfold adjust_retry_limit.
  repeat case_goal; intros [= <-]; bsimpl; simpl; lia.
Qed.

(** ** Properties *)

(** C33. Exponential backoff: starting from success mode, a non-empty run of
    temporary failures, each arriving after the previous backoff period has
    run out, leaves the period at min * 2^(n-1) capped at the maximum. *)
Theorem backoff_exponential b t ts :
  wf b -> backoff_period_ b = 0 -> spaced b (t :: ts) ->
  backoff_period_ (run_failures b (t :: ts)) =
    Z.min (min_backoff_ b * 2 ^ Z.of_nat (length ts)) (max_backoff_ b).
Proof.
  intros Hwf H0 [_ Hsp].
  change (run_failures b (t :: ts)) with (run_failures (adjust_retry_limit b t).1 ts).
  pose proof (adjust_wf b t Hwf) as Hwf'. destruct (adjust_limits b t) as [_ Hmx].
  assert (Hp : backoff_period_ (adjust_retry_limit b t).1 = min_backoff_ b).
  { unfold adjust_retry_limit. by rewrite H0. }
  destruct Hwf as [[? ?] _].
  rewrite run_failures_period; [by rewrite Hp, Hmx|done|lia|done].
Qed.

(** Backoff window: once a failure at [now] has been recorded, every
    access up to the end of the period is refused, late successes (requests
    complete out of order) do not reset the period and further failures do not
    extend it; after the period an access is allowed, a success resets it and
    a failure lengthens it. *)
Theorem backoff_window b b1 now t :
  wf b -> adjust_retry_limit b now = (b1, true) ->
  if t <=? now + backoff_period_ b1 * NS_PER_SEC
  then retry_ok b1 t = false /\ reset b1 t = b1 /\ adjust_retry_limit b1 t = (b1, false)
  else retry_ok b1 t = true /\ backoff_period_ (reset b1 t) = 0 /\
       retry_ok (reset b1 t) t = true /\ (adjust_retry_limit b1 t).2 = true.
Proof.
  intros Hwf E. pose proof (adjust_wf b now Hwf) as Hwf1. rewrite E in Hwf1; simpl in Hwf1.
  destruct (adjust_recorded b b1 now Hwf E) as [Hl Hp].
  assert (Hne : backoff_period_ b1 =? 0 = false) by (apply Z.eqb_neq; lia).
  assert (Hex : expired b1 t = negb (t <=? now + backoff_period_ b1 * NS_PER_SEC)).
  { unfold expired. by rewrite Hl, Z.gtb_ltb, Z.leb_antisym, negb_involutive. }
  unfold retry_ok, reset, adjust_retry_limit. rewrite Hne, Hex.
  by destruct (t <=? _).
Qed.

(** Every adjuster state the service can reach from a configured one (by
    failures, successes and cache clearing, at any times) keeps its period
    either zero or between the configured minimum and maximum. *)
Theorem backoff_reachable_wf b b' : wf b -> rtc step b b' -> wf b'.
Proof. intros Hwf Hr. revert Hwf. induction Hr; eauto using backoff_step_wf. Qed.

(** ** Witnesses *)

Definition b0 : BackoffAdjuster := mkBackoff epoch 0 20 7200.

Lemma b0_wf : wf b0.
Proof. unfold wf, configured; simpl; lia. Qed.

Lemma backoff_exponential_witness :
  spaced b0 [1; 21 * NS_PER_SEC; 62 * NS_PER_SEC] /\
  backoff_period_ (run_failures b0 [1; 21 * NS_PER_SEC; 62 * NS_PER_SEC]) = 80.
Proof.
  assert (H : spaced b0 [1; 21 * NS_PER_SEC; 62 * NS_PER_SEC]) by (vm_compute; done).
  split; [exact H|]. rewrite (backoff_exponential b0 _ _ b0_wf eq_refl H). reflexivity.
Defined.

Lemma backoff_window_witness :
  let b1 := (adjust_retry_limit b0 5).1 in
  retry_ok b1 (6 * NS_PER_SEC) = false /\ reset b1 (6 * NS_PER_SEC) = b1 /\
  adjust_retry_limit b1 (6 * NS_PER_SEC) = (b1, false).
Proof. apply (backoff_window b0 (adjust_retry_limit b0 5).1 5 (6 * NS_PER_SEC) b0_wf eq_refl). Defined.

Lemma backoff_reachable_wf_witness : wf (adjust_retry_limit b0 5).1.
Proof.
  apply (backoff_reachable_wf b0); [exact b0_wf|]. apply rtc_once. constructor.
Defined.

End Backoff.
