(* ===== verification/Thumbnailer.v ===== *)
(** * The thumbnailer (src/thumbnailer.cpp, include/internal/thumbnailer.h)

    The three kinds of requests, the look-up logic of [RequestBase::thumbnail],
    and the [Thumbnailer] object with its caches, its backoff state and its
    maintenance operations.  The caches are used through the interface [Cache]
    (CacheInterface.v), images through Image.v; the host's file system, MIME types,
    local album art and AppArmor are the interface [Host].  Every operation takes
    the current time; the readings of the clock within one call are the same. *)

From S2P Require Import Prelude CxxLib QtSize Settings Backoff Image CacheInterface ImageExtractor Keys.
Import Cxx QtSize Image CacheInterface Keys.

Module Thumbnailer.

(** ** Data *)

(** [ThumbnailRequest::FetchStatus]. *)
Inductive FetchStatus : Type :=
  | cache_hit | scaled_from_fullsize | cached_failure | needs_download | downloaded
  | not_found | network_down | temporary_error | hard_error | timeout.

#[export] Instance FetchStatus_eq_dec : EqDecision FetchStatus.
Proof. solve_decision. Defined.

Inductive CachePolicy : Type := cache_fullsize | dont_cache_fullsize.
Inductive Location : Type := local | remote.

(** [ArtReply::Status]. *)
Inductive ArtStatus : Type :=
  | reply_not_finished | reply_success | reply_not_found | reply_temporary_error
  | reply_hard_error | reply_network_down | reply_timeout.

Record ArtReply : Type := mkReply {
  reply_status : ArtStatus;
  reply_error_string : string;
  reply_data : string
}.

(** What the request classes have of their own. *)
Inductive source : Type :=
  | LocalThumbnailRequest (filename_ : string)
      (image_extractor_ : option ImageExtractor.ImageExtractor)
  | AlbumRequest (artist_ album_ : string) (artreply_ : option ArtReply)
  | ArtistRequest (artist_ album_ : string) (artreply_ : option ArtReply).

(** [class RequestBase]. *)
Record Request : Type := mkRequest {
  key_ : string;
  requested_size_ : QSize;
  error_message_ : string;
  timeout_ : Z;                 (* milliseconds *)
  status_ : FetchStatus;
  source_ : source
}.

Definition set_status (st : FetchStatus) (r : Request) : Request :=
  mkRequest (key_ r) (requested_size_ r) (error_message_ r) (timeout_ r) st (source_ r).
Definition set_error_message (msg : string) (r : Request) : Request :=
  mkRequest (key_ r) (requested_size_ r) msg (timeout_ r) (status_ r) (source_ r).
Definition set_source (s : source) (r : Request) : Request :=
  mkRequest (key_ r) (requested_size_ r) (error_message_ r) (timeout_ r) (status_ r) s.

(** [class Thumbnailer]. *)
Record Thumbnailer (C : Type) : Type := mkThumbnailer {
  full_size_cache_ : C;
  thumbnail_cache_ : C;
  failure_cache_ : C;
  max_size_ : Z;
  retry_not_found_hours_ : Z;
  extraction_timeout_ : Z;      (* milliseconds *)
  backoff_ : Backoff.BackoffAdjuster
}.
Arguments mkThumbnailer {C}.
Arguments full_size_cache_ {C}.
Arguments thumbnail_cache_ {C}.
Arguments failure_cache_ {C}.
Arguments max_size_ {C}.
Arguments retry_not_found_hours_ {C}.
Arguments extraction_timeout_ {C}.
Arguments backoff_ {C}.

(** The host: results of system calls carry [inl errno] when they fail. *)
Class Host : Type := {
  is_absolute : string -> bool;
  canonical : string -> outcome string;
  stat : string -> Z + file_stat * bool;            (* and S_ISREG *)
  geteuid : Z;
  apparmor_can_read : string -> string -> outcome bool;
  get_mimetype : string -> outcome string;
  open_file : string -> Z + file_desc;
  extract_local_album_art : string -> outcome string;
  safe_strerror : Z -> string
}.

Section Defs.
Context {P L I E D : Type} {libs : ImageLibs P L I E D} {qs : QSizeScale}.
Context {C : Type} {cacheC : Cache C} {host : Host}.

(** [RequestBase::ImageData]. *)
Record ImageData : Type := mkData {
  data_status : FetchStatus;
  data_image : Image P;
  data_policy : CachePolicy;
  data_location : Location
}.

(** The two constructors. *)
Definition data_of_image (i : Image P) (p : CachePolicy) (l : Location) : ImageData :=
  mkData downloaded i p l.
Definition data_of_status (s : FetchStatus) (p : CachePolicy) (l : Location) : ImageData :=
  mkData s empty_image p l.

(** ** Request constructors *)

Definition RequestBase (key : string) (requested_size : QSize) (timeout : Z) (s : source) : Request :=
  mkRequest key requested_size "" timeout needs_download s.

Definition make_local (filename : string) (requested_size : QSize) (timeout : Z) : outcome Request :=
  if negb (is_absolute filename) then
    Throw (runtime_error ("LocalThumbnailRequest(): " +:+ filename +:+ ": file name must be an absolute path"))
  else
    filename_ ← canonical filename;
    match stat filename_ with
    | inl errno => Throw (runtime_error ("LocalThumbnailRequest(): Could not stat " +:+ filename_ +:+ ": "
                                         +:+ safe_strerror errno))
    | inr (st, is_regular) =>
        if negb is_regular then
          Throw (runtime_error ("LocalThumbnailRequest(): '" +:+ filename_ +:+ "' is not a regular file"))
        else Ok (RequestBase (local_key filename_ st) requested_size timeout
                   (LocalThumbnailRequest filename_ None))
    end.

Definition make_album (artist album : string) (requested_size : QSize) (timeout : Z) : Request :=
  RequestBase (album_key artist album) requested_size timeout (AlbumRequest artist album None).
Definition make_artist (artist album : string) (requested_size : QSize) (timeout : Z) : Request :=
  RequestBase (artist_key artist album) requested_size timeout (ArtistRequest artist album None).

(** [check_client_credentials]: only local requests check anything. *)
Definition check_client_credentials (r : Request) (user : Z) (label : string) : outcome unit :=
  match source_ r with
  | LocalThumbnailRequest filename_ _ =>
      if negb (user =? geteuid) then
        Throw (runtime_error "LocalThumbnailRequest::fetch(): Request comes from a different user ID")
      else
        allowed ← apparmor_can_read label filename_;
        if negb allowed then
          Throw (runtime_error ("LocalThumbnailRequest::fetch(): AppArmor policy forbids access to " +:+ filename_))
        else Ok tt
  | _ => Ok tt
  end.

(** ** Fetching *)

(** A [noexcept] function: an exception that escapes ends the process. *)
Definition noexcept {S A} (m : M S A) : M S A := fun s =>
  match m s with (s', Throw _) => (s', Crash (Aborted "noexcept")) | r => r end.

(** [catch (std::exception const&)]. *)
Definition catch_std {S A} (m : M S A) (h : exn -> M S A) : M S A :=
  catchM m (fun e => if is_std e then h e else throw e).

(** [Image(image_extractor_->read())]. *)
Definition read_extracted (filename : string) (x : ImageExtractor.ImageExtractor) : M Request (Image P) :=
  fun r =>
    let '(x', bytes) := ImageExtractor.read x in
    (set_source (LocalThumbnailRequest filename (Some x')) r,
     bytes ← bytes; image_of_string safe_strerror bytes invalid_size).

(** The [try] block of [LocalThumbnailRequest::fetch]; [None] when it falls
    through. *)
Definition fetch_local_file (filename : string) (size_hint : QSize) : outcome (option ImageData) :=
  content_type ← get_mimetype filename;
  _ ← assert_ (negb (String.eqb content_type "")) "fetch: content_type";
  if starts_with "image/" content_type then
    match open_file filename with
    | inl errno => Throw (runtime_error ("LocalThumbnailRequest::fetch(): Could not open " +:+ filename
                                         +:+ ": " +:+ safe_strerror errno))
    | inr fd =>
        scaled ← image_of_fd safe_strerror fd size_hint;
        Ok (Some (data_of_image scaled dont_cache_fullsize local))
    end
  else if starts_with "audio/" content_type then
    art ← extract_local_album_art filename;
    if negb (String.eqb art "") then
      image ← image_of_string safe_strerror art invalid_size;
      Ok (Some (data_of_image image dont_cache_fullsize local))
    else Ok None
  else if starts_with "video/" content_type then
    Ok (Some (data_of_status needs_download cache_fullsize local))
  else Ok None.

Definition local_fetch (filename : string) (extractor : option ImageExtractor.ImageExtractor)
    (size_hint : QSize) : M Request ImageData :=
  let policy := match extractor with Some _ => cache_fullsize | None => dont_cache_fullsize end in
  noexcept (catch_std
    (found ← match extractor with
             | Some x =>
                 image ← read_extracted filename x;
                 mret (Some (data_of_image image cache_fullsize local))
             | None => lift (fetch_local_file filename size_hint)
             end;
     mret (default (data_of_status not_found policy local) found))
    (fun e =>
       _ ← modify (set_error_message (exn_what e));
       mret (data_of_status hard_error policy local))).

(** [common_fetch] of album and artist requests. *)
Definition common_fetch (artreply : option ArtReply) : M Request ImageData :=
  let image_data st := data_of_status st cache_fullsize remote in
  noexcept
    match artreply with
    | None => mret (image_data needs_download)
    | Some reply =>
        _ ← modify (set_error_message (reply_error_string reply));
        match reply_status reply with
        | reply_success =>
            catch_std
              (full_size ← lift (image_of_string safe_strerror (reply_data reply) invalid_size);
               mret (data_of_image full_size cache_fullsize remote))
              (fun e =>
                 _ ← modify (set_error_message (exn_what e));
                 mret (image_data hard_error))
        | reply_not_found => mret (image_data not_found)
        | reply_temporary_error => mret (image_data temporary_error)
        | reply_hard_error => mret (image_data hard_error)
        | reply_timeout => mret (image_data timeout)
        | reply_network_down => mret (image_data network_down)
        | reply_not_finished => crash (Aborted "common_fetch")
        end
    end.

Definition fetch (size_hint : QSize) : M Request ImageData :=
  r ← getS;
  match source_ r with
  | LocalThumbnailRequest filename extractor => local_fetch filename extractor size_hint
  | AlbumRequest _ _ artreply | ArtistRequest _ _ artreply => common_fetch artreply
  end.

(** ** The look-up *)

(** A request together with the thumbnailer it was made by. *)
Record env : Type := mkEnv { th : Thumbnailer C; rq : Request }.

Definition on_request {A} (m : M Request A) : M env A := fun s =>
  let '(r, a) := m (rq s) in (mkEnv (th s) r, a).

Definition set_full (c : C) (t : Thumbnailer C) : Thumbnailer C :=
  mkThumbnailer c (thumbnail_cache_ t) (failure_cache_ t) (max_size_ t) (retry_not_found_hours_ t)
    (extraction_timeout_ t) (backoff_ t).
Definition set_thumb (c : C) (t : Thumbnailer C) : Thumbnailer C :=
  mkThumbnailer (full_size_cache_ t) c (failure_cache_ t) (max_size_ t) (retry_not_found_hours_ t)
    (extraction_timeout_ t) (backoff_ t).
Definition set_failure (c : C) (t : Thumbnailer C) : Thumbnailer C :=
  mkThumbnailer (full_size_cache_ t) (thumbnail_cache_ t) c (max_size_ t) (retry_not_found_hours_ t)
    (extraction_timeout_ t) (backoff_ t).
Definition set_backoff (b : Backoff.BackoffAdjuster) (t : Thumbnailer C) : Thumbnailer C :=
  mkThumbnailer (full_size_cache_ t) (thumbnail_cache_ t) (failure_cache_ t) (max_size_ t)
    (retry_not_found_hours_ t) (extraction_timeout_ t) b.

Definition on_full {A} (m : M C A) : M env A := fun s =>
  let '(c, a) := m (full_size_cache_ (th s)) in (mkEnv (set_full c (th s)) (rq s), a).
Definition on_thumb {A} (m : M C A) : M env A := fun s =>
  let '(c, a) := m (thumbnail_cache_ (th s)) in (mkEnv (set_thumb c (th s)) (rq s), a).
Definition on_failure {A} (m : M C A) : M env A := fun s =>
  let '(c, a) := m (failure_cache_ (th s)) in (mkEnv (set_failure c (th s)) (rq s), a).
Definition on_backoff (f : Backoff.BackoffAdjuster -> Backoff.BackoffAdjuster) : M env unit :=
  modify (fun s => mkEnv (set_backoff (f (backoff_ (th s))) (th s)) (rq s)).

(** "Enforce size limitation." *)
Definition target_size_of (requested : QSize) (max_size : Z) : QSize :=
  let t := mkSize max_size max_size in
  let t := if negb (width requested =? 0) then setWidth (Z.min (width requested) max_size) t else t in
  if negb (height requested =? 0) then setHeight (Z.min (height requested) max_size) t else t.

Definition thumb_key (r : Request) (target : QSize) : string :=
  sized_key (key_ r) (width target) (height target).

Definition invalid_size_message (s : QSize) : string :=
  "invalid size: (" +:+ to_string (width s) +:+ "," +:+ to_string (height s) +:+ ")".

(** The end of [thumbnail()]: encode, store and return. *)
Definition store_thumbnail (sized : string) (scaled_image : Image P) (now : Z) : M env string :=
  data ← lift (jpeg_or_png_data scaled_image DEFAULT_QUALITY);
  _ ← on_thumb (cache_put sized data no_expiry now);
  mret data.

(** "We keep the full-size version around for a while". *)
Definition keep_fullsize (d : ImageData) (now : Z) : M env (Image P) :=
  match data_policy d with
  | dont_cache_fullsize => mret (data_image d)
  | cache_fullsize =>
      s ← getS;
      let max_size := max_size_ (th s) in
      w ← lift (image_width (data_image d));
      h ← lift (image_height (data_image d));
      image ← (if Z.max w h >? max_size then lift (scale (data_image d) (mkSize max_size max_size))
               else mret (data_image d));
      data ← lift (jpeg_or_png_data image 90);
      _ ← on_full (cache_put (key_ (rq s)) data no_expiry now);
      mret image
  end.

Definition NS_PER_HOUR : Z := 3600 * Backoff.NS_PER_SEC.

Definition reset_backoff (l : Location) (now : Z) : M env unit :=
  match l with remote => on_backoff (fun b => Backoff.reset b now) | local => mret tt end.

(** The cases of the switch that return the empty string. *)
Definition after_failure (d : ImageData) (now : Z) : M env string :=
  s ← getS;
  let key := key_ (rq s) in
  match data_status d with
  | needs_download =>
      match data_location d with
      | remote =>
          if negb (Backoff.retry_ok (backoff_ (th s)) now)
          then _ ← on_request (modify (set_status temporary_error)); mret ""
          else mret ""
      | local => mret ""
      end
  | network_down => mret ""
  | not_found =>
      let later := match data_location d with
                   | remote => now + retry_not_found_hours_ (th s) * NS_PER_HOUR
                   | local => no_expiry
                   end in
      _ ← on_failure (cache_put key "" later now);
      _ ← reset_backoff (data_location d) now;
      mret ""
  | hard_error =>
      _ ← on_failure (cache_put key "" no_expiry now);
      _ ← reset_backoff (data_location d) now;
      mret ""
  | temporary_error =>
      _ ← lift (assert_ (match data_location d with remote => true | local => false end) "thumbnail: remote");
      _ ← on_backoff (fun b => (Backoff.adjust_retry_limit b now).1);
      mret ""
  | timeout =>
      _ ← lift (assert_ (match data_location d with remote => true | local => false end) "thumbnail: remote");
      mret ""
  | _ => crash (Aborted "thumbnail")
  end.

(** No thumbnail and no full-size image in the caches. *)
Definition fetch_and_scale (target : QSize) (sized : string) (now : Z) : M env string :=
  s ← getS;
  failed ← on_failure (cache_get (key_ (rq s)) now);
  match failed with
  | Some _ => _ ← on_request (modify (set_status cached_failure)); mret ""
  | None =>
      d ← on_request (fetch target);
      _ ← on_request (modify (set_status (data_status d)));
      match data_status d with
      | downloaded =>
          _ ← reset_backoff (data_location d) now;
          image ← keep_fullsize d now;
          scaled_image ← lift (scale image target);
          store_thumbnail sized scaled_image now
      | _ => after_failure d now
      end
  end.

Definition thumbnail_body (now : Z) : M env string :=
  s ← getS;
  let r := rq s in
  if negb (isValid (requested_size_ r)) then
    throw (invalid_argument (invalid_size_message (requested_size_ r)))
  else
    let target := target_size_of (requested_size_ r) (max_size_ (th s)) in
    let sized := thumb_key r target in
    hit ← on_thumb (cache_get sized now);
    match hit with
    | Some data => _ ← on_request (modify (set_status cache_hit)); mret data
    | None =>
        full_size ← on_full (cache_get (key_ r) now);
        match full_size with
        | Some data =>
            _ ← on_request (modify (set_status scaled_from_fullsize));
            scaled_image ← lift (image_of_string safe_strerror data target);
            store_thumbnail sized scaled_image now
        | None => fetch_and_scale target sized now
        end
    end.

(** [RequestBase::thumbnail]. *)
Definition thumbnail (now : Z) : M env string := fun s =>
  catch_std (thumbnail_body now) (fun e =>
    throw (unity_nested "unity::ResourceException"
      ("RequestBase::thumbnail(): key = " +:+ printable_key (key_ (rq s)) +:+ ": " +:+ exn_what e) e)) s.

(** What [download()] starts, and with which timeout. *)
Inductive job : Type :=
  | Extract (filename : string) (timeout : Z)
  | DownloadAlbum (artist album : string) (timeout : Z)
  | DownloadArtist (artist album : string) (timeout : Z).

Definition unfinished : ArtReply := mkReply reply_not_finished "" "".

(** [download()] once the extractor or the reply is made. *)
Definition begin_download (timeout : Z) (r : Request) : Request * job :=
  let timeout := if timeout =? 0 then timeout_ r else timeout in
  match source_ r with
  | LocalThumbnailRequest f _ =>
      (set_source (LocalThumbnailRequest f (Some (ImageExtractor.init f timeout))) r, Extract f timeout)
  | AlbumRequest a b _ => (set_source (AlbumRequest a b (Some unfinished)) r, DownloadAlbum a b timeout)
  | ArtistRequest a b _ => (set_source (ArtistRequest a b (Some unfinished)) r, DownloadArtist a b timeout)
  end.

(** What [download()] is answered: the constructor of [ImageExtractor] by the
    system, with an errno where it fails, and a remote request by the downloader. *)
Record Answers : Type := mkAnswers {
  pipe2 : option Z;
  set_nonblock : option Z;
  clear_cloexec : option Z;
  downloader_reply : outcome unit
}.

Definition granted : Answers := mkAnswers None None None (Ok tt).

Definition download (sys : Answers) (timeout : Z) (r : Request) : outcome (Request * job) :=
  match source_ r with
  | LocalThumbnailRequest f _ =>
      _ ← ImageExtractor.construct safe_strerror (pipe2 sys) (set_nonblock sys) (clear_cloexec sys) f
            (if timeout =? 0 then timeout_ r else timeout);
      Ok (begin_download timeout r)
  | _ => _ ← downloader_reply sys; Ok (begin_download timeout r)
  end.

(** ** The Thumbnailer object *)

Definition get_thumbnail (t : Thumbnailer C) (filename : string) (requested_size : QSize) : outcome Request :=
  if String.eqb filename "" then
    Throw (unity_exception "unity::InvalidArgumentException" "Thumbnailer::get_thumbnail(): filename is empty")
  else
    try_catch (make_local filename requested_size (extraction_timeout_ t)) (fun e =>
      if is_std e then Throw (unity_nested "unity::ResourceException" "Thumbnailer::get_thumbnail()" e) else Throw e).

Definition get_album_art (t : Thumbnailer C) (artist album : string) (requested_size : QSize) : outcome Request :=
  if String.eqb album "" then
    Throw (unity_exception "unity::InvalidArgumentException" "Thumbnailer::get_album_art(): album is empty")
  else Ok (make_album artist album requested_size (extraction_timeout_ t)).

Definition get_artist_art (t : Thumbnailer C) (artist album : string) (requested_size : QSize) : outcome Request :=
  if String.eqb artist "" then
    Throw (unity_exception "unity::InvalidArgumentException" "Thumbnailer::get_artist_art(): artist is empty")
  else Ok (make_artist artist album requested_size (extraction_timeout_ t)).

Inductive CacheSelector : Type := sel_all | sel_full_size_cache | sel_thumbnail_cache | sel_failure_cache.

Inductive cache_id : Type := full_size | thumbnails | failures.

Definition select_caches (sel : CacheSelector) : list cache_id :=
  match sel with
  | sel_full_size_cache => [full_size]
  | sel_thumbnail_cache => [thumbnails]
  | sel_failure_cache => [failures]
  | sel_all => [full_size; thumbnails; failures]
  end.

Definition cache_name (sel : CacheSelector) : string :=
  match sel with
  | sel_full_size_cache => "image cache"
  | sel_thumbnail_cache => "thumbnail cache"
  | sel_failure_cache => "failure cache"
  | sel_all => "all caches"
  end.

#[export] Instance cache_id_eq_dec : EqDecision cache_id.
Proof. solve_decision. Defined.

Definition get_cache (i : cache_id) (t : Thumbnailer C) : C :=
  match i with
  | full_size => full_size_cache_ t
  | thumbnails => thumbnail_cache_ t
  | failures => failure_cache_ t
  end.

Definition on_cache (m : M C unit) (i : cache_id) : M (Thumbnailer C) unit := fun t =>
  match i with
  | full_size => let '(c, a) := m (full_size_cache_ t) in (set_full c t, a)
  | thumbnails => let '(c, a) := m (thumbnail_cache_ t) in (set_thumb c t, a)
  | failures => let '(c, a) := m (failure_cache_ t) in (set_failure c t, a)
  end.

Fixpoint for_each (m : M C unit) (l : list cache_id) : M (Thumbnailer C) unit :=
  match l with
  | [] => mret tt
  | i :: l' => _ ← on_cache m i; for_each m l'
  end.

Definition clear_stats (sel : CacheSelector) : M (Thumbnailer C) unit :=
  for_each cache_clear_stats (select_caches sel).

Definition clear (sel : CacheSelector) : M (Thumbnailer C) unit :=
  _ ← for_each cache_invalidate (select_caches sel);
  match sel with
  | sel_failure_cache | sel_all =>
      t ← getS;
      b ← lift (Backoff.set_backoff_period 0 (Backoff.set_last_fail_time Backoff.epoch (backoff_ t)));
      modify (set_backoff b)
  | _ => mret tt
  end.

Definition compact (sel : CacheSelector) : M (Thumbnailer C) unit :=
  for_each cache_compact (select_caches sel).

(** [apply_upgrade_actions], with the versions [Version] reports. *)
Definition apply_upgrade_actions (version : outcome (Z * Z)) : M (Thumbnailer C) unit :=
  '(prev, current) ← lift version;
  if negb (prev =? current) then clear sel_all else mret tt.

(** [duration_cast<seconds>] of a time point, and back ([int64] nanoseconds). *)
Definition to_seconds (t : Z) : Z := Z.quot t Backoff.NS_PER_SEC.
Definition of_seconds (s : Z) : outcome Z :=
  let t := s * Backoff.NS_PER_SEC in
  if (LLONG_MIN <=? t) && (t <=? LLONG_MAX) then Ok t else Crash (Undefined "time_point overflow").

(** The configuration part of the constructor: sizes in bytes, timeouts, limits
    of the backoff.  All products are [int] products. *)
Definition cache_bytes (megabytes : Z) : outcome Z :=
  k ← as_int (megabytes * 1024) "cache size"; as_int (k * 1024) "cache size".

Definition configure_backoff (d : Settings.Defaults) (s : Settings.Settings) : outcome Backoff.BackoffAdjuster :=
  t ← Settings.extraction_timeout d s;
  min ← as_int (t * 2) "Thumbnailer::Thumbnailer";
  b ← Backoff.set_min_backoff min Backoff.init;
  max ← Settings.retry_error_max_seconds d s;
  Backoff.set_max_backoff max b.

Definition on_failures {A} (m : M C A) : M (Thumbnailer C) A := fun t =>
  let '(c, a) := m (failure_cache_ t) in (set_failure c t, a).

(** [stoll] of the value cached under a reserved key. *)
Definition restore_number (key : string) (now : Z) : M (Thumbnailer C) Z :=
  value ← on_failures (cache_get key now);
  lift (match value with Some text => stoll text | None => Crash (Undefined "empty optional") end).

(** Restoring the backoff state of the last run from the failure cache. *)
Definition restore_fail_time (now : Z) : M (Thumbnailer C) unit :=
  present ← on_failures (cache_contains_key LAST_NETWORK_FAIL_TIME_KEY now);
  if present : bool then
    seconds ← restore_number LAST_NETWORK_FAIL_TIME_KEY now;
    fail_time ← lift (of_seconds seconds);
    modify (fun t => set_backoff (Backoff.set_last_fail_time fail_time (backoff_ t)) t)
  else mret tt.

Definition restore_backoff_period (now : Z) : M (Thumbnailer C) unit :=
  present ← on_failures (cache_contains_key BACKOFF_PERIOD_KEY now);
  if present : bool then
    seconds ← restore_number BACKOFF_PERIOD_KEY now;
    t ← getS;
    b ← lift (Backoff.set_backoff_period seconds (backoff_ t));
    modify (set_backoff b)
  else mret tt.

(** The first part of the constructor, after the cache directory was made, up to
    the limits of the backoff; [open_cache] is [PersistentCacheHelper::open] in that
    directory. *)
Definition configure (d : Settings.Defaults) (s : Settings.Settings)
    (open_cache : string -> Z -> bool -> outcome C) : outcome (Thumbnailer C) :=
  full_size_bytes ← (Settings.full_size_cache_size d s ≫= cache_bytes);
  full ← open_cache "/images" full_size_bytes false;
  thumbnail_bytes ← (Settings.thumbnail_cache_size d s ≫= cache_bytes);
  thumb ← open_cache "/thumbnails" thumbnail_bytes false;
  failure_bytes ← (Settings.failure_cache_size d s ≫= cache_bytes);
  failure ← open_cache "/failures" failure_bytes true;
  max_size ← Settings.max_thumbnail_size d s;
  hours ← Settings.retry_not_found_hours d s;
  timeout_seconds ← Settings.extraction_timeout d s;
  timeout_ms ← as_int (timeout_seconds * 1000) "Thumbnailer::Thumbnailer";
  b ← configure_backoff d s;
  Ok (mkThumbnailer full thumb failure max_size hours timeout_ms b).

Definition construct (d : Settings.Defaults) (s : Settings.Settings)
    (open_cache : string -> Z -> bool -> outcome C) (version : outcome (Z * Z)) (now : Z)
    : outcome (Thumbnailer C) :=
  try_catch
    (t ← configure d s open_cache;
     let '(t, r) :=
       (_ ← restore_fail_time now; _ ← restore_backoff_period now; apply_upgrade_actions version) t in
     _ ← r; Ok t)
    (fun e => if is_std e
              then Throw (runtime_error ("Thumbnailer(): Cannot instantiate cache: " +:+ exn_what e))
              else Throw e).

(** The destructor swallows every exception. *)
Definition destroy (now : Z) (t : Thumbnailer C) : Thumbnailer C * outcome unit :=
  catchM
    (t ← getS;
     _ ← on_failures (cache_put LAST_NETWORK_FAIL_TIME_KEY
           (to_string (to_seconds (Backoff.last_fail_time (backoff_ t)))) no_expiry now);
     _ ← on_failures (cache_put BACKOFF_PERIOD_KEY
           (to_string (Backoff.backoff_period (backoff_ t))) no_expiry now);
     mret tt)
    (fun _ => mret tt) t.
End Defs.

(** ** Specification *)

(** What the requests rely on of the host's file type and album art readers and
    of its access checks: only standard exceptions. *)
Class HostLaws {host : Host} : Prop := {
  get_mimetype_law f :
    match get_mimetype f with Ok ct => ct <> "" | Throw e => is_std e = true | Crash _ => False end;
  extract_local_album_art_law f :
    match extract_local_album_art f with Ok _ => True | Throw e => is_std e = true | Crash _ => False end;
  apparmor_can_read_law label f :
    match apparmor_can_read label f with Ok _ => True | Throw e => is_std e = true | Crash _ => False end
}.
Arguments HostLaws host : clear implicits.

Section Spec.
Context {P L I E D : Type} {libs : ImageLibs P L I E D} {laws : ImageLaws P L I E D}.
Context {qs : QSizeScale} {qlaws : QSizeScaleLaws qs}.
Context {C : Type} {cacheC : Cache C} {claws : CacheLaws C}.
Context {host : Host} {hlaws : HostLaws host}.
Implicit Types (t : Thumbnailer C) (s : env (C := C)) (r : Request) (d : ImageData (P := P)).

(** [thumbnail()] may be called: a reply has arrived, an extraction has failed
    or has not been read. *)
Definition request_ready r : Prop :=
  match source_ r with
  | LocalThumbnailRequest _ None => True
  | LocalThumbnailRequest _ (Some x) =>
      ImageExtractor.error_ x <> "" \/ ImageExtractor.read_called_ x = false
  | AlbumRequest _ _ (Some reply) | ArtistRequest _ _ (Some reply) =>
      reply_status reply <> reply_not_finished
  | _ => True
  end.

Record usable t : Prop := mkUsable {
  us_full : cache_usable (full_size_cache_ t);
  us_thumb : cache_usable (thumbnail_cache_ t);
  us_failure : cache_usable (failure_cache_ t);
  us_max : 0 < max_size_ t
}.

(** The caches answer alike. *)
Definition same_cache (c c' : C) : Prop :=
  (cache_usable c' /\ cache_room c' = cache_room c) /\ forall now k, cache_lookup c' now k = cache_lookup c now k.

(** [c'] is [c] after the entry [k] was written at [now], if it was no larger than
    the cache. *)
Definition written (now : Z) (k v : string) (expiry : Z) (c c' : C) : Prop :=
  (cache_usable c' /\ cache_room c' = cache_room c) /\
  (forall now' k', k' <> k -> cache_lookup c' now' k' = cache_lookup c now' k' \/ cache_lookup c' now' k' = None) /\
  (cache_fits c k v -> live expiry now = true ->
     forall now', cache_lookup c' now' k = if live expiry now' then Some v else None).

(** What a call leaves alone in any case. *)
Definition same_config t t' : Prop :=
  max_size_ t' = max_size_ t /\ retry_not_found_hours_ t' = retry_not_found_hours_ t /\
  extraction_timeout_ t' = extraction_timeout_ t.

Definition is_transient (st : FetchStatus) : bool :=
  match st with needs_download | network_down | temporary_error | timeout => true | _ => false end.

Definition is_remote r : bool :=
  match source_ r with LocalThumbnailRequest _ _ => false | _ => true end.

Definition sized_of s : string := thumb_key (rq s) (target_size_of (requested_size_ (rq s)) (max_size_ (th s))).
Definition target_of s : QSize := target_size_of (requested_size_ (rq s)) (max_size_ (th s)).

(** [d] encodes an image that fits the target size. *)
Definition thumbnail_of (target : QSize) (d : string) : Prop :=
  exists (img : Image P) w h, jpeg_or_png_data img DEFAULT_QUALITY = Ok d /\
    image_width img = Ok w /\ image_height img = Ok h /\ 0 < w /\ 0 < h /\ fits w h target.

(** When a failure entry expires: only remote "not found" answers do. *)
Definition failure_expiry (now hours : Z) (st : FetchStatus) (is_rem : bool) : Z :=
  match st, is_rem with
  | not_found, true => now + hours * NS_PER_HOUR
  | _, _ => no_expiry
  end.

(** Neither the thumbnail nor the full-size image is in the caches. *)
Definition missed (now : Z) s : Prop :=
  cache_lookup (thumbnail_cache_ (th s)) now (sized_of s) = None /\
  cache_lookup (full_size_cache_ (th s)) now (key_ (rq s)) = None.

(** The possible results of [thumbnail()]. *)
Inductive served (now : Z) s s' (d : string) : Prop :=
  | served_hit :
      status_ (rq s') = cache_hit -> cache_lookup (thumbnail_cache_ (th s)) now (sized_of s) = Some d ->
      same_cache (full_size_cache_ (th s)) (full_size_cache_ (th s')) ->
      same_cache (thumbnail_cache_ (th s)) (thumbnail_cache_ (th s')) ->
      same_cache (failure_cache_ (th s)) (failure_cache_ (th s')) ->
      source_ (rq s') = source_ (rq s) -> served now s s' d
  | served_image full_size :
      status_ (rq s') = scaled_from_fullsize \/ status_ (rq s') = downloaded ->
      cache_lookup (thumbnail_cache_ (th s)) now (sized_of s) = None ->
      thumbnail_of (target_of s) d ->
      same_cache (full_size_cache_ (th s)) (full_size_cache_ (th s')) \/
        written now (key_ (rq s)) full_size no_expiry (full_size_cache_ (th s)) (full_size_cache_ (th s')) ->
      written now (sized_of s) d no_expiry (thumbnail_cache_ (th s)) (thumbnail_cache_ (th s')) ->
      same_cache (failure_cache_ (th s)) (failure_cache_ (th s')) -> served now s s' d
  | served_cached_failure :
      status_ (rq s') = cached_failure -> d = "" ->
      is_Some (cache_lookup (failure_cache_ (th s)) now (key_ (rq s))) ->
      same_cache (full_size_cache_ (th s)) (full_size_cache_ (th s')) ->
      same_cache (thumbnail_cache_ (th s)) (thumbnail_cache_ (th s')) ->
      same_cache (failure_cache_ (th s)) (failure_cache_ (th s')) ->
      source_ (rq s') = source_ (rq s) -> served now s s' d
  | served_failure :
      status_ (rq s') = not_found \/ status_ (rq s') = hard_error -> d = "" ->
      same_cache (full_size_cache_ (th s)) (full_size_cache_ (th s')) ->
      same_cache (thumbnail_cache_ (th s)) (thumbnail_cache_ (th s')) ->
      written now (key_ (rq s)) "" (failure_expiry now (retry_not_found_hours_ (th s)) (status_ (rq s')) (is_remote (rq s)))
        (failure_cache_ (th s)) (failure_cache_ (th s')) ->
      missed now s -> served now s s' d
  | served_transient :
      is_transient (status_ (rq s')) = true -> d = "" ->
      same_cache (full_size_cache_ (th s)) (full_size_cache_ (th s')) ->
      same_cache (thumbnail_cache_ (th s)) (thumbnail_cache_ (th s')) ->
      same_cache (failure_cache_ (th s)) (failure_cache_ (th s')) ->
      (status_ (rq s') <> needs_download -> is_remote (rq s) = true) ->
      (status_ (rq s') = needs_download -> is_remote (rq s) = true ->
         Backoff.retry_ok (backoff_ (th s)) now = true) -> served now s s' d.
(** ** Lemmas *)

Lemma wp_on_request {A} (m : M Request A) (Q : env -> A -> Prop) s :
  wp m (fun r a => Q (mkEnv (th s) r) a) (rq s) -> wp (on_request m) Q s.
Proof. unfold wpx, on_request. by destruct (m (rq s)) as [r [a|e|c]]. Qed.

Lemma wp_on_thumb {A} (m : M C A) (Q : env -> A -> Prop) s :
  wp m (fun c a => Q (mkEnv (set_thumb c (th s)) (rq s)) a) (thumbnail_cache_ (th s)) ->
  wp (on_thumb m) Q s.
Proof. unfold wpx, on_thumb. by destruct (m _) as [r [a|e|c]]. Qed.

Lemma wp_on_full {A} (m : M C A) (Q : env -> A -> Prop) s :
  wp m (fun c a => Q (mkEnv (set_full c (th s)) (rq s)) a) (full_size_cache_ (th s)) ->
  wp (on_full m) Q s.
Proof. unfold wpx, on_full. by destruct (m _) as [r [a|e|c]]. Qed.

Lemma wp_on_failure {A} (m : M C A) (Q : env -> A -> Prop) s :
  wp m (fun c a => Q (mkEnv (set_failure c (th s)) (rq s)) a) (failure_cache_ (th s)) ->
  wp (on_failure m) Q s.
Proof. unfold wpx, on_failure. by destruct (m _) as [r [a|e|c]]. Qed.

Lemma wp_get k now (Q : C -> option string -> Prop) c :
  cache_usable c -> (forall c', same_cache c c' -> Q c' (cache_lookup c now k)) ->
  wp (cache_get k now) Q c.
Proof.
  intros Hc HQ. destruct (cache_get_law k now c Hc) as (c' & Hg & Hv & Hl).
  pose proof (cache_get_room k now c) as Hr. unfold wpx. rewrite Hg in *.
  apply HQ. split; [split; [by apply cache_valid_usable|done]|done].
Qed.

Lemma wp_put k v x now (Q : C -> bool -> Prop) c :
  cache_usable c -> (forall c' added, written now k v x c c' -> Q c' added) ->
  wp (cache_put k v x now) Q c.
Proof.
  intros Hc HQ. destruct (cache_put_law k v x now c Hc) as (c' & b & Hg & Hv & Ho & Ha).
  pose proof (cache_put_room k v x now c) as Hr. pose proof (cache_put_accepts k v x now c Hc) as Hacc.
  unfold wpx. rewrite Hg in *. apply HQ. split; [split; [by apply cache_valid_usable|done]|]. split; [done|].
  intros Hfit Hlive. apply Ha. specialize (Hacc Hfit Hlive). simpl in Hacc. congruence.
Qed.

Lemma same_cache_refl c : cache_usable c -> same_cache c c.
Proof. by split. Qed.

Lemma same_cache_trans c1 c2 c3 : same_cache c1 c2 -> same_cache c2 c3 -> same_cache c1 c3.
Proof. intros [[_ R1] H1] [[? R2] H2]. split; [split; [done|congruence]|]. intros. by rewrite H2, H1. Qed.

Lemma written_same now k v x c1 c2 c3 : same_cache c1 c2 -> written now k v x c2 c3 -> written now k v x c1 c3.
Proof.
  intros [[_ R1] H1] ([Hu R2] & Ho & Ha). split; [split; [done|congruence]|]. unfold cache_fits in *. rewrite <- R1.
  split; [|done]. intros now' k' Hk. rewrite <- H1. by apply Ho.
Qed.

(** A request handed on by [fetch]. *)
Definition same_request r r' : Prop :=
  key_ r' = key_ r /\ requested_size_ r' = requested_size_ r /\ timeout_ r' = timeout_ r.

Definition good_image (img : Image P) : Prop := exists q a, img = mkImage (Some q) a.

(** What [fetch] can report for a local or a remote request. *)
Definition data_ok (is_rem : bool) d : Prop :=
  data_location d = (if is_rem then remote else local) /\
  match data_status d with
  | downloaded => good_image (data_image d)
  | hard_error | not_found | needs_download => True
  | temporary_error | timeout | network_down => is_rem = true
  | _ => False
  end.

Lemma wp_guarded {S A} (m : M S A) (g : exn -> S -> S) (v : A) (Q : S -> A -> Prop) (s : S) :
  match m s with
  | (s', Ok a) => Q s' a
  | (s', Throw e) => is_std e = true /\ Q (g e s') v
  | (_, Crash _) => False
  end -> wp (noexcept (catch_std m (fun e => _ ← modify (g e); mret v))) Q s.
Proof.
  unfold wpx, noexcept, catch_std, catchM. destruct (m s) as [s' [a|e|c]]; try done.
  intros [-> HQ]. done.
Qed.

Lemma image_of_string_good data size :
  match image_of_string safe_strerror data size with
  | Ok img => good_image img /\
      (isValid size = true -> exists w h, image_width img = Ok w /\ image_height img = Ok h /\
         0 < w /\ 0 < h /\ fits w h size)
  | Throw e => is_std e = true
  | Crash _ => False
  end.
Proof.
  unfold image_of_string. pose proof (load_spec safe_strerror (BufferReader data true) size) as H.
  destruct (load _ _ _) as [[o a]|e|c]; [|by destruct H as [m ->]|done].
  destruct H as (q & Hq & Hf). simpl in Hq. subst o. split; [by exists q, a|]. intros Hv.
  destruct (gdk_wf q) as (? & ? & _). rewrite image_width_Some, image_height_Some. eauto 10.
Qed.

Lemma image_of_fd_good fd size :
  match image_of_fd safe_strerror fd size with
  | Ok img => good_image img | Throw e => is_std e = true | Crash _ => False end.
Proof.
  unfold image_of_fd. pose proof (load_spec safe_strerror (FdReader fd) size) as H.
  destruct (load _ _ _) as [[o a]|e|c]; [|by destruct H as [m ->]|done].
  destruct H as (q & Hq & _). simpl in Hq. subst o. by exists q, a.
Qed.

Lemma fetch_local_file_ok f size :
  match fetch_local_file f size with
  | Ok (Some d) => data_ok false d
  | Ok None => True
  | Throw e => is_std e = true
  | Crash _ => False
  end.
Proof.
  unfold fetch_local_file. pose proof (get_mimetype_law f) as Hm.
  destruct (get_mimetype f) as [ct|e|c]; try done; simpl.
  destruct (String.eqb_spec ct "") as [|_]; [done|]; simpl.
  destruct (starts_with "image/" ct).
  { destruct (open_file f) as [e|fd]; [done|]. pose proof (image_of_fd_good fd size) as Hi.
    by destruct (image_of_fd _ _ _) as [img|e|c]. }
  destruct (starts_with "audio/" ct); [|by destruct (starts_with "video/" ct)].
  pose proof (extract_local_album_art_law f) as Ha.
  destruct (extract_local_album_art f) as [art|e|c]; try done; simpl.
  destruct (negb _); [|done]. pose proof (image_of_string_good art invalid_size) as Hi.
  destruct (image_of_string _ _ _) as [img|e|c]; try done. by destruct Hi.
Qed.

Lemma wp_local_fetch f ext size Q r :
  match ext with
  | Some x => ImageExtractor.error_ x <> "" \/ ImageExtractor.read_called_ x = false
  | None => True end ->
  (forall r' d, same_request r r' -> data_ok false d -> Q r' d) ->
  wp (local_fetch f ext size) Q r.
Proof.
  intros Hready HQ. unfold local_fetch. apply wp_guarded. destruct ext as [x|].
  - unfold read_extracted, mbind at 1, M_bind at 1.
    assert (Hx : match ImageExtractor.read x with
      | (_, Ok _) => True | (_, Throw e) => is_std e = true | (_, Crash _) => False end).
    { unfold ImageExtractor.read. destruct (ImageExtractor.error_ x) eqn:Hxe; [|done].
      destruct Hready as [?|Hr]; [done|]. by rewrite Hr. }
    destruct (ImageExtractor.read x) as [x' [bytes|e|c]]; try done; simpl.
    + pose proof (image_of_string_good bytes invalid_size) as Hi.
      destruct (image_of_string _ _ _) as [img|e|c]; try done.
      * destruct Hi as [Hi _]. by apply HQ.
      * split; [done|]. by apply HQ.
    + split; [done|]. by apply HQ.
  - pose proof (fetch_local_file_ok f size) as Hf. unfold lift, mbind at 1, M_bind at 1.
    destruct (fetch_local_file f size) as [[d|]|e|c]; try done; simpl.
    + by apply HQ.
    + by apply HQ.
    + split; [done|]. by apply HQ.
Qed.

Lemma wp_common_fetch o Q r :
  match o with Some reply => reply_status reply <> reply_not_finished | None => True end ->
  (forall r' d, same_request r r' -> data_ok true d -> Q r' d) ->
  wp (common_fetch o) Q r.
Proof.
  intros Hready HQ. unfold common_fetch, wp, noexcept. destruct o as [[st msg data]|]; simpl in *.
  2: { by apply HQ. }
  destruct st; try done; simpl; try (by apply HQ).
  pose proof (image_of_string_good data invalid_size) as Hi.
  unfold catch_std, catchM, mbind, M_bind, lift. simpl.
  destruct (image_of_string _ _ _) as [img|e|c]; try done; simpl.
  - destruct Hi as [Hi _]. by apply HQ.
  - rewrite Hi. simpl. by apply HQ.
Qed.

Lemma wp_fetch size Q r :
  request_ready r -> (forall r' d, same_request r r' -> data_ok (is_remote r) d -> Q r' d) ->
  wp (fetch size) Q r.
Proof.
  unfold request_ready, is_remote, fetch. intros Hr HQ. apply wp_bind, wp_getS.
  destruct (source_ r) as [f x|a b o|a b o].
  - by apply wp_local_fetch.
  - apply wp_common_fetch; [by destruct o|done].
  - apply wp_common_fetch; [by destruct o|done].
Qed.

Lemma encode_ok (img : Image P) quality :
  good_image img -> 0 <= quality <= 100 ->
  match jpeg_or_png_data img quality with
  | Ok _ => True | Throw e => is_std e = true | Crash _ => False end.
Proof.
  intros (q & a & ->) Hq. unfold jpeg_or_png_data, jpeg_data, png_data. simpl.
  destruct a; simpl; [by destruct (gdk_save_to_buffer _ _ _ _)|].
  rewrite Z.gtb_ltb. destruct (Z.ltb_spec quality 0), (Z.ltb_spec 100 quality); try lia.
  simpl. by destruct (gdk_save_to_buffer _ _ _ _).
Qed.

Lemma wp_store_thumbnail sized (img : Image P) target now (Q : env -> string -> Prop) s :
  cache_usable (thumbnail_cache_ (th s)) -> good_image img ->
  (exists w h, image_width img = Ok w /\ image_height img = Ok h /\ 0 < w /\ 0 < h /\ fits w h target) ->
  (forall c' (dat : string), thumbnail_of target dat ->
     written now sized dat no_expiry (thumbnail_cache_ (th s)) c' ->
     Q (mkEnv (set_thumb c' (th s)) (rq s)) dat) ->
  wp (store_thumbnail sized img now) Q s.
Proof.
  intros Hu Hg (w & h & Hw & Hh & Hf) HQ. unfold store_thumbnail. apply wp_bind, wp_lift.
  pose proof (encode_ok img DEFAULT_QUALITY Hg ltac:(unfold DEFAULT_QUALITY; lia)) as He.
  destruct (jpeg_or_png_data img DEFAULT_QUALITY) as [data|e|c] eqn:Hd; try done.
  apply wp_bind, wp_on_thumb, wp_put; [done|]. intros c' added Hw'. apply wp_ret.
  apply HQ; [|done]. by exists img, w, h.
Qed.

(** A good image scales to a good image within a valid size. *)
Lemma scale_good (img : Image P) size :
  good_image img -> isValid size = true ->
  exists img', scale img size = Ok img' /\ good_image img' /\
    exists w h, image_width img' = Ok w /\ image_height img' = Ok h /\ 0 < w /\ 0 < h /\ fits w h size.
Proof.
  intros (q & a & ->) Hv. destruct (scale_cases q a size Hv) as [[Hf Hs]|(_ & q' & Hs & Hf)];
    rewrite Hs; eexists; (split; [done|]); (split; [by eexists _, _|]);
    rewrite image_width_Some, image_height_Some; do 2 eexists; split_and!; try done; apply gdk_wf.
Qed.

Lemma good_dims (img : Image P) :
  good_image img -> exists w h, image_width img = Ok w /\ image_height img = Ok h.
Proof. intros (q & a & ->). rewrite image_width_Some, image_height_Some. eauto. Qed.

Lemma wp_keep_fullsize d now (Q : env -> Image P -> Prop) s :
  usable (th s) -> good_image (data_image d) ->
  (forall c' img, good_image img ->
     same_cache (full_size_cache_ (th s)) c' \/
       (exists v, written now (key_ (rq s)) v no_expiry (full_size_cache_ (th s)) c') ->
     Q (mkEnv (set_full c' (th s)) (rq s)) img) ->
  wp (keep_fullsize d now) Q s.
Proof.
  intros Hu Hg HQ. unfold keep_fullsize. destruct (data_policy d).
  2: { apply wp_ret. specialize (HQ (full_size_cache_ (th s)) (data_image d) Hg).
       destruct s as [[] ?]. apply HQ. left. apply same_cache_refl, Hu. }
  apply wp_bind, wp_getS. destruct (good_dims _ Hg) as (w & h & Hw & Hh).
  apply wp_bind, wp_lift. rewrite Hw. apply wp_bind, wp_lift. rewrite Hh. apply wp_bind.
  assert (Hrest : forall img, good_image img ->
    wp (data ← lift (jpeg_or_png_data img 90);
        _ ← on_full (cache_put (key_ (rq s)) data no_expiry now); mret img) Q s).
  { intros img Hi. apply wp_bind, wp_lift. pose proof (encode_ok img 90 Hi ltac:(lia)) as He.
    destruct (jpeg_or_png_data img 90) as [data|e|c]; try done.
    apply wp_bind, wp_on_full, wp_put; [apply Hu|]. intros c' added Hc. apply wp_ret, HQ; eauto. }
  destruct (Z.max w h >? max_size_ (th s)).
  - destruct (scale_good (data_image d) (mkSize (max_size_ (th s)) (max_size_ (th s))) Hg) as (img & Hs & Hi & _).
    { apply isValid_spec. simpl. destruct Hu. lia. }
    apply wp_lift. rewrite Hs. by apply Hrest.
  - by apply wp_ret, Hrest.
Qed.

(** The clamped size of a valid request is positive and within the limits. *)
Lemma target_size_spec size m :
  isValid size = true -> 0 < m ->
  let t := target_size_of size m in
  0 < width t <= m /\ 0 < height t <= m /\
  (width size <> 0 -> width t <= width size) /\ (height size <> 0 -> height t <= height size).
Proof.
  intros [Hw Hh]%isValid_spec Hm. unfold target_size_of, setWidth, setHeight. destruct size as [w h]; simpl in *.
  destruct (Z.eqb_spec w 0), (Z.eqb_spec h 0); simpl; lia.
Qed.

(** The part of the environment the last part of the look-up starts from. *)
Record looked_up (now : Z) s s1 : Prop := mkLooked {
  lk_usable : usable (th s1);
  lk_config : same_config (th s) (th s1);
  lk_backoff : backoff_ (th s1) = backoff_ (th s);
  lk_full : same_cache (full_size_cache_ (th s)) (full_size_cache_ (th s1));
  lk_thumb : same_cache (thumbnail_cache_ (th s)) (thumbnail_cache_ (th s1));
  lk_failure : same_cache (failure_cache_ (th s)) (failure_cache_ (th s1));
  lk_request : same_request (rq s) (rq s1)
}.

(** The result of a call, with what no call changes. *)
Definition answer (now : Z) s s' (dat : string) : Prop :=
  served now s s' dat /\ same_config (th s) (th s') /\ same_request (rq s) (rq s').

Lemma answer_of now s s1 (t : Thumbnailer C) r dat :
  looked_up now s s1 -> same_config (th s1) t -> same_request (rq s1) r ->
  served now s (mkEnv t r) dat -> answer now s (mkEnv t r) dat.
Proof.
  intros [_ (Hm & Hh & Ht) _ _ _ _ (Hk & Hs & Hto)] (Hm' & Hh' & Ht') (Hk' & Hs' & Hto') Hans. unfold answer, same_config, same_request.
  simpl. split_and!; done || congruence.
Qed.

(** A failure that has been remembered. *)
Lemma wp_remembered d now s s1 c' :
  looked_up now s s1 -> missed now s -> status_ (rq s1) = data_status d -> data_status d = not_found \/ data_status d = hard_error ->
  written now (key_ (rq s1)) "" (failure_expiry now (retry_not_found_hours_ (th s1)) (data_status d) (is_remote (rq s)))
    (failure_cache_ (th s1)) c' ->
  wp (_ ← reset_backoff (if is_remote (rq s) then remote else local) now; mret "") (answer now s)
     (mkEnv (set_failure c' (th s1)) (rq s1)).
Proof.
  intros HL Hmiss Hst Hor Hw. pose proof HL as [Hu (Hm & Hh & _) Hb Hf Ht Hx (Hk & _)]. rewrite Hh, Hk, <- Hst in Hw. rewrite <- Hst in Hor.
  assert (Hans : forall t, failure_cache_ t = c' -> full_size_cache_ t = full_size_cache_ (th s1) ->
    thumbnail_cache_ t = thumbnail_cache_ (th s1) -> same_config (th s1) t ->
    answer now s (mkEnv t (rq s1)) "").
  { intros t Ht1 Ht2 Ht3 Hct. eapply answer_of; [exact HL|done|done|].
    apply (served_failure now s (mkEnv t (rq s1)) ""); simpl; rewrite ?Ht1, ?Ht2, ?Ht3; try done.
    by eapply written_same. }
  apply wp_bind. destruct (is_remote (rq s)); (apply wp_modify || apply wp_ret); apply wp_ret; by apply Hans.
Qed.

Lemma wp_after_failure d now s s1 :
  looked_up now s s1 -> missed now s -> data_ok (is_remote (rq s)) d -> data_status d <> downloaded ->
  status_ (rq s1) = data_status d ->
  wp (after_failure d now) (answer now s) s1.
Proof.
  intros HL Hmiss [Hl Hd] Hn Hst. pose proof HL as [Hu (Hm & Hh & _) Hb Hf Ht Hx (Hk & _)].
  unfold after_failure. apply wp_bind, wp_getS. cbn zeta. rewrite Hl.
  assert (Htr : forall r b, same_request (rq s1) r -> is_transient (status_ r) = true ->
    (status_ r <> needs_download -> is_remote (rq s) = true) ->
    (status_ r = needs_download -> is_remote (rq s) = true -> Backoff.retry_ok (backoff_ (th s)) now = true) ->
    answer now s (mkEnv (set_backoff b (th s1)) r) "").
  { intros r b Hsr Htr Hrem Hok. eapply answer_of; [exact HL|done|done|]. by apply served_transient. }
  assert (Hsame : mkEnv (set_backoff (backoff_ (th s1)) (th s1)) (rq s1) = s1) by (by destruct s1 as [[] ?]).
  destruct (data_status d) eqn:Hds; try done.
  - (* needs_download *)
    destruct (is_remote (rq s)) eqn:Hr.
    + destruct (Backoff.retry_ok (backoff_ (th s1)) now) eqn:Hok; simpl.
      * apply wp_ret. rewrite <- Hsame. apply Htr; rewrite ?Hst; try done. by rewrite <- Hb.
      * apply wp_bind, wp_on_request, wp_modify, wp_ret.
        replace (th s1) with (set_backoff (backoff_ (th s1)) (th s1)) by (by destruct s1 as [[] ?]).
        by apply Htr.
    + apply wp_ret. rewrite <- Hsame. by apply Htr; rewrite ?Hst.
  - (* not_found *)
    apply wp_bind, wp_on_failure, wp_put; [apply Hu|]. intros c' added Hw.
    apply (wp_remembered d); rewrite ?Hds; auto. by destruct (is_remote (rq s)).
  - apply wp_ret. rewrite <- Hsame. by apply Htr; rewrite ?Hst.
  - (* temporary_error *)
    rewrite Hd. simpl. apply wp_bind, wp_lift. simpl. apply wp_bind, wp_modify, wp_ret.
    by apply Htr; rewrite ?Hst.
  - (* hard_error *)
    apply wp_bind, wp_on_failure, wp_put; [apply Hu|]. intros c' added Hw.
    apply (wp_remembered d); rewrite ?Hds; auto.
  - rewrite Hd. simpl. apply wp_bind, wp_lift. simpl. apply wp_ret.
    rewrite <- Hsame. by apply Htr; rewrite ?Hst.
Qed.

Lemma looked_up_refl now s : usable (th s) -> looked_up now s s.
Proof. intros []. by repeat split. Qed.

Lemma usable_set_backoff b t : usable t -> usable (set_backoff b t).
Proof. by intros []. Qed.

Lemma wp_fetch_and_scale now s s1 :
  looked_up now s s1 -> rq s1 = rq s -> request_ready (rq s) -> isValid (requested_size_ (rq s)) = true ->
  missed now s ->
  wp (fetch_and_scale (target_of s) (sized_of s) now) (answer now s) s1.
Proof.
  intros HL Hrq Hready Hv Hmiss. pose proof HL as [Hu Hc Hb Hf Ht Hx Hr]. unfold fetch_and_scale.
  apply wp_bind, wp_getS, wp_bind, wp_on_failure, wp_get; [apply Hu|]. intros cf Hcf.
  rewrite Hrq. destruct (cache_lookup _ now (key_ (rq s))) as [v|] eqn:Hlk.
  { apply wp_bind, wp_on_request, wp_modify, wp_ret. eapply answer_of; [exact HL|done|by rewrite Hrq|].
    apply served_cached_failure; simpl; try done.
    - destruct Hx as [_ Hx]. rewrite <- Hx, Hlk. done.
    - by eapply same_cache_trans. }
  apply wp_bind, wp_on_request, wp_fetch; [done|]. simpl. intros r' d Hr' Hd.
  apply wp_bind, wp_on_request, wp_modify. simpl.
  set (s2 := mkEnv _ (set_status _ r')).
  assert (HL2 : looked_up now s s2).
  { constructor; simpl; try done; [|by eapply same_cache_trans].
    destruct Hu, Hcf as [[] _]. by constructor. }
  destruct (data_status d) eqn:Hds;
    try (apply wp_after_failure; [done|done|done|congruence|by rewrite Hds]).
  destruct Hd as [_ Hd]. rewrite Hds in Hd. apply wp_bind.
  assert (Hrest : forall b, wp (image ← keep_fullsize d now; scaled_image ← lift (scale image (target_of s));
    store_thumbnail (sized_of s) scaled_image now) (answer now s) (mkEnv (set_backoff b (th s2)) (rq s2))).
  { intros b. destruct HL2 as [Hu2 _ _ Hf2 Ht2 Hx2 (Hk2 & _)].
    apply wp_bind, wp_keep_fullsize; [by apply usable_set_backoff|done|]. intros c' img Hi Hw.
    destruct (target_size_spec (requested_size_ (rq s)) (max_size_ (th s)) Hv) as (Htw & Hth & _).
    { destruct Hc as [<- _]. by destruct Hu. }
    destruct (scale_good img (target_of s) Hi) as (img' & Hs & Hi' & Hdim).
    { apply isValid_spec. unfold target_of. lia. }
    apply wp_bind, wp_lift. rewrite Hs. eapply wp_store_thumbnail; [apply Hu2|done|exact Hdim|].
    intros ct dat Hof Hwt. eapply answer_of; [exact HL|done|by rewrite Hrq|].
    simpl in *. rewrite Hk2 in Hw.
    destruct Hw as [Hw|(v & Hw)].
    - eapply (served_image now s _ dat ""); simpl; try done; [by right|apply Hmiss| |by eapply written_same].
      left. by eapply same_cache_trans.
    - eapply (served_image now s _ dat v); simpl; try done; [by right|apply Hmiss| |by eapply written_same].
      right. by eapply written_same. }
  destruct (data_location d); (apply wp_modify || apply wp_ret).
  - specialize (Hrest (backoff_ (th s2))). unfold s2 in *. by destruct (th s1).
  - apply Hrest.
Qed.

(** Everything [thumbnail()] can do. *)
Lemma wp_thumbnail_body now s :
  usable (th s) -> request_ready (rq s) -> wp (thumbnail_body now) (answer now s) s.
Proof.
  intros Hu Hready. unfold thumbnail_body. apply wp_bind, wp_getS. cbn zeta.
  destruct (isValid (requested_size_ (rq s))) eqn:Hv; [|done]. simpl negb. cbv iota.
  fold (target_of s). change (thumb_key (rq s) (target_of s)) with (sized_of s).
  apply wp_bind, wp_on_thumb, wp_get; [apply Hu|]. intros ct Hct.
  destruct (cache_lookup _ now (sized_of s)) as [data|] eqn:Hhit.
  { apply wp_bind, wp_on_request, wp_modify, wp_ret.
    eapply answer_of; [by apply looked_up_refl|done|done|]. apply served_hit; try done.
    - apply same_cache_refl, Hu. - apply same_cache_refl, Hu. }
  apply wp_bind, wp_on_full, wp_get; [apply Hu|]. intros cf Hcf. simpl.
  destruct (cache_lookup (full_size_cache_ _) now _) as [data|] eqn:Hfull.
  - apply wp_bind, wp_on_request, wp_modify, wp_bind, wp_lift.
    pose proof (image_of_string_good data (target_of s)) as Hi.
    destruct (image_of_string _ _ _) as [img|e|c]; try done. destruct Hi as [Hi Hdim].
    destruct (target_size_spec (requested_size_ (rq s)) (max_size_ (th s)) Hv (us_max _ Hu)) as (Htw & Hth & _).
    eapply wp_store_thumbnail; [apply Hct|done|apply Hdim, isValid_spec; unfold target_of; lia|].
    intros c' dat Hof Hw. eapply answer_of; [by apply looked_up_refl|done|done|].
    apply (served_image now s _ dat ""); simpl; try done; [by left|by left| |apply same_cache_refl, Hu].
    by eapply written_same.
  - apply wp_fetch_and_scale; try done. constructor; simpl; try done.
    + destruct Hu. constructor; simpl; try done; [apply Hcf|apply Hct].
    + apply same_cache_refl, Hu.
Qed.

Lemma thumbnail_answer now s :
  usable (th s) -> request_ready (rq s) ->
  match thumbnail now s with
  | (s', Ok dat) => answer now s s' dat
  | (_, Throw e) => exists msg caught, e = unity_nested "unity::ResourceException" msg caught
  | (_, Crash _) => False
  end.
Proof.
  intros Hu Hr. pose proof (wp_thumbnail_body now s Hu Hr) as H. unfold wpx in H.
  unfold thumbnail, catch_std, catchM. destruct (thumbnail_body now s) as [s' [dat|e|c]]; try done.
  rewrite H. simpl. by eexists _, _.
Qed.

Lemma answer_usable now s s' dat : usable (th s) -> answer now s s' dat -> usable (th s').
Proof.
  intros [_ _ _ Hm] (Hs & (Hmax & _) & _). rewrite <- Hmax in Hm.
  destruct Hs as [? ? [[]] [[]] [[]]|? ? ? ? [[[]]|[[]]] [[]] [[]]|? ? ? [[]] [[]] [[]]|? ? [[]] [[]] [[]]|? ? [[]] [[]] [[]]]; by constructor.
Qed.

(** A stored thumbnail is returned. *)
Lemma thumbnail_hit now s dat :
  usable (th s) -> isValid (requested_size_ (rq s)) = true ->
  cache_lookup (thumbnail_cache_ (th s)) now (sized_of s) = Some dat ->
  exists s', thumbnail now s = (s', Ok dat) /\ status_ (rq s') = cache_hit /\
    source_ (rq s') = source_ (rq s).
Proof.
  intros Hu Hv Hl. destruct (cache_get_law (sized_of s) now _ (us_thumb _ Hu)) as (c & Hg & _).
  unfold thumbnail, catch_std, catchM, thumbnail_body, mbind at 1, M_bind at 1, getS. rewrite Hv. simpl.
  change (thumb_key _ _) with (sized_of s). unfold on_thumb, mbind at 1, M_bind at 1.
  rewrite Hg, Hl. simpl. eexists. by split_and!.
Qed.

(** A recorded failure is answered without fetching anything. *)
Lemma thumbnail_cached_failure now s v :
  usable (th s) -> isValid (requested_size_ (rq s)) = true ->
  cache_lookup (thumbnail_cache_ (th s)) now (sized_of s) = None ->
  cache_lookup (full_size_cache_ (th s)) now (key_ (rq s)) = None ->
  cache_lookup (failure_cache_ (th s)) now (key_ (rq s)) = Some v ->
  exists s', thumbnail now s = (s', Ok "") /\ status_ (rq s') = cached_failure /\
    source_ (rq s') = source_ (rq s).
Proof.
  intros Hu Hv Hl1 Hl2 Hl3.
  destruct (cache_get_law (sized_of s) now _ (us_thumb _ Hu)) as (c1 & Hg1 & _).
  destruct (cache_get_law (key_ (rq s)) now _ (us_full _ Hu)) as (c2 & Hg2 & _).
  destruct (cache_get_law (key_ (rq s)) now _ (us_failure _ Hu)) as (c3 & Hg3 & _).
  unfold thumbnail, catch_std, catchM, thumbnail_body, mbind at 1, M_bind at 1, getS. rewrite Hv. simpl.
  change (thumb_key _ _) with (sized_of s). unfold on_thumb, mbind at 1, M_bind at 1.
  rewrite Hg1, Hl1. simpl. unfold on_full, mbind at 1, M_bind at 1. simpl. rewrite Hg2, Hl2. simpl.
  unfold fetch_and_scale, mbind at 1, M_bind at 1, getS, on_failure, mbind at 1, M_bind at 1. simpl.
  rewrite Hg3, Hl3. simpl. eexists. by split_and!.
Qed.

(** The requests of one key and size look in the same place. *)
Lemma sized_of_same (t t' : Thumbnailer C) r r' :
  same_config t t' -> key_ r' = key_ r -> requested_size_ r' = requested_size_ r ->
  sized_of (mkEnv t' r') = sized_of (mkEnv t r).
Proof. intros (Hm & _) Hk Hs. unfold sized_of, thumb_key. simpl. by rewrite Hm, Hk, Hs. Qed.

(** [c'] is [c] after a look-up. *)
Definition looked (c c' : C) : Prop :=
  cache_valid c' /\ forall now k, cache_lookup c' now k = cache_lookup c now k.

(** One restored number: absent, or read back. *)
Lemma contains_eq (key : string) now t : cache_valid (failure_cache_ t) ->
  exists c', looked (failure_cache_ t) c' /\
    on_failures (cache_contains_key key now) t =
      (set_failure c' t, Ok (bool_decide (is_Some (cache_lookup (failure_cache_ t) now key)))).
Proof.
  intros Hv. destruct (cache_contains_law key now _ Hv) as (c & Hc & Hv' & Hl). exists c.
  split; [done|]. unfold on_failures. by rewrite Hc.
Qed.

Lemma restore_number_eq key now n t :
  cache_valid (failure_cache_ t) -> LLONG_MIN <= n <= LLONG_MAX ->
  cache_lookup (failure_cache_ t) now key = Some (to_string n) ->
  exists c', looked (failure_cache_ t) c' /\ restore_number key now t = (set_failure c' t, Ok n).
Proof.
  intros Hv Hn Hl. destruct (cache_get_law key now _ (cache_valid_usable _ Hv)) as (c & Hg & Hv' & Hl').
  exists c. split; [done|]. unfold restore_number, mbind, M_bind, on_failures, lift. rewrite Hg, Hl.
  by rewrite stoll_to_string.
Qed.

Lemma restore_fail_time_eq now n t :
  cache_valid (failure_cache_ t) -> LLONG_MIN <= n * Backoff.NS_PER_SEC <= LLONG_MAX ->
  cache_lookup (failure_cache_ t) now LAST_NETWORK_FAIL_TIME_KEY = Some (to_string n) \/
    cache_lookup (failure_cache_ t) now LAST_NETWORK_FAIL_TIME_KEY = None ->
  exists c', looked (failure_cache_ t) c' /\ restore_fail_time now t =
    (set_backoff (match cache_lookup (failure_cache_ t) now LAST_NETWORK_FAIL_TIME_KEY with
                  | Some _ => Backoff.set_last_fail_time (n * Backoff.NS_PER_SEC) (backoff_ t)
                  | None => backoff_ t
                  end) (set_failure c' t), Ok tt).
Proof.
  intros Hv Hn Hl. destruct (contains_eq LAST_NETWORK_FAIL_TIME_KEY now t Hv) as (c1 & [Hv1 Hl1] & Hc).
  unfold restore_fail_time, mbind at 1, M_bind at 1. rewrite Hc.
  assert (Hn' : LLONG_MIN <= n <= LLONG_MAX).
  { unfold LLONG_MIN, LLONG_MAX, Backoff.NS_PER_SEC in *. lia. }
  destruct Hl as [Hl|Hl]; rewrite Hl.
  - rewrite bool_decide_true by done.
    destruct (restore_number_eq LAST_NETWORK_FAIL_TIME_KEY now n (set_failure c1 t)) as (c2 & [Hv2 Hl2] & Hr);
      [done|done|simpl; by rewrite Hl1|]. exists c2. split; [split; [done|]; intros; by rewrite Hl2; simpl|].
    unfold mbind, M_bind, lift. rewrite Hr. unfold of_seconds. cbn zeta.
    destruct Hn as [Hn1 Hn2]. apply Z.leb_le in Hn1, Hn2. by rewrite Hn1, Hn2.
  - rewrite bool_decide_false by (by intros []). exists c1. split; [done|]. by destruct t.
Qed.

Lemma restore_backoff_period_eq now n t :
  cache_valid (failure_cache_ t) -> LLONG_MIN <= n <= LLONG_MAX ->
  cache_lookup (failure_cache_ t) now BACKOFF_PERIOD_KEY = Some (to_string n) ->
  exists c', looked (failure_cache_ t) c' /\ restore_backoff_period now t =
    match Backoff.set_backoff_period n (backoff_ t) with
    | Ok b => (set_backoff b (set_failure c' t), Ok tt)
    | Throw e => (set_failure c' t, Throw e)
    | Crash f => (set_failure c' t, Crash f)
    end.
Proof.
  intros Hv Hn Hl. destruct (contains_eq BACKOFF_PERIOD_KEY now t Hv) as (c1 & [Hv1 Hl1] & Hc).
  destruct (restore_number_eq BACKOFF_PERIOD_KEY now n (set_failure c1 t)) as (c2 & [Hv2 Hl2] & Hr);
    [done|done|simpl; by rewrite Hl1|]. exists c2. split; [split; [done|]; intros; by rewrite Hl2; simpl|].
  unfold restore_backoff_period, mbind, M_bind, getS, lift, modify. rewrite Hc, Hl, bool_decide_true by done.
  rewrite Hr. simpl. by destruct (Backoff.set_backoff_period n (backoff_ t)).
Qed.

Lemma on_cache_invalidate i t :
  usable t -> exists t', on_cache cache_invalidate i t = (t', Ok tt) /\ usable t' /\ same_config t t' /\
    backoff_ t' = backoff_ t /\
    forall j now k, cache_lookup (get_cache j t') now k =
      if decide (j = i) then None else cache_lookup (get_cache j t) now k.
Proof.
  intros [H1 H2 H3 Hm]. unfold on_cache.
  destruct i; [destruct (cache_invalidate_law _ H1) as (c & -> & Hv & Hl)
              |destruct (cache_invalidate_law _ H2) as (c & -> & Hv & Hl)
              |destruct (cache_invalidate_law _ H3) as (c & -> & Hv & Hl)];
    (eexists; split; [done|]; split; [constructor; simpl; auto using cache_valid_usable|];
     split; [done|]; split; [done|]; intros [] now k; simpl; done).
Qed.

Lemma for_each_invalidate l t :
  usable t -> exists t', for_each cache_invalidate l t = (t', Ok tt) /\ usable t' /\ same_config t t' /\
    backoff_ t' = backoff_ t /\
    forall j now k, cache_lookup (get_cache j t') now k =
      if decide (j ∈ l) then None else cache_lookup (get_cache j t) now k.
Proof.
  revert t. induction l as [|i l IH]; intros t Hu.
  { exists t. split_and!; try done. }
  destruct (on_cache_invalidate i t Hu) as (t1 & H1 & Hu1 & (Hm & Hh & He) & Hb1 & Hl1).
  destruct (IH t1 Hu1) as (t2 & H2 & Hu2 & (Hm' & Hh' & He') & Hb2 & Hl2).
  exists t2. simpl. unfold mbind, M_bind. rewrite H1. split; [done|]. split; [done|].
  split; [unfold same_config; by rewrite Hm', Hh', He'|]. split; [by rewrite Hb2|].
  intros j now k. rewrite Hl2, Hl1.
  destruct (decide (j ∈ l)) as [Hj|Hj], (decide (j = i)) as [Hji|Hji], (decide (j ∈ i :: l)) as [Hc|Hc];
    try done; exfalso; set_solver.
Qed.

(** ** Properties *)

(** C18. [thumbnail()] on usable caches, for a request whose download (if any)
    has completed, never aborts, never fails an assertion and lets no exception
    but a ResourceException escape; the caches stay usable. *)
Theorem thumbnail_never_crashes now s :
  usable (th s) -> request_ready (rq s) ->
  match thumbnail now s with
  | (s', Ok _) => usable (th s')
  | (_, Throw e) => exists msg caught, e = unity_nested "unity::ResourceException" msg caught
  | (_, Crash _) => False
  end.
Proof.
  intros Hu Hr. pose proof (thumbnail_answer now s Hu Hr) as H.
  destruct (thumbnail now s) as [s' [dat|e|c]]; try done. by eapply answer_usable.
Qed.

(** C21. Transient results leave no trace: when the artwork still has to be
    downloaded, the network is down, or a download timed out or failed
    temporarily, the result is empty and every cache answers as before, so the
    next request tries again.  Only remote requests end in a temporary failure,
    and a remote request is told to download only when the backoff allows it. *)
Theorem thumbnail_transient now s s' dat :
  usable (th s) -> request_ready (rq s) -> thumbnail now s = (s', Ok dat) ->
  is_transient (status_ (rq s')) = true ->
  dat = "" /\
  (forall now' k,
     cache_lookup (full_size_cache_ (th s')) now' k = cache_lookup (full_size_cache_ (th s)) now' k /\
     cache_lookup (thumbnail_cache_ (th s')) now' k = cache_lookup (thumbnail_cache_ (th s)) now' k /\
     cache_lookup (failure_cache_ (th s')) now' k = cache_lookup (failure_cache_ (th s)) now' k) /\
  (status_ (rq s') <> needs_download -> is_remote (rq s) = true) /\
  (status_ (rq s') = needs_download -> is_remote (rq s) = true ->
     Backoff.retry_ok (backoff_ (th s)) now = true).
Proof.
  intros Hu Hr Ht Hst. pose proof (thumbnail_answer now s Hu Hr) as H. rewrite Ht in H.
  destruct H as (Hserved & _).
  destruct Hserved as [Hx|? [Hx|Hx]|Hx|[Hx|Hx]|? ? [_ H1] [_ H2] [_ H3] ? ?]; try (rewrite Hx in Hst; done).
  split_and!; try done.
Qed.

(** Size limits: a thumbnail that was made encodes an image at least one
    pixel wide and high, no larger than the configured maximum in either
    dimension nor than the request in any dimension the request gives. *)
Theorem thumbnail_size_bound now s s' dat :
  usable (th s) -> request_ready (rq s) -> isValid (requested_size_ (rq s)) = true ->
  thumbnail now s = (s', Ok dat) ->
  status_ (rq s') = downloaded \/ status_ (rq s') = scaled_from_fullsize ->
  exists (img : Image P) w h, jpeg_or_png_data img DEFAULT_QUALITY = Ok dat /\
    image_width img = Ok w /\ image_height img = Ok h /\
    0 < w <= max_size_ (th s) /\ 0 < h <= max_size_ (th s) /\ fits w h (requested_size_ (rq s)).
Proof.
  intros Hu Hr Hv Ht Hst. pose proof (thumbnail_answer now s Hu Hr) as H. rewrite Ht in H.
  destruct H as (Hserved & _).
  destruct Hserved as [Hx|? _ _ (img & w & h & Hd & Hw & Hh & Hpw & Hph & Hf)|Hx|[Hx|Hx]|Hx];
    try (exfalso; destruct Hst as [Hst|Hst]; rewrite Hst in Hx; done).
  destruct (target_size_spec (requested_size_ (rq s)) (max_size_ (th s)) Hv (us_max _ Hu)) as (? & ? & Htw & Hth).
  exists img, w, h. unfold fits, target_of in *. split_and!; try done; try lia.
Qed.

(** What the destructor leaves in the failure cache. *)
Lemma destroy_writes now t :
  cache_usable (failure_cache_ t) ->
  cache_fits (failure_cache_ t) LAST_NETWORK_FAIL_TIME_KEY (to_string (to_seconds (Backoff.last_fail_time_ (backoff_ t)))) ->
  cache_fits (failure_cache_ t) BACKOFF_PERIOD_KEY (to_string (Backoff.backoff_period_ (backoff_ t))) ->
  forall n,
    cache_lookup (failure_cache_ (destroy now t).1) n BACKOFF_PERIOD_KEY =
      Some (to_string (Backoff.backoff_period_ (backoff_ t))) /\
    (cache_lookup (failure_cache_ (destroy now t).1) n LAST_NETWORK_FAIL_TIME_KEY =
       Some (to_string (to_seconds (Backoff.last_fail_time_ (backoff_ t)))) \/
     cache_lookup (failure_cache_ (destroy now t).1) n LAST_NETWORK_FAIL_TIME_KEY = None).
Proof.
  intros Hu F1 F2 n. set (k1 := LAST_NETWORK_FAIL_TIME_KEY) in *. set (v1 := to_string (to_seconds _)) in *.
  set (v2 := to_string (Backoff.backoff_period_ _)) in *.
  assert (Hput : forall k v c, cache_usable c -> cache_fits c k v -> exists c',
    cache_put k v no_expiry now c = (c', Ok true) /\ cache_usable c' /\ cache_room c' = cache_room c /\
    cache_lookup c' n k = Some v /\
    forall k', k' <> k -> cache_lookup c' n k' = cache_lookup c n k' \/ cache_lookup c' n k' = None).
  { intros k v c Hc Hf. pose proof (cache_put_room k v no_expiry now c) as Hr.
    pose proof (cache_put_accepts k v no_expiry now c Hc Hf eq_refl) as Ha.
    destruct (cache_put_law k v no_expiry now c Hc) as (c' & a & Hp & Hv & Ho & Hl). rewrite Hp in *. simpl in *. injection Ha as ->.
    exists c'. split_and!; try done; [by apply cache_valid_usable|by apply Hl|intros k'; apply Ho]. }
  destruct (Hput k1 v1 _ Hu F1) as (c1 & P1 & U1 & R1 & L1 & _).
  destruct (Hput BACKOFF_PERIOD_KEY v2 c1 U1) as (c2 & P2 & _ & _ & L2 & O2); [unfold cache_fits in *; by rewrite R1|].
  assert (Hd : failure_cache_ (destroy now t).1 = c2).
  { unfold destroy, catchM, mbind, M_bind, getS, on_failures, Backoff.last_fail_time, Backoff.backoff_period.
    fold k1 v1 v2. rewrite P1. simpl. by rewrite P2. }
  rewrite Hd. split; [done|]. destruct (O2 k1 ltac:(done)) as [->|?]; [by left|by right].
Qed.

Lemma to_seconds_range z :
  LLONG_MIN <= z <= LLONG_MAX -> LLONG_MIN <= to_seconds z * Backoff.NS_PER_SEC <= LLONG_MAX.
Proof.
  unfold to_seconds, LLONG_MIN, LLONG_MAX, Backoff.NS_PER_SEC. intros Hz.
  pose proof (Z.quot_rem' z 1000000000). pose proof (Z.rem_bound_abs z 1000000000 ltac:(lia)).
  pose proof (Z.rem_sign_mul z 1000000000 ltac:(lia)). nia.
Qed.

Lemma configure_backoff_init dflt sett b :
  configure_backoff dflt sett = Ok b ->
  Backoff.last_fail_time_ b = Backoff.epoch /\ Backoff.backoff_period_ b = 0 /\ 0 < Backoff.max_backoff_ b.
Proof.
  unfold configure_backoff. intros (t & _ & (m & _ & (b1 & H1 & (mx & _ & H2)%outcome_bind_Ok)%outcome_bind_Ok)%outcome_bind_Ok)%outcome_bind_Ok.
  unfold Backoff.set_min_backoff in H1. apply outcome_bind_Ok in H1 as (u & _ & [= <-]).
  unfold Backoff.set_max_backoff in H2. apply outcome_bind_Ok in H2 as (v & Hv & (w & _ & [= <-])%outcome_bind_Ok).
  apply assert_Ok in Hv. bsimpl. done.
Qed.

Lemma configure_init dflt sett open_cache t :
  configure dflt sett open_cache = Ok t ->
  Backoff.last_fail_time_ (backoff_ t) = Backoff.epoch /\ Backoff.backoff_period_ (backoff_ t) = 0 /\
  0 < Backoff.max_backoff_ (backoff_ t).
Proof.
  unfold configure. intros H. repeat (apply outcome_bind_Ok in H as (? & ? & H)).
  injection H as <-. simpl. by eapply configure_backoff_init.
Qed.

(** Clearing everything forgets the backoff too. *)
Lemma clear_all t :
  usable t -> 0 <= Backoff.max_backoff_ (backoff_ t) ->
  exists t', clear sel_all t = (t', Ok tt) /\ usable t' /\
    (forall i now k, cache_lookup (get_cache i t') now k = None) /\ Backoff.backoff_period_ (backoff_ t') = 0.
Proof.
  intros Hu Hmax. destruct (for_each_invalidate (select_caches sel_all) t Hu) as (t1 & H1 & Hu1 & Hc & Hb & Hl).
  apply Z.leb_le in Hmax. rewrite <- Hb in Hmax. unfold clear, mbind at 1, M_bind at 1. rewrite H1.
  unfold mbind, M_bind, getS, lift, Backoff.set_backoff_period. simpl. rewrite Hmax. simpl.
  eexists. split; [done|]. split; [by apply usable_set_backoff|]. split; [|done].
  intros i now k. specialize (Hl i now k). by destruct i.
Qed.

(** C36. The backoff state survives a restart.  The destructor writes it to the failure
    cache; when the cache is then opened again with what it held, the constructor,
    upgrade actions included, ends as follows.  With the cache version unchanged the
    backoff period is the one before and the time of the last failure is the one
    before to the second - or the epoch, if storing the period evicted that entry.
    With the cache version changed every cache is empty and nothing holds back a
    retry.  If the period is longer than the maximum the new settings allow, an
    assertion fails.  The conditions: both records fit into the failure cache, the
    values are within their 64-bit types, and the settings and caches let the
    constructor get as far as restoring. *)
Theorem backoff_survives_restart dflt sett open_cache prev current now now' t t0 :
  cache_usable (failure_cache_ t) ->
  let b := backoff_ t in
  LLONG_MIN <= Backoff.last_fail_time_ b <= LLONG_MAX -> 0 <= Backoff.backoff_period_ b <= LLONG_MAX ->
  cache_fits (failure_cache_ t) LAST_NETWORK_FAIL_TIME_KEY (to_string (to_seconds (Backoff.last_fail_time_ b))) ->
  cache_fits (failure_cache_ t) BACKOFF_PERIOD_KEY (to_string (Backoff.backoff_period_ b)) ->
  configure dflt sett open_cache = Ok t0 -> usable t0 -> looked (failure_cache_ (destroy now t).1) (failure_cache_ t0) ->
  if Backoff.backoff_period_ b <=? Backoff.max_backoff_ (backoff_ t0)
  then exists t3, construct dflt sett open_cache (Ok (prev, current)) now' = Ok t3 /\ usable t3 /\
    if prev =? current
    then Backoff.backoff_period_ (backoff_ t3) = Backoff.backoff_period_ b /\
         Backoff.last_fail_time_ (backoff_ t3) =
           match cache_lookup (failure_cache_ (destroy now t).1) now' LAST_NETWORK_FAIL_TIME_KEY with
           | Some _ => to_seconds (Backoff.last_fail_time_ b) * Backoff.NS_PER_SEC
           | None => Backoff.epoch
           end
    else (forall i n k, cache_lookup (get_cache i t3) n k = None) /\
         forall n, Backoff.retry_ok (backoff_ t3) n = true
  else construct dflt sett open_cache (Ok (prev, current)) now' = Crash (AssertFailed "set_backoff_period").
Proof.
  intros Hu b Hb Hp F1 F2 Hconf Hu0 [Hv0 Hl0]. destruct (configure_init _ _ _ _ Hconf) as (Hi1 & _ & Hi3).
  destruct (destroy_writes now t Hu F1 F2 now') as [W2 W1]. fold b in W1, W2. rewrite <- Hl0 in W1, W2. rewrite <- Hl0.
  destruct (restore_fail_time_eq now' (to_seconds (Backoff.last_fail_time_ b)) t0 Hv0 (to_seconds_range _ Hb) W1)
    as (c1 & [Hv1 Hl1] & E1).
  unfold construct. rewrite Hconf. cbn [mbind outcome_bind]. unfold mbind, M_bind. rewrite E1. clear E1.
  set (b1 := match _ with Some _ => _ | None => _ end). set (t1 := set_backoff b1 (set_failure c1 t0)).
  assert (Hb1 : Backoff.max_backoff_ b1 = Backoff.max_backoff_ (backoff_ t0) /\ Backoff.last_fail_time_ b1 =
    match cache_lookup (failure_cache_ t0) now' LAST_NETWORK_FAIL_TIME_KEY with
    | Some _ => to_seconds (Backoff.last_fail_time_ b) * Backoff.NS_PER_SEC | None => Backoff.epoch end).
  { unfold b1. destruct (cache_lookup (failure_cache_ t0) now' LAST_NETWORK_FAIL_TIME_KEY); split; done || by rewrite Hi1. }
  destruct Hb1 as [Hmax Hlast].
  destruct (restore_backoff_period_eq now' (Backoff.backoff_period_ b) t1) as (c2 & [Hv2 Hl2] & E2);
    [done|unfold LLONG_MIN, LLONG_MAX in *; lia|simpl; by rewrite Hl1|].
  rewrite E2. clear E2. unfold Backoff.set_backoff_period. cbn [backoff_ t1 set_backoff].
  rewrite Hmax. destruct (Backoff.backoff_period_ b <=? _) eqn:Hle; [|done]. simpl.
  set (t2 := set_backoff _ (set_failure c2 t1)).
  assert (Hu2 : usable t2) by (destruct Hu0; constructor; simpl; try done; by apply cache_valid_usable).
  unfold apply_upgrade_actions, mbind, M_bind, lift.
  destruct (prev =? current); simpl; [by exists t2|].
  destruct (clear_all t2 Hu2) as (t3 & -> & Hu3 & He & Hz); [simpl; lia|]. exists t3. split_and!; try done.
  intros n. unfold Backoff.retry_ok. by rewrite Hz.
Qed.

(** Clearing: [clear()] succeeds, empties exactly the selected caches and
    leaves the others and the configuration alone; clearing the failure cache
    also ends the backoff, so that remote art is asked for at once. *)
Theorem clear_empties sel t :
  usable t -> 0 <= Backoff.max_backoff_ (backoff_ t) ->
  exists t', clear sel t = (t', Ok tt) /\ usable t' /\ same_config t t' /\
    (forall i now k, cache_lookup (get_cache i t') now k =
       if decide (i ∈ select_caches sel) then None else cache_lookup (get_cache i t) now k) /\
    forall now, Backoff.retry_ok (backoff_ t') now =
      if decide (failures ∈ select_caches sel) then true else Backoff.retry_ok (backoff_ t) now.
Proof.
  intros Hu Hmax. destruct (for_each_invalidate (select_caches sel) t Hu) as (t1 & H1 & Hu1 & Hc & Hb & Hl).
  unfold clear, mbind at 1, M_bind at 1. rewrite H1.
  apply Z.leb_le in Hmax. rewrite <- Hb in *.
  destruct sel; simpl; unfold mbind, M_bind, getS, lift, Backoff.set_backoff_period; simpl; rewrite ?Hmax; simpl;
    eexists; (split; [done|]); (split; [by destruct Hu1|]); (split; [done|]); (split; [|done]);
    intros i now k; rewrite <- Hl; by destruct i.
Qed.
End Spec.

Section Configuration.
Implicit Types (d : Settings.Defaults) (s : Settings.Settings).

(** The limits of the backoff: with an extraction timeout of [t] seconds and
    a retry limit of [h] hours the constructor gets a properly configured
    adjuster exactly when 4 * t <= 3600 * h.  For the other accepted settings
    (also those the settings class adjusts and warns about) an assertion
    fails and the service aborts. *)
Theorem backoff_configuration d s h t :
  Settings.get_positive_int s "retry-error-hours" (Settings.RETRY_ERROR_HOURS_DEFAULT d) = Ok h ->
  Settings.extraction_timeout d s = Ok t ->
  3600 * h <= INT_MAX -> 2 * t <= INT_MAX ->
  if 4 * t <=? 3600 * h
  then exists b, configure_backoff d s = Ok b /\ Backoff.configured b /\ Backoff.backoff_period_ b = 0 /\
         Backoff.min_backoff_ b = 2 * t /\ Backoff.max_backoff_ b = 3600 * h
  else configure_backoff d s = Crash (AssertFailed "set_max_backoff").
Proof.
  intros Hh Ht Hh3 Ht2. pose proof (Settings.get_positive_int_pos _ _ _ _ Hh) as Hph.
  pose proof (Settings.get_positive_int_pos _ _ _ _ Ht) as Hpt.
  assert (Hi : forall z, 0 < z <= INT_MAX -> int_ok z = true).
  { intros z. unfold INT_MAX. intros. apply int_ok_spec. lia. }
  unfold configure_backoff. rewrite Ht. simpl. unfold as_int. rewrite (Hi (t * 2)) by lia. simpl.
  unfold Backoff.set_min_backoff. simpl. destruct (Z.ltb_spec 0 (t * 2)); [|lia]. simpl.
  unfold Settings.retry_error_max_seconds. rewrite Hh, Ht. unfold as_int.
  cbn [mbind outcome_bind]. rewrite (Hi (2 * t)) by lia. cbn [mbind outcome_bind].
  rewrite narrow_int_id by (apply Hi; case_goal; bsimpl; lia).
  unfold Backoff.set_max_backoff. cbn [Backoff.min_backoff_].
  destruct (Z.leb_spec (4 * t) (3600 * h)), (Z.ltb_spec (h * 3600) (2 * t)); try lia.
  - destruct (Z.ltb_spec 0 (h * 3600)), (Z.leb_spec (2 * (t * 2)) (h * 3600)); try lia.
    eexists. split; [done|]. unfold Backoff.configured. simpl. lia.
  - destruct (Z.ltb_spec 0 (2 * t)), (Z.leb_spec (2 * (t * 2)) (2 * t)); try lia. done.
  - destruct (Z.ltb_spec 0 (h * 3600)), (Z.leb_spec (2 * (t * 2)) (h * 3600)); try lia. done.
Qed.
End Configuration.
End Thumbnailer.
