(* ===== verification/CacheLife.v ===== *)
(** * How long the answers of the caches last (src/thumbnailer.cpp)

    A thumbnail or a failure is stored by one call of [thumbnail()] and answers
    later ones.  In between the thumbnailer is used: other requests are looked up,
    with whatever result, and caches are cleared, compacted and have their
    statistics reset.  [use] is one such call, [life] a sequence of them at
    non-decreasing times none of which takes a given entry away (by evicting or by
    clearing it); the properties say what a request gets at the end of such a life. *)

From S2P Require Import Prelude CxxLib QtSize Settings Backoff Image CacheInterface ImageExtractor Keys Thumbnailer.
Import Cxx QtSize Image CacheInterface Keys Thumbnailer.

Module CacheLife.

Section Life.
Context {P L I E D : Type} {libs : ImageLibs P L I E D} {laws : ImageLaws P L I E D}.
Context {qs : QSizeScale} {qlaws : QSizeScaleLaws qs}.
Context {C : Type} {cacheC : Cache C} {claws : CacheLaws C}.
Context {host : Host} {hlaws : HostLaws host}.
Implicit Types (t : Thumbnailer C) (s : env (C := C)) (r : Request) (d : ImageData (P := P)).

Notation entry i t := (cache_lookup (get_cache i t)).

(** ** What a call leaves alone *)

(** [thumbnail()] of [s] may write the entry [k] of cache [i]: one of its own, and
    only if the look-up did not end before. *)
Definition may_write (now : Z) s (i : cache_id) (k : string) : Prop :=
  match i with
  | thumbnails => k = sized_of s /\ entry thumbnails (th s) now k = None /\
      (is_Some (entry full_size (th s) now (key_ (rq s))) \/ entry failures (th s) now (key_ (rq s)) = None)
  | _ => k = key_ (rq s) /\ entry thumbnails (th s) now (sized_of s) = None /\
      entry full_size (th s) now k = None /\ entry failures (th s) now k = None
  end.

(** From [t] to [t'] the caches stay usable, and no entry but those of [K] gets
    another value. *)
Record calm (K : cache_id -> string -> Prop) t t' : Prop := mkCalm {
  calm_usable : usable t';
  calm_config : same_config t t';
  calm_room : forall i, cache_room (get_cache i t') = cache_room (get_cache i t);
  calm_entries : forall i k now, ~ K i k -> entry i t' now k = entry i t now k \/ entry i t' now k = None
}.

Section Calm.
Context (K : cache_id -> string -> Prop) (key : string).

Lemma calm_refl t : usable t -> calm K t t.
Proof. intros Hu. constructor; try done. by left. Qed.

Lemma calm_trans t1 t2 t3 : calm K t1 t2 -> calm K t2 t3 -> calm K t1 t3.
Proof.
  intros [_ (A1 & A2 & A3) R1 E1] [U (B1 & B2 & B3) R2 E2]. constructor; [done|split_and!; congruence|intros i; congruence|].
  intros i k now Hk. destruct (E2 i k now Hk) as [->|H]; [by apply E1|by right].
Qed.

(** The same of a request with key [key] and of the thumbnailer alone. *)
Definition calm_env s s' : Prop := key_ (rq s) = key -> usable (th s) -> key_ (rq s') = key /\ calm K (th s) (th s').
Definition calm_at t t' : Prop := usable t -> calm K t t'.

#[local] Instance calm_env_preorder : PreOrder calm_env.
Proof.
  split; [by intros s Hk Hu; split; [|apply calm_refl]|]. intros s1 s2 s3 H1 H2 Hk Hu.
  destruct (H1 Hk Hu) as [Hk2 C1], (H2 (proj1 (H1 Hk Hu)) (calm_usable _ _ _ C1)) as [Hk3 C2]. split; [done|by eapply calm_trans].
Qed.

#[local] Instance calm_at_preorder : PreOrder calm_at.
Proof.
  split; [by intros t Hu; apply calm_refl|]. intros t1 t2 t3 H1 H2 Hu. eapply calm_trans; [by apply H1|apply H2, H1, Hu].
Qed.

(** A cache operation that changes at most entries of [K] in cache [i]. *)
Definition gentle_on (i : cache_id) {A} (m : M C A) : Prop := forall c, cache_usable c ->
  cache_usable (m c).1 /\ cache_room (m c).1 = cache_room c /\
  forall k now, ~ K i k -> cache_lookup (m c).1 now k = cache_lookup c now k \/ cache_lookup (m c).1 now k = None.

Lemma calm_set i c t : usable t -> cache_usable c -> cache_room c = cache_room (get_cache i t) ->
  (forall k now, ~ K i k -> cache_lookup c now k = entry i t now k \/ cache_lookup c now k = None) ->
  calm K t (match i with full_size => set_full c t | thumbnails => set_thumb c t | failures => set_failure c t end).
Proof.
  intros [] Hc Hr He. constructor.
  - destruct i; by constructor.
  - by destruct i.
  - intros j. by destruct i, j.
  - intros j k now Hk. destruct i, j; try (by left); by apply He.
Qed.

Lemma keeps_on_cache i {A} (m : M C A) : gentle_on i m ->
  keeps calm_env (match i with full_size => on_full m | thumbnails => on_thumb m | failures => on_failure m end).
Proof.
  intros Hm s Hk Hu. assert (Hui : cache_usable (get_cache i (th s))) by (by destruct Hu, i).
  destruct (Hm _ Hui) as (H1 & H2 & H3).
  assert (Hc := calm_set i (m (get_cache i (th s))).1 (th s) Hu H1 H2 (fun k now => H3 k now)).
  destruct i; simpl in *; unfold on_full, on_thumb, on_failure; by destruct (m _).
Qed.

Lemma gentle_get i k now : gentle_on i (cache_get k now).
Proof.
  intros c Hc. pose proof (cache_get_room k now c) as Hr. destruct (cache_get_law k now c Hc) as (c' & Hg & Hv & Hl).
  rewrite Hg in *. simpl in *. split_and!; [by apply cache_valid_usable|done|]. intros k' n _. left. apply Hl.
Qed.

Lemma gentle_put i k v x now : K i k -> gentle_on i (cache_put k v x now).
Proof.
  intros Hk c Hc. pose proof (cache_put_room k v x now c) as Hr. destruct (cache_put_law k v x now c Hc) as (c' & a & Hg & Hv & Hl & _).
  rewrite Hg in *. simpl in *. split_and!; [by apply cache_valid_usable|done|]. intros k' n Hk'. apply Hl. by intros ->.
Qed.

Lemma keeps_getS {A} (f : env (C := C) -> M env A) : (forall s, key_ (rq s) = key -> keeps calm_env (f s)) -> keeps calm_env (getS ≫= f).
Proof. intros H s Hk Hu. by apply (H s). Qed.

Lemma keeps_pure {A} (o : outcome A) : keeps calm_env (lift o).
Proof. by apply (keeps_same calm_env). Qed.

Lemma keeps_ret {A} (a : A) : keeps calm_env (mret a).
Proof. by apply (keeps_same calm_env). Qed.

(** What is done to the request alone, and to the backoff alone. *)
Definition same_key r r' : Prop := key_ r' = key_ r.

#[local] Instance same_key_preorder : PreOrder same_key.
Proof. split; [done|]. unfold same_key. congruence. Qed.

Lemma keeps_on_request {A} (m : M Request A) : keeps same_key m -> keeps calm_env (on_request m).
Proof.
  intros Hm s Hk Hu. specialize (Hm (rq s)). unfold on_request. destruct (m (rq s)) as [r a]. simpl in *.
  split; [congruence|by apply calm_refl].
Qed.

Lemma keeps_status st : keeps calm_env (on_request (modify (set_status st))).
Proof. by apply keeps_on_request. Qed.

Lemma keeps_on_backoff f : keeps calm_env (on_backoff f).
Proof. intros s Hk Hu. split; [done|]. simpl. constructor; [by apply usable_set_backoff|done|by intros []|]. intros [] k now _; by left. Qed.

Lemma keeps_request_noexcept {A} (m : M Request A) : keeps same_key m -> keeps same_key (noexcept m).
Proof. intros Hm r. specialize (Hm r). unfold noexcept. by destruct (m r) as [r' [a|e|c]]. Qed.

Lemma keeps_request_catch {A} (m : M Request A) h : keeps same_key m -> (forall e, keeps same_key (h e)) -> keeps same_key (catch_std m h).
Proof. intros Hm Hh. apply (keeps_catch same_key); [done|]. intros e. destruct (is_std e); [apply Hh|by apply (keeps_same same_key)]. Qed.

Lemma keeps_fetch size : keeps same_key (fetch size).
Proof.
  assert (Hlift : forall A (o : outcome A), keeps same_key (lift o)) by (by intros A o r).
  assert (Herr : forall e d, keeps same_key (_ ← modify (set_error_message e); mret d : M Request (ImageData (P := P)))) by (by intros e d r).
  intros r0. unfold fetch, mbind, M_bind, getS.
  assert (Hcommon : forall o, keeps same_key (common_fetch o)).
  { intros [[st msg data]|]; [|by apply keeps_request_noexcept]. apply keeps_request_noexcept.
    apply (keeps_bind same_key); [by intros r|]. intros u. destruct st; try by apply (keeps_same same_key).
    apply keeps_request_catch; [|intros e; apply Herr]. by apply (keeps_bind same_key). }
  destruct (source_ r0) as [f x|a b o|a b o]; [|apply Hcommon..].
  refine (keeps_request_noexcept _ _ r0). apply keeps_request_catch; [|intros e; apply Herr].
  apply (keeps_bind same_key); [|by intros o r]. destruct x as [x|]; [|done].
  apply (keeps_bind same_key); [|by intros i r]. intros r. unfold read_extracted. by destruct (ImageExtractor.read x) as [x' b].
Qed.

(** ** The parts of [thumbnail()] *)

Section Parts.
Context (own_full : K full_size key) (own_failure : K failures key).

Ltac keeps_tac :=
  repeat match goal with
  | |- keeps calm_env (getS ≫= _) => apply keeps_getS; intros ? ?
  | |- keeps calm_env (_ ≫= _) => apply (keeps_bind calm_env); [|intros ?]
  | |- keeps calm_env (lift _) => apply keeps_pure
  | |- keeps calm_env (mret _) => apply keeps_ret
  | |- keeps calm_env (crash _) => by apply (keeps_same calm_env)
  | |- keeps calm_env (on_request (modify (set_status _))) => apply keeps_status
  | |- keeps calm_env (on_request (fetch _)) => apply keeps_on_request, keeps_fetch
  | |- keeps calm_env (on_backoff _) => apply keeps_on_backoff
  | |- keeps calm_env (on_failure (cache_put _ _ _ _)) => apply (keeps_on_cache failures), gentle_put; congruence
  | |- keeps calm_env (on_full (cache_put _ _ _ _)) => apply (keeps_on_cache full_size), gentle_put; congruence
  | |- keeps calm_env (match ?x with _ => _ end) => destruct x
  end.

Lemma keeps_store sized (img : Image P) now : K thumbnails sized -> keeps calm_env (store_thumbnail sized img now).
Proof. intros Hs. unfold store_thumbnail. keeps_tac. by apply (keeps_on_cache thumbnails), gentle_put. Qed.

Lemma keeps_keep_fullsize d now : keeps calm_env (keep_fullsize d now).
Proof. unfold keep_fullsize. keeps_tac; apply (keeps_on_cache full_size), gentle_put; congruence. Qed.

Lemma keeps_reset_backoff l now : keeps calm_env (reset_backoff l now).
Proof. unfold reset_backoff. keeps_tac. Qed.

Lemma keeps_after_failure d now : keeps calm_env (after_failure d now).
Proof. unfold after_failure. keeps_tac; try apply keeps_reset_backoff; apply (keeps_on_cache failures), gentle_put; congruence. Qed.

(** After the failure cache had no answer. *)
Lemma keeps_fetched target sized now : K thumbnails sized ->
  keeps calm_env (d ← on_request (fetch target);
    _ ← on_request (modify (set_status (data_status d)));
    match data_status d with
    | downloaded =>
        _ ← reset_backoff (data_location d) now;
        image ← keep_fullsize d now;
        scaled_image ← lift (scale image target);
        store_thumbnail sized scaled_image now
    | _ => after_failure d now
    end).
Proof.
  intros Hs. keeps_tac; try apply keeps_after_failure.
  - apply keeps_reset_backoff.
  - apply keeps_keep_fullsize.
  - by apply keeps_store.
Qed.
End Parts.
End Calm.

(** A first part that is known to return [a]. *)
Lemma calm_known {A B} K key (m : M env A) (f : A -> M env B) s s1 a :
  m s = (s1, Ok a) -> keeps (calm_env K key) m -> calm_env K key s1 (f a s1).1 -> calm_env K key s ((m ≫= f) s).1.
Proof.
  intros Hm Hk Hf. specialize (Hk s). unfold mbind, M_bind. rewrite Hm in *. simpl in Hk.
  pose proof (calm_env_preorder K key). by etransitivity.
Qed.

(** Reading a cache. *)
Lemma get_known i k now s : usable (th s) ->
  exists c, (match i with full_size => on_full (cache_get k now) | thumbnails => on_thumb (cache_get k now)
             | failures => on_failure (cache_get k now) end) s =
    (mkEnv (match i with full_size => set_full c (th s) | thumbnails => set_thumb c (th s)
            | failures => set_failure c (th s) end) (rq s), Ok (entry i (th s) now k)).
Proof.
  intros Hu. assert (Hui : cache_usable (get_cache i (th s))) by (by destruct Hu, i).
  destruct (cache_get_law k now _ Hui) as (c & Hg & _). exists c.
  destruct i; simpl in *; unfold on_full, on_thumb, on_failure; by rewrite Hg.
Qed.

(** A call of [thumbnail()], whatever its outcome, gives another value to no entry but
    those it may write. *)
Lemma thumbnail_calm now s : usable (th s) -> calm (may_write now s) (th s) (th (thumbnail now s).1).
Proof.
  intros Hu. set (K := may_write now s). set (key := key_ (rq s)). pose proof (calm_env_preorder K key) as Hpre.
  enough (H : calm_env K key s (thumbnail_body now s).1).
  { destruct (H eq_refl Hu) as [_ Hc]. unfold thumbnail, catch_std, catchM.
    destruct (thumbnail_body now s) as [s' [a|e|c]]; simpl in *; [done| |done]. by destruct (is_std e). }
  unfold thumbnail_body. unfold mbind at 1, M_bind at 1, getS. destruct (isValid (requested_size_ (rq s))); [|done].
  simpl negb. cbv iota. change (thumb_key (rq s) _) with (sized_of s).
  destruct (get_known thumbnails (sized_of s) now s Hu) as (c1 & E1). simpl in E1.
  eapply calm_known; [exact E1|apply (keeps_on_cache K key thumbnails), gentle_get|].
  destruct (cache_lookup (thumbnail_cache_ (th s)) now (sized_of s)) as [dat|] eqn:L1.
  { refine (keeps_bind (calm_env K key) _ _ _ _ _); [apply keeps_status|intros u; apply keeps_ret]. }
  set (s1 := mkEnv _ _). intros Hk1 Hu1. destruct (get_known full_size key now s1 Hu1) as (c2 & E2). revert Hk1 Hu1. simpl in E2.
  eapply calm_known; [exact E2|apply (keeps_on_cache K key full_size), gentle_get|]. set (s2 := mkEnv _ _).
  destruct (cache_lookup (full_size_cache_ (th s)) now key) as [dat|] eqn:L2.
  { refine (keeps_bind (calm_env K key) _ _ _ _ _); [apply keeps_status|]. intros u.
    apply (keeps_bind (calm_env K key)); [apply keeps_pure|]. intros img. apply keeps_store.
    split_and!; [done|done|]. left. simpl. fold key. rewrite L2. done. }
  unfold fetch_and_scale. unfold mbind at 1, M_bind at 1, getS. intros Hk2 Hu2.
  destruct (get_known failures key now s2 Hu2) as (c3 & E3). revert Hk2 Hu2. simpl in E3.
  eapply calm_known; [exact E3|apply (keeps_on_cache K key failures), gentle_get|].
  destruct (cache_lookup (failure_cache_ (th s)) now key) as [dat|] eqn:L3.
  { refine (keeps_bind (calm_env K key) _ _ _ _ _); [apply keeps_status|intros u; apply keeps_ret]. }
  apply keeps_fetched; simpl; fold key; rewrite ?L1, ?L2, ?L3; split_and!; try done. by right.
Qed.

(** ** The life of an entry *)

(** From [t] to [t'] the entry [k] of cache [i] was evicted or cleared. *)
Definition loses (i : cache_id) (k : string) t t' : Prop :=
  exists now, is_Some (entry i t now k) /\ entry i t' now k = None.

(** What is done with a thumbnailer: a request is looked up, with whatever outcome, or
    caches are maintained. *)
Inductive use (now : Z) t : Thumbnailer C -> Prop :=
  | use_thumbnail r : use now t (th (thumbnail now (mkEnv t r)).1)
  | use_clear sel : use now t (clear sel t).1
  | use_compact sel : use now t (compact sel t).1
  | use_clear_stats sel : (forall i, cache_valid (get_cache i t)) -> use now t (clear_stats sel t).1.

(** Uses at non-decreasing times that do not take the entry [k] of cache [i] away. *)
Inductive life (i : cache_id) (k : string) : Z -> Thumbnailer C -> Z -> Thumbnailer C -> Prop :=
  | life_end now t : life i k now t now t
  | life_use now t now1 t1 now2 t2 : now <= now1 -> use now1 t t1 -> ~ loses i k t t1 ->
      life i k now1 t1 now2 t2 -> life i k now t now2 t2.

(** Maintenance writes nothing. *)
Definition nothing (i : cache_id) (k : string) : Prop := False.

Lemma keeps_for_each (m : M C unit) l :
  (forall i, gentle_on nothing i m) -> keeps (calm_at nothing) (for_each m l).
Proof.
  intros Hm. pose proof (calm_at_preorder nothing) as Hpre.
  induction l as [|i l IH]; [by apply (keeps_same (calm_at nothing))|]. apply (keeps_bind (calm_at nothing)); [|done].
  intros t Hu. assert (Hui : cache_usable (get_cache i t)) by (by destruct Hu, i).
  destruct (Hm i _ Hui) as (H1 & H2 & H3). pose proof (calm_set nothing i (m (get_cache i t)).1 t Hu H1 H2 (fun k now => H3 k now)) as Hc.
  destruct i; simpl in *; unfold on_cache; by destruct (m _).
Qed.

Lemma keeps_clear sel : keeps (calm_at nothing) (clear sel).
Proof.
  pose proof (calm_at_preorder nothing) as Hpre. unfold clear. apply (keeps_bind (calm_at nothing)).
  - apply keeps_for_each. intros i c Hc. pose proof (cache_invalidate_room c) as Hr.
    destruct (cache_invalidate_law c Hc) as (c' & Hi & Hv & Hl). rewrite Hi in *. simpl in *.
    split_and!; [by apply cache_valid_usable|done|]. intros k now _. right. apply Hl.
  - intros u. assert (Hb : forall f, keeps (calm_at nothing) (t ← getS; b ← lift (f (backoff_ t)); modify (set_backoff b))).
    { intros f t Hu. unfold mbind, M_bind, getS, lift, modify. destruct (f (backoff_ t)) as [b|e|c]; simpl; try by apply calm_refl.
      constructor; [by apply usable_set_backoff|done|by intros []|]. intros [] k now _; by left. }
    destruct sel; first [exact (Hb (fun b => Backoff.set_backoff_period 0 (Backoff.set_last_fail_time Backoff.epoch b)))
                       |by apply (keeps_same (calm_at nothing))].
Qed.

Lemma keeps_compact sel : keeps (calm_at nothing) (compact sel).
Proof.
  apply keeps_for_each. intros i c Hc. pose proof (cache_compact_room c) as Hr.
  destruct (cache_compact_law c Hc) as (c' & Hi & Hv & Hl). rewrite Hi in *. simpl in *.
  split_and!; [by apply cache_valid_usable|done|]. intros k now _. left. apply Hl.
Qed.

Lemma clear_stats_calm l : forall t, usable t -> (forall i, cache_valid (get_cache i t)) -> calm nothing t (for_each cache_clear_stats l t).1.
Proof.
  induction l as [|i l IH]; intros t Hu Hv; [by apply calm_refl|]. simpl.
  pose proof (cache_clear_stats_room (get_cache i t)) as Hr.
  destruct (cache_clear_stats_law _ (Hv i)) as (c & Hc & Hvc & Hl). rewrite Hc in Hr.
  pose proof (calm_set nothing i c t Hu (cache_valid_usable _ Hvc) Hr (fun k now _ => or_introl (Hl now k))) as Hcalm.
  unfold mbind, M_bind. destruct i; simpl in *; unfold on_cache; rewrite Hc;
    (eapply calm_trans; [exact Hcalm|]); (apply IH; [apply Hcalm|intros j; specialize (Hv j); by destruct j]).
Qed.

Lemma calm_weaken K t t' : calm nothing t t' -> calm K t t'.
Proof. intros [H1 H2 H3 H4]. constructor; try done. intros i k now _. apply H4. by intros []. Qed.
(** A use is calm, with the entries of some request to write. *)
Lemma use_calm now t t' : usable t -> use now t t' -> exists r, calm (may_write now (mkEnv t r)) t t'.
Proof.
  intros Hu Huse. set (r0 := make_album "" "" (mkSize 0 0) 0). destruct Huse as [r|sel|sel|sel Hv].
  - exists r. by apply (thumbnail_calm now (mkEnv t r)).
  - exists r0. by apply calm_weaken, keeps_clear.
  - exists r0. by apply calm_weaken, keeps_compact.
  - exists r0. by apply calm_weaken, clear_stats_calm.
Qed.

(** No use changes an entry that is there: it stays or is lost. *)
Lemma use_keeps i k now t t' : usable t -> use now t t' -> ~ loses i k t t' -> is_Some (entry i t now k) ->
  forall n, entry i t' n k = entry i t n k.
Proof.
  intros Hu Huse Hl Hs n. destruct (use_calm now t t' Hu Huse) as (r & [_ _ _ He]).
  assert (Hk : ~ may_write now (mkEnv t r) i k).
  { intros Hw. destruct i; simpl in *; destruct Hw as (_ & H1 & H2); simpl in *; try (destruct H2 as [H2 H3]);
      destruct Hs as [v Hs]; congruence. }
  destruct (He i k n Hk) as [H|H]; [done|]. destruct (entry i t n k) as [v|] eqn:Ev; [|done].
  exfalso. apply Hl. exists n. by rewrite Ev.
Qed.

Lemma use_usable now t t' : usable t -> use now t t' -> usable t' /\ same_config t t'.
Proof. intros Hu Huse. destruct (use_calm now t t' Hu Huse) as (r & [H1 H2 _ _]). done. Qed.

(** An entry without expiry lasts for the life it is not lost in. *)
Lemma life_keeps i k v now t now1 t1 : life i k now t now1 t1 -> usable t -> (forall n, entry i t n k = Some v) ->
  usable t1 /\ same_config t t1 /\ forall n, entry i t1 n k = Some v.
Proof.
  induction 1 as [now t|now t now1 t1 now2 t2 Hle Huse Hl _ IH]; intros Hu Hv; [done|].
  destruct (use_usable now1 t t1 Hu Huse) as [Hu1 (C1 & C2 & C3)].
  destruct IH as (Hu2 & (D1 & D2 & D3) & Hv2); [done| |split_and!; try done; split_and!; congruence].
  intros n. rewrite (use_keeps i k now1 t t1) by (done || by rewrite Hv). apply Hv.
Qed.

Lemma life_time i k now t now1 t1 : life i k now t now1 t1 -> now <= now1.
Proof. induction 1; lia. Qed.

(** ** Thumbnails *)

(** C19. A thumbnail that was made is served from the cache from then on.  Once a call
    has produced one (from a download or from the full-size image), and it is no
    larger than the thumbnail cache, every later request with the same key and size
    gets the same bytes, as a cache hit and without fetching anything - at any time
    and whatever requests of any kind were looked up with whatever result and
    whatever caches were cleared or compacted in between, as long as nothing evicted
    or cleared this entry. *)
Theorem thumbnail_then_hit now now1 now2 s s' dat t1 r :
  usable (th s) -> request_ready (rq s) -> isValid (requested_size_ (rq s)) = true ->
  thumbnail now s = (s', Ok dat) ->
  status_ (rq s') = downloaded \/ status_ (rq s') = scaled_from_fullsize ->
  cache_fits (thumbnail_cache_ (th s)) (sized_of s) dat ->
  life thumbnails (sized_of s) now (th s') now1 t1 -> now1 <= now2 ->
  key_ r = key_ (rq s) -> requested_size_ r = requested_size_ (rq s) ->
  exists s'', thumbnail now2 (mkEnv t1 r) = (s'', Ok dat) /\ status_ (rq s'') = cache_hit /\
    source_ (rq s'') = source_ r.
Proof.
  intros Hu Hr Hv Ht Hst Hfit Hlife Hle Hk Hs. pose proof (thumbnail_answer now s Hu Hr) as H. rewrite Ht in H.
  pose proof (answer_usable _ _ _ _ Hu H) as Hu'. destruct H as (Hserved & Hc & Hsr).
  assert (Hw : written now (sized_of s) dat no_expiry (thumbnail_cache_ (th s)) (thumbnail_cache_ (th s'))).
  { destruct Hserved as [Hx|? Hx|Hx|[Hx|Hx]|Hx]; try done; exfalso; destruct Hst as [Hst|Hst]; rewrite Hst in Hx; done. }
  destruct Hw as (_ & _ & Hw). destruct (life_keeps _ _ dat _ _ _ _ Hlife Hu') as (Hu1 & Hc1 & Hl1).
  { intros n. simpl. by rewrite Hw. }
  apply thumbnail_hit; [done|simpl; by rewrite Hs|]. simpl in *.
  destruct Hc as (A1 & A2 & A3), Hc1 as (B1 & B2 & B3).
  rewrite (sized_of_same (th s) t1 (rq s) r); [by destruct s|split_and!; congruence|done..].
Qed.

(** ** Failures *)

(** Since a failure of [key] was recorded in [t0] at [now0]: the entry is as it was,
    no full-size image of the key has come, and no thumbnail of it but those there
    were. *)
Record failed (key : string) (now0 : Z) (t0 t : Thumbnailer C) : Prop := mkFailed {
  fl_usable : usable t;
  fl_config : same_config t0 t;
  fl_failure : forall n, entry failures t n key = entry failures t0 n key;
  fl_full : forall n, now0 <= n -> entry full_size t n key = None;
  fl_thumb : forall n w h, entry thumbnails t n (sized_key key w h) = entry thumbnails t0 n (sized_key key w h) \/
    entry thumbnails t n (sized_key key w h) = None
}.

Lemma use_failed key now0 t0 now t t' : failed key now0 t0 t -> now0 <= now -> use now t t' ->
  ~ loses failures key t t' -> is_Some (entry failures t now key) -> failed key now0 t0 t'.
Proof.
  intros [H1 (C1 & C2 & C3) H3 H4 H5] Hle Huse Hl Hs. pose proof (use_keeps failures key now t t' H1 Huse Hl Hs) as Hsame.
  destruct (use_calm now t t' H1 Huse) as (r & [U (D1 & D2 & D3) _ He]).
  constructor; [done|split_and!; congruence|intros n; by rewrite Hsame|intros n Hn|intros n w h].
  - destruct (He full_size key n) as [H|H]; [|rewrite H; by apply H4|done].
    simpl. intros (_ & _ & _ & H). destruct Hs as [v Hs]. simpl in Hs. congruence.
  - destruct (He thumbnails (sized_key key w h) n) as [H|H]; [|rewrite H; apply H5|by right].
    intros (Hk & _ & Hor). unfold sized_of, thumb_key in Hk. apply sized_key_inj in Hk as (Hk & _).
    simpl in *. subst key. destruct Hs as [v Hs], Hor as [[? Hf]|Hf]; [|congruence]. by rewrite H4 in Hf.
Qed.

Lemma life_failed key now0 t0 now t now1 t1 expiry v :
  life failures key now t now1 t1 -> failed key now0 t0 t -> now0 <= now -> live expiry now1 = true ->
  (forall n, entry failures t0 n key = if live expiry n then Some v else None) -> failed key now0 t0 t1.
Proof.
  intros Hlife. induction Hlife as [now t|now t now1 t1 now2 t2 Hle Huse Hl Hlife IH]; intros Hf Hn Hlive Hv; [done|].
  assert (Hlive1 : live expiry now1 = true).
  { apply life_time in Hlife. unfold live in *. apply orb_true_iff in Hlive as [->|?%Z.ltb_lt]; [done|].
    apply orb_true_iff. right. apply Z.ltb_lt. lia. }
  apply IH; [|lia|done|done]. apply (use_failed key now0 t0 now1 t t1); [done|lia|done|done|].
  rewrite (fl_failure _ _ _ _ Hf), Hv, Hlive1. done.
Qed.
(** What a call that ends in a permanent failure leaves. *)
Lemma failure_recorded now s s' dat :
  usable (th s) -> request_ready (rq s) -> thumbnail now s = (s', Ok dat) ->
  status_ (rq s') = not_found \/ status_ (rq s') = hard_error ->
  0 < retry_not_found_hours_ (th s) -> cache_fits (failure_cache_ (th s)) (key_ (rq s)) "" ->
  dat = "" /\ missed now s /\ failed (key_ (rq s)) now (th s') (th s') /\ same_config (th s) (th s') /\
  same_cache (thumbnail_cache_ (th s)) (thumbnail_cache_ (th s')) /\
  forall n, entry failures (th s') n (key_ (rq s)) =
    if live (failure_expiry now (retry_not_found_hours_ (th s)) (status_ (rq s')) (is_remote (rq s))) n then Some "" else None.
Proof.
  intros Hu Hr Ht Hst Hh Hfit. pose proof (thumbnail_answer now s Hu Hr) as H. rewrite Ht in H.
  pose proof (answer_usable _ _ _ _ Hu H) as Hu'. destruct H as (Hserved & Hc & Hsr).
  destruct Hserved as [Hx|? [Hx|Hx]|Hx|_ Hd [_ Hf] Htc (_ & _ & Hw) Hm|Hx];
    try (exfalso; destruct Hst as [Hst|Hst]; rewrite Hst in Hx; done).
  split_and!; try done; [|apply Hw; [done|]].
  - constructor; try done; [|by left]. intros n Hn. simpl. rewrite Hf. destruct Hm as [_ Hm].
    destruct (cache_expire (full_size_cache_ (th s)) now n (key_ (rq s)) Hn); congruence.
  - unfold live, failure_expiry. destruct Hst as [-> | ->]; [|done]. destruct (is_remote (rq s)); [|done].
    apply orb_true_iff. right. apply Z.ltb_lt. unfold NS_PER_HOUR, Backoff.NS_PER_SEC. lia.
Qed.

(** C20. Failures are remembered.  After an authoritative failure (no artwork, or a hard
    error), as long as its entry has not expired - it never does, except that of a
    remote "not found", which lasts the configured number of hours - and nothing
    evicted or cleared it, a later request for the same key, of any size, fetches
    nothing: it is answered with [cached_failure] and an empty result, or, if it asks
    for another size of which a thumbnail was in the cache before the failure, with
    that thumbnail.  Once the entry has expired the answer is not [cached_failure].
    Any requests and maintenance may come in between.  The conditions: the failure
    entry is no larger than the failure cache and the number of hours is positive. *)
Theorem thumbnail_failure_remembered now now1 now2 s s' dat t1 r :
  usable (th s) -> request_ready (rq s) -> thumbnail now s = (s', Ok dat) ->
  status_ (rq s') = not_found \/ status_ (rq s') = hard_error ->
  0 < retry_not_found_hours_ (th s) -> cache_fits (failure_cache_ (th s)) (key_ (rq s)) "" ->
  let expiry := failure_expiry now (retry_not_found_hours_ (th s)) (status_ (rq s')) (is_remote (rq s)) in
  life failures (key_ (rq s)) now (th s') now1 t1 -> live expiry now1 = true -> now1 <= now2 ->
  key_ r = key_ (rq s) -> isValid (requested_size_ r) = true ->
  dat = "" /\
  if live expiry now2
  then exists s'' bytes, thumbnail now2 (mkEnv t1 r) = (s'', Ok bytes) /\ source_ (rq s'') = source_ r /\
    (status_ (rq s'') = cached_failure /\ bytes = "" \/
     status_ (rq s'') = cache_hit /\ requested_size_ r <> requested_size_ (rq s) /\
       cache_lookup (thumbnail_cache_ (th s)) now (sized_of (mkEnv (th s) r)) = Some bytes)
  else forall s'' bytes, request_ready r -> thumbnail now2 (mkEnv t1 r) = (s'', Ok bytes) -> status_ (rq s'') <> cached_failure.
Proof.
  intros Hu Hr Ht Hst Hh Hfit expiry Hlife Hlive Hle Hk Hv.
  destruct (failure_recorded now s s' dat Hu Hr Ht Hst Hh Hfit) as (-> & Hm & Hf & Hc & [_ Htc] & Hent). split; [done|].
  pose proof (life_time _ _ _ _ _ _ Hlife) as Hle1.
  destruct (life_failed _ _ _ _ _ _ _ _ _ Hlife Hf (Z.le_refl now) Hlive Hent) as [Hu1 Hc1 Hf1 Hfull Hth].
  specialize (Hf1 now2). rewrite Hent in Hf1. fold expiry in Hf1. simpl in Hf1. rewrite <- Hk in Hf1.
  destruct (live expiry now2).
  - assert (Hsz : sized_of (mkEnv t1 r) = sized_of (mkEnv (th s) r)).
    { apply sized_of_same; [|done..]. destruct Hc as (A1 & A2 & A3), Hc1 as (B1 & B2 & B3). split_and!; congruence. }
    destruct (cache_lookup (thumbnail_cache_ t1) now2 (sized_of (mkEnv t1 r))) as [bytes|] eqn:Hl.
    + destruct (thumbnail_hit now2 (mkEnv t1 r) bytes Hu1 Hv Hl) as (s2 & H1 & H2 & H3). exists s2, bytes. split; [done|]. split; [done|].
      right. rewrite Hsz in Hl. unfold sized_of, thumb_key in Hl |- *. simpl in *. rewrite Hk in *.
      destruct (Hth now2 (width (target_size_of (requested_size_ r) (max_size_ (th s)))) (height (target_size_of (requested_size_ r) (max_size_ (th s))))) as [E1|E1];
        rewrite E1 in Hl; [|done]. simpl in Hl. rewrite Htc in Hl.
      match type of Hl with cache_lookup ?c _ ?k = _ =>
        destruct (cache_expire c now now2 k ltac:(lia)) as [E2|E2]; [|congruence]
      end.
      rewrite E2 in Hl. split_and!; [done| |done]. intros Heq. destruct Hm as [Hm _]. unfold sized_of, thumb_key in Hm.
      rewrite Heq in Hl. congruence.
    + destruct (thumbnail_cached_failure now2 (mkEnv t1 r) "" Hu1 Hv Hl) as (s2 & H1 & H2 & H3); simpl.
      { rewrite Hk. apply (Hfull now2). lia. } { done. }
      exists s2, "". split; [done|]. split; [done|]. by left.
  - intros s2 bytes Hready Ht2 Hcf. pose proof (thumbnail_answer now2 (mkEnv t1 r) Hu1 Hready) as H. rewrite Ht2 in H.
    destruct H as [Hserved _]. destruct Hserved as [Hx|? [Hx|Hx]|_ _ Hx|[Hx|Hx]|Hx]; try congruence.
    + simpl in Hx. rewrite Hf1 in Hx. by destruct Hx.
    + by rewrite Hcf in Hx.
Qed.
End Life.
End CacheLife.
