(* ===== verification/Access.v ===== *)
(** * Access checks and file types (src/check_access.cpp, src/mimetype.cpp), and
      the host as the thumbnailer uses it

    The operating system, AppArmor, GIO and TagLib are the parameter [System];
    [system_host] is the interface [Host] of Thumbnailer.v on top of it, with the
    functions of check_access.cpp, mimetype.cpp, local_album_art.cpp and
    safe_strerror.cpp in between. *)

From S2P Require Import Prelude.
From S2P Require Import CxxLib.
From S2P Require Import Image.
From S2P Require Import Keys.
From S2P Require Import Files.
From S2P Require Import LocalArt.
From S2P Require Import Thumbnailer.
Import Cxx.

Module Access.

Class System : Type := {
  aa_is_enabled : bool;
  aa_query_label : Z -> string -> Z + bool;               (* mask and query: errno, or whether it is allowed *)
  g_file_query_info : string -> string + option string;   (* the error's message, or the content type *)
  strerror_r : Z -> Z * string;
  sys_geteuid : Z;
  sys_is_absolute : string -> bool;
  sys_canonical : string -> outcome string;               (* boost::filesystem::canonical *)
  sys_stat : string -> Z + Keys.file_stat * bool;
  sys_open : string -> Z + Image.file_desc;
  taglib : LocalArt.TagLib;
  taglib_1_9 : bool
}.

Section Defs.
Context {sys : System}.

Definition access_read : Z := 4.
Definition aa_class : ascii := "002"%char.

(** [AA_QUERY_CMD_LABEL]: the command with its terminating NUL. *)
Definition AA_QUERY_CMD_LABEL : string := "label" +:+ nul.

Definition query_file (access : Z) (label path : string) : outcome bool :=
  if negb aa_is_enabled then Ok true
  else
    let query := AA_QUERY_CMD_LABEL +:+ (label +:+ (nul +:+ (String aa_class path))) in
    match aa_query_label access query with
    | inl errno =>
        Throw (runtime_error ("query_file(): Could not query AppArmor access: " +:+ Files.safe_strerror strerror_r errno))
    | inr allowed => Ok allowed
    end.

Definition apparmor_can_read (apparmor_label path : string) : outcome bool :=
  query_file access_read apparmor_label path.

(** A string constructed from a null pointer is undefined behaviour. *)
Definition get_mimetype (filename : string) : outcome string :=
  match g_file_query_info filename with
  | inl message => Throw (runtime_error message)
  | inr None => Crash (Undefined "get_mimetype: content_type")
  | inr (Some content_type) =>
      if String.eqb content_type "" then
        Throw (runtime_error ("get_mimetype(): " +:+ (filename +:+ ": could not determine content type")))
      else Ok content_type
  end.

Definition system_host : Thumbnailer.Host := {|
  Thumbnailer.is_absolute := sys_is_absolute;
  Thumbnailer.canonical := sys_canonical;
  Thumbnailer.stat := sys_stat;
  Thumbnailer.geteuid := sys_geteuid;
  Thumbnailer.apparmor_can_read := apparmor_can_read;
  Thumbnailer.get_mimetype := get_mimetype;
  Thumbnailer.open_file := sys_open;
  Thumbnailer.extract_local_album_art := LocalArt.extract_local_album_art (tl := taglib) taglib_1_9;
  Thumbnailer.safe_strerror := Files.safe_strerror strerror_r
|}.

(** GIO always knows a content type when the query succeeds. *)
Definition content_types_known : Prop := forall f, g_file_query_info f <> inr None.

(** The functions in between keep what the thumbnailer relies on. *)
Lemma system_host_laws : content_types_known -> Thumbnailer.HostLaws system_host.
Proof.
  intros Hct. split; simpl.
  - intros f. unfold get_mimetype. destruct (g_file_query_info f) as [m|[ct|]] eqn:E; [done| |by destruct (Hct f)].
    destruct (String.eqb_spec ct ""); done.
  - intros f. unfold LocalArt.extract_local_album_art. destruct (LocalArt.file_ref f) as [g|]; [by destruct g|done].
  - intros label f. unfold apparmor_can_read, query_file. destruct aa_is_enabled; [|done]. simpl.
    by destruct (aa_query_label _ _).
Qed.

(** Two queries are the same only for the same label and path: a label cannot
    run into the path. *)
Lemma query_injective label path label' path' :
  nul_free label -> nul_free label' ->
  label +:+ (nul +:+ String aa_class path) = label' +:+ (nul +:+ String aa_class path') ->
  label = label' /\ path = path'.
Proof. intros H H' E. apply nul_split in E as [-> E]; [|done|done]. by injection E as ->. Qed.
End Defs.
End Access.
