(* ===== verification/ThumbnailerInstance.v ===== *)
(** * Witnesses of the properties of Thumbnailer.v

    A thumbnailer over the cache helper of CacheHelper.v with its store in
    memory, the image format of ImageInstance.v and a small host. *)

From S2P Require Import Prelude CxxLib QtSize Settings Backoff Image ImageInstance.
From S2P Require Import CacheInterface CacheHelper ImageExtractor Keys Thumbnailer CacheLife.
Import Cxx QtSize Image ImageInstance CacheInterface CacheHelper Thumbnailer CacheLife.

Module ThumbnailerInstance.

Notation cache := (CacheHelper.CacheHelper CacheHelper.store unit).

#[export] Instance small_host : Host := {
  is_absolute := starts_with "/";
  canonical f := Ok f;
  stat f := inr (Keys.mkStat 1 2 3 4 5, true);
  geteuid := 1000;
  apparmor_can_read _ _ := Ok true;
  get_mimetype f := if starts_with "/v" f then Ok "video/mp4" else Ok "image/x";
  open_file f := inr (mkFd rotated_file 0 None None);
  extract_local_album_art f := Ok "";
  safe_strerror := errno_text
}.

#[export] Instance small_host_laws : HostLaws small_host.
Proof. split; intros f; simpl; [by case_goal|done|done]. Qed.

Definition empty_cache : cache :=
  CacheHelper.mkHelper 1024 CacheHelper.lru_ttl (Some tt) (CacheHelper.mkStore (Some (false, ∅)) 1024 false).

Lemma empty_cache_ok : cache_usable empty_cache.
Proof. left. exists tt. simpl. eauto. Qed.

Definition fresh : Thumbnailer cache :=
  mkThumbnailer empty_cache empty_cache empty_cache 1920 168 10000 (Backoff.mkBackoff 0 0 20 7200).

Lemma fresh_usable : usable fresh.
Proof. constructor; try apply empty_cache_ok. simpl. lia. Qed.

(** An album request whose download has delivered an image ... *)
Definition album_request (reply : option ArtReply) : Request :=
  set_source (AlbumRequest "a" "b" reply) (make_album "a" "b" (mkSize 20 0) 10000).
Definition success : env := mkEnv fresh (album_request (Some (mkReply reply_success "" rotated_file))).
(** ... or the answer that there is none, or has not been started. *)
Definition no_art : env := mkEnv fresh (album_request (Some (mkReply reply_not_found "none" ""))).
Definition to_download : env := mkEnv fresh (album_request None).

Lemma thumbnail_never_crashes_witness :
  usable (th (thumbnail 5 success).1) /\ (thumbnail 5 success).2 = Ok "jpeg:75:20x40".
Proof.
  assert (Hr : thumbnail 5 success = ((thumbnail 5 success).1, Ok "jpeg:75:20x40")) by (vm_compute; reflexivity).
  pose proof (thumbnail_never_crashes 5 success fresh_usable ltac:(discriminate)) as H.
  rewrite Hr in H. split; [exact H|by rewrite Hr].
Defined.

(** The entry [k] with its expiry time. *)
Definition kept_entry (c : cache) (k : string) : option (string * Z) :=
  match CacheHelper.c_ c, CacheHelper.st_db (CacheHelper.dir c) with
  | Some _, Some (false, m) => m !! k
  | _, _ => None
  end.

Lemma kept_lookup (c : cache) n k : cache_lookup c n k = '(v, x) ← kept_entry c k; if live x n then Some v else None.
Proof.
  simpl. unfold CacheHelper.helper_view, kept_entry. destruct (CacheHelper.c_ c) as [[]|]; [|done]. simpl.
  unfold CacheHelper.st_find. by destruct (CacheHelper.st_db (CacheHelper.dir c)) as [[[] m]|].
Qed.

Lemma unchanged_not_lost i k (t t' : Thumbnailer cache) :
  kept_entry (get_cache i t') k = kept_entry (get_cache i t) k -> ~ loses i k t t'.
Proof. intros He (n & [v H1] & H2). rewrite kept_lookup, ?He in *. congruence. Qed.

Lemma absent_not_lost i k (t t' : Thumbnailer cache) : kept_entry (get_cache i t) k = None -> ~ loses i k t t'.
Proof. intros He (n & [v H1] & _). by rewrite kept_lookup, He in H1. Qed.

(** Another album that cannot be had, and the cover that was found. *)
Definition other_request : Request :=
  set_source (AlbumRequest "c" "d" (Some (mkReply reply_hard_error "bad" ""))) (make_album "c" "d" (mkSize 30 30) 10000).
Definition found : Thumbnailer cache := th (thumbnail 5 success).1.
Definition used : Thumbnailer cache := th (thumbnail 20 (mkEnv found other_request)).1.
Definition tidied : Thumbnailer cache := (compact sel_all used).1.
Definition asked : Thumbnailer cache := th (thumbnail 60 (mkEnv tidied (album_request None))).1.

(** One more use, at [now], that changes nothing of the entry. *)
Ltac one_use now t use :=
  refine (life_use _ _ _ _ now t _ _ _ use _ _);
  [lia|apply unchanged_not_lost; vm_compute; reflexivity|].

Lemma thumbnail_then_hit_witness :
  exists s, thumbnail 77 (mkEnv asked (album_request None)) = (s, Ok "jpeg:75:20x40") /\
    status_ (rq s) = cache_hit /\ source_ (rq s) = AlbumRequest "a" "b" None.
Proof.
  apply (thumbnail_then_hit 5 60 77 success (thumbnail 5 success).1);
    [exact fresh_usable|discriminate|reflexivity|vm_compute; reflexivity
    |left; vm_compute; reflexivity|vm_compute; discriminate| |lia|reflexivity|reflexivity].
  one_use 20 used (use_thumbnail 20 found other_request). one_use 40 tidied (use_compact 40 used sel_all).
  one_use 60 asked (use_thumbnail 60 tidied (album_request None)). apply life_end.
Defined.

(** An album there is no art for; another image comes, the thumbnails are cleared. *)
Definition missing : Thumbnailer cache := th (thumbnail 5 no_art).1.
Definition third_request : Request :=
  set_source (AlbumRequest "c" "d" (Some (mkReply reply_success "" rotated_file))) (make_album "c" "d" (mkSize 30 30) 10000).
Definition other_found : Thumbnailer cache := th (thumbnail 20 (mkEnv missing third_request)).1.
Definition wiped : Thumbnailer cache := (clear sel_thumbnail_cache other_found).1.

Lemma thumbnail_failure_remembered_witness :
  exists s d, thumbnail (3600 * Backoff.NS_PER_SEC) (mkEnv wiped (album_request None)) = (s, Ok d) /\
    source_ (rq s) = AlbumRequest "a" "b" None /\ status_ (rq s) = cached_failure /\ d = "".
Proof.
  destruct (thumbnail_failure_remembered 5 40 (3600 * Backoff.NS_PER_SEC) no_art (thumbnail 5 no_art).1 "" wiped
    (album_request None) fresh_usable ltac:(discriminate) ltac:(vm_compute; reflexivity)
    ltac:(left; vm_compute; reflexivity) ltac:(reflexivity) ltac:(vm_compute; discriminate)) as [_ H];
    [|reflexivity|vm_compute; discriminate|reflexivity|reflexivity|].
  { one_use 20 other_found (use_thumbnail 20 missing third_request).
    one_use 40 wiped (use_clear 40 other_found sel_thumbnail_cache). apply life_end. }
  assert (Hl : live (failure_expiry 5 (retry_not_found_hours_ (th no_art))
    (status_ (rq (thumbnail 5 no_art).1)) (is_remote (rq no_art))) (3600 * Backoff.NS_PER_SEC) = true)
    by (vm_compute; reflexivity).
  rewrite Hl in H. destruct H as (s & d & H1 & H2 & [[H3 H4]|(_ & H3 & _)]).
  - exists s, d. exact (conj H1 (conj H2 (conj H3 H4))).
  - exfalso. exact (H3 eq_refl).
Defined.

Lemma thumbnail_transient_witness :
  status_ (rq (thumbnail 5 to_download).1) = needs_download /\
  Backoff.retry_ok (backoff_ fresh) 5 = true.
Proof.
  assert (Hst : status_ (rq (thumbnail 5 to_download).1) = needs_download) by (vm_compute; reflexivity).
  split; [exact Hst|].
  apply (thumbnail_transient 5 to_download (thumbnail 5 to_download).1 "");
    [exact fresh_usable|exact I|vm_compute; reflexivity|vm_compute; reflexivity|exact Hst|reflexivity].
Defined.

Lemma thumbnail_size_bound_witness :
  exists (img : Image pix) w h, jpeg_or_png_data img DEFAULT_QUALITY = Ok "jpeg:75:20x40" /\
    image_width img = Ok w /\ image_height img = Ok h /\
    0 < w <= 1920 /\ 0 < h <= 1920 /\ fits w h (mkSize 20 0).
Proof.
  apply (thumbnail_size_bound 5 success (thumbnail 5 success).1);
    [exact fresh_usable|discriminate|reflexivity|vm_compute; reflexivity|left; vm_compute; reflexivity].
Defined.

(** A thumbnailer in the middle of a backoff period. *)
Definition failing : Thumbnailer cache :=
  set_backoff (Backoff.mkBackoff (1234567890 * Backoff.NS_PER_SEC + 5) 40 20 7200) fresh.
Definition reopen (path : string) (bytes : Z) (ttl : bool) : outcome cache :=
  Ok (if String.eqb path "/failures" then failure_cache_ (destroy 9 failing).1 else empty_cache).
Definition no_settings : Settings.Settings := Settings.mkSettings "s" None.
Definition restarted : Thumbnailer cache := set_failure (failure_cache_ (destroy 9 failing).1)
  (set_backoff (Backoff.mkBackoff 0 0 20 7200) fresh).

Lemma backoff_survives_restart_witness :
  exists t3, construct Settings.schema_defaults no_settings reopen (Ok (3, 3)) 10 = Ok t3 /\ usable t3 /\
    Backoff.backoff_period_ (backoff_ t3) = 40 /\
    Backoff.last_fail_time_ (backoff_ t3) = 1234567890 * Backoff.NS_PER_SEC.
Proof.
  assert (Hw : cache_lookup (failure_cache_ (destroy 9 failing).1) 10 Keys.LAST_NETWORK_FAIL_TIME_KEY = Some "1234567890")
    by (vm_compute; reflexivity).
  assert (H := backoff_survives_restart Settings.schema_defaults no_settings reopen 3 3 9 10 failing restarted).
  rewrite Hw in H. apply H;
    [exact empty_cache_ok|split; vm_compute; discriminate|split; vm_compute; discriminate
    |vm_compute; discriminate|vm_compute; discriminate|vm_compute; reflexivity| |].
  - constructor; [exact empty_cache_ok..| |reflexivity]. left. exists tt. vm_compute. eauto.
  - split; [|done]. exists tt. vm_compute. eauto.
Defined.

Lemma clear_empties_witness :
  exists t, clear sel_failure_cache failing = (t, Ok tt) /\ usable t /\ same_config failing t /\
    (forall i now k, cache_lookup (get_cache i t) now k =
       if decide (i ∈ select_caches sel_failure_cache) then None else cache_lookup (get_cache i failing) now k) /\
    forall now, Backoff.retry_ok (backoff_ t) now =
      if decide (failures ∈ select_caches sel_failure_cache) then true else Backoff.retry_ok (backoff_ failing) now.
Proof.
  apply clear_empties; [constructor; try apply empty_cache_ok; simpl; lia|vm_compute; discriminate].
Defined.

Lemma backoff_configuration_witness :
  let s := Settings.mkSettings "s" (Some {["retry-error-hours" := Settings.gv_int 1;
                                           "extraction-timeout" := Settings.gv_int 1000]}) in
  configure_backoff Settings.schema_defaults s = Crash (AssertFailed "set_max_backoff").
Proof.
  apply (backoff_configuration Settings.schema_defaults _ 1 1000); [reflexivity|reflexivity|vm_compute; discriminate..].
Defined.

End ThumbnailerInstance.
