(* ===== verification/Concurrent.v ===== *)
(** * The thread pools: [thumbnail()] in several threads (thumbnailer.cpp, handler.cpp)

    The service runs [thumbnail()] in two thread pools, on one [Thumbnailer]: the
    caches lock themselves, so that each of their operations is one access; the
    backoff state is three fields read and written without a lock, each read and
    each write an access of its own.  [thumbnail] below is the look-up of
    Thumbnailer.v as the sequence of its accesses; alone it does what is proved
    there, and the properties say what holds when others run at the same time.
    The fields the constructor sets and nothing changes later are [Limits]. *)

From S2P Require Import Prelude CxxLib QtSize Settings Backoff Image CacheInterface ImageExtractor Threads Keys Thumbnailer CacheLife.
From S2P Require Import ImageInstance CacheHelper ThumbnailerInstance.
Import Cxx QtSize Image CacheInterface Keys Threads.
Import Thumbnailer.

Module Concurrent.

(** The accesses to the [Thumbnailer]. *)
Inductive shared : Type -> Type :=
  | CacheGet (i : cache_id) (key : string) : shared (option string)
  | CachePut (i : cache_id) (key value : string) (expiry : Z) : shared bool
  | Invalidate (i : cache_id) : shared unit
  | ClearStats (i : cache_id) : shared unit
  | Compact (i : cache_id) : shared unit
  | Now : shared Z
  | ReadPeriod : shared Z
  | ReadFailTime : shared Z
  | WritePeriod (p : Z) : shared unit
  | WriteFailTime (t : Z) : shared unit.

Record Limits : Type := mkLimits { lim_max_size : Z; lim_hours : Z; lim_min : Z; lim_max : Z }.

Section Defs.
Context {P L I E D : Type} {libs : ImageLibs P L I E D} {qs : QSizeScale}.
Context {C : Type} {cacheC : Cache C} {host : Host}.

Definition limits_of (t : Thumbnailer C) : Limits :=
  mkLimits (max_size_ t) (retry_not_found_hours_ t) (Backoff.min_backoff_ (backoff_ t)) (Backoff.max_backoff_ (backoff_ t)).

Definition set_cache (i : cache_id) (c : C) (t : Thumbnailer C) : Thumbnailer C :=
  match i with full_size => set_full c t | thumbnails => set_thumb c t | failures => set_failure c t end.

Definition at_cache {A} (i : cache_id) (m : M C A) (t : Thumbnailer C) : Thumbnailer C * outcome A :=
  let '(c, o) := m (get_cache i t) in (set_cache i c t, o).

Definition write_period (p : Z) (b : Backoff.BackoffAdjuster) : Backoff.BackoffAdjuster :=
  Backoff.mkBackoff (Backoff.last_fail_time_ b) p (Backoff.min_backoff_ b) (Backoff.max_backoff_ b).

Definition perform (X : Type) (e : shared X) (now : Z) : Thumbnailer C -> Thumbnailer C * outcome X :=
  match e in shared Y return Thumbnailer C -> Thumbnailer C * outcome Y with
  | CacheGet i key => at_cache i (cache_get key now)
  | CachePut i key value expiry => at_cache i (cache_put key value expiry now)
  | Invalidate i => at_cache i cache_invalidate
  | ClearStats i => at_cache i cache_clear_stats
  | Compact i => at_cache i cache_compact
  | Now => fun t => (t, Ok now)
  | ReadPeriod => fun t => (t, Ok (Backoff.backoff_period_ (backoff_ t)))
  | ReadFailTime => fun t => (t, Ok (Backoff.last_fail_time_ (backoff_ t)))
  | WritePeriod p => fun t => (set_backoff (write_period p (backoff_ t)) t, Ok tt)
  | WriteFailTime f => fun t => (set_backoff (Backoff.set_last_fail_time f (backoff_ t)) t, Ok tt)
  end.

(** ** The backoff, access by access *)

Section Backoff.
Context {Own : Type}.

(** [now > last_fail_time_ + backoff_period_]. *)
Definition expired (now : Z) : T shared Own bool :=
  t ← access ReadFailTime;
  p ← access ReadPeriod;
  mret (now >? t + p * Backoff.NS_PER_SEC).

Definition retry_ok : T shared Own bool :=
  p ← access ReadPeriod;
  if p =? 0 then mret true
  else
    now ← access Now;
    expired now.

Definition adjust_retry_limit (lim : Limits) : T shared Own bool :=
  now ← access Now;
  p ← access ReadPeriod;
  if p =? 0 then
    _ ← access (WritePeriod (lim_min lim));
    _ ← access (WriteFailTime now);
    mret true
  else
    over ← expired now;
    if over : bool then
      p ← access ReadPeriod;
      _ ← access (WritePeriod (Z.min (2 * p) (lim_max lim)));
      _ ← access (WriteFailTime now);
      mret true
    else mret false.

Definition reset : T shared Own unit :=
  p ← access ReadPeriod;
  if negb (p =? 0) then
    now ← access Now;
    over ← expired now;
    if over : bool then
      _ ← access (WritePeriod 0);
      access (WriteFailTime Backoff.epoch)
    else mret tt
  else mret tt.
End Backoff.

(** ** [RequestBase::thumbnail] *)

Definition set_state (f : Request -> Request) : T shared Request unit := private (modify f).

Definition store_thumbnail (sized : string) (scaled_image : Image P) : T shared Request string :=
  data ← from (jpeg_or_png_data scaled_image DEFAULT_QUALITY);
  _ ← access (CachePut thumbnails sized data no_expiry);
  mret data.

Definition keep_fullsize (lim : Limits) (d : ImageData (P := P)) : T shared Request (Image P) :=
  match data_policy d with
  | dont_cache_fullsize => mret (data_image d)
  | cache_fullsize =>
      r ← get_own;
      let max_size := lim_max_size lim in
      w ← from (image_width (data_image d));
      h ← from (image_height (data_image d));
      image ← (if Z.max w h >? max_size then from (scale (data_image d) (mkSize max_size max_size))
               else mret (data_image d));
      data ← from (jpeg_or_png_data image 90);
      _ ← access (CachePut full_size (key_ r) data no_expiry);
      mret image
  end.

Definition reset_backoff (l : Location) : T shared Request unit :=
  match l with remote => reset | local => mret tt end.

Definition after_failure (lim : Limits) (d : ImageData (P := P)) : T shared Request string :=
  r ← get_own;
  match data_status d with
  | needs_download =>
      match data_location d with
      | remote =>
          ok ← retry_ok;
          if negb ok then _ ← set_state (set_status temporary_error); mret "" else mret ""
      | local => mret ""
      end
  | network_down => mret ""
  | not_found =>
      later ← match data_location d with
              | remote => now ← access Now; mret (now + lim_hours lim * NS_PER_HOUR)
              | local => mret no_expiry
              end;
      _ ← access (CachePut failures (key_ r) "" later);
      _ ← reset_backoff (data_location d);
      mret ""
  | hard_error =>
      _ ← access (CachePut failures (key_ r) "" no_expiry);
      _ ← reset_backoff (data_location d);
      mret ""
  | temporary_error =>
      _ ← from (assert_ (match data_location d with remote => true | local => false end) "thumbnail: remote");
      changed ← adjust_retry_limit lim;
      if changed : bool then _ ← access ReadPeriod; mret "" else mret ""
  | timeout =>
      _ ← from (assert_ (match data_location d with remote => true | local => false end) "thumbnail: remote");
      mret ""
  | _ => from (Crash (Aborted "thumbnail"))
  end.

Definition fetch_and_scale (lim : Limits) (target : QSize) (sized : string) : T shared Request string :=
  r ← get_own;
  failed ← access (CacheGet failures (key_ r));
  match failed with
  | Some _ => _ ← set_state (set_status cached_failure); mret ""
  | None =>
      d ← private (fetch target);
      _ ← set_state (set_status (data_status d));
      match data_status d with
      | downloaded =>
          _ ← reset_backoff (data_location d);
          image ← keep_fullsize lim d;
          scaled_image ← from (scale image target);
          store_thumbnail sized scaled_image
      | _ => after_failure lim d
      end
  end.

Definition thumbnail_body (lim : Limits) : T shared Request string :=
  r ← get_own;
  if negb (isValid (requested_size_ r)) then
    from (Throw (invalid_argument (invalid_size_message (requested_size_ r))))
  else
    let target := target_size_of (requested_size_ r) (lim_max_size lim) in
    let sized := thumb_key r target in
    hit ← access (CacheGet thumbnails sized);
    match hit with
    | Some data => _ ← set_state (set_status cache_hit); mret data
    | None =>
        full ← access (CacheGet full_size (key_ r));
        match full with
        | Some data =>
            _ ← set_state (set_status scaled_from_fullsize);
            scaled_image ← from (image_of_string safe_strerror data target);
            store_thumbnail sized scaled_image
        | None => fetch_and_scale lim target sized
        end
    end.

Definition thumbnail (lim : Limits) : T shared Request string :=
  r ← get_own;
  rescue (thumbnail_body lim) (fun e =>
    from (if is_std e then
            Throw (unity_nested "unity::ResourceException"
              ("RequestBase::thumbnail(): key = " +:+ printable_key (key_ r) +:+ ": " +:+ exn_what e) e)
          else Throw e)).

(** ** Maintenance, from the thread of the event loop *)

Fixpoint for_each (f : cache_id -> shared unit) (l : list cache_id) : T shared unit unit :=
  match l with
  | [] => mret tt
  | i :: l => _ ← access (f i); for_each f l
  end.

Definition clear_stats (sel : CacheSelector) : T shared unit unit := for_each ClearStats (select_caches sel).
Definition compact (sel : CacheSelector) : T shared unit unit := for_each Compact (select_caches sel).

Definition clear (lim : Limits) (sel : CacheSelector) : T shared unit unit :=
  _ ← for_each Invalidate (select_caches sel);
  match sel with
  | sel_failure_cache | sel_all =>
      _ ← access (WriteFailTime Backoff.epoch);
      _ ← from (assert_ (0 <=? lim_max lim) "set_backoff_period");
      access (WritePeriod 0)
  | _ => mret tt
  end.
(** ** Alone *)

Lemma set_get_cache i (t : Thumbnailer C) : set_cache i (get_cache i t) t = t.
Proof. by destruct t, i. Qed.

(** The backoff operations, without interruption, are those of Backoff.v. *)
Section AloneBackoff.
Context {Own : Type}.

Lemma expired_alone now (o : Own) (t : Thumbnailer C) :
  run perform now (expired now o) t = (t, (o, Ok (Backoff.expired (backoff_ t) now))).
Proof. done. Qed.

Lemma retry_ok_alone now (o : Own) (t : Thumbnailer C) :
  run perform now (retry_ok o) t = (t, (o, Ok (Backoff.retry_ok (backoff_ t) now))).
Proof. unfold retry_ok, Backoff.retry_ok. rewrite run_bind. simpl. by destruct (_ =? 0). Qed.

Lemma adjust_alone now (o : Own) (t : Thumbnailer C) :
  run perform now (adjust_retry_limit (limits_of t) o) t =
    (set_backoff (Backoff.adjust_retry_limit (backoff_ t) now).1 t, (o, Ok (Backoff.adjust_retry_limit (backoff_ t) now).2)).
Proof.
  unfold adjust_retry_limit, Backoff.adjust_retry_limit. rewrite run_bind. simpl. destruct (_ =? 0); [done|].
  simpl. change (_ >? _) with (Backoff.expired (backoff_ t) now). destruct (Backoff.expired _ _); [done|]. by destruct t.
Qed.

Lemma reset_alone now (o : Own) (t : Thumbnailer C) :
  run perform now (reset o) t = (set_backoff (Backoff.reset (backoff_ t) now) t, (o, Ok tt)).
Proof.
  unfold reset, Backoff.reset. rewrite run_bind. simpl. destruct (_ =? 0); [by destruct t|].
  simpl. change (_ >? _) with (Backoff.expired (backoff_ t) now). destruct (Backoff.expired _ _); [done|]. by destruct t.
Qed.
End AloneBackoff.

(** [m] alone does what [n] does. *)
Definition alone {A} (now : Z) (lim : Limits) (m : T shared Request A) (n : M env A) (r : Request) (t : Thumbnailer C) : Prop :=
  limits_of t = lim ->
  run perform now (m r) t = (let '(s, o) := n (mkEnv t r) in (th s, (rq s, o))) /\ limits_of (th (n (mkEnv t r)).1) = lim.

Lemma alone_bind {A B} now lim (m : T shared Request A) n (f : A -> T shared Request B) g r t :
  alone now lim m n r t -> (forall a r' t', alone now lim (f a) (g a) r' t') -> alone now lim (m ≫= f) (n ≫= g) r t.
Proof.
  intros Hm Hf Hl. destruct (Hm Hl) as [H1 H2]. rewrite run_bind, H1. unfold mbind, M_bind.
  destruct (n (mkEnv t r)) as [s [a|e|c]]; simpl in *; [|done..]. destruct s as [t' r']. by apply Hf.
Qed.

Lemma alone_own {B} now lim (f : Request -> T shared Request B) n r t :
  alone now lim (f r) n r t -> alone now lim (get_own ≫= f) n r t.
Proof. intros H Hl. rewrite run_bind. by apply H. Qed.

Lemma alone_getS {B} now lim (m : T shared Request B) (g : env -> M env B) r t :
  (limits_of t = lim -> alone now lim m (g (mkEnv t r)) r t) -> alone now lim m (getS ≫= g) r t.
Proof. intros H Hl. by apply H. Qed.

Lemma alone_from {A} now lim (o : outcome A) r t : alone now lim (from o) (lift o) r t.
Proof. by intros Hl. Qed.

Lemma alone_ret {A} now lim (a : A) r t : alone now lim (mret a) (mret a) r t.
Proof. by intros Hl. Qed.

Lemma alone_private {A} now lim (m : M Request A) r t : alone now lim (private m) (on_request m) r t.
Proof. intros Hl. unfold on_request. simpl. by destruct (m r). Qed.

Lemma alone_cache {A} now lim i (e : shared A) (m : M C A) r t :
  (forall t, perform A e now t = at_cache i m t) ->
  alone now lim (access e) (match i with full_size => on_full m | thumbnails => on_thumb m | failures => on_failure m end) r t.
Proof.
  intros He Hl. simpl. rewrite He. unfold at_cache, on_full, on_thumb, on_failure.
  destruct i; simpl; destruct (m _) as [c o]; by split; simpl.
Qed.

(** Walk through both. *)
Ltac alone_tac :=
  repeat match goal with
  | |- alone _ _ (get_own ≫= _) _ _ _ => apply alone_own
  | |- alone _ _ _ (getS ≫= _) _ _ => apply alone_getS; intros Hlim; cbn [th rq]
  | |- alone _ _ (_ ≫= _) (_ ≫= _) _ _ => apply alone_bind; [|intros ???]
  | |- alone _ _ (from _) (lift _) _ _ => apply alone_from
  | |- alone _ _ (mret _) (mret _) _ _ => apply alone_ret
  | |- alone _ _ (private _) (on_request _) _ _ => apply alone_private
  | |- alone _ _ (set_state _) (on_request _) _ _ => apply alone_private
  | |- alone _ _ (access (CacheGet full_size _)) _ _ _ => by apply (alone_cache _ _ full_size)
  | |- alone _ _ (access (CachePut full_size _ _ _)) _ _ _ => by apply (alone_cache _ _ full_size)
  | |- alone _ _ (access (CacheGet thumbnails _)) _ _ _ => by apply (alone_cache _ _ thumbnails)
  | |- alone _ _ (access (CachePut thumbnails _ _ _)) _ _ _ => by apply (alone_cache _ _ thumbnails)
  | |- alone _ _ (access (CacheGet failures _)) _ _ _ => by apply (alone_cache _ _ failures)
  | |- alone _ _ (access (CachePut failures _ _ _)) _ _ _ => by apply (alone_cache _ _ failures)
  | |- alone _ _ (match ?x with _ => _ end) _ _ _ => destruct x
  | |- alone _ _ _ (match ?x with _ => _ end) _ _ => destruct x
  end.

Lemma alone_store now lim sized (img : Image P) r t :
  alone now lim (store_thumbnail sized img) (Thumbnailer.store_thumbnail sized img now) r t.
Proof. unfold store_thumbnail, Thumbnailer.store_thumbnail. alone_tac. Qed.

Lemma alone_reset now lim l r t : alone now lim (reset_backoff l) (Thumbnailer.reset_backoff l now) r t.
Proof.
  destruct l; simpl; [apply alone_ret|]. intros Hl. rewrite reset_alone. split; [done|]. subst lim.
  unfold limits_of. simpl. unfold Backoff.reset. by repeat case_goal.
Qed.

Lemma alone_keep now lim d r t :
  alone now lim (keep_fullsize lim d) (Thumbnailer.keep_fullsize d now) r t.
Proof.
  unfold keep_fullsize, Thumbnailer.keep_fullsize. destruct (data_policy d); [|apply alone_ret].
  apply alone_own, alone_getS. intros Hl. cbn [th rq]. replace (max_size_ t) with (lim_max_size lim) by by subst lim.
  alone_tac.
Qed.
Lemma alone_adjust now lim (g : Backoff.BackoffAdjuster -> Backoff.BackoffAdjuster) r t :
  (forall b, g b = (Backoff.adjust_retry_limit b now).1) ->
  alone now lim (changed ← adjust_retry_limit lim; if changed : bool then _ ← access ReadPeriod; mret "" else mret "")
    (_ ← on_backoff g; mret "") r t.
Proof.
  intros Hg Hl. subst lim. rewrite run_bind, adjust_alone. destruct (Backoff.adjust_limits (backoff_ t) now) as [H1 H2].
  unfold after, limits_of. simpl. rewrite Hg, H1, H2. by destruct (Backoff.adjust_retry_limit (backoff_ t) now).2.
Qed.

(** Reading on the left only. *)
Lemma alone_read {A B} now lim (m : T shared Request A) a (f : A -> T shared Request B) n r t :
  run perform now (m r) t = (t, (r, Ok a)) -> alone now lim (f a) n r t -> alone now lim (m ≫= f) n r t.
Proof. intros Hm H Hl. rewrite run_bind, Hm. by apply H. Qed.

Lemma alone_after_failure now lim d r t :
  alone now lim (after_failure lim d) (Thumbnailer.after_failure d now) r t.
Proof.
  unfold after_failure, Thumbnailer.after_failure. apply alone_own, alone_getS. intros Hl. cbn [th rq].
  assert (Hreset : forall r t, alone now lim (_ ← reset_backoff (data_location d); mret "")
    (_ ← Thumbnailer.reset_backoff (data_location d) now; mret "") r t).
  { intros r' t'. alone_tac. apply alone_reset. }
  destruct (data_status d); try (by intros _).
  - destruct (data_location d); [apply alone_ret|]. eapply alone_read; [apply retry_ok_alone|].
    by destruct (Backoff.retry_ok _ _); alone_tac.
  - replace (retry_not_found_hours_ t) with (lim_hours lim) by by subst lim.
    eapply (alone_read _ _ _ (match data_location d with local => no_expiry | remote => now + lim_hours lim * NS_PER_HOUR end));
      [by destruct (data_location d)|].
    apply alone_bind; [by apply (alone_cache _ _ failures)|]. intros. apply Hreset.
  - apply alone_bind; [apply alone_from|]. intros. by apply alone_adjust.
  - apply alone_bind; [by apply (alone_cache _ _ failures)|]. intros. apply Hreset.
  - alone_tac.
Qed.

Lemma alone_fetch_and_scale now lim target sized r t :
  alone now lim (fetch_and_scale lim target sized) (Thumbnailer.fetch_and_scale target sized now) r t.
Proof.
  unfold fetch_and_scale, Thumbnailer.fetch_and_scale. apply alone_own, alone_getS. intros Hl. cbn [th rq].
  apply alone_bind; [by apply (alone_cache _ _ failures)|]. intros failed r' t'.
  destruct failed; [alone_tac|]. apply alone_bind; [apply alone_private|]. intros d r2 t2.
  apply alone_bind; [apply alone_private|]. intros _ r3 t3.
  destruct (data_status d) eqn:Hd; try (rewrite <- Hd; apply alone_after_failure); try apply alone_after_failure.
  apply alone_bind; [apply alone_reset|]. intros _ r4 t4. apply alone_bind; [apply alone_keep|]. intros image r5 t5.
  apply alone_bind; [apply alone_from|]. intros. apply alone_store.
Qed.

Lemma alone_body now lim r t : alone now lim (thumbnail_body lim) (Thumbnailer.thumbnail_body now) r t.
Proof.
  unfold thumbnail_body, Thumbnailer.thumbnail_body. apply alone_own, alone_getS. intros Hl. cbn [th rq].
  replace (max_size_ t) with (lim_max_size lim) by by subst lim.
  destruct (negb _); [apply alone_from|]. apply alone_bind; [by apply (alone_cache _ _ thumbnails)|]. intros hit r' t'.
  destruct hit; [alone_tac|]. apply alone_bind; [by apply (alone_cache _ _ full_size)|]. intros full r2 t2.
  destruct full; [|apply alone_fetch_and_scale].
  apply alone_bind; [apply alone_private|]. intros. apply alone_bind; [apply alone_from|]. intros. apply alone_store.
Qed.

Lemma alone_thumbnail now lim r t : alone now lim (thumbnail lim) (Thumbnailer.thumbnail now) r t.
Proof.
  unfold thumbnail. apply alone_own. intros Hl. destruct (alone_body now lim r t Hl) as [H1 H2].
  unfold rescue. rewrite run_graft, H1. unfold Thumbnailer.thumbnail, catch_std, catchM.
  destruct (Thumbnailer.thumbnail_body now (mkEnv t r)) as [[t' r'] [a|e|c]]; simpl in *; [done| |done].
  unfold catchM in *. by destruct (is_std e).
Qed.

(** The maintenance operations. *)
Lemma for_each_alone now (f : cache_id -> shared unit) (m : M C unit) l : forall t o,
  (forall i t, perform unit (f i) now t = at_cache i m t) ->
  run perform now (for_each f l o) t = let '(t', x) := Thumbnailer.for_each m l t in (t', (o, x)).
Proof.
  induction l as [|i l IH]; intros t o Hf; [done|]. cbn [for_each Thumbnailer.for_each]. rewrite run_bind. simpl. rewrite Hf.
  unfold mbind, M_bind, on_cache, at_cache. destruct i; simpl; destruct (m _) as [c [x|e|k]]; simpl; try done; by apply IH.
Qed.
End Defs.

(** ** In company *)

Section Company.
Context {P L I E D : Type} {libs : ImageLibs P L I E D} {laws : ImageLaws P L I E D}.
Context {qs : QSizeScale} {qlaws : QSizeScaleLaws qs}.
Context {C : Type} {cacheC : Cache C} {claws : CacheLaws C}.
Context {host : Host} {hlaws : HostLaws host}.
Context (lim : Limits).
Implicit Types (t : Thumbnailer C) (r : Request) (d : ImageData (P := P)) (last : option (accessed (E := shared))).

Definition period_ok (p : Z) : Prop := p = 0 \/ lim_min lim <= p <= lim_max lim.
Definition limits_ok : Prop := 0 < lim_max_size lim /\ 0 < lim_min lim /\ 2 * lim_min lim <= lim_max lim.

(** The entries of a request. *)
Definition belongs (k : string) (i : cache_id) (key : string) : Prop :=
  match i with thumbnails => exists w h, key = sized_key k w h | _ => key = k end.

(** What a thread may access: [thumbnail()] of a request with key [k] the entries
    of [k], a maintenance operation no entry.  Thumbnails do not expire. *)
Definition may (who : option string) (X : Type) (e : shared X) : Prop :=
  match e with
  | CacheGet i key => exists k, who = Some k /\ belongs k i key
  | CachePut i key _ expiry => (exists k, who = Some k /\ belongs k i key) /\ (i = thumbnails -> expiry = no_expiry)
  | Invalidate _ | ClearStats _ | Compact _ => who = None
  | WritePeriod p => period_ok p
  | _ => True
  end.

Definition told (X : Type) (e : shared X) : outcome X -> Prop :=
  match e in shared Y return outcome Y -> Prop with
  | ReadPeriod => fun o => exists p, o = Ok p /\ period_ok p
  | _ => fun o => is_ok o = true
  end.

Lemma safe_read {Own X} who raises (e : shared X) (Q : option accessed -> Own -> X -> Prop) last o :
  may who _ e -> (forall x, told _ e (Ok x) -> Q (Some (Accessed e (Ok x))) o x) ->
  safe (may who) told raises Q (access e) last o.
Proof.
  intros Ha HQ. apply safe_access; [done|]. intros [x|ex|c] Hx; [by apply HQ|..]; exfalso; destruct e; simpl in Hx; try done; naive_solver.
Qed.

Notation safe who := (safe (may who) told (fun e => is_std e = true)).

Section Backoff.
Context {Own : Type} (who : option string) (lim_good : limits_ok).

Lemma safe_expired now (Q : option accessed -> Own -> bool -> Prop) last o :
  (forall last b, Q last o b) -> safe who Q (expired now) last o.
Proof.
  intros HQ. apply safe_bind, safe_read; [done|]. intros f _. apply safe_bind, safe_read; [done|]. intros p _. apply HQ.
Qed.

Lemma safe_retry_ok (Q : option accessed -> Own -> bool -> Prop) last o :
  (forall last b, Q last o b) -> safe who Q retry_ok last o.
Proof.
  intros HQ. apply safe_bind, safe_read; [done|]. intros p _. destruct (p =? 0); [apply HQ|].
  apply safe_bind, safe_read; [done|]. intros now _. by apply safe_expired.
Qed.

Lemma safe_adjust (Q : option accessed -> Own -> bool -> Prop) last o :
  (forall last b, Q last o b) -> safe who Q (adjust_retry_limit lim) last o.
Proof.
  intros HQ. destruct lim_good as (_ & H1 & H2).
  apply safe_bind, safe_read; [done|]. intros now _. apply safe_bind, safe_read; [done|]. intros p _. destruct (p =? 0).
  - apply safe_bind, safe_read; [right; lia|]. intros ? _. apply safe_bind, safe_read; [done|]. intros ? _. apply HQ.
  - apply safe_bind, safe_expired. intros l' [|]; [|apply HQ].
    apply safe_bind, safe_read; [done|]. intros p' (q & [= <-] & Hp).
    apply safe_bind, safe_read; [|intros ? _; apply safe_bind, safe_read; [done|]; intros ? _; apply HQ].
    destruct Hp as [->|Hp]; [left; lia|right; lia].
Qed.

Lemma safe_reset (Q : option accessed -> Own -> unit -> Prop) last o :
  (forall last, Q last o tt) -> safe who Q reset last o.
Proof.
  intros HQ. apply safe_bind, safe_read; [done|]. intros p _. destruct (negb _); [|apply HQ].
  apply safe_bind, safe_read; [done|]. intros now _. apply safe_bind, safe_expired. intros l' [|]; [|apply HQ].
  apply safe_bind, safe_read; [by left|]. intros ? _. apply safe_read; [done|]. intros [] _. apply HQ.
Qed.
End Backoff.

(** *** The parts of the look-up *)

(** [thumbnail()] of [r] has returned [dat]: if it made a thumbnail, the last thing
    it did was to put it into the cache. *)
Definition made_of r (st : FetchStatus) (dat : string) last : Prop :=
  st = downloaded \/ st = scaled_from_fullsize ->
  exists o, last = Some (Accessed (CachePut thumbnails (thumb_key r (target_size_of (requested_size_ r) (lim_max_size lim))) dat no_expiry) o).

Definition returned r last r' (dat : string) : Prop := same_request r r' /\ made_of r (status_ r') dat last.

Section Parts.
Context (lim_good : limits_ok) (r0 : Request) (valid : isValid (requested_size_ r0) = true).
Notation me := (Some (key_ r0)).
Let target := target_size_of (requested_size_ r0) (lim_max_size lim).
Let sized := thumb_key r0 target.

Lemma target_valid : isValid target = true.
Proof.
  destruct lim_good as [Hm _]. destruct (target_size_spec (requested_size_ r0) (lim_max_size lim) valid Hm) as (H1 & H2 & _).
  apply isValid_spec. fold target in H1, H2. lia.
Qed.

Lemma safe_status st (Q : option accessed -> Request -> unit -> Prop) last r :
  Q last (set_status st r) tt -> safe me Q (set_state (set_status st)) last r.
Proof. intros H. by apply safe_private. Qed.

Lemma safe_store (img : Image P) last r : same_request r0 r -> good_image img ->
  safe me (returned r0) (store_thumbnail sized img) last r.
Proof.
  intros Hr Hg. apply safe_bind, safe_from.
  pose proof (encode_ok img DEFAULT_QUALITY Hg ltac:(unfold DEFAULT_QUALITY; lia)) as He.
  destruct (jpeg_or_png_data img DEFAULT_QUALITY) as [data|e|c]; try done.
  apply safe_bind, safe_read; [split; [exists (key_ r0); split; [done|]; by eexists _, _|done]|].
  intros b _. apply safe_ret. split; [done|]. intros _. by eexists.
Qed.

Lemma safe_keep d (Q : option accessed -> Request -> Image P -> Prop) last r : key_ r = key_ r0 -> good_image (data_image d) ->
  (forall last img, good_image img -> Q last r img) -> safe me Q (keep_fullsize lim d) last r.
Proof.
  intros Hk Hg HQ. unfold keep_fullsize. destruct (data_policy d); [|by apply HQ].
  apply safe_own. destruct (good_dims _ Hg) as (w & h & Hw & Hh).
  apply safe_bind, safe_from. rewrite Hw. apply safe_bind, safe_from. rewrite Hh. apply safe_bind.
  assert (Hrest : forall img last, good_image img ->
    safe me Q (data ← from (jpeg_or_png_data img 90); _ ← access (CachePut full_size (key_ r) data no_expiry); mret img) last r).
  { intros img l' Hi. apply safe_bind, safe_from. pose proof (encode_ok img 90 Hi ltac:(lia)) as He.
    destruct (jpeg_or_png_data img 90) as [data|e|c]; try done.
    apply safe_bind, safe_read; [split; [by exists (key_ r0)|done]|]. intros b _. by apply HQ. }
  destruct (_ >? _); [|by apply safe_ret, Hrest].
  destruct (scale_good (data_image d) (mkSize (lim_max_size lim) (lim_max_size lim)) Hg) as (img & Hs & Hi & _).
  { apply isValid_spec. simpl. destruct lim_good. lia. }
  apply safe_from. rewrite Hs. by apply Hrest.
Qed.

Lemma safe_reset_backoff l (Q : option accessed -> Request -> unit -> Prop) last r :
  (forall last, Q last r tt) -> safe me Q (reset_backoff l) last r.
Proof. intros HQ. destruct l; [apply HQ|by apply safe_reset]. Qed.

(** Nothing was made. *)
Lemma returned_nothing last r st dat : same_request r0 r -> status_ r = st -> st <> downloaded -> st <> scaled_from_fullsize ->
  returned r0 last r dat.
Proof. intros Hr <- H1 H2. split; [done|]. by intros [?|?]. Qed.

Lemma safe_after_failure d last r : same_request r0 r -> status_ r = data_status d -> data_status d <> downloaded ->
  data_ok (is_remote r0) d -> safe me (returned r0) (after_failure lim d) last r.
Proof.
  intros Hr Hst Hne [Hloc Hd]. assert (Hk : key_ r = key_ r0) by apply Hr.
  assert (Hend : forall l', data_status d <> scaled_from_fullsize -> safe me (returned r0) (mret "") l' r).
  { intros l' Hs. apply safe_ret. by eapply returned_nothing. }
  apply safe_own. destruct (data_status d) eqn:Eq; try done; try (by apply Hend).
  - destruct (data_location d); [by apply Hend|]. apply safe_bind, safe_retry_ok. intros l' [|]; simpl; [by apply Hend|].
    apply safe_bind, safe_status, safe_ret. by eapply returned_nothing.
  - apply safe_bind. assert (Hlater : forall l' later,
      safe me (returned r0) (_ ← access (CachePut failures (key_ r) "" later); _ ← reset_backoff (data_location d); mret "") l' r).
    { intros l' later. apply safe_bind, safe_read; [split; [by exists (key_ r0)|done]|]. intros b _. apply safe_bind, safe_reset_backoff. intros l2. by apply Hend. }
    destruct (data_location d); [apply safe_ret, Hlater|]. apply safe_bind, safe_read; [done|]. intros now _. apply safe_ret, Hlater.
  - apply safe_bind, safe_from. rewrite Hloc, Hd. simpl. apply safe_bind, safe_adjust; [done|]. intros l' [|]; [|by apply Hend].
    apply safe_bind, safe_read; [done|]. intros p _. by apply Hend.
  - apply safe_bind, safe_read; [split; [by exists (key_ r0)|done]|]. intros b _. apply safe_bind, safe_reset_backoff. intros l2. by apply Hend.
  - apply safe_bind, safe_from. rewrite Hloc, Hd. simpl. by apply Hend.
Qed.

Lemma safe_fetch_and_scale last r : same_request r0 r -> is_remote r = is_remote r0 -> request_ready r ->
  safe me (returned r0) (fetch_and_scale lim target sized) last r.
Proof.
  intros Hr Hrem Hready. apply safe_own, safe_bind, safe_read; [exists (key_ r0); split; [done|apply Hr]|]. intros failed _. destruct failed.
  { apply safe_bind, safe_status, safe_ret. by eapply returned_nothing. }
  apply safe_bind, safe_private, wp_fetch; [done|]. intros r' d Hr' Hd. rewrite Hrem in Hd.
  assert (Hr2 : same_request r0 r').
  { destruct Hr as (H1 & H2 & H3), Hr' as (H4 & H5 & H6). split_and!; congruence. }
  apply safe_bind, safe_status. destruct (data_status d) eqn:Hst; try (by apply safe_after_failure; rewrite ?Hst).
  destruct Hd as [_ Hd]. rewrite Hst in Hd. apply safe_bind, safe_reset_backoff. intros l1.
  apply safe_bind, safe_keep; [apply Hr2|done|]. intros l2 img Hi. apply safe_bind, safe_from.
  destruct (scale_good img target Hi target_valid) as (img' & -> & Hi' & _). by apply safe_store.
Qed.

Lemma safe_body last : request_ready r0 -> safe me (returned r0) (thumbnail_body lim) last r0.
Proof.
  intros Hready. assert (Hself : same_request r0 r0) by done.
  apply safe_own. rewrite valid. simpl. apply safe_bind, safe_read; [exists (key_ r0); split; [done|]; by eexists _, _|].
  intros hit _. destruct hit as [data|].
  { apply safe_bind, safe_status, safe_ret. by eapply returned_nothing. }
  apply safe_bind, safe_read; [by exists (key_ r0)|]. intros full _. destruct full as [data|]; [|by apply safe_fetch_and_scale].
  apply safe_bind, safe_status, safe_bind, safe_from. fold target sized. pose proof (image_of_string_good data target) as Hi.
  destruct (image_of_string _ data target) as [img|e|c]; [|done..]. apply safe_store; [done|apply Hi].
Qed.
End Parts.
(** ** The pool *)

(** What a thread runs: a look-up in one of the pools, or maintenance in the thread
    of the event loop. *)
Inductive task : Type :=
  | Lookup (r : Request)
  | Clear (sel : CacheSelector)
  | ClearStatistics (sel : CacheSelector)
  | CompactCaches (sel : CacheSelector).

Definition who (a : task) : option string := match a with Lookup r => Some (key_ r) | _ => None end.

Definition result : Type := (Request * outcome string) + outcome unit.

Definition code (a : task) : tree shared result :=
  match a with
  | Lookup r => graft (fun x => Ret (inl x)) (thumbnail lim r)
  | Clear sel => graft (fun x => Ret (inr x.2)) (clear lim sel tt)
  | ClearStatistics sel => graft (fun x => Ret (inr x.2)) (clear_stats sel tt)
  | CompactCaches sel => graft (fun x => Ret (inr x.2)) (compact sel tt)
  end.

Record Pools : Type := mkPools {
  thumbnailer_ : Thumbnailer C;
  threads : gmap nat (task * tree shared result)
}.

(** A look-up may start when its download (if any) has completed and none with its
    key runs; the service sees to both. *)
Definition may_start (a : task) (p : Pools) : Prop :=
  match a with
  | Lookup r => request_ready r /\ forall j b m, threads p !! j = Some (b, m) -> who b <> who a
  | _ => True
  end.

Inductive step (p : Pools) : Pools -> Prop :=
  | start i a : threads p !! i = None -> may_start a p ->
      step p (mkPools (thumbnailer_ p) (<[i := (a, code a)]> (threads p)))
  | advance i a X (e : shared X) k now : threads p !! i = Some (a, Vis e k) ->
      step p (mkPools (perform X e now (thumbnailer_ p)).1 (<[i := (a, k (perform X e now (thumbnailer_ p)).2)]> (threads p)))
  | finish i a v : threads p !! i = Some (a, Ret v) -> step p (mkPools (thumbnailer_ p) (delete i (threads p))).

(** *** One access *)

Definition caches_valid t : Prop := forall i, cache_valid (get_cache i t).

(** Entries that are not [k]'s stay or are evicted. *)
Definition spares (k : option string) t t' : Prop :=
  forall i key now, (forall k', k = Some k' -> ~ belongs k' i key) ->
    cache_lookup (get_cache i t') now key = cache_lookup (get_cache i t) now key \/ cache_lookup (get_cache i t') now key = None.

(** The thumbnails that may have been lost. *)
Context (lost : string -> bool).

(** The entry the last access put into the thumbnail cache. *)
Definition stored (a : option (accessed (E := shared))) : option (string * string) :=
  match a with
  | Some (Accessed (CachePut thumbnails k v x) _) => if x =? no_expiry then Some (k, v) else None
  | _ => None
  end.

Definition kept last t : Prop :=
  forall k v now, stored last = Some (k, v) -> cache_fits (thumbnail_cache_ t) k v ->
    cache_lookup (thumbnail_cache_ t) now k = Some v \/ cache_lookup (thumbnail_cache_ t) now k = None /\ lost k = true.

Record access_ok (w : option string) {X} (e : shared X) (o : outcome X) t t' : Prop := mkAccess {
  ac_valid : caches_valid t';
  ac_limits : limits_of t' = limits_of t;
  ac_period : period_ok (Backoff.backoff_period_ (backoff_ t'));
  ac_told : told X e o;
  ac_spares : spares w t t';
  ac_room : forall i, cache_room (get_cache i t') = cache_room (get_cache i t);
  ac_kept : kept (Some (Accessed e o)) t'
}.

Lemma get_set_cache i j (c : C) t : get_cache j (set_cache i c t) = if decide (i = j) then c else get_cache j t.
Proof. by destruct i, j. Qed.

(** A cache operation on cache [i] that changes at most the entry [key]. *)
Lemma cache_access w i {A} (m : M C A) t (changed : option string) :
  caches_valid t -> (forall key, changed = Some key -> exists k, w = Some k /\ belongs k i key) ->
  cache_room (m (get_cache i t)).1 = cache_room (get_cache i t) ->
  (exists c a, m (get_cache i t) = (c, Ok a) /\ cache_valid c /\
     forall now key, changed <> Some key -> cache_lookup c now key = cache_lookup (get_cache i t) now key \/ cache_lookup c now key = None) ->
  exists c a, at_cache i m t = (set_cache i c t, Ok a) /\ m (get_cache i t) = (c, Ok a) /\ caches_valid (set_cache i c t) /\
    limits_of (set_cache i c t) = limits_of t /\ backoff_ (set_cache i c t) = backoff_ t /\ spares w t (set_cache i c t) /\
    forall j, cache_room (get_cache j (set_cache i c t)) = cache_room (get_cache j t).
Proof.
  intros Hv Hch Hr (c & a & Hm & Hc & Hl). exists c, a. unfold at_cache. rewrite Hm in *. split_and!; try done; try (by destruct i).
  - intros j. rewrite get_set_cache. by destruct (decide (i = j)).
  - intros j key now Hno. rewrite get_set_cache. destruct (decide (i = j)) as [<-|]; [|by left]. apply Hl. intros ->.
    destruct (Hch key eq_refl) as (k & -> & Hb). by apply (Hno k).
  - intros j. rewrite get_set_cache. by destruct (decide (i = j)) as [<-|].
Qed.

Lemma perform_ok w X (e : shared X) now t :
  limits_of t = lim -> caches_valid t -> period_ok (Backoff.backoff_period_ (backoff_ t)) -> may w X e ->
  access_ok w e (perform X e now t).2 t (perform X e now t).1.
Proof.
  intros Hlim Hv Hp Hm.
  assert (Hb : forall f, (forall b, Backoff.min_backoff_ (f b) = Backoff.min_backoff_ b /\ Backoff.max_backoff_ (f b) = Backoff.max_backoff_ b) ->
    caches_valid (set_backoff (f (backoff_ t)) t) /\ limits_of (set_backoff (f (backoff_ t)) t) = limits_of t /\
    spares w t (set_backoff (f (backoff_ t)) t)).
  { intros f Hf. destruct (Hf (backoff_ t)) as [H1 H2]. split_and!; [exact Hv|unfold limits_of; simpl; by rewrite H1, H2|]. intros i key n _. left. by destruct i. }
  assert (Hid : spares w t t) by (intros i key n _; by left).
  assert (Hus : forall i, cache_usable (get_cache i t)) by (intros i; apply cache_valid_usable, Hv).
  destruct e as [i key|i key v x|i|i|i| | | |q|f]; simpl.
  - destruct (cache_access w i (cache_get key now) t None Hv) as (c & a & -> & _ & H1 & H2 & H3 & H4 & H5); [done|apply cache_get_room|..].
    { destruct (cache_get_law key now _ (Hus i)) as (c & Hg & Hc & Hl). eexists _, _. split; [done|]. split; [done|]. left. by rewrite Hl. }
    by split; simpl; rewrite ?H3.
  - destruct Hm as [Hm Hx]. destruct (cache_put_law key v x now _ (Hus i)) as (c & b & Hput & Hc & Hl & Hadd).
    destruct (cache_access w i (cache_put key v x now) t (Some key) Hv) as (c' & b' & -> & Hput' & H1 & H2 & H3 & H4 & H5); [|apply cache_put_room|..].
    { intros ? [= <-]. exact Hm. }
    { eexists _, _. split; [done|]. split; [done|]. intros n k' Hk. apply Hl. congruence. }
    split; simpl; rewrite ?H3; try done. intros k' v' n. simpl. destruct i; try done. rewrite Hx by done. simpl.
    intros [= <- <-]. unfold cache_fits. intros Hfit. left. specialize (H5 thumbnails). simpl in *. rewrite H5 in Hfit.
    rewrite (Hx eq_refl) in *. pose proof (cache_put_accepts key v no_expiry now _ (Hus thumbnails) Hfit eq_refl) as Ha. simpl in Ha.
    rewrite Hput in *. injection Hput' as <- <-. simpl in Ha. injection Ha as ->. by rewrite Hadd.
  - destruct (cache_access w i cache_invalidate t None Hv) as (c & a & -> & _ & H1 & H2 & H3 & H4 & H5); [done|apply cache_invalidate_room|..].
    { destruct (cache_invalidate_law _ (Hus i)) as (c & Hg & Hc & Hl). eexists _, _. split; [done|]. split; [done|]. right. apply Hl. }
    by split; simpl; rewrite ?H3.
  - destruct (cache_access w i cache_clear_stats t None Hv) as (c & a & -> & _ & H1 & H2 & H3 & H4 & H5); [done|apply cache_clear_stats_room|..].
    { destruct (cache_clear_stats_law _ (Hv i)) as (c & Hg & Hc & Hl). eexists _, _. split; [done|]. split; [done|]. left. by rewrite Hl. }
    by split; simpl; rewrite ?H3.
  - destruct (cache_access w i cache_compact t None Hv) as (c & a & -> & _ & H1 & H2 & H3 & H4 & H5); [done|apply cache_compact_room|..].
    { destruct (cache_compact_law _ (Hus i)) as (c & Hg & Hc & Hl). eexists _, _. split; [done|]. split; [done|]. left. by rewrite Hl. }
    by split; simpl; rewrite ?H3.
  - by split; simpl.
  - split; try done. by eexists.
  - by split; simpl.
  - destruct (Hb (write_period q)) as (H1 & H2 & H3); [done|]. split; simpl; try done; by intros [].
  - destruct (Hb (Backoff.set_last_fail_time f)) as (H1 & H2 & H3); [done|]. split; simpl; try done; by intros [].
Qed.
(** *** The invariant of the pool *)

(** What a task may end with. *)
Definition ends (a : task) last (v : result) : Prop :=
  match a, v with
  | Lookup r, inl (r', Ok dat) => returned r last r' dat
  | Lookup _, inl (_, Throw e) => exists msg caught, e = unity_nested "unity::ResourceException" msg caught
  | (Clear _ | ClearStatistics _ | CompactCaches _), inr o => o = Ok tt
  | _, _ => False
  end.

Notation runs a := (good (may (who a)) told (ends a)).

(** The last access was to an entry of the task. *)
Definition owned (a : task) last : Prop :=
  forall key v, stored last = Some (key, v) -> exists k, who a = Some k /\ belongs k thumbnails key.

Record PInv (p : Pools) : Prop := mkPInv {
  pi_limits : limits_of (thumbnailer_ p) = lim;
  pi_valid : caches_valid (thumbnailer_ p);
  pi_period : period_ok (Backoff.backoff_period_ (backoff_ (thumbnailer_ p)));
  pi_threads : forall i a m, threads p !! i = Some (a, m) ->
    exists last, runs a last m /\ owned a last /\ kept last (thumbnailer_ p);
  pi_distinct : forall i j a b m n k, threads p !! i = Some (a, m) -> threads p !! j = Some (b, n) ->
    who a = Some k -> who b = Some k -> i = j
}.

(** Maintenance does not throw. *)
Notation steady := (Threads.safe (may None) told (fun _ => False) (fun _ _ (_ : unit) => True)).

Lemma steady_for_each (f : cache_id -> shared unit) l : forall last,
  (forall i, may None _ (f i)) -> steady (for_each f l) last tt.
Proof.
  induction l as [|i l IH]; intros last Hf; [done|]. cbn [for_each]. apply safe_bind, safe_read; [apply Hf|]. intros ? _. by apply IH.
Qed.

Lemma steady_clear sel last : limits_ok -> steady (clear lim sel) last tt.
Proof.
  intros (_ & H1 & H2). apply safe_bind. eapply safe_mono; [|by apply steady_for_each]. intros l' [] [] _.
  assert (Hb : steady (_ ← access (WriteFailTime Backoff.epoch);
    _ ← from (assert_ (0 <=? lim_max lim) "set_backoff_period"); access (WritePeriod 0)) l' tt).
  { apply safe_bind, safe_read; [done|]. intros ? _. apply safe_bind, safe_from. unfold assert_.
    destruct (Z.leb_spec 0 (lim_max lim)); [|lia]. apply safe_read; [by left|]. done. }
  by destruct sel.
Qed.

Lemma steady_ends (a : task) (m : T shared unit unit) : who a = None -> (forall last o, o = Ok tt -> ends a last (inr o)) ->
  steady m None tt -> runs a None (graft (fun x => Ret (inr x.2)) (m tt)).
Proof.
  intros Ha He Hm. apply good_graft. rewrite Ha. eapply good_mono; [|exact Hm].
  intros l' [o [[]|e|c]]; unfold fine; simpl; try done. intros _. by apply He.
Qed.

Lemma code_runs (a : task) : limits_ok -> match a with Lookup r => request_ready r | _ => True end -> runs a None (code a).
Proof.
  intros Hlim Hr. destruct a as [r|sel|sel|sel]; cbn [code].
  - apply good_graft. unfold thumbnail.
    assert (Hb : safe (Some (key_ r)) (returned r) (thumbnail_body lim) None r).
    { destruct (isValid (requested_size_ r)) eqn:Hv; [by apply safe_body|]. apply safe_own. rewrite Hv. by apply safe_from. }
    change (good (may (Some (key_ r))) told (fun last x => ends (Lookup r) last (inl x)) None
      (graft (fun x => match x with (l', Throw e) => from (if is_std e then Throw (unity_nested "unity::ResourceException"
         ("RequestBase::thumbnail(): key = " +:+ printable_key (key_ r) +:+ ": " +:+ exn_what e) e) else Throw e) l' | x => Ret x end)
         (thumbnail_body lim r))).
    apply good_graft. eapply good_mono; [|exact Hb]. intros l' [r' [dat|e|c]]; unfold fine; simpl; [done| |done].
    intros ->. eauto.
  - apply steady_ends; [done|by intros ?? ->|by apply steady_clear].
  - apply steady_ends; [done|by intros ?? ->|by apply steady_for_each].
  - apply steady_ends; [done|by intros ?? ->|by apply steady_for_each].
Qed.

(** The entry of a task survives the accesses of the others. *)
Lemma kept_spares (a : task) w last t t' : owned a last -> (forall k, who a = Some k -> w <> Some k) -> spares w t t' ->
  cache_room (thumbnail_cache_ t') = cache_room (thumbnail_cache_ t) ->
  (forall k, lost k = false -> ~ CacheLife.loses thumbnails k t t') ->
  kept last t -> kept last t'.
Proof.
  intros Ho Hd Hs Hr Hn Hk key v now Hst Hfit. unfold cache_fits in Hfit. rewrite Hr in Hfit. destruct (Ho _ _ Hst) as (k & Ha & sw & sh & ->).
  assert (Hno : forall k', w = Some k' -> ~ belongs k' thumbnails (sized_key k sw sh)).
  { intros k' Hk' (w1 & h1 & Hkey). apply sized_key_inj in Hkey as [-> _]. by apply (Hd k'). }
  specialize (Hk _ _ now Hst Hfit). destruct (Hs _ _ now Hno) as [Heq|Heq]; simpl in Heq; rewrite Heq; [done|].
  destruct (lost (sized_key k sw sh)) eqn:Hl; [by right|]. destruct Hk as [Hk|[_ Hk]]; [|done].
  exfalso. apply (Hn _ Hl). exists now. simpl. by rewrite Hk.
Qed.

Lemma access_owned (a : task) X (e : shared X) o : may (who a) X e -> owned a (Some (Accessed e o)).
Proof.
  intros Hm key v. simpl. destruct e as [|i key' v' x| | | | | | | |]; try done. destruct i; try done.
  destruct (x =? no_expiry); [|done]. intros [= <- <-]. exact (proj1 Hm).
Qed.

Lemma thread_start_inv i a p : limits_ok -> PInv p -> threads p !! i = None -> may_start a p ->
  PInv (mkPools (thumbnailer_ p) (<[i := (a, code a)]> (threads p))).
Proof.
  intros Hlim [H1 H2 H3 H4 H5] Hi Hm. constructor; simpl; try done.
  - intros j b m. rewrite lookup_insert_Some. intros [[<- [= <- <-]]|[_ Hj]]; [|eauto].
    exists None. split; [|split; [done|by intros ????]]. apply code_runs; [done|]. destruct a; try done. apply Hm.
  - intros j1 j2 b1 b2 m1 m2 k. rewrite !lookup_insert_Some. intros [[<- [= <- <-]]|[Hn1 Hj1]] [[<- [= <- <-]]|[Hn2 Hj2]] Hk1 Hk2; try done.
    + exfalso. destruct a as [r| | |]; try done. destruct Hm as [_ Hm]. apply (Hm _ _ _ Hj2). congruence.
    + exfalso. destruct a as [r| | |]; try done. destruct Hm as [_ Hm]. apply (Hm _ _ _ Hj1). congruence.
    + by eapply H5.
Qed.

Lemma thread_access_ok i a X (e : shared X) k now p : PInv p -> threads p !! i = Some (a, Vis e k) ->
  access_ok (who a) e (perform X e now (thumbnailer_ p)).2 (thumbnailer_ p) (perform X e now (thumbnailer_ p)).1.
Proof.
  intros [H1 H2 H3 H4 _] Hi. destruct (H4 _ _ _ Hi) as (last & [Hm _] & _). by apply perform_ok.
Qed.

Lemma thread_advance_inv i a X (e : shared X) k now p : PInv p -> threads p !! i = Some (a, Vis e k) ->
  (forall k, lost k = false -> ~ CacheLife.loses thumbnails k (thumbnailer_ p) (perform X e now (thumbnailer_ p)).1) ->
  PInv (mkPools (perform X e now (thumbnailer_ p)).1 (<[i := (a, k (perform X e now (thumbnailer_ p)).2)]> (threads p))).
Proof.
  intros HI Hi Hn. pose proof (thread_access_ok i a X e k now p HI Hi) as [A1 A2 A3 A4 A5 A6 A7].
  destruct HI as [H1 H2 H3 H4 H5]. destruct (H4 _ _ _ Hi) as (last & [Hm Hk] & Ho & Hkept).
  constructor; simpl; try done; [congruence|..].
  - intros j b m. rewrite lookup_insert_Some. intros [[<- [= <- <-]]|[Hne Hj]].
    + eexists. split; [by apply Hk|]. split; [by apply access_owned|done].
    + destruct (H4 _ _ _ Hj) as (l' & R1 & R2 & R3). exists l'. split_and!; [done|done|].
      eapply kept_spares; [done| |done|apply (A6 thumbnails)|done|done]. intros k' Hb Ha. apply Hne. by eapply H5.
  - intros j1 j2 b1 b2 m1 m2 k'. rewrite !lookup_insert_Some.
    intros [[<- [= <- <-]]|[Hn1 Hj1]] [[<- [= <- <-]]|[Hn2 Hj2]] Hk1 Hk2; try done; by eapply H5.
Qed.

Lemma thread_finish_inv i p : PInv p -> PInv (mkPools (thumbnailer_ p) (delete i (threads p))).
Proof.
  intros [H1 H2 H3 H4 H5]. constructor; simpl; try done.
  - intros j b m [_ Hj]%lookup_delete_Some. by apply H4 in Hj.
  - intros j1 j2 b1 b2 m1 m2 k [_ Hj1]%lookup_delete_Some [_ Hj2]%lookup_delete_Some. by apply (H5 _ _ _ _ _ _ _ Hj1 Hj2).
Qed.

Lemma step_pinv p p' : limits_ok -> PInv p -> step p p' ->
  (forall k, lost k = false -> ~ CacheLife.loses thumbnails k (thumbnailer_ p) (thumbnailer_ p')) -> PInv p'.
Proof.
  intros Hlim HI [i a Hi Hm|i a X e k now Hi|i a v Hi] Hn.
  - by apply thread_start_inv.
  - by apply (thread_advance_inv i a X e k now p HI Hi).
  - by apply thread_finish_inv.
Qed.

(** A step that loses only what may have been lost. *)
Definition spare_step (p p' : Pools) : Prop :=
  step p p' /\ forall k, lost k = false -> ~ CacheLife.loses thumbnails k (thumbnailer_ p) (thumbnailer_ p').

Lemma spared_pinv t p : limits_of t = lim -> 0 < max_size_ t -> Backoff.wf (backoff_ t) -> caches_valid t ->
  rtc spare_step (mkPools t ∅) p -> limits_ok /\ PInv p.
Proof.
  intros Hl Hm [[Hb1 Hb2] Hp] Hv Hr.
  assert (Hlim : limits_ok) by (unfold limits_ok; rewrite <- Hl; split_and!; simpl; lia). split; [done|].
  assert (H0 : PInv (mkPools t ∅)).
  { constructor; simpl; try done.
    unfold period_ok. rewrite <- Hl. destruct Hp; [by left|by right]. }
  revert H0. induction Hr as [|p1 p2 p3 [Hs Hn] _ IH]; [done|]. intros H1. apply IH. by eapply step_pinv.
Qed.

(** No task with key [k] in the pool. *)
Definition without (k : string) (p : Pools) : Prop := forall i a m, threads p !! i = Some (a, m) -> who a <> Some k.

Lemma step_spares k p p' : PInv p -> without k p -> step p p' ->
  forall i key now, belongs k i key ->
    cache_lookup (get_cache i (thumbnailer_ p')) now key = cache_lookup (get_cache i (thumbnailer_ p)) now key \/
    cache_lookup (get_cache i (thumbnailer_ p')) now key = None.
Proof.
  intros HI Hno [i a Hi Hm|i a X e c now' Hi|i a v Hi] j key now Hb; simpl; try by left.
  apply (ac_spares _ _ _ _ _ (thread_access_ok i a X e c now' p HI Hi)).
  intros k' Hk' Hb'. apply (Hno _ _ _ Hi). rewrite Hk'. f_equal. clear -Hb Hb'.
  destruct j; simpl in *; try congruence. destruct Hb as (w & h & ->), Hb' as (w' & h' & Hkey). by apply sized_key_inj in Hkey as [-> _].
Qed.

(** *** How many accesses a task makes *)

Definition longest : nat := 11.

Lemma within_bind {Own A B} (m : T shared Own A) (f : A -> T shared Own B) n n' l :
  within n (m l) -> (forall a l', within n' (f a l')) -> within (n + n') ((m ≫= f) l).
Proof.
  intros Hm Hf. unfold mbind, T_bind. apply within_graft; [done|]. intros [l' [a|e|c]]; [apply Hf|done..].
Qed.

Lemma within_access {Own X B} (e : shared X) (f : X -> T shared Own B) n l :
  (forall x l', within n (f x l')) -> within (Datatypes.S n) ((access e ≫= f) l).
Proof. intros Hf. by apply (within_bind (access e) f 1 n). Qed.

Lemma within_done {Own A B} (m : T shared Own A) (f : A -> T shared Own B) n l :
  within 0 (m l) -> (forall x l', within n (f x l')) -> within n ((m ≫= f) l).
Proof. apply (within_bind m f 0 n). Qed.

Ltac within_tac :=
  repeat match goal with
  | |- within _ ((get_own ≫= _) _) => apply within_done; [done|intros ??]
  | |- within _ ((access _ ≫= _) _) => apply within_access; intros ??
  | |- within _ ((from _ ≫= _) _) => apply within_done; [done|intros ??]
  | |- within _ ((private _ ≫= _) _) => apply within_done; [done|intros ??]
  | |- within _ ((set_state _ ≫= _) _) => apply within_done; [done|intros ??]
  | |- within _ ((mret _ ≫= _) _) => apply within_done; [done|intros ??]
  | |- within _ (access _ _) => by simpl
  | |- within _ (match ?x with _ => _ end _) => destruct x
  | |- within _ (mret _ _) => done
  | |- within _ (from _ _) => done
  end.

Section Bounds.
Context {Own : Type}.
Implicit Types (l : Own).

Lemma within_expired now l : within 2 (expired now l).
Proof. unfold expired. within_tac. Qed.

Lemma within_retry_ok l : within 4 (retry_ok l).
Proof. unfold retry_ok. within_tac. apply within_expired. Qed.

Lemma within_adjust l : within 7 (adjust_retry_limit lim l).
Proof.
  unfold adjust_retry_limit. within_tac. apply (within_bind (expired _) _ 2 3); [apply within_expired|]. intros. within_tac.
Qed.

Lemma within_reset l : within 6 (reset l).
Proof.
  unfold reset. within_tac. apply (within_bind (expired _) _ 2 2); [apply within_expired|]. intros. within_tac.
Qed.
End Bounds.

Lemma within_reset_backoff l r : within 6 (reset_backoff l r).
Proof. destruct l; [done|apply within_reset]. Qed.

Lemma within_store sized (img : Image P) r : within 1 (store_thumbnail sized img r).
Proof. unfold store_thumbnail. within_tac. Qed.

Lemma within_keep d r : within 1 (keep_fullsize lim d r).
Proof.
  unfold keep_fullsize. within_tac. apply within_done; [by destruct (_ >? _)|]. intros. within_tac.
Qed.

Lemma within_after_failure d r : within 8 (after_failure lim d r).
Proof.
  assert (Hend : forall n (a : string) r', within n ((mret a : T shared Request string) r')) by (by intros [|]).
  unfold after_failure. within_tac; try done.
  - apply (within_bind retry_ok _ 4 4); [apply within_retry_ok|]. intros. within_tac.
  - apply (within_bind _ _ 1 7); [destruct (data_location d); [done|by apply within_access]|]. intros. within_tac.
    apply (within_bind (reset_backoff _) _ 6 0); [apply within_reset_backoff|]. intros. apply Hend.
  - apply (within_bind (adjust_retry_limit lim) _ 7 1); [apply within_adjust|]. intros. within_tac.
  - apply (within_bind (reset_backoff _) _ 6 1); [apply within_reset_backoff|]. intros. apply Hend.
Qed.

Lemma within_fetch_and_scale target sized r : within 9 (fetch_and_scale lim target sized r).
Proof.
  unfold fetch_and_scale. within_tac; try apply within_after_failure.
  apply (within_bind (reset_backoff _) _ 6 2); [apply within_reset_backoff|]. intros.
  apply (within_bind (keep_fullsize lim _) _ 1 1); [apply within_keep|]. intros. within_tac. apply within_store.
Qed.

Lemma within_for_each (f : cache_id -> shared unit) l : within (length l) (for_each f l tt).
Proof. induction l as [|i l IH]; [done|]. cbn [for_each length]. apply within_access. by intros ? []. Qed.

Lemma within_code (a : task) : within longest (code a).
Proof.
  assert (Hsel : forall sel, (length (select_caches sel) <= 3)%nat) by (intros []; simpl; lia).
  destruct a as [r|sel|sel|sel]; cbn [code]; apply (within_graft _ 0 _ longest); try by (intros; by simpl).
  - apply within_done; [done|]. intros r1 r2. apply (within_graft _ 0 _ longest); [|intros [? [?|?|?]]; exact Logic.I].
    unfold thumbnail_body. within_tac; try done; [|apply within_fetch_and_scale].
    apply within_weaken with (n := 1%nat); [lia|]. apply within_store.
  - apply (within_bind (for_each Invalidate _) _ 9 2).
    { eapply within_weaken; [|apply within_for_each]. specialize (Hsel sel). lia. }
    intros [] []. within_tac; exact Logic.I.
  - eapply within_weaken; [|apply within_for_each]. specialize (Hsel sel). unfold longest. lia.
  - eapply within_weaken; [|apply within_for_each]. specialize (Hsel sel). unfold longest. lia.
Qed.
End Company.

(** ** Every run *)

Section Runs.
Context {P L I E D : Type} {libs : ImageLibs P L I E D} {laws : ImageLaws P L I E D}.
Context {qs : QSizeScale} {qlaws : QSizeScaleLaws qs}.
Context {C : Type} {cacheC : Cache C} {claws : CacheLaws C}.
Context {host : Host} {hlaws : HostLaws host}.
Context (lim : Limits).
Implicit Types (t : Thumbnailer C) (p : Pools (C := C)).

(** Anything may be lost. *)
Notation any := (fun _ : string => true).

Lemma any_step_pinv p p' : limits_ok lim -> PInv lim any p -> step lim p p' -> PInv lim any p'.
Proof. intros Hlim HI Hs. by eapply step_pinv. Qed.

Lemma reachable_pinv t p : limits_of t = lim -> 0 < max_size_ t -> Backoff.wf (backoff_ t) -> caches_valid t ->
  rtc (step lim) (mkPools t ∅) p -> limits_ok lim /\ PInv lim any p.
Proof.
  intros Hl Hm Hb Hv Hr. apply (spared_pinv lim any t p); try done. eapply rtc_subrel; [|exact Hr].
  intros x y Hs. by split.
Qed.
End Runs.
End Concurrent.
