(* ===== verification/PoolCorrect.v ===== *)
(** * What holds of the thread pools, in every interleaving

    The properties of Concurrent.v: no run in company crashes, spoils a cache or the
    backoff state; a thumbnail that was made stays in the cache, whatever the other
    threads do; every run is finite; and what does not hold: the backoff state is
    not protected, and a success can erase a failure it did not see. *)

From S2P Require Import Prelude CxxLib QtSize Settings Backoff Image CacheInterface ImageExtractor Threads Keys Thumbnailer CacheLife.
From S2P Require Import ImageInstance CacheHelper ThumbnailerInstance Concurrent.
Import Cxx QtSize Image CacheInterface Keys Threads.
Import Thumbnailer Concurrent.

Module PoolCorrect.

Section Alone.
Context {P L I E D : Type} {libs : ImageLibs P L I E D} {qs : QSizeScale}.
Context {C : Type} {cacheC : Cache C} {host : Host}.

(** The look-up as the sequence of its accesses, run without interruption, is the
    look-up of Thumbnailer.v: the same thumbnailer, the same request, the same
    result or exception. *)
Theorem thumbnail_alone now (t : Thumbnailer C) (r : Request) :
  run perform now (Concurrent.thumbnail (limits_of t) r) t =
    let '(s, o) := Thumbnailer.thumbnail now (mkEnv t r) in (th s, (rq s, o)).
Proof. by apply (alone_thumbnail now (limits_of t) r t). Qed.
End Alone.

(** ** Accesses *)

Section Accesses.
Context {P L I E D : Type} {libs : ImageLibs P L I E D} {qs : QSizeScale}.
Context {C : Type} {cacheC : Cache C} {host : Host} (lim : Limits).

(** A step that is an access. *)
Inductive access_step (p : Pools (C := C)) : Pools (C := C) -> Prop :=
  | one_access i a X (e : shared X) k now : threads p !! i = Some (a, Vis e k) ->
      access_step p (mkPools (perform X e now (thumbnailer_ p)).1 (<[i := (a, k (perform X e now (thumbnailer_ p)).2)]> (threads p))).

Definition all_done (p : Pools (C := C)) : Prop := forall i a m, threads p !! i = Some (a, m) -> exists v, m = Ret v.

(** The pool without what its threads are. *)
Definition trees (p : Pools (C := C)) : Thumbnailer C * gmap nat (tree shared result) := (thumbnailer_ p, snd <$> threads p).

Lemma access_is_step p p' : access_step p p' -> step lim p p'.
Proof. intros [i a X e k now Hi]. by apply advance. Qed.

Lemma access_trees p p' : access_step p p' -> pool_step perform (trees p) (trees p').
Proof.
  intros [i a X e k now Hi]. unfold trees. simpl. rewrite fmap_insert. apply pool_access. by rewrite lookup_fmap, Hi.
Qed.

Lemma trees_access p y : pool_step perform (trees p) y ->
  exists p', access_step p p' /\ trees p' = y /\ dom (threads p') = dom (threads p).
Proof.
  unfold trees. intros Hs. inversion Hs as [s q i X e k now Hi]; subst. rewrite lookup_fmap in Hi.
  destruct (threads p !! i) as [[a m]|] eqn:Ha; [|done]. simpl in Hi. injection Hi as ->.
  eexists. split; [by apply (one_access p i a X e k now)|]. simpl. rewrite fmap_insert, dom_insert_L. split; [done|].
  apply elem_of_dom_2 in Ha. set_solver.
Qed.

Lemma trees_run x y : rtc (pool_step perform) x y -> forall p, x = trees p ->
  exists p', rtc access_step p p' /\ trees p' = y /\ dom (threads p') = dom (threads p).
Proof.
  induction 1 as [x|x y z Hs _ IH]; intros p ->; [by exists p|].
  destruct (trees_access p y Hs) as (p1 & H1 & H2 & H3). destruct (IH p1 (eq_sym H2)) as (p2 & H4 & H5 & H6).
  exists p2. split; [by eapply rtc_l|]. split; [done|congruence].
Qed.

(** Every thread has at most [longest] accesses to make. *)
Definition short (p : Pools (C := C)) : Prop := forall i a m, threads p !! i = Some (a, m) -> within longest m.

Lemma step_short p p' : step lim p p' -> short p -> short p'.
Proof.
  intros [i a Hi Hm|i a X e k now Hi|i a v Hi] Hp j b m; simpl.
  - intros [[<- [= <- <-]]|[_ Hj]]%lookup_insert_Some; [apply within_code|by eapply Hp].
  - intros [[<- [= <- <-]]|[_ Hj]]%lookup_insert_Some; [|by eapply Hp].
    specialize (Hp _ _ _ Hi). apply (within_weaken _ 10 longest); [unfold longest; lia|apply Hp].
  - intros [_ Hj]%lookup_delete_Some. by eapply Hp.
Qed.

Lemma reachable_short t p : rtc (step lim) (mkPools t ∅) p -> short p.
Proof.
  intros Hr. assert (H0 : short (mkPools t ∅)) by done. revert H0. induction Hr as [|p1 p2 p3 Hs _ IH]; [done|].
  intros H1. apply IH. by eapply step_short.
Qed.

Definition all_longest (p : Pools (C := C)) : gmap nat nat := (fun _ => longest) <$> threads p.

Lemma short_bounded p : short p -> bounded (all_longest p) (trees p).2.
Proof.
  intros Hp i m. unfold trees, all_longest. simpl. rewrite !lookup_fmap. destruct (threads p !! i) as [[a m']|] eqn:Hi; [|done].
  simpl. intros [= <-]. exists longest. split; [done|]. by eapply Hp.
Qed.

Lemma total_longest p : total (all_longest p) = 11 * Z.of_nat (size (threads p)).
Proof.
  unfold total, all_longest. generalize (threads p). intros q. induction q as [|i x q Hi IH] using map_ind.
  - by rewrite fmap_empty, map_sum_empty, map_size_empty.
  - rewrite fmap_insert, map_sum_insert by (by rewrite lookup_fmap, Hi). rewrite map_size_insert_None, IH by done. unfold longest. lia.
Qed.

(** Whatever has been started in the pools, and whoever runs when: the threads make
    at most eleven accesses each, and they can all be run to their ends. *)
Theorem pool_finishes t p : rtc (step lim) (mkPools t ∅) p ->
  (forall n p', nsteps access_step n p p' -> Z.of_nat n <= 11 * Z.of_nat (size (threads p))) /\
  exists p', rtc access_step p p' /\ dom (threads p') = dom (threads p) /\ all_done p'.
Proof.
  intros Hr. pose proof (short_bounded p (reachable_short t p Hr)) as Hb. split.
  - intros n p' Hn. rewrite <- total_longest. destruct (trees p) as [s q] eqn:Eq. destruct (trees p') as [s' q'] eqn:Eq'.
    apply (pool_run_bounded perform n (all_longest p) s q s' q'); [exact Hb|]. rewrite <- Eq, <- Eq'. clear -Hn.
    induction Hn as [|n p1 p2 p3 Hs _ IH]; [constructor|]. econstructor; [by apply access_trees|exact IH].
  - destruct (pool_run_finishes perform (all_longest p) (thumbnailer_ p) (trees p).2 Hb) as (s' & q & Hq & Hf & _).
    destruct (trees_run _ _ Hq p eq_refl) as (p' & H1 & H2 & H3). exists p'. split_and!; [done|done|].
    intros i a m Hi. injection H2 as _ <-. apply (Hf i m). by rewrite lookup_fmap, Hi.
Qed.
End Accesses.

(** ** Safety *)

Section Safety.
Context {P L I E D : Type} {libs : ImageLibs P L I E D} {laws : ImageLaws P L I E D}.
Context {qs : QSizeScale} {qlaws : QSizeScaleLaws qs}.
Context {C : Type} {cacheC : Cache C} {claws : CacheLaws C}.
Context {host : Host} {hlaws : HostLaws host}.
Implicit Types (t : Thumbnailer C) (p : Pools (C := C)).

(** What a finished task has left. *)
Definition ended_well (a : task) (v : result) : Prop :=
  match a, v with
  | Lookup r, inl (r', Ok _) => same_request r r'
  | Lookup _, inl (_, Throw e) => exists msg caught, e = unity_nested "unity::ResourceException" msg caught
  | (Clear _ | ClearStatistics _ | CompactCaches _), inr o => o = Ok tt
  | _, _ => False
  end.

(** C22. In every interleaving of any number of look-ups and maintenance operations the
    caches stay valid, the backoff state stays well-formed although it is read and
    written without a lock, no look-up crashes and none throws anything but a
    [ResourceException]; maintenance succeeds. *)
Theorem pool_safe t p : 0 < max_size_ t -> Backoff.wf (backoff_ t) -> caches_valid t ->
  rtc (step (limits_of t)) (mkPools t ∅) p ->
  caches_valid (thumbnailer_ p) /\ Backoff.wf (backoff_ (thumbnailer_ p)) /\ limits_of (thumbnailer_ p) = limits_of t /\
  forall i a v, threads p !! i = Some (a, Ret v) -> ended_well a v.
Proof.
  intros Hm Hb Hv Hr. destruct (reachable_pinv (limits_of t) t p eq_refl Hm Hb Hv Hr) as [(_ & L1 & L2) [H1 H2 H3 H4 _]].
  split; [done|]. split; [|split; [done|]].
  - unfold limits_of in H1. injection H1 as _ _ E1 E2. split; [split; rewrite ?E1, ?E2; by simpl in *|].
    unfold period_ok in H3. simpl in H3. rewrite E1, E2. destruct H3; [by left|by right].
  - intros i a v Hi. destruct (H4 _ _ _ Hi) as (last & He & _). simpl in He.
    destruct a, v as [[r' [dat|e|c]]|o]; simpl in *; try done. apply He.
Qed.

(** No access, and no run, changes how large the caches are. *)
Lemma perform_room X (e : shared X) now t i : cache_room (get_cache i (perform X e now t).1) = cache_room (get_cache i t).
Proof.
  assert (Hat : forall j A (m : M C A), (forall c, cache_room (m c).1 = cache_room c) ->
    cache_room (get_cache i (at_cache j m t).1) = cache_room (get_cache i t)).
  { intros j A m Hr. specialize (Hr (get_cache j t)). unfold at_cache. destruct (m (get_cache j t)) as [c o]. simpl in *.
    rewrite get_set_cache. by destruct (decide (j = i)) as [<-|]. }
  destruct e; simpl; try done; try (by destruct i); apply Hat; auto using cache_get_room, cache_put_room,
    cache_invalidate_room, cache_clear_stats_room, cache_compact_room.
Qed.

Lemma pool_room lim p p' i : rtc (step lim) p p' ->
  cache_room (get_cache i (thumbnailer_ p')) = cache_room (get_cache i (thumbnailer_ p)).
Proof.
  induction 1 as [|p1 p2 p3 Hs _ IH]; [done|]. rewrite IH. destruct Hs as [j a Hj Hm|j a X e k now Hj|j a v Hj]; [done| |done].
  apply perform_room.
Qed.

(** An access that can take the thumbnail [key] away: a maintenance operation empties
    the cache, or a look-up stores another thumbnail (or one of this name that is too
    large) and the cache makes room. *)
Definition takes_away (key : string) t (a : task) {X} (e : shared X) : Prop :=
  match e with
  | Invalidate thumbnails => who a = None
  | CachePut thumbnails key' v _ => key' <> key \/ ~ cache_fits (thumbnail_cache_ t) key v
  | _ => False
  end.

(** No other access does. *)
Lemma access_loses (lim : Limits) key t w (a : task) X (e : shared X) now : caches_valid t -> w = who a -> may lim w X e ->
  CacheLife.loses thumbnails key t (perform X e now t).1 -> takes_away key t a e.
Proof.
  intros Hv -> Hm (n & [v Hs] & Hn). assert (Hus : forall i, cache_usable (get_cache i t)) by (intros i; apply cache_valid_usable, Hv).
  assert (Hno : cache_lookup (get_cache thumbnails (perform X e now t).1) n key = cache_lookup (get_cache thumbnails t) n key -> False)
    by congruence.
  destruct e as [i k|i k v' x|i|i|i| | | |q|f]; simpl in *; unfold at_cache in *; try by destruct Hno.
  - destruct (cache_get_law k now _ (Hus i)) as (c & Hg & _ & Hl). rewrite Hg in *. destruct i; simpl in *; destruct Hno; (done || apply Hl).
  - destruct i; try (destruct (cache_put k v' x now _) as [c o]; by destruct Hno).
    destruct (decide (k = key)) as [->|]; [|by left]. right. intros Hfit. destruct Hm as [_ Hx]. rewrite (Hx eq_refl) in *.
    pose proof (cache_put_accepts key v' no_expiry now _ (Hus thumbnails) Hfit eq_refl) as Ha.
    destruct (cache_put_law key v' no_expiry now _ (Hus thumbnails)) as (c & b & Hp & _ & _ & Hl). simpl in *.
    rewrite Hp in *. simpl in *. injection Ha as ->. rewrite Hl in Hn by done. done.
  - destruct i; [|done|]; destruct (cache_invalidate _) as [c o]; by destruct Hno.
  - destruct (cache_clear_stats_law _ (Hv i)) as (c & Hg & _ & Hl). rewrite Hg in *. destruct i; simpl in *; destruct Hno; (done || apply Hl).
  - destruct (cache_compact_law _ (Hus i)) as (c & Hg & _ & Hl). rewrite Hg in *. destruct i; simpl in *; destruct Hno; (done || apply Hl).
Qed.

(** A step that leaves the thumbnail [key] where it is, if it is there. *)
Definition step_keeping (lim : Limits) (key : string) p p' : Prop :=
  step lim p p' /\ ~ CacheLife.loses thumbnails key (thumbnailer_ p) (thumbnailer_ p').

(** C23. A thumbnail that a thread made, and that is no larger than the cache, is in the
    cache under the key and size of its request when the thread ends, whatever the
    other threads have done meanwhile, as long as none of their accesses took it
    away; and an access that takes it away is one of maintenance that empties the
    cache, or one that stores another thumbnail: no other thread puts something else
    in its place, and no access but these makes it disappear. *)
Theorem pool_coherent t p i r r' dat : 0 < max_size_ t -> Backoff.wf (backoff_ t) -> caches_valid t ->
  let key := thumb_key r (target_size_of (requested_size_ r) (max_size_ t)) in
  cache_fits (thumbnail_cache_ t) key dat ->
  rtc (step_keeping (limits_of t) key) (mkPools t ∅) p ->
  threads p !! i = Some (Lookup r, Ret (inl (r', Ok dat))) ->
  status_ r' = downloaded \/ status_ r' = scaled_from_fullsize ->
  (forall now, cache_lookup (thumbnail_cache_ (thumbnailer_ p)) now key = Some dat) /\
  forall p', step (limits_of t) p p' -> CacheLife.loses thumbnails key (thumbnailer_ p) (thumbnailer_ p') ->
    exists j a X (e : shared X) k now, threads p !! j = Some (a, Vis e k) /\
      p' = mkPools (perform X e now (thumbnailer_ p)).1 (<[j := (a, k (perform X e now (thumbnailer_ p)).2)]> (threads p)) /\
      takes_away key (thumbnailer_ p) a e.
Proof.
  intros Hm Hb Hv key Hfit Hr Hi Hst. set (lost := fun k => negb (String.eqb k key)).
  assert (HL : forall p p', step_keeping (limits_of t) key p p' -> spare_step (limits_of t) lost p p').
  { intros p1 p2 [Hs Hn]. split; [done|]. intros k. unfold lost. destruct (String.eqb_spec k key) as [->|]; done. }
  destruct (spared_pinv (limits_of t) lost t p eq_refl Hm Hb Hv (rtc_subrel _ _ _ _ HL Hr)) as [_ HI].
  assert (Hroom : cache_room (thumbnail_cache_ (thumbnailer_ p)) = cache_room (thumbnail_cache_ t)).
  { apply (pool_room (limits_of t) (mkPools t ∅) p thumbnails). eapply rtc_subrel; [|exact Hr]. by intros x y [Hs _]. }
  split.
  - intros now. destruct HI as [_ _ _ H4 _]. destruct (H4 _ _ _ Hi) as (last & He & _ & Hk). simpl in He.
    destruct He as [_ He]. destruct (He Hst) as (o & Hlast). rewrite Hlast in Hk.
    destruct (Hk key dat now eq_refl) as [H|[_ H]]; [unfold cache_fits in *; by rewrite Hroom|done|].
    unfold lost in H. by rewrite String.eqb_refl in H.
  - intros p' Hs Hl. destruct Hs as [j a Hj Hma|j a X e k now Hj|j a v Hj].
    + destruct Hl as (n & [v H1] & H2). simpl in *. congruence.
    + exists j, a, X, e, k, now. split_and!; [done..|]. destruct HI as [_ H2 _ H4 _]. destruct (H4 _ _ _ Hj) as (last & [Hmay _] & _).
      by eapply access_loses.
    + destruct Hl as (n & [w H1] & H2). simpl in *. congruence.
Qed.

(** While no look-up of key [k] runs, no entry of [k] changes in any cache: the runs of
    the others and maintenance leave it as it was, or it is evicted or cleared. *)
Theorem pool_isolated t p p' k i key now : 0 < max_size_ t -> Backoff.wf (backoff_ t) -> caches_valid t ->
  rtc (step (limits_of t)) (mkPools t ∅) p ->
  rtc (fun q q' => without k q /\ step (limits_of t) q q') p p' -> belongs k i key ->
  cache_lookup (get_cache i (thumbnailer_ p')) now key = cache_lookup (get_cache i (thumbnailer_ p)) now key \/
  cache_lookup (get_cache i (thumbnailer_ p')) now key = None.
Proof.
  intros Hm Hb Hv Hr Hq Hk. destruct (reachable_pinv (limits_of t) t p eq_refl Hm Hb Hv Hr) as [Hlim HI].
  clear Hr. induction Hq as [|p1 p2 p3 [Hno Hs] _ IH]; [by left|].
  destruct (IH (any_step_pinv _ _ _ Hlim HI Hs)) as [->|H]; [|by right].
  exact (step_spares _ _ k p1 p2 HI Hno Hs i key now Hk).
Qed.
End Safety.
End PoolCorrect.

(** ** Concrete schedules *)

Module PoolInstance.
Import ImageInstance CacheHelper ThumbnailerInstance Concurrent PoolCorrect.

Notation Pools := (Pools (C := cache)).

(** Thread [i] makes its next access at [now]. *)
Definition touch (now : Z) (i : nat) (p : Pools) : Pools :=
  match threads p !! i with
  | Some (a, m) =>
      match next perform now m (thumbnailer_ p) with
      | Some (t, m') => mkPools t (<[i := (a, m')]> (threads p))
      | None => p
      end
  | None => p
  end.

Definition play (now : Z) (schedule : list nat) (p : Pools) : Pools := foldl (fun p i => touch now i p) p schedule.

Lemma touch_accesses now i p : rtc access_step p (touch now i p).
Proof.
  unfold touch. destruct (threads p !! i) as [[a [v|X e k]]|] eqn:Hi; [done| |done].
  pose proof (one_access p i a X e k now Hi) as Hs. simpl. destruct (perform X e now (thumbnailer_ p)) as [t o]. by apply rtc_once.
Qed.

Lemma play_accesses now l : forall p, rtc access_step p (play now l p).
Proof. induction l as [|i l IH]; intros p; [done|]. etrans; [apply (touch_accesses now i p)|apply IH]. Qed.

(** An album whose download has succeeded and one whose download has failed for now. *)
Definition covered : Request := album_request (Some (mkReply reply_success "" rotated_file)).
Definition busy : Request :=
  set_source (AlbumRequest "c" "d" (Some (mkReply reply_temporary_error "busy" ""))) (make_album "c" "d" (mkSize 20 0) 10000).

Definition started (t : Thumbnailer cache) : Pools :=
  mkPools t (<[1%nat := (Lookup busy, code (limits_of t) (Lookup busy))]>
            (<[0%nat := (Lookup covered, code (limits_of t) (Lookup covered))]> ∅)).

Lemma started_reachable t : rtc (step (limits_of t)) (mkPools t ∅) (started t).
Proof.
  eapply rtc_l; [apply (start _ _ 0 (Lookup covered)); [done|by split]|].
  eapply rtc_l; [apply (start _ _ 1 (Lookup busy)); [done|]|done].
  split; [done|]. intros j b m. simpl. intros [[<- [= <- <-]]|[_ Hj]]%lookup_insert_Some; [done|by rewrite lookup_empty in Hj].
Qed.

Lemma played_reachable t now l : rtc (step (limits_of t)) (mkPools t ∅) (play now l (started t)).
Proof.
  etrans; [apply started_reachable|]. generalize (play_accesses now l (started t)).
  induction 1 as [|p1 p2 p3 Hs _ IH]; [done|]. eapply rtc_l; [by apply access_is_step|done].
Qed.

Definition again (n : nat) (i : nat) : list nat := repeat i n.
Definition done_at (p : Pools) (i : nat) : option (FetchStatus * string) :=
  match threads p !! i with
  | Some (_, Ret (inl (r, Ok dat))) => Some (status_ r, dat)
  | _ => None
  end.

Lemma caches_valid_fresh : caches_valid fresh.
Proof. intros []; (exists tt; split; [done|]; simpl; eauto). Qed.

Lemma fresh_wf : Backoff.wf (backoff_ fresh).
Proof. split; [split; simpl; lia|by left]. Qed.

(** Both have run, turn by turn. *)
Definition turns : list nat := again 4 0 ++ again 6 1 ++ again 1 0 ++ again 5 1 ++ again 1 0.

Lemma pool_finishes_witness :
  exists p', rtc access_step (started fresh) p' /\ all_done p'.
Proof.
  destruct (pool_finishes (limits_of fresh) fresh (started fresh) (started_reachable fresh)) as [_ (p' & H1 & _ & H2)]. by exists p'.
Defined.

Lemma pool_safe_witness :
  done_at (play 5 turns (started fresh)) 1 = Some (temporary_error, "") /\
  Backoff.wf (backoff_ (thumbnailer_ (play 5 turns (started fresh)))).
Proof.
  split; [vm_compute; reflexivity|].
  apply (pool_safe fresh (play 5 turns (started fresh))); [reflexivity|exact fresh_wf|exact caches_valid_fresh|apply played_reachable].
Defined.

(** The entry is kept by every access of the schedule. *)
Fixpoint keeping (key : string) (now : Z) (l : list nat) (p : Pools) : bool :=
  match l with
  | [] => true
  | i :: l =>
      let e := kept_entry (thumbnail_cache_ (thumbnailer_ p)) key in
      let p' := touch now i p in
      (bool_decide (e = None) || bool_decide (kept_entry (thumbnail_cache_ (thumbnailer_ p')) key = e)) && keeping key now l p'
  end.

Lemma play_keeping lim key now l : forall p, keeping key now l p = true -> rtc (step_keeping lim key) p (play now l p).
Proof.
  induction l as [|i l IH]; intros p; [done|]. cbn [keeping]. intros [H1 H2]%andb_true_iff. etrans; [|by apply IH].
  assert (Hn : ~ CacheLife.loses thumbnails key (thumbnailer_ p) (thumbnailer_ (touch now i p))).
  { apply orb_true_iff in H1 as [H1%bool_decide_eq_true|H1%bool_decide_eq_true].
    - by apply absent_not_lost. - by apply unchanged_not_lost. }
  pose proof (touch_accesses now i p) as Ht. revert Hn. unfold touch in *.
  destruct (threads p !! i) as [[a [v|X e k]]|] eqn:Hi; [done| |done]. simpl.
  pose proof (advance lim p i a X e k now Hi) as Hs. destruct (perform X e now (thumbnailer_ p)) as [t o]. intros Hn.
  by apply rtc_once.
Qed.

Lemma pool_coherent_witness :
  let look now := cache_lookup (thumbnail_cache_ (thumbnailer_ (play 5 turns (started fresh)))) now
    (thumb_key covered (target_size_of (requested_size_ covered) 1920)) in
  look 5 = Some "jpeg:75:20x40" /\ look (10 ^ 18) = Some "jpeg:75:20x40".
Proof.
  intros look. enough (H : forall now, look now = Some "jpeg:75:20x40") by exact (conj (H 5) (H (10 ^ 18))).
  unfold look.
  set (p := play 5 turns (started fresh)). set (key := thumb_key covered (target_size_of (requested_size_ covered) 1920)).
  assert (Hd : exists r', threads p !! 0%nat = Some (Lookup covered, Ret (inl (r', Ok "jpeg:75:20x40"))) /\ status_ r' = downloaded).
  { vm_compute. eexists. split; reflexivity. }
  destruct Hd as (r' & Hi & Hst).
  apply (pool_coherent fresh p 0 covered r' "jpeg:75:20x40");
    [reflexivity|exact fresh_wf|exact caches_valid_fresh|vm_compute; discriminate| |exact Hi|exact (or_introl Hst)].
  assert (H0 : rtc (step_keeping (limits_of fresh) key) (mkPools fresh ∅) (started fresh)).
  { assert (Hl : forall m m', ~ CacheLife.loses thumbnails key (thumbnailer_ (mkPools fresh m)) (thumbnailer_ (mkPools fresh m')))
      by (intros m m'; by apply unchanged_not_lost).
    eapply rtc_l; [split; [apply (start _ _ 0 (Lookup covered)); [done|by split]|apply Hl]|].
    eapply rtc_l; [split; [apply (start _ _ 1 (Lookup busy)); [done|]|apply Hl]|done].
    split; [done|]. intros j b m. simpl. intros [[<- [= <- <-]]|[_ Hj]]%lookup_insert_Some; [done|by rewrite lookup_empty in Hj]. }
  etrans; [exact H0|]. apply play_keeping. vm_compute. reflexivity.
Defined.

(** The album is in the cache, the other is looked up. *)
Definition warm : Thumbnailer cache := th (Thumbnailer.thumbnail 5 success).1.
Definition other_runs : Pools := mkPools warm (<[0%nat := (Lookup busy, code (limits_of warm) (Lookup busy))]> ∅).

Lemma touch_without lim k now i p : without k p -> rtc (fun q q' => without k q /\ step lim q q') p (touch now i p).
Proof.
  intros Hk. unfold touch. destruct (threads p !! i) as [[a [v|X e c]]|] eqn:Hi; [done| |done].
  pose proof (advance lim p i a X e c now Hi) as Hs. simpl. destruct (perform X e now (thumbnailer_ p)) as [t o]. by apply rtc_once.
Qed.

Lemma pool_isolated_witness :
  cache_lookup (thumbnail_cache_ (thumbnailer_ (touch 9 0 other_runs))) 9
    (thumb_key covered (target_size_of (requested_size_ covered) 1920)) = Some "jpeg:75:20x40".
Proof.
  assert (Hv : caches_valid warm) by (intros []; (exists tt; split; [done|]; vm_compute; eauto)).
  assert (Hw : Backoff.wf (backoff_ warm)) by (split; [split; vm_compute; congruence|left; vm_compute; reflexivity]).
  assert (Hm : may_start (Lookup busy) (mkPools warm ∅)) by done.
  destruct (pool_isolated warm other_runs (touch 9 0 other_runs) (key_ covered) thumbnails
    (thumb_key covered (target_size_of (requested_size_ covered) 1920)) 9) as [H|H];
    [reflexivity|exact Hw|exact Hv|exact (rtc_once _ _ (start (limits_of warm) (mkPools warm ∅) 0 (Lookup busy) eq_refl Hm))
    |apply touch_without|by eexists _, _| |].
  - intros j b m. unfold other_runs. simpl. intros [[<- [= <- <-]]|[_ Hj]]%lookup_insert_Some; [done|by rewrite lookup_empty in Hj].
  - etrans; [exact H|vm_compute; reflexivity].
  - vm_compute in H. discriminate.
Defined.

(** ** The backoff state is not protected *)

Definition sec : Z := Backoff.NS_PER_SEC.

(** A failure at the epoch, the period of 20 seconds over. *)
Definition recovering : Thumbnailer cache := set_backoff (Backoff.mkBackoff 0 20 20 7200) fresh.
Definition at_30s (schedule : list nat) : Pools := play (30 * sec) schedule (started recovering).

(** The two in turn, in both orders, and the failure in the middle of the success. *)
Definition success_first : list nat := again 11 0 ++ again 11 1.
Definition failure_first : list nat := again 11 1 ++ again 11 0.
Definition failure_inside : list nat := again 7 0 ++ again 11 1 ++ again 4 0.

Definition ended_as_expected (p : Pools) : bool :=
  bool_decide (done_at p 0 = Some (downloaded, "jpeg:75:20x40") /\ done_at p 1 = Some (temporary_error, "")).

Definition may_retry (p : Pools) (now : Z) : bool := Backoff.retry_ok (backoff_ (thumbnailer_ p)) now.

(** A download has failed a second ago.  When one look-up runs after the other, in
    either order, none is retried yet; when the success has tested the period before
    the failure and writes after it, the failure is lost: the period is zero, as if
    there had been none. *)
Lemma failure_lost :
  ended_as_expected (at_30s success_first) = true /\ may_retry (at_30s success_first) (31 * sec) = false /\
  ended_as_expected (at_30s failure_first) = true /\ may_retry (at_30s failure_first) (31 * sec) = false /\
  ended_as_expected (at_30s failure_inside) = true /\ may_retry (at_30s failure_inside) (31 * sec) = true /\
  Backoff.backoff_period_ (backoff_ (thumbnailer_ (at_30s failure_inside))) = 0.
Proof. vm_compute. repeat split; reflexivity. Qed.
End PoolInstance.
