(* ===== verification/Downloader.v ===== *)
(** * Downloads (src/artdownloader.cpp, src/ubuntuserverdownloader.cpp,
      include/internal/artreply.h)

    The downloader of remote art and its reply object.  [QUrl] and what the
    network delivers are parameters. *)

From S2P Require Import Prelude.
From S2P Require Import Thumbnailer.
Import Thumbnailer.

Module Downloader.

Definition DFLT_SERVER_URL : string := "https://dash.ubuntu.com".
Definition ARTIST_ART_BASE_URL : string := "musicproxy/v1/artist-art".
Definition ALBUM_ART_BASE_URL : string := "musicproxy/v1/album-art".

Class QUrlOps : Type := {
  QUrl : Type;
  make_url : string -> list (string * string) -> QUrl;   (* QUrl(text) with a QUrlQuery *)
  is_valid : QUrl -> bool;
  host_name : QUrl -> string;
  url_to_string : QUrl -> string
}.

(** [QNetworkReply::NetworkError], by the codes the source names. *)
Inductive NetworkError : Type :=
  | NoError | ContentNotFoundError | ContentGoneError | OperationCanceledError
  | OtherError (code : Z).

(** A finished [QNetworkReply]. *)
Record QNetworkReply : Type := mkNetworkReply {
  error : NetworkError;
  errorString : string;
  http_code : option Z;
  body : string
}.

(** [UbuntuServerArtReply]; [reply_] says whether there is a network reply,
    [emitted] counts the emissions of [finished()]. *)
Record UbuntuServerArtReply : Type := mkArtReply {
  url_string_ : string;
  error_string_ : string;
  data_ : string;
  status_ : ArtStatus;
  reply_ : bool;
  timer_active : bool;
  emitted : nat
}.

(** The two constructors. *)
Definition failed_reply (url : string) : outcome UbuntuServerArtReply :=
  _ ← assert_ (negb (String.eqb url "")) "UbuntuServerArtReply";
  Ok (mkArtReply url "network down" "" reply_network_down false false 0).

Definition pending_reply (url : string) : outcome UbuntuServerArtReply :=
  _ ← assert_ (negb (String.eqb url "")) "UbuntuServerArtReply";
  Ok (mkArtReply url "" "" reply_not_finished true true 0).

Definition error_string (r : UbuntuServerArtReply) : outcome string :=
  _ ← assert_ (if status_ r is reply_not_finished then false else true) "error_string";
  Ok (error_string_ r).

Definition data (r : UbuntuServerArtReply) : outcome string :=
  _ ← assert_ (if status_ r is reply_not_finished then false else true) "data";
  Ok (data_ r).

(** [set_status]: the status and the error string. *)
Definition set_status (n : QNetworkReply) : ArtStatus * string :=
  match error n with
  | NoError => (reply_success, errorString n)
  | ContentNotFoundError | ContentGoneError => (reply_not_found, errorString n)
  | OperationCanceledError => (reply_timeout, "Request timed out")
  | OtherError _ =>
      match http_code n with
      | Some code =>
          if (code =? 400) || (code =? 403) then (reply_hard_error, errorString n)
          else (reply_temporary_error, errorString n)
      | None => (reply_temporary_error, errorString n)
      end
  end.

(** [download_finished]; [n] is the network reply if there is one. *)
Definition download_finished (n : QNetworkReply) (r : UbuntuServerArtReply) : UbuntuServerArtReply :=
  if negb (reply_ r) then
    mkArtReply (url_string_ r) (error_string_ r) (data_ r) (status_ r) (reply_ r) (timer_active r) (S (emitted r))
  else
    let '(st, msg) := set_status n in
    mkArtReply (url_string_ r) msg (if st is reply_success then body n else data_ r) st (reply_ r) false (S (emitted r)).

(** [timeout]: [abort()] emits [QNetworkReply::finished] with the error
    [OperationCanceledError] before it returns. *)
Definition timeout (aborted : QNetworkReply) (r : UbuntuServerArtReply) : UbuntuServerArtReply :=
  download_finished aborted
    (mkArtReply (url_string_ r) (error_string_ r) (data_ r) reply_timeout (reply_ r) false (emitted r)).

Section Downloads.
Context {urls : QUrlOps}.

(** [override_url] is the value of the environment variable, if set. *)
Definition server_url (override_url : option string) : string :=
  match override_url with
  | Some (String c u) => String c u
  | _ => DFLT_SERVER_URL
  end.

Definition make_art_url (server_url base_url artist album api_key : string) : QUrl :=
  make_url (server_url +:+ ("/" +:+ base_url)) [("artist", artist); ("album", album); ("key", api_key)].

(** The code returns before it looks the name up. *)
Definition network_is_connected (domain_name : string) : bool := false.

Definition assert_valid_url (url : QUrl) : outcome unit :=
  if negb (is_valid url) then
    Throw (logic_error "ArtDownloader::assert_valid_url(): The url provided is not valid")
  else Ok tt.

(** The reply, and whether its [download_finished] was posted to the event loop. *)
Definition download_url (url : QUrl) : outcome (UbuntuServerArtReply * bool) :=
  _ ← assert_valid_url url;
  if network_is_connected (host_name url) then
    r ← pending_reply (url_to_string url); Ok (r, false)
  else
    r ← failed_reply (url_to_string url); Ok (r, true).

Definition download_album (override_url : option string) (api_key artist album : string)
    : outcome (UbuntuServerArtReply * bool) :=
  download_url (make_art_url (server_url override_url) ALBUM_ART_BASE_URL artist album api_key).

Definition download_artist (override_url : option string) (api_key artist album : string)
    : outcome (UbuntuServerArtReply * bool) :=
  download_url (make_art_url (server_url override_url) ARTIST_ART_BASE_URL artist album api_key).

(** ** Specification *)

(** What the requests see of a reply through [ArtReply]. *)
Definition as_art_reply (r : UbuntuServerArtReply) : ArtReply :=
  mkReply (status_ r) (error_string_ r) (data_ r).

(** The life of a reply: the network finishes or the timer fires, once; the
    posted slot of a failed reply runs, once. *)
Inductive reply_step : UbuntuServerArtReply -> UbuntuServerArtReply -> Prop :=
  | step_network n r : emitted r = 0%nat -> reply_step r (download_finished n r)
  | step_timer n r : timer_active r = true -> error n = OperationCanceledError -> reply_step r (timeout n r).

Definition new_reply (r : UbuntuServerArtReply) : Prop :=
  exists url, failed_reply url = Ok r \/ pending_reply url = Ok r.

Record reply_ok (r : UbuntuServerArtReply) : Prop := {
  ok_once : (emitted r <= 1)%nat;
  ok_timer : timer_active r = true -> emitted r = 0%nat;
  ok_unfinished : status_ r = reply_not_finished -> emitted r = 0%nat;
  ok_fresh : emitted r = 0%nat -> data_ r = "";
  ok_data : data_ r <> "" -> status_ r = reply_success;
  ok_down : reply_ r = false -> status_ r = reply_network_down /\ timer_active r = false
}.

(** ** Lemmas *)

Lemma set_status_finished n : (set_status n).1 <> reply_not_finished.
Proof. unfold set_status. destruct (error n); try done. destruct (http_code n); [by destruct (_ || _)|done]. Qed.

Lemma finished_ok n r : emitted r = 0%nat -> reply_ok r -> reply_ok (download_finished n r).
Proof.
  intros He [H1 H2 H3 H4 H5 H6]. unfold download_finished. destruct (reply_ r) eqn:Er; simpl.
  - destruct (set_status n) as [st msg] eqn:Es. pose proof (set_status_finished n) as Hf. rewrite Es in Hf. simpl in Hf.
    split; simpl; try done; [lia|]. intros Hd. destruct st; try done; by rewrite (H4 He) in Hd.
  - destruct (H6 eq_refl) as [Hs Ht]. split; simpl; try done; [lia|congruence|congruence].
Qed.

Lemma timeout_ok n r : timer_active r = true -> reply_ok r -> reply_ok (timeout n r).
Proof.
  intros Ht [H1 H2 H3 H4 H5 H6]. specialize (H2 Ht). apply finished_ok; [done|].
  split; simpl; try done; [intros Hd; by rewrite (H4 H2) in Hd|intros Hr; destruct (H6 Hr); congruence].
Qed.

Lemma new_ok r : new_reply r -> reply_ok r.
Proof.
  intros (url & [(u & _ & [= <-])%outcome_bind_Ok|(u & _ & [= <-])%outcome_bind_Ok]); split; simpl; done || lia.
Qed.

Lemma life_ok r0 r : new_reply r0 -> rtc reply_step r0 r -> reply_ok r.
Proof.
  intros H0%new_ok Hr. revert H0. induction Hr as [|r0 r1 r2 Hs _ IH]; [done|]. intros H0. apply IH.
  destruct Hs; [by apply finished_ok|by apply timeout_ok].
Qed.

(** ** Properties *)

(** The contract between the downloader and the requests: over the whole life of
    a reply, [finished()] is emitted at most once, whether the network answers or
    the timer fires first; once it was emitted the status is final, the
    accessors' assertions hold and so [common_fetch] never aborts on the reply;
    and there is data only with the status [success]. *)
Theorem reply_contract r0 r :
  new_reply r0 -> rtc reply_step r0 r ->
  (emitted r <= 1)%nat /\
  (emitted r = 1%nat -> status_ r <> reply_not_finished /\ error_string r = Ok (error_string_ r) /\ data r = Ok (data_ r) /\
     timer_active r = false /\ forall r', ~ reply_step r r') /\
  (data_ r <> "" -> status_ r = reply_success).
Proof.
  intros H0 Hr. destruct (life_ok r0 r H0 Hr) as [H1 H2 H3 H4 H5 H6]. split; [done|]. split; [|done].
  intros He. assert (Hs : status_ r <> reply_not_finished) by (intros Hs; specialize (H3 Hs); lia).
  assert (Ht : timer_active r = false) by (destruct (timer_active r); [specialize (H2 eq_refl); lia|done]).
  split_and!; [done|unfold error_string; by destruct (status_ r)|unfold data; by destruct (status_ r)|done|].
  intros r' Hstep. inversion Hstep; congruence.
Qed.

(** Every download of this version fails: [network_is_connected] never looks. *)
Lemma download_is_down url r posted n :
  download_url url = Ok (r, posted) ->
  posted = true /\ as_art_reply (download_finished n r) = mkReply reply_network_down "network down" "".
Proof.
  unfold download_url. intros (u & _ & H)%outcome_bind_Ok. simpl in H.
  apply outcome_bind_Ok in H as (r' & H & [= <- <-]). apply outcome_bind_Ok in H as (u' & _ & [= <-]). done.
Qed.

End Downloads.

(** ** Witness *)

Lemma reply_contract_witness :
  let r0 := mkArtReply "u" "" "" reply_not_finished true true 0 in
  let r := timeout (mkNetworkReply OperationCanceledError "Operation canceled" None "") r0 in
  rtc reply_step r0 r /\ error_string r = Ok "Request timed out".
Proof.
  intros r0 r. assert (Hr : rtc reply_step r0 r) by (apply rtc_once; by constructor).
  split; [exact Hr|]. apply (reply_contract r0 r); [by exists "u"; right|exact Hr|reflexivity].
Defined.

End Downloader.
