(* ===== verification/Downloads.v ===== *)
(** * From a started download to the look-up that follows it
    (src/thumbnailer.cpp, src/imageextractor.cpp, src/ubuntuserverdownloader.cpp)

    [download()] makes an extractor or a reply and returns.  When that emits
    [finished()] the request emits [downloadFinished()], and [thumbnail()] reads
    what came in between.  This file says which requests the event loop can find
    then: those whose extractor ran its slots until the process ended or did not
    start, and those whose reply lived its life until the emission. *)

From S2P Require Import Prelude CxxLib QtSize Image CacheInterface ImageExtractor Thumbnailer Downloader.
Import Cxx Thumbnailer.

Module Downloads.

(** No extractor and no reply yet: the request as its constructor leaves it. *)
Definition unstarted (r : Request) : Prop :=
  match source_ r with
  | LocalThumbnailRequest _ None | AlbumRequest _ _ None | ArtistRequest _ _ None => True
  | _ => False
  end.

Definition download_started (r : Request) : Prop := exists t r0, r = (begin_download t r0).1.

Section Ends.
Context {host : Host}.

(** [extract()], the slots the event loop runs, and the one that emits [finished()]. *)
Inductive extraction (x : ImageExtractor.ImageExtractor) : ImageExtractor.ImageExtractor -> Prop :=
  | process_ended dir utildir p es st rs : extraction x
      (ImageExtractor.processFinished safe_strerror st rs (ImageExtractor.run safe_strerror es (ImageExtractor.extract dir utildir p x)))
  | process_failed dir utildir p es : extraction x
      (ImageExtractor.error true (ImageExtractor.run safe_strerror es (ImageExtractor.extract dir utildir p x))).

(** A reply of the downloader, when [finished()] is emitted. *)
Inductive arrived : ArtReply -> Prop :=
  | reply_arrived u0 u : Downloader.new_reply u0 -> rtc Downloader.reply_step u0 u -> Downloader.emitted u = 1%nat ->
      arrived (Downloader.as_art_reply u).

(** The request after [download()], and at [downloadFinished()]. *)
Inductive download_ends (r : Request) : Request -> Prop :=
  | extraction_ends f x x' : source_ r = LocalThumbnailRequest f (Some x) -> extraction x x' ->
      download_ends r (set_source (LocalThumbnailRequest f (Some x')) r)
  | album_ends a b q q' : source_ r = AlbumRequest a b (Some q) -> arrived q' ->
      download_ends r (set_source (AlbumRequest a b (Some q')) r)
  | artist_ends a b q q' : source_ r = ArtistRequest a b (Some q) -> arrived q' ->
      download_ends r (set_source (ArtistRequest a b (Some q')) r).

(** ** Lemmas *)

Lemma unstarted_ready r : unstarted r -> request_ready r.
Proof. unfold unstarted, request_ready. by destruct (source_ r) as [f []|a b []|a b []]. Qed.

Lemma ends_key r r' : download_ends r r' -> key_ r' = key_ r.
Proof. by intros []. Qed.

Lemma read_loop_unread rs x :
  ImageExtractor.read_called_ (ImageExtractor.read_loop safe_strerror rs x) = ImageExtractor.read_called_ x.
Proof. revert x. induction rs as [|[bytes| | | |e] rs IH]; intros x; simpl; try done. by rewrite IH. Qed.

Lemma pipe_unread rs x :
  ImageExtractor.read_called_ (ImageExtractor.readFromPipe safe_strerror rs x) = ImageExtractor.read_called_ x.
Proof. unfold ImageExtractor.readFromPipe. destruct (ImageExtractor.error_ x); [apply read_loop_unread|done]. Qed.

Lemma run_unread es x :
  ImageExtractor.read_called_ (ImageExtractor.run safe_strerror es x) = ImageExtractor.read_called_ x.
Proof.
  revert x. induction es as [|e es IH]; intros x; [done|]. etrans; [apply IH|]. destruct e; try done. apply pipe_unread.
Qed.

Lemma finished_unread st rs x :
  ImageExtractor.read_called_ (ImageExtractor.processFinished safe_strerror st rs x) = ImageExtractor.read_called_ x.
Proof.
  unfold ImageExtractor.processFinished. destruct st as [code|].
  - repeat case_goal; try done. simpl. by rewrite pipe_unread.
  - by destruct (ImageExtractor.error_ _).
Qed.

Lemma extraction_unread x x' : extraction x x' -> ImageExtractor.read_called_ x' = ImageExtractor.read_called_ x.
Proof. intros [|]; [rewrite finished_unread|simpl]; by rewrite run_unread. Qed.

Lemma arrived_finished q : arrived q -> reply_status q <> reply_not_finished.
Proof.
  intros [u0 u H0 Hr He] Hs. destruct (Downloader.life_ok u0 u H0 Hr) as [_ _ Hu _ _ _]. specialize (Hu Hs). lia.
Qed.

(** Whatever vs-thumb or the network did, [thumbnail()] may be called. *)
Lemma ends_ready r r' : download_started r -> download_ends r r' -> request_ready r'.
Proof.
  intros (t & r0 & ->) [f x x' Hs Hx|a b q q' _ Hq|a b q q' _ Hq]; unfold request_ready; simpl; try by apply arrived_finished.
  right. rewrite (extraction_unread _ _ Hx). revert Hs. unfold begin_download. by destruct (source_ r0); intros [= _ <-].
Qed.

(** The reply of a download that fails at once arrives as soon as the posted slot runs. *)
Lemma some_arrival : exists q, arrived q.
Proof.
  set (u0 := Downloader.mkArtReply "url" "network down" "" reply_network_down false false 0).
  set (n := Downloader.mkNetworkReply Downloader.NoError "" None "").
  exists (Downloader.as_art_reply (Downloader.download_finished n u0)). apply (reply_arrived u0).
  - exists "url". by left.
  - apply rtc_once. by constructor.
  - done.
Qed.

Lemma some_end r : download_started r -> exists r', download_ends r r'.
Proof.
  intros (t & r0 & ->). destruct some_arrival as [q Hq].
  assert (Hx : forall x, exists x', extraction x x').
  { intros x. eexists. exact (process_failed x "" None 0 []). }
  unfold begin_download. destruct (source_ r0) as [f o|a b o|a b o]; simpl.
  - destruct (Hx (ImageExtractor.init f (if t =? 0 then timeout_ r0 else t))) as [x' Hx']. eexists. by eapply extraction_ends.
  - eexists. by eapply album_ends.
  - eexists. by eapply artist_ends.
Qed.
End Ends.

(** ** The requests the thumbnailer makes *)

Section Made.
Context {C : Type} {host : Host}.
Implicit Types (t : Thumbnailer C) (r : Request).

Lemma get_thumbnail_unstarted t f size r : get_thumbnail t f size = Ok r -> unstarted r.
Proof.
  unfold get_thumbnail, make_local. case_goal; [done|]. unfold try_catch. destruct (negb (is_absolute f)); simpl; [done|].
  destruct (canonical f) as [c|e|e]; simpl; [|by destruct (is_std e)|done].
  destruct (stat c) as [e|[st []]]; simpl; [done|by intros [= <-]|done].
Qed.

Lemma get_album_art_unstarted t a b size r : get_album_art t a b size = Ok r -> unstarted r.
Proof. unfold get_album_art. by case_goal; intros [= <-]. Qed.

Lemma get_artist_art_unstarted t a b size r : get_artist_art t a b size = Ok r -> unstarted r.
Proof. unfold get_artist_art. by case_goal; intros [= <-]. Qed.
End Made.
End Downloads.
