(* ===== verification/RateLimiter.v ===== *)
(** * RateLimiter (src/ratelimiter.cpp, include/ratelimiter.h)

    The concurrency limiter the service and the client library use.  The object
    is only touched from the event loop thread, so its operations are atomic.

    A queued job is a heap cell shared by the queue and by the cancel function
    the caller holds weakly; [slot_id] is the cell's identity.  A cell lives
    while it is in [list_].  The calls of a job are returned to the caller of
    the operation: in the code a job is called last, after every state change. *)

From S2P Require Import Prelude.

Module RateLimiter.

Section Defs.
Context {J : Type}.  (* std::function<void()> *)

(** [shared_ptr<function<void()>>]; [None] once the function is cleared. *)
Record slot : Type := mkSlot { slot_id : nat; slot_job : option J }.

Record RateLimiter : Type := mkLimiter {
  concurrency_ : Z;
  running_ : Z;
  list_ : list slot;     (* in queueing order: the last element is back() *)
  next_cell : nat        (* identity of the next cell to be allocated *)
}.

(** The cancel functions [schedule] returns. *)
Inductive CancelFunc : Type :=
  | cancel_nothing                 (* []{ return false; } *)
  | cancel_cell (cell : nat).      (* holds a weak_ptr to the cell *)

Definition init (concurrency : Z) : outcome RateLimiter :=
  _ ← assert_ (0 <? concurrency) "RateLimiter";
  Ok (mkLimiter concurrency 0 [] 0).

Definition schedule_now (job : J) (r : RateLimiter) : RateLimiter * CancelFunc * list J :=
  (mkLimiter (concurrency_ r) (running_ r + 1) (list_ r) (next_cell r), cancel_nothing, [job]).

Definition schedule (job : J) (r : RateLimiter) : RateLimiter * CancelFunc * list J :=
  if running_ r <? concurrency_ r then schedule_now job r
  else (mkLimiter (concurrency_ r) (running_ r)
                  (list_ r ++ [mkSlot (next_cell r) (Some job)]) (S (next_cell r)),
        cancel_cell (next_cell r), []).

(** [*job_p = nullptr] through a weak pointer that still locks. *)
Definition clear_cell (cell : nat) (l : list slot) : list slot :=
  (fun s => if decide (slot_id s = cell) then mkSlot cell None else s) <$> l.

Definition cell_alive (cell : nat) (l : list slot) : bool :=
  existsb (fun s => bool_decide (slot_id s = cell)) l.

Definition call_cancel (c : CancelFunc) (r : RateLimiter) : RateLimiter * bool :=
  match c with
  | cancel_nothing => (r, false)
  | cancel_cell cell =>
      if cell_alive cell (list_ r) then
        (mkLimiter (concurrency_ r) (running_ r) (clear_cell cell (list_ r)) (next_cell r), true)
      else (r, false)
  end.

(** The loop of [done()] on the reversed queue: pop cells until one still
    holds a job.  Returns the cells left (reversed) and the job. *)
Fixpoint pop_job (rl : list slot) : list slot * option J :=
  match rl with
  | [] => ([], None)
  | s :: rl' => match slot_job s with
                | Some j => (rl', Some j)
                | None => pop_job rl'
                end
  end.

Definition done (r : RateLimiter) : outcome (RateLimiter * list J) :=
  _ ← assert_ (0 <? running_ r) "RateLimiter::done";
  let r1 := mkLimiter (concurrency_ r) (running_ r - 1) (list_ r) (next_cell r) in
  let '(rl, job_p) := pop_job (rev (list_ r1)) in
  let r2 := mkLimiter (concurrency_ r1) (running_ r1) (rev rl) (next_cell r1) in
  match job_p with
  | Some job => let '(r3, _, started) := schedule_now job r2 in Ok (r3, started)
  | None => Ok (r2, [])
  end.
End Defs.

Arguments slot : clear implicits.
Arguments RateLimiter : clear implicits.

Section Spec.
Context {J : Type}.
Implicit Types (r : RateLimiter J) (l : list (slot J)).

(** Jobs still waiting to be started, oldest first. *)
Definition waiting l : list J := omap slot_job l.

(** The queue is only used when the limit is reached. *)
Definition wf r : Prop :=
  0 < concurrency_ r /\ 0 <= running_ r /\
  (list_ r = [] \/ concurrency_ r <= running_ r) /\
  NoDup (slot_id <$> list_ r) /\
  Forall (fun s => slot_id s < next_cell r)%nat (list_ r).

(** The operations of the limiter, with the jobs they start and whether they
    are allowed to exceed the limit. *)
Inductive step : bool -> RateLimiter J -> list J -> RateLimiter J -> Prop :=
  | step_schedule job r r' c started :
      schedule job r = (r', c, started) -> step false r started r'
  | step_schedule_now job r r' c started :
      schedule_now job r = (r', c, started) -> step true r started r'
  | step_cancel c r r' b : call_cancel c r = (r', b) -> step false r [] r'
  | step_done r r' started : done r = Ok (r', started) -> step false r started r'.

(** ** Lemmas *)

Lemma pop_job_spec (rl rl' : list (slot J)) (o : option J) :
  pop_job rl = (rl', o) ->
  exists pre, Forall (fun s => slot_job s = None) pre /\
    match o with
    | None => rl = pre /\ rl' = []
    | Some j => exists i, rl = pre ++ mkSlot i (Some j) :: rl'
    end.
Proof.
  revert rl' o. induction rl as [|[i [j|]] rl IH]; intros rl' o H; simpl in H.
  - injection H as <- <-. by exists [].
  - injection H as <- <-. exists []. split; [constructor|]. by exists i.
  - destruct (IH _ _ H) as (pre & Hpre & Ho). exists (mkSlot i None :: pre).
    split; [by constructor|]. destruct o as [j|].
    + destruct Ho as [k ->]. by exists k.
    + by destruct Ho as [-> ->].
Qed.

(** [done] in terms of the queue: everything behind the newest waiting job
    is dropped together with that job; without one the queue is emptied. *)
Lemma done_spec r r' started :
  done r = Ok (r', started) ->
  0 < running_ r /\ concurrency_ r' = concurrency_ r /\ next_cell r' = next_cell r /\
  exists cleared, Forall (fun s => slot_job s = None) cleared /\
    match started with
    | [] => list_ r = cleared /\ list_ r' = [] /\ running_ r' = running_ r - 1
    | j :: rest => rest = [] /\ running_ r' = running_ r /\
        exists i, list_ r = list_ r' ++ mkSlot i (Some j) :: cleared
    end.
Proof.
  unfold done. intros H. apply outcome_bind_Ok in H as (u & Ha & H).
  apply assert_Ok in Ha. bsimpl. simpl in H.
  destruct (pop_job (rev (list_ r))) as [rl o] eqn:Hp.
  apply pop_job_spec in Hp as (pre & Hpre & Ho).
  destruct o as [j|]; simpl in H; injection H as <- <-; simpl.
  - repeat (split; [done||lia|]). exists (rev pre). split; [by apply Forall_rev|].
    destruct Ho as [i Ho]. split; [done|]. split; [lia|]. exists i.
    rewrite <- (rev_involutive (list_ r)), Ho, rev_app_distr. simpl.
    by rewrite <- app_assoc.
  - repeat (split; [done||lia|]). exists (rev pre). split; [by apply Forall_rev|].
    destruct Ho as [Ho ->]. rewrite <- Ho, rev_involutive. done.
Qed.

Lemma clear_cell_ids cell l : slot_id <$> clear_cell cell l = slot_id <$> l.
Proof.
  unfold clear_cell. rewrite <- list_fmap_compose. apply list_fmap_ext.
  intros ? [i j] _. simpl. by case_decide.
Qed.

Lemma Forall_ids (P : nat -> Prop) l :
  Forall (fun s => P (slot_id s)) l <-> Forall P (slot_id <$> l).
Proof. by rewrite Forall_fmap. Qed.

Lemma ids_snoc l cell (o : option J) n :
  NoDup (slot_id <$> l) -> Forall (fun s => slot_id s < n)%nat l -> cell = n ->
  NoDup (slot_id <$> l ++ [mkSlot cell o]).
Proof.
  intros Hnd Hlt ->. rewrite fmap_app, list.NoDup_app. split_and!; [done| |].
  - intros x (s & -> & Hs)%list_elem_of_fmap Heq%list_elem_of_singleton.
    rewrite list.Forall_forall in Hlt. specialize (Hlt s Hs). simpl in *. lia.
  - apply NoDup_singleton.
Qed.

Lemma schedule_now_wf job r : wf r -> wf (schedule_now job r).1.1.
Proof. unfold wf; simpl. intros (? & ? & Hq & ? & ?). split_and!; auto; [lia|naive_solver lia]. Qed.

Lemma schedule_wf job r : wf r -> wf (schedule job r).1.1.
Proof.
  intros Hwf. unfold schedule. case_goal; [by apply schedule_now_wf|]. bsimpl.
  destruct Hwf as (Hc & Hr & Hq & Hnd & Hlt). unfold wf; simpl.
  split_and!; [done|done|by right|by eapply ids_snoc|].
  apply Forall_app. split; [|by repeat constructor; simpl; lia].
  eapply Forall_impl; [exact Hlt|]. simpl. lia.
Qed.

Lemma call_cancel_wf c r : wf r -> wf (call_cancel c r).1.
Proof.
  intros Hwf. destruct c as [|cell]; simpl; [done|].
  destruct (cell_alive cell (list_ r)); [|done].
  destruct Hwf as (Hc & Hr & Hq & Hnd & Hlt). unfold wf; simpl.
  rewrite clear_cell_ids. split_and!; try done.
  - destruct Hq as [->|?]; [by left|by right].
  - apply (Forall_ids (fun i => i < next_cell r)%nat). rewrite clear_cell_ids.
    by apply Forall_ids.
Qed.

Lemma done_wf r r' started : done r = Ok (r', started) -> wf r -> wf r'.
Proof.
  intros H (Hc & Hr & Hq & Hnd & Hlt).
  apply done_spec in H as (Hpos & Hcc & Hn & cl & Hcl & H). unfold wf. rewrite Hcc, Hn.
  destruct started as [|j rest].
  - destruct H as (Hl & Hl' & Hr'). rewrite Hl', Hr'. split_and!; try lia; auto.
    constructor.
  - destruct H as (-> & Hr' & i & Hl). rewrite Hl in *.
    rewrite fmap_app in Hnd. apply list.NoDup_app in Hnd as (Hnd & _ & _).
    apply Forall_app in Hlt as [Hlt _]. split_and!; try lia; try done.
    destruct Hq as [Hq|Hq]; [by destruct (list_ r')|by right; lia].
Qed.

Lemma limiter_step_wf now r started r' : step now r started r' -> wf r -> wf r'.
Proof.
  intros Hs Hwf. destruct Hs as [job r r' c started H|job r r' c started H|c r r' b H|r r' started H].
  - apply (schedule_wf job) in Hwf. by rewrite H in Hwf.
  - apply (schedule_now_wf job) in Hwf. by rewrite H in Hwf.
  - apply (call_cancel_wf c) in Hwf. by rewrite H in Hwf.
  - by eapply done_wf.
Qed.

(** Without [schedule_now], the limit is respected. *)
Lemma step_limit r started r' :
  step false r started r' ->
  concurrency_ r' = concurrency_ r /\
  (running_ r <= concurrency_ r -> running_ r' <= concurrency_ r').
Proof.
  intros Hs. inversion Hs as [job ? ? c ? H| |c ? ? b H|? ? ? H]; subst.
  - unfold schedule in H. case_hyp H; bsimpl; injection H; intros; subst; simpl; lia.
  - destruct c; simpl in H; repeat case_hyp H; injection H; intros; subst; done.
  - apply done_spec in H as (_ & -> & _ & cl & _ & H). destruct started; naive_solver lia.
Qed.

(** ** Properties *)

(** Work conservation and the concurrency bound: in every state reachable
    from a fresh limiter through schedule, cancel and done (schedule_now
    excepted), at most [concurrency] jobs are running, and a job waits in the
    queue only while exactly that many are running. *)
Theorem limiter_bound (concurrency : Z) (r0 r : RateLimiter J) :
  init concurrency = Ok r0 ->
  rtc (fun a b => exists started, step false a started b) r0 r ->
  0 <= running_ r <= concurrency /\
  (waiting (list_ r) <> [] -> running_ r = concurrency).
Proof.
  intros H0 Hr. unfold init in H0. apply outcome_bind_Ok in H0 as (u & Ha & H0).
  apply assert_Ok in Ha. bsimpl. injection H0 as <-.
  assert (Hinv : wf r /\ running_ r <= concurrency_ r /\ concurrency_ r = concurrency).
  { revert Hr. eapply rtc_ind_r with (P := fun r => wf r /\ running_ r <= concurrency_ r /\ concurrency_ r = concurrency).
    - unfold wf; simpl. split_and!; auto; try lia; constructor.
    - intros a b _ [started Hs] (Hwf & Hle & Hc).
      destruct (step_limit _ _ _ Hs) as [Hc' Hl]. split_and!; [by eapply limiter_step_wf| |lia].
      by apply Hl. }
  destruct Hinv as ((Hc & Hp & Hq & _) & Hle & Hcc). split; [lia|].
  intros Hw. destruct Hq as [Hq|Hq]; [by rewrite Hq in Hw|lia].
Qed.

Lemma waiting_cleared l : Forall (fun s => slot_job s = None) l -> waiting l = [].
Proof. unfold waiting. induction 1 as [|[i j] l H _ IH]; simpl in *; [done|]. by subst. Qed.

Lemma waiting_app l1 l2 : waiting (l1 ++ l2) = waiting l1 ++ waiting l2.
Proof. apply omap_app. Qed.

(** [done()] frees one slot and, if jobs are waiting, fills it again with
    the most recently queued one that has not been cancelled (the queue is
    served last in, first out); it empties the queue when none is waiting. *)
Theorem done_starts_newest r r' started :
  done r = Ok (r', started) ->
  waiting (list_ r) = waiting (list_ r') ++ started /\
  (length started <= 1)%nat /\
  running_ r' = running_ r - 1 + Z.of_nat (length started) /\
  (started = [] -> waiting (list_ r) = [] /\ list_ r' = []).
Proof.
  intros H. apply done_spec in H as (_ & _ & _ & cl & Hcl & H).
  pose proof (waiting_cleared _ Hcl) as Hw. destruct started as [|j rest].
  - destruct H as (-> & -> & ->). rewrite Hw. simpl. split_and!; done || lia.
  - destruct H as (-> & -> & i & ->). rewrite waiting_app.
    change (waiting (mkSlot i (Some j) :: cl)) with (j :: waiting cl). rewrite Hw. split_and!; done || (simpl; lia).
Qed.

Lemma alive_ids cell l : cell_alive cell l = true <-> cell ∈ slot_id <$> l.
Proof.
  unfold cell_alive. rewrite existsb_exists, list_elem_of_fmap. split.
  - intros (s & Hs & He). apply bool_decide_eq_true in He. exists s.
    rewrite list_elem_of_In. done.
  - intros (s & -> & Hs). exists s. rewrite <- list_elem_of_In, bool_decide_eq_true. done.
Qed.

Lemma elem_clear_cell s cell l :
  s ∈ clear_cell cell l <->
  (s ∈ l /\ slot_id s <> cell) \/ (s = mkSlot cell None /\ cell ∈ slot_id <$> l).
Proof.
  unfold clear_cell. rewrite !list_elem_of_fmap. split.
  - intros (s' & -> & Hs). case_decide as E; [right|left; done].
    split; [done|]. exists s'. done.
  - intros [[Hs Hne]|[-> (s' & -> & Hs)]].
    + exists s. by case_decide.
    + exists s'. by case_decide.
Qed.

(** The cell [cell] has been cleared: allocated, and without a job wherever
    it still is in the queue. *)
Definition cell_cleared (cell : nat) r : Prop :=
  (cell < next_cell r)%nat /\
  Forall (fun s => slot_id s = cell -> slot_job s = None) (list_ r).

Lemma step_cell_cleared now r started r' cell :
  step now r started r' -> cell_cleared cell r -> cell_cleared cell r'.
Proof.
  intros Hs [Hlt Hcl]. unfold cell_cleared.
  destruct Hs as [job r r' c started H|job r r' c started H|c r r' b H|r r' started H].
  - unfold schedule in H. case_hyp H; injection H as <- _ _; simpl; [done|].
    split; [lia|]. apply Forall_app; split; [done|]. repeat constructor; simpl. lia.
  - injection H as <- _ _. done.
  - destruct c as [|c]; simpl in H; repeat case_hyp H; injection H as <- _; simpl; try done.
    split; [done|]. rewrite list.Forall_forall in *. intros s Hs Hid.
    apply elem_clear_cell in Hs as [[Hs _]|[-> _]]; [by apply Hcl|done].
  - apply done_spec in H as (_ & _ & -> & cl & _ & H). split; [done|].
    destruct started as [|j rest].
    + destruct H as (_ & -> & _). constructor.
    + destruct H as (_ & _ & i & Hl). rewrite Hl in Hcl. by apply Forall_app in Hcl as [? _].
Qed.

(** Cancellation: when a cancel function returns true, its job is not
    among the jobs waiting in any later state, whatever operations follow,
    so it is never started. *)
Theorem cancelled_job_never_starts cell r r' r'' :
  wf r -> call_cancel (cancel_cell cell) r = (r', true) ->
  rtc (fun a b => exists now started, step now a started b) r' r'' ->
  forall j, mkSlot cell (Some j) ∉ list_ r''.
Proof.
  intros Hwf Hc Hr j. simpl in Hc. destruct (cell_alive cell (list_ r)) eqn:Ha; [|done].
  injection Hc as <-. apply alive_ids in Ha.
  destruct Hwf as (_ & _ & _ & _ & Hlt).
  assert (H : cell_cleared cell r'').
  { revert Hr. eapply rtc_ind_r with (P := cell_cleared cell).
    - split; simpl.
      + apply (Forall_ids (fun i => i < next_cell r)%nat) in Hlt.
        rewrite list.Forall_forall in Hlt. by apply Hlt.
      + apply list.Forall_forall. intros s Hs%elem_clear_cell Hid. by destruct Hs as [[_ ?]|[-> _]].
    - intros a b _ (now & started & Hs) IH. by eapply step_cell_cleared. }
  destruct H as [_ H]. rewrite list.Forall_forall in H. intros Hin.
  by specialize (H _ Hin eq_refl).
Qed.

End Spec.

(** ** Witnesses *)

Definition full : RateLimiter nat :=
  mkLimiter 1 1 [mkSlot 0 (Some 7%nat); mkSlot 1 (Some 8%nat)] 2.

Lemma full_wf : wf full.
Proof.
  unfold wf, full; simpl. split_and!; try lia.
  - by apply (bool_decide_unpack _).
  - repeat constructor.
Qed.

Lemma limiter_bound_witness :
  let r := (schedule 5%nat (mkLimiter 1 0 [] 0)).1.1 in
  0 <= running_ r <= 1 /\ (waiting (list_ r) <> [] -> running_ r = 1).
Proof.
  apply (limiter_bound 1 (mkLimiter 1 0 [] 0)); [reflexivity|].
  apply rtc_once. exists [5%nat]. apply (step_schedule 5%nat _ _ cancel_nothing). reflexivity.
Defined.

Lemma done_starts_newest_witness :
  done full = Ok (mkLimiter 1 1 [mkSlot 0 (Some 7%nat)] 2, [8%nat]) /\
  waiting (list_ full) = waiting [mkSlot 0 (Some 7%nat)] ++ [8%nat].
Proof.
  assert (H : done full = Ok (mkLimiter 1 1 [mkSlot 0 (Some 7%nat)] 2, [8%nat])) by reflexivity.
  split; [exact H|]. apply (done_starts_newest full _ _ H).
Defined.

Lemma cancelled_job_never_starts_witness :
  let r' := (call_cancel (cancel_cell 1) full).1 in
  done r' = Ok (mkLimiter 1 1 [] 2, [7%nat]) /\ mkSlot 1 (Some 8%nat) ∉ list_ r'.
Proof.
  split; [reflexivity|].
  apply (cancelled_job_never_starts 1 full _ _ full_wf eq_refl). apply rtc_refl.
Defined.
End RateLimiter.
