(* ===== verification/Credentials.v ===== *)
(** * CredentialsCache (src/service/credentialscache.cpp)

    The two-generation cache of D-Bus peer credentials.  The operations return
    the callbacks to call, with their argument; in the code they are called
    last but for the removal of the pending entry, which a callback cannot
    observe because the peer is in [cache_] by then. *)

From S2P Require Import Prelude CxxLib.
Import Cxx.

Module Credentials.

Definition MAX_CACHE_SIZE : Z := 50.

(** [CredentialsCache::Credentials]. *)
Record Credentials : Type := mkCredentials { valid : bool; user : Z; label : string }.

(** The daemon's answer: an error, or the two entries of interest of the map. *)
Inductive creds_reply : Type :=
  | ReplyFailed
  | ReplyMap (unix_user_id : option Z) (linux_security_label : option string).

Section Defs.
Context {K : Type}.   (* the callbacks *)

Record CredentialsCache : Type := mkCache {
  apparmor_enabled_ : bool;
  cache_ : gmap string Credentials;
  old_cache_ : gmap string Credentials;
  pending_ : gmap string (list K)
}.

Definition init (aa_is_enabled : bool) : CredentialsCache := mkCache aa_is_enabled ∅ ∅ ∅.

(** [get]: the calls to make, and whether the bus daemon is asked. *)
Definition get (peer : string) (callback : K) (s : CredentialsCache)
    : CredentialsCache * list (K * Credentials) * bool :=
  match cache_ s !! peer with
  | Some credentials => (s, [(callback, credentials)], false)
  | None =>
      match old_cache_ s !! peer with
      | Some credentials =>
          (mkCache (apparmor_enabled_ s) (<[peer := credentials]> (cache_ s))
             (delete peer (old_cache_ s)) (pending_ s), [(callback, credentials)], false)
      | None =>
          match pending_ s !! peer with
          | Some callbacks =>
              (mkCache (apparmor_enabled_ s) (cache_ s) (old_cache_ s)
                 (<[peer := callbacks ++ [callback]]> (pending_ s)), [], false)
          | None =>
              (mkCache (apparmor_enabled_ s) (cache_ s) (old_cache_ s)
                 (<[peer := [callback]]> (pending_ s)), [], true)
          end
      end
  end.

(** The last character, and the string before it. *)
Fixpoint split_last (s : string) : option (string * ascii) :=
  match s with
  | EmptyString => None
  | String c s' =>
      match split_last s' with
      | None => Some ("", c)
      | Some (init, l) => Some (String c init, l)
      end
  end.

(** What precedes and what follows the last space. *)
Fixpoint cut_last_space (s : string) : option (string * string) :=
  match s with
  | EmptyString => None
  | String c s' =>
      match cut_last_space s' with
      | Some (a, b) => Some (String c a, b)
      | None => if Ascii.eqb c " " then Some ("", s') else None
      end
  end.

Definition ends_with_paren (s : string) : bool :=
  match split_last s with Some (_, ")"%char) => true | _ => false end.

(** The label without its terminating NUL and its mode. *)
Definition parse_label (raw : string) : outcome string :=
  match split_last raw with
  | None => Ok ""
  | Some (label, last) =>
      _ ← assert_ (Ascii.eqb last NUL) "received_credentials: label";
      match cut_last_space label with
      | Some (String c before, String "("%char after) =>
          if ends_with_paren label then Ok (String c before) else Ok label
      | _ => Ok label
      end
  end.

Definition credentials_of (apparmor_enabled : bool) (reply : creds_reply) : outcome Credentials :=
  match reply with
  | ReplyFailed => Ok (mkCredentials false 0 "")
  | ReplyMap uid raw =>
      lbl ← (if apparmor_enabled then parse_label (default "" raw) else Ok "unconfined");
      Ok (mkCredentials true (default 0 uid) lbl)
  end.

Definition received_credentials (peer : string) (reply : creds_reply) (s : CredentialsCache)
    : outcome (CredentialsCache * list (K * Credentials)) :=
  credentials ← credentials_of (apparmor_enabled_ s) reply;
  let '(c, old) := if MAX_CACHE_SIZE <=? Z.of_nat (base.size (cache_ s)) then (∅ : gmap string Credentials, cache_ s)
                   else (cache_ s, old_cache_ s) in
  let c := match c !! peer with Some _ => c | None => <[peer := credentials]> c end in
  match pending_ s !! peer with
  | None => Throw (out_of_range "map::at")
  | Some callbacks =>
      Ok (mkCache (apparmor_enabled_ s) c old (delete peer (pending_ s)),
          fmap (M:=list) (fun k => (k, credentials)) callbacks)
  end.
End Defs.

Arguments CredentialsCache : clear implicits.

(** ** Specification *)

(** A run: each caller is written as its peer and a number; [asked] are the
    calls of [get] so far, [answered] the callbacks called, [told] the
    credentials the daemon has sent. *)
Notation caller := (string * nat)%type.

Record history : Type := mkHistory {
  creds : CredentialsCache caller;
  asked : list caller;
  answered : list (caller * Credentials);
  told : list (string * Credentials)
}.

Inductive step : history -> history -> Prop :=
  | step_get peer n h s' calls b :
      get peer (peer, n) (creds h) = (s', calls, b) ->
      step h (mkHistory s' (asked h ++ [(peer, n)]) (answered h ++ calls) (told h))
  | step_reply peer reply h s' calls c :
      credentials_of (apparmor_enabled_ (creds h)) reply = Ok c ->
      received_credentials peer reply (creds h) = Ok (s', calls) ->
      step h (mkHistory s' (asked h) (answered h ++ calls) (told h ++ [(peer, c)])).

Definition waiting (s : CredentialsCache caller) : list caller :=
  mjoin ((map_to_list (pending_ s)).*2).

Definition start (aa : bool) : history := mkHistory (init aa) [] [] [].

Record Inv (h : history) : Prop := mkInv {
  inv_all : asked h ≡ₚ ((answered h).*1 ++ waiting (creds h));
  inv_pending : forall peer ks, pending_ (creds h) !! peer = Some ks ->
    cache_ (creds h) !! peer = None /\ old_cache_ (creds h) !! peer = None /\
    ks <> [] /\ Forall (fun k => k.1 = peer) ks;
  inv_generations : forall peer c, cache_ (creds h) !! peer = Some c -> old_cache_ (creds h) !! peer = None;
  inv_cache : forall peer c, cache_ (creds h) !! peer = Some c -> (peer, c) ∈ told h;
  inv_old : forall peer c, old_cache_ (creds h) !! peer = Some c -> (peer, c) ∈ told h;
  inv_answers : forall k c, (k, c) ∈ answered h -> (k.1, c) ∈ told h
}.

(** ** Lemmas *)

Lemma waiting_delete a c o (p : gmap string (list caller)) peer ks :
  p !! peer = Some ks ->
  waiting (mkCache a c o p) ≡ₚ ks ++ waiting (mkCache a c o (delete peer p)).
Proof.
  intros Hp. unfold waiting; simpl. rewrite <- (map_to_list_delete p peer ks Hp). done.
Qed.

Lemma waiting_insert a c o (p : gmap string (list caller)) peer ks :
  p !! peer = None ->
  waiting (mkCache a c o (<[peer := ks]> p)) ≡ₚ ks ++ waiting (mkCache a c o p).
Proof. intros Hp. unfold waiting; simpl. rewrite map_to_list_insert by done. done. Qed.

Lemma fst_pairs (c : Credentials) (ks : list caller) : ((fun k => (k, c)) <$> ks).*1 = ks.
Proof. induction ks as [|k ks IH]; [done|]. simpl. f_equal. exact IH. Qed.

Lemma get_inv peer n h s' calls b :
  get peer (peer, n) (creds h) = (s', calls, b) -> Inv h ->
  Inv (mkHistory s' (asked h ++ [(peer, n)]) (answered h ++ calls) (told h)).
Proof.
  intros Hg [Hall Hpend Hgen Hcache Hold Hans]. destruct h as [[aa c o p] ask ans tld]; simpl in *.
  unfold get in Hg; simpl in Hg. revert Hg.
  destruct (c !! peer) as [cr|] eqn:Hc; [|destruct (o !! peer) as [cr|] eqn:Ho;
    [|destruct (p !! peer) as [ks|] eqn:Hp]]; intros [= <- <- _].
  - constructor; simpl; try done.
    + rewrite fmap_app, Hall. simpl. solve_Permutation.
    + intros k c' [Hin|Hin]%elem_of_app; [by apply Hans|].
      apply list_elem_of_singleton in Hin as [= -> ->]. by apply Hcache.
  - constructor; simpl; try done.
    + rewrite fmap_app, Hall. change (waiting (mkCache _ _ _ p)) with (waiting (mkCache aa c o p)). simpl. solve_Permutation.
    + intros peer' ks Hk. destruct (Hpend peer' ks Hk) as (H1 & H2 & H3).
      rewrite lookup_insert_ne, lookup_delete_ne by congruence. done.
    + intros peer' c'. destruct (decide (peer' = peer)) as [-> |Hne].
      * intros _. apply lookup_delete_eq.
      * rewrite lookup_insert_ne, lookup_delete_ne by done. apply Hgen.
    + intros peer' c'. destruct (decide (peer' = peer)) as [-> |Hne].
      * rewrite lookup_insert_eq. intros [= <-]. by apply Hold.
      * rewrite lookup_insert_ne by done. apply Hcache.
    + intros peer' c' Hl%lookup_delete_Some. by apply Hold, Hl.
    + intros k c' [Hin|Hin]%elem_of_app; [by apply Hans|].
      apply list_elem_of_singleton in Hin as [= -> ->]. by apply Hold.
  - destruct (Hpend peer ks Hp) as (_ & _ & Hne & Hks). constructor; simpl; try done.
    + rewrite Hall, app_nil_r, (waiting_delete aa c o p peer ks Hp).
      rewrite <- insert_delete_eq, waiting_insert by apply lookup_delete_eq. solve_Permutation.
    + intros peer' ks'. destruct (decide (peer' = peer)) as [-> |Hn].
      * rewrite lookup_insert_eq. intros [= <-]. split_and!; try done; [by destruct ks|].
        apply Forall_app. split; [done|by repeat constructor].
      * rewrite lookup_insert_ne by done. apply Hpend.
    + intros k c'. rewrite app_nil_r. apply Hans.
  - constructor; simpl; try done.
    + rewrite Hall, app_nil_r, waiting_insert by done. solve_Permutation.
    + intros peer' ks'. destruct (decide (peer' = peer)) as [-> |Hn].
      * rewrite lookup_insert_eq. intros [= <-]. split_and!; try done. by repeat constructor.
      * rewrite lookup_insert_ne by done. apply Hpend.
    + intros k c'. rewrite app_nil_r. apply Hans.
Qed.

Lemma received_inv peer reply h s' calls c :
  credentials_of (apparmor_enabled_ (creds h)) reply = Ok c ->
  received_credentials peer reply (creds h) = Ok (s', calls) -> Inv h ->
  Inv (mkHistory s' (asked h) (answered h ++ calls) (told h ++ [(peer, c)])).
Proof.
  intros Hc Hr [Hall Hpend Hgen Hcache Hold Hans]. unfold received_credentials in Hr.
  rewrite Hc in Hr. destruct h as [[aa ca o p] ask ans tld]; simpl in *.
  destruct (if MAX_CACHE_SIZE <=? Z.of_nat (base.size ca) then (∅, ca) else (ca, o)) as [c1 o1] eqn:Hsw.
  destruct (p !! peer) as [ks|] eqn:Hp in Hr; [|done]. injection Hr as <- <-.
  destruct (Hpend peer ks Hp) as (Hc0 & Ho0 & _ & Hks).
  assert (Hc1 : c1 !! peer = None /\ o1 !! peer = None).
  { destruct (_ <=? _); injection Hsw as <- <-; rewrite ?lookup_empty; auto. }
  assert (Hsub : forall q x, c1 !! q = Some x \/ o1 !! q = Some x -> ca !! q = Some x \/ o !! q = Some x).
  { intros q x. destruct (_ <=? _); injection Hsw as <- <-; rewrite ?lookup_empty; naive_solver. }
  assert (Hgen1 : forall q x, c1 !! q = Some x -> o1 !! q = None).
  { destruct (_ <=? _); injection Hsw as <- <-; [|done]. intros q x. by rewrite lookup_empty. }
  destruct Hc1 as [Hc1 Ho1]. rewrite Hc1. constructor; simpl.
  - rewrite fmap_app, fst_pairs, Hall, (waiting_delete aa ca o p peer ks Hp).
    change (waiting (mkCache aa _ _ (delete peer p))) with (waiting (mkCache aa ca o (delete peer p))).
    solve_Permutation.
  - intros q ks' [Hq Hk]%lookup_delete_Some. destruct (Hpend q ks' Hk) as (H1 & H2 & H3).
    rewrite lookup_insert_ne by done. split_and!; try apply H3.
    + destruct (c1 !! q) eqn:E; [|done]. destruct (Hsub q c0); [by left|congruence..].
    + destruct (o1 !! q) eqn:E; [|done]. destruct (Hsub q c0); [by right|congruence..].
  - intros q x. destruct (decide (q = peer)) as [-> |Hn]; [done|].
    rewrite lookup_insert_ne by done. apply Hgen1.
  - intros q x. destruct (decide (q = peer)) as [-> |Hn].
    + rewrite lookup_insert_eq. intros [= <-]. set_solver.
    + rewrite lookup_insert_ne by done. intros Hq.
      apply elem_of_app. left. destruct (Hsub q x); [by left|by apply Hcache|by apply Hold].
  - intros q x Hq. apply elem_of_app. left. destruct (Hsub q x); [by right|by apply Hcache|by apply Hold].
  - intros k x [Hin|Hin]%elem_of_app; apply elem_of_app; [left; by apply Hans|right].
    apply list_elem_of_fmap in Hin as (k' & [= -> ->] & Hk').
    rewrite list.Forall_forall in Hks. rewrite (Hks _ Hk'). set_solver.
Qed.

Lemma step_inv h h' : step h h' -> Inv h -> Inv h'.
Proof. intros []; [by eapply get_inv|by eapply received_inv]. Qed.

Lemma start_inv aa : Inv (start aa).
Proof. constructor; simpl; try done; set_solver. Qed.

(** ** Properties *)


(** ** Witness *)

Definition two_callers : history :=
  let h1 := (get ":1.5" (":1.5", 0%nat) (init true)).1.1 in
  let h2 := (get ":1.5" (":1.5", 1%nat) h1).1.1 in
  mkHistory h2 [(":1.5", 0%nat); (":1.5", 1%nat)] [] [].


End Credentials.
