(* ===== verification/Version.v ===== *)
(** * Version (src/version.cpp, include/internal/version.h.in)

    The version files of the cache directory.  The current version numbers come
    from the build (a generated header) and are arguments; the file system is a
    map from paths to contents, and what a write does to a file an argument of
    the destructor. *)

From S2P Require Import Prelude.
From S2P Require Import CxxLib.
Import Cxx.

Module Version.

(** The generated constants. *)
Record Current : Type := mkCurrent { major : Z; minor : Z; micro : Z; cache_version : Z }.

Definition THUMBNAILER_VERSION_FILENAME : string := "thumbnailer-version".
Definition THUMBNAILER_CACHE_VERSION_FILENAME : string := "thumbnailer-cache-version".

Record Version : Type := mkVersion {
  version_file_ : string;
  cache_version_file_ : string;
  update_version_ : bool;
  update_cache_version_ : bool;
  prev_major_ : Z;
  prev_minor_ : Z;
  prev_micro_ : Z;
  prev_cache_version_ : Z
}.

Notation files := (gmap string string).

Definition newline : string := String "010" EmptyString.

Section Defs.
Context (cur : Current).

(** The versions remembered in the files; the defaults without them. *)
Definition read_version (file : option string) : Z * Z * Z :=
  match file with
  | Some contents =>
      let '(st, a) := extract_int (mkStream contents false) 2 in
      let '(st, b) := extract_int st 3 in
      let '(st, c) := extract_int st 0 in
      (a, b, c)
  | None => (2, 3, 0)
  end.

Definition read_cache_version (file : option string) : Z :=
  match file with
  | Some contents => (extract_int (mkStream contents false) 0).2
  | None => 0
  end.

Definition construct (fs : files) (cache_dir : string) : Version :=
  let version_file := cache_dir +:+ ("/" +:+ THUMBNAILER_VERSION_FILENAME) in
  let cache_version_file := cache_dir +:+ ("/" +:+ THUMBNAILER_CACHE_VERSION_FILENAME) in
  let '(a, b, c) := read_version (fs !! version_file) in
  let v := read_cache_version (fs !! cache_version_file) in
  mkVersion version_file cache_version_file
    (negb (a =? major cur) || negb (b =? minor cur) || negb (c =? micro cur))
    (negb (v =? cache_version cur)) a b c v.

Definition version_text : string :=
  to_string (major cur) +:+ (" " +:+ (to_string (minor cur) +:+ (" " +:+ (to_string (micro cur) +:+ newline)))).
Definition cache_version_text : string := to_string (cache_version cur) +:+ newline.

(** [write path text]: [None] when the file cannot be opened, else what it holds
    after the write. *)
Definition destroy (write : string -> string -> option string) (v : Version) (fs : files) : files :=
  let cache_part fs :=
    if update_cache_version_ v then
      match write (cache_version_file_ v) cache_version_text with
      | None => fs
      | Some c => <[cache_version_file_ v := c]> fs
      end
    else fs in
  if update_version_ v then
    match write (version_file_ v) version_text with
    | None => fs                        (* return *)
    | Some c => cache_part (<[version_file_ v := c]> fs)
    end
  else cache_part fs.

Definition good_version : Prop :=
  int_ok (major cur) = true /\ int_ok (minor cur) = true /\ int_ok (micro cur) = true /\
  int_ok (cache_version cur) = true.

Definition up_to_date (v : Version) : Prop :=
  (prev_major_ v, prev_minor_ v, prev_micro_ v) = (major cur, minor cur, micro cur) /\
  prev_cache_version_ v = cache_version cur /\ update_version_ v = false /\ update_cache_version_ v = false.

(** ** Lemmas *)

Lemma extract_space_int z r old :
  int_ok z = true -> ends_number r ->
  extract_int (mkStream (" " +:+ (to_string z +:+ r)) false) old = (mkStream r false, z).
Proof. intros Hz Hr. rewrite <- (extract_int_to_string z r old Hz Hr). reflexivity. Qed.

Lemma read_version_text : good_version -> read_version (Some version_text) = (major cur, minor cur, micro cur).
Proof.
  intros (H1 & H2 & H3 & _). unfold read_version, version_text.
  rewrite extract_int_to_string by done. cbn [fst snd].
  rewrite extract_space_int by done. by rewrite extract_space_int.
Qed.

Lemma read_cache_version_text : good_version -> read_cache_version (Some cache_version_text) = cache_version cur.
Proof.
  intros (_ & _ & _ & H). unfold read_cache_version, cache_version_text. by rewrite extract_int_to_string.
Qed.

Lemma file_names_differ dir :
  dir +:+ ("/" +:+ THUMBNAILER_VERSION_FILENAME) <> dir +:+ ("/" +:+ THUMBNAILER_CACHE_VERSION_FILENAME).
Proof. induction dir as [|c dir IH]; [done|]. intros [= H]. by apply IH. Qed.

(** [construct] in terms of what the two files say. *)
Lemma construct_reads fs dir :
  read_version (fs !! (dir +:+ ("/" +:+ THUMBNAILER_VERSION_FILENAME))) = (major cur, minor cur, micro cur) ->
  read_cache_version (fs !! (dir +:+ ("/" +:+ THUMBNAILER_CACHE_VERSION_FILENAME))) = cache_version cur ->
  up_to_date (construct fs dir).
Proof.
  intros H1 H2. unfold construct. rewrite H1, H2, !Z.eqb_refl. repeat split.
Qed.

(** The upgrade actions run once: whatever the version files held, after the
    destructor has written them (when its writes succeed) the next [Version]
    remembers exactly the current version and cache version, so neither flag is
    set, and its destructor leaves the files alone. *)
Theorem version_roundtrip fs dir :
  good_version ->
  let fs' := destroy (fun _ text => Some text) (construct fs dir) fs in
  let v' := construct fs' dir in
  up_to_date v' /\ forall write, destroy write v' fs' = fs'.
Proof.
  intros Hg fs' v'. pose proof (file_names_differ dir) as Hne. assert (Hu : up_to_date v').
  { apply construct_reads; unfold fs', destroy, construct;
      set (vf := dir +:+ ("/" +:+ THUMBNAILER_VERSION_FILENAME)) in *;
      set (cf := dir +:+ ("/" +:+ THUMBNAILER_CACHE_VERSION_FILENAME)) in *;
      destruct (read_version (fs !! vf)) as [[a b] c] eqn:Ea; cbv zeta beta iota;
      cbn [update_version_ update_cache_version_ version_file_ cache_version_file_];
      destruct (negb (a =? _) || _ || _) eqn:Eu; destruct (negb (_ =? cache_version cur)) eqn:Ec; bsimpl;
      rewrite ?(lookup_insert_ne _ cf vf), ?lookup_insert_eq, ?(lookup_insert_ne _ vf cf), ?lookup_insert_eq by done;
      rewrite ?read_version_text, ?read_cache_version_text by done; try done; congruence. }
  split; [done|]. intros write. destruct Hu as (_ & _ & H1 & H2). unfold destroy. by rewrite H1, H2.
Qed.
End Defs.

(** ** Witness *)

Definition release : Current := mkCurrent 2 4 0 2.

Lemma version_roundtrip_witness :
  good_version release /\
  up_to_date release (construct release (destroy release (fun _ text => Some text) (construct release ∅ "/c") ∅) "/c").
Proof.
  assert (Hg : good_version release) by (repeat split).
  split; [exact Hg|]. apply (version_roundtrip release ∅ "/c" Hg).
Defined.

End Version.
