(* ===== verification/Inactivity.v ===== *)
(** * InactivityHandler (src/service/inactivityhandler.cpp)

    The idle timer that ends the service: the number of requests being served,
    and whether the timer is running. *)

From S2P Require Import Prelude.
From S2P Require Import CxxLib.
Import Cxx.

Module Inactivity.

Definition MAX_INACTIVITY_TIME : Z := 30000.

Definition quote : string := String "034" EmptyString.

(** The result of [getenv("THUMBNAILER_MAX_IDLE")] is an argument. *)
Definition idle_error (value : string) : exn :=
  invalid_argument
    ("InactivityHandler::InactivityHandler(): Value for env variable THUMBNAILER_MAX_IDLE "
     +:+ (quote +:+ (value +:+ (quote +:+ " must be >= 1000.")))).

Definition get_env_inactivity_time (c_idle_time : option string) (default_value : Z) : outcome Z :=
  match c_idle_time with
  | Some str_idle_time =>
      try_catch
        (env_value ← stoi str_idle_time;
         if env_value <? 1000 then Throw (idle_error (to_string env_value)) else Ok env_value)
        (fun _ => Throw (idle_error str_idle_time))
  | None => Ok default_value
  end.

Record InactivityHandler : Type := mkInactivity {
  num_active_requests_ : Z;
  timer_active : bool;       (* timer_.isActive() *)
  interval : Z
}.

Definition init (c_idle_time : option string) : outcome InactivityHandler :=
  i ← get_env_inactivity_time c_idle_time MAX_INACTIVITY_TIME;
  Ok (mkInactivity 0 false i).

Definition request_started (t : InactivityHandler) : outcome InactivityHandler :=
  _ ← assert_ (0 <=? num_active_requests_ t) "request_started";
  Ok (mkInactivity (num_active_requests_ t + 1)
        (if num_active_requests_ t =? 0 then false else timer_active t) (interval t)).

Definition request_completed (t : InactivityHandler) : outcome InactivityHandler :=
  _ ← assert_ (0 <? num_active_requests_ t) "request_completed";
  Ok (mkInactivity (num_active_requests_ t - 1)
        (if num_active_requests_ t - 1 =? 0 then true else timer_active t) (interval t)).

(** [timer_func_]'s exceptions are logged, never passed on. *)
Definition timer_expired (timer_func_ : outcome unit) : outcome unit :=
  match timer_func_ with Throw _ => Ok tt | o => o end.

(** The destructor: the assertion, and the timer is stopped. *)
Definition destroy (t : InactivityHandler) : outcome InactivityHandler :=
  _ ← assert_ (num_active_requests_ t =? 0) "~InactivityHandler";
  Ok (mkInactivity (num_active_requests_ t) false (interval t)).

(** The timer only runs while nothing is being served. *)
Definition wf (t : InactivityHandler) : Prop :=
  0 <= num_active_requests_ t /\ (timer_active t = true -> num_active_requests_ t = 0).

(** ** Lemmas *)

Lemma started_wf t :
  wf t -> exists t', request_started t = Ok t' /\ wf t' /\
    num_active_requests_ t' = num_active_requests_ t + 1.
Proof.
  intros [Hn Ht]. unfold request_started. rewrite (proj2 (Z.leb_le _ _)) by done. simpl.
  eexists. split_and!; [done| |done]. split; simpl; [lia|].
  destruct (Z.eqb_spec (num_active_requests_ t) 0) as [|Hne]; [done|]. intros H%Ht. lia.
Qed.

Lemma completed_wf t :
  wf t -> 0 < num_active_requests_ t -> exists t', request_completed t = Ok t' /\ wf t' /\
    num_active_requests_ t' = num_active_requests_ t - 1.
Proof.
  intros [Hn Ht] Hp. unfold request_completed. rewrite (proj2 (Z.ltb_lt _ _)) by done. simpl.
  eexists. split_and!; [done| |done]. split; simpl; [lia|].
  destruct (Z.eqb_spec (num_active_requests_ t - 1) 0) as [|Hne]; [done|]. intros H%Ht. lia.
Qed.

Lemma init_wf e t : init e = Ok t -> wf t /\ num_active_requests_ t = 0.
Proof. intros (i & _ & [= <-])%outcome_bind_Ok. by repeat split. Qed.

End Inactivity.
