(* ===== verification/Service.v ===== *)
(** * The D-Bus service (src/service/handler.cpp, src/service/dbusinterface.cpp)

    One [Handler] per method call and the [DBusInterface] that owns them, as one
    state: everything here runs in the thread of the event loop, apart from
    [check()] and [create()], whose results arrive as arguments of the events.

    A handler is an entry of [heap] and its address the key; a D-Bus call has the
    number of its handler.  [stage_] says which of the callbacks of a handler has
    been handed out: to the credentials cache, to [checkWatcher], to the rate
    limiter, to the request ([downloadFinished]) or to [createWatcher].  The slots
    connected to a signal run in the order of their connection, inside the
    emission. *)

From S2P Require Import Prelude.
From S2P Require Import CxxLib.
From S2P Require Import Settings.
From S2P Require Import QtSize.
From S2P Require Import Image.
From S2P Require Import CacheInterface.
From S2P Require Import Thumbnailer.
From S2P Require Import RateLimiter.
From S2P Require Import Credentials.
From S2P Require Import Inactivity.
From S2P Require Import Downloads.
Import Cxx QtSize CacheInterface Thumbnailer Downloads.

Module Service.

(** ** Data *)

Inductive stage : Type :=
  | NotBegun | AwaitingCredentials | Checking | Scheduled | Downloading | Creating | Finished.

#[export] Instance stage_eq_dec : EqDecision stage.
Proof. solve_decision. Defined.

Inductive limiter_id : Type := download_limiter | extraction_limiter.

#[export] Instance limiter_id_eq_dec : EqDecision limiter_id.
Proof. solve_decision. Defined.

(** The five time points, in microseconds of the system clock; 0 is [time_point()]. *)
Record times : Type := mkTimes {
  start_time : Z;
  finish_time : Z;
  schedule_start_time : Z;
  download_start_time : Z;
  download_finish_time : Z
}.

(** [Handler] with its [HandlerPrivate]; [connected] are the handlers whose
    [begin()] is connected to [finished()]. *)
Record Handler : Type := mkHandler {
  request : Request;
  service : string;               (* message.service() *)
  limiter : limiter_id;
  details : string;
  cancelled : bool;
  cancel_func : option RateLimiter.CancelFunc;
  stage_ : stage;
  connected : list nat;
  times_ : times
}.

Definition set_request (r : Request) (x : Handler) : Handler :=
  mkHandler r (service x) (limiter x) (details x) (cancelled x) (cancel_func x) (stage_ x) (connected x) (times_ x).
Definition set_cancelled (b : bool) (x : Handler) : Handler :=
  mkHandler (request x) (service x) (limiter x) (details x) b (cancel_func x) (stage_ x) (connected x) (times_ x).
Definition set_cancel_func (c : RateLimiter.CancelFunc) (x : Handler) : Handler :=
  mkHandler (request x) (service x) (limiter x) (details x) (cancelled x) (Some c) (stage_ x) (connected x) (times_ x).
Definition set_stage (st : stage) (x : Handler) : Handler :=
  mkHandler (request x) (service x) (limiter x) (details x) (cancelled x) (cancel_func x) st (connected x) (times_ x).
Definition connect_begin (h : nat) (x : Handler) : Handler :=
  mkHandler (request x) (service x) (limiter x) (details x) (cancelled x) (cancel_func x) (stage_ x)
    (connected x ++ [h]) (times_ x).
Definition set_times (f : times -> times) (x : Handler) : Handler :=
  mkHandler (request x) (service x) (limiter x) (details x) (cancelled x) (cancel_func x) (stage_ x) (connected x)
    (f (times_ x)).

Definition finished_at (now : Z) (t : times) : times :=
  mkTimes (start_time t) now (schedule_start_time t) (download_start_time t) (download_finish_time t).
Definition scheduled_at (now : Z) (t : times) : times :=
  mkTimes (start_time t) (finish_time t) now (download_start_time t) (download_finish_time t).
Definition download_started_at (now : Z) (t : times) : times :=
  mkTimes (start_time t) (finish_time t) (schedule_start_time t) now (download_finish_time t).
Definition download_finished_at (now : Z) (t : times) : times :=
  mkTimes (start_time t) (finish_time t) (schedule_start_time t) (download_start_time t) now.

(** [Handler::key], [Handler::status]. *)
Definition key (x : Handler) : string := key_ (request x).
Definition status (x : Handler) : FetchStatus := status_ (request x).

(** What is sent to the caller. *)
Inductive reply : Type :=
  | ArtReplied (ba : string)
  | ErrorReplied (msg : string).

(** [ConfigValues]. *)
Record ConfigValues : Type := mkConfigValues { trace_client : bool; max_backlog : Z }.

(** What the constructor reads from the settings and keeps. *)
Record Config : Type := mkConfig { log_level_ : Z; config_values_ : ConfigValues }.

Record DBusInterface : Type := mkService {
  heap : gmap nat Handler;
  requests_ : gset nat;
  request_keys_ : gmap string (list nat);
  download_limiter_ : RateLimiter.RateLimiter nat;
  extraction_limiter_ : RateLimiter.RateLimiter nat;
  credentials_ : Credentials.CredentialsCache nat;
  inactivity_handler_ : Inactivity.InactivityHandler;
  config_ : Config;
  deferred : list nat;           (* deleteLater() *)
  bus : list (nat * reply);      (* the replies sent *)
  log : list string;
  next_call : nat
}.

Definition with_heap (hp : gmap nat Handler) (s : DBusInterface) : DBusInterface :=
  mkService hp (requests_ s) (request_keys_ s) (download_limiter_ s) (extraction_limiter_ s) (credentials_ s)
    (inactivity_handler_ s) (config_ s) (deferred s) (bus s) (log s) (next_call s).
Definition with_requests (rs : gset nat) (s : DBusInterface) : DBusInterface :=
  mkService (heap s) rs (request_keys_ s) (download_limiter_ s) (extraction_limiter_ s) (credentials_ s)
    (inactivity_handler_ s) (config_ s) (deferred s) (bus s) (log s) (next_call s).
Definition with_keys (ks : gmap string (list nat)) (s : DBusInterface) : DBusInterface :=
  mkService (heap s) (requests_ s) ks (download_limiter_ s) (extraction_limiter_ s) (credentials_ s)
    (inactivity_handler_ s) (config_ s) (deferred s) (bus s) (log s) (next_call s).
Definition with_limiter (i : limiter_id) (r : RateLimiter.RateLimiter nat) (s : DBusInterface) : DBusInterface :=
  mkService (heap s) (requests_ s) (request_keys_ s)
    (if i is download_limiter then r else download_limiter_ s)
    (if i is extraction_limiter then r else extraction_limiter_ s) (credentials_ s)
    (inactivity_handler_ s) (config_ s) (deferred s) (bus s) (log s) (next_call s).
Definition with_credentials (c : Credentials.CredentialsCache nat) (s : DBusInterface) : DBusInterface :=
  mkService (heap s) (requests_ s) (request_keys_ s) (download_limiter_ s) (extraction_limiter_ s) c
    (inactivity_handler_ s) (config_ s) (deferred s) (bus s) (log s) (next_call s).
Definition with_inactivity (t : Inactivity.InactivityHandler) (s : DBusInterface) : DBusInterface :=
  mkService (heap s) (requests_ s) (request_keys_ s) (download_limiter_ s) (extraction_limiter_ s) (credentials_ s)
    t (config_ s) (deferred s) (bus s) (log s) (next_call s).
Definition with_deferred (d : list nat) (s : DBusInterface) : DBusInterface :=
  mkService (heap s) (requests_ s) (request_keys_ s) (download_limiter_ s) (extraction_limiter_ s) (credentials_ s)
    (inactivity_handler_ s) (config_ s) d (bus s) (log s) (next_call s).
Definition send (h : nat) (m : reply) (s : DBusInterface) : DBusInterface :=
  mkService (heap s) (requests_ s) (request_keys_ s) (download_limiter_ s) (extraction_limiter_ s) (credentials_ s)
    (inactivity_handler_ s) (config_ s) (deferred s) (bus s ++ [(h, m)]) (log s) (next_call s).
Definition write_log (msg : string) (s : DBusInterface) : DBusInterface :=
  mkService (heap s) (requests_ s) (request_keys_ s) (download_limiter_ s) (extraction_limiter_ s) (credentials_ s)
    (inactivity_handler_ s) (config_ s) (deferred s) (bus s) (log s ++ [msg]) (next_call s).
Definition new_call (s : DBusInterface) : DBusInterface :=
  mkService (heap s) (requests_ s) (request_keys_ s) (download_limiter_ s) (extraction_limiter_ s) (credentials_ s)
    (inactivity_handler_ s) (config_ s) (deferred s) (bus s) (log s) (S (next_call s)).

Definition limiter_of (i : limiter_id) (s : DBusInterface) : RateLimiter.RateLimiter nat :=
  match i with download_limiter => download_limiter_ s | extraction_limiter => extraction_limiter_ s end.

(** [double(count) / 1000000] written in fixed notation to a [QTextStream]. *)
Class LogFormat : Type := { seconds : Z -> string }.

Section Defs.
Context {host : Host} {fmt : LogFormat}.

(** ** Handler *)

(** [Handler::status_as_string]. *)
Definition status_as_string (x : Handler) : string :=
  match status x with
  | cache_hit => "HIT"
  | scaled_from_fullsize => "FULL-SIZE HIT"
  | cached_failure => "FAILED PREVIOUSLY"
  | needs_download => "NEEDS DOWNLOAD"
  | downloaded => "MISS"
  | not_found => "NO ARTWORK"
  | network_down => "NETWORK DOWN"
  | hard_error => "ERROR"
  | temporary_error => "TEMPORARY ERROR"
  | timeout => "TIMEOUT"
  end.

Definition completion_time (x : Handler) : outcome Z :=
  let t := times_ x in
  _ ← assert_ (negb (finish_time t =? 0)) "completion_time";
  Ok (finish_time t - start_time t).

Definition queued_time (x : Handler) : Z :=
  let t := times_ x in download_start_time t - schedule_start_time t.

Definition download_time (x : Handler) : outcome Z :=
  let t := times_ x in
  _ ← assert_ (negb (finish_time t =? 0)) "download_time";
  if download_start_time t =? 0 then Ok 0 else Ok (download_finish_time t - download_start_time t).

(** [write_log_message]. *)
Definition log_message (x : Handler) : outcome string :=
  c ← completion_time x;
  d ← download_time x;
  let q := queued_time x in
  Ok (details x +:+ (": " +:+ (seconds c +:+
      ((if (0 <? q) || (0 <? d) then
          " [" +:+ ((if 0 <? q then "q: " +:+ (seconds q +:+ (if 0 <? d then ", " else "")) else "")
                    +:+ ((if 0 <? d then "d: " +:+ seconds d else "") +:+ "]"))
        else "")
       +:+ (" sec (" +:+ (status_as_string x +:+ ")")))))).

(** A handler by its address. *)
Definition get_handler (h : nat) : M DBusInterface Handler := fun s =>
  match heap s !! h with
  | Some x => (s, Ok x)
  | None => (s, Crash (Undefined "use of a destroyed Handler"))
  end.

Definition update (h : nat) (f : Handler -> Handler) : M DBusInterface unit :=
  x ← get_handler h;
  modify (fun s => with_heap (<[h := f x]> (heap s)) s).

Fixpoint each {A} (f : A -> M DBusInterface unit) (l : list A) : M DBusInterface unit :=
  match l with
  | [] => mret tt
  | a :: l' => _ ← f a; each f l'
  end.

(** The statuses logged at level 1. *)
Definition logged_status (st : FetchStatus) : bool :=
  match st with
  | cached_failure | downloaded | not_found | network_down | temporary_error => true
  | _ => false
  end.

(** [DBusInterface::requestFinished]. *)
Definition requestFinished (h : nat) : M DBusInterface unit :=
  s ← getS;
  _ ← (if decide (h ∈ requests_ s) then modify (with_requests (requests_ s ∖ {[h]}))
       else modify (write_log "finished() called on unknown handler"));
  x ← get_handler h;
  s ← getS;
  let requests_for_key := filter (fun k => k <> h) (default [] (request_keys_ s !! key x)) in
  _ ← modify (with_keys (match requests_for_key with
                         | [] => delete (key x) (request_keys_ s)
                         | _ => <[key x := requests_for_key]> (request_keys_ s)
                         end));
  _ ← modify (fun s => with_deferred (deferred s ++ [h]) s);
  s ← getS;
  if (log_level_ (config_ s) =? 2) || bool_decide (status x = hard_error)
     || ((log_level_ (config_ s) =? 1) && logged_status (status x))
  then msg ← lift (log_message x); modify (write_log msg)
  else mret tt.

Section Begin.
Context (now : Z).

Section Slots.
Context (begin : nat -> M DBusInterface unit).

(** [Q_EMIT finished()]: the owner's slot, then the slots of the handlers that
    wait for this one. *)
Definition emit_finished (h : nat) : M DBusInterface unit :=
  _ ← update h (set_stage Finished);
  _ ← requestFinished h;
  x ← get_handler h;
  each begin (connected x).

Definition sendThumbnail (h : nat) (ba : string) : M DBusInterface unit :=
  _ ← modify (send h (ArtReplied ba));
  _ ← update h (set_times (finished_at now));
  emit_finished h.

Definition sendError (h : nat) (error : string) : M DBusInterface unit :=
  x ← get_handler h;
  _ ← (if bool_decide (status x = hard_error) || bool_decide (status x = temporary_error)
       then modify (write_log error) else mret tt);
  _ ← modify (send h (ErrorReplied error));
  _ ← update h (set_times (finished_at now));
  emit_finished h.

Definition gotCredentials (h : nat) (credentials : Credentials.Credentials) : M DBusInterface unit :=
  x ← get_handler h;
  if cancelled x then emit_finished h
  else if negb (Credentials.valid credentials) then
    sendError h ("Handler::gotCredentials(): " +:+ (details x +:+ ": could not retrieve peer credentials"))
  else
    match check_client_credentials (request x) (Credentials.user credentials) (Credentials.label credentials) with
    | Throw e =>
        if is_std e then sendError h ("Handler::gotCredentials(): " +:+ (details x +:+ (": " +:+ exn_what e)))
        else throw e
    | Crash f => crash f
    | Ok _ => update h (set_stage Checking)
    end.
End Slots.

(** [fuel] bounds the handlers begun within one another. *)
Fixpoint begin (fuel : nat) (h : nat) : M DBusInterface unit :=
  match fuel with
  | O => crash (Undefined "begin: fuel")
  | S fuel =>
      x ← get_handler h;
      _ ← update h (set_stage AwaitingCredentials);
      s ← getS;
      let '(c, calls, _) := Credentials.get (service x) h (credentials_ s) in
      _ ← modify (with_credentials c);
      each (fun kc => gotCredentials (begin fuel) kc.1 kc.2) calls
  end.

Definition fuel_of (s : DBusInterface) : nat := S (base.size (heap s)).
Definition begin_ (h : nat) : M DBusInterface unit := fun s => begin (fuel_of s) h s.

(** ** The slots of Handler *)

(** What a [QFutureWatcher] reports: the [ByteArrayOrError] the job returned, a
    null error being [None], or an exception raised by [result()]. *)
Inductive watched : Type :=
  | Returned (ba : string) (error : option string)
  | Raised (what : string).

(** The lambdas [do_check] and [do_create]: only standard exceptions are caught;
    [result()] throws Qt's own exception for the others. *)
Definition watch (m : outcome string) : outcome watched :=
  match m with
  | Ok ba => Ok (Returned ba None)
  | Throw e => Ok (if is_std e then Returned "" (Some (exn_what e)) else Raised "std::exception")
  | Crash f => Crash f
  end.

(** [check()] and [create()]; [thumbnail] is what [request->thumbnail()] did. *)
Definition check (x : Handler) (thumbnail : outcome string) : outcome string :=
  if cancelled x then Ok "" else thumbnail.

Definition create (x : Handler) (thumbnail : outcome string) : outcome string :=
  if cancelled x then Ok ""
  else
    art_image ← thumbnail;
    if String.eqb art_image "" then
      Throw (runtime_error ("could not get thumbnail for " +:+ (details x +:+ (": " +:+ status_as_string x))))
    else Ok art_image.

(** [sys] is what [download()] is answered. *)
Section Starts.
Context (sys : Answers).

(** The job [checkFinished] schedules. *)
Definition run_job (h : nat) : M DBusInterface unit :=
  x ← get_handler h;
  if cancelled x then mret tt
  else
    _ ← update h (set_times (download_started_at now));
    started ← lift (download sys 0 (request x));
    update h (fun x => set_stage Downloading (set_request started.1 x)).

Definition schedule_download (h : nat) : M DBusInterface unit :=
  x ← get_handler h;
  s ← getS;
  let '(r, cancel, started) := RateLimiter.schedule h (limiter_of (limiter x) s) in
  _ ← modify (with_limiter (limiter x) r);
  _ ← update h (set_stage Scheduled);
  _ ← each run_job started;
  update h (set_cancel_func cancel).

(** [r] is the request after [thumbnail()]. *)
Definition checkFinished (h : nat) (r : Request) (thumbnail : outcome string) : M DBusInterface unit :=
  _ ← update h (set_request r);
  x ← get_handler h;
  w ← lift (watch (check x thumbnail));
  if cancelled x then mret tt
  else
    match w with
    | Raised what =>
        sendError begin_ h ("Handler::checkFinished(): exception: " +:+ (details x +:+ (": " +:+ what)))
    | Returned _ (Some error) =>
        sendError begin_ h ("Handler::checkFinished(): result error: " +:+ (details x +:+ (": " +:+ error)))
    | Returned ba None =>
        if negb (String.eqb ba "") then sendThumbnail begin_ h ba
        else
          _ ← update h (set_times (scheduled_at now));
          if bool_decide (status x = needs_download) then
            catch_std (schedule_download h) (fun e =>
              sendError begin_ h ("Handler::checkFinished(): download error: " +:+ (details x +:+ exn_what e)))
          else
            sendError begin_ h ("Handler::checkFinished(): no artwork for "
                                +:+ (details x +:+ (": " +:+ status_as_string x)))
    end.

(** [r] is the request once the download or extraction is over. *)
Definition downloadFinished (h : nat) (r : Request) : M DBusInterface unit :=
  _ ← update h (set_request r);
  _ ← update h (set_times (download_finished_at now));
  x ← get_handler h;
  s ← getS;
  done_r ← lift (RateLimiter.done (limiter_of (limiter x) s));
  let '(l, started) := done_r in
  _ ← modify (with_limiter (limiter x) l);
  _ ← each run_job started;
  if cancelled x then mret tt else update h (set_stage Creating).
End Starts.

Definition createFinished (h : nat) (r : Request) (thumbnail : outcome string) : M DBusInterface unit :=
  _ ← update h (set_request r);
  x ← get_handler h;
  w ← lift (watch (create x thumbnail));
  if cancelled x then mret tt
  else
    match w with
    | Raised what =>
        sendError begin_ h ("Handler::createFinished(): " +:+ (details x +:+ (": " +:+ what)))
    | Returned ba error =>
        match error with
        | Some (String c e) => sendError begin_ h ("Handler::createFinished(): " +:+ String c e)
        | _ => sendThumbnail begin_ h ba
        end
    end.

(** The credentials of [peer] arrive: the callbacks run in order. *)
Definition credentialsReceived (peer : string) (r : Credentials.creds_reply) : M DBusInterface unit :=
  s ← getS;
  rc ← lift (Credentials.received_credentials peer r (credentials_ s));
  let '(c, calls) := rc in
  _ ← modify (with_credentials c);
  each (fun kc => gotCredentials begin_ kc.1 kc.2) calls.

(** [~Handler], run by [deleteLater()]; the jobs in the thread pools are over. *)
Definition destroy (h : nat) : M DBusInterface unit :=
  _ ← update h (set_cancelled true);
  x ← get_handler h;
  s ← getS;
  _ ← match cancel_func x with
      | Some c => modify (with_limiter (limiter x) (RateLimiter.call_cancel c (limiter_of (limiter x) s)).1)
      | None => mret tt
      end;
  s ← getS;
  t ← lift (Inactivity.request_completed (inactivity_handler_ s));
  _ ← modify (with_inactivity t);
  modify (fun s => with_heap (delete h (heap s)) s).

(** The event loop deletes the first handler posted. *)
Definition deleteDeferred : M DBusInterface unit :=
  s ← getS;
  match deferred s with
  | [] => mret tt
  | h :: rest => _ ← modify (with_deferred rest); destroy h
  end.

(** ** The D-Bus methods *)

(** [new Handler]. *)
Definition newHandler (h : nat) (peer : string) (i : limiter_id) (r : Request) (details : string)
    : M DBusInterface unit :=
  s ← getS;
  _ ← modify (with_heap (<[h := mkHandler r peer i details false None NotBegun []
                               (mkTimes now 0 0 0 0)]> (heap s)));
  t ← lift (Inactivity.request_started (inactivity_handler_ s));
  modify (with_inactivity t).

(** [requests_for_key] is a reference to an element of [request_keys_]. *)
Definition queueRequest (h : nat) : M DBusInterface unit :=
  _ ← modify (fun s => with_requests ({[h]} ∪ requests_ s) s);
  x ← get_handler h;
  s ← getS;
  let requests_for_key := default [] (request_keys_ s !! key x) in
  _ ← modify (with_keys (<[key x := requests_for_key]> (request_keys_ s)));
  _ ← match last requests_for_key with
      | None => begin_ h
      | Some back => update back (connect_begin h)
      end;
  s ← getS;
  match request_keys_ s !! key x with
  | None => crash (Undefined "queueRequest: requests_for_key")
  | Some l => modify (with_keys (<[key x := l ++ [h]]> (request_keys_ s)))
  end.

Definition size_string (z : QSize) : string :=
  " (" +:+ (to_string (width z) +:+ ("," +:+ (to_string (height z) +:+ ")"))).

(** The common part of the three methods: [made] is the request the thumbnailer
    returned, [prefix] what the message of an exception is preceded by in the
    log, [reply_prefix] in the reply. *)
Definition serve (peer : string) (i : limiter_id) (made : outcome Request) (details prefix reply_prefix : string)
    : M DBusInterface unit :=
  s ← getS;
  let h := next_call s in
  _ ← modify new_call;
  catch_std
    (r ← lift made;
     _ ← newHandler h peer i r details;
     queueRequest h)
    (fun e =>
       _ ← modify (write_log (prefix +:+ exn_what e));
       modify (send h (ErrorReplied (reply_prefix +:+ exn_what e)))).

Section Methods.
Context {C : Type} (thumbnailer_ : Thumbnailer C).

Definition GetAlbumArt (peer artist album : string) (requestedSize : QSize) : M DBusInterface unit :=
  serve peer download_limiter (get_album_art thumbnailer_ artist album requestedSize)
    ("album: " +:+ (artist +:+ ("/" +:+ (album +:+ size_string requestedSize))))
    ("DBusInterface::GetAlbumArt(): " +:+ (artist +:+ ("/" +:+ (album +:+ ": ")))) "".

Definition GetArtistArt (peer artist album : string) (requestedSize : QSize) : M DBusInterface unit :=
  let prefix := "DBusInterface::GetArtistArt(): " +:+ (artist +:+ ("/" +:+ (album +:+ ": "))) in
  serve peer download_limiter (get_artist_art thumbnailer_ artist album requestedSize)
    ("artist: " +:+ (artist +:+ ("/" +:+ (album +:+ size_string requestedSize)))) prefix prefix.

Definition GetThumbnail (peer filename : string) (requestedSize : QSize) : M DBusInterface unit :=
  let prefix := "DBusInterface::GetThumbnail(): " +:+ (filename +:+ ": ") in
  serve peer extraction_limiter (get_thumbnail thumbnailer_ filename requestedSize)
    ("thumbnail: " +:+ (filename +:+ size_string requestedSize)) prefix prefix.
End Methods.

Definition ClientConfig (s : DBusInterface) : ConfigValues := config_values_ (config_ s).
End Begin.

(** ** Construction *)

(** [adjusted_limit]; [arm] tells an ARM build. *)
Definition adjusted_limit (arm : bool) (limit : Z) : Z :=
  if arm then (if limit =? 0 then 1 else limit) else limit.

Definition extraction_limit (arm : bool) (hardware_concurrency : Z) (max_extractions : Z) : Z :=
  let limit := adjusted_limit arm max_extractions in
  if limit =? 0 then
    let limit := narrow_int hardware_concurrency in
    if limit =? 0 then 1 else limit
  else limit.

Definition construct (arm : bool) (hardware_concurrency : Z) (d : Settings.Settings.Defaults)
    (settings_ : Settings.Settings.Settings) (env_log_level : option string) (aa_is_enabled : bool)
    (inactivity_handler : Inactivity.InactivityHandler) : outcome DBusInterface :=
  max_downloads ← Settings.Settings.max_downloads d settings_;
  download_limiter ← RateLimiter.init max_downloads;
  limit ← Settings.Settings.max_extractions d settings_;
  extraction_limiter ← RateLimiter.init (extraction_limit arm hardware_concurrency limit);
  log_level ← Settings.Settings.log_level d settings_ env_log_level;
  trace ← Settings.Settings.trace_client d settings_;
  backlog ← Settings.Settings.max_backlog d settings_;
  Ok (mkService ∅ ∅ ∅ download_limiter extraction_limiter (Credentials.init aa_is_enabled)
        inactivity_handler (mkConfig log_level (mkConfigValues trace backlog)) [] [] [] 0).
End Defs.

(** ** The event loop *)

Section Loop.
Context {host : Host} {fmt : LogFormat} {C : Type}.

(** What the event loop delivers: the D-Bus calls, the answers of the bus daemon,
    the signals of the watchers and of the requests with the request they leave
    behind, deferred deletions, and a call of the admin interface, which only
    counts as activity here. *)
Inductive event : Type :=
  | CallAlbumArt (t : Thumbnailer C) (peer artist album : string) (size : QSize)
  | CallArtistArt (t : Thumbnailer C) (peer artist album : string) (size : QSize)
  | CallThumbnail (t : Thumbnailer C) (peer filename : string) (size : QSize)
  | CredentialsFor (peer : string) (r : Credentials.creds_reply)
  | CheckDone (h : nat) (r : Request) (thumbnail : outcome string)
  | DownloadDone (h : nat) (r : Request)
  | CreateDone (h : nat) (r : Request) (thumbnail : outcome string)
  | DeleteDeferred
  | AdminCall.

(** [ActivityNotifier] of the admin interface. *)
Definition admin_call : M DBusInterface unit :=
  s ← getS;
  t ← lift (Inactivity.request_started (inactivity_handler_ s) ≫= Inactivity.request_completed);
  modify (with_inactivity t).

Definition handle_on (sys : Answers) (now : Z) (e : event) : M DBusInterface unit :=
  match e with
  | CallAlbumArt t peer artist album size => GetAlbumArt now t peer artist album size
  | CallArtistArt t peer artist album size => GetArtistArt now t peer artist album size
  | CallThumbnail t peer filename size => GetThumbnail now t peer filename size
  | CredentialsFor peer r => credentialsReceived now peer r
  | CheckDone h r thumbnail => checkFinished now sys h r thumbnail
  | DownloadDone h r => downloadFinished now sys h r
  | CreateDone h r thumbnail => createFinished now h r thumbnail
  | DeleteDeferred => deleteDeferred
  | AdminCall => admin_call
  end.

(** With a pipe for every extractor and a reply for every download. *)
Definition handle (now : Z) (e : event) : M DBusInterface unit := handle_on granted now e.

(** The request a method call is about, if it is one. *)
Definition called (e : event) : option (string * outcome Request) :=
  match e with
  | CallAlbumArt t peer artist album size => Some (peer, get_album_art t artist album size)
  | CallArtistArt t peer artist album size => Some (peer, get_artist_art t artist album size)
  | CallThumbnail t peer filename size => Some (peer, get_thumbnail t filename size)
  | _ => None
  end.

Definition no_crash {A} (m : outcome A) : Prop :=
  match m with Ok _ => True | Throw e => is_std e = true | Crash _ => False end.

Definition in_stage (st : stage) (h : nat) (r : Request) (s : DBusInterface) : Prop :=
  exists x, heap s !! h = Some x /\ stage_ x = st /\ key_ r = key x.

(** When an event can occur: an answer for a peer that was asked about, ending in
    NUL as the kernel writes it; a result for a job that runs, which leaves the
    key of its request alone; the request of a download that was started, when it
    ends; standard exceptions only. *)
Definition enabled (e : event) (s : DBusInterface) : Prop :=
  match e with
  | CredentialsFor peer r =>
      is_Some (Credentials.pending_ (credentials_ s) !! peer) /\
      is_ok (Credentials.credentials_of (Credentials.apparmor_enabled_ (credentials_ s)) r) = true
  | CheckDone h r thumbnail => in_stage Checking h r s /\ no_crash thumbnail
  | DownloadDone h r => exists x, heap s !! h = Some x /\ stage_ x = Downloading /\ download_ends (request x) r
  | CreateDone h r thumbnail => in_stage Creating h r s /\ no_crash thumbnail
  | DeleteDeferred => deferred s <> []
  | AdminCall => True
  | _ => match called e with Some (_, made) => no_crash made | None => True end
  end.

(** The credentials the cache has for a peer. *)
Definition cached (peer : string) (c : Credentials.CredentialsCache nat) : option Credentials.Credentials :=
  match Credentials.cache_ c !! peer with
  | Some cr => Some cr
  | None => Credentials.old_cache_ c !! peer
  end.

Definition access (r : Request) (cr : Credentials.Credentials) : bool :=
  Credentials.valid cr && is_ok (check_client_credentials r (Credentials.user cr) (Credentials.label cr)).

(** A call that is refused while [queueRequest] still holds its reference: the
    first for its key, from a peer whose credentials are cached. *)
Definition refused_at_once (e : event) (s : DBusInterface) : bool :=
  match called e with
  | Some (peer, Ok r) =>
      match cached peer (credentials_ s), request_keys_ s !! key_ r with
      | Some cr, None => negb (access r cr)
      | _, _ => false
      end
  | _ => false
  end.

Inductive step (s s' : DBusInterface) : Prop :=
  | step_event now e : 0 < now -> enabled e s -> handle now e s = (s', Ok tt) -> step s s'.

Definition initial (s : DBusInterface) : Prop :=
  exists arm cores d settings env aa idle_env idle,
    Inactivity.init idle_env = Ok idle /\ construct arm cores d settings env aa idle = Ok s.

Definition reachable (s : DBusInterface) : Prop := exists s0, initial s0 /\ rtc step s0 s.

(** The replies sent for a call. *)
Definition replies (h : nat) (l : list (nat * reply)) : nat := length (filter (fun r => r.1 = h) l).
End Loop.
End Service.
