(* ===== verification/Admin.v ===== *)
(** * The admin interface and its clients (src/service/admininterface.cpp, src/service/stats.h,
      src/service/stats.cpp, src/service/client_config.cpp)

    The D-Bus methods of [AdminInterface] on the thumbnailer and the inactivity
    handler, and the encoding of the statistics and of the client configuration.
    The statistics of a cache come from the persistent cache library and are read
    by a parameter; [double]s are values of a type [F]. *)

From S2P Require Import Prelude.
From S2P Require Import CxxLib.
From S2P Require Import QtSize.
From S2P Require Import CacheInterface.
From S2P Require Import CacheHelper.
From S2P Require Import Backoff.
From S2P Require Import Thumbnailer.
From S2P Require Import ThumbnailerInstance.
From S2P Require Import Inactivity.
From S2P Require Import Service.
Import Cxx QtSize CacheInterface Thumbnailer.

Module Admin.

(** ** Statistics *)

Section Stats.
Context {F : Type}.

(** [service::CacheStats]; times in nanoseconds. *)
Record CacheStats : Type := mkStats {
  cache_path : string;
  policy : Z;
  size : Z;
  size_in_bytes : Z;
  max_size_in_bytes : Z;
  hits : Z;
  misses : Z;
  hits_since_last_miss : Z;
  misses_since_last_hit : Z;
  longest_hit_run : Z;
  longest_miss_run : Z;
  avg_hit_run_length : F;
  avg_miss_run_length : F;
  ttl_evictions : Z;
  lru_evictions : Z;
  most_recent_hit_time : Z;
  most_recent_miss_time : Z;
  longest_hit_run_time : Z;
  longest_miss_run_time : Z;
  histogram : list Z
}.

Record AllStats : Type := mkAllStats {
  full_size_stats : CacheStats;
  thumbnail_stats : CacheStats;
  failure_stats : CacheStats
}.

(** Conversions to the D-Bus integer types. *)
Definition quint32 (z : Z) : Z := z mod 2 ^ 32.
Definition quint64 (z : Z) : Z := z mod 2 ^ 64.
Definition qint64 (z : Z) : Z := (z + 2 ^ 63) mod 2 ^ 64 - 2 ^ 63.

(** [to_cache_stats]; the numbers of the library are signed 64-bit integers but
    for the policy, an enumeration, and the histogram, 32-bit counts. *)
Definition to_cache_stats (st : CacheStats) : CacheStats :=
  mkStats (cache_path st) (quint32 (policy st)) (qint64 (size st)) (qint64 (size_in_bytes st))
    (qint64 (max_size_in_bytes st)) (qint64 (hits st)) (qint64 (misses st)) (qint64 (hits_since_last_miss st))
    (qint64 (misses_since_last_hit st)) (qint64 (longest_hit_run st)) (qint64 (longest_miss_run st))
    (avg_hit_run_length st) (avg_miss_run_length st) (qint64 (ttl_evictions st)) (qint64 (lru_evictions st))
    (most_recent_hit_time st) (most_recent_miss_time st) (longest_hit_run_time st) (longest_miss_run_time st)
    (fmap (M:=list) quint32 (histogram st)).

(** What a [QDBusArgument] holds. *)
Inductive dbus_value : Type :=
  | DString (s : string)
  | DUInt32 (z : Z)
  | DInt64 (z : Z)
  | DUInt64 (z : Z)
  | DDouble (f : F)
  | DList (l : list Z)               (* of quint32 *)
  | DStruct (l : list dbus_value).

Definition NS_PER_MS : Z := 1000000.

(** [quint64(duration_cast<milliseconds>(t.time_since_epoch()).count())]. *)
Definition encode_time (t : Z) : dbus_value := DUInt64 (quint64 (Z.quot t NS_PER_MS)).

(** [time_point(milliseconds(n))]: [n] becomes a signed 64-bit count, which must
    fit the nanoseconds of a time point. *)
Definition decode_time (n : Z) : outcome Z :=
  let t := qint64 n * NS_PER_MS in
  if (LLONG_MIN <=? t) && (t <=? LLONG_MAX) then Ok t else Crash (Undefined "time_point").

Definition encode_cache_stats (s : CacheStats) : dbus_value :=
  DStruct [DString (cache_path s); DUInt32 (policy s); DInt64 (size s); DInt64 (size_in_bytes s);
    DInt64 (max_size_in_bytes s); DInt64 (hits s); DInt64 (misses s); DInt64 (hits_since_last_miss s);
    DInt64 (misses_since_last_hit s); DInt64 (longest_hit_run s); DInt64 (longest_miss_run s);
    DDouble (avg_hit_run_length s); DDouble (avg_miss_run_length s); DInt64 (ttl_evictions s);
    DInt64 (lru_evictions s); encode_time (most_recent_hit_time s); encode_time (most_recent_miss_time s);
    encode_time (longest_hit_run_time s); encode_time (longest_miss_run_time s); DList (histogram s)].

(** A message of another shape cannot be delivered by QtDBus: [None]. *)
Definition decode_cache_stats (v : dbus_value) : option (outcome CacheStats) :=
  match v with
  | DStruct [DString path; DUInt32 pol; DInt64 sz; DInt64 szb; DInt64 mx; DInt64 h; DInt64 m; DInt64 hs; DInt64 ms;
             DInt64 lh; DInt64 lm; DDouble ah; DDouble am; DInt64 te; DInt64 le;
             DUInt64 mrht; DUInt64 mrmt; DUInt64 lhrt; DUInt64 lmrt; DList hist] =>
      Some (a ← decode_time mrht; b ← decode_time mrmt; c ← decode_time lhrt; d ← decode_time lmrt;
            Ok (mkStats path pol sz szb mx h m hs ms lh lm ah am te le a b c d hist))
  | _ => None
  end.

Definition encode_all_stats (s : AllStats) : dbus_value :=
  DStruct [encode_cache_stats (full_size_stats s); encode_cache_stats (thumbnail_stats s); encode_cache_stats (failure_stats s)].

Definition decode_all_stats (v : dbus_value) : option (outcome AllStats) :=
  match v with
  | DStruct [f; t; x] =>
      f ← decode_cache_stats f; t ← decode_cache_stats t; x ← decode_cache_stats x;
      Some (f ← f; t ← t; x ← x; Ok (mkAllStats f t x))
  | _ => None
  end.

(** What a round trip keeps of a time. *)
Definition to_ms (t : Z) : Z := Z.quot t NS_PER_MS * NS_PER_MS.

Definition truncate_times (s : CacheStats) : CacheStats :=
  mkStats (cache_path s) (policy s) (size s) (size_in_bytes s) (max_size_in_bytes s) (hits s) (misses s)
    (hits_since_last_miss s) (misses_since_last_hit s) (longest_hit_run s) (longest_miss_run s)
    (avg_hit_run_length s) (avg_miss_run_length s) (ttl_evictions s) (lru_evictions s)
    (to_ms (most_recent_hit_time s)) (to_ms (most_recent_miss_time s))
    (to_ms (longest_hit_run_time s)) (to_ms (longest_miss_run_time s)) (histogram s).

(** Every time is one a [system_clock::time_point] can hold. *)
Definition times_ok (s : CacheStats) : Prop :=
  Forall (fun t => LLONG_MIN <= t <= LLONG_MAX)
    [most_recent_hit_time s; most_recent_miss_time s; longest_hit_run_time s; longest_miss_run_time s].

Lemma time_roundtrip t : LLONG_MIN <= t <= LLONG_MAX ->
  exists n, encode_time t = DUInt64 n /\ decode_time n = Ok (to_ms t).
Proof.
  intros Ht. exists (quint64 (Z.quot t NS_PER_MS)). split; [done|].
  assert (Hq : LLONG_MIN <= to_ms t <= LLONG_MAX /\ - 2 ^ 63 <= Z.quot t NS_PER_MS < 2 ^ 63).
  { unfold to_ms, NS_PER_MS, LLONG_MIN, LLONG_MAX in *. Z.to_euclidean_division_equations; lia. }
  destruct Hq as [[H1 H2] Hq]. unfold decode_time, qint64, quint64.
  rewrite Zplus_mod_idemp_l, Z.mod_small by lia. rewrite Z.add_simpl_r. fold (to_ms t).
  by rewrite (proj2 (Z.leb_le _ _) H1), (proj2 (Z.leb_le _ _) H2).
Qed.

Lemma stats_decode s : times_ok s ->
  decode_cache_stats (encode_cache_stats s) = Some (Ok (truncate_times s)).
Proof.
  intros Ht. unfold times_ok in Ht. rewrite !Forall_cons in Ht. destruct Ht as (H1 & H2 & H3 & H4 & _).
  destruct (time_roundtrip _ H1) as (n1 & E1 & D1), (time_roundtrip _ H2) as (n2 & E2 & D2),
    (time_roundtrip _ H3) as (n3 & E3 & D3), (time_roundtrip _ H4) as (n4 & E4 & D4).
  unfold encode_cache_stats. rewrite E1, E2, E3, E4. simpl. by rewrite D1, D2, D3, D4.
Qed.

(** Statistics survive the bus: what a client decodes is what the service
    encoded, in every field and for all three caches, with the times truncated to
    milliseconds - also times before 1970, which cross the bus as huge unsigned
    numbers - and decoding never overflows. *)
Lemma stats_roundtrip s :
  times_ok (full_size_stats s) -> times_ok (thumbnail_stats s) -> times_ok (failure_stats s) ->
  decode_all_stats (encode_all_stats s) =
    Some (Ok (mkAllStats (truncate_times (full_size_stats s)) (truncate_times (thumbnail_stats s))
                (truncate_times (failure_stats s)))).
Proof.
  intros H1 H2 H3. unfold decode_all_stats, encode_all_stats.
  by rewrite (stats_decode _ H1), (stats_decode _ H2), (stats_decode _ H3).
Qed.

(** ** [ConfigValues] *)

Inductive config_field : Type := CBool (b : bool) | CInt32 (z : Z).

Definition encode_config (s : Service.ConfigValues) : list config_field :=
  [CBool (Service.trace_client s); CInt32 (Service.max_backlog s)].

Definition decode_config (l : list config_field) : option Service.ConfigValues :=
  match l with
  | [CBool t; CInt32 m] => Some (Service.mkConfigValues t m)
  | _ => None
  end.

Lemma config_roundtrip s : decode_config (encode_config s) = Some s.
Proof. by destruct s. Qed.
End Stats.

#[global] Arguments dbus_value : clear implicits.
#[global] Arguments CacheStats : clear implicits.
#[global] Arguments AllStats : clear implicits.

(** ** The methods *)

(** What the client gets: a value, or the error of [sendErrorReply]. *)
Inductive reply (A : Type) : Type :=
  | Reply (a : A)
  | ErrorReply (name msg : string).
Arguments Reply {A} a.
Arguments ErrorReply {A} name msg.

Section Interface.
Context {C : Type} {cacheC : Cache C}.

Record AdminInterface : Type := mkAdmin {
  thumbnailer_ : Thumbnailer.Thumbnailer C;
  inactivity_handler_ : Inactivity.InactivityHandler;
  quit_requested : bool          (* QCoreApplication::quit() *)
}.

Definition with_thumbnailer (t : Thumbnailer.Thumbnailer C) (s : AdminInterface) : AdminInterface :=
  mkAdmin t (inactivity_handler_ s) (quit_requested s).
Definition with_handler (h : Inactivity.InactivityHandler) (s : AdminInterface) : AdminInterface :=
  mkAdmin (thumbnailer_ s) h (quit_requested s).

Definition on_thumbnailer {A} (m : M (Thumbnailer.Thumbnailer C) A) : M AdminInterface A := fun s =>
  let '(t, a) := m (thumbnailer_ s) in (with_thumbnailer t s, a).
Definition on_handler (f : Inactivity.InactivityHandler -> outcome Inactivity.InactivityHandler) : M AdminInterface unit := fun s =>
  match f (inactivity_handler_ s) with
  | Ok h => (with_handler h s, Ok tt)
  | Throw e => (s, Throw e)
  | Crash c => (s, Crash c)
  end.

Definition ADMIN_ERROR : string := "com.canonical.ThumbnailerAdmin.Error.Failed".

(** The destructor of [ActivityNotifier] runs however the body ends; what it
    throws would end the program. *)
Definition notify_completed {A} (body : M AdminInterface A) : M AdminInterface A := fun s =>
  match body s with
  | (s1, Crash c) => (s1, Crash c)
  | (s1, r) =>
      match on_handler Inactivity.request_completed s1 with
      | (s2, Ok _) => (s2, r)
      | (s2, Throw _) => (s2, Crash (Aborted "std::terminate"))
      | (s2, Crash c) => (s2, Crash c)
      end
  end.

(** The rest of a method, after the declaration of [notifier]. *)
Definition ActivityNotifier {A} (body : M AdminInterface A) : M AdminInterface A :=
  _ ← on_handler Inactivity.request_started; notify_completed body.

Definition LAST__ : Z := 4.

(** [static_cast<Thumbnailer::CacheSelector>]. *)
Definition to_selector (cache_id : Z) : Thumbnailer.CacheSelector :=
  match cache_id with
  | 1 => Thumbnailer.sel_full_size_cache
  | 2 => Thumbnailer.sel_thumbnail_cache
  | 3 => Thumbnailer.sel_failure_cache
  | _ => Thumbnailer.sel_all
  end.

(** [Thumbnailer::stats]; the list initialisation goes from left to right. *)
Definition read_stats {F} (getters : string -> CacheStats F) (i : Thumbnailer.cache_id) : M (Thumbnailer.Thumbnailer C) (CacheStats F) := fun t =>
  let '(c, st) := cache_stats (Thumbnailer.get_cache i t) in
  (match i with
   | Thumbnailer.full_size => Thumbnailer.set_full c t
   | Thumbnailer.thumbnails => Thumbnailer.set_thumb c t
   | Thumbnailer.failures => Thumbnailer.set_failure c t
   end, st ← st; Ok (getters st)).

Definition thumbnailer_stats {F} (getters : string -> CacheStats F) : M (Thumbnailer.Thumbnailer C) (AllStats F) :=
  f ← read_stats getters Thumbnailer.full_size;
  th ← read_stats getters Thumbnailer.thumbnails;
  x ← read_stats getters Thumbnailer.failures;
  mret (mkAllStats f th x).

Definition Stats {F} (getters : string -> CacheStats F) : M AdminInterface (AllStats F) :=
  ActivityNotifier
    (st ← on_thumbnailer (thumbnailer_stats getters);
     mret (mkAllStats (to_cache_stats (full_size_stats st)) (to_cache_stats (thumbnail_stats st))
             (to_cache_stats (failure_stats st)))).

Definition invalid_selector (cache_id : Z) : bool := (cache_id <? 0) || (LAST__ <=? cache_id).

Definition ClearStats (cache_id : Z) : M AdminInterface (reply unit) :=
  ActivityNotifier
    (if invalid_selector cache_id
     then mret (ErrorReply ADMIN_ERROR ("ClearStats(): invalid cache selector: " +:+ to_string cache_id))
     else _ ← on_thumbnailer (Thumbnailer.clear_stats (to_selector cache_id)); mret (Reply tt)).

Definition Clear (cache_id : Z) : M AdminInterface (reply unit) :=
  ActivityNotifier
    (if invalid_selector cache_id
     then mret (ErrorReply ADMIN_ERROR ("Clear(): invalid cache selector: " +:+ to_string cache_id))
     else _ ← on_thumbnailer (Thumbnailer.clear (to_selector cache_id)); mret (Reply tt)).

Definition Compact (cache_id : Z) : M AdminInterface (reply unit) :=
  ActivityNotifier
    (if invalid_selector cache_id
     then mret (ErrorReply ADMIN_ERROR ("Compact(): invalid cache selector: " +:+ to_string cache_id))
     else _ ← on_thumbnailer (Thumbnailer.compact (to_selector cache_id)); mret (Reply tt)).

Definition Shutdown : M AdminInterface unit :=
  modify (fun s => mkAdmin (thumbnailer_ s) (inactivity_handler_ s) true).

(** The methods that take a cache selector, as the pointers to member functions
    of the tool. *)
Inductive selector_method : Type := m_Clear | m_ClearStats | m_Compact.

Definition invoke (m : selector_method) : Z -> M AdminInterface (reply unit) :=
  match m with m_Clear => Clear | m_ClearStats => ClearStats | m_Compact => Compact end.

(** ** Lemmas *)

Definition handler_untouched {A} (m : M AdminInterface A) : Prop :=
  forall s, inactivity_handler_ (m s).1 = inactivity_handler_ s.

Lemma on_thumbnailer_untouched {A} (m : M (Thumbnailer.Thumbnailer C) A) : handler_untouched (on_thumbnailer m).
Proof. intros s. unfold on_thumbnailer. by destruct (m _). Qed.

Lemma ret_untouched {A} (a : A) : handler_untouched (mret a).
Proof. done. Qed.

Lemma bind_untouched {A B} (m : M AdminInterface A) (f : A -> M AdminInterface B) :
  handler_untouched m -> (forall a, handler_untouched (f a)) -> handler_untouched (m ≫= f).
Proof.
  intros Hm Hf s. unfold mbind, M_bind. specialize (Hm s). destruct (m s) as [s1 [a|e|c]]; simpl in *; try done.
  by rewrite Hf.
Qed.

(** The idle handler after a call of the interface. *)
Definition balanced (h h' : Inactivity.InactivityHandler) : Prop :=
  Inactivity.wf h' /\ Inactivity.num_active_requests_ h' = Inactivity.num_active_requests_ h /\
  (Inactivity.num_active_requests_ h = 0 -> Inactivity.timer_active h' = true).

Lemma handler_balance h : Inactivity.wf h ->
  exists h1 h2, Inactivity.request_started h = Ok h1 /\ Inactivity.request_completed h1 = Ok h2 /\ balanced h h2.
Proof.
  intros Hw. destruct (Inactivity.started_wf h Hw) as (h1 & H1 & Hw1 & N1).
  destruct (Inactivity.completed_wf h1 Hw1) as (h2 & H2 & Hw2 & N2); [destruct Hw; lia|].
  exists h1, h2. split; [done|]. split; [done|]. split; [done|]. split; [lia|].
  intros E. revert H2. unfold Inactivity.request_completed.
  destruct (assert_ _ _) as [[]|e|c]; simpl; intros [= <-]. simpl. by rewrite N1, E.
Qed.

Lemma notifier_run {A} (body : M AdminInterface A) s :
  Inactivity.wf (inactivity_handler_ s) -> handler_untouched body ->
  exists h1 h2, balanced (inactivity_handler_ s) h2 /\
    forall s1 r, body (with_handler h1 s) = (s1, r) ->
      ActivityNotifier body s = match r with Crash c => (s1, Crash c) | _ => (with_handler h2 s1, r) end.
Proof.
  intros Hw Hb. destruct (handler_balance _ Hw) as (h1 & h2 & H1 & H2 & Hbal). exists h1, h2. split; [done|].
  assert (E : ActivityNotifier body s = notify_completed body (with_handler h1 s)).
  { unfold ActivityNotifier, mbind, M_bind, on_handler. by rewrite H1. }
  intros s1 r Hr. rewrite E. unfold notify_completed.
  specialize (Hb (with_handler h1 s)). rewrite Hr in *. simpl in Hb.
  unfold on_handler. rewrite Hb, H2. by destruct r.
Qed.

(** ** The caches behind the methods *)

Context {claws : CacheLaws C}.
Implicit Types t : Thumbnailer.Thumbnailer C.

(** No cache is waiting to be repaired. *)
Definition caches_valid t : Prop := forall i, cache_valid (Thumbnailer.get_cache i t).

(** [t'] differs from [t] in the caches only, which answer as they did. *)
Definition after_visit t t' : Prop :=
  caches_valid t' /\ Thumbnailer.same_config t t' /\ Thumbnailer.backoff_ t' = Thumbnailer.backoff_ t /\
  forall j now k, cache_lookup (Thumbnailer.get_cache j t') now k = cache_lookup (Thumbnailer.get_cache j t) now k.

(** [t'] is [t] with [f] applied to the caches of [l]. *)
Definition visited (f : C -> C) (l : list Thumbnailer.cache_id) t t' : Prop :=
  Thumbnailer.same_config t t' /\ Thumbnailer.backoff_ t' = Thumbnailer.backoff_ t /\
  forall j, get_cache j t' = if bool_decide (j ∈ l) then f (get_cache j t) else get_cache j t.

Lemma on_cache_visited m i t :
  exists t', on_cache m i t = (t', (m (get_cache i t)).2) /\ visited (fun c => (m c).1) [i] t t'.
Proof.
  unfold on_cache. destruct i; simpl; destruct (m _) as [c r] eqn:E; (eexists; split; [done|]);
    (split; [done|]); (split; [done|]); intros []; simpl; by rewrite ?E.
Qed.

Lemma visited_cons f i l t t1 t2 : i ∉ l ->
  visited f [i] t t1 -> visited f l t1 t2 -> visited f (i :: l) t t2.
Proof.
  intros Hi ((Hx & Hh & He) & Hb & H) ((Hx' & Hh' & He') & Hb' & H').
  split; [unfold same_config; by rewrite Hx', Hh', He'|]. split; [by rewrite Hb'|].
  intros j. rewrite H', H. repeat case_bool_decide; set_solver.
Qed.

(** Each cache is visited once, and the others not at all. *)
Lemma for_each_visited m l t : NoDup l ->
  (forall i, i ∈ l -> (m (get_cache i t)).2 = Ok tt) ->
  exists t', for_each m l t = (t', Ok tt) /\ visited (fun c => (m c).1) l t t'.
Proof.
  intros Hd. revert t. induction Hd as [|i l Hi Hd IH]; intros t Hm.
  { exists t. split; [done|]. split; [done|]. split; [done|]. intros j. by rewrite bool_decide_false by set_solver. }
  destruct (on_cache_visited m i t) as (t1 & H1 & V1). rewrite Hm in H1 by set_solver.
  destruct (IH t1) as (t2 & H2 & V2).
  { intros j Hj. destruct V1 as (_ & _ & V1). rewrite V1, bool_decide_false by set_solver. apply Hm. set_solver. }
  exists t2. simpl. unfold mbind, M_bind. rewrite H1. split; [done|]. by eapply visited_cons.
Qed.

(** Also when a cache throws. *)
Lemma for_each_others m l t j : j ∉ l -> get_cache j (for_each m l t).1 = get_cache j t.
Proof.
  revert t. induction l as [|i l IH]; intros t Hj; [done|]. simpl. unfold mbind, M_bind.
  destruct (on_cache_visited m i t) as (t1 & -> & _ & _ & H1).
  assert (E : get_cache j t1 = get_cache j t) by (rewrite H1; by rewrite bool_decide_false by set_solver).
  destruct (m _).2; simpl; [rewrite IH by set_solver|..]; done.
Qed.

(** ** Properties *)

Definition method_name (m : selector_method) : string :=
  match m with m_Clear => "Clear" | m_ClearStats => "ClearStats" | m_Compact => "Compact" end.
Definition wipes (m : selector_method) : bool :=
  match m with m_Clear => true | _ => false end.

(** The operation of the thumbnailer behind a method, and the operation of the
    library behind that. *)
Definition operation (m : selector_method) : CacheSelector -> M (Thumbnailer C) unit :=
  match m with
  | m_Clear => Thumbnailer.clear
  | m_ClearStats => Thumbnailer.clear_stats
  | m_Compact => Thumbnailer.compact
  end.
Definition on_library (m : selector_method) : M C unit :=
  match m with
  | m_Clear => cache_invalidate
  | m_ClearStats => cache_clear_stats
  | m_Compact => cache_compact
  end.

(** What a method with a valid selector does to the thumbnailer: exactly the
    caches of [l] are what the library's operation leaves of them, which for
    [Clear] is no entry at all and otherwise every entry. *)
Definition maintained (m : selector_method) (l : list cache_id) t t' : Prop :=
  (forall j, get_cache j t' = if bool_decide (j ∈ l) then (on_library m (get_cache j t)).1 else get_cache j t) /\
  caches_valid t' /\ same_config t t' /\
  (forall j now k, cache_lookup (get_cache j t') now k =
     if wipes m && bool_decide (j ∈ l) then None else cache_lookup (get_cache j t) now k) /\
  forall now, Backoff.retry_ok (backoff_ t') now =
    if wipes m && bool_decide (failures ∈ l) then true else Backoff.retry_ok (backoff_ t) now.

Lemma on_library_ok m (c : C) : cache_valid c ->
  exists c', on_library m c = (c', Ok tt) /\ cache_valid c' /\
    forall now k, cache_lookup c' now k = if wipes m then None else cache_lookup c now k.
Proof.
  intros Hc. destruct m; [apply cache_invalidate_law|apply cache_clear_stats_law|apply cache_compact_law];
    by try apply cache_valid_usable.
Qed.

Lemma select_caches_NoDup sel : NoDup (select_caches sel).
Proof. destruct sel; simpl; repeat constructor; set_solver. Qed.

Lemma visit_maintained m l t t' : caches_valid t -> visited (fun c => (on_library m c).1) l t t' ->
  caches_valid t' /\
  forall j now k, cache_lookup (get_cache j t') now k =
    if wipes m && bool_decide (j ∈ l) then None else cache_lookup (get_cache j t) now k.
Proof.
  intros Hv (_ & _ & H).
  assert (Hj : forall j, cache_valid (get_cache j t') /\ forall now k, cache_lookup (get_cache j t') now k =
    if wipes m && bool_decide (j ∈ l) then None else cache_lookup (get_cache j t) now k).
  { intros j. rewrite H. destruct (on_library_ok m _ (Hv j)) as (c & -> & Hc & Hl).
    case_bool_decide; rewrite ?andb_true_r, ?andb_false_r; [by split|]. split; [apply Hv|done]. }
  split; intros j; apply Hj.
Qed.

Lemma library_maintains m l t : NoDup l -> caches_valid t ->
  exists t', for_each (on_library m) l t = (t', Ok tt) /\ visited (fun c => (on_library m c).1) l t t'.
Proof. intros Hd Hv. apply for_each_visited; [done|]. intros i _. by destruct (on_library_ok m _ (Hv i)) as (c & -> & _). Qed.

Lemma operation_maintains m sel t :
  caches_valid t -> 0 <= Backoff.max_backoff_ (backoff_ t) ->
  exists t', operation m sel t = (t', Ok tt) /\ maintained m (select_caches sel) t t'.
Proof.
  intros Hv Hmax. destruct (library_maintains m _ t (select_caches_NoDup sel) Hv) as (t1 & H1 & V).
  destruct (visit_maintained _ _ _ _ Hv V) as [Hv1 Hl]. destruct V as (Hc & Hb & Hj).
  destruct m; simpl in *; [|exists t1; split; [done|]; split_and!; try done; intros now; by rewrite Hb..].
  unfold Thumbnailer.clear, mbind at 1, M_bind at 1. rewrite H1. apply Z.leb_le in Hmax. rewrite <- Hb in Hmax.
  destruct sel; simpl; unfold mbind, M_bind, getS, lift, Backoff.set_backoff_period; simpl; rewrite ?Hmax; simpl;
    (eexists; split; [done|]);
    (split; [intros j; etransitivity; [|apply Hj]; by destruct j|]);
    (split; [intros j; specialize (Hv1 j); by destruct j|]); (split; [done|]);
    (split; [intros j now k; etransitivity; [|apply Hl]; by destruct j|]); intros now; simpl; by rewrite <- ?Hb.
Qed.

(** Also when a cache throws. *)
Lemma operation_others m sel t j :
  j ∉ select_caches sel -> get_cache j (operation m sel t).1 = get_cache j t.
Proof.
  intros Hj. destruct m; simpl; [|by apply for_each_others..].
  unfold Thumbnailer.clear, mbind at 1, M_bind at 1.
  pose proof (for_each_others cache_invalidate _ t j Hj) as H. destruct (for_each _ _ t) as [t1 [[]|e|c]]; simpl in *; [|done..].
  rewrite <- H. destruct sel; simpl; unfold mbind, M_bind, getS, lift, Backoff.set_backoff_period; simpl;
    repeat case_match; simplify_eq/=; by destruct j.
Qed.

Lemma invoke_unfold m id :
  invoke m id = ActivityNotifier
    (if invalid_selector id
     then mret (ErrorReply ADMIN_ERROR (method_name m +:+ "(): invalid cache selector: " +:+ to_string id))
     else _ ← on_thumbnailer (operation m (to_selector id)); mret (Reply tt)).
Proof. by destruct m. Qed.

(** A method with a valid selector, on any caches. *)
Lemma invoke_run m id s :
  Inactivity.wf (inactivity_handler_ s) -> invalid_selector id = false ->
  exists h', balanced (inactivity_handler_ s) h' /\
    match operation m (to_selector id) (thumbnailer_ s) with
    | (t', Ok _) => invoke m id s = (with_handler h' (with_thumbnailer t' s), Ok (Reply tt))
    | (t', Throw e) => invoke m id s = (with_handler h' (with_thumbnailer t' s), Throw e)
    | (t', Crash c) => (invoke m id s).2 = Crash c
    end.
Proof.
  intros Hw Hid. rewrite invoke_unfold, Hid.
  destruct (notifier_run (_ ← on_thumbnailer (operation m (to_selector id)); mret (Reply tt)) s Hw)
    as (h1 & h2 & Hb & Hr); [apply bind_untouched; [apply on_thumbnailer_untouched|done]|].
  exists h2. split; [done|].
  destruct (operation m (to_selector id) (thumbnailer_ s)) as [t' [[]|e|c]] eqn:E;
    (erewrite Hr; [|unfold mbind, M_bind, on_thumbnailer; simpl; by rewrite E]; done).
Qed.

Lemma invoke_valid m id s :
  Inactivity.wf (inactivity_handler_ s) -> caches_valid (thumbnailer_ s) ->
  0 <= Backoff.max_backoff_ (backoff_ (thumbnailer_ s)) -> invalid_selector id = false ->
  exists h' t', balanced (inactivity_handler_ s) h' /\
    invoke m id s = (with_handler h' (with_thumbnailer t' s), Ok (Reply tt)) /\
    maintained m (select_caches (to_selector id)) (thumbnailer_ s) t'.
Proof.
  intros Hw Hv Hmax Hid. destruct (invoke_run m id s Hw Hid) as (h' & Hb & Hi).
  destruct (operation_maintains m (to_selector id) _ Hv Hmax) as (t' & Ht & Hm).
  rewrite Ht in Hi. exists h', t'. by split.
Qed.

Lemma selector_range id : (0 <=? id) && (id <=? 3) = negb (invalid_selector id).
Proof.
  unfold invalid_selector, LAST__. destruct (Z.ltb_spec id 0), (Z.leb_spec 4 id), (Z.leb_spec 0 id), (Z.leb_spec id 3); simpl; (done || lia).
Qed.

(** What the client gets from the result of the operation. *)
Definition answered (r : outcome unit) : outcome (reply unit) :=
  _ ← r; Ok (Reply tt).

(** C35. The maintenance methods of the admin interface, on any caches: a selector
    out of range is answered with an error that names the method and the
    number, and nothing but the idle timer changes.  Otherwise the method ends
    as the operation on the thumbnailer does - what that throws leaves the
    method - and no cache but the selected ones is touched; with valid caches it
    succeeds, each selected cache is exactly what the library's own operation
    leaves of it (for [Clear] no entry, otherwise every entry), and [Clear] of
    the failure cache ends the backoff.  In all of this, exceptions included, the
    idle handler counts what it counted before, and its timer runs again when
    nothing else is being served. *)
Theorem admin_contract m id s :
  Inactivity.wf (inactivity_handler_ s) ->
  exists h', balanced (inactivity_handler_ s) h' /\
    if (0 <=? id) && (id <=? 3)
    then exists t' r,
      operation m (to_selector id) (thumbnailer_ s) = (t', r) /\
      (forall c, r = Crash c -> (invoke m id s).2 = Crash c) /\
      ((forall c, r <> Crash c) -> invoke m id s = (with_handler h' (with_thumbnailer t' s), answered r)) /\
      (forall j, j ∉ select_caches (to_selector id) -> get_cache j t' = get_cache j (thumbnailer_ s)) /\
      (caches_valid (thumbnailer_ s) -> 0 <= Backoff.max_backoff_ (backoff_ (thumbnailer_ s)) ->
         r = Ok tt /\ maintained m (select_caches (to_selector id)) (thumbnailer_ s) t')
    else invoke m id s = (with_handler h' s,
           Ok (ErrorReply ADMIN_ERROR (method_name m +:+ "(): invalid cache selector: " +:+ to_string id))).
Proof.
  intros Hw. rewrite selector_range. destruct (invalid_selector id) eqn:Ei; cbn [negb].
  - rewrite invoke_unfold, Ei. destruct (notifier_run _ s Hw (ret_untouched (ErrorReply (A:=()) ADMIN_ERROR
      (method_name m +:+ "(): invalid cache selector: " +:+ to_string id)))) as (h1 & h2 & Hb & Hr).
    exists h2. split; [done|]. by rewrite (Hr _ _ eq_refl).
  - destruct (invoke_run m id s Hw Ei) as (h' & Hb & Hr). exists h'. split; [done|].
    pose proof (operation_others m (to_selector id) (thumbnailer_ s)) as Ho.
    destruct (operation m (to_selector id) (thumbnailer_ s)) as [t' r] eqn:Eo. exists t', r. split; [done|].
    split; [by intros c ->|]. split; [intros Hc; destruct r; [done..|by destruct (Hc f)]|].
    split; [done|].
    intros Hv Hmax. destruct (operation_maintains m (to_selector id) _ Hv Hmax) as (t1 & H1 & Hm).
    rewrite Eo in H1. by simplify_eq.
Qed.

Context {F : Type} (getters : string -> CacheStats F).

Lemma read_stats_ok i t : caches_valid t ->
  exists t' st, read_stats getters i t = (t', Ok (getters st)) /\ after_visit t t'.
Proof.
  intros Hv. destruct (cache_stats_law _ (Hv i)) as (c & st & Hc & Hcv & Hl).
  exists (match i with full_size => set_full c t | thumbnails => set_thumb c t | failures => set_failure c t end), st.
  unfold read_stats. rewrite Hc. split; [done|]. split; [intros j; specialize (Hv j); by destruct i, j|].
  split; [by destruct i|]. split; [by destruct i|]. intros j now k. by destruct i, j.
Qed.

Lemma after_visit_trans t1 t2 t3 : after_visit t1 t2 -> after_visit t2 t3 -> after_visit t1 t3.
Proof.
  intros (_ & (Hx & Hh & He) & Hb & Hl) (Hv & (Hx' & Hh' & He') & Hb' & Hl'). split; [done|].
  split; [unfold same_config; by rewrite Hx', Hh', He'|]. split; [by rewrite Hb'|].
  intros j now k. simpl in *. by rewrite Hl', Hl.
Qed.

Lemma thumbnailer_stats_ok t : caches_valid t ->
  exists t' f th x, thumbnailer_stats getters t = (t', Ok (mkAllStats (getters f) (getters th) (getters x))) /\
    after_visit t t'.
Proof.
  intros Hv. destruct (read_stats_ok full_size t Hv) as (t1 & f & H1 & A1).
  destruct (read_stats_ok thumbnails t1) as (t2 & th & H2 & A2); [apply A1|].
  destruct (read_stats_ok failures t2) as (t3 & x & H3 & A3); [apply A2|].
  exists t3, f, th, x. unfold thumbnailer_stats, mbind, M_bind. rewrite H1, H2, H3. split; [done|].
  eapply after_visit_trans; [eapply after_visit_trans; eassumption|eassumption].
Qed.

Lemma to_cache_stats_times st : times_ok st -> times_ok (to_cache_stats (F:=F) st).
Proof. done. Qed.

(** Statistics reach the client: with valid caches [Stats] succeeds, changes
    no cache entry and balances the idle handler; and what the client decodes
    from the encoded reply is, for each cache, what the library's getters
    reported, with the times truncated to milliseconds - also times before
    1970, which cross the bus as huge unsigned numbers. *)
Theorem stats_delivered s :
  Inactivity.wf (inactivity_handler_ s) -> caches_valid (thumbnailer_ s) ->
  (forall st, times_ok (getters st)) ->
  exists h' t' all f th x, balanced (inactivity_handler_ s) h' /\
    Stats getters s = (with_handler h' (with_thumbnailer t' s), Ok all) /\
    after_visit (thumbnailer_ s) t' /\
    decode_all_stats (encode_all_stats all) =
      Some (Ok (mkAllStats (truncate_times (to_cache_stats (getters f))) (truncate_times (to_cache_stats (getters th)))
                  (truncate_times (to_cache_stats (getters x))))).
Proof.
  intros Hw Hv Ht. destruct (thumbnailer_stats_ok _ Hv) as (t' & f & th & x & Hs & Ha).
  unfold Stats. match goal with |- context [ActivityNotifier ?b] => set (body := b) end.
  destruct (notifier_run body s Hw) as (h1 & h2 & Hb & Hr);
    [apply bind_untouched; [apply on_thumbnailer_untouched|done]|].
  eexists h2, t', _, f, th, x. split; [done|]. split.
  { erewrite Hr; [|unfold body, mbind, M_bind, on_thumbnailer; simpl; rewrite Hs; reflexivity]. done. }
  split; [done|]. apply stats_roundtrip; apply to_cache_stats_times, Ht.
Qed.

End Interface.

(** ** Witnesses *)

Section Witness.
Import ThumbnailerInstance CacheHelper.

Definition idle : AdminInterface (C := cache) := mkAdmin fresh (Inactivity.mkInactivity 0 false 30000) false.

Lemma idle_valid : caches_valid (thumbnailer_ idle).
Proof. intros []; exists tt; simpl; eauto. Qed.

(** [Clear] of an idle service with the selectors 2 and 4. *)
Lemma admin_contract_witness :
  (exists h' t', balanced (inactivity_handler_ idle) h' /\
     invoke m_Clear 2 idle = (with_handler h' (with_thumbnailer t' idle), Ok (Reply tt)) /\
     maintained m_Clear [thumbnails] (thumbnailer_ idle) t') /\
  exists h', balanced (inactivity_handler_ idle) h' /\
    invoke m_Clear 4 idle = (with_handler h' idle, Ok (ErrorReply ADMIN_ERROR "Clear(): invalid cache selector: 4")).
Proof.
  split; [|by apply (admin_contract m_Clear 4 idle)].
  destruct (admin_contract m_Clear 2 idle) as (h' & Hb & t' & r & _ & _ & Hi & _ & Hm); [done|].
  destruct Hm as [-> Hm]; [apply idle_valid|vm_compute; discriminate|]. exists h', t'. split; [done|]. split; [by apply Hi|done].
Defined.

(** A cache of 5 entries, last hit on 1 January 1970 and last missed the second before. *)
Definition some_stats (_ : string) : CacheStats Z :=
  mkStats "/c" 1 5 100 1000 1 2 0 1 1 1 1 2 0 0 1234567 (-1000000000) 0 0 [1; 0; 4].

Lemma stats_delivered_witness : exists h' t' all f th x, balanced (inactivity_handler_ idle) h' /\
  Stats some_stats idle = (with_handler h' (with_thumbnailer t' idle), Ok all) /\
  after_visit (thumbnailer_ idle) t' /\
  decode_all_stats (encode_all_stats all) =
    Some (Ok (mkAllStats (truncate_times (to_cache_stats (some_stats f))) (truncate_times (to_cache_stats (some_stats th)))
                (truncate_times (to_cache_stats (some_stats x))))).
Proof.
  apply (stats_delivered some_stats idle); [done|apply idle_valid|].
  intros st. unfold times_ok, LLONG_MIN, LLONG_MAX, some_stats; simpl. repeat constructor; lia.
Defined.

Example truncated : most_recent_hit_time (truncate_times (some_stats "")) = 1000000 /\
  encode_time (F := Z) (-1000000000) = DUInt64 18446744073709550616.
Proof. by vm_compute. Qed.
End Witness.
End Admin.
