(* ===== verification/AdminTool.v ===== *)
(** * The administration tool (src/thumbnailer-admin/)

    The commands of thumbnailer-admin: how [thumbnailer-admin.cpp] chooses and
    runs an action, the arguments of each action (clear.cpp, show_stats.cpp,
    shutdown.cpp, get_local_thumbnail.cpp, get_remote_thumbnail.cpp), what they
    ask of the service over the bus, and what they print and write (util.cpp,
    parse_size.cpp).  QCommandLineParser, the path functions of Boost and the
    formatting of doubles and dates are parameters; the bus and the output are
    the class [Session], whose instance [local_session] joins the tool to the
    [AdminInterface] of Admin.v. *)

From S2P Require Import Prelude.
From S2P Require Import CxxLib.
From S2P Require Import QtSize.
From S2P Require Import Image.
From S2P Require Import ImageInstance.
From S2P Require Import CacheInterface.
From S2P Require Import CacheHelper.
From S2P Require Import Backoff.
From S2P Require Import Thumbnailer.
From S2P Require Import ThumbnailerInstance.
From S2P Require Import Inactivity.
From S2P Require Import Files.
From S2P Require Import Admin.
Import Cxx QtSize Image CacheInterface Admin.

Module AdminTool.

Definition blank_line : string := newline +:+ newline.

(** ** [parse_size] *)

(** [QString::split(sep)]: the parts between separators, empty ones included. *)
Fixpoint split (sep : ascii) (s : string) : string * list string :=
  match s with
  | EmptyString => (EmptyString, [])
  | String c s' =>
      let '(part, parts) := split sep s' in
      if Ascii.eqb c sep then (EmptyString, part :: parts) else (String c part, parts)
  end.

(** Every failure of [stoi] is an invalid size. *)
Definition parse_size (s : string) : QSize :=
  let r := match split "x" s with
           | (first, [last]) => width ← stoi first; height ← stoi last; Ok (mkSize width height)
           | (first, _) => size ← stoi first; Ok (mkSize size size)
           end in
  match r with Ok size => size | _ => invalid_size end.

(** ** What a [QCommandLineParser] reports *)

(** After the options of an action have been added and [parse()] was called. *)
Record QCommandLineParser : Type := mkParser {
  parse_ok : bool;
  errorText : string;
  helpText : string;
  positionalArguments : list string;
  help_set : bool;                       (* isSet(help_option_) *)
  verbose_set : bool;                    (* isSet(histogram_option) *)
  size_option : option string            (* value(size_option), if it is set *)
}.

(** The start of every action: errors and the help option. *)
Definition parse_or_help (parser : QCommandLineParser) : outcome unit :=
  if negb (parse_ok parser) then Throw (thrown_string (errorText parser +:+ blank_line +:+ helpText parser))
  else if help_set parser then Throw (thrown_string (helpText parser))
  else Ok tt.

Definition too_many (command_ : string) (parser : QCommandLineParser) : exn :=
  thrown_string ("too many arguments for " +:+ command_ +:+ " command" +:+ errorText parser +:+ blank_line +:+ helpText parser).

Definition invalid_cache_id (arg : string) (parser : QCommandLineParser) : exn :=
  thrown_string ("invalid cache_id: " +:+ arg +:+ newline +:+ helpText parser).

(** ** The actions and their arguments *)

Inductive Action : Type :=
  | ShowStats (show_histogram_ show_image_stats_ show_thumbnail_stats_ show_failure_stats_ : bool)
  | Clear (command_ : string) (cache_id_ : Z)
  | GetLocalThumbnail (input_path_ output_dir_ : string) (size_ : QSize)
  | GetRemoteThumbnail (command_ artist_ album_ output_dir_ : string) (size_ : QSize)
  | Shutdown.

Definition valid_args : list string := [""; "i"; "t"; "f"].

(** The loop of [Clear::Clear]: the index of [arg]. *)
Fixpoint find_arg (i : Z) (arg : string) (l : list string) : option Z :=
  match l with
  | [] => None
  | a :: l => if bool_decide (arg = a) then Some i else find_arg (i + 1) arg l
  end.

Definition make_Clear (command_ : string) (parser : QCommandLineParser) : outcome Action :=
  _ ← assert_ (bool_decide (command_ = "clear") || bool_decide (command_ = "zero-stats") || bool_decide (command_ = "compact")) "Clear";
  _ ← parse_or_help parser;
  match positionalArguments parser with
  | _ :: _ :: _ :: _ => Throw (too_many command_ parser)
  | [_; arg] =>
      match find_arg 0 arg valid_args with
      | Some i => Ok (Clear command_ i)
      | None => Throw (invalid_cache_id arg parser)
      end
  | _ => Ok (Clear command_ 0)
  end.

Definition make_ShowStats (parser : QCommandLineParser) : outcome Action :=
  _ ← parse_or_help parser;
  match positionalArguments parser with
  | [] => Crash (Undefined "args.first()")
  | command :: args =>
      _ ← assert_ (bool_decide (command = "stats")) "ShowStats";
      let histogram := verbose_set parser in
      match args with
      | _ :: _ :: _ => Throw (too_many "stats" parser)
      | [arg] =>
          if bool_decide (arg = "i") then Ok (ShowStats histogram true false false)
          else if bool_decide (arg = "t") then Ok (ShowStats histogram false true false)
          else if bool_decide (arg = "f") then Ok (ShowStats histogram false false true)
          else Throw (invalid_cache_id arg parser)
      | [] => Ok (ShowStats histogram true true true)
      end
  end.

Definition make_Shutdown (command_ : string) (parser : QCommandLineParser) : outcome Action :=
  _ ← assert_ (bool_decide (command_ = "shutdown")) "Shutdown";
  _ ← parse_or_help parser;
  match positionalArguments parser with
  | _ :: _ :: _ => Throw (too_many command_ parser)
  | _ => Ok Shutdown
  end.

(** The size option of the two actions that get a thumbnail. *)
Definition requested_size (where_ : string) (parser : QCommandLineParser) : outcome QSize :=
  match size_option parser with
  | None => Ok (mkSize 0 0)
  | Some v =>
      let size := parse_size v in
      if isValid size then Ok size else Throw (thrown_string (where_ +:+ ": invalid size: " +:+ v))
  end.

Section Constructors.
(** [path::is_absolute], [boost::filesystem::canonical] and [getcwd]; the errno
    and its text when that fails. *)
Context (is_absolute : string -> bool) (canonical : string -> outcome string) (getcwd : string + string).

Definition current_directory : outcome string :=
  match getcwd with
  | inl errno_text => Throw (runtime_error ("getcwd(): " +:+ errno_text))
  | inr path => Ok path
  end.

Definition make_GetLocalThumbnail (parser : QCommandLineParser) : outcome Action :=
  _ ← parse_or_help parser;
  match positionalArguments parser with
  | [] => Crash (Undefined "args.first()")
  | command :: args =>
      _ ← assert_ (bool_decide (command = "get")) "GetLocalThumbnail";
      match args with
      | input_path :: ([] | [_]) as args =>
          if bool_decide (input_path = "") then Throw (thrown_string "GetLocalThumbnail(): invalid empty input path")
          else
            input_path_ ← (if negb (is_absolute input_path)
                           then try_catch (canonical input_path) (fun e => if is_std e then Ok input_path else Throw e)
                           else Ok input_path);
            output_dir_ ← match args with [_; dir] => Ok dir | _ => current_directory end;
            if bool_decide (output_dir_ = "") then Throw (thrown_string "GetLocalThumbnail(): invalid empty output directory")
            else size_ ← requested_size "GetLocalThumbnail()" parser; Ok (GetLocalThumbnail input_path_ output_dir_ size_)
      | _ => Throw (thrown_string (helpText parser))
      end
  end.

Definition make_GetRemoteThumbnail (command_ : string) (parser : QCommandLineParser) : outcome Action :=
  _ ← assert_ (bool_decide (command_ = "get-artist") || bool_decide (command_ = "get-album")) "GetRemoteThumbnail";
  _ ← parse_or_help parser;
  match positionalArguments parser with
  | _ :: artist_ :: album_ :: ([] | [_]) as args =>
      output_dir_ ← match args with [_; _; _; dir] => Ok dir | _ => current_directory end;
      size_ ← requested_size "GetRemoteThumbnail()" parser;
      Ok (GetRemoteThumbnail command_ artist_ album_ output_dir_ size_)
  | _ => Throw (thrown_string (helpText parser))
  end.

(** ** The table of commands *)

Inductive action_class : Type := cls_ShowStats | cls_Clear | cls_GetLocalThumbnail | cls_GetRemoteThumbnail | cls_Shutdown.

(** [create_action<A>]; [command_] is the first argument the parser knew when
    the constructor of [Action] ran. *)
Definition create_action (cls : action_class) (command_ : string) (parser : QCommandLineParser) : outcome Action :=
  match cls with
  | cls_ShowStats => make_ShowStats parser
  | cls_Clear => make_Clear command_ parser
  | cls_GetLocalThumbnail => make_GetLocalThumbnail parser
  | cls_GetRemoteThumbnail => make_GetRemoteThumbnail command_ parser
  | cls_Shutdown => make_Shutdown command_ parser
  end.

Definition valid_actions : list (string * (action_class * string)) :=
  [ ("stats",      (cls_ShowStats,          "Show statistics"));
    ("zero-stats", (cls_Clear,              "Zero statistics counters"));
    ("get",        (cls_GetLocalThumbnail,  "Get thumbnail from local file"));
    ("get-artist", (cls_GetRemoteThumbnail, "Get artist thumbnail"));
    ("get-album",  (cls_GetRemoteThumbnail, "Get album thumbnail"));
    ("clear",      (cls_Clear,              "Clear caches"));
    ("compact",    (cls_Clear,              "Compact caches"));
    ("shutdown",   (cls_Shutdown,           "Shut down thumbnailer service")) ].

(** [std::left << std::setw(n)]. *)
Definition pad_right (n : nat) (s : string) : string :=
  s +:+ Nat.iter (n - String.length s) (String " ") EmptyString.

Definition command_summary (actions : list (string * (action_class * string))) : string :=
  "Commands:" +:+ newline +:+
  foldr (fun a rest => "  " +:+ pad_right 11 a.1 +:+ " " +:+ a.2.2 +:+ newline +:+ rest) "" actions.

(** The first entry with this name, in the order of the map - which is that of
    the addresses of the literals. *)
Fixpoint find_action (cmd : string) (actions : list (string * (action_class * string))) : option action_class :=
  match actions with
  | [] => None
  | (name, (cls, _)) :: actions => if bool_decide (name = cmd) then Some cls else find_action cmd actions
  end.
End Constructors.

(** ** What an action needs of the world *)

(** The proxies of [DBusConnection] - a reply that is not valid is an
    [ErrorReply] -, files and the standard output. *)
Class Session (F W : Type) : Type := {
  call_admin : selector_method -> Z -> M W (reply unit);
  call_stats : M W (reply (AllStats F));
  call_shutdown : M W (reply unit);
  call_get_thumbnail : string -> QSize -> M W (reply string);
  call_get_artist_art : string -> string -> QSize -> M W (reply string);
  call_get_album_art : string -> string -> QSize -> M W (reply string);
  write_file : string -> string -> M W unit;
  print : string -> M W unit
}.

(** [reply.waitForFinished()] and the test of [reply.isValid()]. *)
Definition value_of {W A} (call : M W (reply A)) : M W A :=
  r ← call;
  match r with
  | Reply a => mret a
  | ErrorReply _ msg => throw (thrown_string msg)
  end.

(** [std::right << std::setw(n)]. *)
Definition pad_left (n : nat) (s : string) : string :=
  Nat.iter (n - String.length s) (String " ") s.

Section Run.
Context {F W : Type} {session : Session F W}.
Context {P L I E D : Type} {libs : ImageLibs P L I E D} {qs : QSizeScale}.
(** [printf("%.02f")], [asctime(localtime(&t))], [PersistentCacheStats::histogram_bounds()],
    [path(p).filename().stem()], [strerror], and the number of [CacheDiscardPolicy::lru_ttl]. *)
Context (lru_ttl : Z) (two_digits : F -> string) (asctime : Z -> string) (histogram_bounds : list (Z * Z)).
Context (filename_stem : string -> string) (strerror : Z -> string).

(** ** Statistics *)

Definition NS_PER_SEC : Z := 1000000000.

Definition to_time_string (tp : Z) : string :=
  if tp =? 0 then "never" +:+ newline else asctime (Z.quot tp NS_PER_SEC).

(** [log10(val) + 1] as an [int]: the number of decimal digits; [log10(0)] is
    minus infinity, which no [int] holds. *)
Definition display_width (val : Z) : outcome nat :=
  if val =? 0 then Crash (Undefined "display_width") else Ok (String.length (to_string val)).

Definition print_entry (label_width : nat) (bounds : Z * Z) (value_width : nat) (value : Z) : string :=
  let labels := to_string bounds.1 +:+ "-" +:+ to_string bounds.2 in
  "        " +:+ pad_left (label_width * 2 + 1) labels +:+ ": " +:+ pad_left value_width (to_string value) +:+ newline.

(** The first loop of [show_histogram]: [first_slot], [last_slot], [max_count]. *)
Fixpoint scan_histogram (i : Z) (h : list Z) (acc : Z * Z * Z) : Z * Z * Z :=
  match h with
  | [] => acc
  | c :: h =>
      let '(first_slot, last_slot, max_count) := acc in
      scan_histogram (i + 1) h
        (if negb (c =? 0) then (if first_slot =? -1 then i else first_slot, i, Z.max max_count c) else acc)
  end.

(** [v[i]]; no element is there out of range. *)
Definition at_index {A} (site : string) (l : list A) (i : Z) : outcome A :=
  match (if i <? 0 then None else l !! Z.to_nat i) with
  | Some a => Ok a
  | None => Crash (Undefined site)
  end.

(** The second loop, [n] slots from [i]. *)
Fixpoint print_slots (n : nat) (i : Z) (h : list Z) (label_width value_width : nat) : M W unit :=
  match n with
  | O => mret tt
  | S n =>
      label ← lift (at_index "labels[i]" histogram_bounds i);
      value ← lift (at_index "h[i]" h i);
      _ ← print (print_entry label_width label value_width value);
      print_slots n (i + 1) h label_width value_width
  end.

Definition show_histogram (h : list Z) : M W unit :=
  let '(first_slot, last_slot, max_count) := scan_histogram 0 h (-1, -1, 0) in
  _ ← print "    Histogram:";
  if first_slot =? -1 then print ("             empty" +:+ newline)
  else
    _ ← print newline;
    label ← lift (at_index "labels[last_slot]" histogram_bounds last_slot);
    label_width ← lift (display_width label.1);
    value_width ← lift (display_width max_count);
    print_slots (Z.to_nat (last_slot - first_slot + 1)) first_slot h label_width value_width.

Definition stats_lines (st : CacheStats F) : list string :=
  let line name value := name +:+ value +:+ newline in
  let number name value := line name (to_string value) in
  [ line "    Path:                  " (cache_path st);
    line "    Policy:                " (if policy st =? lru_ttl then "lru_ttl" else "lru_only");
    number "    Size:                  " (size st);
    number "    Size in bytes:         " (size_in_bytes st);
    number "    Max size in bytes:     " (max_size_in_bytes st);
    number "    Hits:                  " (hits st);
    number "    Misses:                " (misses st);
    number "    Hits since last miss:  " (hits_since_last_miss st);
    number "    Misses_since_last_hit: " (misses_since_last_hit st);
    number "    Longest hit run:       " (longest_hit_run st);
    number "    Longest miss run:      " (longest_miss_run st);
    line "    Avg hit run length:    " (two_digits (avg_hit_run_length st));
    line "    Avg miss run length:   " (two_digits (avg_miss_run_length st));
    number "    TTL evictions:         " (ttl_evictions st);
    number "    LRU evictions:         " (lru_evictions st);
    "    Most-recent hit time:  " +:+ to_time_string (most_recent_hit_time st);
    "    Most-recent miss time: " +:+ to_time_string (most_recent_miss_time st);
    "    Longest hit-run time:  " +:+ to_time_string (longest_hit_run_time st);
    "    Longest miss-run time: " +:+ to_time_string (longest_miss_run_time st) ].

Fixpoint print_all (l : list string) : M W unit :=
  match l with [] => mret tt | s :: l => _ ← print s; print_all l end.

Definition show_stats (show_histogram_ : bool) (st : CacheStats F) : M W unit :=
  _ ← print_all (stats_lines st);
  if show_histogram_ then show_histogram (histogram st) else mret tt.

Definition run_ShowStats (histogram_ image thumbnail failure : bool) : M W unit :=
  st ← value_of call_stats;
  _ ← (if image then _ ← print ("Image cache:" +:+ newline); show_stats histogram_ (full_size_stats st) else mret tt);
  _ ← (if thumbnail then _ ← print ("Thumbnail cache:" +:+ newline); show_stats histogram_ (thumbnail_stats st) else mret tt);
  (if failure then _ ← print ("Failure cache:" +:+ newline); show_stats histogram_ (failure_stats st) else mret tt).

(** ** Thumbnails *)

Definition make_output_path (inpath : string) (size : QSize) (dir : string) : string :=
  let out_path := if bool_decide (dir = "") then dir else dir +:+ "/" in
  out_path +:+ filename_stem inpath +:+ ("_" +:+ to_string (width size) +:+ "x" +:+ to_string (height size)) +:+ ".png".

(** The bytes 137, 80, 78, 71, 13, 10, 26, 10. *)
Definition png_magic : string :=
  String "137" (String "P" (String "N" (String "G" (String "013" (String "010" (String "026" (String "010" EmptyString))))))).

Definition to_png (ba : string) : outcome string :=
  _ ← assert_ (8 <=? Z.of_nat (String.length ba)) "to_png";
  if starts_with png_magic ba then Ok ba
  else img ← Image.image_of_string strerror ba invalid_size; Image.png_data img.

(** [catch (std::exception const& e) { throw string(...) + e.what(); }]. *)
Definition rethrow_as_string {A} (where_ : string) (m : M W A) : M W A :=
  catchM m (fun e => throw (if is_std e then thrown_string (where_ +:+ exn_what e) else e)).

Definition run_GetLocalThumbnail (input_path_ output_dir_ : string) (size_ : QSize) : M W unit :=
  rethrow_as_string "GetLocalThumbnail::run(): "
    (thumbnail ← value_of (call_get_thumbnail input_path_ size_);
     thumbnail ← lift (to_png thumbnail);
     write_file (make_output_path input_path_ size_ output_dir_) thumbnail).

(** [std::replace(begin, end, '/', '-')]. *)
Fixpoint replace_slashes (s : string) : string :=
  match s with
  | EmptyString => EmptyString
  | String c s => String (if Ascii.eqb c "/" then "-" else c) (replace_slashes s)
  end.

(** The path the output name of remote art is made from. *)
Definition remote_inpath (command_ artist_ album_ : string) : string :=
  let suffix := if bool_decide (command_ = "get-artist") then "artist" else "album" in
  replace_slashes ((artist_ +:+ "_" +:+ album_) +:+ "_" +:+ suffix).

Definition run_GetRemoteThumbnail (command_ artist_ album_ output_dir_ : string) (size_ : QSize) : M W unit :=
  rethrow_as_string "GetRemoteThumbnail::run(): "
    (thumbnail ← value_of (if bool_decide (command_ = "get-artist") then call_get_artist_art artist_ album_ size_
                           else call_get_album_art artist_ album_ size_);
     thumbnail ← lift (to_png thumbnail);
     write_file (make_output_path (remote_inpath command_ artist_ album_) size_ output_dir_) thumbnail).

(** ** Running *)

Definition run_Clear (command_ : string) (cache_id_ : Z) : M W unit :=
  let method := if bool_decide (command_ = "clear") then m_Clear
                else if bool_decide (command_ = "zero-stats") then m_ClearStats
                else m_Compact in
  value_of (call_admin method cache_id_).

Definition run (action : Action) : M W unit :=
  match action with
  | ShowStats histogram image thumbnail failure => run_ShowStats histogram image thumbnail failure
  | Clear command_ cache_id_ => run_Clear command_ cache_id_
  | GetLocalThumbnail input_path_ output_dir_ size_ => run_GetLocalThumbnail input_path_ output_dir_ size_
  | GetRemoteThumbnail command_ artist_ album_ output_dir_ size_ => run_GetRemoteThumbnail command_ artist_ album_ output_dir_ size_
  | Shutdown => value_of call_shutdown
  end.

(** [args]: what the first parse finds; [parser cls] what the parse in the
    constructor of an action of this class finds; [summary_help] the help text. *)
Definition parse_and_execute (is_absolute : string -> bool) (canonical : string -> outcome string) (getcwd : string + string)
    (actions : list (string * (action_class * string))) (args : list string) (summary_help : string)
    (parser : action_class -> QCommandLineParser) : M W unit :=
  match args with
  | [] => throw (thrown_string (summary_help +:+ newline +:+ command_summary actions))
  | cmd :: _ =>
      match find_action cmd actions with
      | Some cls => action ← lift (create_action is_absolute canonical getcwd cls cmd (parser cls)); run action
      | None => throw (thrown_string (summary_help +:+ newline +:+ command_summary actions))
      end
  end.

(** [main]: the exit status; an exception of another type ends the program. *)
Definition EXIT_FAILURE : Z := 1.
Definition EXIT_SUCCESS : Z := 0.

Definition main (m : M W unit) : M W Z := fun w =>
  match m w with
  | (w', Ok _) => (w', Ok EXIT_SUCCESS)
  | (w', Throw unknown_exception) => (w', Crash (Aborted "std::terminate"))
  | (w', Throw _) => (w', Ok EXIT_FAILURE)
  | (w', Crash c) => (w', Crash c)
  end.
End Run.

(** ** A session with the modelled service *)

Section LocalSession.
Context {F C : Type} {cacheC : Cache C} (getters : string -> CacheStats F).
(** What [GetThumbnail], [GetArtistArt] and [GetAlbumArt] answer; the text of
    the error for a service that went away. *)
Context (thumbnails : string -> QSize -> reply string) (artist_art album_art : string -> string -> QSize -> reply string).
Context (no_reply : string).
(** The system calls of [write_file]. *)
Context (strerror : Z -> string) (parent_path : string -> string) (mkstemp : string -> Z + string).
Context (written : nat -> Z + nat) (renamed : option Z).

Record World : Type := mkWorld { service : AdminInterface (C := C); files : gmap string string; out : list string }.

(** An exception that leaves a slot of the service ends it, and the client
    waits in vain. *)
Definition over_bus {A} (m : M (AdminInterface (C := C)) (reply A)) : M World (reply A) := fun w =>
  let '(s, r) := m (service w) in
  (mkWorld s (files w) (out w),
   Ok (match r with Ok a => a | _ => ErrorReply "org.freedesktop.DBus.Error.NoReply" no_reply end)).

#[export] Instance local_session : Session F World := {
  call_admin m cache_id := over_bus (invoke m cache_id);
  call_stats := over_bus (st ← Stats getters; mret (Reply st));
  call_shutdown := over_bus (_ ← Admin.Shutdown; mret (Reply tt));
  call_get_thumbnail path size := mret (thumbnails path size);
  call_get_artist_art artist album size := mret (artist_art artist album size);
  call_get_album_art artist album size := mret (album_art artist album size);
  write_file path contents := fun w =>
    let dir := parent_path path in
    let '(fs, r) := Files.write_file strerror (mkstemp dir) written renamed dir path contents (files w) in
    (mkWorld (service w) fs (out w), r);
  print s := modify (fun w => mkWorld (service w) (files w) (out w ++ [s]))
}.
End LocalSession.

(** ** Lemmas *)

(** No sign and no digit is another character. *)
Definition number_char (c : ascii) : bool :=
  Ascii.eqb c "-" || bool_decide (is_Some (digit_val c)).

Lemma uint_chars c d : number_char c = false -> mem_char c (DecimalString.NilEmpty.string_of_uint d) = false.
Proof.
  unfold number_char. intros [_ Hc]%orb_false_iff. apply bool_decide_eq_false in Hc.
  induction d; cbn; try done; match goal with |- context [Ascii.eqb ?x ?y] =>
    let E := fresh in destruct (Ascii.eqb_spec x y) as [E|E]; [exfalso; apply Hc; rewrite E; vm_compute; eauto|done] end.
Qed.

Lemma number_chars c z : number_char c = false -> mem_char c (to_string z) = false.
Proof.
  intros Hc. pose proof Hc as [Hm _]%orb_false_iff. pose proof (uint_chars c (Decimal.D0 Decimal.Nil) Hc) as H0.
  unfold to_string, DecimalString.NilZero.string_of_int, DecimalString.NilZero.string_of_uint.
  destruct (Z.to_int z) as [d|d]; [|cbn; rewrite Hm]; destruct d; try done; by apply uint_chars.
Qed.

Lemma split_none sep a : mem_char sep a = false -> split sep a = (a, []).
Proof.
  induction a as [|c a IH]; [done|]. cbn. rewrite Ascii.eqb_sym. destruct (Ascii.eqb c sep); [done|].
  intros H. by rewrite IH.
Qed.

Lemma split_first sep a b :
  mem_char sep a = false -> split sep (a +:+ String sep b) = (a, (split sep b).1 :: (split sep b).2).
Proof.
  induction a as [|c a IH]; cbn.
  - intros _. rewrite Ascii.eqb_refl. by destruct (split sep b).
  - rewrite Ascii.eqb_sym. destruct (Ascii.eqb c sep); [done|]. intros H. by rewrite IH.
Qed.

(** The table is searched by distinct names, so that its order does not matter. *)
Lemma find_action_some cmd actions cls :
  find_action cmd actions = Some cls -> exists text, (cmd, (cls, text)) ∈ actions.
Proof.
  induction actions as [|[name [c text]] actions IH]; simpl; [done|].
  case_bool_decide as Hn; [intros [= ->]; subst; exists text; set_solver|].
  intros (t & Ht)%IH. exists t. set_solver.
Qed.

Lemma find_action_in cmd actions cls text :
  NoDup actions.*1 -> (cmd, (cls, text)) ∈ actions -> find_action cmd actions = Some cls.
Proof.
  induction actions as [|[name [c t]] actions IH]; simpl; [set_solver|].
  intros [Hn Hd]%NoDup_cons [[= -> -> ->]|Hin]%elem_of_cons; [by rewrite bool_decide_true|].
  rewrite bool_decide_false; [by apply IH|]. intros ->. apply Hn. apply list_elem_of_fmap. by exists (cmd, (cls, text)).
Qed.

Lemma find_action_order cmd actions : actions ≡ₚ valid_actions -> find_action cmd actions = find_action cmd valid_actions.
Proof.
  intros Hp. assert (Hv : NoDup (fmap (M := list) fst valid_actions)) by (by apply (bool_decide_eq_true_1 _); vm_compute).
  assert (Ha : NoDup actions.*1) by by rewrite Hp.
  destruct (find_action cmd valid_actions) as [cls|] eqn:E.
  - apply find_action_some in E as [text Hin]. rewrite <- Hp in Hin. by eapply find_action_in.
  - destruct (find_action cmd actions) as [cls|] eqn:E'; [|done].
    apply find_action_some in E' as [text Hin]. rewrite Hp in Hin. by rewrite (find_action_in cmd valid_actions cls text) in E.
Qed.

(** ** Properties *)

(** Sizes read back: what is printed as WIDTHxHEIGHT, or as one number for
    a square, parses to that size, whatever the numbers; and a text in which the
    part before the first separator holds no number is an invalid size. *)
Theorem parse_size_prints w h :
  int_ok w = true -> int_ok h = true ->
  parse_size (to_string w +:+ "x" +:+ to_string h) = mkSize w h /\
  parse_size (to_string w) = mkSize w w /\
  forall s, scan_int (split "x" s).1 = None -> isValid (parse_size s) = false.
Proof.
  intros Hw Hh. assert (Hx : forall z, mem_char "x" (to_string z) = false) by (intros z; by apply number_chars).
  unfold parse_size. split_and!.
  - change ("x" +:+ to_string h) with (String "x" (to_string h)). rewrite split_first by done. rewrite split_none by done. simpl.
    by rewrite !stoi_to_string.
  - rewrite split_none by done. by rewrite stoi_to_string.
  - intros s Hs. destruct (split "x" s) as [first parts]. simpl in Hs.
    assert (Hf : stoi first = Throw (invalid_argument "stoi")) by (unfold stoi; by rewrite Hs).
    destruct parts as [|? []]; by rewrite Hf.
Qed.

Section Properties.
Context {F C : Type} {cacheC : Cache C} {claws : CacheLaws C} {getters : string -> CacheStats F}.
Context {P L I E D : Type} {libs : ImageLibs P L I E D} {qs : QSizeScale}.
Context {thumbnails : string -> QSize -> reply string} {artist_art album_art : string -> string -> QSize -> reply string}.
Context {no_reply : string} {strerror : Z -> string} {parent_path : string -> string} {mkstemp : string -> Z + string}.
Context {written : nat -> Z + nat} {renamed : option Z}.
Context (lru_ttl : Z) (two_digits : F -> string) (asctime : Z -> string) (histogram_bounds : list (Z * Z)).
Context (filename_stem : string -> string).
Context (is_absolute : string -> bool) (canonical : string -> outcome string) (getcwd : string + string).
Notation World := (World (C := C)).
#[local] Instance the_session : Session F World :=
  local_session getters thumbnails artist_art album_art no_reply strerror parent_path mkstemp written renamed.
Implicit Types w : World.

Definition tool actions args help parser : M World Z :=
  main (parse_and_execute lru_ttl two_digits asctime histogram_bounds filename_stem strerror
          is_absolute canonical getcwd actions args help parser).

Definition command_word (m : selector_method) : string :=
  match m with m_Clear => "clear" | m_ClearStats => "zero-stats" | m_Compact => "compact" end.

(** The caches a command line selects. *)
Definition selected (rest : list string) : option Thumbnailer.CacheSelector :=
  match rest with
  | [] | [""] => Some Thumbnailer.sel_all
  | ["i"] => Some Thumbnailer.sel_full_size_cache
  | ["t"] => Some Thumbnailer.sel_thumbnail_cache
  | ["f"] => Some Thumbnailer.sel_failure_cache
  | _ => None
  end.

Lemma find_arg_selected arg :
  match find_arg 0 arg valid_args with
  | Some i => invalid_selector i = false /\ selected [arg] = Some (to_selector i)
  | None => selected [arg] = None
  end.
Proof.
  unfold valid_args. simpl. repeat case_bool_decide; subst; try done.
  destruct arg as [|c [|c' arg]]; [done| |by destruct c as [[] [] [] [] [] [] [] []]].
  destruct c as [[] [] [] [] [] [] [] []]; done.
Qed.

Lemma command_found m actions :
  actions ≡ₚ valid_actions -> find_action (command_word m) actions = Some cls_Clear.
Proof. intros Hp. rewrite find_action_order by done. by destruct m. Qed.

Lemma make_Clear_selected m parser rest :
  parse_ok parser = true -> help_set parser = false -> positionalArguments parser = command_word m :: rest ->
  match selected rest with
  | Some sel => exists id, make_Clear (command_word m) parser = Ok (Clear (command_word m) id) /\
                  invalid_selector id = false /\ to_selector id = sel
  | None => exists msg, make_Clear (command_word m) parser = Throw (thrown_string msg)
  end.
Proof.
  intros Hok Hhelp Hargs. unfold make_Clear, parse_or_help. rewrite Hok, Hhelp, Hargs.
  replace (assert_ _ _) with (Ok ()) by (by destruct m). cbn [mbind outcome_bind].
  destruct rest as [|arg [|a2 rest]]; [by exists 0| |].
  - pose proof (find_arg_selected arg) as H. destruct (find_arg 0 arg valid_args) as [i|].
    + destruct H as [Hi ->]. by exists i.
    + rewrite H. by eexists.
  - destruct (selected (arg :: a2 :: rest)) as [sel|] eqn:Es; [|by eexists]. exfalso. revert Es. simpl.
    destruct arg as [|[[] [] [] [] [] [] [] []] [|]]; done.
Qed.

(** [Clear::run] calls the method of its command. *)
Lemma run_Clear_method m id : run_Clear (session := the_session) (command_word m) id = value_of (call_admin m id).
Proof. by destruct m. Qed.

(** C27. The tool, from the command line to the caches: "clear", "zero-stats" and
    "compact", in whatever order the table of commands is searched, exit with 0,
    and each cache that the argument names - all of them without one - is then
    exactly what the library's [invalidate], [clear_stats] or [compact] leaves
    of it, every other cache exactly what it was; the configuration is kept, no
    entry is lost but by "clear", which also ends the backoff when it clears the
    failures, and the idle handler is balanced.  Any other argument, or too
    many, ends the tool with status 1 before the service is asked. *)
Theorem tool_maintains_selected m actions args rest help parser w :
  actions ≡ₚ valid_actions ->
  Inactivity.wf (inactivity_handler_ (service w)) -> caches_valid (thumbnailer_ (service w)) ->
  0 <= Backoff.max_backoff_ (Thumbnailer.backoff_ (thumbnailer_ (service w))) ->
  parse_ok (parser cls_Clear) = true -> help_set (parser cls_Clear) = false ->
  positionalArguments (parser cls_Clear) = command_word m :: rest ->
  match selected rest with
  | Some sel => exists h' t',
      tool actions (command_word m :: args) help parser w =
        (mkWorld (with_handler h' (with_thumbnailer t' (service w))) (files w) (out w), Ok EXIT_SUCCESS) /\
      maintained m (Thumbnailer.select_caches sel) (thumbnailer_ (service w)) t' /\
      balanced (inactivity_handler_ (service w)) h'
  | None => tool actions (command_word m :: args) help parser w = (w, Ok EXIT_FAILURE)
  end.
Proof.
  intros Hp Hw Hv Hmax Hok Hhelp Hargs. pose proof (make_Clear_selected m _ rest Hok Hhelp Hargs) as Hmake.
  unfold tool, parse_and_execute. rewrite command_found by done. unfold main, mbind, M_bind, lift, create_action.
  destruct (selected rest) as [sel|].
  - destruct Hmake as (id & -> & Hid & <-). unfold run. rewrite run_Clear_method.
    destruct (invoke_valid m id (service w) Hw Hv Hmax Hid) as (h' & t' & Hb & Hi & Hm).
    exists h', t'. unfold value_of, call_admin, the_session, local_session, over_bus, mbind, M_bind. by rewrite Hi.
  - by destruct Hmake as (msg & ->).
Qed.

(** *** The histogram *)

(** [l[i]] counted from 0 in [Z]. *)
Definition nonzero_at (h : list Z) (i : Z) : Prop := 0 <= i /\ exists c, h !! Z.to_nat i = Some c /\ c <> 0.

Lemma nonzero_at_app_l h h' i : nonzero_at h i -> nonzero_at (h ++ h') i.
Proof. intros (Hi & c & Hc & Hn). split; [done|]. exists c. split; [by apply lookup_app_l_Some|done]. Qed.

Lemma nonzero_at_snoc h c i :
  nonzero_at (h ++ [c]) i <-> nonzero_at h i \/ (i = Z.of_nat (length h) /\ c <> 0).
Proof.
  split.
  - intros (Hi & d & Hd & Hn). apply lookup_app_Some in Hd as [Hd|[Hl Hd]]; [left; by repeat esplit|].
    right. apply list_lookup_singleton_Some in Hd as [Hk ->]. split; [lia|done].
  - intros [H|[-> Hn]]; [by apply nonzero_at_app_l|]. split; [lia|]. exists c.
    rewrite Nat2Z.id, lookup_app_r, Nat.sub_diag by lia. done.
Qed.

(** What the scan knows after the slots [h]. *)
Definition scanned (h : list Z) (acc : Z * Z * Z) : Prop :=
  let '(first_slot, last_slot, max_count) := acc in
  if first_slot =? -1 then forall i, ~ nonzero_at h i
  else nonzero_at h first_slot /\ nonzero_at h last_slot /\ 0 < max_count /\
       forall i, nonzero_at h i -> first_slot <= i <= last_slot.

Lemma scan_histogram_spec h : forall seen acc,
  Forall (fun c => 0 <= c) h -> scanned seen acc ->
  scanned (seen ++ h) (scan_histogram (Z.of_nat (length seen)) h acc).
Proof.
  induction h as [|c h IH]; intros seen [[f l] mx] Hall Hs; [by rewrite app_nil_r|].
  apply Forall_cons in Hall as [Hc Hall]. change (c :: h) with ([c] ++ h). rewrite app_assoc.
  cbn [scan_histogram app]. replace (Z.of_nat (length seen) + 1) with (Z.of_nat (length (seen ++ [c])))
    by (rewrite length_app; simpl; lia).
  apply IH; [done|]. unfold scanned in *. destruct (Z.eqb_spec c 0) as [->|Hn]; simpl negb; cbv iota.
  - destruct (f =? -1); [intros i [H|[_ []]]%nonzero_at_snoc; [by apply (Hs i)|done]|].
    destruct Hs as (H1 & H2 & H3 & H4). split_and!; eauto using nonzero_at_app_l.
    intros i [H|[_ []]]%nonzero_at_snoc; [by apply H4|done].
  - assert (Hlast : nonzero_at (seen ++ [c]) (Z.of_nat (length seen))) by (apply nonzero_at_snoc; by right).
    destruct (Z.eqb_spec f (-1)) as [->|Hf].
    + destruct (Z.eqb_spec (Z.of_nat (length seen)) (-1)); [lia|]. split_and!; [done|done|lia|].
      intros i [H|[-> _]]%nonzero_at_snoc; [by destruct (Hs i)|lia].
    + apply Z.eqb_neq in Hf as Hf'. rewrite Hf'. destruct Hs as (H1 & H2 & H3 & H4).
      split_and!; [by apply nonzero_at_app_l|done|lia|].
      intros i [H|[-> _]]%nonzero_at_snoc; [specialize (H4 i H)|specialize (H4 f H1)].
      * destruct H as (Hi & d & Hd & _). apply lookup_lt_Some in Hd. lia.
      * destruct H1 as (Hi & d & Hd & _). apply lookup_lt_Some in Hd. lia.
Qed.

Definition printed (lines : list string) w : World := mkWorld (service w) (files w) (out w ++ lines).

(** The line of slot [i]. *)
Definition slot_line (h : list Z) (label_width value_width : nat) (i : Z) : string :=
  print_entry label_width (default (0, 0) (histogram_bounds !! Z.to_nat i)) value_width (default 0 (h !! Z.to_nat i)).

Lemma at_index_in {A} site (l : list A) i : 0 <= i < Z.of_nat (length l) ->
  exists a, l !! Z.to_nat i = Some a /\ at_index site l i = Ok a.
Proof.
  intros Hi. destruct (lookup_lt_is_Some_2 l (Z.to_nat i)) as [a Ha]; [lia|]. exists a. split; [done|].
  unfold at_index. by rewrite (proj2 (Z.ltb_ge _ _)), Ha by lia.
Qed.

Lemma print_slots_lines h lw vw : (length h <= length histogram_bounds)%nat -> forall n i w,
  0 <= i -> i + Z.of_nat n <= Z.of_nat (length h) ->
  print_slots (session := the_session) histogram_bounds n i h lw vw w =
    (printed (fmap (M := list) (slot_line h lw vw) (seqZ i (Z.of_nat n))) w, Ok tt).
Proof.
  intros Hl. induction n as [|n IH]; intros i w Hi Hn.
  { unfold printed. simpl. rewrite app_nil_r. by destruct w. }
  cbn [print_slots]. unfold mbind at 1, M_bind at 1, lift at 1.
  destruct (at_index_in "labels[i]" histogram_bounds i) as (b & Hb & ->); [lia|].
  unfold mbind at 1, M_bind at 1, lift at 1. destruct (at_index_in "h[i]" h i) as (v & Hv & ->); [lia|].
  rewrite (seqZ_cons i) by lia. replace (Z.pred (Z.of_nat (S n))) with (Z.of_nat n) by lia.
  unfold mbind, M_bind. cbn -[seqZ print_slots]. rewrite IH by lia. unfold printed. cbn -[seqZ].
  rewrite <- app_assoc. unfold slot_line at 2. by rewrite Hb, Hv.
Qed.

(** The histogram of "stats -v" is complete: without a count it says "empty";
    otherwise it prints one line per slot, in order, from the first slot that has
    a count to the last one, each with the bounds and the count of that slot, so
    that no count is left out.  Nothing undefined happens provided the library
    has bounds for all slots and no slot starts at 0. *)
Theorem histogram_complete h w :
  Forall (fun c => 0 <= c) h -> (length h <= length histogram_bounds)%nat ->
  Forall (fun b => 0 < b.1) histogram_bounds ->
  exists lines, show_histogram (session := the_session) histogram_bounds h w =
      (printed ("    Histogram:" :: lines) w, Ok tt) /\
    (((forall i, ~ nonzero_at h i) /\ lines = ["             empty" +:+ newline]) \/
     exists first last lw vw, nonzero_at h first /\ nonzero_at h last /\
       (forall i, nonzero_at h i -> first <= i <= last) /\
       lines = newline :: fmap (M := list) (slot_line h lw vw) (seqZ first (last - first + 1))).
Proof.
  intros Hh Hl Hb. pose proof (scan_histogram_spec h [] (-1, -1, 0) Hh) as Hs.
  unfold show_histogram. change (Z.of_nat (length [])) with 0 in Hs. cbn [app] in Hs.
  destruct (scan_histogram 0 h (-1, -1, 0)) as [[f l] mx].
  assert (Hsc : scanned h (f, l, mx)) by (apply Hs; intros i (_ & c & Hc & _); by rewrite lookup_nil in Hc). clear Hs. unfold scanned in Hsc.
  unfold mbind at 1, M_bind at 1. simpl. destruct (f =? -1).
  { eexists. split; [|left; split; [done|reflexivity]]. unfold modify, printed. simpl. by rewrite <- app_assoc. }
  destruct Hsc as (H1 & H2 & Hmx & H4). pose proof (H4 l H2) as Hfl.
  assert (Hll : 0 <= l < Z.of_nat (length h)).
  { destruct H2 as (Hi & d & Hd & _). apply lookup_lt_Some in Hd. lia. }
  destruct (at_index_in "labels[last_slot]" histogram_bounds l) as (b & Hbl & Hat); [lia|].
  assert (Hb1 : 0 < b.1) by (by apply (Forall_lookup_1 _ _ _ _ Hb Hbl)).
  assert (Hf : 0 <= f) by (by destruct H1).
  unfold mbind, M_bind, lift, display_width. simpl. rewrite Hat.
  rewrite (proj2 (Z.eqb_neq b.1 0)), (proj2 (Z.eqb_neq mx 0)) by lia.
  rewrite print_slots_lines by lia. rewrite Z2Nat.id by lia.
  eexists. split; [|right; eexists f, l, _, _; split_and!; try done; reflexivity].
  unfold printed; simpl. by rewrite <- !app_assoc.
Qed.

(** *** Output files *)

Lemma starts_with_app p s : starts_with p (p +:+ s) = true.
Proof. induction p as [|c p IH]; [by destruct s|]. cbn. unfold starts_with; fold starts_with. by rewrite Ascii.eqb_refl. Qed.

(** "get": the bytes the service sends are written to the output directory
    under the stem of the input with the size, unchanged if they are a PNG and
    converted otherwise, and the tool reports success; an error of the service,
    or an image that cannot be converted, is reported with the place it happened
    and nothing is written. *)
Theorem get_local_effect input dir size w :
  (forall d, exists tmp, mkstemp d = inr tmp /\ files w !! tmp = None) ->
  (forall n, written n = inr n) -> renamed = None ->
  let path := make_output_path filename_stem input size dir in
  match thumbnails input size with
  | ErrorReply _ msg =>
      run_GetLocalThumbnail (session := the_session) filename_stem strerror input dir size w = (w, Throw (thrown_string msg))
  | Reply ba =>
      match to_png strerror ba with
      | Ok png => run_GetLocalThumbnail (session := the_session) filename_stem strerror input dir size w =
                    (mkWorld (service w) (<[path := png]> (files w)) (out w), Ok tt)
      | Throw e => exists e', run_GetLocalThumbnail (session := the_session) filename_stem strerror input dir size w = (w, Throw e') /\
                     (is_std e = true -> e' = thrown_string ("GetLocalThumbnail::run(): " +:+ exn_what e))
      | Crash c => run_GetLocalThumbnail (session := the_session) filename_stem strerror input dir size w = (w, Crash c)
      end
  end.
Proof.
  intros Htmp Hwr Hrn path. unfold run_GetLocalThumbnail, rethrow_as_string, catchM, value_of.
  unfold mbind, M_bind, lift. simpl. destruct (thumbnails input size) as [ba|name msg]; simpl; [|done].
  destruct (to_png strerror ba) as [png|e|c]; simpl; [|eexists; split; [done|by intros ->]|done].
  destruct (Htmp (parent_path path)) as (tmp & Hmk & Hfresh). fold path. unfold Files.write_file.
  rewrite Hmk, Hwr, Hrn, Nat.eqb_refl. simpl. rewrite Files.split_at_all. simpl.
  by rewrite insert_insert_eq, delete_insert_id.
Qed.

Lemma replace_slashes_app a b : replace_slashes (a +:+ b) = replace_slashes a +:+ replace_slashes b.
Proof. induction a as [|c a IH]; [done|]. cbn. by rewrite IH. Qed.

Lemma replace_slashes_none a : mem_char "/" (replace_slashes a) = false.
Proof.
  induction a as [|c a IH]; [done|]. cbn. destruct (Ascii.eqb_spec c "/") as [|Hc]; [by rewrite IH|].
  destruct (Ascii.eqb_spec "/" c); [by subst|done].
Qed.

(** The output name of remote art never leaves the directory: the name it is
    made from has no slash.  But it is cut at its last dot, as if what follows
    were the extension of a file: the titles "a.b" and "a.c" share a file. *)
Lemma remote_names_collide command artist title t1 t2 size dir :
  (forall a b, a <> "" -> b <> "" -> mem_char "/" (a +:+ "." +:+ b) = false -> mem_char "." b = false ->
     filename_stem (a +:+ "." +:+ b) = a) ->
  mem_char "." t1 = false -> mem_char "." t2 = false ->
  make_output_path filename_stem (remote_inpath command artist (title +:+ "." +:+ t1)) size dir =
  make_output_path filename_stem (remote_inpath command artist (title +:+ "." +:+ t2)) size dir.
Proof.
  intros Hstem H1 H2. unfold make_output_path. do 2 f_equal. unfold remote_inpath.
  set (suffix := if bool_decide _ then _ else _).
  assert (Hs : suffix <> "" /\ mem_char "." suffix = false) by (unfold suffix; by case_bool_decide).
  assert (Hcut : forall t, mem_char "." t = false -> filename_stem (replace_slashes ((artist +:+ "_" +:+ title +:+ "." +:+ t) +:+ "_" +:+ suffix)) =
            replace_slashes (artist +:+ "_" +:+ title)); [|by rewrite !Hcut].
  intros t Ht. assert (Heq : (artist +:+ "_" +:+ title +:+ "." +:+ t) +:+ "_" +:+ suffix =
    (artist +:+ "_" +:+ title) +:+ "." +:+ (t +:+ "_" +:+ suffix)) by (by append_norm).
  rewrite Heq. pose proof (replace_slashes_none ((artist +:+ "_" +:+ title) +:+ "." +:+ (t +:+ "_" +:+ suffix))) as Hn.
  rewrite replace_slashes_app in *. change (replace_slashes ("." +:+ ?x)) with ("." +:+ replace_slashes x) in *.
  apply Hstem; [by destruct artist|by destruct t|done|].
  destruct Hs as [_ Hs]. clear -Ht Hs. rewrite !replace_slashes_app, !mem_char_app.
  assert (Hr : forall x, mem_char "." x = false -> mem_char "." (replace_slashes x) = false).
  { induction x as [|c x IH]; [done|]. cbn. destruct (Ascii.eqb_spec "." c); [done|]. intros Hx.
    destruct (Ascii.eqb_spec c "/"); [by apply IH|]. destruct (Ascii.eqb_spec "." c); [done|by apply IH]. }
  by rewrite !Hr.
Qed.

End Properties.

(** ** Witnesses *)

Section Witness.
Import ThumbnailerInstance CacheHelper ImageInstance.

Definition at_rest : World (C := cache) := mkWorld idle ∅ [].
Definition stem (path : string) : string := if bool_decide (path = "/m/cat.png") then "cat" else path.
Definition png_reply : string := png_magic +:+ "rest".

Definition session_at_rest : Session Z (World (C := cache)) :=
  local_session some_stats (fun _ _ => Reply png_reply) (fun _ _ _ => ErrorReply "e" "no") (fun _ _ _ => ErrorReply "e" "no")
    "gone" (fun _ => "errno") (fun _ => "/o") (fun d => inr (d +:+ "/thumbnailer.000000")) inr None.

Lemma parse_size_prints_witness :
  parse_size "240x-1" = mkSize 240 (-1) /\ parse_size "240" = mkSize 240 240 /\
  forall s, scan_int (split "x" s).1 = None -> isValid (parse_size s) = false.
Proof. apply (parse_size_prints 240 (-1)); reflexivity. Defined.

Definition clear_failures : QCommandLineParser := mkParser true "" "help" ["clear"; "f"] false false None.

Lemma tool_maintains_selected_witness : exists h' t',
  tool (getters := some_stats) (thumbnails := fun _ _ => Reply png_reply) (artist_art := fun _ _ _ => ErrorReply "e" "no")
    (album_art := fun _ _ _ => ErrorReply "e" "no") (no_reply := "gone") (strerror := fun _ => "errno")
    (parent_path := fun _ => "/o") (mkstemp := fun d => inr (d +:+ "/thumbnailer.000000")) (written := inr) (renamed := None)
    0 to_string to_string [] stem (fun _ => true) Ok (inr "/o") (reverse valid_actions) ["clear"; "f"] "help" (fun _ => clear_failures) at_rest =
    (mkWorld (with_handler h' (with_thumbnailer t' idle)) (files at_rest) [], Ok EXIT_SUCCESS) /\
  maintained m_Clear [Thumbnailer.failures] (thumbnailer_ idle) t' /\ balanced (inactivity_handler_ idle) h'.
Proof.
  apply (tool_maintains_selected 0 to_string to_string [] stem (fun _ => true) Ok (inr "/o") m_Clear
    (reverse valid_actions) ["f"] ["f"] "help" (fun _ => clear_failures) at_rest);
    [by rewrite reverse_Permutation|done|apply idle_valid|vm_compute; discriminate|reflexivity|reflexivity|reflexivity].
Defined.

Lemma histogram_complete_witness : exists lines,
  show_histogram (session := session_at_rest) [(1, 9); (10, 19); (20, 29); (30, 39)] [0; 7; 0; 12] at_rest =
    (printed ("    Histogram:" :: lines) at_rest, Ok tt) /\
  (((forall i, ~ nonzero_at [0; 7; 0; 12] i) /\ lines = ["             empty" +:+ newline]) \/
   exists first last lw vw, nonzero_at [0; 7; 0; 12] first /\ nonzero_at [0; 7; 0; 12] last /\
     (forall i, nonzero_at [0; 7; 0; 12] i -> first <= i <= last) /\
     lines = newline :: fmap (M := list) (slot_line [(1, 9); (10, 19); (20, 29); (30, 39)] [0; 7; 0; 12] lw vw)
                          (seqZ first (last - first + 1))).
Proof.
  apply (histogram_complete [(1, 9); (10, 19); (20, 29); (30, 39)]); [repeat constructor; lia|simpl; lia|repeat constructor; simpl; lia].
Defined.

Example histogram_lines :
  out (show_histogram (session := session_at_rest) [(1, 9); (10, 19); (20, 29); (30, 39)] [0; 7; 0; 12] at_rest).1 =
  ["    Histogram:"; newline; "        10-19:  7" +:+ newline; "        20-29:  0" +:+ newline; "        30-39: 12" +:+ newline].
Proof. by vm_compute. Qed.

Lemma get_local_effect_witness :
  run_GetLocalThumbnail (session := session_at_rest) stem (fun _ => "errno") "/m/cat.png" "/o" (mkSize 32 48) at_rest =
    (mkWorld idle (<["/o/cat_32x48.png" := png_reply]> (files at_rest)) [], Ok tt).
Proof.
  apply (get_local_effect (getters := some_stats) (thumbnails := fun _ _ => Reply png_reply) stem "/m/cat.png" "/o" (mkSize 32 48) at_rest).
  - intros d. exists (d +:+ "/thumbnailer.000000"). split; [done|].
    apply lookup_empty.
  - done.
  - done.
Defined.
End Witness.
End AdminTool.
