(* ===== verification/VsThumb.v ===== *)
(** * vs-thumb (src/vs-thumb/thumbnailextractor.cpp, thumbnailextractor.h, vs-thumb.cpp)

    The helper process that takes embedded art or a still frame from a media
    file.  GStreamer and GdkPixbuf are the interface [MediaLibs]; what the code
    owns of them is part of the state: the references it holds on samples, and the
    mapping of the buffer a pixbuf made from raw data still reads. *)

From S2P Require Import Prelude.
From S2P Require Import CxxLib.
From S2P Require Import Files.
From S2P Require Import ImageExtractor.
Import Cxx.

Module VsThumb.

(** ** The libraries *)

Inductive GstState : Type := GST_STATE_NULL | GST_STATE_PAUSED.
Inductive GstStateChangeReturn : Type :=
  | GST_STATE_CHANGE_FAILURE | GST_STATE_CHANGE_SUCCESS | GST_STATE_CHANGE_ASYNC | GST_STATE_CHANGE_NO_PREROLL.

(** A message popped off the bus; whether its source is the playbin. *)
Inductive GstMessage : Type :=
  | GST_MESSAGE_ASYNC_DONE (from_element : bool)
  | GST_MESSAGE_ERROR (msg : string).

Inductive GstTagImageType : Type :=
  | GST_TAG_IMAGE_TYPE_UNDEFINED | GST_TAG_IMAGE_TYPE_FRONT_COVER | other_image_type (n : Z).

Inductive rotation : Type := ROTATE_CLOCKWISE | ROTATE_UPSIDEDOWN | ROTATE_COUNTERCLOCKWISE.

(** Samples by address. *)
Notation sample := nat.

(** One image of a tag list, and the "image-type" of its structure if it has a
    structure with that field. *)
Record tag_image : Type := mkTagImage { tag_sample : sample; tag_type : option (option GstTagImageType) }.

(** A tag list: the images under "image" and under "preview-image". *)
Record GstTagList : Type := mkTags { images : list tag_image; preview_images : list tag_image }.

(** What a pixbuf shows: raw RGB bytes with their geometry, or another image. *)
Class MediaLibs (W Img : Type) : Type := {
  (* the answer, and the messages that follow until the bus is flushed *)
  gst_element_set_state : GstState -> W -> W * GstStateChangeReturn * list GstMessage;
  set_uri : string -> W -> W;
  gst_element_query_duration : W -> option Z;
  n_video : W -> Z;
  gst_element_seek_simple : Z -> W -> W;
  convert_sample : W -> W * option sample;
  audio_tags : W -> option GstTagList;
  video_tags : W -> option (option string);     (* its image orientation *)
  sample_caps : sample -> option (Z * Z);       (* width and height; 0 when absent *)
  sample_data : sample -> option string;        (* the buffer, if it can be mapped *)
  pixbuf_from_data : string -> Z -> Z -> Z -> Img;   (* width, height, rowstride *)
  pixbuf_rotate : Img -> rotation -> option Img;
  pixbuf_to_tiff : Img -> list string * option string;  (* chunks, then an error *)
  pixbuf_decode : string -> string + option Img
}.

(** The parts of a [QUrl] the code asks for. *)
Record QUrl : Type := mkUrl {
  url_valid : bool;
  scheme : string;
  path : string;
  path_toInt : option Z;
  toLocalFile : string;
  encoded : string             (* toString(QUrl::FullyEncoded) *)
}.

Definition empty_url : QUrl := mkUrl false "" "" None "" "".

(** ** The extractor *)

Section Extractor.
Context {W Img : Type} {libs : MediaLibs W Img}.

(** A pixbuf: made from the memory of a mapping, whose number it has, or with
    memory of its own. *)
Record pixbuf : Type := mkPixbuf { pix_map : option nat; pix_image : Img }.

Record ThumbnailExtractor : Type := mkExtractor {
  playbin : W;
  duration_ : Z;
  in_url_ : QUrl;
  out_url_ : QUrl;
  sample_ : option sample;
  still_frame_ : option pixbuf;
  buffermap_ : option nat;               (* the mapping in [buffermap_] *)
  next_map : nat;                        (* the number of the next mapping *)
  held : gmap sample nat;                (* references this process owns *)
  written : list (Z * string);           (* what reached each descriptor *)
  closed : list Z
}.
Notation X := ThumbnailExtractor.

Definition with_playbin (p : W) (x : X) : X :=
  mkExtractor p (duration_ x) (in_url_ x) (out_url_ x) (sample_ x) (still_frame_ x) (buffermap_ x) (next_map x) (held x) (written x) (closed x).
Definition with_duration (d : Z) (x : X) : X :=
  mkExtractor (playbin x) d (in_url_ x) (out_url_ x) (sample_ x) (still_frame_ x) (buffermap_ x) (next_map x) (held x) (written x) (closed x).
Definition with_urls (i o : QUrl) (x : X) : X :=
  mkExtractor (playbin x) (duration_ x) i o (sample_ x) (still_frame_ x) (buffermap_ x) (next_map x) (held x) (written x) (closed x).
Definition with_sample (s : option sample) (x : X) : X :=
  mkExtractor (playbin x) (duration_ x) (in_url_ x) (out_url_ x) s (still_frame_ x) (buffermap_ x) (next_map x) (held x) (written x) (closed x).
Definition with_frame (p : option pixbuf) (x : X) : X :=
  mkExtractor (playbin x) (duration_ x) (in_url_ x) (out_url_ x) (sample_ x) p (buffermap_ x) (next_map x) (held x) (written x) (closed x).
Definition with_map (b : option nat) (n : nat) (x : X) : X :=
  mkExtractor (playbin x) (duration_ x) (in_url_ x) (out_url_ x) (sample_ x) (still_frame_ x) b n (held x) (written x) (closed x).
Definition with_held (h : gmap sample nat) (x : X) : X :=
  mkExtractor (playbin x) (duration_ x) (in_url_ x) (out_url_ x) (sample_ x) (still_frame_ x) (buffermap_ x) (next_map x) h (written x) (closed x).
Definition with_output (w : list (Z * string)) (c : list Z) (x : X) : X :=
  mkExtractor (playbin x) (duration_ x) (in_url_ x) (out_url_ x) (sample_ x) (still_frame_ x) (buffermap_ x) (next_map x) (held x) w c.

(** [throw_error]; the message is logged and thrown. *)
Definition throw_error {A} (msg : string) (error : option string) : M X A :=
  x ← getS;
  throw (runtime_error ("ThumbnailExtractor: " +:+ msg +:+ ", url: " +:+ encoded (in_url_ x) +:+
           match error with Some e => ": " +:+ e | None => "" end)).

(** *** References *)

Definition refs (s : sample) (h : gmap sample nat) : nat := default 0%nat (h !! s).

(** A new reference we own; one more on a sample we own one of; one less. *)
Definition own (s : sample) : M X unit := modify (fun x => with_held (<[s := S (refs s (held x))]> (held x)) x).
Definition gst_sample_ref (s : sample) : M X unit :=
  x ← getS;
  if Nat.eqb (refs s (held x)) 0 then crash (Undefined "gst_sample_ref") else own s.
Definition gst_sample_unref (s : sample) : M X unit :=
  x ← getS;
  match refs s (held x) with
  | O => crash (Undefined "gst_sample_unref")
  | S n => modify (with_held (<[s := n]> (held x)))
  end.

(** The destructor of a [SampleUPtr]. *)
Definition release (s : option sample) : M X unit :=
  match s with Some s => gst_sample_unref s | None => mret tt end.

(** [sample_.reset(s)] and the move assignment. *)
Definition reset_sample (s : option sample) : M X unit :=
  x ← getS;
  _ ← modify (with_sample s);
  release (sample_ x).

(** *** [BufferMap] and the pixbuf that reads it *)

Definition unmap : M X unit := modify (fun x => with_map None (next_map x) x).

(** [map()]: the number of the mapping. *)
Definition map_buffer : M X nat :=
  _ ← unmap;
  x ← getS;
  _ ← modify (with_map (Some (next_map x)) (S (next_map x)));
  mret (next_map x).

(** The last reference to a pixbuf goes: one made from mapped memory calls
    [unmap_callback], which unmaps whatever is mapped then. *)
Definition destroy_pixbuf (p : option pixbuf) : M X unit :=
  match p with
  | Some (mkPixbuf (Some _) _) => unmap
  | _ => mret tt
  end.

Definition reset_frame (p : option pixbuf) : M X unit :=
  x ← getS;
  _ ← modify (with_frame p);
  destroy_pixbuf (still_frame_ x).

(** Reading the pixels of a pixbuf: its memory must still be mapped. *)
Definition pixels (p : pixbuf) : M X Img :=
  x ← getS;
  match pix_map p with
  | None => mret (pix_image p)
  | Some n => if bool_decide (buffermap_ x = Some n) then mret (pix_image p)
              else crash (Undefined "pixels of an unmapped buffer")
  end.

(** *** States of the pipeline *)

(** The loop of [change_state] over the messages of the bus. *)
Fixpoint await_messages (messages : list GstMessage) : M X unit :=
  match messages with
  | [] => mret tt
  | GST_MESSAGE_ASYNC_DONE from_element :: messages => if from_element then mret tt else await_messages messages
  | GST_MESSAGE_ERROR msg :: _ => throw_error "change_state(): reading async messages" (Some msg)
  end.

Definition change_state (state : GstState) : M X unit :=
  x ← getS;
  let '(p, ret, messages) := gst_element_set_state state (playbin x) in
  _ ← modify (with_playbin p);
  match ret with
  | GST_STATE_CHANGE_NO_PREROLL | GST_STATE_CHANGE_SUCCESS => mret tt
  | GST_STATE_CHANGE_ASYNC => await_messages messages
  | GST_STATE_CHANGE_FAILURE => throw_error "change_state(): Could not change element state" None
  end.

Definition reset : M X unit :=
  _ ← change_state GST_STATE_NULL;
  _ ← reset_sample None;
  reset_frame None.

Definition set_urls (in_url out_url : QUrl) : M X unit :=
  _ ← reset;
  _ ← modify (with_urls in_url out_url);
  _ ← modify (fun x => with_playbin (set_uri (encoded in_url) (playbin x)) x);
  _ ← change_state GST_STATE_PAUSED;
  modify (fun x => with_duration (default (-1) (gst_element_query_duration (playbin x))) x).

Definition has_video : M X bool := x ← getS; mret (0 <? n_video (playbin x)).

(** *** Cover art *)

Inductive ImageType : Type := cover | other.
Record CoverImage : Type := mkCover { ci_type : ImageType; ci_sample : option sample }.

(** The type read into [int type = GST_TAG_IMAGE_TYPE_UNDEFINED]. *)
Definition image_type (i : tag_image) : GstTagImageType :=
  match tag_type i with Some (Some t) => t | _ => GST_TAG_IMAGE_TYPE_UNDEFINED end.

(** The loop of [find_cover]; [gst_tag_list_get_sample_index] gives us a
    reference of our own. *)
Fixpoint find_cover_loop (l : list tag_image) (ci : CoverImage) : M X CoverImage :=
  match l with
  | [] => mret ci
  | i :: l =>
      let s := tag_sample i in
      _ ← own s;
      match image_type i with
      | GST_TAG_IMAGE_TYPE_FRONT_COVER =>
          _ ← gst_sample_ref s;
          _ ← release (ci_sample ci);
          _ ← gst_sample_unref s;
          mret (mkCover cover (Some s))
      | GST_TAG_IMAGE_TYPE_UNDEFINED =>
          match ci_sample ci with
          | None =>
              _ ← gst_sample_ref s;
              _ ← gst_sample_unref s;
              find_cover_loop l (mkCover (ci_type ci) (Some s))
          | Some _ => _ ← gst_sample_unref s; find_cover_loop l ci
          end
      | other_image_type _ => _ ← gst_sample_unref s; find_cover_loop l ci
      end
  end.

Definition find_cover (l : list tag_image) : M X CoverImage := find_cover_loop l (mkCover other None).

Definition is_cover (ci : CoverImage) : bool :=
  match ci with mkCover cover (Some _) => true | _ => false end.

(** The [CoverImage]s that were not moved from release their samples at the end. *)
Definition extract_cover_art : M X bool :=
  x ← getS;
  match audio_tags (playbin x) with
  | None => mret false
  | Some tags =>
      _ ← reset_sample None;
      image ← find_cover (images tags);
      if is_cover image then _ ← reset_sample (ci_sample image); mret true
      else
        preview_image ← find_cover (preview_images tags);
        if is_cover preview_image then
          _ ← reset_sample (ci_sample preview_image);
          _ ← release (ci_sample image);
          mret true
        else
          match ci_sample image with
          | Some s =>
              _ ← reset_sample (Some s);
              _ ← release (ci_sample preview_image);
              mret true
          | None =>
              _ ← reset_sample (ci_sample preview_image);
              mret (match ci_sample preview_image with Some _ => true | None => false end)
          end
  end.

(** *** Still frames *)

Definition GST_SECOND : Z := 1000000000.

(** A [gint64] result. *)
Definition as_gint64 (z : Z) : outcome Z :=
  if (LLONG_MIN <=? z) && (z <=? LLONG_MAX) then Ok z else Crash (Undefined "gint64").

Definition seek_point (duration_ : Z) : outcome Z :=
  if 0 <=? duration_ then d ← as_gint64 (2 * duration_); Ok (Z.quot d 7) else Ok (10 * GST_SECOND).

(** [GST_ROUND_UP_4(width * 3)], in [int]. *)
Definition rowstride (width : Z) : outcome Z :=
  w ← as_int (width * 3) "GST_ROUND_UP_4";
  w ← as_int (w + 3) "GST_ROUND_UP_4";
  Ok (Z.land w (Z.lnot 3)).

Definition sample_rotation (orientation : string) : option rotation :=
  if bool_decide (orientation = "rotate-90") then Some ROTATE_CLOCKWISE
  else if bool_decide (orientation = "rotate-180") then Some ROTATE_UPSIDEDOWN
  else if bool_decide (orientation = "rotate-270") then Some ROTATE_COUNTERCLOCKWISE
  else None.

(** A rotation that fails leaves the frame as it is. *)
Definition rotate_frame (r : rotation) : M X unit :=
  x ← getS;
  match still_frame_ x with
  | None => crash (Undefined "gdk_pixbuf_rotate_simple")
  | Some p =>
      img ← pixels p;
      match pixbuf_rotate img r with
      | Some rotated => reset_frame (Some (mkPixbuf None rotated))
      | None => mret tt
      end
  end.

Definition extract_video_frame : M X bool :=
  x ← getS;
  p ← lift (seek_point (duration_ x));
  _ ← modify (fun x => with_playbin (gst_element_seek_simple p (playbin x)) x);
  x ← getS;
  let '(w, s) := convert_sample (playbin x) in
  _ ← modify (with_playbin w);
  match s with
  | None => throw_error "extract_video_frame(): failed to extract still frame" None
  | Some s =>
      _ ← own s;
      _ ← reset_sample (Some s);
      match sample_caps s with
      | None => throw_error "write_image(): Could not retrieve caps for sample buffer" None
      | Some (width, height) =>
          if (width <=? 0) || (height <=? 0) then throw_error "write_image(): Could not retrieve image dimensions" None
          else
            m ← map_buffer;
            match sample_data s with
            | None => crash (Undefined "gst_buffer_map")
            | Some data =>
                stride ← lift (rowstride width);
                _ ← reset_frame (Some (mkPixbuf (Some m) (pixbuf_from_data data width height stride)));
                x ← getS;
                match video_tags (playbin x) with
                | Some (Some orientation) =>
                    match sample_rotation orientation with
                    | Some r => _ ← rotate_frame r; mret true
                    | None => mret true
                    end
                | _ => mret true
                end
            end
      end
  end.

(** *** Output *)

Section Output.
(** [open()] for writing: the text of the error or a descriptor; the [i]-th
    [write()] of some bytes: an error text, or how many were written. *)
Context (open_out : string -> string + Z) (writes : nat -> string -> string + nat).

Definition append_output (fd : Z) (s : string) : M X unit :=
  modify (fun x => with_output (written x ++ [(fd, s)]) (closed x) x).

(** One [write()] of [buf], and the text of the error unless all of it went out. *)
Definition write_all (fd : Z) (buf : string) : M X (option string) :=
  x ← getS;
  match writes (length (written x)) buf with
  | inl errno_text => mret (Some errno_text)
  | inr n =>
      if Nat.eqb n (String.length buf) then _ ← append_output fd buf; mret None
      else _ ← append_output fd (Files.split_at n buf).1; mret (Some "short write")
  end.

(** [write_to_fd] for each chunk, until one fails. *)
Fixpoint write_chunks (fd : Z) (chunks : list string) : M X (option string) :=
  match chunks with
  | [] => mret None
  | c :: chunks =>
      e ← write_all fd c;
      match e with
      | Some e => mret (Some ("cannot write image data: " +:+ e))
      | None => write_chunks fd chunks
      end
  end.

(** [gdk_pixbuf_save_to_callback(..., write_to_fd, &fd, "tiff", ...)]: the error. *)
Definition save_to_callback (fd : Z) (img : Img) : M X (option string) :=
  let '(chunks, encoder_error) := pixbuf_to_tiff img in
  e ← write_chunks fd chunks;
  mret (match e with Some e => Some e | None => encoder_error end).

(** [fd_guard]: the descriptor is closed however the rest ends. *)
Definition with_guard {A} (fd : Z) (body : M X A) : M X A := fun x =>
  let '(x', r) := body x in
  (if fd =? -1 then x' else with_output (written x') (closed x' ++ [fd]) x', r).

(** [write_image] with the descriptor in [fd_guard]. *)
Definition write_to (fd : Z) (is_fd : bool) (filename : string) : M X unit :=
  x ← getS;
  match still_frame_ x, sample_ x with
  | Some p, _ =>
      img ← pixels p;
      e ← save_to_callback fd img;
      match e with
      | Some e => throw_error "write_image(): cannot write image" (Some e)
      | None => mret tt
      end
  | None, None => crash (Undefined "gst_sample_get_buffer")
  | None, Some s =>
      match sample_data s with
      | None => crash (Undefined "gst_buffer_map")
      | Some data =>
          if is_fd then
            e ← write_all fd data;
            match e with
            | Some e => throw (runtime_error ("write_image(): cannot write to file descriptor " +:+ to_string fd +:+ ": " +:+ e))
            | None => mret tt
            end
          else
            match pixbuf_decode data with
            | inl e => throw_error "write_image(): decoding image" (Some e)
            | inr None => throw_error ("write_image(): cannot write image to " +:+ filename) None
            | inr (Some img) =>
                e ← save_to_callback fd img;
                match e with
                | Some e => throw_error ("write_image(): cannot write image to " +:+ filename) (Some e)
                | None => mret tt
                end
            end
      end
  end.

Definition write_image : M X unit :=
  x ← getS;
  _ ← lift (assert_ (bool_decide (is_Some (still_frame_ x)) || bool_decide (is_Some (sample_ x))) "write_image");
  let filename := toLocalFile (out_url_ x) in
  if bool_decide (scheme (out_url_ x) = "fd") then
    let fd := default 0 (path_toInt (out_url_ x)) in
    with_guard fd (write_to fd true filename)
  else
    match open_out filename with
    | inl e => throw (runtime_error ("write_image(): cannot open " +:+ filename +:+ ": " +:+ e))
    | inr fd => with_guard fd (write_to fd false filename)
    end.

(** ** vs-thumb.cpp *)

Definition extract_thumbnail (in_url out_url : QUrl) : M X unit :=
  _ ← set_urls in_url out_url;
  found ← extract_cover_art;
  if (found : bool) then write_image
  else
    v ← has_video;
    _ ← lift (assert_ v "extract_thumbnail");
    _ ← extract_video_frame;
    write_image.

(** The destructor; an exception that leaves it ends the program. *)
Definition destroy : M X unit := fun x =>
  match reset x with
  | (x', Throw _) => (x', Crash (Aborted "std::terminate"))
  | (x', r) => (x', r)
  end.

(** The constructor, with the results of the three calls of
    [gst_element_factory_make]. *)
Definition construct (p : W) (playbin_made audio_sink_made video_sink_made : bool) : X * outcome unit :=
  let x := mkExtractor p (-1) empty_url empty_url None None None 0 ∅ [] [] in
  if negb playbin_made then throw_error "ThumbnailExtractor(): Could not create playbin" None x
  else if negb audio_sink_made then throw_error "ThumbnailExtractor(): Could not create audio sink" None x
  else if negb video_sink_made then throw_error "ThumbnailExtractor(): Could not create video sink" None x
  else (x, Ok tt).

(** The whole life of the local [extractor] in [extract_thumbnail]. *)
Definition extract (p : W) (made : bool * bool * bool) (in_url out_url : QUrl) : X * outcome unit :=
  let '(a, b, c) := made in
  match construct p a b c with
  | (x, Ok _) =>
      match extract_thumbnail in_url out_url x with
      | (x, Crash f) => (x, Crash f)
      | (x, r) => match destroy x with (x, Ok _) => (x, r) | (x, failed) => (x, failed) end
      end
  | (x, failed) => (x, failed)
  end.

(** [endsWith(suffix, Qt::CaseInsensitive)] for a suffix of ASCII letters in
    lower case. *)
Definition to_lower (c : ascii) : ascii :=
  let n := nat_of_ascii c in if (Nat.leb 65 n && Nat.leb n 90)%bool then ascii_of_nat (n + 32) else c.
Fixpoint lower (s : string) : string :=
  match s with EmptyString => EmptyString | String c s => String (to_lower c) (lower s) end.
Fixpoint endsWith (suffix s : string) : bool :=
  if bool_decide (lower s = suffix) then true
  else match s with EmptyString => false | String _ s => endsWith suffix s end.

(** The checks of [main] before it extracts: the exit status and the message of
    the first that fails. *)
Definition check_arguments (progname : string) (args : list string) (in_url out_url : QUrl) : option (Z * string) :=
  match args with
  | [_; arg1; arg2] =>
      if negb (url_valid in_url) then Some (2, progname +:+ ": invalid input URL: " +:+ arg1)
      else if negb (url_valid out_url) then Some (2, progname +:+ ": invalid output URL: " +:+ arg2)
      else if negb (bool_decide (scheme in_url = "file"))
      then Some (2, progname +:+ ": invalid input URL: " +:+ arg1 +:+ " (invalid scheme name, requires " +:+ Files.quote +:+ "file:" +:+ Files.quote +:+ ")")
      else if negb (bool_decide (scheme out_url = "file")) && negb (bool_decide (scheme out_url = "fd"))
      then Some (2, progname +:+ ": invalid output URL: " +:+ arg2 +:+ " (invalid scheme name, requires " +:+ Files.quote +:+ "file:" +:+ Files.quote +:+ " or " +:+ Files.quote +:+ "fd:" +:+ Files.quote +:+ ")")
      else if bool_decide (scheme out_url = "file") then
        if negb (endsWith ".tiff" (path out_url))
        then Some (2, progname +:+ ": invalid output file name: " +:+ arg2 +:+ " (missing .tiff extension)")
        else None
      else match path_toInt out_url with
           | None => Some (2, progname +:+ ": invalid URL: " +:+ arg2 +:+ " (expected a number for file descriptor)")
           | Some _ => None
           end
  | _ => Some (1, "usage: " +:+ progname +:+ " source-file (output-file.tiff | fd:num)")
  end.

(** [main]: the exit status, with what it prints. *)
Definition main (p : W) (made : bool * bool * bool) (progname : string) (args : list string) (in_url out_url : QUrl)
    : outcome (Z * string) :=
  match check_arguments progname args in_url out_url with
  | Some r => Ok r
  | None =>
      match (extract p made in_url out_url).2 with
      | Ok _ => Ok (0, "")
      | Throw e => if is_std e then Ok (2, progname +:+ ": Error creating thumbnail: " +:+ exn_what e)
                   else Crash (Aborted "std::terminate")
      | Crash c => Crash c
      end
  end.
End Output.

(** ** Lemmas *)

Implicit Types x : X.

(** *** References *)

Definition one (o : option sample) (s : sample) : nat := if decide (o = Some s) then 1 else 0.

Lemma one_none s : one None s = 0%nat.
Proof. done. Qed.

Lemma refs_insert s t n h : refs s (<[t := n]> h) = if decide (s = t) then n else refs s h.
Proof. unfold refs. destruct (decide (s = t)) as [->|]; [by rewrite lookup_insert_eq|by rewrite lookup_insert_ne]. Qed.

(** [x'] is [x] but for references: one more for [plus], one less for [minus]. *)
Definition shifted (plus minus : option sample) x x' : Prop :=
  exists h, x' = with_held h x /\ forall s, (refs s h + one minus s = refs s (held x) + one plus s)%nat.

Lemma shifted_refl x : shifted None None x x.
Proof. exists (held x). split; [by destruct x|done]. Qed.

Lemma own_run s x : exists x', own s x = (x', Ok tt) /\ shifted (Some s) None x x'.
Proof.
  eexists. split; [done|]. eexists. split; [done|]. intros t. rewrite refs_insert. unfold one.
  repeat case_decide; simplify_eq; lia.
Qed.

Lemma ref_run s x : (0 < refs s (held x))%nat -> exists x', gst_sample_ref s x = (x', Ok tt) /\ shifted (Some s) None x x'.
Proof.
  intros Hr. destruct (own_run s x) as (x' & Ho & Hs). exists x'. split; [|done].
  unfold gst_sample_ref, mbind, M_bind, getS. by rewrite (proj2 (Nat.eqb_neq _ _)) by lia.
Qed.

Lemma unref_run s x : (0 < refs s (held x))%nat -> exists x', gst_sample_unref s x = (x', Ok tt) /\ shifted None (Some s) x x'.
Proof.
  intros Hr. unfold gst_sample_unref, mbind, M_bind, getS. destruct (refs s (held x)) as [|n] eqn:E; [lia|].
  eexists. split; [done|]. eexists. split; [done|]. intros t. rewrite refs_insert. unfold one.
  repeat case_decide; simplify_eq; lia.
Qed.

Lemma release_run o x : (forall s, o = Some s -> 0 < refs s (held x))%nat ->
  exists x', release o x = (x', Ok tt) /\ shifted None o x x'.
Proof.
  destruct o as [s|]; intros Hr; [by apply unref_run, Hr|]. exists x. split; [done|apply shifted_refl].
Qed.

(** Two shifts one after the other. *)
Lemma shifted_held a b x x' s : shifted a b x x' -> (refs s (held x') + one b s = refs s (held x) + one a s)%nat.
Proof. intros (h & -> & Hh). apply Hh. Qed.

Lemma shifted_with a b x x' : shifted a b x x' -> x' = with_held (held x') x.
Proof. by intros (h & -> & _). Qed.

Lemma shifted_by a b x x' : x' = with_held (held x') x ->
  (forall s, (refs s (held x') + one b s = refs s (held x) + one a s)%nat) -> shifted a b x x'.
Proof. intros -> H. by exists (held x'). Qed.

Lemma with_held_twice h h' x : with_held h (with_held h' x) = with_held h x.
Proof. done. Qed.

(** Case analysis on who holds what. *)
Ltac count_refs := intros;
  match goal with |- context [refs ?s _] =>
    repeat match goal with
    | H : shifted ?a ?b ?x ?x' |- _ => pose proof (shifted_held a b x x' s H); clear H
    end
  end; unfold one in *; repeat case_decide; simplify_eq; lia.

(** *** The choice of the cover *)

Definition is_front (i : tag_image) : bool := match image_type i with GST_TAG_IMAGE_TYPE_FRONT_COVER => true | _ => false end.
Definition is_undefined (i : tag_image) : bool := match image_type i with GST_TAG_IMAGE_TYPE_UNDEFINED => true | _ => false end.

(** The first front cover, or else the first image of unknown type. *)
Definition front (l : list tag_image) : option sample := fmap tag_sample (List.find is_front l).
Definition unknown (l : list tag_image) : option sample := fmap tag_sample (List.find is_undefined l).

Definition pick (l : list tag_image) (o : option sample) : CoverImage :=
  match front l with
  | Some s => mkCover cover (Some s)
  | None => mkCover other (match o with Some s => Some s | None => unknown l end)
  end.

Lemma pick_cons i l o : pick (i :: l) o =
  match image_type i with
  | GST_TAG_IMAGE_TYPE_FRONT_COVER => mkCover cover (Some (tag_sample i))
  | GST_TAG_IMAGE_TYPE_UNDEFINED => pick l (match o with Some s => Some s | None => Some (tag_sample i) end)
  | other_image_type _ => pick l o
  end.
Proof.
  unfold pick, front, unknown. cbn [List.find]. unfold is_front at 1, is_undefined at 1.
  destruct (image_type i), o; simpl; try done; by destruct (List.find is_front l).
Qed.

Lemma find_cover_loop_pick l : forall o x,
  (forall s, o = Some s -> 0 < refs s (held x))%nat ->
  exists x', find_cover_loop l (mkCover other o) x = (x', Ok (pick l o)) /\ shifted (ci_sample (pick l o)) o x x'.
Proof.
  induction l as [|i l IH]; intros o x Ho.
  { exists x. destruct o as [s|]; (split; [done|]); exists (held x); (split; [by destruct x|done]). }
  cbn [find_cover_loop ci_sample ci_type]. destruct (own_run (tag_sample i) x) as (x1 & H1 & S1).
  unfold mbind at 1, M_bind at 1. rewrite H1. pose proof (shifted_held _ _ _ _ (tag_sample i) S1) as R1.
  rewrite pick_cons.
  assert (Hpos : (0 < refs (tag_sample i) (held x1))%nat) by (unfold one in R1; repeat case_decide; simplify_eq; lia).
  destruct (image_type i) as [| |n].
  - destruct o as [s|].
    + destruct (unref_run _ x1 Hpos) as (x2 & H2 & S2). unfold mbind at 1, M_bind at 1. rewrite H2.
      destruct (IH (Some s) x2) as (x3 & H3 & S3).
      { intros t [= <-]. specialize (Ho s eq_refl). count_refs. }
      exists x3. split; [done|]. apply shifted_by; [|count_refs].
      by rewrite (shifted_with _ _ _ _ S3), (shifted_with _ _ _ _ S2), (shifted_with _ _ _ _ S1).
    + destruct (ref_run _ x1 Hpos) as (x2 & H2 & S2). unfold mbind at 1, M_bind at 1. rewrite H2.
      destruct (unref_run (tag_sample i) x2) as (x3 & H3 & S3); [count_refs|].
      unfold mbind at 1, M_bind at 1. rewrite H3.
      destruct (IH (Some (tag_sample i)) x3) as (x4 & H4 & S4); [intros t [= <-]; count_refs|].
      exists x4. split; [done|]. apply shifted_by; [|count_refs].
      by rewrite (shifted_with _ _ _ _ S4), (shifted_with _ _ _ _ S3), (shifted_with _ _ _ _ S2), (shifted_with _ _ _ _ S1).
  - destruct (ref_run _ x1 Hpos) as (x2 & H2 & S2). unfold mbind at 1, M_bind at 1. rewrite H2.
    destruct (release_run o x2) as (x3 & H3 & S3); [intros s Hs; specialize (Ho s Hs); count_refs|].
    unfold mbind at 1, M_bind at 1. rewrite H3.
    destruct (unref_run (tag_sample i) x3) as (x4 & H4 & S4).
    { destruct o as [s|]; [specialize (Ho s eq_refl)|]; count_refs. }
    unfold mbind at 1, M_bind at 1. rewrite H4. exists x4. split; [done|]. apply shifted_by; [|simpl; count_refs].
    by rewrite (shifted_with _ _ _ _ S4), (shifted_with _ _ _ _ S3), (shifted_with _ _ _ _ S2), (shifted_with _ _ _ _ S1).
  - destruct (unref_run _ x1 Hpos) as (x2 & H2 & S2). unfold mbind at 1, M_bind at 1. rewrite H2.
    destruct (IH o x2) as (x3 & H3 & S3); [intros t Ht; specialize (Ho t Ht); count_refs|].
    exists x3. split; [done|]. apply shifted_by; [|count_refs].
    by rewrite (shifted_with _ _ _ _ S3), (shifted_with _ _ _ _ S2), (shifted_with _ _ _ _ S1).
Qed.

(** The references held are the one of [sample_]. *)
Definition owns x : Prop := forall s, refs s (held x) = one (sample_ x) s.

Lemma reset_sample_none o x : sample_ x = None -> reset_sample o x = (with_sample o x, Ok tt).
Proof. intros Hs. unfold reset_sample, mbind, M_bind, getS, modify. by rewrite Hs. Qed.

Lemma reset_sample_owned x : owns x -> exists h, reset_sample None x = (with_sample None (with_held h x), Ok tt) /\ forall s, refs s h = 0%nat.
Proof.
  intros Ho. unfold reset_sample, mbind, M_bind, getS, modify.
  destruct (release_run (sample_ x) (with_sample None x)) as (x' & -> & S).
  { intros s Hs. simpl. rewrite Ho, Hs. unfold one. rewrite decide_True by done. lia. }
  exists (held x'). rewrite (shifted_with _ _ _ _ S) at 1. split; [done|]. intros s.
  pose proof (shifted_held _ _ _ _ s S) as H. simpl in H. rewrite Ho, one_none in H. lia.
Qed.

(** The cover art of a file: a front cover, full size rather than preview, or
    else an image of unknown type, in the same order. *)
Definition best (tags : GstTagList) : option sample :=
  match front (images tags), front (preview_images tags) with
  | Some s, _ => Some s
  | None, Some s => Some s
  | None, None => match unknown (images tags) with Some s => Some s | None => unknown (preview_images tags) end
  end.

Lemma is_cover_pick l : is_cover (pick l None) = match front l with Some _ => true | None => false end.
Proof. unfold pick. by destruct (front l). Qed.

Lemma pick_sample l : ci_sample (pick l None) = match front l with Some s => Some s | None => unknown l end.
Proof. unfold pick. by destruct (front l). Qed.

Lemma extract_cover_art_run x tags :
  audio_tags (playbin x) = Some tags -> owns x ->
  exists h, extract_cover_art x = (with_sample (best tags) (with_held h x), Ok (bool_decide (is_Some (best tags)))) /\
    forall s, refs s h = one (best tags) s.
Proof.
  intros Ht Ho. unfold extract_cover_art. unfold mbind at 1, M_bind at 1, getS at 1. rewrite Ht.
  destruct (reset_sample_owned x Ho) as (h1 & H1 & R1). unfold mbind at 1, M_bind at 1. rewrite H1.
  set (x1 := with_sample None (with_held h1 x)). unfold find_cover.
  destruct (find_cover_loop_pick (images tags) None x1) as (x2 & H2 & S2); [done|].
  assert (E2 : x2 = with_sample None (with_held (held x2) x)) by by rewrite (shifted_with _ _ _ _ S2) at 1.
  assert (R2 : forall s, refs s (held x2) = one (ci_sample (pick (images tags) None)) s).
  { intros s. pose proof (shifted_held _ _ _ _ s S2) as H. simpl in H. rewrite R1, one_none in H. lia. }
  unfold mbind at 1, M_bind at 1. rewrite H2, is_cover_pick. rewrite pick_sample in *. unfold best.
  destruct (front (images tags)) as [s|].
  { exists (held x2). split; [|done]. unfold mbind, M_bind. rewrite reset_sample_none by by rewrite E2. by rewrite E2 at 1. }
  destruct (find_cover_loop_pick (preview_images tags) None x2) as (x3 & H3 & S3); [done|].
  assert (E3 : x3 = with_sample None (with_held (held x3) x)) by by rewrite (shifted_with _ _ _ _ S3), E2 at 1.
  assert (N3 : sample_ x3 = None) by by rewrite E3.
  unfold mbind at 1, M_bind at 1. rewrite H3, is_cover_pick. rewrite pick_sample in *.
  destruct (front (preview_images tags)) as [s|]; [|destruct (unknown (images tags)) as [s|]].
  - unfold mbind, M_bind. rewrite reset_sample_none by done.
    destruct (release_run (unknown (images tags)) (with_sample (Some s) x3)) as (x4 & H4 & S4).
    { intros t Hu. simpl. specialize (R2 t). rewrite Hu in R2. count_refs. }
    rewrite H4. exists (held x4). split; [by rewrite (shifted_with _ _ _ _ S4), E3 at 1|].
    intros t. specialize (R2 t). apply (shifted_held _ _ _ _ t) in S3, S4. simpl in S4. rewrite !one_none in *. lia.
  - unfold mbind, M_bind. rewrite reset_sample_none by done.
    destruct (release_run (unknown (preview_images tags)) (with_sample (Some s) x3)) as (x4 & H4 & S4).
    { intros t Hu. simpl. specialize (R2 t). rewrite Hu in S3. count_refs. }
    rewrite H4. exists (held x4). split; [by rewrite (shifted_with _ _ _ _ S4), E3 at 1|].
    intros t. specialize (R2 t). apply (shifted_held _ _ _ _ t) in S3, S4. simpl in S4. rewrite !one_none in *. lia.
  - unfold mbind, M_bind. rewrite reset_sample_none by done. exists (held x3).
    split; [rewrite E3 at 1; by destruct (unknown (preview_images tags))|].
    intros t. specialize (R2 t). apply (shifted_held _ _ _ _ t) in S3. rewrite !one_none in *. lia.
Qed.

(** *** Runs with an invariant for both exits *)

(** From [x], [m] returns with [Q], or throws a standard exception with [E] of
    the state it leaves, or stops with a fault of [K]. *)
Definition runs {A} (K : fault -> Prop) (E : X -> Prop) (m : M X A) (Q : A -> X -> Prop) x : Prop :=
  match m x with
  | (x', Ok a) => Q a x'
  | (x', Throw e) => is_std e = true /\ E x'
  | (_, Crash f) => K f
  end.

Lemma runs_bind {A B} K E (m : M X A) (f : A -> M X B) Q x :
  runs K E m (fun a x' => runs K E (f a) Q x') x -> runs K E (m ≫= f) Q x.
Proof. unfold runs, mbind, M_bind. by destruct (m x) as [x1 [a|e|c]]. Qed.

Lemma runs_mono {A} K E (m : M X A) (Q Q' : A -> X -> Prop) x :
  runs K E m Q x -> (forall a x', Q a x' -> Q' a x') -> runs K E m Q' x.
Proof. unfold runs. destruct (m x) as [x1 [a|e|c]]; auto. Qed.

Lemma runs_throw_error {A} K (E : X -> Prop) msg error (Q : A -> X -> Prop) x :
  E x -> runs K E (throw_error msg error) Q x.
Proof. done. Qed.

Lemma runs_getS K E (Q : X -> X -> Prop) x : Q x x -> runs K E getS Q x.
Proof. done. Qed.

Lemma runs_modify K E f (Q : unit -> X -> Prop) x : Q tt (f x) -> runs K E (modify f) Q x.
Proof. done. Qed.

Lemma runs_eq {A} K E (m : M X A) x x' a (Q : A -> X -> Prop) : m x = (x', Ok a) -> Q a x' -> runs K E m Q x.
Proof. unfold runs. by intros ->. Qed.

(** *** The invariant *)

(** We own the reference of [sample_] and no other, and [buffermap_] holds the
    mapping that [still_frame_] reads, if it reads one. *)
Definition wf x : Prop := owns x /\ buffermap_ x = still_frame_ x ≫= pix_map.

(** Nothing is held. *)
Definition clean x : Prop := wf x /\ sample_ x = None /\ still_frame_ x = None.

Lemma clean_wf x : clean x -> wf x.
Proof. by intros [H _]. Qed.

Lemma wf_playbin p x : wf x -> wf (with_playbin p x).
Proof. done. Qed.

(** The change to [GST_STATE_NULL] fails, or an error is read while it is
    waited for. *)
Definition null_fails (w : W) : Prop := exists w' r ms, gst_element_set_state GST_STATE_NULL w = (w', r, ms) /\
  (r = GST_STATE_CHANGE_FAILURE \/ r = GST_STATE_CHANGE_ASYNC /\ exists msg, GST_MESSAGE_ERROR msg ∈ ms).

(** The ways to stop without an end, each with what the media must do for it: a
    file with neither art nor video, a buffer that cannot be mapped - its
    result is not tested -, a duration or a width whose arithmetic overflows,
    and a pipeline that cannot be stopped by the destructor. *)
Inductive stops : fault -> Prop :=
  | neither_art_nor_video w : n_video w <= 0 -> stops (AssertFailed "extract_thumbnail")
  | map_failed s : sample_data s = None -> stops (Undefined "gst_buffer_map")
  | duration_overflows w d : gst_element_query_duration w = Some d -> LLONG_MAX < 2 * d -> stops (Undefined "gint64")
  | width_overflows s w h : sample_caps s = Some (w, h) -> INT_MAX < w * 3 + 3 -> stops (Undefined "GST_ROUND_UP_4")
  | cannot_stop w : null_fails w -> stops (Aborted "std::terminate").

Lemma await_messages_runs K E ms (Q : unit -> X -> Prop) x :
  ((exists msg, GST_MESSAGE_ERROR msg ∈ ms) -> E x) -> Q tt x -> runs K E (await_messages ms) Q x.
Proof.
  intros HE HQ. induction ms as [|[[]|msg] ms IH]; simpl; [done|done|apply IH|apply runs_throw_error, HE; exists msg; set_solver].
  intros [msg Hm]. apply HE. exists msg. set_solver.
Qed.

Lemma change_state_runs K (E : X -> Prop) st (Q : unit -> X -> Prop) x :
  (forall p, E (with_playbin p x)) -> (forall p, Q tt (with_playbin p x)) -> runs K E (change_state st) Q x.
Proof.
  intros HE HQ. unfold change_state. apply runs_bind, runs_getS.
  destruct (gst_element_set_state st (playbin x)) as [[p r] ms]. apply runs_bind, runs_modify.
  destruct r; [by apply runs_throw_error|apply HQ| |apply HQ]. by apply await_messages_runs.
Qed.

(** [reset] gives back all there is, unless the pipeline cannot be stopped. *)
Lemma reset_clean K E x (Q : unit -> X -> Prop) : wf x ->
  (forall w, null_fails (playbin x) -> E (with_playbin w x)) ->
  (forall x', clean x' -> in_url_ x' = in_url_ x -> out_url_ x' = out_url_ x ->
     written x' = written x -> closed x' = closed x -> Q tt x') -> runs K E reset Q x.
Proof.
  intros [Ho Hm] HE HQ. unfold reset, change_state.
  destruct (gst_element_set_state GST_STATE_NULL (playbin x)) as [[w r] ms] eqn:Es.
  apply runs_bind, runs_bind, runs_getS. rewrite Es. apply runs_bind, runs_modify.
  assert (Hok : runs K E (reset_sample None ≫= fun _ => reset_frame None) Q (with_playbin w x)).
  2: { destruct r; [|exact Hok| |exact Hok].
       - apply runs_throw_error, HE. by eexists _, _, _; split; [|left].
       - apply await_messages_runs; [|exact Hok]. intros Hx. apply HE. eexists _, _, _. split; [done|by right]. }
  clear Es. destruct (reset_sample_owned (with_playbin w x) Ho) as (h & H1 & R).
  apply runs_bind. apply (runs_eq _ _ _ _ _ _ _ H1). clear H1.
  unfold reset_frame, mbind, M_bind, getS, modify, destroy_pixbuf, unmap, runs. simpl. rewrite ?Hm.
  destruct (still_frame_ x) as [[[n|] img]|] eqn:Ef; simpl; apply HQ; try done;
    (split; [split; [intros s; simpl; by rewrite R|simpl; by rewrite ?Hm]|done]).
Qed.

Lemma set_urls_runs K i o x (Q : unit -> X -> Prop) : wf x ->
  (forall x', clean x' -> in_url_ x' = i -> out_url_ x' = o -> duration_ x' = default (-1) (gst_element_query_duration (playbin x')) ->
     written x' = written x -> closed x' = closed x -> Q tt x') -> runs K wf (set_urls i o) Q x.
Proof.
  intros Hw HQ. unfold set_urls. apply runs_bind, reset_clean; [done|done|].
  intros x1 (Hw1 & Hs1 & Hf1) _ _ Hwr Hcl. apply runs_bind, runs_modify, runs_bind, runs_modify, runs_bind.
  apply change_state_runs; [intros p; exact Hw1|]. intros p. apply runs_modify, HQ; try done.
Qed.

Lemma cover_art_runs K E x (Q : bool -> X -> Prop) : wf x -> still_frame_ x = None ->
  (forall h o, (audio_tags (playbin x) = None /\ o = sample_ x /\ h = held x \/
               exists tags, audio_tags (playbin x) = Some tags /\ o = best tags) ->
     let x' := with_sample o (with_held h x) in
     wf x' -> Q (match audio_tags (playbin x) with None => false | _ => bool_decide (is_Some o) end) x') ->
  runs K E extract_cover_art Q x.
Proof.
  intros [Ho Hm] Hf HQ. destruct (audio_tags (playbin x)) as [tags|] eqn:Et.
  - destruct (extract_cover_art_run x tags Et Ho) as (h & Hr & Hh). apply (runs_eq _ _ _ _ _ _ _ Hr).
    apply HQ; [right; by eexists|]. split; [done|exact Hm].
  - unfold extract_cover_art. apply runs_bind, runs_getS. rewrite Et.
    assert (Hx : x = with_sample (sample_ x) (with_held (held x) x)) by by destruct x.
    change (Q false x). rewrite Hx. apply HQ; [by left|]. rewrite <- Hx. by split.
Qed.

Lemma seek_point_ok d : 2 * d <= LLONG_MAX -> exists p, seek_point d = Ok p /\ (0 <= d -> 0 <= p <= d).
Proof.
  intros Hd. unfold seek_point, as_gint64. destruct (Z.leb_spec 0 d) as [H|H].
  - rewrite (proj2 (Z.leb_le LLONG_MIN _)), (proj2 (Z.leb_le _ LLONG_MAX)) by (unfold LLONG_MIN; lia). simpl.
    eexists. split; [done|]. intros _. Z.to_euclidean_division_equations; lia.
  - eexists. split; [done|]. lia.
Qed.

(** The stride is a multiple of four that has room for a row. *)
Lemma rowstride_ok w : 0 < w -> w * 3 + 3 <= INT_MAX ->
  exists s, rowstride w = Ok s /\ 3 * w <= s < 3 * w + 4 /\ s mod 4 = 0.
Proof.
  intros Hw Hm. unfold rowstride, as_int.
  rewrite !(proj2 (int_ok_spec _)) by (unfold INT_MAX in Hm; lia). simpl.
  rewrite (proj2 (int_ok_spec _)) by (unfold INT_MAX in Hm; lia). simpl.
  eexists. split; [done|].
  assert (Hl : Z.land (w * 3 + 3) (Z.lnot 3) = (w * 3 + 3) / 4 * 4).
  { change (Z.lnot 3) with (Z.lnot (Z.ones 2)). rewrite <- Z.ldiff_land, Z.ldiff_ones_r by lia.
    by rewrite Z.shiftl_mul_pow2, Z.shiftr_div_pow2 by lia. }
  rewrite Hl. split; [|by apply Z.mod_mul]. pose proof (Z.div_mod (w * 3 + 3) 4). pose proof (Z.mod_pos_bound (w * 3 + 3) 4). lia.
Qed.

(** Otherwise both stop for the named reason. *)
Lemma seek_point_large d : LLONG_MAX < 2 * d -> seek_point d = Crash (Undefined "gint64").
Proof.
  intros Hd. unfold seek_point, as_gint64. rewrite (proj2 (Z.leb_le 0 d)) by (unfold LLONG_MAX in Hd; lia).
  by rewrite (proj2 (Z.leb_gt (2 * d) LLONG_MAX)), andb_false_r by lia.
Qed.

Lemma rowstride_large w : INT_MAX < w * 3 + 3 -> rowstride w = Crash (Undefined "GST_ROUND_UP_4").
Proof.
  intros Hw. unfold rowstride, as_int. destruct (int_ok (w * 3)); simpl; [|done].
  destruct (int_ok (w * 3 + 3)) eqn:E; [|done]. apply int_ok_spec in E. unfold INT_MAX in Hw. lia.
Qed.

Lemma rotate_frame_runs K E r img n x (Q : unit -> X -> Prop) :
  wf x -> still_frame_ x = Some (mkPixbuf (Some n) img) ->
  (forall x', wf x' -> is_Some (still_frame_ x') -> Q tt x') -> runs K E (rotate_frame r) Q x.
Proof.
  intros [Ho Hm] Hf HQ. unfold rotate_frame. apply runs_bind, runs_getS. rewrite Hf.
  apply runs_bind. unfold pixels. apply runs_bind, runs_getS. simpl. rewrite Hm, Hf. simpl.
  rewrite bool_decide_true by done. change (runs K E (match pixbuf_rotate img r with
    Some rotated => reset_frame (Some (mkPixbuf None rotated)) | None => mret tt end) Q x).
  destruct (pixbuf_rotate img r) as [rotated|].
  - unfold reset_frame, mbind, M_bind, getS, modify, runs. rewrite Hf. simpl. apply HQ; [|by eexists]. split; [exact Ho|done].
  - apply HQ; [by split|by rewrite Hf].
Qed.

(** A sample of which we get the reference replaces the one in [sample_]. *)
Lemma take_sample {A} K E s x (k : M X A) (Q : A -> X -> Prop) : wf x ->
  (forall h, (forall t, refs t h = one (Some s) t) -> wf (with_sample (Some s) (with_held h x)) ->
     runs K E k Q (with_sample (Some s) (with_held h x))) ->
  runs K E (_ ← own s; _ ← reset_sample (Some s); k) Q x.
Proof.
  intros [Ho Hm] HQ. apply runs_bind. destruct (own_run s x) as (x2 & H2 & S2). apply (runs_eq _ _ _ _ _ _ _ H2).
  assert (Hh2 : forall t, refs t (held x2) = (one (sample_ x) t + one (Some s) t)%nat).
  { intros t. pose proof (shifted_held _ _ _ _ t S2) as H. rewrite one_none in H. specialize (Ho t). lia. }
  apply shifted_with in S2. apply runs_bind. unfold reset_sample, mbind, M_bind, getS, modify, runs at 1.
  destruct (release_run (sample_ x2) (with_sample (Some s) x2)) as (x3 & -> & S3).
  { intros t Ht. simpl. rewrite Hh2. rewrite S2 in Ht. simpl in Ht. rewrite Ht. unfold one at 1. rewrite decide_True by done. lia. }
  assert (R3 : forall t, refs t (held x3) = one (Some s) t).
  { intros t. pose proof (shifted_held _ _ _ _ t S3) as H. simpl in H. rewrite Hh2, one_none in H.
    assert (Hs2 : sample_ x2 = sample_ x) by by rewrite S2. rewrite Hs2 in H. lia. }
  assert (E3 : x3 = with_sample (Some s) (with_held (held x3) x)) by by rewrite (shifted_with _ _ _ _ S3), S2 at 1.
  simpl. rewrite E3. apply HQ; [exact R3|]. split; [exact R3|exact Hm].
Qed.

(** A frame is extracted when none is there: all that is mapped and held
    afterwards belongs to the frame and the sample. *)
Lemma video_frame_runs x (Q : bool -> X -> Prop) :
  wf x -> still_frame_ x = None -> (LLONG_MAX < 2 * duration_ x -> stops (Undefined "gint64")) ->
  (forall x', wf x' -> is_Some (still_frame_ x') -> Q true x') -> runs stops wf extract_video_frame Q x.
Proof.
  intros [Ho Hm] Hf Hd HQ. unfold extract_video_frame. apply runs_bind, runs_getS, runs_bind.
  destruct (Z.lt_ge_cases LLONG_MAX (2 * duration_ x)) as [Hl|Hl].
  { unfold runs, lift. rewrite seek_point_large by done. by apply Hd. }
  destruct (seek_point_ok _ Hl) as (p & Hp & _). apply (runs_eq _ _ _ x x p); [by rewrite Hp|].
  apply runs_bind, runs_modify, runs_bind, runs_getS. destruct (convert_sample _) as [w [s|]]; apply runs_bind, runs_modify;
    [|by apply runs_throw_error].
  set (x1 := with_playbin w _). apply take_sample; [by split|]. intros h Hh W3.
  set (x3 := with_sample (Some s) (with_held h x1)) in *.
  destruct (sample_caps s) as [[wd ht]|] eqn:Ec; [|by apply runs_throw_error].
  destruct ((wd <=? 0) || (ht <=? 0)) eqn:Eg; [by apply runs_throw_error|]. bsimpl.
  unfold map_buffer, unmap. apply runs_bind, runs_bind, runs_modify, runs_bind, runs_getS, runs_bind, runs_modify.
  set (x4 := with_map (Some _) _ _). apply (runs_eq _ _ _ x4 x4 (next_map x3)); [done|].
  destruct (sample_data s) as [data|] eqn:Ed; [|by eapply map_failed]. apply runs_bind.
  destruct (Z.lt_ge_cases INT_MAX (wd * 3 + 3)) as [Hw|Hw].
  { unfold runs, lift. rewrite rowstride_large by done. by eapply width_overflows. }
  destruct (rowstride_ok wd) as (st & Hst & _ & _); [done|done|].
  apply (runs_eq _ _ _ x4 x4 st); [by rewrite Hst|]. apply runs_bind.
  set (pb := mkPixbuf (Some (next_map x3)) (pixbuf_from_data data wd ht st)).
  assert (H5 : reset_frame (Some pb) x4 = (with_frame (Some pb) x4, Ok tt)).
  { unfold reset_frame, mbind, M_bind, getS, modify, destroy_pixbuf. simpl. by rewrite Hf. }
  apply (runs_eq _ _ _ _ _ _ _ H5). clear H5. assert (W5 : wf (with_frame (Some pb) x4)) by (split; [exact Hh|done]).
  apply runs_bind, runs_getS. destruct (video_tags _) as [[o|]|]; [|by apply HQ..].
  destruct (sample_rotation o) as [r|]; [|by apply HQ].
  apply runs_bind. eapply rotate_frame_runs; [exact W5|done|]. intros x6 W6 F6. by apply HQ.
Qed.

(** *** Output *)

Section Writing.
Context (open_out : string -> string + Z) (writes : nat -> string -> string + nat).

(** Only what was written changes, whatever happens. *)
Definition output_only {A} (m : M X A) x : Prop :=
  exists w, (m x).1 = with_output w (closed x) x /\
    match (m x).2 with Ok _ => True | Throw e => is_std e = true | Crash f => stops f end.

Lemma output_only_bind {A B} (m : M X A) (f : A -> M X B) x :
  output_only m x -> (forall a w, output_only (f a) (with_output w (closed x) x)) -> output_only (m ≫= f) x.
Proof.
  intros (w & Hm & Hr) Hf. unfold output_only, mbind, M_bind. destruct (m x) as [x1 [a|e|c]]; simpl in *; [|by exists w..].
  subst x1. destruct (Hf a w) as (w' & H1 & H2). exists w'. by rewrite H1.
Qed.

Lemma output_only_same {A} (m : M X A) x : (m x).1 = x ->
  match (m x).2 with Ok _ => True | Throw e => is_std e = true | Crash f => stops f end -> output_only m x.
Proof. intros H1 H2. exists (written x). rewrite H1. split; [by destruct x|done]. Qed.

Lemma output_only_step {A B} (m : M X A) (f : A -> M X B) a x :
  m x = (x, Ok a) -> output_only (f a) x -> output_only (m ≫= f) x.
Proof. unfold output_only, mbind, M_bind. by intros ->. Qed.

Lemma write_all_only fd buf x : output_only (write_all writes fd buf) x.
Proof.
  unfold write_all. apply output_only_bind; [by apply output_only_same|]. intros y w.
  destruct (writes _ _) as [e|n]; [by apply output_only_same|].
  case_goal; (apply output_only_bind; [by eexists|intros [] w'; by apply output_only_same]).
Qed.

Lemma save_only fd img x : output_only (save_to_callback writes fd img) x.
Proof.
  unfold save_to_callback. destruct (pixbuf_to_tiff img) as [chunks err].
  apply output_only_bind; [|intros e w; by apply output_only_same]. revert x.
  induction chunks as [|c chunks IH]; intros x; cbn [write_chunks]; [by apply output_only_same|].
  apply output_only_bind; [apply write_all_only|]. intros [e|] w; [by apply output_only_same|apply IH].
Qed.

Lemma write_to_only fd is_fd filename x :
  wf x -> is_Some (still_frame_ x) \/ is_Some (sample_ x) -> output_only (write_to writes fd is_fd filename) x.
Proof.
  intros [Ho Hm] Hsome. unfold write_to. apply (output_only_step getS _ x); [done|].
  destruct (still_frame_ x) as [[pm img]|] eqn:Ef.
  - apply (output_only_step _ _ img).
    { unfold pixels, mbind, M_bind, getS. simpl. destruct pm as [n|]; [|done]. simpl in Hm. by rewrite Hm, bool_decide_true. }
    apply output_only_bind; [apply save_only|]. intros [e|] w; by apply output_only_same.
  - destruct (sample_ x) as [s|] eqn:Es; [|by destruct Hsome as [[]|[]]].
    destruct (sample_data s) as [data|] eqn:Ed; [|apply output_only_same; [done|by eapply map_failed]]. destruct is_fd.
    + apply output_only_bind; [apply write_all_only|]. intros [e|] w; by apply output_only_same.
    + destruct (pixbuf_decode data) as [e|[img|]]; [by apply output_only_same| |by apply output_only_same].
      apply output_only_bind; [apply save_only|]. intros [e|] w; by apply output_only_same.
Qed.

(** Writing leaves the extractor as it was, and the descriptor closed. *)
Lemma write_image_runs x (Q : unit -> X -> Prop) :
  wf x -> is_Some (still_frame_ x) \/ is_Some (sample_ x) ->
  (forall x', wf x' -> Q tt x') -> runs stops wf (write_image open_out writes) Q x.
Proof.
  intros Hw Hsome HQ. unfold write_image. apply runs_bind, runs_getS, runs_bind.
  assert (Hg : (bool_decide (is_Some (still_frame_ x)) || bool_decide (is_Some (sample_ x))) = true)
    by (rewrite orb_true_iff, !bool_decide_eq_true; tauto).
  apply (runs_eq _ _ _ x x tt); [by rewrite Hg|]. clear Hg.
  assert (Hguard : forall fd b f, runs stops wf (with_guard fd (write_to writes fd b f)) Q x).
  { intros fd b f. destruct (write_to_only fd b f x Hw Hsome) as (w & H1 & H2). unfold runs, with_guard.
    destruct (write_to writes fd b f x) as [x' r]. simpl in *. subst x'.
    assert (Hx : wf (if fd =? -1 then with_output w (closed x) x
                     else with_output w (closed x ++ [fd]) (with_output w (closed x) x))) by by destruct (fd =? -1).
    destruct r as [[]|e|]; [by apply HQ|done|done]. }
  case_bool_decide; [apply Hguard|]. destruct (open_out _) as [e|fd]; [done|apply Hguard].
Qed.

(** ** Properties *)

(** What is left of an extractor whose owner is gone. *)
Definition released x : Prop := (forall s, refs s (held x) = 0%nat) /\ buffermap_ x = None /\ sample_ x = None /\ still_frame_ x = None.

Lemma clean_released x : clean x -> released x.
Proof. intros ([Ho Hm] & Hs & Hf). split; [intros s; by rewrite Ho, Hs|]. rewrite Hm, Hf. done. Qed.

Lemma extract_thumbnail_runs i o x : wf x ->
  runs stops wf (extract_thumbnail open_out writes i o) (fun _ => wf) x.
Proof.
  intros Hw. unfold extract_thumbnail. apply runs_bind, set_urls_runs; [done|]. intros x1 (W1 & S1 & F1) Hi Ho Hd _ _.
  apply runs_bind, cover_art_runs; [done|done|]. intros h s _ x2 W2.
  destruct (match audio_tags (playbin x1) with None => false | _ => _ end) eqn:Eb.
  - apply write_image_runs; [done| |done]. right. destruct (audio_tags (playbin x1)); [|done].
    by apply bool_decide_eq_true in Eb.
  - apply runs_bind, runs_bind, runs_getS. apply runs_bind.
    destruct (Z.ltb_spec 0 (n_video (playbin x2))) as [_|Hn]; [|by eapply neither_art_nor_video].
    apply (runs_eq _ _ _ x2 x2 tt); [done|]. apply runs_bind, video_frame_runs; [done|done| |].
    { change (duration_ x2) with (duration_ x1). rewrite Hd. destruct (gst_element_query_duration _) eqn:Ed; [|done].
      by eapply duration_overflows. }
    intros x3 W3 F3. apply write_image_runs; [done|by left|done].
Qed.

Lemma destroy_releases x : wf x ->
  match destroy x with (x', Ok _) => released x' | (_, Throw _) => False | (_, Crash f) => stops f end.
Proof.
  intros Hx. pose proof (reset_clean (fun _ => False) (fun _ => null_fails (playbin x)) x (fun _ => clean) Hx ltac:(auto) ltac:(auto)) as R.
  unfold runs in R. unfold destroy. destruct (reset x) as [x2 [[]|e|f]]; [by apply clean_released| |done].
  destruct R as [_ R]. by eapply cannot_stop.
Qed.

Lemma extract_outcome p made i o :
  let '(x, r) := extract open_out writes p made i o in
  match r with
  | Ok _ => released x
  | Throw e => is_std e = true /\ released x
  | Crash f => stops f
  end.
Proof.
  unfold extract. destruct made as [[a b] c]. set (x0 := mkExtractor p (-1) empty_url empty_url None None None 0 ∅ [] []).
  assert (C0 : clean x0) by by repeat split.
  unfold construct. fold x0. destruct a; simpl; [|split; [done|by apply clean_released]].
  destruct b; simpl; [|split; [done|by apply clean_released]].
  destruct c; simpl; [|split; [done|by apply clean_released]].
  pose proof (extract_thumbnail_runs i o x0 (clean_wf _ C0)) as H. unfold runs in H.
  destruct (extract_thumbnail open_out writes i o x0) as [x1 [[]|e|f]]; [| |done].
  - pose proof (destroy_releases x1 H) as D. by destruct (destroy x1) as [x2 []].
  - destruct H as [He H]. pose proof (destroy_releases x1 H) as D. by destruct (destroy x1) as [x2 []].
Qed.

Lemma extract_std p made i o :
  match (extract open_out writes p made i o).2 with Throw e => is_std e = true | _ => True end.
Proof.
  pose proof (extract_outcome p made i o) as H. destruct (extract _ _ _ _ _ _) as [x [|e|]]; [done| |done]. apply H.
Qed.

(** C26. vs-thumb gives back what it takes.  For every media file, output and
    behaviour of the media libraries, the extractor either runs to its end, with
    success or a standard exception - and when it is gone every reference to a
    sample has been dropped exactly once, and no buffer is still mapped -, or it
    stops at one of five named places, each with its cause: the assertion that a
    file without art has video, a buffer that cannot be mapped, whose result is
    not tested, a duration beyond half the range of [gint64], a frame so wide
    that the row stride overflows an [int], and a pipeline that the destructor
    cannot stop.  The pixels of a frame are never read after their buffer was
    unmapped, on any path.  So [main] exits with 0, 1 or 2, or stops at one of
    these places. *)
Theorem extract_releases p made progname args i o :
  (let '(x, r) := extract open_out writes p made i o in
   match r with
   | Ok _ => released x
   | Throw e => is_std e = true /\ released x
   | Crash f => stops f
   end) /\
  match main open_out writes p made progname args i o with
  | Ok (code, _) => code = 0 \/ code = 1 \/ code = 2
  | Throw _ => False
  | Crash f => stops f
  end.
Proof.
  split; [apply extract_outcome|]. pose proof (extract_outcome p made i o) as H. unfold main.
  destruct (check_arguments progname args i o) as [[c m]|] eqn:Ec.
  - unfold check_arguments in Ec. repeat case_hyp Ec; simplify_eq; auto.
  - destruct (extract _ _ _ _ _ _) as [x [|e|f]]; simpl; [auto| |done]. destruct H as [-> _]. auto.
Qed.

(** *** The other end of the pipe *)

Definition output_on (fd : Z) (w : list (Z * string)) : string :=
  fold_right (fun e d => if fst e =? fd then snd e +:+ d else d) "" w.

(** How the service sees the end of the process. *)
Definition exit_of (m : outcome (Z * string)) : ImageExtractor.exit_status :=
  match m with Ok (code, _) => ImageExtractor.NormalExit code | _ => ImageExtractor.CrashExit end.

Definition fresh (p : W) : X := mkExtractor p (-1) empty_url empty_url None None None 0 ∅ [] [].

Lemma fresh_clean p : clean (fresh p).
Proof. by repeat split. Qed.

Lemma extract_made p i o :
  extract open_out writes p (true, true, true) i o =
    match extract_thumbnail open_out writes i o (fresh p) with
    | (x, Crash f) => (x, Crash f)
    | (x, r) => match destroy x with (x, Ok _) => (x, r) | (x, failed) => (x, failed) end
    end.
Proof. done. Qed.

(** Embedded art is written as it is. *)
Lemma art_written i o p x1 tags art d fd :
  set_urls i o (fresh p) = (x1, Ok tt) -> audio_tags (playbin x1) = Some tags -> best tags = Some art ->
  sample_data art = Some d -> scheme o = "fd" -> path_toInt o = Some fd ->
  (forall n b, writes n b = inr (String.length b)) -> (forall w, ~ null_fails w) ->
  exists x, extract open_out writes p (true, true, true) i o = (x, Ok tt) /\ written x = [(fd, d)].
Proof.
  intros Hset Ht Hb Hd Hsch Hfd Hw Hnull. rewrite extract_made. unfold extract_thumbnail, mbind at 1, M_bind at 1. rewrite Hset.
  assert (C1 : clean x1 /\ out_url_ x1 = o /\ written x1 = []).
  { pose proof (set_urls_runs (fun _ => False) i o (fresh p) (fun _ x => clean x /\ out_url_ x = o /\ written x = [])
      (clean_wf _ (fresh_clean p))) as H. unfold runs in H. rewrite Hset in H. apply H. intros x' Hx' _ Ho' _ -> _. done. }
  destruct C1 as (((Ow & Mw) & S1 & F1) & Ho & Wr).
  destruct (extract_cover_art_run x1 tags Ht Ow) as (h & Hr & Hh). rewrite Hb in *.
  unfold mbind at 1, M_bind at 1. rewrite Hr. rewrite bool_decide_true by by eexists.
  set (x2 := with_sample (Some art) (with_held h x1)).
  assert (Hwi : write_image open_out writes x2 =
    (if fd =? -1 then with_output [(fd, d)] (closed x1) x2 else with_output [(fd, d)] (closed x1 ++ [fd]) x2, Ok tt)).
  { unfold write_image. unfold mbind at 1, M_bind at 1, getS at 1.
    assert (Hg : (bool_decide (is_Some (still_frame_ x2)) || bool_decide (is_Some (sample_ x2))) = true)
      by (rewrite (bool_decide_true (is_Some (sample_ x2))) by (by eexists); apply orb_true_r).
    rewrite Hg. unfold mbind at 1, M_bind at 1, lift at 1. simpl assert_. cbv iota.
    change (out_url_ x2) with (out_url_ x1). rewrite Ho, Hsch, Hfd. rewrite bool_decide_true by done. simpl default.
    unfold with_guard, write_to, mbind, M_bind, getS. simpl. rewrite F1, Hd.
    unfold write_all, mbind, M_bind, getS, append_output, modify. simpl. rewrite Hw, Nat.eqb_refl. simpl. rewrite Wr.
    by destruct (fd =? -1). }
  rewrite Hwi. set (x3 := if fd =? -1 then _ else _).
  assert (W3 : wf x3) by (unfold x3; destruct (fd =? -1); (split; [exact Hh|exact Mw])).
  assert (R3 : written x3 = [(fd, d)]) by (unfold x3; by destruct (fd =? -1)).
  assert (R : runs (fun _ => False) (fun _ => False) reset (fun _ x => written x = [(fd, d)]) x3).
  { apply reset_clean; [done|intros w H; by apply Hnull in H|]. by intros x' _ _ _ -> _. }
  unfold runs in R. unfold destroy. destruct (reset x3) as [x4 [[]|e|f]]; [by exists x4|by destruct R|done].
Qed.

(** C25. Art crosses the processes unchanged.  When the service runs vs-thumb with
    the descriptor of a pipe, and without timeouts or pipe errors the pipe
    delivers what vs-thumb wrote, [ImageExtractor::read()] has one answer for
    each end of vs-thumb: exactly the bytes written if it succeeds, a failed
    pipeline if it reports an error, a crash if the process stops at one of the
    places of [stops]; and never that there is no artwork.  For a file with
    embedded art, a buffer that can be mapped, a pipe that takes all bytes and a
    pipeline that can be stopped, vs-thumb succeeds and these are the bytes of
    the best image - a front cover rather than an image of unknown type, full
    size rather than preview. *)
Theorem art_crosses_process p made progname args i o fd errtext share es rs file tmo utildir pid :
  check_arguments progname args i o = None -> scheme o = "fd" -> path_toInt o = Some fd ->
  forallb ImageExtractor.quiet es = true -> ImageExtractor.no_read_error rs = true ->
  let x := (extract open_out writes p made i o).1 in
  let r := (extract open_out writes p made i o).2 in
  fold_right (fun e d => ImageExtractor.event_data e +:+ d) (ImageExtractor.delivered rs) es = output_on fd (written x) ->
  let s := ImageExtractor.processFinished errtext (exit_of (main open_out writes p made progname args i o)) rs
             (ImageExtractor.run errtext es (ImageExtractor.extract share utildir pid (ImageExtractor.init file tmo))) in
  ImageExtractor.finished_signals s = 1 /\
  (ImageExtractor.read s).2 =
    match r with
    | Ok _ => Ok (output_on fd (written x))
    | Throw _ => Throw (runtime_error ("ImageExtractor::read(): extractor pipeline failed for " +:+ file))
    | Crash _ => Throw (runtime_error ("ImageExtractor::read(): " +:+ ImageExtractor.exe_path share utildir +:+ " crashed"))
    end /\
  (forall f, r = Crash f -> stops f) /\
  forall x1 tags art d, made = (true, true, true) -> set_urls i o (fresh p) = (x1, Ok tt) ->
    audio_tags (playbin x1) = Some tags -> best tags = Some art -> sample_data art = Some d ->
    (forall n b, writes n b = inr (String.length b)) -> (forall w, ~ null_fails w) ->
    r = Ok tt /\ (ImageExtractor.read s).2 = Ok d.
Proof.
  intros Hc Hsch Hfd Hq Hr. pose proof (extract_std p made i o) as Hstd.
  destruct (extract open_out writes p made i o) as [x r] eqn:Ex. cbn [fst snd]. intros Hpipe. cbn zeta.
  set (st := exit_of _). destruct (ImageExtractor.extraction_result errtext share es st rs file tmo utildir pid Hq Hr) as [Hf ->].
  assert (Hst : st = match r with Ok _ => ImageExtractor.NormalExit 0 | Throw _ => ImageExtractor.NormalExit 2 | Crash _ => ImageExtractor.CrashExit end).
  { unfold st, main. rewrite Hc, Ex. simpl. destruct r as [|e|]; [done| |done]. by rewrite Hstd. }
  split; [done|]. rewrite Hst, Hpipe. split; [by destruct r as [[]|e|f]|].
  split; [intros f ->; pose proof (extract_outcome p made i o) as H; by rewrite Ex in H|].
  intros x1 tags art d -> H1 H2 H3 H4 H5 H6. destruct (art_written i o p x1 tags art d fd) as (x' & Hx & Hw); try done.
  rewrite Ex in Hx. injection Hx as <- ->. split; [done|]. rewrite Hw. simpl. rewrite Z.eqb_refl, app_nil_s. done.
Qed.
End Writing.
End Extractor.

(** ** Witnesses *)

(** A file with an image of unknown type, a preview of the front cover and
    a video of 70 seconds, rotated; [W] is whether it has audio tags. *)
#[export] Instance small_media : MediaLibs bool string := {
  gst_element_set_state st w := (w, match st with GST_STATE_NULL => GST_STATE_CHANGE_SUCCESS | _ => GST_STATE_CHANGE_ASYNC end,
                                 [GST_MESSAGE_ASYNC_DONE false; GST_MESSAGE_ASYNC_DONE true; GST_MESSAGE_ERROR "late"]);
  set_uri _ w := w;
  gst_element_query_duration _ := Some 70000000000;
  n_video _ := 1;
  gst_element_seek_simple _ w := w;
  convert_sample w := (w, Some 9%nat);
  audio_tags w := if w then Some (mkTags [mkTagImage 1 (Some (Some (other_image_type 5))); mkTagImage 2 None]
                                         [mkTagImage 3 (Some (Some GST_TAG_IMAGE_TYPE_FRONT_COVER))]) else None;
  video_tags _ := Some (Some "rotate-90");
  sample_caps _ := Some (5, 4);
  sample_data s := Some (if Nat.eqb s 3 then "front" else "raw");
  pixbuf_from_data d w h stride := d +:+ to_string stride;
  pixbuf_rotate img r := Some (img +:+ "r");
  pixbuf_to_tiff img := (["tiff:"; img], None);
  pixbuf_decode d := inr (Some d)
}.

Definition file_url : QUrl := mkUrl true "file" "/m.mp4" None "/m.mp4" "file:///m.mp4".
Definition pipe_url : QUrl := mkUrl true "fd" "1" (Some 1) "" "fd:1".
Definition no_open (_ : string) : string + Z := inl "EACCES".
Definition all_written (n : nat) (b : string) : string + nat := inr (String.length b).

Lemma extract_releases_witness :
  (let '(x, r) := extract no_open all_written false (true, true, true) file_url pipe_url in
   match r with
   | Ok _ => released x
   | Throw e => is_std e = true /\ released x
   | Crash f => stops f
   end) /\
  main no_open all_written false (true, true, true) "vs-thumb" ["vs-thumb"; "file:///m.mp4"; "fd:1"] file_url pipe_url = Ok (0, "").
Proof.
  split; [|reflexivity].
  apply (extract_releases no_open all_written false (true, true, true) "vs-thumb" [] file_url pipe_url).
Defined.

Example frame_output :
  written (extract no_open all_written false (true, true, true) file_url pipe_url).1 = [(1, "tiff:"); (1, "raw16r")].
Proof. by vm_compute. Qed.

Lemma art_crosses_process_witness :
  let s := ImageExtractor.processFinished ImageExtractor.text
      (exit_of (main no_open all_written true (true, true, true) "vs-thumb" ["vs-thumb"; "file:///m.mp4"; "fd:1"] file_url pipe_url))
      [ImageExtractor.Data "nt"; ImageExtractor.Eof]
      (ImageExtractor.run ImageExtractor.text [ImageExtractor.Started; ImageExtractor.PipeReadable [ImageExtractor.Data "fro"]]
         (ImageExtractor.extract "/usr" None 7 (ImageExtractor.init "/m.mp4" 100))) in
  ImageExtractor.finished_signals s = 1 /\ (ImageExtractor.read s).2 = Ok "front".
Proof.
  pose proof (art_crosses_process no_open all_written true (true, true, true) "vs-thumb"
    ["vs-thumb"; "file:///m.mp4"; "fd:1"] file_url pipe_url 1 ImageExtractor.text "/usr"
    [ImageExtractor.Started; ImageExtractor.PipeReadable [ImageExtractor.Data "fro"]]
    [ImageExtractor.Data "nt"; ImageExtractor.Eof] "/m.mp4" 100 None 7
    ltac:(vm_compute; reflexivity) ltac:(reflexivity) ltac:(reflexivity) ltac:(reflexivity) ltac:(reflexivity)
    ltac:(vm_compute; reflexivity)) as (H1 & H2 & _).
  cbn zeta. split; [exact H1|]. rewrite H2. vm_compute. reflexivity.
Defined.

(** Another file, without art or rotation. *)
#[local] Instance unrotated_media : MediaLibs bool string := {
  gst_element_set_state := gst_element_set_state (MediaLibs := small_media);
  set_uri _ w := w;
  gst_element_query_duration _ := None;
  n_video _ := 1;
  gst_element_seek_simple _ w := w;
  convert_sample w := (w, Some 9%nat);
  audio_tags _ := None;
  video_tags _ := None;
  sample_caps _ := Some (5, 4);
  sample_data _ := Some "raw";
  pixbuf_from_data d w h stride := d;
  pixbuf_rotate _ _ := None;
  pixbuf_to_tiff img := ([img], None);
  pixbuf_decode d := inr (Some d)
}.

(** A second frame without a reset in between: the mapping of the first is gone
    before its pixbuf is, whose callback then unmaps the second. *)
Definition two_frames : M ThumbnailExtractor unit :=
  _ ← set_urls file_url pipe_url; _ ← extract_video_frame; _ ← extract_video_frame; write_image no_open all_written.

Example second_frame_unmapped :
  (two_frames (fresh false)).2 = Crash (Undefined "pixels of an unmapped buffer").
Proof. by vm_compute. Qed.
End VsThumb.
