(* ===== verification/ResourcePtr.v ===== *)
(** * Owners of foreign resources (src/include/internal/ResourcePtr.h, raii.h)

    The operations of [ResourcePtr] on a store of handles, with the resources
    given back to their deleters.  A handle is named by its address; the mutex of
    a handle, held during every operation, makes each of them one step, as
    ResourceLocks.v shows. *)

From S2P Require Import Prelude.

Module ResourcePtr.

Section Defs.
Context {R D : Type} `{EqDecision R, EqDecision D}.
(** The value of a default-constructed resource; what a deleter throws when it is
    called with a resource. *)
Context (default_resource : R) (throws : D -> R -> option exn).

Record ResourcePtr : Type := mkPtr { resource_ : R; delete_ : D; initialized_ : bool }.

(** The handles that are alive, the calls of deleters so far, and the resources
    [release()] has returned, with the deleter they had. *)
Record Store : Type := mkStore {
  handles : gmap nat ResourcePtr;
  freed : list (D * R);
  released : list (D * R)
}.

Definition with_handles (h : gmap nat ResourcePtr) (s : Store) : Store := mkStore h (freed s) (released s).

(** The handle at [i]; using one outside its lifetime is undefined. *)
Definition deref (i : nat) : M Store ResourcePtr := fun s =>
  match handles s !! i with Some p => (s, Ok p) | None => (s, Crash (Undefined "ResourcePtr: lifetime")) end.
Definition update (i : nat) (p : ResourcePtr) : M Store unit := modify (fun s => with_handles (<[i := p]> (handles s)) s).

(** A new handle, where none is. *)
Definition place (i : nat) (p : ResourcePtr) : M Store unit := fun s =>
  match handles s !! i with
  | None => (with_handles (<[i := p]> (handles s)) s, Ok tt)
  | Some _ => (s, Crash (Undefined "ResourcePtr: lifetime"))
  end.

Definition call_deleter (d : D) (r : R) : M Store unit :=
  _ ← modify (fun s => mkStore (handles s) (freed s ++ [(d, r)]) (released s));
  match throws d r with Some e => throw e | None => mret tt end.

Definition set_initialized (b : bool) (p : ResourcePtr) : ResourcePtr := mkPtr (resource_ p) (delete_ p) b.

(** [ResourcePtr(D)], [ResourcePtr(R, D)] and the move constructor. *)
Definition construct (i : nat) (d : D) : M Store unit := place i (mkPtr default_resource d false).
Definition construct_with (i : nat) (r : R) (d : D) : M Store unit := place i (mkPtr r d true).
Definition move_construct (i j : nat) : M Store unit :=
  r ← deref j;
  _ ← update j (set_initialized false r);
  place i r.

(** [operator=(ResourcePtr&&)]; [r] may be the same object. *)
Definition move_assign (i j : nat) : M Store unit :=
  p ← deref i;
  _ ← (if initialized_ p then _ ← update i (set_initialized false p); call_deleter (delete_ p) (resource_ p) else mret tt);
  r ← deref j;
  _ ← update i (mkPtr (resource_ r) (delete_ p) (initialized_ r));
  r ← deref j;
  _ ← update j (set_initialized false r);
  p ← deref i;
  r ← deref j;
  update i (mkPtr (resource_ p) (delete_ r) (initialized_ p)).

Definition dealloc (i : nat) : M Store unit :=
  p ← deref i;
  if negb (initialized_ p) then mret tt
  else _ ← update i (set_initialized false p); call_deleter (delete_ p) (resource_ p).

(** The destructor; exceptions of the deleter are dropped. *)
Definition destroy (i : nat) : M Store unit :=
  _ ← catchM (dealloc i) (fun _ => mret tt);
  modify (fun s => with_handles (delete i (handles s)) s).

Definition swap (i j : nat) : M Store unit :=
  if Nat.eqb i j then mret tt
  else
    p ← deref i;
    q ← deref j;
    _ ← update i q;
    update j p.

Definition reset (i : nat) (r : R) : M Store unit :=
  p ← deref i;
  _ ← update i (mkPtr r (delete_ p) true);
  if initialized_ p then call_deleter (delete_ p) (resource_ p) else mret tt.

Definition release (i : nat) : M Store R :=
  p ← deref i;
  if negb (initialized_ p) then throw (logic_error "release() called on ResourcePtr without resource")
  else
    _ ← update i (set_initialized false p);
    _ ← modify (fun s => mkStore (handles s) (freed s) (released s ++ [(delete_ p, resource_ p)]));
    mret (resource_ p).

Definition get (i : nat) : M Store R :=
  p ← deref i;
  if negb (initialized_ p) then throw (logic_error "get() called on ResourcePtr without resource") else mret (resource_ p).

Definition has_resource (i : nat) : M Store bool := p ← deref i; mret (initialized_ p).

(** *** Comparison *)

(** [R]'s [operator==] and [operator<]. *)
Context (eqb ltb : R -> R -> bool).

(** The handles [l] and [r]; [same] if they are one object. *)
Definition eq (same : bool) (l r : ResourcePtr) : bool :=
  if same then true
  else if negb (initialized_ l) then negb (initialized_ r)
  else if negb (initialized_ r) then false
  else eqb (resource_ l) (resource_ r).
Definition ne (same : bool) (l r : ResourcePtr) : bool := negb (eq same l r).
Definition lt (same : bool) (l r : ResourcePtr) : bool :=
  if same then false
  else if negb (initialized_ l) then initialized_ r
  else if negb (initialized_ r) then false
  else ltb (resource_ l) (resource_ r).
Definition le (same : bool) (l r : ResourcePtr) : bool :=
  if same then true else ltb (resource_ l) (resource_ r) || eqb (resource_ l) (resource_ r).
Definition gt (same : bool) (l r : ResourcePtr) : bool := negb (le same l r).
Definition ge (same : bool) (l r : ResourcePtr) : bool := negb (lt same l r).

(** *** Programs *)

Inductive op : Type :=
  | Construct (i : nat) (d : D)
  | ConstructWith (i : nat) (r : R) (d : D)
  | MoveConstruct (i j : nat)
  | MoveAssign (i j : nat)
  | Destroy (i : nat)
  | Swap (i j : nat)
  | Reset (i : nat) (r : R)
  | Release (i : nat)
  | Dealloc (i : nat).

Definition exec (o : op) : M Store unit :=
  match o with
  | Construct i d => construct i d
  | ConstructWith i r d => construct_with i r d
  | MoveConstruct i j => move_construct i j
  | MoveAssign i j => move_assign i j
  | Destroy i => destroy i
  | Swap i j => swap i j
  | Reset i r => reset i r
  | Release i => _ ← release i; mret tt
  | Dealloc i => dealloc i
  end.

(** A program that handles every exception and goes on. *)
Fixpoint run (ops : list op) (s : Store) : outcome Store :=
  match ops with
  | [] => Ok s
  | o :: ops =>
      match exec o s with
      | (s, Crash c) => Crash c
      | (s, _) => run ops s
      end
  end.

(** ** Lemmas *)

(** The pair (deleter, resource) a step hands over to a handle. *)
Definition acquired (o : op) (s : Store) : list (D * R) :=
  match o with
  | ConstructWith _ r d => [(d, r)]
  | Reset i r => match handles s !! i with Some p => [(delete_ p, r)] | None => [] end
  | _ => []
  end.

Definition holds (x : D * R) (p : ResourcePtr) : bool := initialized_ p && bool_decide ((delete_ p, resource_ p) = x).
Definition count (x : D * R) (l : list (D * R)) : Z := Z.of_nat (length (filter (fun y => y = x) l)).

(** In how many places [x] is: handles that hold it, calls of its deleter, and
    returns of [release()]. *)
Definition places (x : D * R) (s : Store) : Z :=
  map_count (holds x) (handles s) + count x (freed s) + count x (released s).

Lemma count_app x l l' : count x (l ++ l') = count x l + count x l'.
Proof. unfold count. rewrite filter_app, length_app. lia. Qed.

Lemma count_one x y : count x [y] = Z.b2z (bool_decide (y = x)).
Proof. unfold count. rewrite filter_cons, filter_nil. by case_decide; case_bool_decide. Qed.

Lemma holds_off x p : holds x (set_initialized false p) = false.
Proof. done. Qed.

Lemma holds_on x p : initialized_ p = true -> Z.b2z (holds x p) = count x [(delete_ p, resource_ p)].
Proof. intros Hp. rewrite count_one. unfold holds. by rewrite Hp. Qed.

Lemma holds_not x p : initialized_ p = false -> holds x p = false.
Proof. intros Hp. unfold holds. by rewrite Hp. Qed.

Implicit Types (s : Store) (x : D * R).

Lemma places_update x s i p q : handles s !! i = Some p ->
  places x (with_handles (<[i := q]> (handles s)) s) = places x s - Z.b2z (holds x p) + Z.b2z (holds x q).
Proof. intros Hi. unfold places. simpl. rewrite (map_count_update _ _ _ _ _ Hi). lia. Qed.

Lemma places_insert x s i q : handles s !! i = None ->
  places x (with_handles (<[i := q]> (handles s)) s) = places x s + Z.b2z (holds x q).
Proof. intros Hi. unfold places. simpl. rewrite map_count_insert by done. lia. Qed.

Lemma places_delete x s i p : handles s !! i = Some p ->
  places x (with_handles (delete i (handles s)) s) = places x s - Z.b2z (holds x p).
Proof. intros Hi. unfold places. simpl. rewrite (map_count_delete _ _ _ _ Hi). lia. Qed.

Lemma places_freed x s d r :
  places x (mkStore (handles s) (freed s ++ [(d, r)]) (released s)) = places x s + count x [(d, r)].
Proof. unfold places. simpl. rewrite count_app. lia. Qed.

Lemma places_released x s d r :
  places x (mkStore (handles s) (freed s) (released s ++ [(d, r)])) = places x s + count x [(d, r)].
Proof. unfold places. simpl. rewrite count_app. lia. Qed.

(** The deleter runs once, and its exception is the only one. *)
Lemma call_deleter_run d r s : call_deleter d r s =
  (mkStore (handles s) (freed s ++ [(d, r)]) (released s), match throws d r with Some e => Throw e | None => Ok tt end).
Proof. unfold call_deleter, mbind, M_bind, modify. by destruct (throws d r). Qed.

(** [i] held [p]; it is let go and its deleter called. *)
Definition let_go (i : nat) (p : ResourcePtr) s : Store :=
  if initialized_ p
  then mkStore (<[i := set_initialized false p]> (handles s)) (freed s ++ [(delete_ p, resource_ p)]) (released s)
  else s.

Lemma places_let_go x i p s : handles s !! i = Some p -> places x (let_go i p s) = places x s.
Proof.
  intros Hi. unfold let_go. destruct (initialized_ p) eqn:E; [|done].
  change (mkStore (<[i := set_initialized false p]> (handles s)) (freed s ++ [(delete_ p, resource_ p)]) (released s))
    with (with_handles (<[i := set_initialized false p]> (handles (mkStore (handles s) (freed s ++ [(delete_ p, resource_ p)]) (released s))))
            (mkStore (handles s) (freed s ++ [(delete_ p, resource_ p)]) (released s))).
  rewrite (places_update x _ i p) by done. rewrite places_freed, holds_on by done. simpl. lia.
Qed.

Lemma let_go_lookup i p s : handles s !! i = Some p ->
  handles (let_go i p s) !! i = Some (set_initialized false p) /\
  forall j, j <> i -> handles (let_go i p s) !! j = handles s !! j.
Proof.
  intros Hi. unfold let_go. destruct (initialized_ p) eqn:E; simpl.
  - split; [by rewrite lookup_insert_eq|]. intros j Hj. by rewrite lookup_insert_ne.
  - split; [rewrite Hi; destruct p; simpl in *; by rewrite E|done].
Qed.

(** Whatever the step is, nothing is lost and nothing is freed twice. *)
Definition conserves (m : M Store unit) (a : list (D * R)) s : Prop :=
  match m s with
  | (s', Crash _) => True
  | (s', _) => forall x, places x s' = places x s + count x a
  end.

Lemma count_nil x : count x [] = 0.
Proof. done. Qed.

Lemma dealloc_run i s :
  match handles s !! i with
  | None => exists f, (dealloc i s).2 = Crash f
  | Some p => (dealloc i s).1 = let_go i p s /\
              ((dealloc i s).2 = Ok tt \/ initialized_ p = true /\ exists e, (dealloc i s).2 = Throw e)
  end.
Proof.
  unfold dealloc, deref, mbind, M_bind. destruct (handles s !! i) as [p|] eqn:E; [|by eexists].
  destruct (initialized_ p) eqn:Ei; simpl; unfold let_go; rewrite Ei; [|by auto].
  rewrite call_deleter_run. simpl. split; [done|]. destruct (throws _ _); eauto.
Qed.

Lemma dealloc_conserves i s : conserves (dealloc i) [] s.
Proof.
  unfold conserves. pose proof (dealloc_run i s) as H. destruct (dealloc i s) as [s' r]. simpl in H.
  destruct (handles s !! i) as [p|] eqn:E; [|by destruct H as [f ->]].
  destruct H as [-> _]. destruct r; try done; intros x; rewrite places_let_go by done; rewrite count_nil; lia.
Qed.

Lemma destroy_conserves i s : conserves (destroy i) [] s.
Proof.
  unfold conserves, destroy, catchM, mbind, M_bind. pose proof (dealloc_run i s) as H. destruct (dealloc i s) as [s1 r]. simpl in H.
  destruct (handles s !! i) as [p|] eqn:E; [|by destruct H as [f ->]].
  destruct H as [-> Hr]. assert (Hx : forall x, places x (with_handles (delete i (handles (let_go i p s))) (let_go i p s)) = places x s + count x []).
  { intros x. destruct (let_go_lookup i p s E) as [Hl _]. rewrite (places_delete x _ i _ Hl), places_let_go by done.
    rewrite holds_off, count_nil. simpl. lia. }
  by destruct Hr as [-> |[_ [e ->]]].
Qed.

Lemma place_conserves i p s : conserves (place i p) (if initialized_ p then [(delete_ p, resource_ p)] else []) s.
Proof.
  unfold conserves, place. destruct (handles s !! i) as [|] eqn:E; [done|]. intros x. rewrite places_insert by done.
  destruct (initialized_ p) eqn:Ei; [by rewrite holds_on|by rewrite holds_not].
Qed.

Lemma move_construct_conserves i j s : conserves (move_construct i j) [] s.
Proof.
  unfold conserves, move_construct, mbind, M_bind, deref, update, modify, place.
  destruct (handles s !! j) as [r|] eqn:Ej; [|done]. simpl.
  destruct (<[j := _]> (handles s) !! i) as [|] eqn:Ei; [done|]. intros x.
  set (s1 := with_handles (<[j := set_initialized false r]> (handles s)) s).
  change (places x (with_handles (<[i := r]> (handles s1)) s1) = places x s + count x []).
  rewrite places_insert by done. unfold s1. rewrite (places_update x s j r) by done. rewrite holds_off, count_nil. simpl. lia.
Qed.

Lemma swap_conserves i j s : conserves (swap i j) [] s.
Proof.
  unfold conserves, swap. destruct (Nat.eqb_spec i j) as [|Hij]; [intros x; rewrite count_nil; simpl; lia|].
  unfold mbind, M_bind, deref, update, modify. destruct (handles s !! i) as [p|] eqn:Ei; [|done].
  destruct (handles s !! j) as [q|] eqn:Ej; [|done]. intros x.
  set (s1 := with_handles (<[i := q]> (handles s)) s). change (places x (with_handles (<[j := p]> (handles s1)) s1) = places x s + count x []).
  rewrite (places_update x s1 j q) by (unfold s1; simpl; by rewrite lookup_insert_ne).
  unfold s1. rewrite (places_update x s i p) by done. rewrite count_nil. lia.
Qed.

(** The part of [operator=] after the old resource is gone. *)
Definition transfer (i j : nat) (p : ResourcePtr) : M Store unit :=
  r ← deref j;
  _ ← update i (mkPtr (resource_ r) (delete_ p) (initialized_ r));
  r ← deref j;
  _ ← update j (set_initialized false r);
  p ← deref i;
  r ← deref j;
  update i (mkPtr (resource_ p) (delete_ r) (initialized_ p)).

Lemma transfer_conserves i j p s : handles s !! i = Some (set_initialized false p) -> conserves (transfer i j p) [] s.
Proof.
  intros Hi. unfold conserves, transfer, mbind, M_bind, deref, update, modify.
  destruct (handles s !! j) as [r|] eqn:Ej; [|done]. simpl.
  destruct (decide (i = j)) as [<-|Hij].
  - rewrite Hi in Ej. injection Ej as <-. rewrite !lookup_insert_eq. simpl. rewrite !lookup_insert_eq. simpl.
    rewrite !insert_insert_eq. intros x.
    match goal with |- places x (with_handles (<[i := ?q]> _) _) = _ =>
      change (places x (with_handles (<[i := q]> (handles s)) s) = places x s + count x []) end.
    rewrite (places_update x s i _ _ Hi). rewrite !holds_not by done. rewrite count_nil. simpl. lia.
  - rewrite lookup_insert_ne, Ej by done. simpl. rewrite !lookup_insert_ne by done. rewrite lookup_insert_eq. simpl.
    rewrite lookup_insert_eq. simpl. intros x. rewrite (insert_insert_ne _ i j), insert_insert_eq by done.
    set (q := mkPtr (resource_ r) (delete_ r) (initialized_ r)). set (s1 := with_handles (<[i := q]> (handles s)) s).
    change (places x (with_handles (<[j := set_initialized false r]> (handles s1)) s1) = places x s + count x []).
    rewrite (places_update x s1 j r) by (unfold s1; simpl; by rewrite lookup_insert_ne).
    unfold s1. rewrite (places_update x s i _ q Hi). rewrite !holds_off, count_nil.
    replace q with r by by destruct r. simpl. lia.
Qed.

Lemma move_assign_conserves i j s : conserves (move_assign i j) [] s.
Proof.
  unfold conserves, move_assign, mbind at 1, M_bind at 1, deref at 1. destruct (handles s !! i) as [p|] eqn:Ei; [|done].
  fold (transfer i j p). unfold mbind at 1, M_bind at 1.
  assert (Hgo : exists r, (if initialized_ p then _ ← update i (set_initialized false p); call_deleter (delete_ p) (resource_ p) else mret ()) s
              = (let_go i p s, r) /\ (r = Ok tt \/ exists e, r = Throw e)).
  { unfold let_go. destruct (initialized_ p); [|eexists; split; [done|by left]].
    unfold mbind, M_bind, update, modify. rewrite call_deleter_run. eexists. split; [done|].
    destruct (throws _ _); eauto. }
  destruct Hgo as (r & -> & Hr). destruct Hr as [-> |[e ->]].
  - destruct (let_go_lookup i p s Ei) as [Hl _]. pose proof (transfer_conserves i j p _ Hl) as H. unfold conserves in H.
    destruct (transfer i j p (let_go i p s)) as [s2 [[]|e|f]]; [| |done]; intros x; rewrite H; by rewrite places_let_go.
  - intros x. rewrite places_let_go by done. rewrite count_nil. lia.
Qed.

Lemma reset_conserves i r s : conserves (reset i r) (acquired (Reset i r) s) s.
Proof.
  unfold conserves, reset, acquired, mbind, M_bind, deref, update, modify. destruct (handles s !! i) as [p|] eqn:Ei; [|done]. simpl.
  set (q := mkPtr r (delete_ p) true).
  assert (Hq : forall x, Z.b2z (holds x q) = count x [(delete_ p, r)]) by (intros x; by rewrite holds_on).
  destruct (initialized_ p) eqn:E.
  - rewrite call_deleter_run. simpl.
    assert (Hx : forall x, places x (mkStore (<[i := q]> (handles s)) (freed s ++ [(delete_ p, resource_ p)]) (released s)) =
                   places x s + count x [(delete_ p, r)]).
    { intros x. set (s1 := mkStore (handles s) (freed s ++ [(delete_ p, resource_ p)]) (released s)).
      change (places x (with_handles (<[i := q]> (handles s1)) s1) = places x s + count x [(delete_ p, r)]).
      rewrite (places_update x s1 i p) by done. unfold s1. rewrite places_freed, Hq, holds_on by done. lia. }
    by destruct (throws _ _).
  - intros x. rewrite (places_update x s i p) by done. rewrite (holds_not x p), Hq by done. simpl. lia.
Qed.

Lemma release_conserves i s : conserves (_ ← release i; mret tt) [] s.
Proof.
  unfold conserves, release, mbind, M_bind, deref, update, modify. destruct (handles s !! i) as [p|] eqn:Ei; [|done].
  destruct (initialized_ p) eqn:E; simpl; [|intros x; rewrite count_nil; lia]. intros x.
  set (s1 := mkStore (handles s) (freed s) (released s ++ [(delete_ p, resource_ p)])).
  change (places x (with_handles (<[i := set_initialized false p]> (handles s1)) s1) = places x s + count x []).
  rewrite (places_update x s1 i p) by done. unfold s1. rewrite places_released, holds_on, holds_off, count_nil by done. simpl. lia.
Qed.

Lemma exec_conserves o s : conserves (exec o) (acquired o s) s.
Proof.
  destruct o as [i d|i r d|i j|i j|i|i j|i r|i|i]; simpl.
  - apply (place_conserves i (mkPtr default_resource d false)).
  - apply (place_conserves i (mkPtr r d true)).
  - apply move_construct_conserves.
  - apply move_assign_conserves.
  - apply destroy_conserves.
  - apply swap_conserves.
  - apply reset_conserves.
  - apply release_conserves.
  - apply dealloc_conserves.
Qed.

(** Everything a program hands over to handles. *)
Fixpoint acquired_all (ops : list op) (s : Store) : list (D * R) :=
  match ops with
  | [] => []
  | o :: ops => acquired o s ++ acquired_all ops (exec o s).1
  end.

Lemma run_conserves ops : forall s s' x, run ops s = Ok s' -> places x s' = places x s + count x (acquired_all ops s).
Proof.
  induction ops as [|o ops IH]; intros s s' x; simpl; [intros [= ->]; rewrite count_nil; lia|].
  pose proof (exec_conserves o s) as H. unfold conserves in H. rewrite count_app.
  destruct (exec o s) as [s1 [[]|e|f]]; [| |done]; intros Hr; rewrite (IH _ _ x Hr), H; simpl; lia.
Qed.

(** ** Properties *)

Definition empty_store : Store := mkStore ∅ [] [].

(** C28. Every resource handed to a [ResourcePtr] ends in one place.  Whatever
    a program does with handles - moves, swaps, resets, releases, deleters that
    throw, assignments of a handle to itself -, a resource together with its
    deleter is held by handles, was passed to that deleter or was released to the
    caller, as often in total as it was handed over.  So when the last handle is
    gone each resource has been given to its deleter exactly once unless it was
    released: none leaks and none is freed twice. *)
Theorem resource_freed_once ops s' x :
  run ops empty_store = Ok s' ->
  map_count (holds x) (handles s') + count x (freed s') + count x (released s') = count x (acquired_all ops empty_store) /\
  (handles s' = ∅ -> count x (acquired_all ops empty_store) = 1 -> count x (released s') = 0 -> count x (freed s') = 1).
Proof.
  intros Hr. pose proof (run_conserves ops empty_store s' x Hr) as H.
  assert (H0 : places x empty_store = 0) by (unfold places; simpl; by rewrite map_count_empty).
  unfold places in H at 1. split; [lia|]. intros He. rewrite He, map_count_empty in H. lia.
Qed.

(** Comparison, for resources with an equality and an order: a handle
    without a resource is equal to another one without and less than any with
    one; [==], [<], [>=] and [!=] form a strict total order by resource.  [<=] and
    [>] agree with them when both handles hold a resource, but not in general:
    they read the resource of a handle that has none. *)
Theorem comparison_order p q :
  (forall a b, eqb a b = true <-> a = b) -> (forall a b, ltb a b || ltb b a || eqb a b = true) ->
  (forall a b, ltb a b = true -> ltb b a = false /\ eqb a b = false) ->
  (eq false p q = true <-> initialized_ p = initialized_ q /\ (initialized_ p = true -> resource_ p = resource_ q)) /\
  (initialized_ p = false -> lt false p q = initialized_ q) /\
  (lt false p q = true -> lt false q p = false /\ eq false p q = false) /\
  lt false p q || lt false q p || eq false p q = true /\
  (initialized_ p = true -> initialized_ q = true -> le false p q = lt false p q || eq false p q /\ gt false p q = lt false q p).
Proof.
  clear throws default_resource. intros He Ht Ha. unfold gt, le, lt, eq.
  destruct p as [r d [|]], q as [r' d' [|]]; simpl; (split; [rewrite ?He; naive_solver|]); (split; [done|]);
    (split; [try done; apply Ha|]); (split; [try done; apply Ht|]); try done.
  intros _ _. split; [done|]. specialize (Ht r r'). specialize (Ha r r') as H1. specialize (Ha r' r) as H2.
  assert (Hsym : eqb r r' = eqb r' r) by (apply eq_true_iff_eq; rewrite !He; naive_solver).
  rewrite Hsym in *. destruct (ltb r r'), (ltb r' r), (eqb r' r); naive_solver.
Qed.
End Defs.

(** ** Witnesses *)

Section Witness.
(** File descriptors with [do_close] of raii.h (0) and [do_unlink] (1), which throws. *)
Definition may_throw (d : nat) (r : Z) : option exn := if Nat.eqb d 1 then Some (runtime_error "unlink") else None.

Definition program : list (op (R := Z) (D := nat)) :=
  [ ConstructWith 1 5 0%nat; ConstructWith 2 6 1%nat; Swap 1 2; Reset 1 7; MoveAssign 2 2; MoveConstruct 3 1;
    MoveAssign 2 3; Destroy 1; Destroy 3; Release 2; Reset 2 8; Destroy 2 ].

Lemma resource_freed_once_witness : exists s',
  run (-1) may_throw program empty_store = Ok s' /\ handles s' = ∅ /\ count (1%nat, 6) (freed s') = 1.
Proof.
  eexists. split; [vm_compute; reflexivity|]. split; [reflexivity|].
  apply (resource_freed_once (-1) may_throw program); vm_compute; reflexivity.
Defined.

Lemma comparison_order_witness :
  let none := mkPtr (R := Z) (D := nat) 9 0%nat false in let some := mkPtr 4 0%nat true in
  lt Z.ltb false none some = true /\ le Z.eqb Z.ltb false none some = false.
Proof.
  destruct (comparison_order Z.eqb Z.ltb (mkPtr (R := Z) (D := nat) 9 0%nat false) (mkPtr 4 0%nat true)) as (_ & H & _).
  - intros a b. apply Z.eqb_eq.
  - intros a b. destruct (Z.ltb_spec a b), (Z.ltb_spec b a), (Z.eqb_spec a b); simpl; lia || done.
  - intros a b Hab. bsimpl. split; [apply Z.ltb_ge|apply Z.eqb_neq]; lia.
  - split; [apply H; reflexivity|reflexivity].
Defined.
End Witness.
End ResourcePtr.
