(* ===== verification/GobjPtr.v ===== *)
(** * Owners of GObjects (src/include/internal/gobj_memory.h)

    The operations of [gobj_ptr] on the handles and the reference counts of the
    objects they point to. *)

From S2P Require Import Prelude.

Module GobjPtr.

(** Objects and handles by address. *)
Notation obj := nat.

(** What GObject keeps of an object. *)
Record GObject : Type := mkObject { ref_count : Z; floating : bool }.

Record Heap : Type := mkHeap {
  objects : gmap obj GObject;
  u : gmap nat (option obj)               (* the handles alive *)
}.
Notation H := Heap.

Definition with_objects (o : gmap obj GObject) (h : H) : H := mkHeap o (u h).
Definition with_u (p : gmap nat (option obj)) (h : H) : H := mkHeap (objects h) p.

(** [g_object_ref] and [g_object_unref]; the last reference frees the object. *)
Definition g_object_ref (o : obj) : M H unit := fun h =>
  match objects h !! o with
  | Some g => (with_objects (<[o := mkObject (ref_count g + 1) (floating g)]> (objects h)) h, Ok tt)
  | None => (h, Crash (Undefined "g_object_ref"))
  end.
Definition g_object_unref (o : obj) : M H unit := fun h =>
  match objects h !! o with
  | Some g =>
      (with_objects (if ref_count g =? 1 then delete o (objects h)
                     else <[o := mkObject (ref_count g - 1) (floating g)]> (objects h)) h, Ok tt)
  | None => (h, Crash (Undefined "g_object_unref"))
  end.
Definition g_object_is_floating (o : obj) : M H bool := fun h =>
  match objects h !! o with
  | Some g => (h, Ok (floating g))
  | None => (h, Crash (Undefined "g_object_is_floating"))
  end.

Definition set_u (i : nat) (t : option obj) : M H unit := modify (fun h => with_u (<[i := t]> (u h)) h).
Definition get (i : nat) : M H (option obj) := fun h =>
  match u h !! i with Some t => (h, Ok t) | None => (h, Crash (Undefined "gobj_ptr: lifetime")) end.
Definition absent (i : nat) : M H unit := fun h =>
  match u h !! i with None => (h, Ok tt) | Some _ => (h, Crash (Undefined "gobj_ptr: lifetime")) end.

Definition validate_float (t : option obj) : M H unit :=
  match t with
  | None => mret tt
  | Some o =>
      f ← g_object_is_floating o;
      if (f : bool) then throw (invalid_argument "Tried to add a floating gobject into a gobj_ptr.") else mret tt
  end.

(** The constructor from a pointer: when the body throws there is no object, and no destructor
    that would drop the reference. *)
Definition construct (i : nat) (t : option obj) : M H unit :=
  _ ← absent i;
  _ ← set_u i t;
  catchM (validate_float t) (fun e => _ ← modify (fun h => with_u (delete i (u h)) h); throw e).

Definition move_construct (i j : nat) : M H unit :=
  _ ← absent i;
  t ← get j;
  _ ← set_u i t;
  set_u j None.

Definition reset (i : nat) (p : option obj) : M H unit :=
  t ← get i;
  _ ← match t with
      | Some o => _ ← g_object_unref o; set_u i None
      | None => mret tt
      end;
  _ ← set_u i p;
  validate_float p.

Definition copy_assign (i j : nat) : M H unit :=
  t ← get j;
  _ ← match t with Some o => g_object_ref o | None => mret tt end;
  reset i t.

(** The copy constructor delegates to the assignment; here, too, an exception
    leaves no object. *)
Definition copy_construct (i j : nat) : M H unit :=
  _ ← absent i;
  _ ← set_u i None;
  catchM (copy_assign i j) (fun e => _ ← modify (fun h => with_u (delete i (u h)) h); throw e).

Definition move_assign (i j : nat) : M H unit :=
  _ ← reset i None;
  t ← get j;
  _ ← set_u i t;
  set_u j None.

Definition assign_null (i : nat) : M H unit := reset i None.

Definition destroy (i : nat) : M H unit :=
  _ ← reset i None;
  modify (fun h => with_u (delete i (u h)) h).

Definition swap (i j : nat) : M H unit :=
  tmp ← get i;
  t ← get j;
  _ ← set_u i t;
  set_u j tmp.

Definition release (i : nat) : M H (option obj) :=
  r ← get i;
  _ ← set_u i None;
  mret r.

Definition to_bool (i : nat) : M H bool := t ← get i; mret (match t with Some _ => true | None => false end).
Definition eq (i j : nat) : M H bool := t ← get i; t' ← get j; mret (bool_decide (t = t')).

(** ** Lemmas *)

Definition count (o : obj) (h : H) : Z := match objects h !! o with Some g => ref_count g | None => 0 end.
Definition holders (o : obj) (h : H) : Z := map_count (fun t => bool_decide (t = Some o)) (u h).

(** [outside o]: the references to [o] that the program holds elsewhere. *)
Definition balanced (outside : obj -> Z) (h : H) : Prop :=
  (forall o, 0 <= outside o) /\
  (forall o g, objects h !! o = Some g -> 0 < ref_count g) /\
  (forall o, count o h = holders o h + outside o).

(** Whether the object behind a pointer floats. *)
Definition floats (t : option obj) (h : H) : bool :=
  match t ≫= fun o => objects h !! o with Some g => floating g | None => false end.

(** The objects that are left float as they did. *)
Definition same_floats (h h' : H) : Prop :=
  forall o, is_Some (objects h' !! o) -> floats (Some o) h' = floats (Some o) h.

(** One reference more or less outside. *)
Definition give (t : option obj) (outside : obj -> Z) : obj -> Z := fun o => outside o + Z.b2z (bool_decide (t = Some o)).
Definition take (t : option obj) (outside : obj -> Z) : obj -> Z := fun o => outside o - Z.b2z (bool_decide (t = Some o)).

#[export] Instance balanced_proper : Proper (pointwise_relation obj (=) ==> (=) ==> iff) balanced.
Proof.
  intros f g Hfg h ? <-. unfold balanced. split; intros (H1 & H2 & H3);
    (split; [intros o; specialize (H1 o); specialize (Hfg o); congruence|]); (split; [done|]);
    intros o; rewrite H3; specialize (Hfg o); congruence.
Qed.

(** A reference the program holds: outside, or in a handle. *)
Lemma object_there outside h o : balanced outside h -> 0 < outside o \/ 0 < holders o h ->
  exists g, objects h !! o = Some g /\ 0 < ref_count g.
Proof.
  intros (H1 & H2 & H3) Ho. specialize (H1 o). specialize (H3 o). unfold count in H3.
  assert (0 <= holders o h) by apply map_count_nonneg.
  destruct (objects h !! o) as [g|] eqn:E; [|lia]. exists g. split; [done|by eapply H2].
Qed.

Lemma holders_at outside h i o : balanced outside h -> u h !! i = Some (Some o) -> 0 < holders o h.
Proof.
  intros _ Hi. unfold holders. rewrite (map_count_delete _ _ _ _ Hi). rewrite bool_decide_true by done.
  pose proof (map_count_nonneg (fun t => bool_decide (t = Some o)) (delete i (u h))). simpl. lia.
Qed.

Lemma ref_balanced outside h o g : balanced outside h -> objects h !! o = Some g ->
  exists h', g_object_ref o h = (h', Ok tt) /\ u h' = u h /\ balanced (give (Some o) outside) h' /\
    floats (Some o) h' = floats (Some o) h.
Proof.
  intros (H1 & H2 & H3) Hg. unfold g_object_ref. rewrite Hg. eexists. split; [done|]. split; [done|].
  split; [|unfold floats; simpl; by rewrite lookup_insert_eq, Hg].
  unfold balanced, give, count, holders in *. simpl. split_and!.
  - intros o'. specialize (H1 o'). case_bool_decide; simpl; lia.
  - intros o' g'. destruct (decide (o' = o)) as [->|]; [rewrite lookup_insert_eq; intros [= <-]; simpl; specialize (H2 _ _ Hg); lia|].
    rewrite lookup_insert_ne by done. apply H2.
  - intros o'. specialize (H3 o'). case_bool_decide as E; [injection E as ->; rewrite Hg in H3; rewrite lookup_insert_eq; simpl; lia|].
    rewrite lookup_insert_ne by congruence. simpl. lia.
Qed.

Lemma unref_balanced outside h o : balanced outside h -> 0 < outside o ->
  exists h', g_object_unref o h = (h', Ok tt) /\ u h' = u h /\ balanced (take (Some o) outside) h' /\ same_floats h h'.
Proof.
  intros Hb Ho. destruct (object_there outside h o Hb (or_introl Ho)) as (g & Hg & Hp). destruct Hb as (H1 & H2 & H3).
  unfold g_object_unref. rewrite Hg. eexists. split; [done|]. split; [done|]. split.
  2: { intros o'. unfold floats. simpl. destruct (Z.eqb_spec (ref_count g) 1), (decide (o' = o)) as [->|];
         rewrite ?lookup_delete_eq, ?lookup_insert_eq, ?lookup_delete_ne, ?lookup_insert_ne, ?Hg by done; done. }
  unfold balanced, take, count, holders in *. simpl. split_and!.
  - intros o'. specialize (H1 o'). case_bool_decide as E; [injection E as ->|]; simpl; lia.
  - intros o' g'. destruct (Z.eqb_spec (ref_count g) 1) as [Eg|Eg]; (destruct (decide (o' = o)) as [->|Hne];
      [rewrite ?lookup_delete_eq, ?lookup_insert_eq|rewrite ?lookup_delete_ne, ?lookup_insert_ne by done; apply H2]); [done|].
    intros [= <-]. simpl. lia.
  - intros o'. specialize (H3 o'). case_bool_decide as E; [injection E as ->; rewrite Hg in H3|];
      destruct (Z.eqb_spec (ref_count g) 1) as [Eg|Eg];
      rewrite ?lookup_delete_eq, ?lookup_insert_eq, ?lookup_delete_ne, ?lookup_insert_ne by congruence; simpl; lia.
Qed.

(** Changing what a handle points to moves references in and out. *)
Lemma set_balanced outside h i t t' : balanced outside h -> u h !! i = Some t ->
  (forall o, t' = Some o -> t <> Some o -> 0 < outside o) ->
  balanced (take t' (give t outside)) (with_u (<[i := t']> (u h)) h).
Proof.
  intros (H1 & H2 & H3) Hi Ht. unfold balanced, take, give, count, holders in *. simpl. split_and!; [|done|].
  - intros o. specialize (H1 o). specialize (Ht o). repeat case_bool_decide; simpl; try lia. specialize (Ht ltac:(done) ltac:(done)). lia.
  - intros o. rewrite (map_count_update _ _ _ _ _ Hi). specialize (H3 o). lia.
Qed.

Lemma new_balanced outside h i t : balanced outside h -> u h !! i = None ->
  (forall o, t = Some o -> 0 < outside o) -> balanced (take t outside) (with_u (<[i := t]> (u h)) h).
Proof.
  intros (H1 & H2 & H3) Hi Ht. unfold balanced, take, count, holders in *. simpl. split_and!; [|done|].
  - intros o. specialize (H1 o). specialize (Ht o). case_bool_decide; simpl; [specialize (Ht ltac:(done))|]; lia.
  - intros o. rewrite map_count_insert by done. specialize (H3 o). lia.
Qed.

Lemma gone_balanced outside h i t : balanced outside h -> u h !! i = Some t ->
  balanced (give t outside) (with_u (delete i (u h)) h).
Proof.
  intros (H1 & H2 & H3) Hi. unfold balanced, give, count, holders in *. simpl. split_and!; [|done|].
  - intros o. specialize (H1 o). case_bool_decide; simpl; lia.
  - intros o. specialize (H3 o). rewrite (map_count_delete _ _ _ _ Hi) in H3. lia.
Qed.

Definition float_error : outcome unit := Throw (invalid_argument "Tried to add a floating gobject into a gobj_ptr.").

(** How an operation ends that stores [t]. *)
Definition checked (t : option obj) (h : H) : outcome unit := if floats t h then float_error else Ok tt.

Lemma validate_run t h : (forall o, t = Some o -> is_Some (objects h !! o)) -> validate_float t h = (h, checked t h).
Proof.
  destruct t as [o|]; intros Ho; [|done]. destruct (Ho o eq_refl) as [g Hg].
  unfold validate_float, mbind, M_bind, g_object_is_floating, checked, floats. simpl. rewrite Hg. by destruct (floating g).
Qed.

(** [reset] drops the old reference and takes over the new one, also when it
    throws because the object floats. *)
Lemma reset_balanced outside h i t p : balanced outside h -> u h !! i = Some t ->
  (forall o, p = Some o -> 0 < outside o) ->
  exists h', reset i p h = (h', checked p h) /\ balanced (take p outside) h' /\ u h' = <[i := p]> (u h).
Proof.
  intros Hb Hi Hp. unfold reset, mbind at 1, M_bind at 1, get. rewrite Hi.
  set (drop := match t with Some o => _ | None => _ end).
  assert (Hd : exists h1, drop h = (h1, Ok tt) /\ balanced outside h1 /\ u h1 = <[i := None]> (u h) /\ same_floats h h1).
  { unfold drop. destruct t as [o|].
    - pose proof (set_balanced _ _ i _ None Hb Hi ltac:(done)) as Hb0.
      destruct (unref_balanced _ _ o Hb0) as (h1 & Hu & Hu1 & Hb1 & Hs).
      { unfold take, give. rewrite (bool_decide_true (Some o = Some o)) by done. destruct Hb as (H1 & _). specialize (H1 o). simpl. lia. }
      exists (with_u (<[i := None]> (u h)) h1).
      assert (He : g_object_unref o h = (with_u (u h) h1, Ok tt)).
      { revert Hu. unfold g_object_unref. simpl. destruct (objects h !! o) as [g|]; [|done]. by intros [= <-]. }
      unfold mbind, M_bind. rewrite He. split; [done|]. split; [|by split]. simpl in Hu1.
      replace (with_u (<[i := None]> (u h)) h1) with h1 by (destruct h1; simpl in *; by rewrite <- Hu1).
      revert Hb1. apply balanced_proper; [|done]. intros o'. unfold take, give. repeat case_bool_decide; simpl; try done; lia.
    - exists h. split; [done|]. split; [done|]. by rewrite insert_id. }
  destruct Hd as (h1 & Hd & Hb1 & Hu1 & Hs). unfold mbind at 1, M_bind at 1. rewrite Hd.
  unfold mbind at 1, M_bind at 1, set_u, modify.
  pose proof (set_balanced outside h1 i None p Hb1 ltac:(rewrite Hu1; by rewrite lookup_insert_eq) ltac:(auto)) as Hb2.
  assert (Hb3 : balanced (take p outside) (with_u (<[i := p]> (u h1)) h1)).
  { revert Hb2. apply balanced_proper; [|done]. intros o. unfold take, give. by rewrite (bool_decide_false (None = Some o)), Z.add_0_r by done. }
  assert (Hu2 : <[i := p]> (u h1) = <[i := p]> (u h)) by by rewrite Hu1, insert_insert_eq.
  set (h2 := with_u _ h1) in *.
  assert (Hp1 : forall o, p = Some o -> is_Some (objects h1 !! o)).
  { intros o Ho. destruct (object_there outside h1 o Hb1 (or_introl (Hp o Ho))) as (g & Hg & _). by exists g. }
  rewrite validate_run by exact Hp1. exists h2. split; [|done]. f_equal. unfold checked.
  replace (floats p h2) with (floats p h); [done|]. destruct p as [o|]; [|done]. symmetry. by apply Hs, Hp1.
Qed.

Lemma swap_balanced outside h i j a b : balanced outside h -> i <> j -> u h !! i = Some a -> u h !! j = Some b ->
  balanced outside (with_u (<[j := a]> (<[i := b]> (u h))) h).
Proof.
  intros (H1 & H2 & H3) Hij Hi Hj. unfold balanced, count, holders in *. simpl. split_and!; [done|done|].
  intros o. rewrite (map_count_update _ _ j b a) by by rewrite lookup_insert_ne.
  rewrite (map_count_update _ _ i a b) by done. specialize (H3 o). lia.
Qed.

(** *** Steps *)

Inductive op : Type :=
  | Construct (i : nat) (t : option obj)
  | MoveConstruct (i j : nat)
  | CopyConstruct (i j : nat)
  | CopyAssign (i j : nat)
  | MoveAssign (i j : nat)
  | AssignNull (i : nat)
  | Reset (i : nat) (p : option obj)
  | Swap (i j : nat)
  | Release (i : nat)
  | Destroy (i : nat).

Definition exec (o : op) : M H unit :=
  match o with
  | Construct i t => construct i t
  | MoveConstruct i j => move_construct i j
  | CopyConstruct i j => copy_construct i j
  | CopyAssign i j => copy_assign i j
  | MoveAssign i j => move_assign i j
  | AssignNull i => assign_null i
  | Reset i p => reset i p
  | Swap i j => swap i j
  | Release i => _ ← release i; mret tt
  | Destroy i => destroy i
  end.

(** A correct use: handles within their lifetime, and a reference of one's own
    for a pointer that is handed over. *)
Definition allowed (o : op) (outside : obj -> Z) (h : H) : Prop :=
  match o with
  | Construct i t => u h !! i = None /\ forall o, t = Some o -> 0 < outside o
  | MoveConstruct i j | CopyConstruct i j => u h !! i = None /\ is_Some (u h !! j)
  | CopyAssign i j | MoveAssign i j | Swap i j => is_Some (u h !! i) /\ is_Some (u h !! j)
  | AssignNull i | Release i | Destroy i => is_Some (u h !! i)
  | Reset i p => is_Some (u h !! i) /\ forall o, p = Some o -> 0 < outside o
  end.

(** The references outside afterwards: a handle takes over the one it is given
    and [release()] gives one back.  A constructor that throws takes nothing; the
    reference that a copy constructor has made by then belongs to nobody - it is
    leaked - and is counted here, as one that no handle will drop. *)
Definition after (o : op) (outside : obj -> Z) (h : H) (r : outcome unit) : obj -> Z :=
  match o with
  | Construct _ t => if is_ok r then take t outside else outside
  | Reset _ p => take p outside
  | Release i => give (default None (u h !! i)) outside
  | CopyConstruct _ j => if is_ok r then outside else give (default None (u h !! j)) outside
  | _ => outside
  end.

(** What a handle points to. *)
Definition at_handle (j : nat) (h : H) : option obj := default None (u h !! j).

(** The pointer that an operation stores with a check, and how it ends. *)
Definition stored (o : op) (h : H) : option obj :=
  match o with
  | Construct _ t | Reset _ t => t
  | CopyConstruct _ j | CopyAssign _ j => at_handle j h
  | _ => None
  end.
Definition result (o : op) (h : H) : outcome unit := checked (stored o h) h.

(** The handles afterwards.  A constructor that throws makes none; an assignment
    or [reset()] that throws has stored the pointer all the same. *)
Definition handles (o : op) (h : H) : gmap nat (option obj) :=
  match o with
  | Construct i _ | CopyConstruct i _ => if floats (stored o h) h then u h else <[i := stored o h]> (u h)
  | CopyAssign i _ | Reset i _ => <[i := stored o h]> (u h)
  | MoveConstruct i j | MoveAssign i j => <[j := None]> (<[i := at_handle j h]> (u h))
  | AssignNull i | Release i => <[i := None]> (u h)
  | Swap i j => <[j := at_handle i h]> (<[i := at_handle j h]> (u h))
  | Destroy i => delete i (u h)
  end.

Definition step_ok (o : op) (outside : obj -> Z) (h : H) : Prop :=
  exists h', exec o h = (h', result o h) /\ balanced (after o outside h (result o h)) h' /\ u h' = handles o h.

Lemma take_give t outside : pointwise_relation obj (=) (take t (give t outside)) outside.
Proof. intros o. unfold take, give. lia. Qed.

Lemma take_none outside : pointwise_relation obj (=) (take None outside) outside.
Proof. intros o. unfold take. rewrite bool_decide_false by done. simpl. lia. Qed.

Lemma give_none outside : pointwise_relation obj (=) (give None outside) outside.
Proof. intros o. unfold give. rewrite bool_decide_false by done. simpl. lia. Qed.

Lemma checked_none h : checked None h = Ok tt.
Proof. done. Qed.

Lemma checked_cases t h : checked t h = Ok tt /\ floats t h = false \/ checked t h = float_error /\ floats t h = true.
Proof. unfold checked. destruct (floats t h); auto. Qed.

Lemma reset_none_run outside h i t : balanced outside h -> u h !! i = Some t ->
  exists h', reset i None h = (h', Ok tt) /\ balanced outside h' /\ u h' = <[i := None]> (u h).
Proof.
  intros Hb Hi. destruct (reset_balanced outside h i t None Hb Hi ltac:(done)) as (h' & Hr & Hb' & Hu).
  exists h'. by rewrite take_none in Hb'.
Qed.

Lemma construct_ok i t outside h : balanced outside h -> allowed (Construct i t) outside h -> step_ok (Construct i t) outside h.
Proof.
  intros Hb [Hi Ht]. unfold step_ok, result, handles. simpl. unfold construct, mbind at 1, M_bind at 1, absent. rewrite Hi.
  pose proof (new_balanced outside h i t Hb Hi Ht) as Hn. unfold mbind at 1, M_bind at 1, set_u, modify, catchM.
  set (h1 := with_u _ h) in *. rewrite validate_run.
  2: { intros o Ho. destruct (object_there outside h o Hb (or_introl (Ht o Ho))) as (g & Hg & _). by exists g. }
  change (checked t h1) with (checked t h). destruct (checked_cases t h) as [[-> ->]|[-> ->]]; simpl; [by eexists|].
  eexists. split; [done|]. split; [|simpl; by rewrite delete_insert_id].
  pose proof (gone_balanced _ h1 i t Hn ltac:(simpl; by rewrite lookup_insert_eq)) as Hg2.
  revert Hg2. apply balanced_proper; [|done]. intros o'. unfold take, give. lia.
Qed.

Lemma copy_assign_run i j t t' outside h : balanced outside h -> u h !! i = Some t -> u h !! j = Some t' ->
  exists h', copy_assign i j h = (h', checked t' h) /\ balanced outside h' /\ u h' = <[i := t']> (u h).
Proof.
  intros Hb Hi Hj. unfold copy_assign, mbind at 1, M_bind at 1, get. rewrite Hj.
  assert (Href : exists h1, (match t' with Some o => g_object_ref o | None => mret tt end) h = (h1, Ok tt) /\
            u h1 = u h /\ balanced (give t' outside) h1 /\ floats t' h1 = floats t' h).
  { destruct t' as [o|]; [|exists h; by rewrite give_none].
    destruct (object_there outside h o Hb) as (g & Hg & _); [right; by eapply holders_at|].
    by eapply ref_balanced. }
  destruct Href as (h1 & Hr & Hu & Hb1 & Hf). unfold mbind, M_bind. rewrite Hr.
  destruct (reset_balanced (give t' outside) h1 i t t' Hb1) as (h2 & H2 & Hb2 & Hu2); [by rewrite Hu| |].
  { intros o ->. unfold give. rewrite bool_decide_true by done. destruct Hb as (H1 & _). specialize (H1 o). simpl. lia. }
  exists h2. unfold checked in *. rewrite Hf in H2. rewrite take_give in Hb2. split; [done|]. split; [done|]. by rewrite Hu2, Hu.
Qed.

Lemma move_ok i j outside h t t' : balanced outside h -> u h !! i = Some t -> u h !! j = Some t' -> step_ok (MoveAssign i j) outside h.
Proof.
  intros Hb Hi Hj. unfold step_ok, result, at_handle. simpl. rewrite checked_none. unfold move_assign, at_handle. rewrite Hj.
  destruct (reset_none_run outside h i t Hb Hi) as (h1 & H1 & Hb1 & Hu1). unfold mbind at 1, M_bind at 1. rewrite H1.
  unfold mbind, M_bind, get, set_u, modify. rewrite Hu1. destruct (decide (i = j)) as [<-|Hij].
  - rewrite lookup_insert_eq. eexists. split; [done|]. simpl. rewrite Hu1, !insert_insert_eq. split; [|done].
    rewrite <- Hu1. by destruct h1.
  - rewrite lookup_insert_ne, Hj by done. eexists. split; [done|]. simpl. rewrite Hu1, insert_insert_eq. split; [|done].
    replace (<[j := None]> (<[i := t']> (u h))) with (<[j := None]> (<[i := t']> (u h1))) by by rewrite Hu1, insert_insert_eq.
    apply (swap_balanced outside h1 i j None t'); [done|done|by rewrite Hu1, lookup_insert_eq|].
    by rewrite Hu1, lookup_insert_ne.
Qed.

Lemma copy_construct_ok i j t outside h : balanced outside h -> u h !! i = None -> u h !! j = Some t -> step_ok (CopyConstruct i j) outside h.
Proof.
  intros Hb Hi Hj. assert (Hij : i <> j) by congruence. unfold step_ok, result, handles, after, stored, at_handle. rewrite Hj. simpl.
  unfold copy_construct, mbind at 1, M_bind at 1, absent. rewrite Hi. unfold mbind at 1, M_bind at 1, set_u, modify, catchM.
  pose proof (new_balanced outside h i None Hb Hi ltac:(done)) as Hn. rewrite take_none in Hn. set (h1 := with_u _ h) in *.
  destruct (copy_assign_run i j None t outside h1 Hn) as (h2 & H2 & Hb2 & Hu2);
    [simpl; by rewrite lookup_insert_eq|simpl; by rewrite lookup_insert_ne|].
  rewrite H2. change (checked t h1) with (checked t h). simpl in Hu2. rewrite insert_insert_eq in Hu2. clear H2.
  destruct (checked_cases t h) as [[-> ->]|[-> ->]]; simpl; [by eexists|]. eexists. split; [done|].
  split; [|simpl; by rewrite Hu2, delete_insert_id].
  apply gone_balanced; [done|]. by rewrite Hu2, lookup_insert_eq.
Qed.

Lemma step_always_ok o outside h : balanced outside h -> allowed o outside h -> step_ok o outside h.
Proof.
  intros Hb Ha. destruct o as [i t|i j|i j|i j|i j|i|i p|i j|i|i].
  - by apply construct_ok.
  - destruct Ha as [Hi [t Hj]]. assert (Hij : i <> j) by congruence. unfold step_ok, result, at_handle. simpl. unfold at_handle. rewrite checked_none, Hj.
    unfold move_construct, mbind, M_bind, absent, get, set_u, modify. rewrite Hi, Hj. eexists. split; [done|]. split; [|done]. simpl.
    pose proof (new_balanced outside h i None Hb Hi ltac:(done)) as Hn. rewrite take_none in Hn.
    apply (swap_balanced _ _ i j None t) in Hn; [|done|simpl; by rewrite lookup_insert_eq|simpl; by rewrite lookup_insert_ne].
    simpl in Hn. by rewrite insert_insert_eq in Hn.
  - destruct Ha as [Hi [t Hj]]. by eapply copy_construct_ok.
  - destruct Ha as [[t Hi] [t' Hj]]. destruct (copy_assign_run i j t t' outside h Hb Hi Hj) as (h' & Hr & Hb' & Hu).
    exists h'. unfold result, handles, stored, at_handle. by rewrite Hj.
  - destruct Ha as [[t Hi] [t' Hj]]. by eapply move_ok.
  - destruct Ha as [t Hi]. by apply (reset_none_run outside h i t Hb Hi).
  - destruct Ha as [[t Hi] Hp]. by apply (reset_balanced outside h i t p Hb Hi Hp).
  - destruct Ha as [[t Hi] [t' Hj]]. unfold step_ok, result, at_handle. simpl. unfold at_handle. rewrite checked_none, Hi, Hj.
    unfold swap, mbind, M_bind, get, set_u, modify. rewrite Hi, Hj. eexists. split; [done|]. split; [|done]. simpl.
    change (balanced outside (with_u (<[j := t]> (<[i := t']> (u h))) h)).
    destruct (decide (i = j)) as [<-|Hij]; [|by apply swap_balanced]. rewrite Hi in Hj. injection Hj as <-. rewrite !insert_id by (rewrite ?insert_id; done). by destruct h.
  - destruct Ha as [t Hi]. unfold step_ok, result. simpl. unfold release, mbind, M_bind, get, set_u, modify. rewrite checked_none, Hi.
    eexists. split; [done|]. split; [|done]. simpl.
    pose proof (set_balanced outside h i t None Hb Hi ltac:(done)) as Hs. by rewrite take_none in Hs.
  - destruct Ha as [t Hi]. unfold step_ok, result. simpl. unfold destroy. rewrite checked_none.
    destruct (reset_none_run outside h i t Hb Hi) as (h' & Hr & Hb' & Hu). unfold mbind, M_bind. rewrite Hr.
    eexists. split; [done|]. split; [|simpl; by rewrite Hu, delete_insert_eq]. simpl.
    rewrite <- give_none. apply gone_balanced; [done|]. by rewrite Hu, lookup_insert_eq.
Qed.

(** ** Properties *)

(** C30. Reference counts are right.  An operation of [gobj_ptr], used within the
    lifetime of the handles and with a reference of one's own for a pointer that
    is handed over, never touches a freed object, and afterwards every object
    has as many references as handles point to it and the program holds outside:
    so it is freed exactly when the last of these is gone.  The operation throws
    exactly if the pointer it stores is that of an object that floats, and
    [handles] says what every handle points to afterwards: a constructor that
    throws makes no handle, and its reference stays outside - it is not dropped,
    as the documentation of the class and the comment in the constructor have
    it; a [reset()] or an assignment that throws has stored the pointer, and the
    handle keeps that reference. *)
Theorem gobj_references o outside h :
  balanced outside h -> allowed o outside h ->
  exists h', exec o h = (h', if floats (stored o h) h then float_error else Ok tt) /\
    u h' = handles o h /\
    balanced (after o outside h (if floats (stored o h) h then float_error else Ok tt)) h' /\
    forall ob, is_Some (objects h' !! ob) <->
      0 < holders ob h' + after o outside h (if floats (stored o h) h then float_error else Ok tt) ob.
Proof.
  intros Hb Ha. destruct (step_always_ok o outside h Hb Ha) as (h' & He & Hb' & Hu).
  change (if floats (stored o h) h then float_error else Ok tt) with (result o h).
  exists h'. split; [done|]. split; [done|]. split; [done|]. intros ob. destruct Hb' as (H1 & H2 & H3).
  specialize (H3 ob). unfold count in H3. destruct (objects h' !! ob) as [g|] eqn:E.
  - specialize (H2 ob g E). split; [lia|by eexists].
  - split; [by intros [? [=]]|lia].
Qed.

(** ** Witnesses *)

(** An object with one reference, outside, that floats. *)
Definition floating_heap : H := mkHeap {[1%nat := mkObject 1 true]} ∅.

(** The constructor refuses it. *)
Lemma gobj_references_witness : exists h', exec (Construct 7 (Some 1%nat)) floating_heap = (h', float_error) /\
  u h' = ∅ /\ is_Some (objects h' !! 1%nat).
Proof.
  destruct (gobj_references (Construct 7 (Some 1%nat)) (fun o => if Nat.eqb o 1 then 1 else 0) floating_heap) as (h' & He & Hu & _ & Ho).
  - split_and!.
    + intros o. by destruct (Nat.eqb o 1).
    + intros o g Hg. unfold floating_heap, objects in Hg. apply lookup_singleton_Some in Hg as [_ <-]. reflexivity.
    + intros o. unfold count, holders, floating_heap, objects, u. rewrite map_count_empty.
      destruct (Nat.eqb_spec o 1) as [->|Hne]; [by rewrite lookup_singleton_eq|by rewrite lookup_singleton_ne].
  - split; [reflexivity|]. intros o [= <-]. reflexivity.
  - exists h'. split; [exact He|]. split; [exact Hu|]. apply Ho. unfold holders. rewrite Hu. reflexivity.
Defined.

(** The leak: the reference is still there after the exception. *)
Example floating_leaks : exec (Construct 7 (Some 1%nat)) floating_heap = (floating_heap, float_error).
Proof. by vm_compute. Qed.
End GobjPtr.
