(* ===== verification/ResourceLocks.v ===== *)
(** * Handles shared by threads (src/include/internal/ResourcePtr.h)

    The member functions of [ResourcePtr] access by access: the lock guard or
    [std::lock] that takes the mutexes, the reads and writes of the fields, the call
    of the deleter, the release of the mutexes.  Threads run programs of such calls on
    handles they share, one access at a time in any order.  ResourcePtr.v, where
    every call is one step, is what this implements. *)

From S2P Require Import Prelude Threads ResourcePtr.
Import Threads.

Module ResourceLocks.

Section Defs.
Context {R D : Type} `{EqDecision R, EqDecision D}.
Context (throws : D -> R -> option exn) (eqb ltb : R -> R -> bool).

Notation Ptr := (ResourcePtr.ResourcePtr (R := R) (D := D)).
Notation Store := (ResourcePtr.Store (R := R) (D := D)).

(** ** Memory *)

(** The fields of the handles, the threads that hold their mutexes, and the calls
    of deleters so far. *)
Record Memory : Type := mkMemory {
  fields : gmap nat Ptr;
  owner : gmap nat nat;
  calls : list (D * R)
}.

Inductive access_to : Type -> Type :=
  | ReadInitialized (i : nat) : access_to bool
  | ReadResource (i : nat) : access_to R
  | ReadDelete (i : nat) : access_to D
  | WriteInitialized (i : nat) (b : bool) : access_to unit
  | WriteResource (i : nat) (r : R) : access_to unit
  | WriteDelete (i : nat) (d : D) : access_to unit
  | CallDelete (d : D) (r : R) : access_to unit
  | AdoptLock (i : nat) : access_to unit.

Definition read {A} (i : nat) (f : Ptr -> A) (m : Memory) : Memory * outcome A :=
  match fields m !! i with
  | Some p => (m, Ok (f p))
  | None => (m, Crash (Undefined "ResourcePtr: lifetime"))
  end.

Definition write (i : nat) (f : Ptr -> Ptr) (m : Memory) : Memory * outcome unit :=
  match fields m !! i with
  | Some p => (mkMemory (<[i := f p]> (fields m)) (owner m) (calls m), Ok tt)
  | None => (m, Crash (Undefined "ResourcePtr: lifetime"))
  end.

(** The constructor of [LockAdopter] asserts that [try_lock()] fails: the mutex is held. *)
Definition perform (X : Type) (e : access_to X) (now : Z) : Memory -> Memory * outcome X :=
  match e in access_to Y return Memory -> Memory * outcome Y with
  | ReadInitialized i => read i ResourcePtr.initialized_
  | ReadResource i => read i ResourcePtr.resource_
  | ReadDelete i => read i ResourcePtr.delete_
  | WriteInitialized i b => write i (ResourcePtr.set_initialized b)
  | WriteResource i r => write i (fun p => ResourcePtr.mkPtr r (ResourcePtr.delete_ p) (ResourcePtr.initialized_ p))
  | WriteDelete i d => write i (fun p => ResourcePtr.mkPtr (ResourcePtr.resource_ p) d (ResourcePtr.initialized_ p))
  | CallDelete d r => fun m =>
      (mkMemory (fields m) (owner m) (calls m ++ [(d, r)]), match throws d r with Some e => Throw e | None => Ok tt end)
  | AdoptLock i => fun m =>
      (m, match owner m !! i with Some _ => Ok tt | None => Crash (AssertFailed "LockAdopter: !mutex.try_lock()") end)
  end.

Notation Th := (T access_to unit).

(** ** The member functions, between taking and releasing the mutexes *)

Definition dealloc (i : nat) : Th unit :=
  b ← access (ReadInitialized i);
  if negb b then mret tt
  else
    _ ← access (WriteInitialized i false);
    d ← access (ReadDelete i);
    r ← access (ReadResource i);
    access (CallDelete d r).

Definition saved (has_old : bool) (i : nat) : Th (option R) :=
  if has_old then o ← access (ReadResource i); mret (Some o) else mret None.

Definition reset (i : nat) (r : R) : Th unit :=
  has_old ← access (ReadInitialized i);
  old_resource ← saved has_old i;
  _ ← access (WriteResource i r);
  _ ← access (WriteInitialized i true);
  match old_resource with
  | Some o => d ← access (ReadDelete i); access (CallDelete d o)
  | None => mret tt
  end.

Definition release (i : nat) : Th R :=
  b ← access (ReadInitialized i);
  if negb b then from (Throw (logic_error "release() called on ResourcePtr without resource"))
  else
    _ ← access (WriteInitialized i false);
    access (ReadResource i).

Definition get (i : nat) : Th R :=
  b ← access (ReadInitialized i);
  if negb b then from (Throw (logic_error "get() called on ResourcePtr without resource"))
  else access (ReadResource i).

Definition has_resource (i : nat) : Th bool := access (ReadInitialized i).

(** [AdoptLock left(m_); AdoptLock right(other.m_);] *)
Definition adopt (i j : nat) : Th unit := _ ← access (AdoptLock i); access (AdoptLock j).

Definition swap (i j : nat) : Th unit :=
  if Nat.eqb i j then mret tt
  else
    _ ← adopt i j;
    r ← access (ReadResource i); r' ← access (ReadResource j);
    _ ← access (WriteResource i r'); _ ← access (WriteResource j r);
    d ← access (ReadDelete i); d' ← access (ReadDelete j);
    _ ← access (WriteDelete i d'); _ ← access (WriteDelete j d);
    b ← access (ReadInitialized i); b' ← access (ReadInitialized j);
    _ ← access (WriteInitialized i b'); access (WriteInitialized j b).

(** [f(resource_, rhs.resource_)]. *)
Definition on_resources (f : R -> R -> bool) (i j : nat) : Th bool :=
  r ← access (ReadResource i); r' ← access (ReadResource j); mret (f r r').

Definition eq (i j : nat) : Th bool :=
  if Nat.eqb i j then mret true
  else
    _ ← adopt i j;
    b ← access (ReadInitialized i);
    b' ← access (ReadInitialized j);
    if negb b then mret (negb b') else if negb b' then mret false else on_resources eqb i j.

Definition lt (i j : nat) : Th bool :=
  if Nat.eqb i j then mret false
  else
    _ ← adopt i j;
    b ← access (ReadInitialized i);
    b' ← access (ReadInitialized j);
    if negb b then mret b' else if negb b' then mret false else on_resources ltb i j.

Definition le (i j : nat) : Th bool :=
  if Nat.eqb i j then mret true
  else
    _ ← adopt i j;
    b ← on_resources ltb i j;
    if b : bool then mret true else on_resources eqb i j.

Inductive comparison : Type := EQ | NE | LT | LE | GT | GE.

Definition compare (c : comparison) (i j : nat) : Th bool :=
  match c with
  | EQ => eq i j
  | NE => b ← eq i j; mret (negb b)
  | LT => lt i j
  | LE => le i j
  | GT => b ← le i j; mret (negb b)
  | GE => b ← lt i j; mret (negb b)
  end.

(** ** Calls *)

(** The member functions for handles that other threads may be using. *)
Inductive operation : Type :=
  | Dealloc (i : nat)
  | Reset (i : nat) (r : R)
  | Release (i : nat)
  | Get (i : nat)
  | HasResource (i : nat)
  | Swap (i j : nat)
  | Compare (c : comparison) (i j : nat).

Inductive answer : Type :=
  | Done
  | Resource (r : R)
  | Bool (b : bool).

Definition body (o : operation) : Th answer :=
  match o with
  | Dealloc i => _ ← dealloc i; mret Done
  | Reset i r => _ ← reset i r; mret Done
  | Release i => r ← release i; mret (Resource r)
  | Get i => r ← get i; mret (Resource r)
  | HasResource i => b ← has_resource i; mret (Bool b)
  | Swap i j => _ ← swap i j; mret Done
  | Compare c i j => b ← compare c i j; mret (Bool b)
  end.

(** The mutexes a call takes: with [AutoLock] if it is one, with [std::lock] if two. *)
Definition locks (o : operation) : list nat :=
  match o with
  | Dealloc i | Reset i _ | Release i | Get i | HasResource i => [i]
  | Swap i j | Compare _ i j => if Nat.eqb i j then [] else [i; j]
  end.

(** The operators on two handles, as the function objects [std::equal_to],
    [std::not_equal_to], [std::less], [std::less_equal], [std::greater] and
    [std::greater_equal] call them. *)
Definition compared (c : comparison) : bool -> Ptr -> Ptr -> bool :=
  match c with
  | EQ => ResourcePtr.eq eqb
  | NE => ResourcePtr.ne eqb
  | LT => ResourcePtr.lt ltb
  | LE => ResourcePtr.le eqb ltb
  | GT => ResourcePtr.gt eqb ltb
  | GE => ResourcePtr.ge ltb
  end.

(** The same call of ResourcePtr.v. *)
Definition atomic (o : operation) : M Store answer :=
  match o with
  | Dealloc i => _ ← ResourcePtr.dealloc throws i; mret Done
  | Reset i r => _ ← ResourcePtr.reset throws i r; mret Done
  | Release i => r ← ResourcePtr.release i; mret (Resource r)
  | Get i => r ← ResourcePtr.get i; mret (Resource r)
  | HasResource i => b ← ResourcePtr.has_resource i; mret (Bool b)
  | Swap i j => _ ← ResourcePtr.swap i j; mret Done
  | Compare c i j =>
      p ← ResourcePtr.deref i;
      q ← ResourcePtr.deref j;
      mret (Bool (compared c (Nat.eqb i j) p q))
  end.

Definition operands (o : operation) : list nat :=
  match o with
  | Dealloc i | Reset i _ | Release i | Get i | HasResource i => [i]
  | Swap i j | Compare _ i j => [i; j]
  end.

(** ** Threads *)

(** [Half o a b]: [std::lock] holds [a] and is about to try [b]. *)
Inductive Phase : Type :=
  | Idle
  | Half (o : operation) (a b : nat)
  | Inside (o : operation) (m : tree access_to (unit * outcome answer))
  | Leaving (ls : list nat).

(** The calls still to make, the one under way included, and the results so far. *)
Record Thread : Type := mkThread {
  todo : list operation;
  results : list (outcome answer);
  phase : Phase
}.

Definition config : Type := Memory * gmap nat Thread.

Definition free (m : Memory) (i : nat) : bool := bool_decide (owner m !! i = None).
Definition take (t i : nat) (m : Memory) : Memory := mkMemory (fields m) (<[i := t]> (owner m)) (calls m).
Definition give (i : nat) (m : Memory) : Memory := mkMemory (fields m) (delete i (owner m)) (calls m).

Definition enter (o : operation) : Phase := Inside o (body o tt).

(** Thread [t] takes the mutexes of a call.  [std::lock] takes one of the two - the
    order is unspecified, here [swapped] - and then tries the other. *)
Definition begin_call (t : nat) (swapped : bool) (m : Memory) (o : operation) : option (Memory * Phase) :=
  match locks o with
  | [] => Some (m, enter o)
  | [i] => if free m i then Some (take t i m, enter o) else None
  | i :: j :: _ =>
      let (a, b) := if swapped then (j, i) else (i, j) in
      if free m a then Some (take t a m, Half o a b) else None
  end.

(** What thread [th], number [t], does next; [None] while it waits for a mutex or has
    nothing to do.  When the second mutex of [std::lock] is taken, the first is given
    back and it starts again. *)
Definition next (t : nat) (swapped : bool) (m : Memory) (th : Thread) : option (Memory * Thread) :=
  let go '(m', ph) := (m', mkThread (todo th) (results th) ph) in
  match phase th with
  | Idle => o ← head (todo th); go <$> begin_call t swapped m o
  | Half o a b => Some (go (if free m b then (take t b m, enter o) else (give a m, Idle)))
  | Inside o (Vis e k) => let '(m', r) := perform _ e 0 m in Some (go (m', Inside o (k r)))
  | Inside o (Ret (_, r)) => Some (m, mkThread (tail (todo th)) (results th ++ [r]) (Leaving (reverse (locks o))))
  | Leaving (i :: ls) => Some (go (give i m, Leaving ls))
  | Leaving [] => Some (go (m, Idle))
  end.

Inductive step : config -> config -> Prop :=
  | step_thread m p t th swapped m' th' :
      p !! t = Some th -> next t swapped m th = Some (m', th') ->
      step (m, p) (m', <[t := th']> p).

(** The same programs when every call is one step. *)
Definition state : Type := Store * gmap nat (list operation * list (outcome answer)).

Inductive atomic_step : state -> state -> Prop :=
  | atomic_call s p t o os rs :
      p !! t = Some (o :: os, rs) ->
      atomic_step (s, p) ((atomic o s).1, <[t := (os, rs ++ [(atomic o s).2])]> p).

Definition start (h : gmap nat Ptr) (p : gmap nat (list operation)) : config :=
  (mkMemory h ∅ [], (fun os => mkThread os [] Idle) <$> p).
Definition atomic_start (h : gmap nat Ptr) (p : gmap nat (list operation)) : state :=
  (ResourcePtr.mkStore h [] [], (fun os => (os, [])) <$> p).

(** ** One call *)

Notation exec := (run perform 0).
Notation code := (tree access_to (unit * outcome answer)).

Definition agrees (ls : list nat) (m : Memory) (s : Store) : Prop :=
  forall i, i ∈ ls -> fields m !! i = ResourcePtr.handles s !! i.
Definition live (ls : list nat) (s : Store) : Prop :=
  forall i, i ∈ ls -> is_Some (ResourcePtr.handles s !! i).
Definition held_by (t : nat) (ls : list nat) (m : Memory) : Prop :=
  forall i, i ∈ ls -> owner m !! i = Some t.

Definition touched {X} (e : access_to X) : option nat :=
  match e with
  | ReadInitialized i | ReadResource i | ReadDelete i | WriteInitialized i _ | WriteResource i _ | WriteDelete i _
  | AdoptLock i => Some i
  | CallDelete _ _ => None
  end.

(** The code touches only handles whose mutexes it has, and calls a deleter last. *)
Fixpoint confined (ls : list nat) (m : code) : Prop :=
  match m with
  | Ret _ => True
  | Vis e k =>
      match touched e with Some i => i ∈ ls | None => forall x, exists r, k x = Ret r end /\
      forall x, confined ls (k x)
  end.

Ltac confine :=
  match goal with
  | |- True => exact I
  | |- _ /\ _ => split
  | |- _ ∈ _ => set_solver
  | |- forall x : outcome bool, _ => intros [[|]|?|?]; simpl
  | |- forall x : outcome _, _ => intros [?|?|?]; simpl
  | |- exists r, _ = Ret r => eexists; reflexivity
  | |- context [if ?b then _ else _] => destruct b eqn:?; simpl
  end.

Lemma body_confined o : confined (locks o) (body o tt).
Proof.
  destruct o as [i|i r|i|i|i|i j|[] i j]; simpl; unfold swap, eq, lt, le; try destruct (Nat.eqb i j); simpl; repeat confine.
Qed.

(** The same handles with the same owners. *)
Definition same_on (ls : list nat) (m m' : Memory) : Prop :=
  forall i, i ∈ ls -> fields m !! i = fields m' !! i /\ owner m !! i = owner m' !! i.

Lemma perform_owner X (e : access_to X) m : owner (perform X e 0 m).1 = owner m.
Proof. destruct e; simpl; unfold read, write; by try destruct (fields m !! i). Qed.

Lemma perform_outside X (e : access_to X) m i : touched e <> Some i -> fields (perform X e 0 m).1 !! i = fields m !! i.
Proof.
  intros Hi. destruct e; simpl in *; unfold read, write; try destruct (fields m !! _) eqn:?; simpl; try done;
    rewrite lookup_insert_ne; congruence.
Qed.

Lemma same_on_insert ls m m' i p c c' : same_on ls m m' ->
  same_on ls (mkMemory (<[i := p]> (fields m)) (owner m) c) (mkMemory (<[i := p]> (fields m')) (owner m') c').
Proof.
  intros Hs j Hj. simpl. split; [|by apply Hs].
  destruct (decide (i = j)) as [->|Hne]; [by rewrite !lookup_insert_eq|]. rewrite !lookup_insert_ne by done. by apply Hs.
Qed.

Lemma perform_calls X (e : access_to X) m : touched e <> None -> calls (perform X e 0 m).1 = calls m.
Proof. intros Ht. destruct e; simpl in *; unfold read, write; by try destruct (fields m !! i). Qed.

(** What the code does depends on the handles it touches only. *)
Lemma perform_same X (e : access_to X) ls m m' : match touched e with Some i => i ∈ ls | None => True end -> same_on ls m m' ->
  (perform X e 0 m).2 = (perform X e 0 m').2 /\ same_on ls (perform X e 0 m).1 (perform X e 0 m').1 /\
  exists l, calls (perform X e 0 m).1 = calls m ++ l /\ calls (perform X e 0 m').1 = calls m' ++ l.
Proof.
  intros Ht Hs.
  destruct e as [i|i|i|i b|i r|i d|d r|i]; simpl in *; unfold read, write;
    try (destruct (Hs i Ht) as [Hf Ho]; rewrite <- ?Hf, <- ?Ho; destruct (fields m !! i) as [p|]); simpl;
    (split; [done|]); (split; [first [exact Hs|by apply same_on_insert]|]); try (exists []; by rewrite !app_nil_r).
  by exists [(d, r)].
Qed.

Lemma run_frame ls m : forall mem mem', confined ls m -> same_on ls mem mem' ->
  (exec m mem).2 = (exec m mem').2 /\ same_on ls (exec m mem).1 (exec m mem').1 /\
  exists l, calls (exec m mem).1 = calls mem ++ l /\ calls (exec m mem').1 = calls mem' ++ l.
Proof.
  induction m as [r|X e k IH]; intros mem mem' Hc Hs; simpl.
  { split; [done|]. split; [done|]. exists []. by rewrite !app_nil_r. }
  destruct Hc as [Ht Hk]. assert (Ht' : match touched e with Some i => i ∈ ls | None => True end) by by destruct (touched e).
  destruct (perform_same X e ls mem mem' Ht' Hs) as (Ho & Hs' & l & Hl & Hl').
  destruct (perform X e 0 mem) as [m1 x], (perform X e 0 mem') as [m1' x']. simpl in *. subst x'.
  destruct (IH x m1 m1' (Hk x) Hs') as (H1 & H2 & l2 & H3 & H4). split; [done|]. split; [done|].
  exists (l ++ l2). by rewrite H3, H4, Hl, Hl', !app_assoc.
Qed.

(** Likewise for the call as one step. *)
Definition alike (ls : list nat) (s s' : Store) : Prop :=
  forall i, i ∈ ls -> ResourcePtr.handles s !! i = ResourcePtr.handles s' !! i.

(** The contents of the operands. *)
Lemma live_one i s : live [i] s -> exists p, ResourcePtr.handles s !! i = Some p.
Proof. intros H. apply (H i). set_solver. Qed.

Lemma live_two i j s : live [i; j] s ->
  (exists p, ResourcePtr.handles s !! i = Some p) /\ exists q, ResourcePtr.handles s !! j = Some q.
Proof. intros H. split; apply H; set_solver. Qed.

Ltac open_atomic :=
  unfold atomic, ResourcePtr.dealloc, ResourcePtr.reset, ResourcePtr.release, ResourcePtr.get, ResourcePtr.has_resource,
    ResourcePtr.swap, ResourcePtr.call_deleter, ResourcePtr.update, ResourcePtr.deref, modify, mbind, M_bind, throw, mret, M_ret.

Ltac look_up :=
  match goal with
  | H : live [_] _ |- _ => apply live_one in H; destruct H
  | H : live [_; _] _ |- _ => apply live_two in H; destruct H as [[? ?] [? ?]]
  | H : ResourcePtr.handles ?s !! ?i = _ |- context [ResourcePtr.handles ?s !! ?i] => rewrite H; simpl
  | H : fields ?s !! ?i = _ |- context [fields ?s !! ?i] => rewrite H; simpl
  | |- context [Nat.eqb ?i ?i] => rewrite (Nat.eqb_refl i); simpl
  | H : ?i <> ?j |- context [Nat.eqb ?i ?j] => rewrite (proj2 (Nat.eqb_neq i j) H); simpl
  | |- context [Nat.eqb ?i ?j] => destruct (Nat.eqb_spec i j) as [->|]; simpl
  | H : ResourcePtr.initialized_ ?p = _ |- context [ResourcePtr.initialized_ ?p] => rewrite H; simpl
  | |- context [ResourcePtr.initialized_ ?p] => destruct (ResourcePtr.initialized_ p) eqn:?; simpl
  | H : throws ?d ?r = _ |- context [throws ?d ?r] => rewrite H; simpl
  | |- context [throws ?d ?r] => destruct (throws d r) eqn:?; simpl
  end.

Lemma atomic_local o s : live (operands o) s ->
  (forall i, i ∉ locks o -> ResourcePtr.handles (atomic o s).1 !! i = ResourcePtr.handles s !! i) /\
  (forall i, is_Some (ResourcePtr.handles s !! i) -> is_Some (ResourcePtr.handles (atomic o s).1 !! i)) /\
  (forall f, (atomic o s).2 <> Crash f).
Proof.
  destruct o as [i|i r|i|i|i|i j|c i j]; simpl; intros Hl; open_atomic; repeat look_up.
  all: (split; [|split; [|done]]); try done; intros k Hk;
    first [by rewrite ?lookup_insert_ne by set_solver | by rewrite ?lookup_insert_is_Some'; eauto].
Qed.

Lemma read_ok {A} i (f : Ptr -> A) m p : fields m !! i = Some p -> read i f m = (m, Ok (f p)).
Proof. intros H. unfold read. by rewrite H. Qed.

Lemma write_ok i f m p : fields m !! i = Some p ->
  write i f m = (mkMemory (<[i := f p]> (fields m)) (owner m) (calls m), Ok tt).
Proof. intros H. unfold write. by rewrite H. Qed.

Ltac solve_lookup :=
  simpl; repeat first [rewrite lookup_insert_eq | rewrite lookup_insert_ne by done]; first [eassumption | reflexivity].

(** One access of code that runs alone. *)
Ltac run_access :=
  match goal with
  | |- context [read ?i ?f ?m] => erewrite (read_ok i f m) by solve_lookup; simpl
  | |- context [write ?i ?f ?m] => erewrite (write_ok i f m) by solve_lookup; simpl
  | H : owner ?m !! ?i = Some _ |- context [owner ?m !! ?i] => rewrite H; simpl
  end.

(** The handles named in a list, one by one; the calls of deleters. *)
Ltac settle :=
  let k := fresh in let Hk := fresh in
  intros k Hk; repeat (apply elem_of_cons in Hk as [->|Hk]); [..|by apply not_elem_of_nil in Hk]; simpl;
  repeat match goal with H : fields _ !! _ = _ |- _ => rewrite H | H : ResourcePtr.handles _ !! _ = _ |- _ => rewrite H end;
  solve_lookup.
Ltac count_calls := first [by eexists | by exists []; rewrite !app_nil_r].

(** [m], run alone from [mem], ends as the call as one step does from [s]. *)
Definition pending (o : operation) (m : code) (mem : Memory) (s : Store) : Prop :=
  (exec m mem).2.2 = (atomic o s).2 /\ agrees (locks o) (exec m mem).1 (atomic o s).1 /\
  exists l, calls (exec m mem).1 = calls mem ++ l /\ ResourcePtr.freed (atomic o s).1 = ResourcePtr.freed s ++ l.

Lemma body_pending o t mem s : live (operands o) s -> agrees (locks o) mem s -> held_by t (locks o) mem ->
  pending o (body o tt) mem s.
Proof.
  intros Hl Ha Hh. unfold pending.
  assert (Hi : forall i p, i ∈ locks o -> ResourcePtr.handles s !! i = Some p -> fields mem !! i = Some p /\ owner mem !! i = Some t).
  { intros i p Hin Hp. rewrite (Ha i Hin). auto. }
  destruct o as [i|i r|i|i|i|i j|c i j]; simpl in *; look_up.
  1-5: destruct (Hi i _ ltac:(set_solver) H) as [? ?]; open_atomic; repeat first [look_up|run_access]; (split; [done|]);
    (split; [settle|count_calls]).
  all: try destruct c; simpl; unfold swap, eq, lt, le, compared, ResourcePtr.gt, ResourcePtr.ge, ResourcePtr.ne, ResourcePtr.eq, ResourcePtr.lt, ResourcePtr.le in *;
    open_atomic; (destruct (Nat.eqb_spec i j) as [->|Hij];
      [repeat look_up; (split; [done|]); (split; [settle|count_calls])|]);
    destruct (Hi i _ ltac:(set_solver) H), (Hi j _ ltac:(set_solver) H0); simpl; repeat first [look_up|run_access];
    try (destruct (ltb _ _) eqn:?; simpl; repeat run_access);
    (split; [done|]); destruct x, x0; simpl in *; subst; (split; [settle|count_calls]).
Qed.

(** The call as one step depends on the handles it locks only. *)
Lemma atomic_same o s s' : live (operands o) s -> live (operands o) s' -> alike (locks o) s s' ->
  (atomic o s).2 = (atomic o s').2 /\ alike (locks o) (atomic o s).1 (atomic o s').1 /\
  exists l, ResourcePtr.freed (atomic o s).1 = ResourcePtr.freed s ++ l /\
            ResourcePtr.freed (atomic o s').1 = ResourcePtr.freed s' ++ l.
Proof.
  intros Hl Hl' Ha.
  set (mem := fun s : Store => mkMemory (ResourcePtr.handles s) (gset_to_gmap 0%nat (list_to_set (locks o))) []).
  assert (Hh : forall s, held_by 0 (locks o) (mem s)).
  { intros s0 i Hi. simpl. apply lookup_gset_to_gmap_Some. by rewrite elem_of_list_to_set. }
  destruct (body_pending o 0 (mem s) s Hl ltac:(done) (Hh s)) as (H1 & H2 & l & H3 & H4).
  destruct (body_pending o 0 (mem s') s' Hl' ltac:(done) (Hh s')) as (H1' & H2' & l' & H3' & H4').
  destruct (run_frame (locks o) (body o tt) (mem s) (mem s') (body_confined o)) as (Hr & Hs & l2 & Hc & Hc').
  { intros i Hi. split; [exact (Ha i Hi)|done]. }
  split; [by rewrite <- H1, <- H1', Hr|]. split.
  - intros i Hi. rewrite <- (H2 i Hi), <- (H2' i Hi). by apply Hs.
  - exists l. split; [done|]. simpl in *. congruence.
Qed.

Lemma pending_frame o c m m' s s' : confined (locks o) c -> live (operands o) s -> live (operands o) s' ->
  same_on (locks o) m m' -> alike (locks o) s s' -> pending o c m s -> pending o c m' s'.
Proof.
  intros Hc Hl Hl' Hm Hs (H1 & H2 & l & H3 & H4).
  destruct (run_frame _ c m m' Hc Hm) as (Hr & Hf & l1 & Hc1 & Hc1').
  destruct (atomic_same o s s' Hl Hl' Hs) as (Hx & Hh & l2 & Hc2 & Hc2').
  split; [congruence|]. split.
  - intros i Hi. rewrite <- (Hh i Hi), <- (H2 i Hi). symmetry. by apply Hf.
  - exists l. rewrite Hc1', Hc2'. rewrite H3 in Hc1. rewrite H4 in Hc2.
    apply app_inv_head in Hc1 as ->. by apply app_inv_head in Hc2 as ->.
Qed.

(** ** The threads together *)

Definition held (th : Thread) : list nat :=
  match phase th with
  | Idle => []
  | Half _ a _ => [a]
  | Inside o _ => locks o
  | Leaving ls => ls
  end.

(** A thread and what the calls as steps have made of its program, [x]: inside a
    call either nothing has happened yet, or the call is over but for its release of
    the mutexes. *)
Definition matches_thread (m : Memory) (s : Store) (th : Thread) (x : list operation * list (outcome answer)) : Prop :=
  NoDup (held th) /\
  match phase th with
  | Idle => x = (todo th, results th)
  | Half o a b => x = (todo th, results th) /\ (exists os, todo th = o :: os) /\
      (locks o = [a; b] \/ locks o = [b; a]) /\ agrees [a] m s
  | Inside o c => exists os, todo th = o :: os /\
      (x = (todo th, results th) /\ confined (locks o) c /\ pending o c m s \/
       exists r, c = Ret (tt, r) /\ x = (os, results th ++ [r]) /\ agrees (locks o) m s)
  | Leaving ls => x = (todo th, results th) /\ agrees ls m s
  end.

Record matches (c : config) (a : state) : Prop := mkMatches {
  matches_calls : calls c.1 = ResourcePtr.freed a.1;
  matches_threads : forall t, match c.2 !! t, a.2 !! t with
    | Some th, Some x => matches_thread c.1 a.1 th x
    | None, None => True
    | _, _ => False
    end;
  matches_owner : forall i t, owner c.1 !! i = Some t <-> exists th, c.2 !! t = Some th /\ i ∈ held th;
  matches_free : forall i, owner c.1 !! i = None -> fields c.1 !! i = ResourcePtr.handles a.1 !! i;
  matches_live : forall t th o, c.2 !! t = Some th -> o ∈ todo th -> live (operands o) a.1;
  matches_fine : forall t x r f, a.2 !! t = Some x -> r ∈ x.2 -> r <> Crash f
}.

Lemma locks_operands o i : i ∈ locks o -> i ∈ operands o.
Proof. destruct o; simpl; try done; destruct (Nat.eqb _ _); set_solver. Qed.

Lemma locks_nodup o : NoDup (locks o).
Proof.
  destruct o as [i|i r|i|i|i|i j|c i j]; simpl; try apply NoDup_singleton;
    (destruct (Nat.eqb_spec i j) as [->|Hne]; [apply NoDup_nil_2|]);
    apply NoDup_cons; (split; [set_solver|apply NoDup_singleton]).
Qed.

(** What other threads do to other handles does not matter. *)
Lemma thread_frame m m' s s' th x : matches_thread m s th x ->
  (forall o, o ∈ todo th -> live (operands o) s /\ live (operands o) s') ->
  same_on (held th) m m' -> alike (held th) s s' -> matches_thread m' s' th x.
Proof.
  intros [Hn Hx] Hl Hm Hs. split; [done|]. unfold held in *.
  assert (Ha : forall ls, same_on ls m m' -> alike ls s s' -> agrees ls m s -> agrees ls m' s').
  { intros ls Hm' Hs' H i Hi. rewrite <- (Hs' i Hi), <- (H i Hi). symmetry. by apply Hm'. }
  destruct (phase th) as [|o a b|o c|ls]; [done|naive_solver| |naive_solver].
  destruct Hx as (os & Ht & Hx). exists os. split; [done|]. destruct (Hl o) as [Hl1 Hl2]; [rewrite Ht; by left|].
  destruct Hx as [(-> & Hc & Hp)|(r & -> & -> & Hr)]; [left|right; eauto].
  split; [done|]. split; [done|]. by apply (pending_frame o c m m' s s').
Qed.

(** What a step of thread [t] has to do to keep the correspondence. *)
Record local_step (t : nat) (m : Memory) (s : Store) (th : Thread) (m' : Memory) (s' : Store) (th' : Thread)
    (x' : list operation * list (outcome answer)) : Prop := mkLocal {
  local_thread : matches_thread m' s' th' x';
  local_calls : calls m' = ResourcePtr.freed s';
  local_todo : forall o, o ∈ todo th' -> o ∈ todo th;
  local_live : forall i, is_Some (ResourcePtr.handles s !! i) -> is_Some (ResourcePtr.handles s' !! i);
  local_taken : forall i, i ∈ held th' -> owner m' !! i = Some t /\ (i ∈ held th \/ owner m !! i = None);
  local_given : forall i, i ∈ held th -> i ∉ held th' -> owner m' !! i = None /\ fields m' !! i = ResourcePtr.handles s' !! i;
  local_others : forall i, i ∉ held th ->
    fields m' !! i = fields m !! i /\ ResourcePtr.handles s' !! i = ResourcePtr.handles s !! i /\
    (i ∉ held th' -> owner m' !! i = owner m !! i);
  local_fine : forall r f, r ∈ x'.2 -> r <> Crash f
}.

Lemma local_matches t m s th m' s' th' x' p q : matches (m, p) (s, q) -> p !! t = Some th ->
  local_step t m s th m' s' th' x' -> matches (m', <[t := th']> p) (s', <[t := x']> q).
Proof.
  intros [Hc Ht Ho Hf Hl Hfine] Hth [L1 L2 L3 L4 L5 L6 L7 L8]. simpl in *.
  assert (Hdis : forall u thu i, u <> t -> p !! u = Some thu -> i ∈ held thu -> i ∉ held th /\ i ∉ held th').
  { intros u thu i Hu Hpu Hi. assert (Hou : owner m !! i = Some u) by (apply Ho; eauto).
    assert (Hni : i ∉ held th) by (intros Hi'; assert (owner m !! i = Some t) by (apply Ho; eauto); congruence).
    split; [done|]. intros [_ [?|?]]%L5; [done|congruence]. }
  split; simpl.
  - done.
  - intros u. destruct (decide (u = t)) as [->|Hu]; [by rewrite !lookup_insert_eq|]. rewrite !lookup_insert_ne by done.
    specialize (Ht u). destruct (p !! u) as [thu|] eqn:Hpu, (q !! u) as [xu|] eqn:Hqu; try done.
    eapply thread_frame; [exact Ht|..].
    + intros o Hin. split; [by apply (Hl u thu)|]. intros i Hi. apply L4. by apply (Hl u thu o).
    + intros i Hi. destruct (Hdis u thu i Hu Hpu Hi) as [H1 H2]. destruct (L7 i H1) as (-> & _ & ->); done.
    + intros i Hi. destruct (Hdis u thu i Hu Hpu Hi) as [H1 _]. by destruct (L7 i H1) as (_ & -> & _).
  - intros i u. destruct (decide (i ∈ held th')) as [Hi|Hi].
    + destruct (L5 i Hi) as [Hot Hown]. rewrite Hot. split.
      * intros [= <-]. exists th'. by rewrite lookup_insert_eq.
      * intros (thu & Hu & Hin). destruct (decide (u = t)) as [->|Hne]; [done|]. rewrite lookup_insert_ne in Hu by done.
        by destruct (Hdis u thu i Hne Hu Hin).
    + destruct (decide (i ∈ held th)) as [Hi'|Hi'].
      * destruct (L6 i Hi' Hi) as [-> _]. split; [done|]. intros (thu & [[-> <-]|[Hne Hu]]%lookup_insert_Some & Hin); [done|].
        by destruct (Hdis u thu i (not_eq_sym Hne) Hu Hin).
      * rewrite (proj2 (proj2 (L7 i Hi')) Hi), Ho. split; intros (thu & Hu & Hin).
        -- exists thu. split; [|done]. rewrite lookup_insert_ne; [done|]. intros <-. by simplify_eq.
        -- apply lookup_insert_Some in Hu as [[-> <-]|[Hne Hu]]; [done|]. eauto.
  - intros i Hi. destruct (decide (i ∈ held th')) as [Hi'|Hi']; [destruct (L5 i Hi') as [Hot _]; congruence|].
    destruct (decide (i ∈ held th)) as [Hi2|Hi2]; [by apply L6|]. destruct (L7 i Hi2) as (-> & -> & Hoo). apply Hf. by rewrite <- Hoo.
  - intros u thu o [[<- <-]|[_ Hu]]%lookup_insert_Some Hin i Hi; apply L4; [by eapply Hl; [exact Hth|apply L3|]|by eapply Hl].
  - intros u x r f [[<- <-]|[_ Hu]]%lookup_insert_Some Hin; [by apply L8|by apply (Hfine u x)].
Qed.
(** ** One step of one thread *)

Section Mine.
Context (t : nat) (m : Memory) (s : Store) (th : Thread) (x : list operation * list (outcome answer)).
Context (Hmine : forall i, i ∈ held th -> owner m !! i = Some t) (Hcalls : calls m = ResourcePtr.freed s)
  (Hfree : forall i, owner m !! i = None -> fields m !! i = ResourcePtr.handles s !! i)
  (Hlive : forall o, o ∈ todo th -> live (operands o) s) (Hfine : forall r f, r ∈ x.2 -> r <> Crash f)
  (Hth : matches_thread m s th x).

(** It keeps its mutexes. *)
Lemma keep_local m' s' th' x' : (forall i, i ∈ held th' <-> i ∈ held th) -> owner m' = owner m ->
  (forall i, i ∉ held th -> fields m' !! i = fields m !! i /\ ResourcePtr.handles s' !! i = ResourcePtr.handles s !! i) ->
  (forall i, is_Some (ResourcePtr.handles s !! i) -> is_Some (ResourcePtr.handles s' !! i)) ->
  matches_thread m' s' th' x' -> calls m' = ResourcePtr.freed s' -> (forall o, o ∈ todo th' -> o ∈ todo th) ->
  (forall r f, r ∈ x'.2 -> r <> Crash f) -> local_step t m s th m' s' th' x'.
Proof.
  intros Hh Ho Hf Hs Hm Hc Ht Hx. split; try done.
  - intros i Hi. rewrite Ho. apply Hh in Hi. auto.
  - intros i Hi Hi'. by rewrite Hh in Hi'.
  - intros i Hi. rewrite Ho. by destruct (Hf i Hi).
Qed.

(** It takes one. *)
Lemma take_local i th' : owner m !! i = None -> (forall j, j ∈ held th' <-> j = i \/ j ∈ held th) -> todo th' = todo th ->
  matches_thread (take t i m) s th' x -> local_step t m s th (take t i m) s th' x.
Proof.
  intros Hi Hh Ht Hm. split; try done.
  - by rewrite Ht.
  - intros j Hj. simpl. apply Hh in Hj. destruct (decide (j = i)) as [->|Hne]; [by rewrite lookup_insert_eq; auto|].
    rewrite lookup_insert_ne by done. destruct Hj; [done|auto].
  - intros j Hj Hj'. destruct Hj'. apply Hh. by right.
  - intros j Hj. split; [done|]. split; [done|]. intros Hj'. simpl. rewrite lookup_insert_ne; [done|]. intros <-. apply Hj', Hh. by left.
Qed.

(** It gives one back. *)
Lemma give_local i th' : held th = i :: held th' -> fields m !! i = ResourcePtr.handles s !! i -> todo th' = todo th ->
  matches_thread (give i m) s th' x -> local_step t m s th (give i m) s th' x.
Proof.
  intros Hh Hi Ht Hm. destruct Hth as [Hn _]. rewrite Hh in Hn. apply NoDup_cons in Hn as [Hn _]. split; try done.
  - by rewrite Ht.
  - intros j Hj. simpl. rewrite lookup_delete_ne by (by intros ->). split; [apply Hmine|left]; rewrite Hh; by right.
  - intros j Hj Hj'. simpl. rewrite Hh in Hj. apply elem_of_cons in Hj as [->|Hj]; [|done]. by rewrite lookup_delete_eq.
  - intros j Hj. split; [done|]. split; [done|]. intros _. simpl. rewrite lookup_delete_ne; [done|]. intros ->. apply Hj. rewrite Hh. by left.
Qed.

(** It begins its next call, with the mutexes of the call. *)
Lemma enter_matches m' o os : todo th = o :: os -> x = (todo th, results th) -> held_by t (locks o) m' -> agrees (locks o) m' s ->
  matches_thread m' s (mkThread (todo th) (results th) (enter o)) x.
Proof.
  intros Ht Hx Hh Ha. split; [apply locks_nodup|]. exists os. split; [done|]. left. split; [done|]. split; [apply body_confined|].
  apply (body_pending o t); [|done..]. apply Hlive. rewrite Ht. by left.
Qed.

(** It makes the call, as one step. *)
Lemma commit_local o os c m' r th' : todo th = o :: os -> phase th = Inside o c -> pending o c m s -> x = (todo th, results th) ->
  exec c m = (m', (tt, r)) -> owner m' = owner m -> (forall i, i ∉ locks o -> fields m' !! i = fields m !! i) ->
  (forall i, i ∈ held th' <-> i ∈ locks o) -> (forall o, o ∈ todo th' -> o ∈ todo th) ->
  (agrees (locks o) m' (atomic o s).1 -> matches_thread m' (atomic o s).1 th' (os, results th ++ [r])) ->
  r = (atomic o s).2 /\ local_step t m s th m' (atomic o s).1 th' (os, results th ++ [r]).
Proof.
  intros Ht Hp (H1 & H2 & l & H3 & H4) Hx He Ho Hf Hh Hsub Hm. rewrite He in *. simpl in *.
  destruct (atomic_local o s) as (Ha1 & Ha2 & Ha3); [apply Hlive; rewrite Ht; by left|].
  assert (Hl : held th = locks o) by (unfold held; by rewrite Hp).
  split; [done|]. apply keep_local; try done.
  - intros i. by rewrite Hl.
  - intros i. rewrite Hl. auto.
  - auto.
  - congruence.
  - intros r' f [Hin| ->%list_elem_of_singleton]%elem_of_app; [|by rewrite H1; apply Ha3]. apply Hfine. by rewrite Hx.
Qed.

(** What a step of the thread is for the calls as steps: nothing, or its next call. *)
Definition simulated (m' : Memory) (th' : Thread) : Prop :=
  local_step t m s th m' s th' x \/
  exists o os rs, x = (o :: os, rs) /\ local_step t m s th m' (atomic o s).1 th' (os, rs ++ [(atomic o s).2]).

Lemma idle_simulated sw m' th' : phase th = Idle -> next t sw m th = Some (m', th') -> simulated m' th'.
Proof.
  intros Hp Hs. left. unfold next in Hs. rewrite Hp in Hs. destruct Hth as [_ Hx]. rewrite Hp in Hx.
  assert (Hh : held th = []) by (unfold held; by rewrite Hp).
  apply bind_Some in Hs as (o & Ho & ([m1 ph] & Hb & [= -> ->])%fmap_Some).
  apply head_Some in Ho as [os Ht]. unfold begin_call in Hb.
  destruct (locks o) as [|i [|j ls]] eqn:Hl.
  - injection Hb as <- <-. apply keep_local; try done; [intros k; rewrite Hh; unfold held; simpl; by rewrite Hl|].
    apply (enter_matches _ _ os); try done; rewrite Hl; by intros k ?%not_elem_of_nil.
  - unfold free in Hb. case_bool_decide as Hi; [injection Hb as <- <-|done].
    apply take_local; try done; [intros k; rewrite Hh; unfold held; simpl; rewrite Hl; set_solver|].
    apply (enter_matches _ _ os); try done; rewrite Hl; intros k ->%list_elem_of_singleton; [apply lookup_insert_eq|by apply Hfree].
  - assert (Hls : ls = []) by (destruct o; simpl in Hl; try done; destruct (Nat.eqb _ _); by simplify_eq). subst ls.
    assert (Hb' : exists a b, (locks o = [a; b] \/ locks o = [b; a]) /\ owner m !! a = None /\ m1 = take t a m /\ ph = Half o a b).
    { unfold free in Hb. rewrite Hl. destruct sw; case_bool_decide; [injection Hb as <- <-|done|injection Hb as <- <-|done]; eauto 10. }
    destruct Hb' as (a & b & Hab & Ha & -> & ->).
    apply take_local; try done; [intros k; rewrite Hh; unfold held; simpl; set_solver|].
    split; [apply NoDup_singleton|]. split; [done|]. split; [eauto|]. split; [done|].
    intros k ->%list_elem_of_singleton. by apply Hfree.
Qed.

Lemma half_simulated sw m' th' o a b : phase th = Half o a b -> next t sw m th = Some (m', th') -> simulated m' th'.
Proof.
  intros Hp Hs. left. unfold next in Hs. rewrite Hp in Hs. destruct Hth as [_ Hx]. rewrite Hp in Hx.
  destruct Hx as (Hx & [os Ht] & Hab & Ha).
  assert (Hh : held th = [a]) by (unfold held; by rewrite Hp).
  assert (Hl : forall k, k ∈ locks o <-> k = a \/ k = b) by (intros k; destruct Hab as [-> | ->]; set_solver).
  unfold free in Hs. case_bool_decide as Hb; injection Hs as <- <-.
  - apply take_local; try done; [intros k; rewrite Hh; unfold held; simpl; rewrite Hl; set_solver|].
    apply (enter_matches _ _ os); try done; intros k [-> | ->]%Hl; simpl.
    + destruct (decide (a = b)) as [->|Hne]; [apply lookup_insert_eq|]. rewrite lookup_insert_ne by done. apply Hmine. rewrite Hh. by left.
    + apply lookup_insert_eq.
    + apply Ha. by left.
    + by apply Hfree.
  - apply (give_local a); try done; [apply Ha; by left|]. split; [apply NoDup_nil_2|done].
Qed.

Lemma leaving_simulated sw m' th' ls : phase th = Leaving ls -> next t sw m th = Some (m', th') -> simulated m' th'.
Proof.
  intros Hp Hs. left. unfold next in Hs. rewrite Hp in Hs. pose proof Hth as [Hn Hx]. rewrite Hp in Hx.
  destruct Hx as [Hx Ha]. assert (Hh : held th = ls) by (unfold held; by rewrite Hp). rewrite Hh in Hn.
  destruct ls as [|i ls]; injection Hs as <- <-.
  - apply keep_local; try done. by rewrite Hh.
  - apply (give_local i); try done; [apply Ha; by left|]. apply NoDup_cons in Hn as [_ Hn].
    split; [done|]. split; [done|]. intros k Hk. apply Ha. by right.
Qed.

Lemma inside_simulated sw m' th' o c : phase th = Inside o c -> next t sw m th = Some (m', th') -> simulated m' th'.
Proof.
  intros Hp Hs. unfold next in Hs. rewrite Hp in Hs. pose proof Hth as [Hn Hx]. rewrite Hp in Hx.
  destruct Hx as (os & Ht & Hx). assert (Hh : held th = locks o) by (unfold held; by rewrite Hp). rewrite Hh in Hn.
  destruct Hx as [(Hx & Hc & Hpe)|(r & -> & Hx & Ha)].
  - destruct c as [[[] r]|X e k].
    + right. injection Hs as <- <-. exists o, os, (results th). split; [congruence|].
      destruct (commit_local o os _ m r (mkThread (tail (todo th)) (results th ++ [r]) (Leaving (reverse (locks o)))) Ht Hp Hpe Hx)
        as [<- Hl]; try done.
      * intros i. unfold held. simpl. by rewrite elem_of_reverse.
      * intros o' Hin. simpl in Hin. rewrite Ht in *. by right.
      * intros Ha. split; [unfold held; simpl; by rewrite reverse_Permutation|]. simpl. rewrite Ht. split; [done|]. intros i. rewrite elem_of_reverse. apply Ha.
    + destruct Hc as [Htouch Hk]. destruct (perform X e 0 m) as [m1 y] eqn:He. injection Hs as <- <-.
      pose proof (perform_owner X e m) as Ho1. pose proof (perform_outside X e m) as Hf1. pose proof (perform_calls X e m) as Hc1.
      rewrite He in Ho1, Hf1, Hc1. simpl in Ho1, Hf1, Hc1. destruct (touched e) as [i|] eqn:Hte.
      * left. apply keep_local; try done.
        -- intros j. by rewrite Hh.
        -- intros j Hj. rewrite Hh in Hj. split; [|done]. apply Hf1. congruence.
        -- split; [done|]. exists os. split; [done|]. left. split; [done|]. split; [apply Hk|].
           unfold pending in *. simpl in Hpe. rewrite He in Hpe. by rewrite (Hc1 ltac:(done)).
        -- by rewrite (Hc1 ltac:(done)).
      * destruct (Htouch y) as [[[] r] Hr]. right. exists o, os, (results th). split; [congruence|].
        destruct (commit_local o os _ m1 r (mkThread (todo th) (results th) (Inside o (k y))) Ht Hp Hpe Hx) as [<- Hl]; try done.
        -- simpl. by rewrite He, Hr.
        -- intros j _. by apply Hf1.
        -- intros Ha. split; [done|]. exists os. split; [done|]. right. exists r. by rewrite Hr.
  - left. injection Hs as <- <-. apply keep_local; try done.
    + intros i. rewrite Hh. unfold held. simpl. by rewrite elem_of_reverse.
    + split; [unfold held; simpl; by rewrite reverse_Permutation|]. simpl. rewrite Ht. split; [done|]. intros i. rewrite elem_of_reverse. apply Ha.
    + intros o' Hin. simpl in Hin. rewrite Ht in *. by right.
Qed.

Lemma next_simulated sw m' th' : next t sw m th = Some (m', th') -> simulated m' th'.
Proof.
  destruct (phase th) as [|o a b|o c|ls] eqn:Hp.
  - by apply idle_simulated.
  - by apply (half_simulated _ _ _ o a b).
  - by apply (inside_simulated _ _ _ o c).
  - by apply (leaving_simulated _ _ _ ls).
Qed.
End Mine.

Lemma step_simulated c a c' : matches c a -> step c c' -> exists a', rtc atomic_step a a' /\ matches c' a'.
Proof.
  intros Hm Hs. destruct Hs as [m p t th sw m' th' Hth Hn]. destruct a as [s q].
  pose proof Hm as [Hc Ht Ho Hf Hl Hfine]. simpl in *. specialize (Ht t). rewrite Hth in Ht.
  destruct (q !! t) as [x|] eqn:Hx; [|done].
  destruct (next_simulated t m s th x) with sw m' th' as [Hls|(o & os & rs & -> & Hls)]; try done.
  - intros i Hi. apply Ho. eauto.
  - intros o. by apply (Hl t th).
  - intros r f. by apply (Hfine t x).
  - exists (s, q). split; [done|]. rewrite <- (insert_id q t x Hx). by apply (local_matches t m s th).
  - eexists. split; [by apply rtc_once, atomic_call|]. by apply (local_matches t m s th).
Qed.

Lemma steps_simulated c a c' : matches c a -> rtc step c c' -> exists a', rtc atomic_step a a' /\ matches c' a'.
Proof.
  intros Hm Hr. revert a Hm. induction Hr as [c|c c1 c2 Hs _ IH]; intros a Hm; [by exists a|].
  destruct (step_simulated _ _ _ Hm Hs) as (a1 & Ha1 & Hm1). destruct (IH a1 Hm1) as (a2 & Ha2 & Hm2).
  exists a2. split; [by etransitivity|done].
Qed.

(** ** Running to the end *)

Lemma step_run m p t th sw m' th' : p !! t = Some th -> next t sw m th = Some (m', th') ->
  rtc step (m, p) (m', <[t := th']> p).
Proof. intros Ht Hn. by eapply rtc_once, step_thread. Qed.

(** A call that has its mutexes returns. *)
Lemma run_inside t o os rs c : forall m p, p !! t = Some (mkThread os rs (Inside o c)) ->
  exists m' r, rtc step (m, p) (m', <[t := mkThread (tail os) (rs ++ [r]) (Leaving (reverse (locks o)))]> p).
Proof.
  induction c as [[u r]|X e k IH]; intros m p Ht.
  - exists m, r. by eapply (step_run _ _ _ _ true).
  - destruct (perform X e 0 m) as [m1 y] eqn:He.
    destruct (IH y m1 (<[t := mkThread os rs (Inside o (k y))]> p) (lookup_insert_eq _ _ _)) as (m' & r & Hr).
    exists m', r. rewrite insert_insert_eq in Hr. etransitivity; [|exact Hr].
    eapply (step_run _ _ _ _ true); [done|]. unfold next. simpl. by rewrite He.
Qed.

Lemma run_leaving t ls os rs : forall m p, p !! t = Some (mkThread os rs (Leaving ls)) ->
  exists m', rtc step (m, p) (m', <[t := mkThread os rs Idle]> p).
Proof.
  induction ls as [|i ls IH]; intros m p Ht.
  - exists m. by eapply (step_run _ _ _ _ true).
  - destruct (IH (give i m) (<[t := mkThread os rs (Leaving ls)]> p) (lookup_insert_eq _ _ _)) as (m' & Hr).
    exists m'. rewrite insert_insert_eq in Hr. etransitivity; [|exact Hr]. by eapply (step_run _ _ _ _ true).
Qed.

Lemma run_call t o os rs c m p : p !! t = Some (mkThread os rs (Inside o c)) ->
  exists m' rs', rtc step (m, p) (m', <[t := mkThread (tail os) rs' Idle]> p).
Proof.
  intros Ht. destruct (run_inside t o os rs c m p Ht) as (m1 & r & H1).
  destruct (run_leaving t (reverse (locks o)) (tail os) (rs ++ [r]) m1 _ (lookup_insert_eq p t _)) as (m2 & H2).
  exists m2, (rs ++ [r]). rewrite insert_insert_eq in H2. by etransitivity.
Qed.

(** What is left to do, with the mutexes that are held without use. *)
Definition weight (th : Thread) : Z :=
  2 * Z.of_nat (length (todo th)) + match phase th with Half _ _ _ | Leaving _ => 1 | _ => 0 end.
Definition left_over (c : config) : Z := map_sum weight c.2.

Definition finished (c : config) : Prop := forall t th, c.2 !! t = Some th -> phase th = Idle /\ todo th = [].

Lemma left_over_update m p m' t th th' : p !! t = Some th -> left_over (m', <[t := th']> p) = left_over (m, p) - weight th + weight th'.
Proof. intros Ht. unfold left_over. simpl. by apply map_sum_update. Qed.

Lemma tail_shorter (th : Thread) o os : todo th = o :: os ->
  Z.of_nat (length (tail (todo th))) = Z.of_nat (length (todo th)) - 1.
Proof. intros ->. simpl. lia. Qed.

(** The call that [th] makes is the first of its program. *)
Lemma call_first c a t th o x : matches c a -> c.2 !! t = Some th ->
  (phase th = Inside o x \/ exists i j, phase th = Half o i j) -> exists os, todo th = o :: os.
Proof.
  intros Hm Ht Hp. pose proof (matches_threads _ _ Hm t) as H. rewrite Ht in H. destruct (a.2 !! t); [|done].
  destruct H as [_ H]. destruct Hp as [Hp|(i & j & Hp)]; rewrite Hp in H; [destruct H as (os & H & _); eauto|tauto].
Qed.

Definition progress (c : config) : Prop := exists c', rtc step c c' /\ left_over c' < left_over c.

Lemma inside_progress m p a t th o x : matches (m, p) a -> p !! t = Some th -> phase th = Inside o x -> progress (m, p).
Proof.
  intros Hm Ht Hp. destruct (call_first _ _ t th o x Hm Ht) as [os Hos]; [by left|].
  destruct th as [os' rs' ph]. simpl in *. subst.
  destruct (run_call t o _ _ x m p Ht) as (m' & rs & Hr). eexists. split; [exact Hr|].
  rewrite (left_over_update m p m' t _ _ Ht). unfold weight. simpl. lia.
Qed.

Lemma leaving_progress m p t th ls : p !! t = Some th -> phase th = Leaving ls -> progress (m, p).
Proof.
  intros Ht Hp. destruct th as [os rs ph]. simpl in *. subst.
  destruct (run_leaving t ls os rs m p Ht) as (m' & Hr). eexists. split; [exact Hr|].
  rewrite (left_over_update m p m' t _ _ Ht). unfold weight. simpl. lia.
Qed.

(** A thread that can take the mutexes makes its call. *)
Lemma enter_progress m p t th sw o m' th' os : p !! t = Some th -> todo th = o :: os -> next t sw m th = Some (m', th') ->
  th' = mkThread (todo th) (results th) (enter o) -> progress (m, p).
Proof.
  intros Ht Hos Hn ->. pose proof (step_run m p t th sw m' _ Ht Hn) as H1.
  destruct (run_call t o (todo th) (results th) (body o tt) m' _ (lookup_insert_eq p t _)) as (m2 & rs & H2). rewrite insert_insert_eq in H2.
  eexists. split; [etransitivity; [exact H1|exact H2]|].
  rewrite (left_over_update m p m2 t th) by done. unfold weight. simpl. rewrite (tail_shorter th o os Hos).
  destruct (phase th); lia.
Qed.

Lemma half_progress m p a t th o i j : matches (m, p) a -> p !! t = Some th -> phase th = Half o i j -> progress (m, p).
Proof.
  intros Hm Ht Hp. destruct (call_first _ _ t th o (Ret (tt, Ok Done)) Hm Ht) as [os Hos]; [right; eauto|].
  destruct (free m j) eqn:Hf.
  - eapply (enter_progress m p t th true o _ _ os Ht Hos); [|done]. unfold next. by rewrite Hp, Hf.
  - eexists. split; [eapply (step_run m p t th true); [done|]; unfold next; by rewrite Hp, Hf|].
    rewrite (left_over_update m p (give i m) t th) by done. unfold weight. simpl. rewrite Hp. lia.
Qed.

Lemma idle_progress m p t th o os : (forall i, owner m !! i = None) -> p !! t = Some th -> phase th = Idle ->
  todo th = o :: os -> progress (m, p).
Proof.
  intros Hfree Ht Hp Hos.
  assert (Hf : forall i, free m i = true) by (intros i; by apply bool_decide_eq_true, Hfree).
  assert (Hn : forall sw, next t sw m th = (fun '(m', ph) => (m', mkThread (todo th) (results th) ph)) <$> begin_call t sw m o).
  { intros sw. unfold next. by rewrite Hp, Hos. }
  unfold begin_call in Hn. pose proof (locks_nodup o) as Hnd.
  pose proof (Hn true) as Hn1. pose proof (Hn false) as Hn2. clear Hn. destruct (locks o) as [|i [|j ls]] eqn:Hl.
  - by apply (enter_progress m p t th true o _ _ os Ht Hos Hn1).
  - rewrite Hf in Hn1. by apply (enter_progress m p t th true o _ _ os Ht Hos Hn1).
  - rewrite Hf in Hn2. pose proof (step_run m p t th false _ _ Ht Hn2) as H1.
    assert (Hfj : free (take t i m) j = true).
    { apply bool_decide_eq_true. simpl. rewrite lookup_insert_ne; [apply Hfree|]. intros ->.
      apply NoDup_cons in Hnd as [Hnd _]. apply Hnd. by left. }
    set (p1 := <[t := mkThread (todo th) (results th) (Half o i j)]> p) in *.
    assert (H2 : rtc step (take t i m, p1) (take t j (take t i m), <[t := mkThread (todo th) (results th) (enter o)]> p1)).
    { eapply (step_run _ _ _ _ true); [apply lookup_insert_eq|]. unfold next. simpl. by rewrite Hfj. }
    destruct (run_call t o (todo th) (results th) (body o tt) (take t j (take t i m)) _ (lookup_insert_eq p1 t _)) as (m2 & rs & H3).
    unfold p1 in *. rewrite !insert_insert_eq in *. eexists.
    split; [etransitivity; [exact H1|etransitivity; [exact H2|exact H3]]|].
    rewrite (left_over_update m p m2 t th) by done. unfold weight. simpl. rewrite Hp, (tail_shorter th o os Hos). lia.
Qed.

Definition between (th : Thread) : bool := match phase th with Idle => true | _ => false end.
Definition over (th : Thread) : bool := match todo th with [] => true | _ => false end.

Lemma finished_or_progress c a : matches c a -> finished c \/ progress c.
Proof.
  destruct c as [m p]. intros Hm.
  destruct (decide (map_Exists (fun _ th => between th = false) p)) as [(t & th & Ht & Hp)|Hno].
  { right. unfold between in Hp. destruct (phase th) as [|o i j|o x|ls] eqn:Hph; [done| | |].
    - by eapply half_progress.
    - by eapply inside_progress.
    - by eapply leaving_progress. }
  assert (Hidle : forall t th, p !! t = Some th -> phase th = Idle).
  { intros t th Ht. rewrite map_not_Exists in Hno. specialize (Hno t th Ht). unfold between in Hno. by destruct (phase th). }
  destruct (decide (map_Exists (fun _ th => over th = false) p)) as [(t & th & Ht & Hp)|Hno2].
  - right. unfold over in Hp. destruct (todo th) as [|o os] eqn:Hos; [done|].
    apply (idle_progress m p t th o os); [|done|by eapply Hidle|done].
    intros i. destruct (owner m !! i) as [u|] eqn:Ho; [|done]. apply (matches_owner _ _ Hm) in Ho as (thu & Hu & Hin).
    unfold held in Hin. rewrite (Hidle u thu Hu) in Hin. by apply not_elem_of_nil in Hin.
  - left. intros t th Ht. split; [by eapply Hidle|]. rewrite map_not_Exists in Hno2. specialize (Hno2 t th Ht).
    unfold over in Hno2. by destruct (todo th).
Qed.

Lemma left_over_nonneg c : 0 <= left_over c.
Proof. apply map_sum_nonneg. intros th. unfold weight. destruct (phase th); lia. Qed.

Lemma runs_to_end c a : matches c a -> exists c', rtc step c c' /\ finished c'.
Proof.
  remember (Z.to_nat (left_over c)) as n eqn:Hn. revert c a Hn. induction n as [n IH] using lt_wf_ind. intros c a Hn Hm.
  destruct (finished_or_progress c a Hm) as [Hf|(c1 & Hr & Hlt)]; [by exists c|].
  destruct (steps_simulated c a c1 Hm Hr) as (a1 & _ & Hm1). pose proof (left_over_nonneg c1).
  destruct (IH (Z.to_nat (left_over c1)) ltac:(lia) c1 a1 eq_refl Hm1) as (c2 & Hr2 & Hf).
  exists c2. split; [by etransitivity|done].
Qed.

(** ** The calls as steps *)

(** The programs use handles that exist. *)
Definition programs_ok (h : gmap nat Ptr) (p : gmap nat (list operation)) : Prop :=
  forall t os o i, p !! t = Some os -> o ∈ os -> i ∈ operands o -> is_Some (h !! i).

Lemma start_matches h p : programs_ok h p -> matches (start h p) (atomic_start h p).
Proof.
  intros Hp. split; simpl; [done|..].
  - intros t. rewrite !lookup_fmap. destruct (p !! t); [|done]. simpl. split; [apply NoDup_nil_2|done].
  - intros i t. split; [by rewrite lookup_empty|]. intros (th & Ht & Hin). rewrite lookup_fmap in Ht.
    destruct (p !! t); simpl in Ht; simplify_eq. by apply not_elem_of_nil in Hin.
  - done.
  - intros t th o Ht Hin i Hi. rewrite lookup_fmap in Ht. destruct (p !! t) as [os|] eqn:Hos; simpl in Ht; simplify_eq. by eapply Hp.
  - intros t x r f Ht Hin. rewrite lookup_fmap in Ht. destruct (p !! t); simpl in Ht; simplify_eq. by apply not_elem_of_nil in Hin.
Qed.

(** Every thread has made the calls of its program in order, with a result each. *)
Definition in_order (p : gmap nat (list operation)) (a : state) : Prop := forall t,
  match p !! t, a.2 !! t with
  | Some os, Some (os', rs) => exists made, os = made ++ os' /\ length rs = length made
  | None, None => True
  | _, _ => False
  end.

Lemma atomic_in_order p a a' : rtc atomic_step a a' -> in_order p a -> in_order p a'.
Proof.
  intros Hr. induction Hr as [a|a a1 a2 Hs _ IH]; [done|]. intros Ho. apply IH. clear IH.
  destruct Hs as [s q t o os rs Ht]. intros u. specialize (Ho u). simpl in *.
  destruct (decide (u = t)) as [->|Hne]; [|by rewrite lookup_insert_ne].
  rewrite lookup_insert_eq, Ht in *. destruct (p !! t); [|done]. destruct Ho as (made & -> & Hl).
  exists (made ++ [o]). rewrite <- app_assoc, !length_app, Hl. done.
Qed.

(** A call hands no resource over except [reset()], and loses none. *)
Lemma atomic_places o s x : live (operands o) s -> (forall i, o <> Reset i x.2) ->
  ResourcePtr.places x (atomic o s).1 = ResourcePtr.places x s.
Proof.
  intros Hl Hno. destruct (atomic_local o s Hl) as (_ & _ & Hc).
  assert (Hconv : forall (m : M Store unit) l, ResourcePtr.conserves m l s -> (m s).1 = (atomic o s).1 ->
    (forall c, (m s).2 = Crash c -> (atomic o s).2 = Crash c) ->
    ResourcePtr.places x (atomic o s).1 = ResourcePtr.places x s + ResourcePtr.count x l).
  { intros m l Hcv <- Hm. unfold ResourcePtr.conserves in Hcv. destruct (m s) as [s' [[]|e|c]]; [apply Hcv|apply Hcv|].
    by destruct (Hc c), (Hm c). }
  destruct o as [i|i r|i|i|i|i j|c i j].
  - rewrite (Hconv _ _ (ResourcePtr.dealloc_conserves throws i s)); [rewrite ResourcePtr.count_nil; lia|..];
      unfold atomic, mbind, M_bind; destruct (ResourcePtr.dealloc throws i s) as [s' [[]|e|f]]; simpl; congruence.
  - rewrite (Hconv _ _ (ResourcePtr.reset_conserves throws i r s)).
    + simpl. simpl in Hl. destruct (live_one i s Hl) as [q ->]. rewrite ResourcePtr.count_one, bool_decide_eq_false_2; [simpl; lia|].
      intros Hx. apply (Hno i). by rewrite <- Hx.
    + unfold atomic, mbind, M_bind; by destruct (ResourcePtr.reset throws i r s) as [s' [[]|e|f]].
    + unfold atomic, mbind, M_bind; destruct (ResourcePtr.reset throws i r s) as [s' [[]|e|f]]; simpl; congruence.
  - rewrite (Hconv _ _ (ResourcePtr.release_conserves i s)); [rewrite ResourcePtr.count_nil; lia|..];
      unfold atomic, mbind, M_bind; destruct (ResourcePtr.release i s) as [s' [q|e|f]]; simpl; congruence.
  - f_equal. simpl in Hl. open_atomic. by repeat look_up.
  - f_equal. simpl in Hl. open_atomic. by repeat look_up.
  - rewrite (Hconv _ _ (ResourcePtr.swap_conserves i j s)); [rewrite ResourcePtr.count_nil; lia|..];
      unfold atomic, mbind, M_bind; destruct (ResourcePtr.swap i j s) as [s' [[]|e|f]]; simpl; congruence.
  - f_equal. simpl in Hl. open_atomic. by repeat look_up.
Qed.

(** The programs never hand [r] over. *)
Definition not_handed (r : R) (p : gmap nat (list operation)) : Prop :=
  forall t os i, p !! t = Some os -> Reset i r ∉ os.

Lemma atomic_steps_places h p a x : programs_ok h p -> rtc atomic_step (atomic_start h p) a -> not_handed x.2 p ->
  ResourcePtr.places x a.1 = map_count (ResourcePtr.holds x) h.
Proof.
  intros Hok Hr Hx.
  enough (Hinv : forall a', rtc atomic_step a' a -> in_order p a' -> (forall i, is_Some (h !! i) -> is_Some (ResourcePtr.handles a'.1 !! i)) ->
    ResourcePtr.places x a.1 = ResourcePtr.places x a'.1).
  { rewrite (Hinv _ Hr); [|intros t; simpl; rewrite lookup_fmap; destruct (p !! t); [by exists []|done]|done].
    unfold ResourcePtr.places. simpl. rewrite !ResourcePtr.count_nil. lia. }
  clear Hr. intros a' Hr. induction Hr as [a'|a' a1 a2 Hs Hr IH]; [done|]. intros Ho Hl.
  rewrite IH; [|by eapply atomic_in_order; [apply rtc_once|]|]; clear IH; destruct Hs as [s q t o os rs Ht]; simpl in *;
    specialize (Ho t); simpl in Ho; rewrite Ht in Ho; destruct (p !! t) as [os0|] eqn:Hp; try done; destruct Ho as (made & -> & _);
    assert (Hlo : live (operands o) s) by (intros i Hi; apply Hl; eapply Hok; [exact Hp| |exact Hi]; set_solver).
  - apply atomic_places; [done|]. intros i ->. eapply (Hx t _ i Hp). set_solver.
  - intros i Hi. by apply atomic_local; [|apply Hl].
Qed.

(** ** Properties *)

(** The handle whose fields a thread is about to read or write. *)
Definition touches (th : Thread) (i : nat) : Prop :=
  exists o X (e : access_to X) k, phase th = Inside o (Vis e k) /\ touched e = Some i.

Lemma touches_held c a t th i : matches c a -> c.2 !! t = Some th -> touches th i -> owner c.1 !! i = Some t.
Proof.
  intros Hm Ht (o & X & e & k & Hp & He). apply (matches_owner _ _ Hm). exists th. split; [done|].
  pose proof (matches_threads _ _ Hm t) as H. rewrite Ht in H. destruct (a.2 !! t); [|done]. destruct H as [_ H].
  unfold held. rewrite Hp in *. destruct H as (os & _ & [(_ & Hc & _)|(r & Hno & _)]); [|done].
  simpl in Hc. rewrite He in Hc. by destruct Hc.
Qed.

Lemma results_fine c a t th r f : matches c a -> c.2 !! t = Some th -> r ∈ results th -> r <> Crash f.
Proof.
  intros Hm Ht Hr. pose proof (matches_threads _ _ Hm t) as H. rewrite Ht in H. destruct (a.2 !! t) as [x|] eqn:Hx; [|done].
  apply (matches_fine _ _ Hm t x r f Hx). destruct H as [_ H].
  destruct (phase th); [by subst x|by destruct H as [-> _]| |by destruct H as [-> _]].
  destruct H as (os & _ & [(-> & _)|(r' & _ & -> & _)]); [done|]. simpl. set_solver.
Qed.

(** C29. [ResourcePtr] is thread-safe.  However threads interleave their calls on handles they share,
    access by access, the outcome is one of calls made one at a time: every thread
    made its calls in order with the results of such a run, which agrees on the calls
    of deleters and on every handle whose mutex is free; a resource no one hands over again stays
    in one place or goes to its deleter once per time it was held.  No call fails an
    assertion or uses a handle out of its lifetime, no two threads are ever about to
    touch the fields of one handle, and the threads can always run to the end:
    none waits for a mutex for ever, in whatever order swaps and comparisons name
    their handles. *)
Theorem threads_atomic h p m ths : programs_ok h p -> rtc step (start h p) (m, ths) ->
  (exists s q, rtc atomic_step (atomic_start h p) (s, q) /\ in_order p (s, q) /\ calls m = ResourcePtr.freed s /\
     (forall t th, ths !! t = Some th -> phase th = Idle -> q !! t = Some (todo th, results th)) /\
     (forall i, owner m !! i = None -> fields m !! i = ResourcePtr.handles s !! i) /\
     (forall x, not_handed x.2 p -> ResourcePtr.places x s = map_count (ResourcePtr.holds x) h)) /\
  (forall t th r f, ths !! t = Some th -> r ∈ results th -> r <> Crash f) /\
  (forall t u th th' i, ths !! t = Some th -> ths !! u = Some th' -> touches th i -> touches th' i -> t = u) /\
  (exists c, rtc step (m, ths) c /\ finished c).
Proof.
  intros Hok Hr. destruct (steps_simulated _ _ _ (start_matches h p Hok) Hr) as ([s q] & Ha & Hm).
  split; [exists s, q|split; [|split]].
  - split; [done|]. split.
    { eapply atomic_in_order; [exact Ha|]. intros t. simpl. rewrite lookup_fmap. destruct (p !! t); [by exists []|done]. }
    split; [apply (matches_calls _ _ Hm)|]. split; [|split; [apply (matches_free _ _ Hm)|intros x; by apply (atomic_steps_places h p (s, q))]].
    intros t th Ht Hp. pose proof (matches_threads _ _ Hm t) as H. simpl in H. rewrite Ht in H. destruct (q !! t); [|done].
    destruct H as [_ H]. rewrite Hp in H. by subst.
  - intros t th r f Ht. by apply (results_fine _ _ t th r f Hm).
  - intros t u th th' i Ht Hu H1 H2. pose proof (touches_held _ _ t th i Hm Ht H1). pose proof (touches_held _ _ u th' i Hm Hu H2). congruence.
  - by apply (runs_to_end _ _ Hm).
Qed.

(** ** Schedules *)

(** A run by a given schedule; a thread that cannot go on is passed over. *)
Definition turn (t : nat) (sw : bool) (c : config) : config :=
  match th ← c.2 !! t; next t sw c.1 th with
  | Some (m', th') => (m', <[t := th']> c.2)
  | None => c
  end.

Fixpoint execute (sched : list (nat * bool)) (c : config) : config :=
  match sched with
  | [] => c
  | (t, sw) :: sched => execute sched (turn t sw c)
  end.

Lemma execute_steps sched : forall c, rtc step c (execute sched c).
Proof.
  induction sched as [|[t sw] sched IH]; intros [m p]; simpl; [done|]. etransitivity; [|apply IH].
  unfold turn. simpl. destruct (p !! t) as [th|] eqn:Ht; simpl; [|done].
  destruct (next t sw m th) as [[m' th']|] eqn:Hn; [|done]. by eapply step_run.
Qed.
End Defs.

(** ** Witnesses *)

Section Witness.
Definition may_throw (d : nat) (r : Z) : option exn := if Nat.eqb d 1 then Some (runtime_error "unlink") else None.

(** Two threads that swap the same handles in opposite orders, and a third that
    frees one of them. *)
Definition shared : gmap nat (ResourcePtr.ResourcePtr (R := Z) (D := nat)) :=
  {[ 1%nat := ResourcePtr.mkPtr 5 0%nat true; 2%nat := ResourcePtr.mkPtr 6 1%nat true ]}.
Definition programs : gmap nat (list (operation (R := Z))) :=
  {[ 1%nat := [Swap 1 2; Get 1]; 2%nat := [Swap 2 1; Compare LT 1 2]; 3%nat := [Dealloc 1; Release 1] ]}.

(** Both have one mutex, the first backs off. *)
Definition collision : list (nat * bool) :=
  [(1%nat, false); (2%nat, false); (1%nat, false); (2%nat, false)] ++ repeat (2%nat, false) 40 ++
  repeat (3%nat, false) 20 ++ repeat (1%nat, true) 40.

Definition final := execute may_throw Z.eqb Z.ltb collision (start shared programs).

Lemma programs_cases t os o : programs !! t = Some os -> o ∈ os ->
  o ∈ [Swap 1 2; Get 1; Swap 2 1; Compare LT 1 2; Dealloc 1; Release 1].
Proof.
  intros Ht Ho. unfold programs in Ht. apply lookup_insert_Some in Ht as [[_ <-]|[_ Ht]]; [set_solver|].
  apply lookup_insert_Some in Ht as [[_ <-]|[_ Ht]]; [set_solver|]. apply lookup_singleton_Some in Ht as [_ <-]. set_solver.
Qed.

Lemma programs_fine : programs_ok shared programs.
Proof.
  assert (Hs : forall i, i ∈ [1; 2]%nat -> is_Some (shared !! i)).
  { intros i [->|[->|[]%not_elem_of_nil]%elem_of_cons]%elem_of_cons; by eexists. }
  intros t os o i Ht Ho Hi. apply Hs. pose proof (programs_cases t os o Ht Ho) as Hc.
  repeat (apply elem_of_cons in Hc as [->|Hc]; [simpl in Hi; set_solver|]). by apply not_elem_of_nil in Hc.
Qed.

(** At the end of this run resource 6 has gone to its deleter, once, in a run of calls
    made one at a time as well. *)
Lemma threads_atomic_witness :
  exists s q, rtc (atomic_step may_throw Z.eqb Z.ltb) (atomic_start shared programs) (s, q) /\
    ResourcePtr.freed s = [(1%nat, 6)] /\ ResourcePtr.places (0%nat, 5) s = 1.
Proof.
  destruct final as [m ths] eqn:Hf.
  assert (Hm : calls m = [(1%nat, 6)]) by (change m with (m, ths).1; rewrite <- Hf; vm_compute; reflexivity).
  assert (Hr : rtc (step may_throw Z.eqb Z.ltb) (start shared programs) (m, ths)) by (rewrite <- Hf; apply execute_steps).
  destruct (threads_atomic may_throw Z.eqb Z.ltb shared programs m ths programs_fine Hr)
    as [(s & q & Ha & _ & Hc & _ & _ & Hx) _].
  exists s, q. split; [exact Ha|]. split; [by rewrite <- Hc|].
  rewrite (Hx (0%nat, 5)); [vm_compute; reflexivity|].
  intros t os i Ht Ho. pose proof (programs_cases t os _ Ht Ho) as H.
  repeat (apply elem_of_cons in H as [H|H]; [discriminate H|]). by apply not_elem_of_nil in H.
Defined.
End Witness.
End ResourceLocks.
