(* ===== verification/ServiceInv.v ===== *)
(** * The invariants of the service

    Three tables describe the handlers: the chains of requests for a key, the
    callbacks the credentials cache holds, and the jobs of the two rate limiters.
    Each invariant is stated on the part of a handler it is about, and each
    operation changes the parts by one of the lemmas of this file. *)

From Stdlib Require Import Sorting.Sorted.
From S2P Require Import Prelude.
From S2P Require Import Thumbnailer.
From S2P Require Import RateLimiter.
From S2P Require Import Credentials.
From S2P Require Import Service.
Import Service.

Module ServiceInv.

(** ** The chains of requests for a key *)

Inductive phase : Type := Waiting | Active | Done.

Definition phase_of (st : stage) : phase :=
  match st with NotBegun => Waiting | Finished => Done | _ => Active end.

Notation entry := (string * list nat * phase)%type.

(** The handlers behind the first: none has begun, each is connected to the next. *)
Fixpoint waits (m : gmap nat entry) (k : string) (v : list nat) : Prop :=
  match v with
  | [] => True
  | h :: t => m !! h = Some (k, take 1 t, Waiting) /\ waits m k t
  end.

(** The first has begun, unless it is [fresh]. *)
Definition chain (m : gmap nat entry) (fresh : option nat) (k : string) (v : list nat) : Prop :=
  match v with
  | [] => False
  | h :: t => m !! h = Some (k, take 1 t, if decide (fresh = Some h) then Waiting else Active) /\ waits m k t
  end.

Record KeysInv (m : gmap nat entry) (rq : gset nat) (ks : gmap string (list nat)) (fresh : option nat) : Prop := {
  keys_chain : forall k v, ks !! k = Some v -> NoDup v /\ chain m fresh k v;
  keys_requests : forall h, h ∈ rq <-> exists k v, ks !! k = Some v /\ h ∈ v;
  keys_fresh : forall h, fresh = Some h -> exists k t, ks !! k = Some (h :: t);
  keys_sorted : forall k v, ks !! k = Some v -> StronglySorted lt v
}.

Lemma waits_frame m h e k v : h ∉ v -> waits m k v -> waits (<[h := e]> m) k v.
Proof.
  induction v as [|g t IH]; simpl; [done|]. intros Hn [Hg Ht].
  rewrite lookup_insert_ne by set_solver. split; [done|]. apply IH; set_solver.
Qed.

Lemma waits_delete m h k v : h ∉ v -> waits m k v -> waits (delete h m) k v.
Proof.
  induction v as [|g t IH]; simpl; [done|]. intros Hn [Hg Ht].
  rewrite lookup_delete_ne by set_solver. split; [done|]. apply IH; set_solver.
Qed.

Lemma waits_key m k v h : waits m k v -> h ∈ v -> exists t, m !! h = Some (k, take 1 t, Waiting).
Proof.
  induction v as [|g t IH]; [set_solver|]. intros [Hg Ht] [-> |Hin]%elem_of_cons; eauto.
Qed.

Lemma chain_key m fresh k v h :
  chain m fresh k v -> h ∈ v -> exists c p, m !! h = Some (k, c, p) /\ p <> Done.
Proof.
  destruct v as [|g t]; [set_solver|]. intros [Hg Ht] [-> |Hin]%elem_of_cons.
  - eexists _, _. split; [done|]. by destruct (decide _).
  - destruct (waits_key m k t h Ht Hin) as [t' ?]. by eexists _, _.
Qed.

(** A handler is in at most one chain, that of its key. *)
Lemma chain_same m fresh k k' v v' h :
  chain m fresh k v -> chain m fresh k' v' -> h ∈ v -> h ∈ v' -> k = k'.
Proof.
  intros H1 H2 I1 I2. destruct (chain_key m fresh k v h H1 I1) as (? & ? & E1 & _).
  destruct (chain_key m fresh k' v' h H2 I2) as (? & ? & E2 & _). congruence.
Qed.

Lemma chain_frame m fresh k v h e : h ∉ v -> chain m fresh k v -> chain (<[h := e]> m) fresh k v.
Proof.
  destruct v as [|g t]; [done|]. intros Hn [Hg Ht]. simpl. rewrite lookup_insert_ne by set_solver.
  split; [done|]. apply waits_frame; set_solver.
Qed.

Lemma chain_fresh m f f' k v :
  (forall h, h ∈ v -> f = Some h <-> f' = Some h) -> chain m f k v -> chain m f' k v.
Proof.
  destruct v as [|g t]; [done|]. intros Hf [Hg Ht]. split; [|done].
  destruct (Hf g) as [H1 H2]; [by constructor|].
  rewrite Hg. by destruct (decide (f = Some g)), (decide (f' = Some g)); try tauto.
Qed.

(** The first of a chain begins. *)
Lemma keys_begin m rq ks h k c :
  m !! h = Some (k, c, Waiting) -> KeysInv m rq ks (Some h) -> KeysInv (<[h := (k, c, Active)]> m) rq ks None.
Proof.
  intros Hh [Hc Hr Hf Hs]. destruct (Hf h eq_refl) as (k0 & t0 & H0).
  destruct (Hc k0 _ H0) as [Hn0 Hch0]. split; [|done|done|done]. intros k' v Hv.
  destruct (Hc k' v Hv) as [Hn Hch]. split; [done|]. destruct (decide (h ∈ v)) as [Hin|Hout].
  - assert (k' = k0) as -> by (eapply (chain_same m (Some h) k' k0 v); eauto; by constructor).
    assert (v = h :: t0) as -> by congruence. destruct Hch as [Hg Ht]. rewrite Hh in Hg.
    injection Hg as -> -> _. apply NoDup_cons in Hn as [Hgt _]. simpl. rewrite lookup_insert_eq.
    split; [done|]. by apply waits_frame.
  - apply chain_frame; [done|]. apply (chain_fresh _ (Some h)); [|done]. intros g Hg.
    split; [|done]. intros [= ->]. done.
Qed.

Definition without (h : nat) (k : string) (ks : gmap string (list nat)) : gmap string (list nat) :=
  let v := filter (fun g => g <> h) (default [] (ks !! k)) in
  match v with
  | [] => delete k ks
  | _ => <[k := v]> ks
  end.

Lemma filter_out (h : nat) t : h ∉ t -> filter (fun g => g <> h) (h :: t) = t.
Proof.
  intros Hn. rewrite filter_cons_False by naive_solver.
  induction t as [|g t IH]; [done|]. rewrite filter_cons_True by set_solver. f_equal. apply IH. set_solver.
Qed.

Lemma without_lookup h t k ks k' v :
  ks !! k = Some (h :: t) -> h ∉ t -> without h k ks !! k' = Some v ->
  (k' = k /\ v = t /\ t <> []) \/ (k' <> k /\ ks !! k' = Some v).
Proof.
  intros Hk Hn. unfold without. rewrite Hk. simpl default. rewrite (filter_out h t Hn).
  destruct t as [|g t]; destruct (decide (k' = k)) as [-> |Hne].
  - by rewrite lookup_delete_eq.
  - rewrite lookup_delete_ne by done. auto.
  - rewrite lookup_insert_eq. intros [= <-]. auto.
  - rewrite lookup_insert_ne by done. auto.
Qed.

Lemma without_other h t k ks k' :
  ks !! k = Some (h :: t) -> h ∉ t -> k' <> k -> without h k ks !! k' = ks !! k'.
Proof.
  intros Hk Hn Hne. unfold without. rewrite Hk. simpl default. rewrite (filter_out h t Hn).
  destruct t; [by rewrite lookup_delete_ne|by rewrite lookup_insert_ne].
Qed.

Lemma without_this h t k ks :
  ks !! k = Some (h :: t) -> h ∉ t -> without h k ks !! k = match t with [] => None | _ => Some t end.
Proof.
  intros Hk Hn. unfold without. rewrite Hk. simpl default. rewrite (filter_out h t Hn).
  destruct t; [by rewrite lookup_delete_eq|by rewrite lookup_insert_eq].
Qed.

(** The first of a chain is finished: the next one is to begin. *)
Lemma keys_finish m rq ks h t k c p :
  ks !! k = Some (h :: t) -> KeysInv m rq ks None ->
  KeysInv (<[h := (k, c, p)]> m) (rq ∖ {[h]}) (without h k ks) (head t).
Proof.
  intros Hk [Hc Hr _ Hs]. destruct (Hc k _ Hk) as [Hn Hch]. pose proof Hn as [Hht Hnt]%NoDup_cons.
  assert (Hother : forall k' v, k' <> k -> ks !! k' = Some v -> h ∉ v).
  { intros k' v Hne Hv Hin. apply Hne. eapply (chain_same m None k' k v); eauto;
      [by apply Hc|by constructor]. }
  split.
  - intros k' v Hv. destruct (without_lookup h t k ks k' v Hk Hht Hv) as [(-> & -> & Ht)|[Hne Hv']].
    + split; [done|]. destruct t as [|g t]; [done|]. destruct Hch as [_ [Hg Ht']].
      simpl. rewrite lookup_insert_ne by set_solver. rewrite decide_True by done.
      split; [done|]. apply waits_frame; [set_solver|done].
    + destruct (Hc k' v Hv') as [Hnv Hchv]. split; [done|]. apply chain_frame; [eauto|].
      apply (chain_fresh _ None); [|done]. intros g Hg. split; [done|]. intros Hg'.
      exfalso. apply Hne. eapply (chain_same m None k' k v _ g); eauto.
      destruct t as [|g' t]; [done|]. injection Hg' as ->. set_solver.
  - intros g. rewrite elem_of_difference, Hr, elem_of_singleton. split.
    + intros [(k' & v & Hv & Hg) Hne]. destruct (decide (k' = k)) as [-> |Hk'].
      * assert (v = h :: t) as -> by congruence. exists k, t. rewrite (without_this h t k ks Hk Hht).
        apply elem_of_cons in Hg as [|Hg]; [done|]. split; [destruct t; [set_solver|done]|done].
      * exists k', v. by rewrite (without_other h t k ks k' Hk Hht Hk').
    + intros (k' & v & Hv & Hg). destruct (without_lookup h t k ks k' v Hk Hht Hv) as [(-> & -> & Ht)|[Hne Hv']].
      * split; [exists k, (h :: t); split; [done|by constructor]|]. intros ->. done.
      * split; [by exists k', v|]. intros ->. by apply (Hother k' v).
  - intros g Hg. destruct t as [|g' t]; [done|]. injection Hg as ->. exists k, t.
    by rewrite (without_this h _ k ks Hk Hht).
  - intros k' v Hv. destruct (without_lookup h t k ks k' v Hk Hht Hv) as [(-> & -> & Ht)|[Hne Hv']]; [|eauto].
    by destruct (StronglySorted_inv (Hs k _ Hk)).
Qed.

(** Who has begun and is not finished is the first of its chain. *)
Lemma keys_head m rq ks h k c :
  m !! h = Some (k, c, Active) -> h ∈ rq -> KeysInv m rq ks None ->
  exists t, ks !! k = Some (h :: t) /\ c = take 1 t /\ h ∉ t.
Proof.
  intros Hh Hin [Hc Hr _ _]. apply Hr in Hin as (k' & v & Hv & Hin). destruct (Hc k' v Hv) as [Hn Hch].
  destruct v as [|g t]; [done|]. destruct Hch as [Hg Ht]. apply NoDup_cons in Hn as [Hgt _].
  apply elem_of_cons in Hin as [<- |Hin].
  - rewrite Hh in Hg. injection Hg as -> ->. by exists t.
  - destruct (waits_key m k' t h Ht Hin) as [t' E]. congruence.
Qed.

(** A new handler, the first for its key, or behind the others. *)
Lemma keys_first m rq ks h k p :
  m !! h = None -> ks !! k = None -> KeysInv m rq ks None -> p = Active ->
  KeysInv (<[h := (k, [], p)]> m) ({[h]} ∪ rq) (<[k := [h]]> ks) None.
Proof.
  intros Hh Hk [Hc Hr _ Hs] ->. split; [| |done|].
  - intros k' v. destruct (decide (k' = k)) as [-> |Hne].
    + rewrite lookup_insert_eq. intros [= <-]. split; [apply NoDup_singleton|].
      simpl. by rewrite lookup_insert_eq.
    + rewrite lookup_insert_ne by done. intros Hv. destruct (Hc k' v Hv) as [Hn Hch]. split; [done|].
      apply chain_frame; [|done]. intros Hin. destruct (chain_key m None k' v h Hch Hin) as (? & ? & E & _). congruence.
  - intros g. rewrite elem_of_union, elem_of_singleton, Hr. split.
    + intros [-> |(k' & v & Hv & Hg)]; [exists k, [h]; rewrite lookup_insert_eq; split; [done|by constructor]|].
      exists k', v. rewrite lookup_insert_ne by congruence. done.
    + intros (k' & v & Hv & Hg). destruct (decide (k' = k)) as [-> |Hne].
      * rewrite lookup_insert_eq in Hv. injection Hv as <-. left. set_solver.
      * rewrite lookup_insert_ne in Hv by done. right. eauto.
  - intros k' v. destruct (decide (k' = k)) as [-> |Hne].
    + rewrite lookup_insert_eq. intros [= <-]. repeat constructor.
    + rewrite lookup_insert_ne by done. eauto.
Qed.

Lemma sorted_snoc (v : list nat) h :
  StronglySorted lt v -> Forall (fun g => g < h)%nat v -> StronglySorted lt (v ++ [h]).
Proof.
  induction 1 as [|a v Hv IH Ha]; intros Hf; [repeat constructor|].
  apply Forall_cons in Hf as [Hah Hf]. simpl. constructor; [by apply IH|].
  apply Forall_app. split; [done|by repeat constructor].
Qed.

Lemma waits_append m k v b h :
  NoDup (v ++ [b]) -> h ∉ v ++ [b] -> waits m k (v ++ [b]) ->
  waits (<[h := (k, [], Waiting)]> (<[b := (k, [h], Waiting)]> m)) k (v ++ [b; h]).
Proof.
  induction v as [|g v IH]; simpl; intros Hn Hh.
  - intros _. rewrite lookup_insert_ne, lookup_insert_eq, lookup_insert_eq by set_solver. done.
  - intros [Hg Ht]. apply NoDup_cons in Hn as [Hgv Hn].
    rewrite !lookup_insert_ne by set_solver. split; [|apply IH; set_solver].
    rewrite Hg. by destruct v.
Qed.

Lemma keys_append m rq ks h k v b c p :
  (forall g, g ∈ v ++ [b] -> (g < h)%nat) -> m !! h = None -> ks !! k = Some (v ++ [b]) -> m !! b = Some (k, c, p) -> KeysInv m rq ks None ->
  KeysInv (<[h := (k, [], Waiting)]> (<[b := (k, c ++ [h], p)]> m)) ({[h]} ∪ rq) (<[k := v ++ [b; h]]> ks) None.
Proof.
  intros Hlt Hh Hk Hb [Hc Hr _ Hs]. destruct (Hc k _ Hk) as [Hn Hch].
  assert (Hnew : forall k' v', ks !! k' = Some v' -> h ∉ v').
  { intros k' v' Hv' Hin. destruct (Hc k' v' Hv') as [_ Hch'].
    destruct (chain_key m None k' v' h Hch' Hin) as (? & ? & E & _). congruence. }
  pose proof (Hnew k _ Hk) as Hhv. assert (Hhb : h <> b) by set_solver. split; [| |done|].
  - intros k' v'. destruct (decide (k' = k)) as [-> |Hne].
    + rewrite lookup_insert_eq. intros [= <-]. split.
      { change [b; h] with ([b] ++ [h]). rewrite app_assoc. apply NoDup_app. split_and!; [done|set_solver|apply NoDup_singleton]. }
      destruct v as [|g v]; simpl in Hch |- *.
      * destruct Hch as [Hg _]. rewrite Hb in Hg. injection Hg as -> ->.
        rewrite lookup_insert_ne, lookup_insert_eq, lookup_insert_eq by done. done.
      * destruct Hch as [Hg Ht]. apply NoDup_cons in Hn as [Hgv Hn].
        rewrite !lookup_insert_ne by set_solver. split; [rewrite Hg; by destruct v|].
        assert (Hbw : m !! b = Some (k, [], Waiting)).
        { clear -Ht. induction v as [|a v IH]; [by destruct Ht|]. destruct Ht as [_ Ht]. by apply IH. }
        rewrite Hb in Hbw. injection Hbw as -> ->. apply waits_append; [done|set_solver|done].
    + rewrite lookup_insert_ne by done. intros Hv'. destruct (Hc k' v' Hv') as [Hn' Hch']. split; [done|].
      apply chain_frame; [by eapply Hnew|]. apply chain_frame; [|done].
      intros Hin. apply Hne. eapply (chain_same m None k' k v'); eauto. set_solver.
  - intros g. rewrite elem_of_union, elem_of_singleton, Hr. split.
    + intros [-> |(k' & v' & Hv' & Hg)]; [exists k, (v ++ [b; h]); rewrite lookup_insert_eq; split; [done|set_solver]|].
      destruct (decide (k' = k)) as [-> |Hne].
      * exists k, (v ++ [b; h]). rewrite lookup_insert_eq. split; [done|]. assert (v' = v ++ [b]) as -> by congruence. set_solver.
      * exists k', v'. by rewrite lookup_insert_ne.
    + intros (k' & v' & Hv' & Hg). destruct (decide (k' = k)) as [-> |Hne].
      * rewrite lookup_insert_eq in Hv'. injection Hv' as <-.
        destruct (decide (g = h)) as [-> |Hgh]; [by left|right]. exists k, (v ++ [b]). split; [done|set_solver].
      * rewrite lookup_insert_ne in Hv' by done. right. eauto.
  - intros k' v'. destruct (decide (k' = k)) as [-> |Hne].
    + rewrite lookup_insert_eq. intros [= <-]. change [b; h] with ([b] ++ [h]). rewrite app_assoc.
      apply sorted_snoc; [by eapply Hs|]. by apply list.Forall_forall.
    + rewrite lookup_insert_ne by done. eauto.
Qed.

(** A finished handler is destroyed. *)
Lemma keys_delete m rq ks h :
  h ∉ rq -> KeysInv m rq ks None -> KeysInv (delete h m) rq ks None.
Proof.
  intros Hh [Hc Hr _ Hs]. split; [|done|done|done]. intros k v Hv. destruct (Hc k v Hv) as [Hn Hch]. split; [done|].
  assert (Hhv : h ∉ v). { intros Hin. apply Hh, Hr. eauto. }
  destruct v as [|g t]; [done|]. destruct Hch as [Hg Ht]. simpl. rewrite lookup_delete_ne by set_solver.
  split; [done|]. apply waits_delete; set_solver.
Qed.

(** ** The callbacks held by the credentials cache *)

(** [m]: the handlers that wait for credentials, with their peer; [loose]: those
    among them whose callback is about to run. *)
Record CredsInv (m : gmap nat string) (p : gmap string (list nat)) (loose : list nat) : Prop := {
  loose_nodup : NoDup loose;
  pending_nodup : forall peer ks, p !! peer = Some ks -> NoDup ks;
  pending_awaits : forall peer ks h, p !! peer = Some ks -> h ∈ ks -> h ∉ loose /\ m !! h = Some peer;
  loose_awaits : forall h, h ∈ loose -> is_Some (m !! h);
  awaits_held : forall h peer, m !! h = Some peer -> h ∈ loose \/ exists ks, p !! peer = Some ks /\ h ∈ ks;
  pending_nonempty : forall peer ks, p !! peer = Some ks -> ks <> []
}.

Lemma creds_ask m p loose h peer :
  m !! h = None -> CredsInv m p loose ->
  CredsInv (<[h := peer]> m) (<[peer := default [] (p !! peer) ++ [h]]> p) loose.
Proof.
  intros Hh [H1 H2 H3 H4 H5 H6].
  assert (Hout : forall peer' ks, p !! peer' = Some ks -> h ∉ ks).
  { intros peer' ks Hp Hin. destruct (H3 _ _ _ Hp Hin). congruence. }
  assert (Hd : NoDup (default [] (p !! peer)) /\ h ∉ default [] (p !! peer) /\
               forall g, g ∈ default [] (p !! peer) -> g ∉ loose /\ m !! g = Some peer).
  { destruct (p !! peer) as [ks|] eqn:E; simpl;
      [split_and!; [by eapply H2|by eapply Hout|intros; by eapply H3]|]. split_and!; [constructor|set_solver|set_solver]. }
  destruct Hd as (Hd1 & Hd2 & Hd3). split; [done|..].
  - intros peer' ks. destruct (decide (peer' = peer)) as [-> |Hne].
    + rewrite lookup_insert_eq. intros [= <-]. apply NoDup_app. split_and!; [done|set_solver|apply NoDup_singleton].
    + rewrite lookup_insert_ne by done. apply H2.
  - intros peer' ks g. destruct (decide (peer' = peer)) as [-> |Hne].
    + rewrite lookup_insert_eq. intros [= <-] [Hg|Hg]%elem_of_app.
      * rewrite lookup_insert_ne by congruence. auto.
      * apply list_elem_of_singleton in Hg as ->. rewrite lookup_insert_eq. split; [|done].
        intros Hl. destruct (H4 _ Hl). congruence.
    + rewrite lookup_insert_ne by done. intros Hp Hg. rewrite lookup_insert_ne; [eauto|].
      intros ->. by apply (Hout peer' ks).
  - intros g Hg. rewrite lookup_insert_ne; [auto|]. intros <-. destruct (H4 _ Hg). congruence.
  - intros g peer'. destruct (decide (g = h)) as [-> |Hne].
    + rewrite lookup_insert_eq. intros [= <-]. right. rewrite lookup_insert_eq. eexists. split; [done|set_solver].
    + rewrite lookup_insert_ne by done. intros [Hg|(ks & Hp & Hg)]%H5; [by left|right].
      destruct (decide (peer' = peer)) as [-> |Hn]; [|exists ks; by rewrite lookup_insert_ne].
      rewrite lookup_insert_eq, Hp. eexists. split; [done|]. simpl. set_solver.
  - intros peer' ks. destruct (decide (peer' = peer)) as [-> |Hne].
    + rewrite lookup_insert_eq. intros [= <-]. by destruct (default [] (p !! peer)).
    + rewrite lookup_insert_ne by done. apply H6.
Qed.

Lemma creds_hold m p loose h peer :
  m !! h = None -> CredsInv m p loose -> CredsInv (<[h := peer]> m) p (h :: loose).
Proof.
  intros Hh [H1 H2 H3 H4 H5 H6]. split; [|done| | | |done].
  - constructor; [|done]. intros Hl. destruct (H4 _ Hl). congruence.
  - intros peer' ks g Hp Hg. destruct (H3 _ _ _ Hp Hg) as [Hl Hm].
    assert (g <> h) by congruence. rewrite lookup_insert_ne by done. split; [set_solver|done].
  - intros g [-> |Hg]%elem_of_cons; [by rewrite lookup_insert_eq|].
    destruct (decide (g = h)) as [-> |]; [by rewrite lookup_insert_eq|]. rewrite lookup_insert_ne by done. auto.
  - intros g peer'. destruct (decide (g = h)) as [-> |Hne]; [left; by constructor|].
    rewrite lookup_insert_ne by done. intros [Hg|?]%H5; [left; by constructor|by right].
Qed.

Lemma creds_release m p loose h : CredsInv m p (h :: loose) -> CredsInv (delete h m) p loose.
Proof.
  intros [[Hl H1]%NoDup_cons H2 H3 H4 H5 H6]. split; [done|done| | | |done].
  - intros peer ks g Hp Hg. destruct (H3 _ _ _ Hp Hg) as [Hgl Hm].
    rewrite lookup_delete_ne by set_solver. split; [set_solver|done].
  - intros g Hg. rewrite lookup_delete_ne by set_solver. apply H4. by constructor.
  - intros g peer [Hne Hg]%lookup_delete_Some. destruct (H5 _ _ Hg) as [[-> |?]%elem_of_cons|?]; auto. done.
Qed.

Lemma creds_take m p peer ks : p !! peer = Some ks -> CredsInv m p [] -> CredsInv m (delete peer p) ks.
Proof.
  intros Hp [H1 H2 H3 H4 H5 H6]. split; [by eapply H2|..].
  - intros peer' ks' [_ Hp']%lookup_delete_Some. by eapply H2.
  - intros peer' ks' g [Hne Hp']%lookup_delete_Some Hg. destruct (H3 _ _ _ Hp' Hg) as [_ Hm].
    split; [|done]. intros Hg'. destruct (H3 _ _ _ Hp Hg'). congruence.
  - intros g Hg. destruct (H3 _ _ _ Hp Hg) as [_ ->]. done.
  - intros g peer' Hm. destruct (H5 _ _ Hm) as [?|(ks' & Hp' & Hg)]; [set_solver|].
    destruct (decide (peer' = peer)) as [-> |Hne]; [left; congruence|right].
    exists ks'. by rewrite lookup_delete_ne.
  - intros peer' ks' [_ Hp']%lookup_delete_Some. by eapply H6.
Qed.

(** The two results of [get]. *)
Lemma get_cases peer (h : nat) c c' calls b :
  Credentials.get peer h c = (c', calls, b) ->
  Credentials.apparmor_enabled_ c' = Credentials.apparmor_enabled_ c /\
  ((calls = [] /\ cached peer c = None /\
    Credentials.pending_ c' = <[peer := default [] (Credentials.pending_ c !! peer) ++ [h]]> (Credentials.pending_ c)) \/
   (exists cr, calls = [(h, cr)] /\ cached peer c = Some cr /\ Credentials.pending_ c' = Credentials.pending_ c)).
Proof.
  unfold Credentials.get, cached. destruct (Credentials.cache_ c !! peer) as [cr|].
  - intros [= <- <- _]. split; [done|right]. by exists cr.
  - destruct (Credentials.old_cache_ c !! peer) as [cr|].
    + intros [= <- <- _]. split; [done|right]. by exists cr.
    + destruct (Credentials.pending_ c !! peer) as [ks|]; intros [= <- <- _]; simpl; auto.
Qed.

(** ** The jobs of a rate limiter *)

Inductive job_phase : Type := NoJob | Queued | Running.

#[export] Instance job_phase_eq_dec : EqDecision job_phase.
Proof. solve_decision. Defined.

Definition job_phase_of (st : stage) : job_phase :=
  match st with Scheduled => Queued | Downloading => Running | _ => NoJob end.

Notation job_entry := (limiter_id * job_phase * option RateLimiter.CancelFunc)%type.

Definition runs (i : limiter_id) (e : job_entry) : bool :=
  bool_decide (e.1.1 = i) && bool_decide (e.1.2 = Running).

Section Limiters.
Context {left : option Z}.

(** The slots nothing gives back, when [left] says how many are left. *)
Definition lost (r : RateLimiter.RateLimiter nat) : Z :=
  match left with Some n => RateLimiter.concurrency_ r - n | None => 0 end.

(** Every running job counts, every queued job has its cell, and a cell is
    cancelled by its own handler only. *)
Record LimInv (i : limiter_id) (m : gmap nat job_entry) (r : RateLimiter.RateLimiter nat) : Prop := {
  lim_wf : RateLimiter.wf r;
  lim_bound : RateLimiter.running_ r <= RateLimiter.concurrency_ r;
  lim_lost : 0 <= lost r;
  lim_running : RateLimiter.running_ r = lost r + map_count (runs i) m;
  lim_queued : forall h c, m !! h = Some (i, Queued, c) ->
    exists n, RateLimiter.mkSlot n (Some h) ∈ RateLimiter.list_ r;
  lim_slot : forall s, s ∈ RateLimiter.list_ r -> exists h, RateLimiter.slot_job s = Some h /\
    m !! h = Some (i, Queued, Some (RateLimiter.cancel_cell (RateLimiter.slot_id s)));
  lim_cell : forall h ph c, m !! h = Some (i, ph, Some (RateLimiter.cancel_cell c)) ->
    (c < RateLimiter.next_cell r)%nat /\
    forall s, s ∈ RateLimiter.list_ r -> RateLimiter.slot_id s = c -> RateLimiter.slot_job s = Some h
}.

(** A handler without a job of this limiter, before and after. *)
Definition idle_in (i : limiter_id) (o : option job_entry) : Prop :=
  match o with
  | Some (i', ph, c) => i' <> i \/ (ph = NoJob /\ c = None)
  | None => True
  end.

Lemma runs_idle i e : idle_in i (Some e) -> runs i e = false.
Proof.
  destruct e as [[i' ph] c]. unfold runs. simpl. intros [?|[-> _]].
  - by rewrite bool_decide_false.
  - by destruct (bool_decide (i' = i)).
Qed.

Lemma runs_nojob i i' c : runs i (i', NoJob, c) = false.
Proof. unfold runs. simpl. by destruct (bool_decide (i' = i)). Qed.

Lemma runs_queued i i' c : runs i (i', Queued, c) = false.
Proof. unfold runs. simpl. by destruct (bool_decide (i' = i)). Qed.

Lemma runs_running i c : runs i (i, Running, c) = true.
Proof. unfold runs. simpl. by rewrite (bool_decide_true (i = i)). Qed.

Lemma count_idle i (m : gmap nat job_entry) h e :
  idle_in i (m !! h) -> map_count (runs i) (<[h := e]> m) = map_count (runs i) m + Z.b2z (runs i e).
Proof.
  destruct (m !! h) as [e0|] eqn:E; intros Hi.
  - rewrite (map_count_update _ m h e0) by done. rewrite (runs_idle i e0 Hi). simpl. lia.
  - rewrite map_count_insert by done. lia.
Qed.

Lemma lim_other i m r h e :
  idle_in i (m !! h) -> idle_in i (Some e) -> LimInv i m r -> LimInv i (<[h := e]> m) r.
Proof.
  intros H0 He [H1 Hb Hlost H2 H3 H4 H5]. split; [done|done|done|..].
  - rewrite count_idle, (runs_idle i e He) by done. simpl. lia.
  - intros g c. destruct (decide (g = h)) as [-> |Hne]; [rewrite lookup_insert_eq|rewrite lookup_insert_ne by done; eauto].
    intros [= ->]. destruct He as [?|[? _]]; done.
  - intros s Hs. destruct (H4 s Hs) as (g & Hj & Hg). exists g. split; [done|].
    rewrite lookup_insert_ne; [done|]. intros ->. rewrite Hg in H0. by destruct H0 as [?|[? _]].
  - intros g ph c. destruct (decide (g = h)) as [-> |Hne]; [rewrite lookup_insert_eq|rewrite lookup_insert_ne by done; eauto].
    intros [= ->]. destruct He as [?|[_ ?]]; done.
Qed.

Lemma lim_delete i m r h i' c : m !! h = Some (i', NoJob, c) -> LimInv i m r -> LimInv i (delete h m) r.
Proof.
  intros Hh [H1 Hb Hlost H2 H3 H4 H5]. split; [done|done|done|..].
  - rewrite H2, (map_count_delete _ m h _ Hh), runs_nojob. simpl. lia.
  - intros g c' [_ Hg]%lookup_delete_Some. eauto.
  - intros s Hs. destruct (H4 s Hs) as (g & Hj & Hg). exists g. split; [done|].
    rewrite lookup_delete_ne; [done|]. intros ->. congruence.
  - intros g ph c' [_ Hg]%lookup_delete_Some. eauto.
Qed.

(** The cell of a handler without a job is gone: cancelling does nothing. *)
Lemma lim_cancel i m r h c :
  m !! h = Some (i, NoJob, Some c) -> LimInv i m r -> RateLimiter.call_cancel c r = (r, false).
Proof.
  intros Hh HI. destruct c as [|cell]; [done|]. simpl.
  destruct (RateLimiter.cell_alive cell (RateLimiter.list_ r)) eqn:E; [|done].
  apply RateLimiter.alive_ids, list_elem_of_fmap in E as (s & Hid & Hs).
  destruct (lim_cell i m r HI h NoJob cell Hh) as [_ Hc].
  destruct (lim_slot i m r HI s Hs) as (g & Hj & Hg). rewrite (Hc s Hs (eq_sym Hid)) in Hj.
  injection Hj as <-. congruence.
Qed.

Lemma lim_schedule i m r h r' c started :
  m !! h = Some (i, NoJob, None) -> LimInv i m r ->
  RateLimiter.schedule h r = (r', c, started) ->
  (started = [h] /\ LimInv i (<[h := (i, Running, Some c)]> m) r') \/
  (started = [] /\ LimInv i (<[h := (i, Queued, Some c)]> m) r').
Proof.
  intros Hh [H1 Hb Hlost H2 H3 H4 H5] Hs.
  assert (Hw : RateLimiter.wf r') by (apply (RateLimiter.schedule_wf h) in H1; by rewrite Hs in H1).
  assert (Hi : idle_in i (m !! h)) by (rewrite Hh; by right).
  unfold RateLimiter.schedule, RateLimiter.schedule_now in Hs.
  destruct (RateLimiter.running_ r <? RateLimiter.concurrency_ r) eqn:E; bsimpl;
    injection Hs as <- <- <-; simpl in *; [left|right]; (split; [done|]).
  - split; simpl; [done|lia|done|..].
    + unfold lost in *. simpl. rewrite count_idle, runs_running by done. simpl. lia.
    + intros g c. destruct (decide (g = h)) as [-> |Hne];
        [by rewrite lookup_insert_eq|rewrite lookup_insert_ne by done; eauto].
    + intros s Hs. destruct (H4 s Hs) as (g & Hj & Hg). exists g. split; [done|].
      rewrite lookup_insert_ne; [done|]. intros ->. congruence.
    + intros g ph c. destruct (decide (g = h)) as [-> |Hne];
        [by rewrite lookup_insert_eq|rewrite lookup_insert_ne by done; eauto].
  - destruct H1 as (_ & _ & _ & _ & Hlt). rewrite list.Forall_forall in Hlt. split; simpl; [done|done|done|..].
    + unfold lost in *. simpl. rewrite count_idle, runs_queued by done. simpl. lia.
    + intros g c. destruct (decide (g = h)) as [-> |Hne].
      * intros _. eexists. apply elem_of_app. right. by constructor.
      * rewrite lookup_insert_ne by done. intros Hg. destruct (H3 g c Hg) as [n Hn]. exists n.
        apply elem_of_app. by left.
    + intros s [Hs|Hs%list_elem_of_singleton]%elem_of_app.
      * destruct (H4 s Hs) as (g & Hj & Hg). exists g. split; [done|].
        rewrite lookup_insert_ne; [done|]. intros ->. congruence.
      * subst s. exists h. by rewrite lookup_insert_eq.
    + intros g ph c. destruct (decide (g = h)) as [-> |Hne].
      * rewrite lookup_insert_eq. intros [= _ <-]. split; [lia|].
        intros s [Hs|Hs%list_elem_of_singleton]%elem_of_app Hid; [specialize (Hlt s Hs); lia|by subst s].
      * rewrite lookup_insert_ne by done. intros Hg. destruct (H5 g ph c Hg) as [Hc Hcell].
        split; [lia|]. intros s [Hs|Hs%list_elem_of_singleton]%elem_of_app Hid; [by apply Hcell|].
        subst s. simpl in Hid. lia.
Qed.

Lemma limiter_done_total (r : RateLimiter.RateLimiter nat) :
  0 < RateLimiter.running_ r -> exists r' started, RateLimiter.done r = Ok (r', started).
Proof.
  intros Hp. unfold RateLimiter.done. rewrite (proj2 (Z.ltb_lt _ _) Hp). simpl.
  destruct (RateLimiter.pop_job _) as [l []]; simpl; eauto.
Qed.

Lemma lim_running_pos i m r h c :
  m !! h = Some (i, Running, c) -> LimInv i m r -> 0 < RateLimiter.running_ r.
Proof.
  intros Hh HI. rewrite (lim_running _ _ _ HI), (map_count_delete _ m h _ Hh), runs_running. simpl.
  pose proof (map_count_nonneg (runs i) (delete h m)). pose proof (lim_lost _ _ _ HI). lia.
Qed.

(** A job ends and nothing is queued. *)
Lemma lim_done_last i m r r' h c :
  m !! h = Some (i, Running, c) -> LimInv i m r -> RateLimiter.wf r' ->
  RateLimiter.concurrency_ r' = RateLimiter.concurrency_ r -> RateLimiter.next_cell r' = RateLimiter.next_cell r ->
  RateLimiter.list_ r = [] -> RateLimiter.list_ r' = [] -> RateLimiter.running_ r' = RateLimiter.running_ r - 1 ->
  LimInv i (<[h := (i, NoJob, c)]> m) r'.
Proof.
  intros Hh [H1 Hb Hlost H2 H3 H4 H5] Hw Hcc Hnx Hl Hl' Hr'. unfold lost in *. split; rewrite ?Hl', ?Hcc, ?Hnx; unfold lost; rewrite ?Hcc; [done|lia|done|..].
  - rewrite (map_count_update _ m h _ _ Hh), runs_running, runs_nojob. simpl. lia.
  - intros g cg. destruct (decide (g = h)) as [-> |Hne];
      [by rewrite lookup_insert_eq|rewrite lookup_insert_ne by done]. intros Hg.
    destruct (H3 g cg Hg) as [n Hn]. rewrite Hl in Hn. set_solver.
  - set_solver.
  - intros g ph cc Hg. split; [|set_solver]. destruct (decide (g = h)) as [-> |Hne].
    + rewrite lookup_insert_eq in Hg. injection Hg as _ ->. by eapply H5.
    + rewrite lookup_insert_ne in Hg by done. by eapply H5.
Qed.

(** A job ends and the newest queued one, [g], starts in its place. *)
Lemma lim_done_next i m r r' h c g n :
  m !! h = Some (i, Running, c) -> LimInv i m r -> RateLimiter.wf r' ->
  RateLimiter.concurrency_ r' = RateLimiter.concurrency_ r -> RateLimiter.next_cell r' = RateLimiter.next_cell r ->
  RateLimiter.list_ r = RateLimiter.list_ r' ++ [RateLimiter.mkSlot n (Some g)] ->
  RateLimiter.running_ r' = RateLimiter.running_ r ->
  m !! g = Some (i, Queued, Some (RateLimiter.cancel_cell n)) ->
  LimInv i (<[h := (i, NoJob, c)]> (<[g := (i, Running, Some (RateLimiter.cancel_cell n))]> m)) r'.
Proof.
  intros Hh [H1 Hb Hlost H2 H3 H4 H5] Hw Hcc Hnx Hl Hr' Hg. unfold lost in *. assert (Hne : g <> h) by congruence.
  assert (Hsub : forall s, s ∈ RateLimiter.list_ r' -> s ∈ RateLimiter.list_ r /\ RateLimiter.slot_id s <> n).
  { intros s Hs. split; [rewrite Hl; set_solver|]. intros Hid. destruct H1 as (_ & _ & _ & Hnd & _).
    rewrite Hl, fmap_app in Hnd. apply NoDup_app in Hnd as (_ & Hnd & _).
    apply (Hnd n); [rewrite <- Hid; by apply list_elem_of_fmap_2|by constructor]. }
  assert (Hlk : forall g' ph cg, <[h:=(i, NoJob, c)]> (<[g:=(i, Running, Some (RateLimiter.cancel_cell n))]> m) !! g'
                  = Some (i, ph, cg) -> exists ph', m !! g' = Some (i, ph', cg)).
  { intros g' ph cg. destruct (decide (g' = h)) as [-> |]; [rewrite lookup_insert_eq; intros [= _ <-]; eauto|].
    rewrite lookup_insert_ne by done.
    destruct (decide (g' = g)) as [-> |]; [rewrite lookup_insert_eq; intros [= _ <-]; eauto|].
    rewrite lookup_insert_ne by done. eauto. }
  split; rewrite ?Hcc, ?Hnx, ?Hr'; unfold lost; rewrite ?Hcc; [done|done|done|..].
  - rewrite (map_count_update _ _ h (i, Running, c)) by (by rewrite lookup_insert_ne).
    rewrite (map_count_update _ m g _ _ Hg), !runs_running, runs_nojob, runs_queued. simpl. lia.
  - intros g' cg Hg'. assert (g' <> h /\ g' <> g) as [Hn1 Hn2].
    { split; intros ->; [by rewrite lookup_insert_eq in Hg'|].
      rewrite lookup_insert_ne, lookup_insert_eq in Hg' by done. done. }
    rewrite !lookup_insert_ne in Hg' by done. destruct (H3 g' cg Hg') as [n' Hn'].
    exists n'. rewrite Hl in Hn'. apply elem_of_app in Hn' as [?|Hn'%list_elem_of_singleton]; [done|congruence].
  - intros s Hs. destruct (Hsub s Hs) as [Hs' Hid]. destruct (H4 s Hs') as (g' & Hj & Hg').
    exists g'. split; [done|]. rewrite !lookup_insert_ne; [done|congruence..].
  - intros g' ph cc Hg'. destruct (Hlk _ _ _ Hg') as [ph' Hg'']. destruct (H5 _ _ _ Hg'') as [Hc Hcell].
    split; [done|]. intros s Hs. by apply Hcell, Hsub.
Qed.

(** The end of a download. *)
Lemma lim_done i m r h c :
  m !! h = Some (i, Running, c) -> LimInv i m r ->
  exists r' started, RateLimiter.done r = Ok (r', started) /\
    ((started = [] /\ LimInv i (<[h := (i, NoJob, c)]> m) r') \/
     (exists g cg, started = [g] /\ g <> h /\ m !! g = Some (i, Queued, cg) /\
        LimInv i (<[h := (i, NoJob, c)]> (<[g := (i, Running, cg)]> m)) r')).
Proof.
  intros Hh HI. destruct (limiter_done_total r (lim_running_pos i m r h c Hh HI)) as (r' & started & Hd).
  exists r', started. split; [done|]. pose proof (RateLimiter.done_wf r r' started Hd (lim_wf _ _ _ HI)) as Hw.
  destruct (RateLimiter.done_spec r r' started Hd) as (_ & Hcc & Hnx & cl & Hcl & Hcase).
  assert (Hnil : forall pre, RateLimiter.list_ r = pre ++ cl -> cl = []).
  { intros pre Hl. destruct cl as [|s cl]; [done|]. exfalso. apply Forall_cons in Hcl as [Hn _].
    destruct (lim_slot _ _ _ HI s) as (g & Hj & _); [rewrite Hl; set_solver|congruence]. }
  destruct started as [|g rest].
  - left. split; [done|]. destruct Hcase as (Hl & Hl' & Hr'). pose proof (Hnil [] Hl) as ->.
    by apply (lim_done_last i m r r' h c).
  - right. destruct Hcase as (-> & Hr' & n & Hl).
    rewrite (Hnil (RateLimiter.list_ r' ++ [RateLimiter.mkSlot n (Some g)])) in Hl by (rewrite Hl, <- app_assoc; done).
    destruct (lim_slot _ _ _ HI (RateLimiter.mkSlot n (Some g))) as (g' & [= <-] & Hg); [rewrite Hl; set_solver|].
    exists g, (Some (RateLimiter.cancel_cell n)). split_and!; [done|congruence|done|].
    by apply (lim_done_next i m r r').
Qed.
End Limiters.

(** A slot that was taken and is not given back. *)
Definition one_more (r : RateLimiter.RateLimiter nat) : RateLimiter.RateLimiter nat :=
  RateLimiter.mkLimiter (RateLimiter.concurrency_ r) (RateLimiter.running_ r + 1) (RateLimiter.list_ r) (RateLimiter.next_cell r).

Lemma lim_lose n i m r : RateLimiter.running_ r < RateLimiter.concurrency_ r ->
  LimInv (left := Some n) i m r -> LimInv (left := Some (n - 1)) i m (one_more r).
Proof.
  intros Hlt [(W1 & W2 & W3 & W4 & W5) Hb Hlost H2 H3 H4 H5]. unfold lost in *.
  split; unfold lost; simpl; try done; try lia. split_and!; simpl; try done; try lia. destruct W3; [by left|lia].
Qed.

Lemma lim_all i m r : LimInv (left := None) i m r -> RateLimiter.running_ r = map_count (runs i) m.
Proof. intros HI. exact (lim_running _ _ _ HI). Qed.

End ServiceInv.
