(* ===== verification/ServiceSpec.v ===== *)
(** * Correctness of the service

    The invariant of the whole state, its preservation by every event, and what
    follows: one reply per call, calls for the same key one at a time and in
    order, downloads within the limits, progress, and the idle exit. *)

From S2P Require Import Prelude.
From S2P Require Import QtSize.
From S2P Require Import Settings.
From S2P Require Import CacheInterface.
From S2P Require Import Keys.
From S2P Require Import Thumbnailer.
From S2P Require Import RateLimiter.
From S2P Require Import Credentials.
From S2P Require Import Inactivity.
From S2P Require Import Downloads.
From S2P Require Import Service.
From S2P Require Import ServiceInv.
Import QtSize Thumbnailer Downloads Service ServiceInv.

Module ServiceSpec.

(** ** The invariant *)

Definition kview (x : Handler) : entry := (key x, connected x, phase_of (stage_ x)).
Definition aview (x : Handler) : option string :=
  if stage_ x is AwaitingCredentials then Some (service x) else None.
Definition jview (x : Handler) : job_entry := (limiter x, job_phase_of (stage_ x), cancel_func x).

(** The events a handler still needs. *)
Definition weight (x : Handler) : Z :=
  match stage_ x with
  | NotBegun => 7 | AwaitingCredentials => 6 | Checking => 5 | Scheduled => 4
  | Downloading => 3 | Creating => 2 | Finished => 1
  end.

Definition early (st : stage) : bool :=
  match st with NotBegun | AwaitingCredentials | Checking => true | _ => false end.

Record handler_ok (s : DBusInterface) (h : nat) (x : Handler) : Prop := {
  ok_cancelled : cancelled x = false;
  ok_number : (h < next_call s)%nat;
  ok_gone : h ∉ requests_ s -> stage_ x = Finished /\ h ∈ deferred s;
  ok_cancel_func : early (stage_ x) = true -> cancel_func x = None
}.

(** The request at each stage: nothing is started before the download, and the
    look-up after it finds the download over. *)
Definition request_ok (x : Handler) : Prop :=
  match stage_ x with
  | NotBegun | AwaitingCredentials | Checking => unstarted (request x)
  | Downloading => download_started (request x)
  | Creating => request_ready (request x)
  | Scheduled | Finished => True
  end.

(** The handlers whose job is in a thread pool. *)
Definition working (st : stage) : bool :=
  match st with Checking | Creating => true | _ => false end.

(** Those, and the handlers in the queue of a limiter. *)
Definition parked (st : stage) : bool :=
  match st with Checking | Creating | Scheduled => true | _ => false end.

Notation hview_entry := (Request * stage * limiter_id)%type.
Definition hview (x : Handler) : hview_entry := (request x, stage_ x, limiter x).

(** The handlers of [hold] wait, with the request given for each. *)
Definition Held (hold : gmap nat hview_entry) (m : gmap nat Handler) : Prop :=
  forall h v, hold !! h = Some v -> hview <$> m !! h = Some v /\ parked v.1.2 = true.

Lemma held_update hold m h x y :
  Held hold m -> m !! h = Some x -> hview y = hview x \/ hold !! h = None -> Held hold (<[h := y]> m).
Proof.
  intros Hm Hx Hy g v Hv. destruct (Hm g v Hv) as [H1 H2]. split; [|done].
  destruct (decide (g = h)) as [-> |Hne]; [|by rewrite lookup_insert_ne].
  rewrite lookup_insert_eq. destruct Hy as [Hy|Hy]; [|congruence]. rewrite Hx in H1. simpl in *. congruence.
Qed.

Lemma held_new hold m h y : Held hold m -> m !! h = None -> Held hold (<[h := y]> m).
Proof.
  intros Hm Hx g v Hv. destruct (Hm g v Hv) as [H1 H2]. split; [|done].
  rewrite lookup_insert_ne; [done|]. intros ->. by rewrite Hx in H1.
Qed.

Lemma held_not hold m h x : Held hold m -> m !! h = Some x -> parked (stage_ x) = false -> hold !! h = None.
Proof.
  intros Hm Hx Hst. destruct (hold !! h) as [v|] eqn:E; [|done]. destruct (Hm h v E) as [H1 H2].
  rewrite Hx in H1. injection H1 as <-. simpl in H2. congruence.
Qed.

Lemma held_delete hold m h : Held hold m -> hold !! h = None -> Held hold (delete h m).
Proof.
  intros Hm Hh g v Hv. destruct (Hm g v Hv) as [H1 H2]. split; [|done]. rewrite lookup_delete_ne; [done|congruence].
Qed.

(** [loose]: the handlers whose credentials callback is about to run; [fresh]: the
    one whose [begin()] is; [hold]: handlers that are not to be disturbed; [left]:
    the slots of a limiter, where some were lost. *)
Record Inv {hold : gmap nat hview_entry} {left : limiter_id -> option Z} (W : Z) (loose : list nat) (fresh : option nat) (s : DBusInterface) : Prop := {
  inv_keys : KeysInv (kview <$> heap s) (requests_ s) (request_keys_ s) fresh;
  inv_creds : CredsInv (omap aview (heap s)) (Credentials.pending_ (credentials_ s)) loose;
  inv_limiters : forall i, LimInv (left := left i) i (jview <$> heap s) (limiter_of i s);
  inv_handlers : forall h x, heap s !! h = Some x -> handler_ok s h x;
  inv_deferred : NoDup (deferred s) /\ forall h, h ∈ deferred s -> is_Some (heap s !! h) /\ h ∉ requests_ s;
  inv_idle : Inactivity.wf (inactivity_handler_ s) /\
             Inactivity.num_active_requests_ (inactivity_handler_ s) = Z.of_nat (base.size (heap s));
  inv_bus : forall h, replies h (bus s) =
    if decide ((h < next_call s)%nat /\ h ∉ requests_ s) then 1%nat else 0%nat;
  inv_weight : map_sum weight (heap s) <= W;
  inv_requests : forall h x, heap s !! h = Some x -> request_ok x;
  inv_held : Held hold (heap s)
}.

(** Nothing is lost: what the limiters count is what runs. *)
Definition no_loss : limiter_id -> option Z := fun _ => None.

(** ** Running the operations *)

Section Run.
Context {host : Host} {hlaws : HostLaws host} {fmt : LogFormat}.
Implicit Types (s : DBusInterface) (x y : Handler) (h : nat).

Lemma wp_get_handler R h x s (Q : DBusInterface -> Handler -> Prop) :
  heap s !! h = Some x -> Q s x -> wpx R (get_handler h) Q s.
Proof. intros Hh HQ. unfold wpx, get_handler. by rewrite Hh. Qed.

Lemma wp_update R h x f s (Q : DBusInterface -> unit -> Prop) :
  heap s !! h = Some x -> Q (with_heap (<[h := f x]> (heap s)) s) tt -> wpx R (update h f) Q s.
Proof. intros Hh HQ. apply wp_bind, (wp_get_handler R h x); [done|]. by apply wp_modify. Qed.

Lemma each_nil {A} (f : A -> M DBusInterface unit) R Q s : Q s tt -> wpx R (each f []) Q s.
Proof. done. Qed.

(** A finished handler, its reply sent. *)
Definition finished_state (now : Z) (h : nat) (x : Handler) (m : reply) (lg : list string) s : DBusInterface :=
  mkService (<[h := set_stage Finished (set_times (finished_at now) x)]> (heap s))
    (requests_ s ∖ {[h]}) (without h (key x) (request_keys_ s))
    (download_limiter_ s) (extraction_limiter_ s) (credentials_ s) (inactivity_handler_ s) (config_ s)
    (deferred s ++ [h]) (bus s ++ [(h, m)]) lg (next_call s).

Lemma wp_log_message R x s (Q : DBusInterface -> string -> Prop) :
  finish_time (times_ x) <> 0 -> (forall msg, Q s msg) -> wpx R (lift (log_message x)) Q s.
Proof.
  intros Hf HQ. apply wp_lift. unfold log_message, completion_time, download_time.
  rewrite (proj2 (Z.eqb_neq _ _) Hf). simpl.
  destruct (download_start_time (times_ x) =? 0); apply HQ.
Qed.

Lemma wp_requestFinished R h x s (Q : DBusInterface -> unit -> Prop) :
  heap s !! h = Some x -> h ∈ requests_ s -> finish_time (times_ x) <> 0 ->
  (forall lg, Q (mkService (heap s) (requests_ s ∖ {[h]}) (without h (key x) (request_keys_ s))
     (download_limiter_ s) (extraction_limiter_ s) (credentials_ s) (inactivity_handler_ s) (config_ s)
     (deferred s ++ [h]) (bus s) lg (next_call s)) tt) ->
  wpx R (requestFinished h) Q s.
Proof.
  intros Hh Hin Hf HQ. unfold requestFinished. apply wp_bind, wp_getS, wp_bind.
  rewrite decide_True by done. apply wp_modify, wp_bind, (wp_get_handler R h x); [done|].
  apply wp_bind, wp_getS, wp_bind, wp_modify, wp_bind, wp_modify, wp_bind, wp_getS.
  destruct (_ || _).
  - apply wp_bind, wp_log_message; [done|]. intros msg. apply wp_modify. apply HQ.
  - apply wp_ret. apply HQ.
Qed.

Lemma wp_emit_finished R bg now h x0 m s (Q : DBusInterface -> unit -> Prop) x s1 :
  heap s !! h = Some x0 -> h ∈ requests_ s -> 0 < now ->
  x = set_times (finished_at now) x0 ->
  (exists lg, s1 = mkService (<[h := x]> (heap s)) (requests_ s) (request_keys_ s)
     (download_limiter_ s) (extraction_limiter_ s) (credentials_ s) (inactivity_handler_ s) (config_ s)
     (deferred s) (bus s ++ [(h, m)]) lg (next_call s)) ->
  (forall lg, wpx R (each bg (connected x0)) Q (finished_state now h x0 m lg s)) ->
  wpx R (emit_finished bg h) Q s1.
Proof.
  intros Hh Hin Hnow -> [lg ->] HQ. unfold emit_finished.
  apply wp_bind, (wp_update R h (set_times (finished_at now) x0)); [simpl; by rewrite lookup_insert_eq|].
  cbn [heap with_heap]. rewrite insert_insert_eq.
  apply wp_bind, (wp_requestFinished R h (set_stage Finished (set_times (finished_at now) x0)));
    [simpl; by rewrite lookup_insert_eq|done|simpl; lia|].
  intros lg'. apply wp_bind, (wp_get_handler R h (set_stage Finished (set_times (finished_at now) x0)));
    [simpl; by rewrite lookup_insert_eq|]. apply HQ.
Qed.

Lemma wp_sendThumbnail R bg now h x ba s (Q : DBusInterface -> unit -> Prop) :
  heap s !! h = Some x -> h ∈ requests_ s -> 0 < now ->
  (forall lg, wpx R (each bg (connected x)) Q (finished_state now h x (ArtReplied ba) lg s)) ->
  wpx R (sendThumbnail now bg h ba) Q s.
Proof.
  intros Hh Hin Hnow HQ. apply wp_bind, wp_modify, wp_bind, (wp_update R h x); [done|].
  eapply (wp_emit_finished R bg now h x (ArtReplied ba) s); eauto.
Qed.

Lemma wp_sendError R bg now h x msg s (Q : DBusInterface -> unit -> Prop) :
  heap s !! h = Some x -> h ∈ requests_ s -> 0 < now ->
  (forall lg, wpx R (each bg (connected x)) Q (finished_state now h x (ErrorReplied msg) lg s)) ->
  wpx R (sendError now bg h msg) Q s.
Proof.
  intros Hh Hin Hnow HQ. apply wp_bind, (wp_get_handler R h x); [done|].
  apply wp_bind. destruct (_ || _); (apply wp_modify || apply wp_ret);
    apply wp_bind, wp_modify, wp_bind, (wp_update R h x); try done;
    eapply (wp_emit_finished R bg now h x (ErrorReplied msg) s); eauto.
Qed.

(** ** Preservation *)

Context {hold : gmap nat hview_entry} {left : limiter_id -> option Z}.
Notation Inv := (@Inv hold left).
Notation LimInv i := (LimInv (left := left i) i).

Lemma not_held W l f s h x : Inv W l f s -> heap s !! h = Some x -> parked (stage_ x) = false -> hold !! h = None.
Proof. intros HI. apply held_not, HI. Qed.

Lemma Inv_weaken W W' l f s : W <= W' -> Inv W l f s -> Inv W' l f s.
Proof. intros HW []. constructor; try done. lia. Qed.

Lemma Inv_log W l f s msg : Inv W l f s -> Inv W l f (write_log msg s).
Proof. intros []. constructor; try done. intros h x Hx. by destruct (inv_handlers0 h x Hx). Qed.

Lemma head_active W l s h x :
  Inv W l None s -> heap s !! h = Some x -> phase_of (stage_ x) = Active ->
  h ∈ requests_ s /\ exists t, request_keys_ s !! key x = Some (h :: t) /\ connected x = take 1 t /\ h ∉ t.
Proof.
  intros HI Hh Hp. assert (Hin : h ∈ requests_ s).
  { destruct (decide (h ∈ requests_ s)) as [|Hn]; [done|].
    destruct (ok_gone s h x (inv_handlers _ _ _ _ HI h x Hh) Hn) as [E _]. by rewrite E in Hp. }
  split; [done|]. apply (keys_head (kview <$> heap s) (requests_ s)); [|done|apply HI].
  rewrite lookup_fmap, Hh. simpl. unfold kview. by rewrite Hp.
Qed.

Lemma replies_snoc h g m l : replies h (l ++ [(g, m)]) = (replies h l + if decide (g = h) then 1 else 0)%nat.
Proof.
  unfold replies. rewrite filter_app, length_app. f_equal. destruct (decide (g = h)) as [->|Hn].
  - by rewrite filter_cons_True.
  - by rewrite filter_cons_False.
Qed.

Lemma limiters_same s s' i :
  download_limiter_ s' = download_limiter_ s -> extraction_limiter_ s' = extraction_limiter_ s ->
  limiter_of i s' = limiter_of i s.
Proof. intros H1 H2. by destruct i; simpl. Qed.

(** The same handler but for its request, its stage and its times. *)
Record like x x' : Prop := {
  like_key : key x' = key x;
  like_connected : connected x' = connected x;
  like_limiter : limiter x' = limiter x;
  like_cancel_func : cancel_func x' = cancel_func x;
  like_cancelled : cancelled x' = cancelled x
}.

Lemma like_refl x : like x x.
Proof. done. Qed.

Lemma like_request x x' r : like x x' -> key_ r = key x -> like x (set_request r x').
Proof. by intros []. Qed.

Lemma like_times x x' t : like x x' -> like x (set_times t x').
Proof. by intros []. Qed.

Lemma like_scheduled x x' : like x x' -> like x (set_stage Scheduled x').
Proof. by intros []. Qed.

Lemma like_kview x x' : like x x' -> phase_of (stage_ x') = phase_of (stage_ x) -> kview x' = kview x.
Proof. intros [E1 E2 _ _ _] E3. unfold kview. congruence. Qed.

Lemma finished_state_over now h x m lg s :
  finished_state now h x m lg (with_heap (<[h := x]> (heap s)) s) = finished_state now h x m lg s.
Proof. unfold finished_state. simpl. by rewrite insert_insert_eq. Qed.

Lemma finish_inv W l l' now h x x' t m lg s :
  Inv W l None s -> heap s !! h = Some x -> like x x' ->
  job_phase_of (stage_ x) = NoJob -> phase_of (stage_ x) = Active ->
  request_keys_ s !! key x = Some (h :: t) ->
  CredsInv (delete h (omap aview (heap s))) (Credentials.pending_ (credentials_ s)) l' ->
  hold !! h = None ->
  Inv (W - 1) l' (head t) (finished_state now h x' m lg s).
Proof.
  intros HI Hh [Ekey Econ El Ecf Ec] Hj Hp Hk Hcr Hno. destruct (head_active W l s h x HI Hh Hp) as [Hin _].
  destruct HI as [Hkeys Hcreds Hlim Hok [Hd1 Hd2] [Hw Hn] Hbus HW Hreq Hheld].
  set (y := set_stage Finished (set_times (finished_at now) x')).
  assert (Hnum : (h < next_call s)%nat) by apply (Hok h x Hh).
  constructor; simpl; fold y.
  - rewrite fmap_insert, Ekey. replace (kview y) with (key x, connected x, Done) by (unfold kview, key in *; simpl; congruence).
    by apply (keys_finish _ _ _ h t (key x) (connected x) Done).
  - by rewrite (omap_insert_None aview).
  - intros i. rewrite (limiters_same s) by done. rewrite fmap_insert, insert_id; [apply Hlim|].
    rewrite lookup_fmap, Hh. simpl. unfold jview. simpl. by rewrite Hj, El, Ecf.
  - intros g z. simpl. destruct (decide (g = h)) as [-> |Hne].
    + rewrite lookup_insert_eq. intros [= <-]. destruct (Hok h x Hh) as [Hc _ _ _].
      split; simpl; [congruence|done| |done]. intros _. split; [done|]. apply elem_of_app. right. by constructor.
    + rewrite lookup_insert_ne by done. intros Hz. destruct (Hok g z Hz) as [Hc Hn' Hg He].
      split; simpl; [done|done| |done]. intros Hg'. destruct Hg as [? ?]; [set_solver|].
      split; [done|]. apply elem_of_app. by left.
  - split.
    + apply NoDup_app. split_and!; [done| |apply NoDup_singleton]. intros g Hg -> %list_elem_of_singleton.
      by destruct (Hd2 h Hg).
    + intros g [Hg|Hg%list_elem_of_singleton]%elem_of_app.
      * destruct (Hd2 g Hg) as [Hs Hr]. split; [|set_solver]. apply lookup_insert_is_Some'. by right.
      * subst g. rewrite lookup_insert_eq. split; [done|set_solver].
  - split; [done|]. rewrite map_size_insert_Some by done. done.
  - intros g. rewrite replies_snoc, Hbus. destruct (decide (h = g)) as [<- |Hne].
    + rewrite decide_False by tauto. rewrite decide_True; [done|]. split; [done|set_solver].
    + rewrite Nat.add_0_r. apply decide_ext. set_solver.
  - rewrite (map_sum_update weight _ h x y Hh).
    assert (2 <= weight x); [|change (weight y) with 1; lia].
    revert Hp. unfold weight. by destruct (stage_ x).
  - intros g z [[<- <-]|[_ Hz]]%lookup_insert_Some; [done|]. by apply (Hreq g).
  - eapply held_update; eauto.
Qed.

(** A handler changes in place, and with it the credentials or the limiters. *)
Record same_tables s s' : Prop := {
  same_requests : requests_ s' = requests_ s;
  same_keys : request_keys_ s' = request_keys_ s;
  same_idle : inactivity_handler_ s' = inactivity_handler_ s;
  same_deferred : deferred s' = deferred s;
  same_bus : bus s' = bus s;
  same_call : next_call s' = next_call s
}.

Lemma Inv_update W l l' f f' h x y s s' :
  Inv W l f s -> same_tables s s' -> heap s !! h = Some x -> heap s' = <[h := y]> (heap s) ->
  KeysInv (<[h := kview y]> (kview <$> heap s)) (requests_ s) (request_keys_ s) f' ->
  CredsInv (omap aview (<[h := y]> (heap s))) (Credentials.pending_ (credentials_ s')) l' ->
  (forall i, LimInv i (<[h := jview y]> (jview <$> heap s)) (limiter_of i s')) ->
  cancelled y = false -> (stage_ x = Finished -> stage_ y = Finished) ->
  (early (stage_ y) = true -> cancel_func y = None) -> request_ok y -> hview y = hview x \/ hold !! h = None ->
  Inv (W - weight x + weight y) l' f' s'.
Proof.
  intros [Hkeys Hcreds Hlim Hok [Hd1 Hd2] [Hw Hn] Hbus HW Hreq Hheld] [E1 E2 E3 E4 E5 E6] Hh Hheap Hk Hc Hl Hy Hfin Hearly Hrok Hno.
  constructor; rewrite ?Hheap, ?E1, ?E2, ?E3, ?E4, ?E5, ?E6, ?fmap_insert; try done.
  - intros g z. destruct (decide (g = h)) as [-> |Hne].
    + rewrite lookup_insert_eq. intros [= <-]. destruct (Hok h x Hh) as [_ Hnum Hg _].
      split; rewrite ?E1, ?E4, ?E6; try done. intros Hr. destruct (Hg Hr). auto.
    + rewrite lookup_insert_ne by done. intros Hz. destruct (Hok g z Hz). by split; rewrite ?E1, ?E4, ?E6.
  - split; [done|]. intros g Hg. destruct (Hd2 g Hg). split; [|done]. apply lookup_insert_is_Some'. by right.
  - split; [done|]. rewrite map_size_insert_Some by done. done.
  - rewrite (map_sum_update weight _ h x y Hh). lia.
  - intros g z [[<- <-]|[_ Hz]]%lookup_insert_Some; [done|]. by apply (Hreq g).
  - by eapply held_update.
Qed.

Lemma omap_same (m : gmap nat Handler) h x y :
  m !! h = Some x -> aview y = aview x -> omap aview (<[h := y]> m) = omap aview m.
Proof.
  intros Hh Ha. apply map_eq. intros g. rewrite !lookup_omap. destruct (decide (g = h)) as [-> |Hne].
  - by rewrite lookup_insert_eq, Hh.
  - by rewrite lookup_insert_ne.
Qed.

(** [check_client_credentials] either allows or throws a standard exception. *)
Lemma check_credentials_cases (r : Request) u lb :
  check_client_credentials r u lb = Ok tt \/
  exists e, check_client_credentials r u lb = Throw e /\ is_std e = true.
Proof.
  unfold check_client_credentials. destruct (source_ r); eauto. case_goal; [eauto|].
  pose proof (apparmor_can_read_law lb filename_) as Hl.
  destruct (apparmor_can_read lb filename_) as [[]|e|f]; simpl; eauto. done.
Qed.

(** [begin] on a chain of at most [n] handlers behind the one to begin. *)
Definition begins (n : nat) (bg : nat -> M DBusInterface unit) : Prop :=
  forall W l g s, Inv W l (Some g) s ->
    (forall k t, request_keys_ s !! k = Some (g :: t) -> (length t < n)%nat) ->
    wp_total (bg g) (fun s' _ => Inv (W - 1) l None s') s.

(** After the end of a handler, the next of its chain begins. *)
Lemma next_begins n bg W l l' now h x x' t m lg s :
  begins n bg -> (length t <= n)%nat ->
  Inv W l None s -> heap s !! h = Some x -> like x x' ->
  job_phase_of (stage_ x) = NoJob -> phase_of (stage_ x) = Active ->
  request_keys_ s !! key x = Some (h :: t) -> connected x = take 1 t -> h ∉ t ->
  CredsInv (delete h (omap aview (heap s))) (Credentials.pending_ (credentials_ s)) l' -> hold !! h = None ->
  wp_total (each bg (connected x')) (fun s' _ => Inv (W - 1) l' None s') (finished_state now h x' m lg s).
Proof.
  intros Hbg Hlen HI Hh Hlike Hj Hp Hk Hc Hht Hcr Hno.
  pose proof (finish_inv W l l' now h x x' t m lg s HI Hh Hlike Hj Hp Hk Hcr Hno) as HI'.
  destruct Hlike as [Hkey -> _ _ _]. rewrite Hc.
  destruct t as [|g t]; [apply each_nil, HI'|].
  apply wp_bind. eapply wp_mono.
  - apply (Hbg (W - 1) l' g); [done|]. simpl. intros k t' Hkt.
    rewrite Hkey in Hkt. destruct (without_lookup h (g :: t) _ _ k _ Hk Hht Hkt) as [(-> & [= ->] & _)|[Hne Hk']]; [simpl in Hlen; lia|].
    exfalso. apply Hne. pose proof (inv_keys _ _ _ _ HI) as [Hch _ _ _].
    destruct (Hch _ _ Hk) as [_ H1]. destruct (Hch _ _ Hk') as [_ H2].
    apply (chain_same _ None k (key x) (g :: t') (h :: g :: t) g H2 H1); set_solver.
  - intros s' []. intros H. cbn [each take]. apply wp_ret. eapply Inv_weaken; [|exact H]. lia.
Qed.


Lemma gotCredentials_inv n bg W l now h x c s :
  begins n bg -> 0 < now -> Inv W (h :: l) None s -> heap s !! h = Some x ->
  (forall t, request_keys_ s !! key x = Some (h :: t) -> (length t <= n)%nat) ->
  wp_total (gotCredentials now bg h c) (fun s' _ => Inv (W - 1) l None s') s.
Proof.
  intros Hbg Hnow HI Hh Hlen. pose proof (inv_creds _ _ _ _ HI) as Hcr.
  assert (Hst : stage_ x = AwaitingCredentials).
  { destruct (loose_awaits _ _ _ Hcr h) as [p Hp]; [by constructor|].
    rewrite lookup_omap, Hh in Hp. simpl in Hp. unfold aview in Hp. by destruct (stage_ x). }
  apply creds_release in Hcr. assert (Hno : hold !! h = None) by (eapply not_held; [done..|by rewrite Hst]).
  destruct (head_active W _ s h x HI Hh) as (Hin & t & Hk & Hc & Hht); [by rewrite Hst|].
  assert (HI0 : Inv W (h :: l) None s) by done.
  assert (Hsend : forall m lg, wp_total (each bg (connected x)) (fun s' _ => Inv (W - 1) l None s') (finished_state now h x m lg s)).
  { intros m lg. eapply (next_begins n bg W (h :: l) l); eauto using like_refl; by rewrite Hst. }
  unfold gotCredentials. apply wp_bind, (wp_get_handler _ h x); [done|].
  rewrite (ok_cancelled s h x (inv_handlers _ _ _ _ HI h x Hh)).
  destruct (Credentials.valid c); simpl; [|eapply (wp_sendError _ _ _ _ x); eauto].
  destruct (check_credentials_cases (request x) (Credentials.user c) (Credentials.label c)) as [-> |(e & -> & ->)];
    [|eapply (wp_sendError _ _ _ _ x); eauto].
  apply (wp_update _ h x); [done|].
  set (y := set_stage Checking x). apply (Inv_weaken (W - weight x + weight y)).
  { unfold weight. rewrite Hst. simpl. lia. }
  eapply (Inv_update W (h :: l) l None None h x y s); try done; simpl.
  - unfold kview. simpl. rewrite insert_id; [apply HI|]. by rewrite lookup_fmap, Hh; simpl; unfold kview; rewrite Hst.
  - by rewrite (omap_insert_None aview).
  - intros i. unfold jview. simpl. rewrite insert_id; [apply HI|]. by rewrite lookup_fmap, Hh; simpl; unfold jview; rewrite Hst.
  - apply (inv_handlers _ _ _ _ HI h x Hh).
  - by rewrite Hst.
  - intros _. apply (inv_handlers _ _ _ _ HI h x Hh). by rewrite Hst.
  - pose proof (inv_requests _ _ _ _ HI h x Hh) as Hr. unfold request_ok in *. by rewrite Hst in Hr.
  - by right.
Qed.

Lemma fresh_stage W l s h :
  Inv W l (Some h) s -> exists x t, heap s !! h = Some x /\ stage_ x = NotBegun /\
    request_keys_ s !! key x = Some (h :: t).
Proof.
  intros HI. destruct (inv_keys _ _ _ _ HI) as [Hc _ Hf _]. destruct (Hf h eq_refl) as (k & t & Hk).
  destruct (Hc _ _ Hk) as [_ [Hm _]]. rewrite decide_True, lookup_fmap in Hm by done.
  destruct (heap s !! h) as [x|] eqn:Hh; [|done]. simpl in Hm. injection Hm as Hkx _ Hp.
  exists x, t. rewrite Hkx. split_and!; [done|by destruct (stage_ x)|done].
Qed.

Lemma begin_begins now n : 0 < now -> begins n (begin now n).
Proof.
  intros Hnow. induction n as [|n IH].
  { intros W l g s HI Hlen. destruct (fresh_stage W l s g HI) as (x & t & _ & _ & Hk).
    specialize (Hlen _ _ Hk). lia. }
  intros W l h s HI Hlen. destruct (fresh_stage W l s h HI) as (x & t & Hh & Hst & Hk).
  cbn [begin]. apply wp_bind, (wp_get_handler _ h x); [done|].
  apply wp_bind, (wp_update _ h x); [done|]. apply wp_bind, wp_getS.
  set (y := set_stage AwaitingCredentials x). set (s1 := with_heap (<[h := y]> (heap s)) s).
  pose proof (inv_handlers _ _ _ _ HI h x Hh) as Hok.
  destruct (Credentials.get (service x) h (credentials_ s1)) as [[c calls] b] eqn:Hg.
  destruct (get_cases _ _ _ _ _ _ Hg) as (_ & Hcase). apply wp_bind, wp_modify.
  assert (Hnone : omap aview (heap s) !! h = None) by (by rewrite lookup_omap, Hh; simpl; unfold aview; rewrite Hst).
  assert (Hup : forall l', CredsInv (<[h := service x]> (omap aview (heap s))) (Credentials.pending_ c) l' ->
            Inv (W - 1) l' None (with_credentials c s1)).
  { intros l' Hcr. apply (Inv_weaken (W - weight x + weight y)).
    { unfold weight. rewrite Hst. simpl. lia. }
    eapply (Inv_update W l l' (Some h) None h x y s); try done; simpl.
    - apply (keys_begin _ _ _ h (key x) (connected x)); [|apply HI].
      by rewrite lookup_fmap, Hh; simpl; unfold kview; rewrite Hst.
    - by rewrite (omap_insert_Some aview _ _ _ (service x)).
    - intros i. unfold jview. simpl. rewrite insert_id; [apply HI|]. by rewrite lookup_fmap, Hh; simpl; unfold jview; rewrite Hst.
    - apply Hok.
    - by rewrite Hst.
    - intros _. apply Hok. by rewrite Hst.
    - pose proof (inv_requests _ _ _ _ HI h x Hh) as Hr. unfold request_ok in *. by rewrite Hst in Hr.
    - right. eapply not_held; [done..|by rewrite Hst]. }
  destruct Hcase as [(-> & _ & Hpend)|(cr & -> & _ & Hpend)].
  - cbn [each]. apply wp_ret, Hup. rewrite Hpend. apply creds_ask; [done|apply HI].
  - apply wp_bind. eapply wp_mono.
    + eapply (gotCredentials_inv n _ (W - 1) l now h y); [done|done| |simpl; by rewrite lookup_insert_eq|].
      * apply Hup. rewrite Hpend. apply creds_hold; [done|apply HI].
      * intros t' Hk'. specialize (Hlen _ _ Hk'). lia.
    + intros s' []. intros H. cbn [each take]. apply wp_ret. eapply Inv_weaken; [|exact H]. lia.
Qed.


(** ** The events *)

Lemma chain_length W l f s k v : Inv W l f s -> request_keys_ s !! k = Some v -> (length v <= base.size (heap s))%nat.
Proof.
  intros HI Hk. destruct (inv_keys _ _ _ _ HI) as [Hc _ _ _]. destruct (Hc k v Hk) as [Hn Hch].
  rewrite <- (size_list_to_set (C := gset nat) v Hn), <- size_dom. apply subseteq_size.
  intros h Hh%elem_of_list_to_set. destruct (chain_key _ _ _ _ _ Hch Hh) as (c & p & E & _).
  apply elem_of_dom. rewrite lookup_fmap in E. by destruct (heap s !! h).
Qed.

Lemma begin__begins now n : 0 < now -> begins n (begin_ now).
Proof.
  intros Hnow W l g s HI _. apply (begin_begins now (fuel_of s) Hnow W l g s HI).
  intros k t Hk. pose proof (chain_length _ _ _ _ _ _ HI Hk). simpl in *. unfold fuel_of. lia.
Qed.

Lemma gotCredentials_each now c ks : 0 < now -> forall W s,
  Inv W ks None s ->
  wp_total (each (fun kc => gotCredentials now (begin_ now) kc.1 kc.2) (fmap (M:=list) (fun k => (k, c)) ks))
    (fun s' _ => Inv (W - Z.of_nat (length ks)) [] None s') s.
Proof.
  intros Hnow. induction ks as [|h ks IH]; intros W s HI; [eapply Inv_weaken; [|exact HI]; simpl; lia|].
  destruct (loose_awaits _ _ _ (inv_creds _ _ _ _ HI) h) as [p Hp]; [by constructor|].
  rewrite lookup_omap in Hp. destruct (heap s !! h) as [x|] eqn:Hh; [|done].
  cbn [fmap list_fmap each fst snd]. apply wp_bind. eapply wp_mono.
  - eapply (gotCredentials_inv (base.size (heap s)) _ W ks now h x); try done; [by apply begin__begins|].
    intros t Hk. pose proof (chain_length _ _ _ _ _ _ HI Hk). simpl in *. lia.
  - intros s' [] HI'. eapply wp_mono; [apply (IH _ _ HI')|]. intros s'' [] H.
    eapply Inv_weaken; [|exact H]. simpl length. lia.
Qed.

(** An answer for a peer that was asked about. *)
Lemma received_cases peer r (c : Credentials.CredentialsCache nat) cr ks :
  Credentials.credentials_of (Credentials.apparmor_enabled_ c) r = Ok cr ->
  Credentials.pending_ c !! peer = Some ks ->
  exists c', Credentials.received_credentials peer r c = Ok (c', fmap (M:=list) (fun k => (k, cr)) ks) /\
    Credentials.pending_ c' = delete peer (Credentials.pending_ c).
Proof.
  intros Hr Hp. unfold Credentials.received_credentials. rewrite Hr. simpl.
  destruct (if _ : bool then _ else _) as [c1 o1]. rewrite Hp. by eexists.
Qed.

Lemma credentialsReceived_inv now W s peer r ks :
  0 < now -> Inv W [] None s -> Credentials.pending_ (credentials_ s) !! peer = Some ks ->
  is_ok (Credentials.credentials_of (Credentials.apparmor_enabled_ (credentials_ s)) r) = true ->
  wp_total (credentialsReceived now peer r) (fun s' _ => Inv (W - Z.of_nat (length ks)) [] None s') s.
Proof.
  intros Hnow HI Hp Hr.
  destruct (Credentials.credentials_of (Credentials.apparmor_enabled_ (credentials_ s)) r) as [cr|e|f] eqn:Hcr; [|done..].
  destruct (received_cases peer r (credentials_ s) cr ks Hcr Hp) as (c' & Hc' & Hpend).
  unfold credentialsReceived. apply wp_bind, wp_getS, wp_bind, wp_lift. rewrite Hc'.
  apply wp_bind, wp_modify. apply gotCredentials_each; [done|].
  pose proof HI as [Hkeys Hcreds Hlim Hok Hdef Hidle Hbus HW Hreq Hheld].
  constructor; simpl; try done.
  - rewrite Hpend. by apply creds_take.
  - intros h x Hh. by destruct (Hok h x Hh).
Qed.

Lemma admin_inv W s : Inv W [] None s -> wp_total admin_call (fun s' _ => Inv W [] None s') s.
Proof.
  intros HI. pose proof HI as [Hkeys Hcreds Hlim Hok Hdef [Hw Hn] Hbus HW Hreq Hheld]. unfold admin_call.
  destruct (Inactivity.started_wf _ Hw) as (t & Ht & Htw & Htn).
  destruct (Inactivity.completed_wf t Htw) as (t' & Ht' & Htw' & Htn'); [destruct Hw; lia|].
  assert (E : Inactivity.request_started (inactivity_handler_ s) ≫= Inactivity.request_completed = Ok t')
    by (rewrite Ht; exact Ht').
  apply wp_bind, wp_getS, wp_bind, wp_lift. rewrite E. apply wp_modify.
  constructor; simpl; try done.
  - intros h x Hh. by destruct (Hok h x Hh).
  - split; [done|lia].
Qed.

(** The deletion of a finished handler. *)
Lemma delete_inv W s : Inv W [] None s -> deferred s <> [] ->
  wp_total deleteDeferred (fun s' _ => Inv (W - 1) [] None s') s.
Proof.
  intros HI Hd. unfold deleteDeferred. apply wp_bind, wp_getS. destruct (deferred s) as [|h rest] eqn:Ed; [done|].
  pose proof HI as [Hkeys Hcreds Hlim Hok [Hd1 Hd2] [Hw Hn] Hbus HW Hreq Hheld].
  rewrite Ed in Hd1, Hd2. apply NoDup_cons in Hd1 as [Hhr Hd1].
  destruct (Hd2 h) as [[x Hh] Hrq]; [by constructor|]. destruct (Hok h x Hh) as [Hcan Hnum Hgone Hearly].
  destruct (Hgone Hrq) as [Hst _]. apply wp_bind, wp_modify. unfold destroy.
  apply wp_bind, (wp_update _ h x); [done|].
  apply wp_bind, (wp_get_handler _ h (set_cancelled true x)); [simpl; by rewrite lookup_insert_eq|].
  apply wp_bind, wp_getS.
  assert (Hjv : jview <$> heap s !! h = Some (limiter x, NoJob, cancel_func x)).
  { rewrite Hh. simpl. unfold jview. by rewrite Hst. }
  destruct (Inactivity.completed_wf _ Hw) as (t & Ht & Htw & Htn).
  { rewrite Hn. assert (base.size (heap s) <> 0%nat); [|lia]. intros E%map_size_empty_inv. by rewrite E in Hh. }
  assert (Hfin : forall s', heap s' = <[h := set_cancelled true x]> (heap s) ->
    (forall i, limiter_of i s' = limiter_of i s) -> inactivity_handler_ s' = t ->
    requests_ s' = requests_ s -> request_keys_ s' = request_keys_ s -> deferred s' = rest ->
    bus s' = bus s -> next_call s' = next_call s -> credentials_ s' = credentials_ s ->
    Inv (W - 1) [] None (with_heap (delete h (heap s')) s')).
  { intros s' Eh El Ei Er Ek Edd Eb En Ec. constructor; simpl; rewrite ?Eh, ?Ei, ?Er, ?Ek, ?Edd, ?Eb, ?En, ?Ec, ?delete_insert_eq; try done.
    - rewrite fmap_delete. by apply keys_delete.
    - rewrite omap_delete, delete_id; [done|]. rewrite lookup_omap, Hh. simpl. unfold aview. by rewrite Hst.
    - intros i. rewrite fmap_delete. match goal with |- LimInv i _ ?L => replace L with (limiter_of i s) end.
      { eapply (lim_delete _ _ _ h); [rewrite lookup_fmap; apply Hjv|apply Hlim]. }
      rewrite <- (El i). by destruct i.
    - intros g z [Hne Hz]%lookup_delete_Some. destruct (Hok g z Hz) as [? ? Hg ?].
      split; simpl; rewrite ?Er, ?En, ?Edd; try done. intros Hgr. destruct (Hg Hgr) as [? Hin]. split; [done|].
      rewrite Ed in Hin. apply elem_of_cons in Hin as [|]; [congruence|done].
    - split; [done|]. intros g Hg. destruct (Hd2 g) as [Hs Hr]; [by constructor|]. split; [|done].
      rewrite lookup_delete_ne by congruence. done.
    - split; [done|]. rewrite map_size_delete_Some by done. rewrite Htn, Hn.
      assert (base.size (heap s) <> 0%nat); [|lia]. intros E%map_size_empty_inv. by rewrite E in Hh.
    - rewrite (map_sum_delete weight _ h x Hh) in HW. unfold weight at 1 in HW. rewrite Hst in HW. lia.
    - intros g z [_ Hz]%lookup_delete_Some. by apply (Hreq g).
    - apply held_delete; [done|]. eapply not_held; [exact HI|exact Hh|by rewrite Hst]. }
  apply wp_bind. destruct (cancel_func x) as [c|] eqn:Ecf; simpl; rewrite Ecf.
  - apply wp_modify. apply wp_bind, wp_getS, wp_bind, wp_lift. simpl. rewrite Ht. simpl. apply wp_bind, wp_modify, wp_modify.
    apply Hfin; try done. intros i. pose proof (lim_cancel (limiter x) _ _ h c (eq_trans (lookup_fmap _ _ _) Hjv) (Hlim _)) as Hc.
    destruct i, (limiter x); simpl in *; try done; by rewrite Hc.
  - apply wp_ret, wp_bind, wp_getS, wp_bind, wp_lift. simpl. rewrite Ht. simpl. apply wp_bind, wp_modify, wp_modify.
    apply Hfin; try done.
Qed.


(** A reply at the end of a check or of a creation. *)
Lemma answer_inv W s now h x x' m lg :
  0 < now -> Inv W [] None s -> heap s !! h = Some x -> like x x' -> stage_ x = Checking \/ stage_ x = Creating -> hold !! h = None ->
  wp_total (each (begin_ now) (connected x')) (fun s' _ => Inv (W - 1) [] None s') (finished_state now h x' m lg s).
Proof.
  intros Hnow HI Hh Hlike Hst Hno.
  destruct (head_active W _ s h x HI Hh) as (Hin & t & Hk & Hc & Hht); [by destruct Hst as [-> | ->]|].
  eapply (next_begins (length t) _ W [] []); eauto; try by destruct Hst as [-> | ->].
  - by apply begin__begins.
  - rewrite delete_id; [apply HI|]. rewrite lookup_omap, Hh. simpl. unfold aview. by destruct Hst as [-> | ->].
Qed.

Lemma send_error_inv W s now h x x' msg :
  0 < now -> Inv W [] None s -> heap s !! h = Some x -> like x x' -> stage_ x = Checking \/ stage_ x = Creating -> hold !! h = None ->
  wp_total (sendError now (begin_ now) h msg) (fun s' _ => Inv (W - 1) [] None s') (with_heap (<[h := x']> (heap s)) s).
Proof.
  intros Hnow HI Hh Hlike Hst Hno. destruct (head_active W _ s h x HI Hh) as [Hin _]; [by destruct Hst as [-> | ->]|].
  eapply wp_sendError; [apply lookup_insert_eq|done..|]. intros lg. rewrite finished_state_over. by eapply answer_inv.
Qed.

Lemma send_thumbnail_inv W s now h x x' ba :
  0 < now -> Inv W [] None s -> heap s !! h = Some x -> like x x' -> stage_ x = Checking \/ stage_ x = Creating -> hold !! h = None ->
  wp_total (sendThumbnail now (begin_ now) h ba) (fun s' _ => Inv (W - 1) [] None s') (with_heap (<[h := x']> (heap s)) s).
Proof.
  intros Hnow HI Hh Hlike Hst Hno. destruct (head_active W _ s h x HI Hh) as [Hin _]; [by destruct Hst as [-> | ->]|].
  eapply wp_sendThumbnail; [apply lookup_insert_eq|done..|]. intros lg. rewrite finished_state_over. by eapply answer_inv.
Qed.

Lemma download_key t r : key_ (begin_download t r).1 = key_ r.
Proof. unfold begin_download. by destruct (source_ r). Qed.

Lemma limiter_with i j r s : limiter_of i (with_limiter j r s) = if decide (i = j) then r else limiter_of i s.
Proof. by destruct i, j. Qed.

Definition started_download (now : Z) x : Handler :=
  set_stage Downloading (set_request (begin_download 0 (request x)).1 (set_times (download_started_at now) x)).

Lemma download_granted t r : download granted t r = Ok (begin_download t r).
Proof. unfold download. by destruct (source_ r). Qed.

Lemma wp_run_job R now h x s (Q : DBusInterface -> unit -> Prop) :
  heap s !! h = Some x -> cancelled x = false ->
  Q (with_heap (<[h := started_download now x]> (heap s)) s) tt -> wpx R (run_job now granted h) Q s.
Proof.
  intros Hh Hc HQ. unfold run_job. apply wp_bind, (wp_get_handler R h x); [done|]. rewrite Hc.
  apply wp_bind, (wp_update R h x); [done|]. rewrite download_granted. apply wp_bind, wp_lift.
  apply (wp_update R h (set_times (download_started_at now) x)); [simpl; by rewrite lookup_insert_eq|].
  simpl. rewrite insert_insert_eq. apply HQ.
Qed.

Lemma schedule_inv W s now h x0 x :
  Inv W [] None s -> heap s !! h = Some x0 -> like x0 x -> stage_ x = Checking -> stage_ x0 = Checking -> hold !! h = None ->
  wp_total (schedule_download now granted h) (fun s' _ => Inv (W - 1) [] None s') (with_heap (<[h := x]> (heap s)) s).
Proof.
  intros HI Hh Hlike Est Hst Hno. pose proof (inv_handlers _ _ _ _ HI h x0 Hh) as Hok.
  assert (Ekey : kview x = kview x0) by (apply like_kview; [done|by rewrite Est, Hst]).
  destruct Hlike as [_ _ Elim Ecf Ecan].
  assert (Hcan : cancelled x = false) by (rewrite Ecan; apply Hok).
  assert (Hcf : cancel_func x = None) by (rewrite Ecf; apply Hok; by rewrite Hst).
  unfold schedule_download. apply wp_bind, (wp_get_handler _ h x); [apply lookup_insert_eq|]. apply wp_bind, wp_getS.
  change (limiter_of (limiter x) (with_heap _ s)) with (limiter_of (limiter x) s).
  destruct (RateLimiter.schedule h (limiter_of (limiter x) s)) as [[r c] started] eqn:Hs.
  assert (Hjv : (jview <$> heap s) !! h = Some (limiter x, NoJob, None)).
  { rewrite lookup_fmap, Hh. simpl. unfold jview. by rewrite Hst, Elim, <- Ecf, Hcf. }
  apply wp_bind, wp_modify, wp_bind, (wp_update _ h x); [simpl; by rewrite lookup_insert_eq|].
  assert (Hdone : forall y s', heap s' = <[h := y]> (heap s) ->
    (forall i, limiter_of i s' = limiter_of i (with_limiter (limiter x) r s)) -> same_tables s s' -> credentials_ s' = credentials_ s ->
    kview y = kview x -> aview y = None -> cancelled y = false -> limiter y = limiter x -> early (stage_ y) = false ->
    request_ok y -> weight y <= 4 -> LimInv (limiter x) (<[h := jview y]> (jview <$> heap s)) r ->
    Inv (W - 1) [] None s').
  { intros y s' Eh El Et Ec Ek Ea Ey Ely Ee Er Ew Hlim. apply (Inv_weaken (W - weight x0 + weight y)).
    { unfold weight at 1. rewrite Hst. lia. }
    apply (Inv_update W [] [] None None h x0 y s s'); try done.
    - rewrite Ek, Ekey, insert_id; [apply HI|]. by rewrite lookup_fmap, Hh.
    - rewrite Ec, (omap_same _ h x0 y Hh); [apply HI|]. rewrite Ea. unfold aview. by rewrite Hst.
    - intros i. rewrite El, limiter_with. destruct (decide (i = limiter x)) as [-> |Hne]; [done|].
      apply lim_other; [rewrite Hjv; left; congruence|left; simpl; congruence|apply HI].
    - by rewrite Hst.
    - by rewrite Ee.
    - by right. }
  destruct (lim_schedule (limiter x) _ _ h r c started Hjv (inv_limiters _ _ _ _ HI _) Hs) as [[-> Hlim]|[-> Hlim]].
  - apply wp_bind. cbn [each]. apply wp_bind, (wp_run_job _ now h (set_stage Scheduled x));
      [simpl; by rewrite lookup_insert_eq|done|].
    apply wp_ret, (wp_update _ h (started_download now (set_stage Scheduled x))); [simpl; by rewrite lookup_insert_eq|].
    eapply Hdone; [by simpl; rewrite !insert_insert_eq|by intros []|done|done| |done|done|done|done|by eexists _, _|done|done].
    unfold kview, key. simpl. by rewrite download_key, Est.
  - apply wp_bind, wp_ret, (wp_update _ h (set_stage Scheduled x)); [simpl; by rewrite lookup_insert_eq|].
    eapply Hdone; [by simpl; rewrite !insert_insert_eq|by intros []|done|done| |done|done|done|done|done|done|done].
    unfold kview, key. simpl. by rewrite Est.
Qed.


Lemma watch_cases (m : outcome string) : no_crash m ->
  exists w, watch m = Ok w.
Proof. destruct m as [ba|e|f]; simpl; [eauto|intros ->; eauto|done]. Qed.

(** [checkFinished], given what becomes of the download it may schedule. *)
Lemma check_inv_with sys (Q : DBusInterface -> Prop) W s now h r thumbnail :
  0 < now -> Inv W [] None s -> in_stage Checking h r s -> hold !! h = None -> no_crash thumbnail ->
  (forall s', Inv (W - 1) [] None s' -> Q s') ->
  (forall x x' msg, heap s !! h = Some x -> like x x' -> stage_ x = Checking -> stage_ x' = Checking ->
     wp_total (catch_std (schedule_download now sys h) (fun e => sendError now (begin_ now) h (msg e)))
       (fun s' _ => Q s') (with_heap (<[h := x']> (heap s)) s)) ->
  wp_total (checkFinished now sys h r thumbnail) (fun s' _ => Q s') s.
Proof.
  intros Hnow HI (x & Hh & Hst & Hr) Hno Hth HQ Hsch. unfold checkFinished.
  apply wp_bind, (wp_update _ h x); [done|]. set (x1 := set_request r x).
  assert (Hx1 : like x x1) by by apply like_request.
  apply wp_bind, (wp_get_handler _ h x1); [apply lookup_insert_eq|].
  assert (Hc1 : cancelled x1 = false) by apply (inv_handlers _ _ _ _ HI h x Hh).
  unfold check. rewrite Hc1. destruct (watch_cases thumbnail Hth) as [w Hw].
  assert (Herr : forall x' msg, like x x' -> wp_total (sendError now (begin_ now) h msg) (fun s' _ => Q s') (with_heap (<[h := x']> (heap s)) s)).
  { intros x' msg Hx'. eapply wp_mono; [by eapply send_error_inv; eauto|]. intros s' []. apply HQ. }
  apply wp_bind, wp_lift. rewrite Hw. destruct w as [ba [err|]|what]; [by apply Herr| |by apply Herr].
  destruct (String.eqb ba ""); simpl;
    [|eapply wp_mono; [by eapply send_thumbnail_inv; eauto|]; intros s' []; apply HQ].
  apply wp_bind, (wp_update _ h x1); [apply lookup_insert_eq|]. simpl. rewrite insert_insert_eq.
  set (x2 := set_times (scheduled_at now) x1). assert (Hx2 : like x x2) by by apply like_times.
  change (wpx ?R ?m ?Q (with_heap ?hp (with_heap _ s))) with (wpx R m Q (with_heap hp s)).
  destruct (bool_decide _); [|by apply Herr]. by apply (Hsch x x2).
Qed.

Lemma check_inv W s now h r thumbnail :
  0 < now -> Inv W [] None s -> in_stage Checking h r s -> hold !! h = None -> no_crash thumbnail ->
  wp_total (checkFinished now granted h r thumbnail) (fun s' _ => Inv (W - 1) [] None s') s.
Proof.
  intros Hnow HI Hs Hno Hth. eapply (check_inv_with granted _ W); try done. intros x x' msg Hh Hlike Hst Hst'.
  pose proof (schedule_inv W s now h x x' HI Hh Hlike Hst' Hst Hno) as Hsch. revert Hsch. unfold wpx, catch_std, catchM.
  by destruct (schedule_download now granted h _) as [s3 [u|e|f]].
Qed.

Lemma created_inv W s now h r thumbnail :
  0 < now -> Inv W [] None s -> in_stage Creating h r s -> hold !! h = None -> no_crash thumbnail ->
  wp_total (createFinished now h r thumbnail) (fun s' _ => Inv (W - 1) [] None s') s.
Proof.
  intros Hnow HI (x & Hh & Hst & Hr) Hno Hth. unfold createFinished.
  apply wp_bind, (wp_update _ h x); [done|]. set (x1 := set_request r x).
  assert (Hx1 : like x x1) by by apply like_request.
  apply wp_bind, (wp_get_handler _ h x1); [apply lookup_insert_eq|].
  assert (Hc1 : cancelled x1 = false) by apply (inv_handlers _ _ _ _ HI h x Hh).
  assert (Hcr : no_crash (create x1 thumbnail)).
  { unfold create. rewrite Hc1. destruct thumbnail as [ba|e|f]; simpl; [by case_goal|done|done]. }
  destruct (watch_cases _ Hcr) as [w Hw]. apply wp_bind, wp_lift. rewrite Hw, Hc1.
  destruct w as [ba [[|c err]|]|what]; [by eapply send_thumbnail_inv; eauto|by eapply send_error_inv; eauto
    |by eapply send_thumbnail_inv; eauto|by eapply send_error_inv; eauto].
Qed.

Lemma awaits_same (m m' : gmap nat Handler) p l :
  (forall g, aview <$> m' !! g = aview <$> m !! g) -> CredsInv (omap aview m) p l -> CredsInv (omap aview m') p l.
Proof.
  intros E. replace (omap aview m') with (omap aview m); [done|]. apply map_eq. intros g. specialize (E g).
  rewrite !lookup_omap. destruct (m !! g), (m' !! g); simpl in *; congruence.
Qed.

(** The download of [h] is over and the queued [g] starts in its place. *)
Lemma handover_inv W s now h x x' g z l :
  Inv W [] None s -> heap s !! h = Some x -> like x x' -> request_ready (request x') -> stage_ x = Downloading -> hold !! g = None ->
  heap s !! g = Some z -> stage_ z = Scheduled -> limiter z = limiter x -> g <> h ->
  LimInv (limiter x) (<[h := (limiter x, NoJob, cancel_func x)]>
    (<[g := (limiter x, Running, cancel_func z)]> (jview <$> heap s))) l ->
  Inv (W - 1) [] None (with_heap (<[h := set_stage Creating x']> (<[g := started_download now z]> (heap s)))
                         (with_limiter (limiter x) l s)).
Proof.
  intros HI Hh Hlike Hready Hst Hno Hg Hsz Hlz Hgh Hlim. set (y := set_stage Creating x'). set (z' := started_download now z).
  pose proof HI as [Hkeys Hcreds Hl Hoks [Hd1 Hd2] [Hw Hn] Hbus HW Hreq Hheld].
  assert (Hy : kview y = kview x).
  { apply (like_kview x y); [by destruct Hlike|by rewrite Hst]. }
  destruct Hlike as [_ _ Elim Ecf Ec].
  assert (Hz : kview z' = kview z) by (unfold kview, key; simpl; by rewrite download_key, Hsz).
  constructor; simpl; try done.
  - rewrite !fmap_insert, Hy, Hz, (insert_id (kview <$> heap s)) by (by rewrite lookup_fmap, Hg).
    rewrite insert_id; [done|]. by rewrite lookup_fmap, Hh.
  - apply (awaits_same (heap s)); [|done]. intros k. destruct (decide (k = h)) as [-> |Hkh].
    { rewrite lookup_insert_eq, Hh. simpl. unfold aview. simpl. by rewrite Hst. }
    rewrite lookup_insert_ne by done. destruct (decide (k = g)) as [-> |Hkg]; [|by rewrite lookup_insert_ne].
    rewrite lookup_insert_eq, Hg. simpl. unfold aview. simpl. by rewrite Hsz.
  - intros i. change (limiter_of i _) with (limiter_of i (with_limiter (limiter x) l s)). rewrite limiter_with, !fmap_insert.
    destruct (decide (i = limiter x)) as [-> |Hne]; [unfold jview at 1 2; simpl; by rewrite Hlz, Elim, Ecf|].
    apply lim_other; [rewrite lookup_insert_ne, lookup_fmap, Hh by done; left; simpl; congruence|left; simpl; congruence|].
    apply lim_other; [rewrite lookup_fmap, Hg; left; simpl; congruence|left; simpl; congruence|apply Hl].
  - intros k v. destruct (decide (k = h)) as [-> |Hkh]; [rewrite lookup_insert_eq; intros [= <-]|rewrite lookup_insert_ne by done].
    { destruct (Hoks h x Hh) as [? ? Hgone ?]. split; simpl; try done; [congruence|]. intros Hr. destruct (Hgone Hr). congruence. }
    destruct (decide (k = g)) as [-> |Hkg]; [rewrite lookup_insert_eq; intros [= <-]|rewrite lookup_insert_ne by done].
    { destruct (Hoks g z Hg) as [? ? Hgone ?]. split; simpl; try done. intros Hr. destruct (Hgone Hr). congruence. }
    intros Hv. by destruct (Hoks k v Hv).
  - split; [done|]. intros k Hk. destruct (Hd2 k Hk). split; [|done].
    apply lookup_insert_is_Some'. right. apply lookup_insert_is_Some'. by right.
  - split; [done|]. rewrite !map_size_insert_Some; [done|by rewrite Hg|by rewrite lookup_insert_ne, Hh].
  - rewrite (map_sum_update weight _ h x y) by (by rewrite lookup_insert_ne).
    rewrite (map_sum_update weight _ g z z' Hg). unfold weight at 2 3 4 5. rewrite Hst, Hsz. simpl. lia.
  - intros k v [[<- <-]|[_ [[<- <-]|[_ Hv]]%lookup_insert_Some]]%lookup_insert_Some; [done|by eexists _, _|]. by apply (Hreq k).
  - eapply held_update; [eapply held_update; [done|exact Hg|by right]
      |by rewrite lookup_insert_ne|right; eapply not_held; [exact HI|done|by rewrite Hst]].
Qed.

Lemma download_inv W s now h r :
  0 < now -> Inv W [] None s -> (exists x, heap s !! h = Some x /\ stage_ x = Downloading /\ download_ends (request x) r) ->
  (forall x g z, heap s !! h = Some x -> heap s !! g = Some z -> stage_ z = Scheduled -> limiter z = limiter x -> hold !! g = None) ->
  wp_total (downloadFinished now granted h r) (fun s' _ => Inv (W - 1) [] None s') s.
Proof.
  intros Hnow HI (x & Hh & Hst & Hr) Hpark. unfold downloadFinished. pose proof (inv_handlers _ _ _ _ HI h x Hh) as Hok.
  assert (Hready : request_ready r).
  { pose proof (inv_requests _ _ _ _ HI h x Hh) as Hx. unfold request_ok in Hx. rewrite Hst in Hx. by eapply ends_ready. }
  apply wp_bind, (wp_update _ h x); [done|]. apply wp_bind, (wp_update _ h (set_request r x)); [apply lookup_insert_eq|].
  simpl. rewrite insert_insert_eq. set (x2 := set_times (download_finished_at now) (set_request r x)).
  assert (Hx2 : like x x2) by (apply like_times, like_request; [done|by apply ends_key]).
  change (wpx ?R ?m ?Q (with_heap ?hp (with_heap _ s))) with (wpx R m Q (with_heap hp s)).
  apply wp_bind, (wp_get_handler _ h x2); [apply lookup_insert_eq|]. apply wp_bind, wp_getS.
  change (limiter_of (limiter x2) (with_heap _ s)) with (limiter_of (limiter x) s). change (limiter x2) with (limiter x).
  change (cancelled x2) with (cancelled x). rewrite (ok_cancelled _ _ _ Hok).
  assert (Hjv : (jview <$> heap s) !! h = Some (limiter x, Running, cancel_func x)).
  { rewrite lookup_fmap, Hh. simpl. unfold jview. by rewrite Hst. }
  destruct (lim_done (limiter x) _ _ h _ Hjv (inv_limiters _ _ _ _ HI _)) as (l & started & Hd & Hcase).
  apply wp_bind, wp_lift. rewrite Hd. apply wp_bind, wp_modify.
  destruct Hcase as [[-> Hlim]|(g & cg & -> & Hgh & Hg & Hlim)].
  - apply wp_bind, wp_ret. apply (wp_update _ h x2); [apply lookup_insert_eq|]. simpl. rewrite insert_insert_eq.
    set (y := set_stage Creating x2).
    apply (Inv_weaken (W - weight x + weight y)); [unfold weight; rewrite Hst; simpl; lia|].
    apply (Inv_update W [] [] None None h x y s); try done.
    + replace (kview y) with (kview x); [by rewrite insert_id; [apply HI|rewrite lookup_fmap, Hh]|].
      symmetry. apply like_kview; [by destruct Hx2|by rewrite Hst].
    + simpl. rewrite (omap_same _ h x y Hh); [apply HI|]. unfold aview. simpl. by rewrite Hst.
    + intros i. change (limiter_of i _) with (limiter_of i (with_limiter (limiter x) l s)). rewrite limiter_with.
      destruct (decide (i = limiter x)) as [-> |Hne]; [done|].
      apply lim_other; [rewrite Hjv; left; congruence|left; simpl; congruence|apply HI].
    + apply Hok.
    + by rewrite Hst.
    + right. eapply not_held; [exact HI|done|by rewrite Hst].
  - rewrite lookup_fmap in Hg. destruct (heap s !! g) as [z|] eqn:Hgz; [|done]. simpl in Hg.
    unfold jview in Hg. injection Hg as Hlz Hpz Hcz. assert (Hsz : stage_ z = Scheduled) by (by destruct (stage_ z)).
    apply wp_bind. cbn [each]. apply wp_bind, (wp_run_job _ now g z);
      [simpl; by rewrite lookup_insert_ne|apply (inv_handlers _ _ _ _ HI g z Hgz)|].
    apply wp_ret, (wp_update _ h x2); [simpl; rewrite lookup_insert_ne by done; apply lookup_insert_eq|].
    simpl. rewrite (insert_insert_ne _ g h), insert_insert_eq by done.
    apply (handover_inv W s now h x x2 g z l); try done; [by apply (Hpark x g z)|by rewrite Hcz].
Qed.

(** ** A new call *)

Lemma fresh_call W l f s : Inv W l f s -> heap s !! next_call s = None /\ next_call s ∉ requests_ s.
Proof.
  intros HI. assert (Hn : heap s !! next_call s = None).
  { destruct (heap s !! next_call s) as [x|] eqn:E; [|done].
    pose proof (ok_number _ _ _ (inv_handlers _ _ _ _ HI _ _ E)). lia. }
  split; [done|]. intros (k & v & Hk & Hin)%(keys_requests _ _ _ _ (inv_keys _ _ _ _ HI)).
  destruct (keys_chain _ _ _ _ (inv_keys _ _ _ _ HI) k v Hk) as [_ Hch].
  destruct (chain_key _ _ _ _ _ Hch Hin) as (c & p & E & _). by rewrite lookup_fmap, Hn in E.
Qed.

(** What a new handler adds, the handlers before it being those of [hp]. *)
Record grown W s s' (hp : gmap nat Handler) (y : Handler) : Prop := {
  grown_heap : heap s' = <[next_call s := y]> hp;
  grown_same : omap aview hp = omap aview (heap s) /\ jview <$> hp = jview <$> heap s /\
    (forall g z, hp !! g = Some z -> handler_ok s g z) /\ (forall g, is_Some (heap s !! g) -> is_Some (hp !! g)) /\
    base.size hp = base.size (heap s) /\ map_sum weight hp <= W /\ hp !! next_call s = None /\ (Held hold (heap s) -> Held hold hp) /\
    (forall g z, hp !! g = Some z -> request_ok z);
  grown_requests : requests_ s' = {[next_call s]} ∪ requests_ s;
  grown_limiters : forall i, limiter_of i s' = limiter_of i s;
  grown_idle : Inactivity.wf (inactivity_handler_ s') /\
    Inactivity.num_active_requests_ (inactivity_handler_ s') = Inactivity.num_active_requests_ (inactivity_handler_ s) + 1;
  grown_deferred : deferred s' = deferred s;
  grown_bus : bus s' = bus s;
  grown_call : next_call s' = S (next_call s);
  grown_handler : cancelled y = false /\ cancel_func y = None /\ early (stage_ y) = true /\ weight y <= 7 /\ unstarted (request y)
}.

Lemma Inv_grow W s s' hp y :
  Inv W [] None s -> grown W s s' hp y ->
  KeysInv (kview <$> heap s') (requests_ s') (request_keys_ s') None ->
  CredsInv (omap aview (heap s')) (Credentials.pending_ (credentials_ s')) [] ->
  Inv (W + 7) [] None s'.
Proof.
  intros HI [Eh (Ea & Ej & Hok & Hin & Esz & Ew & Hhp & Hhold & Hhreq) Er El [Hi1 Hi2] Ed Eb En (Hy1 & Hy2 & Hy3 & Hy4 & Hy5)] Hk Hc.
  destruct (fresh_call _ _ _ _ HI) as [Hfh Hfr].
  pose proof HI as [_ _ Hlim _ [Hd1 Hd2] [_ Hn] Hbus _ Hreq Hheld]. constructor; try done.
  - intros i. rewrite El, Eh, fmap_insert, Ej. apply lim_other; [by rewrite lookup_fmap, Hfh| |apply Hlim].
    right. simpl. rewrite Hy2. split; [by destruct (stage_ y)|done].
  - intros g z. rewrite Eh. destruct (decide (g = next_call s)) as [-> |Hne].
    + rewrite lookup_insert_eq. intros [= <-]. split; rewrite ?Er, ?En; try done; [lia|set_solver].
    + rewrite lookup_insert_ne by done. intros Hz. destruct (Hok g z Hz) as [? ? Hg ?].
      split; rewrite ?Er, ?En, ?Ed; try done; [lia|]. intros Hgr. apply Hg. set_solver.
  - rewrite Ed, Er, Eh. split; [done|]. intros g Hg. destruct (Hd2 g Hg) as [Hs Hr].
    assert (g <> next_call s) by (intros ->; rewrite Hfh in Hs; by destruct Hs).
    split; [|set_solver]. rewrite lookup_insert_ne by done. by apply Hin.
  - split; [done|]. rewrite Hi2, Hn, Eh, map_size_insert_None by done. lia.
  - intros g. rewrite Eb, Hbus, Er, En. apply decide_ext. destruct (decide (g = next_call s)) as [-> |Hne]; [|set_solver by lia].
    split; [lia|set_solver].
  - rewrite Eh, map_sum_insert by done. lia.
  - rewrite Eh. intros g z [[<- <-]|[_ Hz]]%lookup_insert_Some; [|by apply (Hhreq g)].
    unfold request_ok. by destruct (stage_ y).
  - rewrite Eh. apply held_new; auto.
Qed.

Lemma grown_plain W s : Inv W [] None s ->
  omap aview (heap s) = omap aview (heap s) /\ jview <$> heap s = jview <$> heap s /\
  (forall g z, heap s !! g = Some z -> handler_ok s g z) /\ (forall g, is_Some (heap s !! g) -> is_Some (heap s !! g)) /\
  base.size (heap s) = base.size (heap s) /\ map_sum weight (heap s) <= W /\ heap s !! next_call s = None /\ (Held hold (heap s) -> Held hold (heap s)) /\
  (forall g z, heap s !! g = Some z -> request_ok z).
Proof.
  intros HI. split_and!; try done; [apply HI|apply HI|by eapply fresh_call|apply HI].
Qed.


(** [begin()] of a handler that is allowed, or whose peer is not known yet. *)
Lemma wp_first_begin R now h x s (Q : DBusInterface -> unit -> Prop) :
  heap s !! h = Some x -> cancelled x = false ->
  (forall cr, cached (service x) (credentials_ s) = Some cr -> access (request x) cr = true) ->
  (forall c, Credentials.pending_ c = <[service x := default [] (Credentials.pending_ (credentials_ s) !! service x) ++ [h]]>
                  (Credentials.pending_ (credentials_ s)) ->
     Q (with_credentials c (with_heap (<[h := set_stage AwaitingCredentials x]> (heap s)) s)) tt) ->
  (forall c, Credentials.pending_ c = Credentials.pending_ (credentials_ s) ->
     Q (with_heap (<[h := set_stage Checking x]> (heap s)) (with_credentials c s)) tt) ->
  wpx R (begin_ now h) Q s.
Proof.
  intros Hh Hc Hacc HQ1 HQ2.
  assert (H : wpx R (begin now (fuel_of s) h) Q s); [|exact H]. unfold fuel_of. cbn [begin].
  apply wp_bind, (wp_get_handler _ h x); [done|]. apply wp_bind, (wp_update _ h x); [done|].
  apply wp_bind, wp_getS.
  destruct (Credentials.get _ _ _) as [[c calls] b] eqn:Hg. apply get_cases in Hg as [_ Hcase].
  simpl in Hcase. apply wp_bind, wp_modify. destruct Hcase as [(-> & _ & Hp)|(cr & -> & Hcr & Hp)].
  - cbn [each]. apply wp_ret. by apply HQ1.
  - cbn [each fst snd]. apply wp_bind. unfold gotCredentials.
    apply wp_bind, (wp_get_handler _ h (set_stage AwaitingCredentials x)); [simpl; by rewrite lookup_insert_eq|].
    specialize (Hacc cr Hcr). unfold access in Hacc. apply andb_true_iff in Hacc as [Hv Ha].
    simpl. rewrite Hc, Hv. simpl. destruct (check_client_credentials _ _ _) as [u|e|f] eqn:E; try done.
    apply (wp_update _ h (set_stage AwaitingCredentials x)); [simpl; by rewrite lookup_insert_eq|].
    apply wp_ret. simpl. rewrite insert_insert_eq. by apply (HQ2 c).
Qed.

Lemma first_inv W s peer i r det now t :
  Inv W [] None s -> unstarted r -> request_keys_ s !! key_ r = None ->
  (forall cr, cached peer (credentials_ s) = Some cr -> access r cr = true) ->
  Inactivity.wf t -> Inactivity.num_active_requests_ t = Inactivity.num_active_requests_ (inactivity_handler_ s) + 1 ->
  let h := next_call s in
  let x := mkHandler r peer i det false None NotBegun [] (mkTimes now 0 0 0 0) in
  wp_total (queueRequest now h) (fun s' _ => Inv (W + 7) [] None s')
    (with_inactivity t (with_heap (<[h := x]> (heap s)) (new_call s))).
Proof.
  intros HI Hun Hk Hacc Ht1 Ht2 h x. destruct (fresh_call _ _ _ _ HI) as [Hfh Hfr]. fold h in Hfh, Hfr.
  assert (Hnone : omap aview (heap s) !! h = None) by (by rewrite lookup_omap, Hfh).
  unfold queueRequest. apply wp_bind, wp_modify, wp_bind, (wp_get_handler _ h x); [apply lookup_insert_eq|].
  apply wp_bind, wp_getS, wp_bind, wp_modify. simpl. change (key x) with (key_ r). rewrite Hk. simpl. apply wp_bind.
  apply (wp_first_begin _ now h x); [apply lookup_insert_eq|done|done|..]; intros c Hc; simpl in Hc |- *;
    apply wp_bind, wp_getS; simpl; rewrite lookup_insert_eq; apply wp_modify; simpl; rewrite insert_insert_eq.
  - eapply (Inv_grow W s _ (heap s) (set_stage AwaitingCredentials x) HI); simpl; rewrite ?insert_insert_eq.
    + split; try done. by apply grown_plain.
    + rewrite fmap_insert. apply keys_first; [by rewrite lookup_fmap, Hfh|done|apply HI|done].
    + rewrite (omap_insert_Some aview _ _ _ peer) by done. rewrite Hc. apply creds_ask; [done|apply HI].
  - eapply (Inv_grow W s _ (heap s) (set_stage Checking x) HI); simpl; rewrite ?insert_insert_eq.
    + split; try done. by apply grown_plain.
    + rewrite fmap_insert. apply keys_first; [by rewrite lookup_fmap, Hfh|done|apply HI|done].
    + rewrite (omap_insert_None aview) by done. rewrite delete_id by done. rewrite Hc. apply HI.
Qed.

Lemma behind_inv W s peer i r det now t v b :
  Inv W [] None s -> unstarted r -> request_keys_ s !! key_ r = Some (v ++ [b]) ->
  Inactivity.wf t -> Inactivity.num_active_requests_ t = Inactivity.num_active_requests_ (inactivity_handler_ s) + 1 ->
  let h := next_call s in
  let x := mkHandler r peer i det false None NotBegun [] (mkTimes now 0 0 0 0) in
  wp_total (queueRequest now h) (fun s' _ => Inv (W + 7) [] None s')
    (with_inactivity t (with_heap (<[h := x]> (heap s)) (new_call s))).
Proof.
  intros HI Hun Hk Ht1 Ht2 h x. destruct (fresh_call _ _ _ _ HI) as [Hfh Hfr]. fold h in Hfh, Hfr.
  assert (Hnone : omap aview (heap s) !! h = None) by (by rewrite lookup_omap, Hfh).
  pose proof (inv_keys _ _ _ _ HI) as Hkeys. destruct (keys_chain _ _ _ _ Hkeys _ _ Hk) as [_ Hch].
  destruct (chain_key _ _ _ _ b Hch) as (c & p & Hb & _); [set_solver|]. pose proof Hb as Hb'.
  rewrite lookup_fmap in Hb. destruct (heap s !! b) as [z|] eqn:Hz; [|done]. simpl in Hb.
  assert (Hbh : b <> h) by congruence. injection Hb as Hkz Hcz Hpz.
  unfold queueRequest. apply wp_bind, wp_modify, wp_bind, (wp_get_handler _ h x); [apply lookup_insert_eq|].
  apply wp_bind, wp_getS, wp_bind, wp_modify. simpl. change (key x) with (key_ r). rewrite Hk. simpl.
  rewrite last_snoc. apply wp_bind, (wp_update _ b z); [simpl; by rewrite lookup_insert_ne|].
  apply wp_bind, wp_getS. simpl. rewrite lookup_insert_eq. apply wp_modify. simpl. rewrite insert_insert_eq.
  set (z' := connect_begin h z).
  assert (Hcomm : <[b:=z']> (<[h:=x]> (heap s)) = <[h:=x]> (<[b:=z']> (heap s))) by by apply insert_insert_ne.
  assert (Hav : omap aview (<[b:=z']> (heap s)) = omap aview (heap s)) by by apply (omap_same _ b z).
  eapply (Inv_grow W s _ (<[b:=z']> (heap s)) x HI); simpl; rewrite ?Hcomm.
  - split; try done. split_and!; [done| | | | | | | |].
    + rewrite fmap_insert, insert_id; [done|]. by rewrite lookup_fmap, Hz.
    + intros g y. destruct (decide (g = b)) as [-> |]; [rewrite lookup_insert_eq; intros [= <-]|rewrite lookup_insert_ne by done; apply HI].
      by destruct (inv_handlers _ _ _ _ HI b z Hz).
    + intros g Hg. apply lookup_insert_is_Some'. by right.
    + by rewrite map_size_insert_Some.
    + rewrite (map_sum_update weight _ b z z' Hz). change (weight z') with (weight z). pose proof (inv_weight _ _ _ _ HI). lia.
    + by rewrite lookup_insert_ne.
    + intros Hheld. eapply held_update; [done|exact Hz|by left].
    + intros g y [[<- <-]|[_ Hy]]%lookup_insert_Some; [apply (inv_requests _ _ _ _ HI b z Hz)|by apply (inv_requests _ _ _ _ HI g)].
  - rewrite !fmap_insert, <- app_assoc. simpl.
    replace (kview x) with (key_ r, @nil nat, Waiting) by done.
    replace (kview z') with (key_ r, c ++ [h], p) by (unfold kview; simpl; by rewrite <- Hkz, <- Hcz, <- Hpz).
    apply keys_append; [|by rewrite lookup_fmap, Hfh|done|done|done].
    intros g Hg. destruct (chain_key _ _ _ _ g Hch Hg) as (cg & pg & Eg & _). rewrite lookup_fmap in Eg.
    destruct (heap s !! g) as [u|] eqn:Hu; [|done]. apply (inv_handlers _ _ _ _ HI g u Hu).
  - rewrite (omap_insert_None aview) by done. rewrite Hav, delete_id by done. apply HI.
Qed.

Lemma serve_inv W s peer i made det pre rpre now :
  Inv W [] None s -> no_crash made -> (forall r, made = Ok r -> unstarted r) ->
  (forall r cr, made = Ok r -> cached peer (credentials_ s) = Some cr -> request_keys_ s !! key_ r = None ->
     access r cr = true) ->
  wp_total (serve now peer i made det pre rpre) (fun s' _ => Inv (W + 7) [] None s') s.
Proof.
  intros HI Hmade Hun Hacc. unfold serve. apply wp_bind, wp_getS, wp_bind, wp_modify.
  destruct (fresh_call _ _ _ _ HI) as [Hfh Hfr]. pose proof HI as [Hkeys Hcreds Hlim Hok Hdef Hidle Hbus HW Hreq Hheld].
  destruct made as [r|e|f]; [|simpl in Hmade|done].
  - destruct (Inactivity.started_wf _ (proj1 Hidle)) as (t & Ht & Ht1 & Ht2).
    assert (Hq : wp_total (queueRequest now (next_call s)) (fun s' _ => Inv (W + 7) [] None s')
      (with_inactivity t (with_heap (<[next_call s := mkHandler r peer i det false None NotBegun [] (mkTimes now 0 0 0 0)]> (heap s)) (new_call s)))).
    { destruct (request_keys_ s !! key_ r) as [v|] eqn:Hk; [|apply first_inv; eauto].
      destruct v as [|v b _] using rev_ind; [by destruct (keys_chain _ _ _ _ Hkeys _ _ Hk)|].
      eapply behind_inv; eauto. }
    revert Hq. unfold wpx, catch_std, catchM. unfold lift at 1, newHandler, mbind at 1 2 3 4 5, M_bind, getS, modify.
    simpl. unfold lift. rewrite Ht. simpl. by destruct (queueRequest _ _ _) as [s' [u|e|f]].
  - unfold wpx, catch_std, catchM. simpl. rewrite Hmade. simpl. constructor; simpl; try done.
    + intros h x Hh. destruct (Hok h x Hh). split; simpl; try done. lia.
    + intros h. rewrite replies_snoc, Hbus. destruct (decide (next_call s = h)) as [<- |Hne].
      * rewrite decide_False by (intros [? _]; lia). rewrite decide_True; [done|]. split; [lia|done].
      * rewrite Nat.add_0_r. apply decide_ext. split; intros [? ?]; (split; [lia|done]).
    + lia.
Qed.

End Run.

End ServiceSpec.
