(* ===== verification/ServiceCorrect.v ===== *)
(** * The properties of the service

    What the invariant of ServiceSpec.v gives for the states the event loop can
    reach from a newly constructed service. *)

From Stdlib Require Import Sorting.Sorted.
From S2P Require Import Prelude.
From S2P Require Import CxxLib.
From S2P Require Import QtSize.
From S2P Require Import Settings.
From S2P Require Import CacheInterface.
From S2P Require Import Keys.
From S2P Require Import Thumbnailer.
From S2P Require Import ThumbnailerInstance.
From S2P Require Import RateLimiter.
From S2P Require Import Credentials.
From S2P Require Import Inactivity.
From S2P Require Import Downloads.
From S2P Require Import Service.
From S2P Require Import ServiceInv.
From S2P Require Import ServiceSpec.
Import QtSize Thumbnailer Downloads Service ServiceInv ServiceSpec.

Module ServiceCorrect.

Section Properties.
Context {host : Host} {hlaws : HostLaws host} {fmt : LogFormat} {C : Type}.
Implicit Types (s : DBusInterface) (e : event (C := C)).

(** ** Lemmas *)

(** Whether an event is a method call. *)
Definition is_call e : bool := if called e is Some _ then true else false.

Lemma handle_call now e peer made :
  called e = Some (peer, made) -> exists i det pre rpre, handle now e = serve now peer i made det pre rpre.
Proof. destruct e; simpl; try done; intros [= <- <-]; eauto 10. Qed.

Lemma call_enabled e s peer made : called e = Some (peer, made) -> enabled e s -> no_crash made.
Proof. destruct e; simpl; try done; by intros [= <- <-]. Qed.

Lemma call_unstarted e peer made r : called e = Some (peer, made) -> made = Ok r -> unstarted r.
Proof.
  destruct e; simpl; try done; intros [= _ <-];
    eauto using get_album_art_unstarted, get_artist_art_unstarted, get_thumbnail_unstarted.
Qed.

(** The handler whose job in a thread pool has ended. *)
Definition job_of e : option nat :=
  match e with CheckDone h _ _ | CreateDone h _ _ => Some h | _ => None end.

(** The handlers a download that ends may be followed by. *)
Definition hands_over e s (g : nat) : Prop :=
  exists h r x z, e = DownloadDone h r /\ heap s !! h = Some x /\ heap s !! g = Some z /\
    stage_ z = Scheduled /\ limiter z = limiter x.

Lemma handle_held {hold left} now e W s :
  0 < now -> @ServiceSpec.Inv hold left W [] None s -> (forall h, job_of e = Some h \/ hands_over e s h -> hold !! h = None) ->
  enabled e s -> refused_at_once e s = false ->
  wp_total (handle now e) (fun s' _ => exists W', @ServiceSpec.Inv hold left W' [] None s') s.
Proof.
  intros Hnow HI Hno He Hr. destruct (called e) as [[peer made]|] eqn:Hc.
  - destruct (handle_call now e peer made Hc) as (i & det & pre & rpre & ->).
    eapply wp_mono; [eapply serve_inv; [done|by eapply call_enabled|intros r; by eapply call_unstarted|]|intros s' [] HI'; eauto].
    intros r cr -> Hcr Hk. unfold refused_at_once in Hr. rewrite Hc, Hcr, Hk in Hr. by apply negb_false_iff in Hr.
  - destruct e; simpl in *; try done; try (by destruct He).
    + destruct He as [[ks Hks] Hok]. eapply wp_mono; [by eapply credentialsReceived_inv|]. intros s' [] HI'; eauto.
    + destruct He. eapply wp_mono; [eapply check_inv; eauto|]. intros s' [] HI'; eauto.
    + eapply wp_mono; [eapply download_inv; [done..|]|intros s' [] HI'; eauto].
      intros x g z Hx Hg Hst Hl. apply Hno. right. by exists h, r, x, z.
    + destruct He. eapply wp_mono; [eapply created_inv; eauto|]. intros s' [] HI'; eauto.
    + eapply wp_mono; [by eapply delete_inv|]. intros s' [] HI'; eauto.
    + eapply wp_mono; [by eapply admin_inv|]. intros s' [] HI'; eauto.
Qed.

Notation Inv := (@ServiceSpec.Inv ∅ no_loss).

Lemma handle_inv {left} now e W s :
  0 < now -> @ServiceSpec.Inv ∅ left W [] None s -> enabled e s -> refused_at_once e s = false ->
  wp_total (handle now e) (fun s' _ => exists W', @ServiceSpec.Inv ∅ left W' [] None s') s.
Proof. intros Hnow HI. by eapply handle_held. Qed.

(** While it waits for a job or in a queue, no event but the end of the job, or of the
    download before it, touches a handler. *)
Lemma parked_undisturbed {left} now e W s s' h x :
  0 < now -> @ServiceSpec.Inv ∅ left W [] None s -> enabled e s -> handle now e s = (s', Ok tt) ->
  refused_at_once e s = false -> job_of e <> Some h ->
  heap s !! h = Some x -> parked (stage_ x) = true -> ~ hands_over e s h ->
  exists y, heap s' !! h = Some y /\ request y = request x /\ stage_ y = stage_ x /\ limiter y = limiter x.
Proof.
  intros Hnow [] He Hs Hr Hj Hh Hst Hpark. pose proof (handle_held (hold := {[h := hview x]}) (left := left) now e W s Hnow) as H.
  unfold wpx in H. rewrite Hs in H. destruct H as [W' HI']; [|intros g Hg; apply lookup_singleton_ne; intros ->; by destruct Hg|done..|].
  - constructor; try done. intros g v [<- <-]%lookup_singleton_Some. by rewrite Hh.
  - destruct (inv_held _ _ _ _ HI' h (hview x)) as [E _]; [apply lookup_singleton_eq|].
    destruct (heap s' !! h) as [y|]; [|done]. injection E as E1 E2 E3. eauto.
Qed.

(** While its job is in a thread pool, no event but the end of the job touches a
    handler's request or its stage. *)
Lemma job_undisturbed now e W s s' h x :
  0 < now -> Inv W [] None s -> enabled e s -> handle now e s = (s', Ok tt) ->
  refused_at_once e s = false -> job_of e <> Some h ->
  heap s !! h = Some x -> working (stage_ x) = true ->
  exists y, heap s' !! h = Some y /\ request y = request x /\ stage_ y = stage_ x.
Proof.
  intros Hnow HI He Hs Hr Hj Hh Hst.
  destruct (parked_undisturbed now e W s s' h x Hnow HI He Hs Hr Hj Hh) as (y & H1 & H2 & H3 & _); [by destruct (stage_ x)| |by exists y].
  intros (g & r & x' & z & _ & _ & Hz & Hsch & _). assert (z = x) as -> by congruence. by rewrite Hsch in Hst.
Qed.

(** A peer known to be refused: [begin()] ends the handler at once and its key
    is gone from the table. *)
Lemma refused_begin now h x cr s :
  0 < now -> heap s !! h = Some x -> cancelled x = false -> connected x = [] -> h ∈ requests_ s ->
  request_keys_ s !! key x = Some [] -> cached (service x) (credentials_ s) = Some cr ->
  access (request x) cr = false ->
  wp_total (begin_ now h) (fun s' _ => request_keys_ s' !! key x = None) s.
Proof.
  intros Hnow Hh Hc Hcon Hin Hk Hcr Hacc. assert (H : wp_total (begin now (fuel_of s) h) (fun s' _ => request_keys_ s' !! key x = None) s);
    [|exact H]. unfold fuel_of. cbn [begin].
  apply wp_bind, (wp_get_handler _ h x); [done|]. apply wp_bind, (wp_update _ h x); [done|]. apply wp_bind, wp_getS.
  destruct (Credentials.get _ _ _) as [[c calls] b] eqn:Hg. apply get_cases in Hg as [_ Hcase]. simpl in Hcase.
  apply wp_bind, wp_modify. destruct Hcase as [(_ & Hno & _)|(cr' & -> & Hcr' & _)]; [congruence|].
  assert (cr' = cr) as -> by congruence. cbn [each fst snd]. apply wp_bind. unfold gotCredentials.
  set (y := set_stage AwaitingCredentials x).
  apply wp_bind, (wp_get_handler _ h y); [simpl; by rewrite lookup_insert_eq|]. change (cancelled y) with (cancelled x). rewrite Hc.
  assert (Hdone : forall m lg s', request_keys_ s' = request_keys_ s ->
    wp_total (each (begin now (base.size (heap s))) (connected y))
      (fun s' _ => wp_total (mret tt) (fun s' _ => request_keys_ s' !! key x = None) s') (finished_state now h y m lg s')).
  { intros m lg s' E. simpl. rewrite Hcon. apply wp_ret, wp_ret. simpl. rewrite E. unfold without.
    change (key y) with (key x). rewrite Hk. simpl. by rewrite lookup_delete_eq. }
  unfold access in Hacc. destruct (Credentials.valid cr); simpl in Hacc |- *;
    [|eapply (wp_sendError _ _ _ _ y); [simpl; by rewrite lookup_insert_eq|done|done|]; intros lg; by apply Hdone].
  destruct (check_credentials_cases (request x) (Credentials.user cr) (Credentials.label cr)) as [E|(e & E & Es)];
    rewrite E in Hacc; [done|]. rewrite E, Es.
  eapply (wp_sendError _ _ _ _ y); [simpl; by rewrite lookup_insert_eq|done|done|]. intros lg. by apply Hdone.
Qed.

Lemma refused_crash {left} now e W s :
  0 < now -> @ServiceSpec.Inv ∅ left W [] None s -> refused_at_once e s = true ->
  (handle now e s).2 = Crash (Undefined "queueRequest: requests_for_key").
Proof.
  intros Hnow HI Hr. unfold refused_at_once in Hr. destruct (called e) as [[peer made]|] eqn:Hc; [|done].
  destruct made as [r| |]; [|done..]. destruct (cached peer (credentials_ s)) as [cr|] eqn:Hcr; [|done].
  destruct (request_keys_ s !! key_ r) as [v|] eqn:Hk; [done|]. apply negb_true_iff in Hr.
  destruct (handle_call now e peer (Ok r) Hc) as (i & det & pre & rpre & ->).
  destruct (Inactivity.started_wf _ (proj1 (inv_idle _ _ _ _ HI))) as (t & Ht & _).
  unfold serve, catch_std, catchM. unfold lift at 1, newHandler, mbind at 1 2 3 4 5 6 7, M_bind, getS, modify. simpl.
  unfold lift. rewrite Ht. simpl.
  set (h := next_call s). set (x := mkHandler r peer i det false None NotBegun [] (mkTimes now 0 0 0 0)).
  set (s1 := with_inactivity t _).
  assert (Hq : (queueRequest now h s1).2 = Crash (Undefined "queueRequest: requests_for_key")).
  { unfold queueRequest, get_handler, getS, modify, mbind, M_bind. simpl.
    rewrite !lookup_insert_eq. change (key x) with (key_ r).
    change (request_keys_ (with_requests ({[h]} ∪ requests_ s) s1)) with (request_keys_ s). rewrite Hk.
    cbn [default last]. change (default [] None) with (@nil nat). cbn [last].
    match goal with |- context [begin_ now h ?st] => set (s2 := st) end.
    assert (Hb : wp_total (begin_ now h) (fun s' _ => request_keys_ s' !! key x = None) s2).
    { apply (refused_begin now h x cr); try done; [apply lookup_insert_eq|simpl; set_solver|apply lookup_insert_eq]. }
    unfold wpx in Hb. destruct (begin_ now h s2) as [s3 [[]|ex|f]]; [|done..].
    change (key x) with (key_ r) in Hb. by rewrite Hb. }
  destruct (queueRequest now h s1) as [s2 o]. simpl in Hq. by subst o.
Qed.

Lemma initial_inv s : initial s -> Inv 0 [] None s.
Proof.
  intros (arm & cores & d & settings & env & aa & ie & idle & Hi & Hs).
  destruct (Inactivity.init_wf ie idle Hi) as [Hw Hn]. unfold construct in Hs.
  apply outcome_bind_Ok in Hs as (md & _ & Hs). apply outcome_bind_Ok in Hs as (dl & Hdl & Hs).
  apply outcome_bind_Ok in Hs as (li & _ & Hs). apply outcome_bind_Ok in Hs as (el & Hel & Hs).
  apply outcome_bind_Ok in Hs as (lv & _ & Hs). apply outcome_bind_Ok in Hs as (tr & _ & Hs).
  apply outcome_bind_Ok in Hs as (bl & _ & [= <-]).
  assert (Hlim : forall c r i, RateLimiter.init c = Ok r -> LimInv (left := None) i ∅ r).
  { intros c r i (u & Ha & [= <-])%outcome_bind_Ok. apply assert_Ok in Ha. bsimpl.
    split; simpl; try done; [|lia|set_solver]. unfold RateLimiter.wf; simpl. split_and!; auto; try lia; constructor. }
  constructor; simpl; rewrite ?fmap_empty, ?omap_empty; try done.
  - split; try done. intros h. split; [set_solver|]. by intros (k & v & ? & _).
  - split; try done; [constructor|set_solver].
  - intros []; eauto.
  - split; [constructor|set_solver].
Qed.

Lemma service_inv s : reachable (C := C) s -> exists W, Inv W [] None s.
Proof.
  intros (s0 & H0 & Hr). assert (HI : exists W, Inv W [] None s0) by (exists 0; by apply initial_inv). clear H0.
  induction Hr as [|s0 s1 s2 Hs _ IH]; [done|]. apply IH. destruct HI as [W HI], Hs as [now e Hnow He Hh].
  destruct (refused_at_once e s0) eqn:Hr.
  - pose proof (refused_crash now e W s0 Hnow HI Hr) as Hc. by rewrite Hh in Hc.
  - pose proof (handle_inv now e W s0 Hnow HI He Hr) as Hw. unfold wpx in Hw. by rewrite Hh in Hw.
Qed.

(** ** What the operations leave alone *)

(** A relation that nothing breaks but calls and the limiters. *)
Class Frame (R : DBusInterface -> DBusInterface -> Prop) : Prop := {
  frame_preorder :: PreOrder R;
  frame_heap hp s : R s (with_heap hp s);
  frame_requests rs s : R s (with_requests rs s);
  frame_keys ks s : R s (with_keys ks s);
  frame_credentials c s : R s (with_credentials c s);
  frame_deferred d s : R s (with_deferred d s);
  frame_send h m s : R s (send h m s);
  frame_log msg s : R s (write_log msg s)
}.

Section Frames.
Context (R : DBusInterface -> DBusInterface -> Prop) {frame : Frame R}.
Notation keeps := (Prelude.keeps R).

Lemma keeps_get_handler h : keeps (get_handler h).
Proof. apply (keeps_same R). intros s. unfold get_handler. by destruct (heap s !! h). Qed.

Lemma keeps_each {A} (f : A -> M DBusInterface unit) l : (forall a, keeps (f a)) -> keeps (each f l).
Proof. intros Hf. induction l as [|a l IH]; [by apply (keeps_same R)|]. by apply (keeps_bind R). Qed.

Lemma keeps_update h f : keeps (update h f).
Proof.
  unfold update. apply (keeps_bind R); [apply keeps_get_handler|]. intros x. apply (keeps_modify R). intros s. apply frame_heap.
Qed.
End Frames.

(** Walk through an operation. *)
Ltac keeps_tac R :=
  repeat match goal with
  | |- keeps R (_ ≫= _) => apply (keeps_bind R); [|intros ?]
  | |- keeps R (modify _) => apply (keeps_modify R); intros ?;
      first [apply frame_requests|apply frame_keys|apply frame_credentials|apply frame_deferred|apply frame_send|apply frame_log
            |apply frame_heap|split; [done|first [reflexivity|by eexists]]]
  | |- keeps R (get_handler _) => by apply keeps_get_handler
  | |- keeps R (update _ _) => by apply keeps_update
  | |- keeps R (each _ _) => apply keeps_each; [done|intros ?]
  | |- keeps R (catch_std _ _) => apply (keeps_catch R); [|intros ?]
  | |- keeps R (throw _) => by apply (keeps_same R)
  | |- keeps R (match ?x with _ => _ end) => destruct x
  | |- keeps R (let _ := _ in _) => cbv zeta
  | H : forall a, keeps R (?f a) |- keeps R (?f _) => apply H
  | |- keeps R _ => by apply (keeps_same R)
  end.

Section FramedOperations.
Context (R : DBusInterface -> DBusInterface -> Prop) {frame : Frame R}.
Notation keeps := (Prelude.keeps R).

Lemma keeps_emit bg h : (forall g, keeps (bg g)) -> keeps (emit_finished bg h).
Proof. intros Hb. unfold emit_finished, requestFinished. keeps_tac R. Qed.

Lemma keeps_sendThumbnail now bg h ba : (forall g, keeps (bg g)) -> keeps (sendThumbnail now bg h ba).
Proof. intros Hb. unfold sendThumbnail. keeps_tac R. by apply keeps_emit. Qed.

Lemma keeps_sendError now bg h msg : (forall g, keeps (bg g)) -> keeps (sendError now bg h msg).
Proof. intros Hb. unfold sendError. keeps_tac R; by apply keeps_emit. Qed.

Lemma keeps_gotCredentials now bg h c : (forall g, keeps (bg g)) -> keeps (gotCredentials now bg h c).
Proof. intros Hb. unfold gotCredentials. keeps_tac R; first [by apply keeps_emit|by apply keeps_sendError]. Qed.

Lemma keeps_begin_ now h : keeps (begin_ now h).
Proof.
  assert (H : forall n g, keeps (begin now n g)).
  { induction n as [|n IH]; intros g; [by apply (keeps_same R)|]. cbn [begin]. keeps_tac R. by apply keeps_gotCredentials. }
  intros s. apply H.
Qed.

Lemma keeps_run_job now sys h : keeps (run_job now sys h).
Proof. unfold run_job. keeps_tac R. Qed.
End FramedOperations.

(** No call is received, and no reply taken back. *)
Definition grows s s' : Prop := next_call s' = next_call s /\ bus s `prefix_of` bus s'.

#[local] Instance grows_frame : Frame grows.
Proof.
  split; try (intros; split; [done|first [reflexivity|by eexists]]). split; [by split|].
  intros s1 s2 s3 [H1 H2] [H3 H4]. split; [congruence|]. by etransitivity.
Qed.

Notation keeps := (Prelude.keeps grows).

Lemma keeps_quiet now sys e : called e = None -> keeps (handle_on sys now e).
Proof.
  pose proof grows_frame as Hframe. pose proof (keeps_begin_ grows now) as Hb.
  destruct e; try done; intros _; simpl;
    unfold credentialsReceived, checkFinished, schedule_download, downloadFinished, createFinished, deleteDeferred, destroy, admin_call;
    keeps_tac grows; first [by apply keeps_gotCredentials|by apply keeps_sendError|by apply keeps_sendThumbnail|by apply keeps_run_job].
Qed.

(** Any event: replies stay, and a method call takes the next number. *)
Lemma keeps_serve_body now peer i made det (f : exn -> M DBusInterface unit) h : (forall ex, keeps (f ex)) ->
  keeps (catch_std (r ← lift made; _ ← newHandler now h peer i r det; queueRequest now h) f).
Proof.
  intros Hf. pose proof grows_frame as Hframe. pose proof (keeps_begin_ grows now) as Hb. unfold newHandler, queueRequest. keeps_tac grows.
Qed.

Lemma handle_grows now e s :
  bus s `prefix_of` bus (handle now e s).1 /\
  next_call (handle now e s).1 = if called e is Some _ then S (next_call s) else next_call s.
Proof.
  destruct (called e) as [[peer made]|] eqn:Hc.
  - destruct (handle_call now e peer made Hc) as (i & det & pre & rpre & ->). unfold serve.
    assert (Hf : forall h ex, keeps (modify (write_log (pre +:+ exn_what ex)) ;;
      modify (send h (ErrorReplied (rpre +:+ exn_what ex))))) by (pose proof grows_frame; intros h ex; keeps_tac grows).
    destruct (keeps_serve_body now peer i made det _ (next_call s) (Hf (next_call s)) (new_call s)) as [H1 H2]. by split.
  - destruct (keeps_quiet now granted e Hc s) as [H1 H2]. by split.
Qed.

(** ** Progress *)

(** An event other than a method call. *)
Definition works e : bool := match e with AdminCall => false | _ => negb (is_call e) end.

Inductive work_step s s' : Prop :=
  | work now e : 0 < now -> works e = true -> enabled e s -> handle now e s = (s', Ok tt) -> work_step s s'.

Lemma wp_total_Ok {A} (m : M DBusInterface A) Q s :
  wp_total m Q s -> exists s' a, m s = (s', Ok a) /\ Q s' a.
Proof. unfold wpx. destruct (m s) as [s' [a|ex|c]]; [eauto|done|done]. Qed.

(** Each such event brings the end of some handler nearer. *)
Lemma work_inv now e W s :
  0 < now -> works e = true -> enabled e s -> Inv W [] None s ->
  wp_total (handle now e) (fun s' _ => Inv (W - 1) [] None s') s.
Proof.
  intros Hnow Hw He HI. destruct e; simpl in *; try done.
  - destruct He as [[ks Hks] Hok]. eapply wp_mono; [by eapply credentialsReceived_inv|]. intros s' [] HI'.
    pose proof (pending_nonempty _ _ _ (inv_creds _ _ _ _ HI) _ _ Hks). eapply Inv_weaken; [|exact HI'].
    destruct ks; [done|simpl; lia].
  - destruct He. by eapply check_inv.
  - by eapply download_inv.
  - destruct He. by eapply created_inv.
  - by eapply delete_inv.
Qed.

Lemma work_ok e W s :
  works e = true -> enabled e s -> Inv W [] None s -> exists s', work_step s s'.
Proof.
  intros Hw He HI. destruct (wp_total_Ok _ _ _ (work_inv 1 e W s eq_refl Hw He HI)) as (s' & [] & Hs & _).
  exists s'. by apply (work _ _ 1 e).
Qed.

(** The handler at the head of a chain has an event to wait for. *)
Lemma head_progress W s h x :
  Inv W [] None s -> heap s !! h = Some x -> phase_of (stage_ x) = Active -> exists s', work_step s s'.
Proof.
  intros HI Hh Hp.
  assert (Hdl : forall g z, heap s !! g = Some z -> stage_ z = Downloading -> exists s', work_step s s').
  { intros g z Hg Hz. pose proof (inv_requests _ _ _ _ HI g z Hg) as Hr. unfold request_ok in Hr. rewrite Hz in Hr.
    destruct (some_end _ Hr) as [r Hend]. apply (work_ok (DownloadDone g r) W); [done| |done]. by exists z. }
  destruct (stage_ x) eqn:Hst; try done.
  - destruct (awaits_held _ _ _ (inv_creds _ _ _ _ HI) h (service x)) as [?|(ks & Hk & Hin)];
      [rewrite lookup_omap, Hh; simpl; unfold aview; by rewrite Hst|set_solver|].
    apply (work_ok (CredentialsFor (service x) Credentials.ReplyFailed) W); [done| |done]. split; [by eexists|done].
  - apply (work_ok (CheckDone h (request x) (Ok "")) W); [done| |done]. split; [by exists x|done].
  - pose proof (inv_limiters _ _ _ _ HI (limiter x)) as Hl.
    destruct (lim_queued _ _ _ Hl h (cancel_func x)) as [n Hn]; [rewrite lookup_fmap, Hh; simpl; unfold jview; by rewrite Hst|].
    destruct (lim_wf _ _ _ Hl) as (Hc & _ & [Hnil|Hfull] & _); [rewrite Hnil in Hn; set_solver|].
    destruct (map_count_pos (runs (limiter x)) (jview <$> heap s)) as (g & v & Hg & Hv); [rewrite <- (lim_all _ _ _ Hl); lia|].
    rewrite lookup_fmap in Hg. destruct (heap s !! g) as [z|] eqn:Hz; [|done]. injection Hg as <-.
    unfold runs, jview in Hv. simpl in Hv. apply andb_true_iff in Hv as [_ Hv%bool_decide_eq_true].
    apply (Hdl g z Hz). by destruct (stage_ z).
  - eauto.
  - apply (work_ok (CreateDone h (request x) (Ok "")) W); [done| |done]. split; [by exists x|done].
Qed.

Lemma service_progress W s : Inv W [] None s -> heap s <> ∅ -> exists s', work_step s s'.
Proof.
  intros HI Hne. destruct (decide (deferred s = [])) as [Hd|Hd]; [|by apply (work_ok DeleteDeferred W)].
  apply map_choose in Hne as (h & x & Hh).
  destruct (decide (h ∈ requests_ s)) as [Hin|Hout];
    [|destruct (ok_gone _ _ _ (inv_handlers _ _ _ _ HI h x Hh) Hout) as [_ Hx]; rewrite Hd in Hx; set_solver].
  apply (keys_requests _ _ _ _ (inv_keys _ _ _ _ HI)) in Hin as (k & v & Hk & Hin).
  destruct (keys_chain _ _ _ _ (inv_keys _ _ _ _ HI) k v Hk) as [_ Hch]. destruct v as [|g t]; [done|].
  destruct Hch as [Hg _]. rewrite lookup_fmap in Hg. destruct (heap s !! g) as [z|] eqn:Hz; [|done].
  injection Hg as _ _ Hp. by eapply head_progress.
Qed.

Lemma work_step_inv W s s' : Inv W [] None s -> work_step s s' -> Inv (W - 1) [] None s'.
Proof.
  intros HI [now e Hn Hw He Hs]. pose proof (work_inv now e W s Hn Hw He HI) as H. unfold wpx in H. by rewrite Hs in H.
Qed.

Lemma work_terminates W s : Inv W [] None s -> Acc (fun s2 s1 => work_step s1 s2) s.
Proof.
  assert (H : forall n W s, (Z.to_nat W <= n)%nat -> Inv W [] None s -> Acc (fun s2 s1 => work_step s1 s2) s).
  { clear W s. induction n as [|n IH]; intros W s Hn HI; constructor; intros s' Hs; pose proof (work_step_inv W s s' HI Hs) as HI'.
    - pose proof (inv_weight _ _ _ _ HI') as Hw. assert (0 <= map_sum weight (heap s')); [|lia].
      apply map_sum_nonneg. intros x. unfold weight. by destruct (stage_ x).
    - apply (IH (W - 1)); [lia|done]. }
  intros HI. by eapply H.
Qed.

Lemma work_keeps s s' : rtc work_step s s' -> next_call s' = next_call s.
Proof.
  induction 1 as [|s0 s1 s2 [now e _ Hw _ Hh] _ IH]; [done|]. rewrite IH.
  assert (Hc : called e = None) by (destruct e; done).
  unfold handle in Hh. destruct (keeps_quiet now granted e Hc s0) as [Hk _]. by rewrite Hh in Hk.
Qed.

Lemma work_invs W s s' : Inv W [] None s -> rtc work_step s s' -> exists W', Inv W' [] None s'.
Proof.
  intros HI Hr. revert W HI. induction Hr as [|s0 s1 s2 Hs _ IH]; intros W HI; [eauto|].
  eapply IH, work_step_inv; eauto.
Qed.

Lemma no_handlers W s : Inv W [] None s -> heap s = ∅ ->
  requests_ s = ∅ /\ forall h, (h < next_call s)%nat -> replies h (bus s) = 1%nat.
Proof.
  intros HI He. assert (Hr : requests_ s = ∅).
  { apply set_eq. intros h. split; [|set_solver].
    intros (k & v & Hk & Hin)%(keys_requests _ _ _ _ (inv_keys _ _ _ _ HI)).
    pose proof (chain_length _ _ _ _ _ _ HI Hk) as Hl. rewrite He, map_size_empty in Hl.
    destruct v; [set_solver|simpl in Hl; lia]. }
  split; [done|]. intros h Hh. rewrite (inv_bus _ _ _ _ HI). rewrite decide_True; [done|]. rewrite Hr. set_solver.
Qed.

(** ** Properties *)

(** C1. Every D-Bus method call is answered at most once, and exactly once unless it
    is still being served: in every reachable state the number of replies sent
    for a call is 1 if the call was received and is no longer in [requests_], and
    0 otherwise. *)
Theorem calls_answered_once s :
  reachable (C := C) s ->
  (forall h, h ∈ requests_ s -> (h < next_call s)%nat) /\
  (forall h, replies h (bus s) = if decide ((h < next_call s)%nat /\ h ∉ requests_ s) then 1%nat else 0%nat).
Proof.
  intros [W HI]%service_inv. split; [|apply HI]. intros h (k & v & Hk & Hin)%(keys_requests _ _ _ _ (inv_keys _ _ _ _ HI)).
  destruct (keys_chain _ _ _ _ (inv_keys _ _ _ _ HI) k v Hk) as [_ Hch].
  destruct (chain_key _ _ _ _ _ Hch Hin) as (c & p & E & _). rewrite lookup_fmap in E.
  destruct (heap s !! h) as [x|] eqn:Hx; [|done]. apply (inv_handlers _ _ _ _ HI h x Hx).
Qed.

(** C6. Concurrent calls for the same key are served one at a time, in the order of
    their arrival: the calls in service are those in the chains of
    [request_keys_]; a chain is ordered by arrival; only its first handler has
    begun, and every other handler waits for the end of the one before it. *)
Theorem same_key_in_order s :
  reachable (C := C) s ->
  (forall h, h ∈ requests_ s <-> exists k v, request_keys_ s !! k = Some v /\ h ∈ v) /\
  (forall k v, request_keys_ s !! k = Some v -> StronglySorted lt v /\
     exists h t x, v = h :: t /\ heap s !! h = Some x /\ key x = k /\ stage_ x <> NotBegun /\ stage_ x <> Finished /\
       connected x = take 1 t /\
       forall i g, t !! i = Some g -> exists y, heap s !! g = Some y /\ key y = k /\ stage_ y = NotBegun /\
         connected y = take 1 (drop (S i) t)).
Proof.
  intros [W HI]%service_inv. pose proof (inv_keys _ _ _ _ HI) as [Hc Hr _ Hs]. split; [done|].
  intros k v Hk. split; [eauto|]. destruct (Hc k v Hk) as [_ Hch]. destruct v as [|h t]; [done|].
  destruct Hch as [Hh Ht]. rewrite lookup_fmap in Hh. destruct (heap s !! h) as [x|] eqn:Hx; [|done].
  injection Hh as Hkx Hcx Hp. exists h, t, x. split_and!; try done; [by destruct (stage_ x)..|].
  clear -Ht. induction t as [|g t IH]; [done|]. destruct Ht as [Hg Ht]. intros [|i] g' Hi; [|by apply (IH Ht i)].
  injection Hi as <-. rewrite lookup_fmap in Hg. destruct (heap s !! g) as [y|]; [|done].
  injection Hg as Hky Hcy Hp. exists y. split_and!; try done; by destruct (stage_ y).
Qed.

(** No call is ever stuck: from every reachable state, whatever the answers of
    the bus daemon and the results of the jobs are, only finitely many answers,
    results and deletions can follow without another call; as long as there is a
    handler one of them can occur; and when none is left every call received has
    been answered exactly once and no handler is left. *)
Theorem service_drains s :
  reachable (C := C) s ->
  Acc (fun s2 s1 => work_step s1 s2) s /\
  forall s', rtc work_step s s' ->
    (heap s' <> ∅ -> exists s2, work_step s' s2) /\
    (~ (exists s2, work_step s' s2) ->
       heap s' = ∅ /\ next_call s' = next_call s /\
       forall h, (h < next_call s)%nat -> replies h (bus s') = 1%nat).
Proof.
  intros [W HI]%service_inv. split; [by eapply work_terminates|]. intros s' Hr.
  destruct (work_invs W s s' HI Hr) as [W' HI']. pose proof (service_progress W' s' HI') as Hp. split; [done|].
  intros Hend. assert (He : heap s' = ∅) by (destruct (decide (heap s' = ∅)) as [|Hne]; [done|by destruct Hend; apply Hp]).
  destruct (no_handlers W' s' HI' He) as [_ Hb]. pose proof (work_keeps s s' Hr) as Hn.
  split_and!; try done. intros h Hh. apply Hb. lia.
Qed.

(** C5. An event never throws into the event loop, fails an assertion or touches a
    destroyed handler, except in one case, in which it always has undefined
    behaviour: a call for a key nobody else is being served for, from a peer
    whose credentials are cached and give no access.  The handler then finishes
    inside [queueRequest], which goes on to use the erased entry of
    [request_keys_]. *)
Theorem service_crashes_only_on_refusal now e s :
  0 < now -> reachable (C := C) s -> enabled e s ->
  (handle now e s).2 =
    if refused_at_once e s then Crash (Undefined "queueRequest: requests_for_key") else Ok tt.
Proof.
  intros Hnow [W HI]%service_inv He. destruct (refused_at_once e s) eqn:Hr.
  - by eapply refused_crash.
  - pose proof (handle_inv now e W s Hnow HI He Hr) as (s' & [] & -> & _)%wp_total_Ok. done.
Qed.

Lemma runs_downloading i (m : gmap nat Handler) :
  map_count (runs i) (jview <$> m) = map_count (fun x => bool_decide (limiter x = i) && bool_decide (stage_ x = Downloading)) m.
Proof.
  induction m as [|h x m Hm IH] using map_ind; [by rewrite fmap_empty, !map_count_empty|].
  rewrite fmap_insert, !map_count_insert by (rewrite ?lookup_fmap, ?Hm; done). rewrite IH. do 2 f_equal.
  unfold runs, jview. simpl. f_equal. apply bool_decide_ext. by destruct (stage_ x).
Qed.

(** C7. The limits hold: for each of the two limiters, the handlers whose download
    or extraction is running are exactly those the limiter counts, never more
    than its limit, and a handler is only kept in the queue while the limit is
    reached. *)
Theorem downloads_bounded s i :
  reachable (C := C) s ->
  let running := map_count (fun x => bool_decide (limiter x = i) && bool_decide (stage_ x = Downloading)) (heap s) in
  RateLimiter.running_ (limiter_of i s) = running /\
  running <= RateLimiter.concurrency_ (limiter_of i s) /\
  forall h x, heap s !! h = Some x -> limiter x = i -> stage_ x = Scheduled ->
    running = RateLimiter.concurrency_ (limiter_of i s).
Proof.
  intros [W HI]%service_inv running. pose proof (inv_limiters _ _ _ _ HI i) as Hl.
  assert (E : RateLimiter.running_ (limiter_of i s) = running) by by rewrite (lim_all _ _ _ Hl), runs_downloading.
  split; [done|]. pose proof (lim_bound _ _ _ Hl). split; [lia|]. intros h x Hh Hx Hst.
  destruct (lim_queued _ _ _ Hl h (cancel_func x)) as [n Hn]; [rewrite lookup_fmap, Hh; simpl; unfold jview; by rewrite Hst, Hx|].
  destruct (lim_wf _ _ _ Hl) as (Hc & _ & [Hnil|Hfull] & _); [rewrite Hnil in Hn; set_solver|lia].
Qed.

(** The idle timer never ends a service that has work to do: while it runs there
    is no handler, and every call received has been answered. *)
Theorem idle_exit_safe s :
  reachable (C := C) s -> Inactivity.timer_active (inactivity_handler_ s) = true ->
  heap s = ∅ /\ requests_ s = ∅ /\ forall h, (h < next_call s)%nat -> replies h (bus s) = 1%nat.
Proof.
  intros [W HI]%service_inv Ht. destruct (inv_idle _ _ _ _ HI) as [[_ Hw] Hn]. apply Hw in Ht.
  assert (He : heap s = ∅) by (apply map_size_empty_inv; lia).
  split; [done|]. by eapply no_handlers.
Qed.
End Properties.

(** ** Witnesses *)

Section Witnesses.

#[local] Existing Instance ThumbnailerInstance.small_host.
#[local] Existing Instance ThumbnailerInstance.small_host_laws.
#[local] Instance plain_seconds : LogFormat := { seconds := Cxx.to_string }.

Notation cache := ThumbnailerInstance.cache.
Notation event := (Service.event (C := cache)).

Definition idle : Inactivity.InactivityHandler := Inactivity.mkInactivity 0 false 30000.

(** A service with one download and two extractions at a time. *)
Definition settings : Settings.Settings.Settings :=
  Settings.Settings.init {[ "x" := {[ "max-downloads" := Settings.Settings.gv_int 1;
                                      "max-extractions" := Settings.Settings.gv_int 2 ]} ]} "x".

Definition new_service : DBusInterface :=
  match construct false 4 Settings.Settings.schema_defaults settings None true idle with
  | Ok s => s
  | _ => mkService ∅ ∅ ∅ (RateLimiter.mkLimiter 1 0 [] 0) (RateLimiter.mkLimiter 1 0 [] 0) (Credentials.init true) idle
           (mkConfig 0 (mkConfigValues false 0)) [] [] [] 0
  end.

Lemma new_service_initial : initial new_service.
Proof.
  exists false, 4, Settings.Settings.schema_defaults, settings, None, true, None, idle. split; vm_compute; reflexivity.
Qed.

(** The state after some events, one microsecond apart. *)
Fixpoint run (now : Z) (l : list event) (s : DBusInterface) : DBusInterface :=
  match l with
  | [] => s
  | e :: l' => run (now + 1) l' (handle now e s).1
  end.

Fixpoint runs_ok (now : Z) (l : list event) (s : DBusInterface) : Prop :=
  match l with
  | [] => True
  | e :: l' => enabled e s /\ (handle now e s).2 = Ok tt /\ runs_ok (now + 1) l' (handle now e s).1
  end.

Lemma run_reachable l : forall now s, 0 < now -> runs_ok now l s -> rtc (step (C := cache)) s (run now l s).
Proof.
  induction l as [|e l IH]; intros now s Hn; [intros _; apply rtc_refl|].
  intros (He & Hh & Hr). eapply rtc_l; [|apply IH; [lia|done]].
  eapply (step_event _ _ now e); [done|done|]. by destruct (handle now e s) as [s' o]; simpl in *; subst o.
Qed.

Lemma run_from_new l : runs_ok 1 l new_service -> reachable (C := cache) (run 1 l new_service).
Proof. intros Hr. exists new_service. split; [apply new_service_initial|by apply run_reachable]. Qed.

Definition album (n : string) : event := CallAlbumArt ThumbnailerInstance.fresh ":1.7" "a" n (mkSize 20 0).
Definition known : event := CredentialsFor ":1.7" (Credentials.ReplyMap (Some 1000) (Some ("unconfined" +:+ Cxx.nul))).
Definition needs (n : string) : Request := make_album "a" n (mkSize 20 0) 10000.

(** Two calls for one album and one for another; two downloads are wanted. *)
Definition busy_events : list event :=
  [album "x"; album "x"; album "y"; known; CheckDone 0 (needs "x") (Ok ""); CheckDone 2 (needs "y") (Ok "")].
Definition busy : DBusInterface := run 1 busy_events new_service.

Ltac run_tac := repeat split; try (vm_compute; reflexivity); try (eexists; split_and!; vm_compute; reflexivity);
                try (vm_compute; by eexists).

Lemma busy_service_reachable : reachable (C := cache) busy.
Proof. apply run_from_new. unfold busy_events. cbn [runs_ok]. run_tac. Qed.

(** Two are in the chain of the first album, one downloads, one is queued. *)
Lemma busy_stages :
  (fun x => stage_ x) <$> heap busy = {[ 0%nat := Downloading; 1%nat := NotBegun; 2%nat := Scheduled ]} /\
  request_keys_ busy !! key_ (needs "x") = Some [0%nat; 1%nat].
Proof. split; vm_compute; reflexivity. Qed.

Lemma calls_answered_once_witness :
  reachable (C := cache) busy /\
  forall h, replies h (bus busy) = if decide ((h < next_call busy)%nat /\ h ∉ requests_ busy) then 1%nat else 0%nat.
Proof. split; [apply busy_service_reachable|]. apply (calls_answered_once busy busy_service_reachable). Defined.

Lemma same_key_in_order_witness :
  reachable (C := cache) busy /\ request_keys_ busy !! key_ (needs "x") = Some [0%nat; 1%nat] /\
  StronglySorted lt [0%nat; 1%nat].
Proof.
  split; [apply busy_service_reachable|]. split; [apply busy_stages|].
  apply (proj2 (same_key_in_order busy busy_service_reachable) (key_ (needs "x"))). apply busy_stages.
Defined.

Lemma service_drains_witness :
  reachable (C := cache) busy /\ exists s2, work_step (C := cache) busy s2.
Proof.
  split; [apply busy_service_reachable|].
  apply (service_drains busy busy_service_reachable); [apply rtc_refl|]. vm_compute. discriminate.
Defined.

Lemma downloads_bounded_witness :
  reachable (C := cache) busy /\
  RateLimiter.running_ (limiter_of download_limiter busy) <= RateLimiter.concurrency_ (limiter_of download_limiter busy).
Proof.
  split; [apply busy_service_reachable|]. destruct (downloads_bounded busy download_limiter busy_service_reachable) as (-> & H & _). exact H.
Defined.

(** A caller with another user ID is refused; its next call meets the cached
    credentials. *)
Definition thumb (f : string) : event := CallThumbnail ThumbnailerInstance.fresh ":1.7" f (mkSize 20 0).
Definition stranger : event := CredentialsFor ":1.7" (Credentials.ReplyMap (Some 1001) (Some ("unconfined" +:+ Cxx.nul))).
Definition refused_events : list event := [thumb "/a"; stranger].
Definition refused : DBusInterface := run 1 refused_events new_service.

Lemma refused_reachable : reachable (C := cache) refused.
Proof. apply run_from_new. unfold refused_events. cbn [runs_ok]. run_tac. Qed.

Lemma service_crashes_only_on_refusal_witness :
  reachable (C := cache) refused /\ enabled (thumb "/b") refused /\
  (handle 9 (thumb "/b") refused).2 = Crash (Undefined "queueRequest: requests_for_key").
Proof.
  assert (He : enabled (thumb "/b") refused) by (vm_compute; exact I).
  split; [apply refused_reachable|]. split; [exact He|].
  apply (service_crashes_only_on_refusal 9 (thumb "/b") refused ltac:(lia) refused_reachable He).
Defined.

(** The refused handler is deleted: the idle timer runs. *)
Definition quiet_service : DBusInterface := run 1 (refused_events ++ [DeleteDeferred]) new_service.

Lemma quiet_service_reachable : reachable (C := cache) quiet_service.
Proof. apply run_from_new. unfold refused_events. cbn [runs_ok app]. run_tac; vm_compute; discriminate. Qed.

Lemma idle_exit_safe_witness :
  Inactivity.timer_active (inactivity_handler_ quiet_service) = true /\ heap quiet_service = ∅.
Proof.
  assert (Ht : Inactivity.timer_active (inactivity_handler_ quiet_service) = true) by (vm_compute; reflexivity).
  split; [exact Ht|]. apply (idle_exit_safe quiet_service quiet_service_reachable Ht).
Defined.

End Witnesses.

End ServiceCorrect.
