(* ===== verification/ServiceFailures.v ===== *)
(** * Downloads and extractions that cannot start (handler.cpp, ratelimiter.cpp)

    [download()] throws when the system refuses the pipe of the extractor, or the
    address of the download is not valid.  The job then ends inside
    [RateLimiter::schedule_now], which has counted it: [checkFinished] answers the
    call with an error, but nobody calls [done()] for it.  Here [download()] is
    answered as the system likes, and the service keeps its promises with the slots
    that are left. *)

From S2P Require Import Prelude CxxLib QtSize Settings CacheInterface ImageExtractor Keys Thumbnailer ThumbnailerInstance.
From S2P Require Import RateLimiter Credentials Inactivity Downloads Service ServiceInv ServiceSpec ServiceCorrect.
Import Cxx QtSize Thumbnailer Downloads Service ServiceInv ServiceSpec ServiceCorrect.

Module ServiceFailures.

Section Failures.
Context {host : Host} {hlaws : HostLaws host} {fmt : LogFormat} {C : Type}.
Implicit Types (s : DBusInterface) (e : event (C := C)) (slots : limiter_id -> Z).

(** The downloader throws standard exceptions only. *)
Definition answers_ok (sys : Answers) : Prop := no_crash (downloader_reply sys).

Inductive fstep s s' : Prop :=
  | answered_event sys now e : 0 < now -> answers_ok sys -> enabled e s -> handle_on sys now e s = (s', Ok tt) -> fstep s s'.

Definition freachable s : Prop := exists s0, initial s0 /\ rtc fstep s0 s.

(** ** What [download()] may do *)

Lemma download_cases sys r : answers_ok sys ->
  download sys 0 r = Ok (begin_download 0 r) \/ exists ex, download sys 0 r = Throw ex /\ is_std ex = true.
Proof.
  unfold answers_ok, download. intros Hs. destruct (source_ r).
  - unfold ImageExtractor.construct. destruct (pipe2 sys), (set_nonblock sys), (clear_cloexec sys); simpl; eauto.
  - destruct (downloader_reply sys) as [[]|ex|f]; simpl in *; eauto. done.
  - destruct (downloader_reply sys) as [[]|ex|f]; simpl in *; eauto. done.
Qed.

(** As with everything granted, or a standard exception. *)
Definition granted_or {A} (m m' : M DBusInterface A) : Prop :=
  forall s, m s = m' s \/ exists s' ex, m s = (s', Throw ex) /\ is_std ex = true.

Lemma granted_refl {A} (m : M DBusInterface A) : granted_or m m.
Proof. intros s. by left. Qed.

Lemma granted_bind {A B} (m m' : M DBusInterface A) (f f' : A -> M DBusInterface B) :
  granted_or m m' -> (forall a, granted_or (f a) (f' a)) -> granted_or (m ≫= f) (m' ≫= f').
Proof.
  intros Hm Hf s. unfold mbind, M_bind. destruct (Hm s) as [-> |(s' & ex & -> & He)]; [|right; eauto].
  destruct (m' s) as [s1 [a|e|c]]; [apply Hf|by left..].
Qed.

Section Answered.
Context (now : Z) (sys : Answers) (Hsys : answers_ok sys).

Lemma granted_run h : granted_or (run_job now sys h) (run_job now granted h).
Proof.
  unfold run_job. apply granted_bind; [apply granted_refl|]. intros x. destruct (cancelled x); [apply granted_refl|].
  apply granted_bind; [apply granted_refl|]. intros []. apply granted_bind; [|intros; apply granted_refl].
  intros s. rewrite download_granted. unfold lift. destruct (download_cases sys (request x) Hsys) as [-> |(ex & -> & He)]; [by left|right; eauto].
Qed.

Lemma granted_each l : granted_or (each (run_job now sys) l) (each (run_job now granted) l).
Proof. induction l as [|h l IH]; [apply granted_refl|]. apply granted_bind; [apply granted_run|by intros []]. Qed.

Lemma granted_done h r : granted_or (downloadFinished now sys h r) (downloadFinished now granted h r).
Proof.
  unfold downloadFinished. do 4 (apply granted_bind; [apply granted_refl|intros ?]). apply granted_bind; [apply granted_refl|intros [l started]].
  apply granted_bind; [apply granted_refl|intros []]. apply granted_bind; [apply granted_each|intros; apply granted_refl].
Qed.

(** Running the first step of an operation. *)
Lemma run_get {A} h x s (f : Handler -> M DBusInterface A) : heap s !! h = Some x -> (get_handler h ≫= f) s = f x s.
Proof. intros Hh. unfold mbind, M_bind, get_handler. by rewrite Hh. Qed.

Lemma run_update {A} h x g s (f : unit -> M DBusInterface A) :
  heap s !! h = Some x -> (update h g ≫= f) s = f tt (with_heap (<[h := g x]> (heap s)) s).
Proof. intros Hh. unfold update, mbind, M_bind, get_handler. by rewrite Hh. Qed.

Lemma run_getS {A} s (f : DBusInterface -> M DBusInterface A) : (getS ≫= f) s = f s s.
Proof. done. Qed.

Lemma run_modify {A} g s (f : unit -> M DBusInterface A) : (modify g ≫= f) s = f tt (g s).
Proof. done. Qed.

Lemma run_same {A B} (m m' : M DBusInterface A) s (f : A -> M DBusInterface B) : m s = m' s -> (m ≫= f) s = (m' ≫= f) s.
Proof. intros Hm. unfold mbind, M_bind. by rewrite Hm. Qed.

Lemma run_throw {A B} (m : M DBusInterface A) s s' ex (f : A -> M DBusInterface B) :
  m s = (s', Throw ex) -> (m ≫= f) s = (s', Throw ex).
Proof. intros Hm. unfold mbind, M_bind. by rewrite Hm. Qed.

Lemma refused_job h x s ex : heap s !! h = Some x -> cancelled x = false -> download sys 0 (request x) = Throw ex ->
  run_job now sys h s = (with_heap (<[h := set_times (download_started_at now) x]> (heap s)) s, Throw ex).
Proof.
  intros Hh Hc Hd. unfold run_job. rewrite (run_get h x) by done. rewrite Hc, (run_update h x) by done.
  apply run_throw. unfold lift. by rewrite Hd.
Qed.

(** The job runs at once and [download()] throws: the limiter has counted it. *)
Lemma schedule_refused h x s ex : heap s !! h = Some x -> cancelled x = false -> download sys 0 (request x) = Throw ex ->
  RateLimiter.running_ (limiter_of (limiter x) s) < RateLimiter.concurrency_ (limiter_of (limiter x) s) ->
  schedule_download now sys h s =
    (with_heap (<[h := set_times (download_started_at now) (set_stage Scheduled x)]> (heap s))
       (with_limiter (limiter x) (one_more (limiter_of (limiter x) s)) s), Throw ex).
Proof.
  intros Hh Hc Hex Hlt. unfold schedule_download. rewrite (run_get h x), run_getS by done.
  unfold RateLimiter.schedule, RateLimiter.schedule_now. rewrite (proj2 (Z.ltb_lt _ _) Hlt).
  cbv beta iota. rewrite run_modify. set (s1 := with_limiter _ _ s).
  assert (Hh1 : heap s1 !! h = Some x) by done. rewrite (run_update h x) by done.
  set (s2 := with_heap (<[h := set_stage Scheduled x]> (heap s1)) s1).
  assert (Hh2 : heap s2 !! h = Some (set_stage Scheduled x)) by apply lookup_insert_eq.
  apply run_throw. cbn [each]. rewrite (run_throw (run_job now sys h) s2 _ ex _ (refused_job h (set_stage Scheduled x) s2 ex Hh2 Hc Hex)).
  unfold s2. simpl. by rewrite insert_insert_eq.
Qed.

Lemma schedule_cases h x s : heap s !! h = Some x -> cancelled x = false ->
  schedule_download now sys h s = schedule_download now granted h s \/
  RateLimiter.running_ (limiter_of (limiter x) s) < RateLimiter.concurrency_ (limiter_of (limiter x) s) /\
  exists ex, download sys 0 (request x) = Throw ex /\ is_std ex = true.
Proof.
  intros Hh Hc. destruct (download_cases sys (request x) Hsys) as [Hd|(ex & Hex & Hstd)]; [left|destruct (RateLimiter.running_ (limiter_of (limiter x) s) <? RateLimiter.concurrency_ (limiter_of (limiter x) s)) eqn:E].
  - unfold schedule_download. rewrite !(run_get h x), !run_getS by done. destruct (RateLimiter.schedule _ _) as [[r c] started] eqn:E.
    rewrite !run_modify. set (s1 := with_limiter _ _ s). assert (Hh1 : heap s1 !! h = Some x) by done. rewrite !(run_update h x) by done.
    apply run_same. assert (Hl : started = [h] \/ started = []).
    { revert E. unfold RateLimiter.schedule, RateLimiter.schedule_now. case_goal; intros [= _ _ <-]; eauto. }
    destruct Hl as [-> | ->]; [|done]. cbn [each]. apply run_same. unfold run_job.
    rewrite !(run_get h (set_stage Scheduled x)) by apply lookup_insert_eq. simpl. rewrite Hc.
    rewrite !(run_update h (set_stage Scheduled x)) by apply lookup_insert_eq. simpl. by rewrite Hd, download_granted.
  - right. bsimpl. eauto.
  - left. unfold schedule_download, RateLimiter.schedule. rewrite !(run_get h x), !run_getS by done. by rewrite E.
Qed.
End Answered.

(** ** The slots that are left *)

Definition with_slots slots : limiter_id -> option Z := fun i => Some (slots i).

Definition lose (i : limiter_id) slots : limiter_id -> Z := fun j => if decide (j = i) then slots j - 1 else slots j.

Lemma lose_less i slots j : lose i slots j <= slots j.
Proof. unfold lose. destruct (decide _); lia. Qed.

Lemma all_slots hold W s : @ServiceSpec.Inv hold no_loss W [] None s ->
  @ServiceSpec.Inv hold (with_slots (fun i => RateLimiter.concurrency_ (limiter_of i s))) W [] None s.
Proof.
  intros [H1 H2 Hlim H4 H5 H6 H7 H8 H9 H10]. constructor; try done. intros i. destruct (Hlim i) as [L1 L2 L3 L4 L5 L6 L7].
  unfold lost in *. simpl in *. split; try done; unfold lost; simpl; lia.
Qed.

Lemma lose_inv hold slots W i s : RateLimiter.running_ (limiter_of i s) < RateLimiter.concurrency_ (limiter_of i s) ->
  @ServiceSpec.Inv hold (with_slots slots) W [] None s ->
  @ServiceSpec.Inv hold (with_slots (lose i slots)) W [] None (with_limiter i (one_more (limiter_of i s)) s).
Proof.
  intros Hlt [H1 H2 Hlim H4 H5 H6 H7 H8 H9 H10]. constructor; try done.
  - intros j. rewrite limiter_with. unfold with_slots, lose. destruct (decide (j = i)) as [-> |Hne]; [|apply Hlim].
    apply lim_lose; [done|apply Hlim].
  - intros h x Hx. by destruct (H4 h x Hx).
Qed.

Section Events.
Context {hold : gmap nat hview_entry} (now : Z) (Hnow : 0 < now) (sys : Answers) (Hsys : answers_ok sys).
Notation Inv slots := (@ServiceSpec.Inv hold (with_slots slots)).

(** A check that ends: at most a slot is lost. *)
Lemma check_on slots W s h r thumbnail :
  Inv slots W [] None s -> in_stage Checking h r s -> hold !! h = None -> no_crash thumbnail ->
  wp_total (checkFinished now sys h r thumbnail)
    (fun s' _ => exists slots', (forall i, slots' i <= slots i) /\ Inv slots' (W - 1) [] None s') s.
Proof.
  intros HI Hs Hno Hth. eapply (check_inv_with (left := with_slots slots) sys _ W); try done; [intros s2 HI2; by exists slots|].
  intros x x' msg Hh Hlike Hst Hst'. set (s1 := with_heap (<[h := x']> (heap s)) s).
  assert (Hh1 : heap s1 !! h = Some x') by apply lookup_insert_eq. pose proof (inv_handlers _ _ _ _ HI h x Hh) as Hok.
  assert (Hc : cancelled x' = false) by (rewrite (like_cancelled _ _ Hlike); apply Hok).
  destruct (schedule_cases now sys Hsys h x' s1 Hh1 Hc) as [E|(Hlt & ex & Hex & Hstd)].
  - pose proof (schedule_inv W s now h x x' HI Hh Hlike Hst' Hst Hno) as Hsch. revert Hsch. fold s1.
    unfold wpx, catch_std, catchM. rewrite E. destruct (schedule_download now granted h s1) as [s3 [u|e|f]]; [|done..]. by exists slots.
  - pose proof (schedule_refused now sys h x' s1 ex Hh1 Hc Hex Hlt) as E.
    change (limiter_of (limiter x') s1) with (limiter_of (limiter x') s) in *. set (i := limiter x') in *.
    set (s2 := with_limiter i (one_more (limiter_of i s)) s). pose proof (lose_inv hold slots W i s Hlt HI) as HI2. fold s2 in HI2.
    set (x2 := set_times (download_started_at now) (set_stage Scheduled x')) in *.
    assert (Hx2 : like x x2) by by apply like_times, like_scheduled.
    assert (Hsend : wp_total (sendError now (begin_ now) h (msg ex)) (fun s' _ => Inv (lose i slots) (W - 1) [] None s')
      (with_heap (<[h := x2]> (heap s2)) s2)).
    { eapply send_error_inv; eauto. }
    unfold wpx, catch_std, catchM. rewrite E, Hstd.
    replace (with_heap (<[h := x2]> (heap s1)) (with_limiter i (one_more (limiter_of i s)) s1)) with (with_heap (<[h := x2]> (heap s2)) s2).
    { revert Hsend. unfold wpx. destruct (sendError _ _ _ _ _) as [s3 [u|e|f]]; [|done..].
      intros HI3. exists (lose i slots). split; [apply lose_less|done]. }
    unfold s2, s1. simpl. by rewrite insert_insert_eq.
Qed.

Lemma answered_cases e s : handle_on sys now e s = handle now e s \/
  (exists h r thumbnail, e = CheckDone h r thumbnail) \/
  (exists h r s' ex, e = DownloadDone h r /\ handle_on sys now e s = (s', Throw ex) /\ is_std ex = true).
Proof.
  unfold handle. destruct e as [| | | |h r th|h r| | |]; try (left; exact eq_refl); [by right; left; exists h, r, th|]. destruct (granted_done now sys Hsys h r s) as [E|(s' & ex & E & He)].
  - left. exact E.
  - right. right. eauto 10.
Qed.

(** Any event that ends without an exception. *)
Lemma answered_inv slots W e s s' :
  Inv slots W [] None s -> (forall h, job_of e = Some h \/ hands_over e s h -> hold !! h = None) ->
  enabled e s -> refused_at_once e s = false -> handle_on sys now e s = (s', Ok tt) ->
  exists slots' W', (forall i, slots' i <= slots i) /\ Inv slots' W' [] None s'.
Proof.
  intros HI Hno He Hr Hs. destruct (answered_cases e s) as [E|[(h & r & th & ->)|(h & r & s2 & ex & -> & E & _)]].
  - pose proof (handle_held now e W s Hnow HI Hno He Hr) as Hw. unfold wpx in Hw. rewrite <- E, Hs in Hw.
    destruct Hw as [W' HI']. by exists slots, W'.
  - destruct He as [Hst Hth]. pose proof (check_on slots W s h r th HI Hst) as Hw.
    unfold wpx in Hw. simpl in Hs. rewrite Hs in Hw. destruct Hw as (slots' & Hl & HI'); [apply Hno; by left|done|]. by exists slots', (W - 1).
  - congruence.
Qed.
End Events.

(** A call that would be refused at once does not come back. *)
Lemma refused_on slots W sys now e s : 0 < now -> @ServiceSpec.Inv ∅ (with_slots slots) W [] None s -> refused_at_once e s = true ->
  (handle_on sys now e s).2 = Crash (Undefined "queueRequest: requests_for_key").
Proof.
  intros Hnow HI Hr. rewrite <- (refused_crash now e W s Hnow HI Hr). unfold handle. destruct e; first [discriminate Hr|exact eq_refl].
Qed.

Lemma fstep_inv hold slots W s s' :
  @ServiceSpec.Inv hold (with_slots slots) W [] None s ->
  (forall e h, enabled e s -> job_of e = Some h \/ hands_over e s h -> hold !! h = None) -> fstep s s' ->
  exists slots' W', (forall i, slots' i <= slots i) /\ @ServiceSpec.Inv hold (with_slots slots') W' [] None s'.
Proof.
  intros HI Hno [sys now e Hnow Hsys He Hs]. destruct (refused_at_once e s) eqn:Hr; [|by eapply answered_inv; eauto].
  assert (HI0 : @ServiceSpec.Inv ∅ (with_slots slots) W [] None s) by (destruct HI; by constructor).
  pose proof (refused_on slots W sys now e s Hnow HI0 Hr) as Hc. by rewrite Hs in Hc.
Qed.

Lemma freachable_inv s : freachable s -> exists slots W, @ServiceSpec.Inv ∅ (with_slots slots) W [] None s.
Proof.
  intros (s0 & H0 & Hr).
  assert (HI : exists slots W, @ServiceSpec.Inv ∅ (with_slots slots) W [] None s0) by (eexists _, _; apply all_slots, initial_inv, H0).
  clear H0. induction Hr as [|s0 s1 s2 Hs _ IH]; [done|]. apply IH. destruct HI as (slots & W & HI).
  destruct (fstep_inv ∅ slots W s0 s1 HI) as (slots' & W' & _ & HI'); [done..|]. by exists slots', W'.
Qed.

(** The handlers whose download runs. *)
Definition downloading (i : limiter_id) s : Z :=
  map_count (fun x => bool_decide (limiter x = i) && bool_decide (stage_ x = Downloading)) (heap s).

Lemma downloading_left hold slots W i s : @ServiceSpec.Inv hold (with_slots slots) W [] None s ->
  downloading i s <= slots i /\ downloading i s <= RateLimiter.running_ (limiter_of i s).
Proof.
  intros HI. destruct (inv_limiters _ _ _ _ HI i) as [_ L2 L3 L4 _ _ _]. unfold lost in *. simpl in *.
  rewrite runs_downloading in L4. unfold downloading. lia.
Qed.

Lemma downloading_counts i s h x : heap s !! h = Some x -> limiter x = i -> stage_ x = Downloading -> 1 <= downloading i s.
Proof.
  intros Hh Hl Hst. unfold downloading. rewrite (map_count_delete _ _ h x Hh), Hl, Hst.
  match goal with |- context [map_count ?p ?m] => pose proof (map_count_nonneg p m) end. rewrite !bool_decide_true by done. simpl. lia.
Qed.

(** A handler in the queue of a limiter all of whose slots are lost. *)
Definition stranded i h s (x : Handler) : Prop := stage_ x = Scheduled /\ limiter x = i /\
  exists slots W, slots i <= 0 /\ @ServiceSpec.Inv {[h := hview x]} (with_slots slots) W [] None s.

Lemma stranded_start i h s x : freachable s -> downloading i s = 0 -> heap s !! h = Some x -> stage_ x = Scheduled -> limiter x = i ->
  stranded i h s x.
Proof.
  intros (slots & W & HI)%freachable_inv Hd Hh Hst Hl. split; [done|]. split; [done|]. exists slots, W. split.
  - destruct (inv_limiters _ _ _ _ HI i) as [Hw Hb _ Hrun Hq _ _]. rewrite runs_downloading in Hrun. change (map_count _ _) with (downloading i s) in Hrun.
    unfold lost in Hrun. simpl in Hrun. destruct (Hq h (cancel_func x)) as [n Hn].
    { rewrite lookup_fmap, Hh. simpl. unfold jview. by rewrite Hst, Hl. }
    destruct Hw as (_ & _ & [Hnil|Hfull] & _); [rewrite Hnil in Hn; by apply not_elem_of_nil in Hn|lia].
  - destruct HI. constructor; try done. intros g v [<- <-]%lookup_singleton_Some. rewrite Hh. split; [done|]. simpl. by rewrite Hst.
Qed.

Lemma stranded_stays i h s s' x : stranded i h s x -> fstep s s' -> stranded i h s' x.
Proof.
  intros (Hst & Hl & slots & W & Hle & HI) Hs. split; [done|]. split; [done|].
  destruct (inv_held _ _ _ _ HI h (hview x)) as [Hv _]; [apply lookup_singleton_eq|].
  destruct (heap s !! h) as [y|] eqn:Hy; [|done]. injection Hv as Hr Hst' Hl'.
  destruct (fstep_inv _ slots W s s' HI) as (slots' & W' & Hless & HI'); [|done|exists slots', W'; split; [specialize (Hless i); lia|done]].
  intros e g He Hg. destruct (decide (g = h)) as [-> |Hne]; [exfalso|by apply lookup_singleton_ne].
  destruct Hg as [Hj|(k & r & z & z' & -> & Hz & Hz' & Hsz & Hlz)].
  - destruct e; try done; injection Hj as ->; destruct He as [(z & Hz & Hsz & _) _]; congruence.
  - destruct He as (z0 & Hz0 & Hsz0 & _). assert (z0 = z) as -> by congruence. assert (z' = y) as -> by congruence.
    destruct (downloading_left _ _ _ i _ HI) as [Hd _]. pose proof (downloading_counts i s k z Hz) as H1. lia || (specialize (H1 ltac:(congruence) Hsz0); lia).
Qed.

(** ** Properties *)

(** C8. Whatever [download()] is answered, the service keeps its promises: every call is
    answered at most once, and once when its handler is done; no more downloads
    or extractions run than a limiter counts, and no more than its limit; and an
    event can only throw into the event loop when it ends a download, and the
    extractor of the handler that was waiting for its slot cannot be made. *)
Theorem failures_contained s : freachable s ->
  (forall h, replies h (bus s) = if decide ((h < next_call s)%nat /\ h ∉ requests_ s) then 1%nat else 0%nat) /\
  (forall i, downloading i s <= RateLimiter.running_ (limiter_of i s) <= RateLimiter.concurrency_ (limiter_of i s)) /\
  forall sys now e, 0 < now -> answers_ok sys -> enabled e s ->
    (handle_on sys now e s).2 = (if refused_at_once e s then Crash (Undefined "queueRequest: requests_for_key") else Ok tt) \/
    exists h r ex, e = DownloadDone h r /\ (handle_on sys now e s).2 = Throw ex /\ is_std ex = true.
Proof.
  intros (slots & W & HI)%freachable_inv. split; [apply HI|]. split.
  - intros i. destruct (downloading_left _ _ _ i _ HI). pose proof (lim_bound _ _ _ (inv_limiters _ _ _ _ HI i)). lia.
  - intros sys now e Hnow Hsys He. destruct (refused_at_once e s) eqn:Hr; [left; by eapply refused_on|].
    destruct (answered_cases now sys Hsys e s) as [E|[(h & r & th & ->)|(h & r & s2 & ex & -> & E & Hex)]].
    + left. rewrite E. destruct (wp_total_Ok _ _ _ (handle_inv now e W s Hnow HI He Hr)) as (s' & [] & Hs & _). by rewrite Hs.
    + left. destruct He as [Hst Hth]. destruct (wp_total_Ok _ _ _ (check_on now Hnow sys Hsys slots W s h r th HI Hst (lookup_empty _) Hth)) as (s' & [] & Hs & _).
      simpl. by rewrite Hs.
    + right. exists h, r, ex. by rewrite E.
Qed.

(** Everything an error reply does but for the reply leaves the limiters alone. *)
Definition same_limiters s s' : Prop := forall i, limiter_of i s' = limiter_of i s.

#[local] Instance same_limiters_frame : Frame same_limiters.
Proof. split; try (by intros ? ? []); try (by intros ? ? ? []). split; [done|]. intros s1 s2 s3 H1 H2 i. by rewrite H2. Qed.

Lemma error_sent now h x msg s s' : heap s !! h = Some x -> status x = needs_download ->
  sendError now (begin_ now) h msg s = (s', Ok tt) -> (h, ErrorReplied msg) ∈ bus s' /\ same_limiters s s'.
Proof.
  intros Hh Hst Hs. pose proof grows_frame as Hg. pose proof same_limiters_frame as Hl. split.
  - unfold sendError in Hs. rewrite (run_get h x) in Hs by done. rewrite Hst in Hs. simpl in Hs.
    change (((mret () : M DBusInterface unit) ≫= ?f) s) with (f tt s) in Hs. cbv beta in Hs. rewrite run_modify in Hs.
    match type of Hs with ?m ?s0 = _ => assert (Hk : grows s0 (m s0).1) end.
    { match goal with |- grows ?s0 (?m ?s0).1 => assert (H : Prelude.keeps grows m); [|apply H] end.
      apply (keeps_bind grows); [by apply keeps_update|intros []]. apply keeps_emit; [done|]. intros g. by apply keeps_begin_. }
    rewrite Hs in Hk. destruct Hk as [_ [l Hl']]. simpl in Hl'. rewrite Hl'. set_solver.
  - pose proof (keeps_sendError same_limiters now (begin_ now) h msg (fun g => keeps_begin_ same_limiters now g) s) as Hk. by rewrite Hs in Hk.
Qed.

(** A slot that a failed start took is lost: when [download()] throws as the job of a
    check starts, the caller gets the error, and the limiter counts one job more,
    which is none of the handlers' and which nothing will ever end. *)
Theorem failed_start_loses_slot s h x r ex sys now :
  0 < now -> freachable s -> answers_ok sys -> heap s !! h = Some x -> stage_ x = Checking -> key_ r = key x ->
  status_ r = needs_download -> download sys 0 r = Throw ex ->
  RateLimiter.running_ (limiter_of (limiter x) s) < RateLimiter.concurrency_ (limiter_of (limiter x) s) ->
  exists s', handle_on sys now (CheckDone (C := C) h r (Ok "")) s = (s', Ok tt) /\
    (h, ErrorReplied ("Handler::checkFinished(): download error: " +:+ details x +:+ exn_what ex)) ∈ bus s' /\
    replies h (bus s') = 1%nat /\
    forall i, limiter_of i s' = if decide (i = limiter x) then one_more (limiter_of i s) else limiter_of i s.
Proof.
  intros Hnow Hr Hsys Hh Hst Hkey Hneeds Hd Hlt. pose proof Hr as (slots & W & HI)%freachable_inv.
  assert (He : enabled (CheckDone (C := C) h r (Ok "")) s) by (split; [by exists x|done]).
  destruct (wp_total_Ok _ _ _ (check_on now Hnow sys Hsys slots W s h r (Ok "") HI (proj1 He) (lookup_empty _) Logic.I)) as (s' & [] & Hs & _).
  exists s'. split; [exact Hs|].
  assert (Hr' : freachable s').
  { destruct Hr as (s0 & H0 & Hr). exists s0. split; [done|]. eapply rtc_r; [exact Hr|]. by apply (answered_event _ _ sys now (CheckDone h r (Ok ""))). }
  assert (Hcan : cancelled x = false) by apply (inv_handlers _ _ _ _ HI h x Hh).
  assert (Hsent : (h, ErrorReplied ("Handler::checkFinished(): download error: " +:+ details x +:+ exn_what ex)) ∈ bus s' /\
    forall i, limiter_of i s' = if decide (i = limiter x) then one_more (limiter_of i s) else limiter_of i s).
  { revert Hs. unfold checkFinished. rewrite (run_update h x) by done. set (x1 := set_request r x).
    rewrite (run_get h x1) by apply lookup_insert_eq. unfold check. change (cancelled x1) with (cancelled x). rewrite Hcan.
    change ((lift (watch (Ok "")) ≫= ?f) ?s0) with (f (Returned "" None) s0). cbv beta iota. simpl (negb _). cbv iota.
    rewrite (run_update h x1) by apply lookup_insert_eq. change (status x1) with (status_ r). rewrite Hneeds, bool_decide_true by done.
    simpl. rewrite insert_insert_eq. set (x2 := set_times (scheduled_at now) x1). 
    change (with_heap ?hp (with_heap _ s)) with (with_heap hp s). set (s1 := with_heap _ s).
    unfold catch_std, catchM. rewrite (schedule_refused now sys h x2 s1 ex) by (done || apply lookup_insert_eq).
    destruct (download_cases sys r Hsys) as [Hd'|(ex' & Hd' & Hstd)]; rewrite Hd in Hd'; [done|]. injection Hd' as <-. rewrite Hstd.
    intros Hs. eapply error_sent in Hs as [Hin Hlim]; [|apply lookup_insert_eq|done]. split; [exact Hin|].
    intros i. rewrite Hlim. change (limiter_of i (with_heap _ ?s0)) with (limiter_of i s0). rewrite limiter_with.
    change (limiter x2) with (limiter x). by destruct (decide (i = limiter x)) as [-> |]. }
  destruct Hsent as [Hin Hlim]. split; [exact Hin|]. split; [|exact Hlim].
  destruct (freachable_inv s' Hr') as (slots' & W' & HI'). pose proof (inv_bus _ _ _ _ HI') as Hrep. rewrite Hrep. specialize (Hrep h). revert Hrep. case_decide; [done|].
  intros Hrep. unfold replies in Hrep. apply nil_length_inv in Hrep.
  assert (Hf : (h, ErrorReplied ("Handler::checkFinished(): download error: " +:+ details x +:+ exn_what ex)) ∈ filter (fun q => q.1 = h) (bus s'))
    by by apply list_elem_of_filter. rewrite Hrep in Hf. by apply not_elem_of_nil in Hf.
Qed.

(** C9. What the lost slots lead to: once a handler waits in the queue of a limiter while none
    of its jobs runs, it waits for ever.  Whatever events follow, no job of that
    limiter is started again, and the call is never answered. *)
Theorem lost_slots_starve s s' i h x :
  freachable s -> downloading i s = 0 -> heap s !! h = Some x -> stage_ x = Scheduled -> limiter x = i -> rtc fstep s s' ->
  downloading i s' = 0 /\ replies h (bus s') = 0%nat /\
  exists x', heap s' !! h = Some x' /\ stage_ x' = Scheduled /\ request x' = request x.
Proof.
  intros Hr Hd Hh Hst Hl Hs. pose proof (stranded_start i h s x Hr Hd Hh Hst Hl) as H0.
  assert (H1 : stranded i h s' x) by (clear -hlaws H0 Hs; induction Hs; eauto using stranded_stays).
  destruct H1 as (_ & _ & slots & W & Hle & HI). destruct (downloading_left _ _ _ i _ HI) as [Hd' _].
  destruct (inv_held _ _ _ _ HI h (hview x)) as [Hv _]; [apply lookup_singleton_eq|].
  destruct (heap s' !! h) as [y|] eqn:Hy; [|done]. injection Hv as Hreq Hst' _.
  pose proof (map_count_nonneg (fun x => bool_decide (limiter x = i) && bool_decide (stage_ x = Downloading)) (heap s')) as Hpos.
  split; [unfold downloading in *; lia|]. split; [|exists y; by rewrite Hst', Hreq, Hst].
  rewrite (inv_bus _ _ _ _ HI), decide_False; [done|]. intros [_ Hout].
  destruct (ok_gone _ _ _ (inv_handlers _ _ _ _ HI h y Hy) Hout) as [E _]. congruence.
Qed.
End Failures.

(** ** Witnesses *)

Module FailureInstance.
Import ServiceCorrect.
#[local] Existing Instance ThumbnailerInstance.small_host.
#[local] Existing Instance ThumbnailerInstance.small_host_laws.
#[local] Existing Instance ServiceCorrect.plain_seconds.

Notation cache := ThumbnailerInstance.cache.
Notation event := (Service.event (C := cache)).

(** No file descriptor is left. *)
Definition no_pipe : Answers := mkAnswers (Some 24) None None (Ok tt).

Definition video (f : string) : event := CallThumbnail ThumbnailerInstance.fresh ":1.7" f (mkSize 20 0).
Definition wanted (f : string) : Request :=
  match get_thumbnail ThumbnailerInstance.fresh f (mkSize 20 0) with Ok r => r | _ => needs "" end.
Definition checked (h : nat) (f : string) : event := CheckDone h (wanted f) (Ok "").

Fixpoint run_on (now : Z) (l : list (Answers * event)) (s : DBusInterface) : DBusInterface :=
  match l with
  | [] => s
  | (sys, e) :: l' => run_on (now + 1) l' (handle_on sys now e s).1
  end.

Fixpoint runs_on (now : Z) (l : list (Answers * event)) (s : DBusInterface) : Prop :=
  match l with
  | [] => True
  | (sys, e) :: l' => (answers_ok sys /\ enabled e s /\ (handle_on sys now e s).2 = Ok tt) /\ runs_on (now + 1) l' (handle_on sys now e s).1
  end.

Lemma run_on_steps l : forall now s, 0 < now -> runs_on now l s -> rtc (fstep (C := cache)) s (run_on now l s).
Proof.
  induction l as [|[sys e] l IH]; intros now s Hn; [intros _; apply rtc_refl|]. intros ((Hsys & He & Hh) & Hr).
  eapply rtc_l; [|apply IH; [lia|exact Hr]]. eapply (answered_event _ _ sys now e); [done..|]. 
  by destruct (handle_on sys now e s) as [s' o]; simpl in *; subst o.
Qed.

Lemma run_on_reachable l : runs_on 1 l new_service -> freachable (C := cache) (run_on 1 l new_service).
Proof. intros Hr. exists new_service. split; [apply new_service_initial|by apply run_on_steps]. Qed.

Ltac run_tac := repeat split; try (vm_compute; reflexivity); try (eexists; split_and!; vm_compute; reflexivity);
                try (vm_compute; by eexists); try (vm_compute; discriminate).

(** Two extractions of two that may run find no pipe; the third video waits. *)
Definition before : list (Answers * event) := [(granted, video "/v1"); (granted, known)].
Definition asked : DBusInterface := run_on 1 before new_service.
Definition rest : list (Answers * event) :=
  [(no_pipe, checked 0 "/v1"); (granted, video "/v2"); (no_pipe, checked 1 "/v2"); (granted, video "/v3"); (granted, checked 2 "/v3")].
Definition short : DBusInterface := run_on 1 (before ++ rest) new_service.

Lemma asked_reachable : freachable (C := cache) asked.
Proof. apply run_on_reachable. unfold before. cbn [runs_on]. run_tac. Qed.

Lemma short_reachable : freachable (C := cache) short.
Proof. apply run_on_reachable. unfold before, rest. cbn [runs_on app]. run_tac. Qed.

Lemma failures_contained_witness :
  replies 0 (bus short) = 1%nat /\ replies 1 (bus short) = 1%nat /\
  forall i, downloading i short <= RateLimiter.running_ (limiter_of i short) <= RateLimiter.concurrency_ (limiter_of i short).
Proof.
  split; [vm_compute; reflexivity|]. split; [vm_compute; reflexivity|]. apply (failures_contained (C := cache) short short_reachable).
Defined.

Lemma failed_start_loses_slot_witness :
  exists s', handle_on no_pipe 3 (checked 0 "/v1") asked = (s', Ok tt) /\
    RateLimiter.running_ (extraction_limiter_ s') = 1 /\ replies 0 (bus s') = 1%nat.
Proof.
  assert (Hx : exists x, heap asked !! 0%nat = Some x /\ stage_ x = Checking /\ key_ (wanted "/v1") = key x /\ limiter x = extraction_limiter).
  { vm_compute. eexists. split_and!; reflexivity. }
  destruct Hx as (x & Hx & Hst & Hk & Hl).
  destruct (failed_start_loses_slot (C := cache) asked 0 x (wanted "/v1")
    (runtime_error ("ImageExtractor(): cannot create pipe: " +:+ safe_strerror 24)) no_pipe 3) as (s' & Hs & _ & Hrep & Hlim);
    [done|exact asked_reachable|done|exact Hx|exact Hst|exact Hk|done|vm_compute; reflexivity|rewrite Hl; vm_compute; reflexivity|].
  exists s'. split; [exact Hs|]. split; [|exact Hrep]. specialize (Hlim extraction_limiter). rewrite Hl in Hlim. simpl in Hlim. rewrite Hlim.
  vm_compute. reflexivity.
Defined.

Lemma lost_slots_starve_witness :
  exists s' : DBusInterface, rtc (fstep (C := cache)) short s' /\ (3 < next_call s')%nat /\ replies 2 (bus s') = 0%nat.
Proof.
  assert (Hx : exists x, heap short !! 2%nat = Some x /\ stage_ x = Scheduled /\ limiter x = extraction_limiter).
  { vm_compute. eexists. split_and!; reflexivity. }
  destruct Hx as (x & Hx & Hst & Hl). set (more := [(granted, video "/v4"); (granted, checked 3 "/v4"); (granted, DeleteDeferred)]).
  exists (run_on 9 more short).
  assert (Hr : rtc (fstep (C := cache)) short (run_on 9 more short)).
  { apply run_on_steps; [done|]. unfold more. cbn [runs_on]. run_tac. }
  split; [exact Hr|]. split; [vm_compute; lia|].
  apply (lost_slots_starve (C := cache) short _ extraction_limiter 2 x short_reachable); done.
Defined.
End FailureInstance.
End ServiceFailures.
