(* ===== verification/ServicePools.v ===== *)
(** * The event loop and the thread pools together (handler.cpp, dbusinterface.cpp)

    A handler in its check or its creation runs [thumbnail()] in a thread pool, and
    learns its result by a signal; all handlers share one [Thumbnailer].  Service.v
    takes any result for a job, Concurrent.v any set of look-ups with different
    keys.  Here the two run side by side: thread 0 is the event loop, thread [S h]
    the job of handler [h]. *)

From S2P Require Import Prelude CxxLib QtSize Settings Backoff Image CacheInterface ImageExtractor Threads Keys Thumbnailer.
From S2P Require Import ImageInstance CacheHelper ThumbnailerInstance Concurrent PoolCorrect Credentials Inactivity Downloads Service ServiceInv ServiceSpec ServiceCorrect.
Import Cxx QtSize Image CacheInterface Keys Threads Thumbnailer.
Import Concurrent PoolCorrect Downloads Service ServiceInv ServiceSpec ServiceCorrect.

Module ServicePools.

(** ** The key of a request stays *)

Section KeyStays.
Context {P L I E D : Type} {libs : ImageLibs P L I E D} {qs : QSizeScale}.
Context {C : Type} {cacheC : Cache C} {host : Host}.

Definition same_key (r r' : Request) : Prop := key_ r' = key_ r.

#[local] Instance same_key_preorder : PreOrder same_key.
Proof. split; [done|]. intros r1 r2 r3 H1 H2. unfold same_key in *. congruence. Qed.

Lemma fetch_key size : keeps same_key (fetch size).
Proof.
  intros r. unfold fetch, mbind at 1, M_bind at 1. simpl.
  assert (Hne : forall A (m : M Request A), keeps same_key m -> keeps same_key (noexcept m)).
  { intros A m Hm r'. specialize (Hm r'). unfold noexcept. by destruct (m r') as [r2 [a|e|c]]. }
  assert (Hfail : forall A (v : A) e,
    keeps same_key (if is_std e then _ ← modify (set_error_message (exn_what e)); mret v else throw e : M Request A)).
  { intros A v e. destruct (is_std e); [|by apply (keeps_same same_key)]. by apply (keeps_bind same_key). }
  assert (Hart : forall o, keeps same_key (common_fetch o)).
  { intros [reply|]; apply Hne; [|by apply (keeps_same same_key)]. apply (keeps_bind same_key); [by intros r'|].
    intros _. destruct (reply_status reply); try by apply (keeps_same same_key).
    apply (keeps_catch same_key); [by apply (keeps_bind same_key)|intros; apply Hfail]. }
  destruct (source_ r) as [f x| |]; [|apply Hart..].
  apply Hne, (keeps_catch same_key); [|intros; apply Hfail]. apply (keeps_bind same_key); [|by intros].
  destruct x as [x|]; [|by apply (keeps_same same_key)]. apply (keeps_bind same_key); [|by intros].
  intros r'. unfold read_extracted. by destruct (ImageExtractor.read x).
Qed.

(** A computation of a thread that leaves the key alone, whatever it is told. *)
Definition leaves_key {A} (m : T shared Request A) : Prop :=
  forall r last, good (fun _ _ => True) (fun _ _ _ => True) (fun _ (x : Request * outcome A) => same_key r x.1) last (m r).

Lemma leaves_bind {A B} (m : T shared Request A) (f : A -> T shared Request B) :
  leaves_key m -> (forall a, leaves_key (f a)) -> leaves_key (m ≫= f).
Proof.
  intros Hm Hf r last. unfold mbind, T_bind. apply good_graft. eapply good_mono; [|apply Hm].
  intros l' [r' [a|e|c]]; unfold same_key; simpl; [|done..]. intros Hr. eapply good_mono; [|apply (Hf a r' l')].
  intros ? x. unfold same_key. simpl. congruence.
Qed.

Lemma leaves_access {X} (e : shared X) : leaves_key (Threads.access e).
Proof. intros r last. by split. Qed.

Lemma leaves_from {A} (o : outcome A) : leaves_key (from o).
Proof. by intros r last. Qed.

Lemma leaves_ret {A} (a : A) : leaves_key (mret a).
Proof. by intros r last. Qed.

Lemma leaves_own : leaves_key get_own.
Proof. by intros r last. Qed.

Lemma leaves_private {A} (m : M Request A) : keeps same_key m -> leaves_key (private m).
Proof. intros Hm r last. apply Hm. Qed.

Ltac leaves_tac :=
  repeat match goal with
  | |- leaves_key (_ ≫= _) => apply leaves_bind; [|intros ?]
  | |- leaves_key (Threads.access _) => apply leaves_access
  | |- leaves_key (from _) => apply leaves_from
  | |- leaves_key (mret _) => apply leaves_ret
  | |- leaves_key get_own => apply leaves_own
  | |- leaves_key (private (fetch _)) => apply leaves_private, fetch_key
  | |- leaves_key (set_state _) => by apply leaves_private
  | |- leaves_key (match ?x with _ => _ end) => destruct x
  end.

Lemma leaves_reset l : leaves_key (reset_backoff l).
Proof. unfold reset_backoff, reset, expired. leaves_tac. Qed.

Lemma leaves_after_failure lim (d : ImageData (P := P)) : leaves_key (after_failure lim d).
Proof. unfold after_failure, Concurrent.retry_ok, Concurrent.adjust_retry_limit, Concurrent.expired. leaves_tac; apply leaves_reset. Qed.

Lemma leaves_body lim : leaves_key (thumbnail_body lim).
Proof.
  unfold thumbnail_body, fetch_and_scale, store_thumbnail, keep_fullsize. cbv zeta.
  leaves_tac; first [apply leaves_after_failure|apply leaves_reset].
Qed.

Lemma thumbnail_key lim r last :
  good (fun _ _ => True) (fun _ _ _ => True) (fun _ (x : Request * outcome string) => same_key r x.1) last (Concurrent.thumbnail lim r).
Proof.
  revert r last. apply leaves_bind; [apply leaves_own|]. intros r0 r last. apply good_graft. eapply good_mono; [|apply leaves_body].
  by intros l' [r' [a|e|c]].
Qed.
End KeyStays.

(** ** The system *)

Section System.
Context {P L I E D : Type} {libs : ImageLibs P L I E D} {laws : ImageLaws P L I E D}.
Context {qs : QSizeScale} {qlaws : QSizeScaleLaws qs}.
Context {C : Type} {cacheC : Cache C} {claws : CacheLaws C}.
Context {host : Host} {hlaws : HostLaws host} {fmt : LogFormat}.

Record System : Type := mkSystem { loop : DBusInterface; pools : Pools (C := C) }.
Implicit Types (y : System) (e : event (C := C)).

(** The thread of the job of a handler; 0 is the event loop. *)
Definition worker (h : nat) : nat := S h.

Definition start_thread (lim : Limits) (i : nat) (a : task) (p : Pools (C := C)) : Pools (C := C) :=
  mkPools (thumbnailer_ p) (<[i := (a, code lim a)]> (threads p)).

Definition end_thread (i : nat) (p : Pools (C := C)) : Pools (C := C) := mkPools (thumbnailer_ p) (delete i (threads p)).

(** The end of a job, as the event loop learns it from [checkWatcher] or [createWatcher]. *)
Definition job_event (s : DBusInterface) (h : nat) (r : Request) (thumbnail : outcome string) : event (C := C) :=
  match stage_ <$> heap s !! h with
  | Some Creating => CreateDone h r thumbnail
  | _ => CheckDone h r thumbnail
  end.

(** The methods make their requests with the thumbnailer of the service. *)
Definition served_by (t : Thumbnailer C) e : Prop :=
  match e with
  | CallAlbumArt t' _ _ _ _ | CallArtistArt t' _ _ _ _ | CallThumbnail t' _ _ _ => t' = t
  | _ => True
  end.

(** The event loop handles one event at a time and not while it runs maintenance; a
    job starts when there is a thread for it; the jobs take their accesses in any order. *)
Inductive goes_on (lim : Limits) y : System -> Prop :=
  | on_event now e s' : threads (pools y) !! 0%nat = None -> works e = true -> job_of e = None ->
      0 < now -> enabled e (loop y) -> handle now e (loop y) = (s', Ok tt) ->
      goes_on lim y (mkSystem s' (pools y))
  | on_job h x : heap (loop y) !! h = Some x -> working (stage_ x) = true -> threads (pools y) !! worker h = None ->
      goes_on lim y (mkSystem (loop y) (start_thread lim (worker h) (Lookup (request x)) (pools y)))
  | on_access p' : access_step (pools y) p' -> goes_on lim y (mkSystem (loop y) p')
  | on_result now h a r thumbnail s' : threads (pools y) !! 0%nat = None ->
      threads (pools y) !! worker h = Some (a, Ret (inl (r, thumbnail))) ->
      0 < now -> handle now (job_event (loop y) h r thumbnail) (loop y) = (s', Ok tt) ->
      goes_on lim y (mkSystem s' (end_thread (worker h) (pools y)))
  | on_maintained a v : threads (pools y) !! 0%nat = Some (a, Ret v) ->
      goes_on lim y (mkSystem (loop y) (end_thread 0 (pools y))).

(** A method call, or maintenance from the admin interface. *)
Inductive new_work (lim : Limits) y : System -> Prop :=
  | on_call now e s' : threads (pools y) !! 0%nat = None -> works e = false -> served_by (thumbnailer_ (pools y)) e ->
      0 < now -> enabled e (loop y) -> handle now e (loop y) = (s', Ok tt) ->
      new_work lim y (mkSystem s' (pools y))
  | on_maintenance a : who a = None -> threads (pools y) !! 0%nat = None ->
      new_work lim y (mkSystem (loop y) (start_thread lim 0 a (pools y))).

Definition sys_step (lim : Limits) y y' : Prop := goes_on lim y y' \/ new_work lim y y'.

(** A new service with a thumbnailer nothing has used yet. *)
Definition sys_initial (t : Thumbnailer C) y : Prop :=
  initial (loop y) /\ pools y = mkPools t ∅ /\ 0 < max_size_ t /\ Backoff.wf (backoff_ t) /\ caches_valid t.

Definition sys_reachable (t : Thumbnailer C) y : Prop := exists y0, sys_initial t y0 /\ rtc (sys_step (limits_of t)) y0 y.

(** *** The invariant *)

(** A thread is the job of a handler, on its request. *)
Definition job_thread y (h : nat) (a : task) (m : tree shared result) : Prop :=
  exists x, heap (loop y) !! h = Some x /\ working (stage_ x) = true /\ a = Lookup (request x) /\
    exists last, good (fun _ _ => True) (fun _ _ _ => True)
      (fun _ (v : result) => exists r o, v = inl (r, o) /\ same_key (request x) r) last m.

Record SysInv (t : Thumbnailer C) y : Prop := mkSysInv {
  si_loop : reachable (C := C) (loop y);
  si_pools : rtc (Concurrent.step (limits_of t)) (mkPools t ∅) (pools y);
  si_jobs : forall h a m, threads (pools y) !! worker h = Some (a, m) -> job_thread y h a m;
  si_maintenance : forall a m, threads (pools y) !! 0%nat = Some (a, m) -> who a = None
}.

(** Two handlers that work have different keys. *)
Lemma working_keys W s h g x z :
  ServiceSpec.Inv (hold := ∅) (left := no_loss) W [] None s -> heap s !! h = Some x -> heap s !! g = Some z ->
  working (stage_ x) = true -> working (stage_ z) = true -> key x = key z -> h = g.
Proof.
  intros HI Hh Hg Hx Hz Hk.
  destruct (head_active W [] s h x HI Hh) as (_ & t1 & H1 & _); [by destruct (stage_ x)|].
  destruct (head_active W [] s g z HI Hg) as (_ & t2 & H2 & _); [by destruct (stage_ z)|]. congruence.
Qed.

Lemma job_code lim r : exists last, good (fun _ _ => True) (fun _ _ _ => True)
  (fun _ (v : result) => exists r' o, v = inl (r', o) /\ same_key r r') last (code lim (Lookup r)).
Proof.
  exists None. apply good_graft. eapply good_mono; [|apply thumbnail_key]. intros l' [r' o] Hk. simpl in *. eauto.
Qed.

(** What a handler event leaves of the jobs. *)
Lemma jobs_undisturbed t y s' p' now e :
  SysInv t y -> 0 < now -> enabled e (loop y) -> handle now e (loop y) = (s', Ok tt) ->
  (forall h a m, threads p' !! worker h = Some (a, m) -> threads (pools y) !! worker h = Some (a, m) /\ job_of e <> Some h) ->
  reachable (C := C) s' /\
  forall h a m, threads p' !! worker h = Some (a, m) -> job_thread (mkSystem s' p') h a m.
Proof.
  intros [Hl _ Hj _] Hnow He Hs Hp. destruct (service_inv _ Hl) as [W HI].
  assert (Hr : refused_at_once e (loop y) = false).
  { destruct (refused_at_once e (loop y)) eqn:Hr; [|done]. pose proof (refused_crash now e W _ Hnow HI Hr) as Hc. by rewrite Hs in Hc. }
  split.
  - destruct Hl as (s0 & H0 & Hl). exists s0. split; [done|]. eapply rtc_r; [exact Hl|]. by eapply step_event.
  - intros h a m Hm. destruct (Hp h a m Hm) as [Hm' Hne]. destruct (Hj h a m Hm') as (x & Hx & Hwk & -> & Hg).
    destruct (job_undisturbed now e W _ s' h x Hnow HI He Hs Hr Hne Hx Hwk) as (x' & Hx' & Hreq & Hst).
    exists x'. rewrite Hreq, Hst. by split_and!.
Qed.

Lemma sys_initial_inv t y : sys_initial t y -> SysInv t y.
Proof.
  intros (Hi & Hp & _). constructor; rewrite ?Hp; try done.
  by exists (loop y).
Qed.

(** The requests of the jobs are complete. *)
Lemma working_ready W s h x :
  ServiceSpec.Inv (hold := ∅) (left := no_loss) W [] None s -> heap s !! h = Some x -> working (stage_ x) = true -> request_ready (request x).
Proof.
  intros HI Hx Hwk. pose proof (inv_requests _ _ _ _ HI h x Hx) as Hr. unfold request_ok in Hr.
  destruct (stage_ x); try done. by apply unstarted_ready.
Qed.

(** A job that starts: no other look-up has its key. *)
Lemma job_may_start t y h x :
  SysInv t y -> heap (loop y) !! h = Some x -> working (stage_ x) = true ->
  threads (pools y) !! worker h = None -> may_start (Lookup (request x)) (pools y).
Proof.
  intros [Hl _ Hj Hm] Hx Hwk Hno. destruct (service_inv _ Hl) as [W HI]. split; [by eapply working_ready|]. intros [|g] a m Ha.
  - by rewrite (Hm a m Ha).
  - destruct (Hj g a m Ha) as (z & Hz & Hzk & -> & _). simpl. intros [= Hk].
    assert (g = h) as -> by by eapply working_keys. unfold worker in Hno. congruence.
Qed.

Lemma start_thread_inv t y i a :
  SysInv t y -> may_start a (pools y) -> threads (pools y) !! i = None ->
  match i with 0%nat => who a = None | S h => job_thread y h a (code (limits_of t) a) end ->
  SysInv t (mkSystem (loop y) (start_thread (limits_of t) i a (pools y))).
Proof.
  intros [HI Hp Hj Hm] Hs Hno Ha. constructor; simpl; try done.
  - eapply rtc_r; [exact Hp|]. by apply start.
  - intros h b m [[-> [= <- <-]]|[_ Hb]]%lookup_insert_Some; [exact Ha|]. by apply (Hj h b m).
  - intros b m [[-> [= <- <-]]|[_ Hb]]%lookup_insert_Some; [exact Ha|]. by apply (Hm b m).
Qed.

Lemma access_inv t y p' : SysInv t y -> access_step (pools y) p' -> SysInv t (mkSystem (loop y) p').
Proof.
  intros [HI Hp Hj Hm] Hs. constructor; simpl; try done.
  - eapply rtc_r; [exact Hp|]. by apply access_is_step.
  - destruct Hs as [i a X e k now Hi]. intros h b m; simpl. intros [[-> [= <- <-]]|[_ Hb]]%lookup_insert_Some; [|by apply (Hj h b m)].
    destruct (Hj h a _ Hi) as (x & Hx & Hwk & -> & last & _ & Hg). exists x. split_and!; try done. eexists. by apply Hg.
  - destruct Hs as [i a X e k now Hi]. intros b m; simpl. intros [[-> [= <- <-]]|[_ Hb]]%lookup_insert_Some; by eapply Hm.
Qed.

Lemma end_thread_inv t y s' i a v :
  SysInv t y -> threads (pools y) !! i = Some (a, Ret v) ->
  reachable (C := C) s' ->
  (forall h b m, threads (end_thread i (pools y)) !! worker h = Some (b, m) -> job_thread (mkSystem s' (end_thread i (pools y))) h b m) ->
  SysInv t (mkSystem s' (end_thread i (pools y))).
Proof.
  intros [_ Hp Hj Hm] Hi HI Hjobs. constructor; try done.
  - eapply rtc_r; [exact Hp|]. by eapply finish.
  - intros b m; simpl. intros [_ Hb]%lookup_delete_Some. by eapply Hm.
Qed.

(** The result of a job is one the handler takes. *)
Lemma result_enabled t y h a v :
  0 < max_size_ t -> Backoff.wf (backoff_ t) -> caches_valid t -> SysInv t y ->
  threads (pools y) !! worker h = Some (a, Ret v) ->
  exists x r thumbnail, heap (loop y) !! h = Some x /\ a = Lookup (request x) /\ v = inl (r, thumbnail) /\
    enabled (job_event (loop y) h r thumbnail) (loop y) /\ job_of (job_event (loop y) h r thumbnail) = Some h.
Proof.
  intros Hmax Hb Hc [_ Hp Hj _] Hv. destruct (Hj h a _ Hv) as (x & Hx & Hwk & -> & last & r & o & -> & Hk).
  exists x, r, o. split_and!; try done; unfold job_event; rewrite Hx; simpl.
  - assert (Ho : no_crash o).
    { destruct (reachable_pinv (limits_of t) t _ eq_refl Hmax Hb Hc Hp) as [_ HI].
      destruct (pi_threads _ _ _ HI _ _ _ Hv) as (l' & He & _). simpl in He.
      destruct o as [dat|e|c]; [done| |done]. by destruct He as (msg & caught & ->). }
    destruct (stage_ x) eqn:Hst; try done; (split; [|done]); by exists x.
  - by destruct (stage_ x).
Qed.

Lemma loop_event_inv t y now e s' : SysInv t y -> job_of e = None -> 0 < now -> enabled e (loop y) ->
  handle now e (loop y) = (s', Ok tt) -> SysInv t (mkSystem s' (pools y)).
Proof.
  intros HI He Hnow Hen Hs. destruct (jobs_undisturbed t y s' (pools y) now e HI Hnow Hen Hs) as [H1 H2]; [by rewrite He|].
  constructor; simpl; [done|apply HI|exact H2|apply HI].
Qed.

Lemma goes_on_inv t y y' : 0 < max_size_ t -> Backoff.wf (backoff_ t) -> caches_valid t ->
  SysInv t y -> goes_on (limits_of t) y y' -> SysInv t y'.
Proof.
  intros Hmax Hb Hc HI [now e s' Hi Hwk He Hnow Hen Hs|h x Hx Hwk Hno|p' Hs|now h a r o s' Hi Hv Hnow Hs|a v Hv].
  - by eapply loop_event_inv.
  - apply start_thread_inv; [done|by eapply job_may_start|done|]. exists x. split_and!; [done..|apply job_code].
  - by apply access_inv.
  - destruct (result_enabled t y h a _ Hmax Hb Hc HI Hv) as (x & r' & o' & Hx & -> & [= <- <-] & Hen & Hj).
    destruct (jobs_undisturbed t y s' (end_thread (worker h) (pools y)) now _ HI Hnow Hen Hs) as [H1 H2].
    { intros g b m; simpl. intros [Hne Hg]%lookup_delete_Some. split; [done|]. rewrite Hj. intros [= ->]. done. }
    by eapply end_thread_inv.
  - eapply end_thread_inv; [done|done|apply HI|]. intros h b m; simpl. intros [_ Hb']%lookup_delete_Some. by apply (si_jobs _ _ HI h b m).
Qed.

Lemma new_work_inv t y y' : SysInv t y -> new_work (limits_of t) y y' -> SysInv t y'.
Proof.
  intros HI [now e s' Hi Hwk Ht Hnow Hen Hs|a Ha Hno].
  - eapply loop_event_inv; eauto. by destruct e.
  - apply start_thread_inv; try done. by destruct a.
Qed.

Lemma sys_reachable_inv t y : sys_reachable t y ->
  0 < max_size_ t /\ Backoff.wf (backoff_ t) /\ caches_valid t /\ SysInv t y.
Proof.
  intros (y0 & Hi & Hr). pose proof Hi as (_ & _ & H1 & H2 & H3). split_and!; [done..|].
  apply sys_initial_inv in Hi. induction Hr as [|y1 y2 y3 Hs _ IH]; [done|]. apply IH. destruct Hs; [by eapply goes_on_inv|by eapply new_work_inv].
Qed.

(** *** Progress *)

Lemma job_event_works s h r o : works (job_event s h r o) = true /\ refused_at_once (job_event s h r o) s = false.
Proof. unfold job_event. by destruct (stage_ <$> heap s !! h) as [[]|]. Qed.

Lemma result_step t y h a v :
  0 < max_size_ t -> Backoff.wf (backoff_ t) -> caches_valid t -> SysInv t y ->
  threads (pools y) !! 0%nat = None -> threads (pools y) !! worker h = Some (a, Ret v) ->
  exists s', goes_on (limits_of t) y (mkSystem s' (end_thread (worker h) (pools y))).
Proof.
  intros Hmax Hb Hc HI H0 Hv. destruct (result_enabled t y h a v Hmax Hb Hc HI Hv) as (x & r & o & Hx & -> & -> & Hen & Hj).
  destruct (job_event_works (loop y) h r o) as [Hwk Hr]. destruct (service_inv _ (si_loop _ _ HI)) as [W HW].
  destruct (wp_total_Ok _ _ _ (handle_inv 1 _ W _ eq_refl HW Hen Hr)) as (s' & [] & Hs & _).
  exists s'. by eapply (on_result _ _ 1).
Qed.

Lemma system_progress t y :
  0 < max_size_ t -> Backoff.wf (backoff_ t) -> caches_valid t -> SysInv t y ->
  heap (loop y) <> ∅ -> exists y', goes_on (limits_of t) y y'.
Proof.
  intros Hmax Hb Hc HI Hne.
  assert (Hacc : forall i a X (e : shared X) k, threads (pools y) !! i = Some (a, Vis e k) -> exists y', goes_on (limits_of t) y y').
  { intros i a X e k Hi. eexists. eapply on_access, (one_access _ i a X e k 0 Hi). }
  destruct (threads (pools y) !! 0%nat) as [[a [v|X e k]]|] eqn:H0; [|by eapply Hacc|].
  { eexists. by eapply on_maintained. }
  destruct (service_inv _ (si_loop _ _ HI)) as [W HW]. destruct (service_progress (C := C) W _ HW Hne) as [s' [now e Hnow Hwk Hen Hs]].
  destruct (job_of e) as [h|] eqn:He; [|eexists; by eapply on_event].
  assert (Hx : exists x, heap (loop y) !! h = Some x /\ working (stage_ x) = true).
  { destruct e; try done; injection He as ->; destruct Hen as [(x & Hx & Hst & _) _]; exists x; by rewrite Hst. }
  destruct Hx as (x & Hx & Hst). destruct (threads (pools y) !! worker h) as [[a [v|X e' k]]|] eqn:Hw.
  - destruct (result_step t y h a v Hmax Hb Hc HI H0 Hw) as [s2 ?]. eauto.
  - by eapply Hacc.
  - eexists. eapply (on_job _ _ h x); eauto.
Qed.

(** *** Termination *)

Definition idle (y : System) : gset nat := filter (fun h => threads (pools y) !! worker h = None) (dom (heap (loop y))).

(** Accesses and ends to come of the threads there are, and of those that may start. *)
Definition to_come (b : gmap nat nat) y : Z := total b + Z.of_nat (size b) + 13 * Z.of_nat (size (idle y)).

Definition bounds (b : gmap nat nat) y : Prop := bounded b (trees (pools y)).2 /\ dom b = dom (threads (pools y)).

Lemma start_to_come lim b y h a : bounds b y -> h ∈ dom (heap (loop y)) -> threads (pools y) !! worker h = None ->
  let y' := mkSystem (loop y) (start_thread lim (worker h) a (pools y)) in
  exists b', bounds b' y' /\ to_come b' y' < to_come b y.
Proof.
  intros [Hb Hd] Hh Hno y'. assert (Hbn : b !! worker h = None).
  { apply not_elem_of_dom. rewrite Hd. by apply not_elem_of_dom. }
  exists (<[worker h := longest]> b). split; [split|].
  - intros i m. unfold trees. simpl. rewrite fmap_insert. intros [[<- <-]|[Hne Hi]]%lookup_insert_Some.
    + exists longest. rewrite lookup_insert_eq. split; [done|]. apply within_code.
    + rewrite lookup_insert_ne by done. by apply Hb.
  - simpl. rewrite !dom_insert_L. by rewrite Hd.
  - unfold to_come, total. rewrite map_sum_insert, map_size_insert_None by done.
    assert (Hsub : idle y = {[h]} ∪ idle y').
    { apply set_eq. intros g. unfold idle. simpl. rewrite elem_of_union, elem_of_singleton, !elem_of_filter.
      destruct (decide (g = h)) as [-> |Hne]; [tauto|]. rewrite lookup_insert_ne by (unfold worker; congruence). tauto. }
    rewrite Hsub, size_union, size_singleton; [unfold longest; lia|].
    intros g ->%elem_of_singleton. unfold idle. simpl. rewrite elem_of_filter, lookup_insert_eq. by intros [? _].
Qed.

Lemma access_to_come b y p' : bounds b y -> access_step (pools y) p' ->
  exists b', bounds b' (mkSystem (loop y) p') /\ to_come b' (mkSystem (loop y) p') < to_come b y.
Proof.
  intros [Hb Hd] [i a X e k now Hi]. unfold trees in Hb. simpl in Hb.
  destruct (Hb i (Vis e k)) as ([|n] & Hn & Hw); [by rewrite lookup_fmap, Hi|done|].
  exists (<[i := n]> b). split; [split|].
  - intros j m. unfold trees. simpl. rewrite fmap_insert. intros [[<- <-]|[Hne Hj]]%lookup_insert_Some.
    + exists n. rewrite lookup_insert_eq. split; [done|]. apply Hw.
    + rewrite lookup_insert_ne by done. by apply Hb.
  - simpl. rewrite !dom_insert_L. by rewrite Hd.
  - unfold to_come, total. rewrite (map_sum_update _ _ _ _ _ Hn), map_size_insert_Some by done.
    assert (Hidle : idle (mkSystem (loop y) (mkPools (perform X e now (thumbnailer_ (pools y))).1
      (<[i := (a, k (perform X e now (thumbnailer_ (pools y))).2)]> (threads (pools y))))) = idle y); [|rewrite Hidle; lia].
    apply set_eq. intros g. unfold idle. simpl. rewrite !elem_of_filter.
    destruct (decide (i = worker g)) as [-> |Hne]; [|by rewrite lookup_insert_ne].
    rewrite lookup_insert_eq, Hi. naive_solver.
Qed.

Lemma maintained_to_come b y v a : bounds b y -> threads (pools y) !! 0%nat = Some (a, Ret v) ->
  let y' := mkSystem (loop y) (end_thread 0 (pools y)) in exists b', bounds b' y' /\ to_come b' y' < to_come b y.
Proof.
  intros [Hb Hd] H0 y'. destruct (Hb 0%nat (Ret v)) as (n & Hn & _); [unfold trees; simpl; by rewrite lookup_fmap, H0|].
  exists (delete 0%nat b). split; [split|].
  - intros j m. unfold trees. simpl. rewrite fmap_delete. intros [Hne Hj]%lookup_delete_Some. rewrite lookup_delete_ne by done. by apply Hb.
  - simpl. rewrite !dom_delete_L. by rewrite Hd.
  - unfold to_come, total. rewrite (map_sum_delete Z.of_nat b 0%nat n Hn).
    assert (Hs : size b = S (size (delete 0%nat b))).
    { rewrite <- (insert_delete_id b 0%nat n Hn) at 1. by rewrite map_size_insert_None by apply lookup_delete_eq. }
    assert (Hidle : idle y' = idle y); [|rewrite Hidle; lia].
    apply set_eq. intros g. unfold idle. simpl. rewrite !elem_of_filter, lookup_delete_ne by (unfold worker; congruence). done.
Qed.

(** A step hands an event to the loop, or leaves less to come. *)
Lemma goes_on_less t y y' W b : 0 < max_size_ t -> Backoff.wf (backoff_ t) -> caches_valid t ->
  SysInv t y -> ServiceSpec.Inv (hold := ∅) (left := no_loss) W [] None (loop y) -> bounds b y -> goes_on (limits_of t) y y' ->
  ServiceSpec.Inv (hold := ∅) (left := no_loss) (W - 1) [] None (loop y') \/
  loop y' = loop y /\ exists b', bounds b' y' /\ to_come b' y' < to_come b y.
Proof.
  intros Hmax Hb Hc HI HW Hbd [now e s' Hi Hwk He Hnow Hen Hs|h x Hx Hwk Hno|p' Hs|now h a r o s' Hi Hv Hnow Hs|a v Hv].
  - left. pose proof (work_inv now e W _ Hnow Hwk Hen HW) as Hw. unfold wpx in Hw. by rewrite Hs in Hw.
  - right. split; [done|]. apply start_to_come; [done| |done]. by apply elem_of_dom_2 in Hx.
  - right. split; [done|]. by apply access_to_come.
  - left. destruct (result_enabled t y h a _ Hmax Hb Hc HI Hv) as (x & r' & o' & Hx & -> & [= <- <-] & Hen & Hj).
    destruct (job_event_works (loop y) h r o) as [Hwk _].
    pose proof (work_inv now _ W _ Hnow Hwk Hen HW) as Hw. unfold wpx in Hw. by rewrite Hs in Hw.
  - right. split; [done|]. by eapply maintained_to_come.
Qed.

Lemma bounds_exist t y : SysInv t y -> exists b, bounds b y.
Proof.
  intros HI. pose proof (reachable_short _ _ _ (si_pools _ _ HI)) as Hs. exists (all_longest (pools y)).
  split; [by apply short_bounded|]. unfold all_longest. by rewrite dom_fmap_L.
Qed.

Lemma system_terminates t : 0 < max_size_ t -> Backoff.wf (backoff_ t) -> caches_valid t ->
  forall y, SysInv t y -> Acc (fun y2 y1 => goes_on (limits_of t) y1 y2) y.
Proof.
  intros Hmax Hb Hc.
  assert (H : forall w y W, (Z.to_nat W <= w)%nat -> SysInv t y -> ServiceSpec.Inv (hold := ∅) (left := no_loss) W [] None (loop y) ->
    Acc (fun y2 y1 => goes_on (limits_of t) y1 y2) y).
  { induction w as [w IHw] using lt_wf_ind. intros y W Hw HI HW. destruct (bounds_exist t y HI) as [b Hbd].
    remember (Z.to_nat (to_come b y)) as n eqn:Hn. revert y b Hn HI HW Hbd.
    induction n as [n IHn] using lt_wf_ind. intros y b -> HI HW Hbd. constructor. intros y' Hs.
    pose proof (goes_on_inv t y y' Hmax Hb Hc HI Hs) as HI'.
    destruct (goes_on_less t y y' W b Hmax Hb Hc HI HW Hbd Hs) as [HW'|(Hl & b' & Hbd' & Hlt)].
    - pose proof (inv_weight _ _ _ _ HW') as Hpos. pose proof (map_sum_nonneg weight (heap (loop y'))) as Hnn.
      apply (IHw (Z.to_nat (W - 1))%nat) with (W := W - 1); try done.
      assert (0 <= W - 1); [|lia]. etrans; [apply Hnn|exact Hpos]. intros x. unfold weight. destruct (stage_ x); lia.
    - eapply (IHn (Z.to_nat (to_come b' y'))); [|done|done|by rewrite Hl|done].
      assert (0 <= to_come b' y'); [|lia]. unfold to_come, total. pose proof (map_sum_nonneg Z.of_nat b' ltac:(intros; lia)). lia. }
  intros y HI. destruct (service_inv _ (si_loop _ _ HI)) as [W HW]. by eapply (H (Z.to_nat W) y W).
Qed.

(** ** Properties *)

(** C3. The event loop and the thread pools, running side by side, refine their models:
    what the loop does is a run of the service, whose assumptions about the
    results of the jobs hold; what the pools do is a run of look-ups with
    different keys, because two handlers that work never have the same key, each on a
    request whose download, if it was started, is over, whatever vs-thumb or the
    network did; so that the caches stay valid and the backoff state well-formed. *)
Theorem system_refines t y : sys_reachable t y ->
  reachable (C := C) (loop y) /\
  rtc (Concurrent.step (limits_of t)) (mkPools t ∅) (pools y) /\
  caches_valid (thumbnailer_ (pools y)) /\ Backoff.wf (backoff_ (thumbnailer_ (pools y))) /\
  (forall h g a b m n, threads (pools y) !! worker h = Some (a, m) -> threads (pools y) !! worker g = Some (b, n) ->
    who a = who b -> h = g) /\
  forall h x, heap (loop y) !! h = Some x -> working (stage_ x) = true -> request_ready (request x).
Proof.
  intros (Hmax & Hb & Hc & HI)%sys_reachable_inv. pose proof HI as [Hl Hp Hj _]. split; [done|]. split; [done|].
  destruct (reachable_pinv (limits_of t) t _ eq_refl Hmax Hb Hc Hp) as [(_ & L1 & L2) [P1 P2 P3 _ _]].
  destruct (service_inv _ Hl) as [W HW]. split; [done|]. split; [|split; [|intros h x; by apply (working_ready W)]].
  - unfold limits_of in P1. injection P1 as _ _ E1 E2. split; [split; rewrite ?E1, ?E2; by simpl in *|].
    unfold period_ok in P3. simpl in P3. rewrite E1, E2. destruct P3; [by left|by right].
  - intros h g a b m n Ha Hb' Hk. destruct (Hj h a m Ha) as (x & Hx & Hxw & -> & _), (Hj g b n Hb') as (z & Hz & Hzw & -> & _).
    simpl in Hk. injection Hk as Hk. by eapply working_keys.
Qed.

(** C2. When the job of a handler has ended, the handler is still there, on the request of
    the job and in the stage that waits for it; the request has kept its key; and
    the event loop takes the result without an exception or a crash. *)
Theorem results_delivered t y h a v now : 0 < now -> sys_reachable t y ->
  threads (pools y) !! 0%nat = None -> threads (pools y) !! worker h = Some (a, Ret v) ->
  exists x r thumbnail s', heap (loop y) !! h = Some x /\ working (stage_ x) = true /\ a = Lookup (request x) /\
    v = inl (r, thumbnail) /\ key_ r = key x /\ no_crash thumbnail /\
    handle now (job_event (loop y) h r thumbnail) (loop y) = (s', Ok tt) /\
    sys_reachable t (mkSystem s' (end_thread (worker h) (pools y))).
Proof.
  intros Hnow Hr H0 Hv. pose proof Hr as (Hmax & Hb & Hc & HI)%sys_reachable_inv.
  destruct (result_enabled t y h a v Hmax Hb Hc HI Hv) as (x & r & o & Hx & -> & -> & Hen & Hj).
  destruct (job_event_works (loop y) h r o) as [Hwk Hrf]. destruct (service_inv _ (si_loop _ _ HI)) as [W HW].
  destruct (wp_total_Ok _ _ _ (handle_inv now _ W _ Hnow HW Hen Hrf)) as (s' & [] & Hs & _).
  assert (Hst : working (stage_ x) = true /\ key_ r = key x /\ no_crash o).
  { destruct (si_jobs _ _ HI h _ _ Hv) as (x' & Hx' & Hst & _). assert (x' = x) as -> by congruence. split; [done|].
    unfold job_event in Hen. rewrite Hx in Hen. simpl in Hen. destruct (stage_ x); try done; destruct Hen as [(z & Hz & _ & Hk) Ho];
      by assert (z = x) as -> by congruence. }
  destruct Hst as (H1 & H2 & H3). exists x, r, o, s'.
  refine (conj Hx (conj H1 (conj eq_refl (conj eq_refl (conj H2 (conj H3 (conj Hs _))))))). destruct Hr as (y0 & Hi & Hr). exists y0. split; [done|].
  eapply rtc_r; [exact Hr|]. left. exact (on_result (limits_of t) y now h _ r o s' H0 Hv Hnow Hs).
Qed.

(** C4. No call is ever stuck, with the look-ups in their threads: from every reachable
    state only finitely many steps can follow without a new call or maintenance,
    whatever the schedule; while there is a handler, a step can follow; and when there
    is no handler left every call received has been answered exactly once. *)
Theorem system_drains t y : sys_reachable t y ->
  Acc (fun y2 y1 => goes_on (limits_of t) y1 y2) y /\
  forall y', rtc (goes_on (limits_of t)) y y' ->
    (heap (loop y') <> ∅ -> exists y2, goes_on (limits_of t) y' y2) /\
    (heap (loop y') = ∅ -> forall h, (h < next_call (loop y'))%nat -> replies h (bus (loop y')) = 1%nat).
Proof.
  intros (Hmax & Hb & Hc & HI)%sys_reachable_inv. split; [by apply system_terminates|]. intros y' Hr.
  assert (HI' : SysInv t y') by (induction Hr; [done|]; eauto using goes_on_inv). split.
  - intros Hne. by apply (system_progress t).
  - intros He h Hh. destruct (service_inv _ (si_loop _ _ HI')) as [W HW].
    destruct (no_handlers W _ HW He) as [_ Hrep]. by apply Hrep.
Qed.
End System.

(** ** Witnesses *)

Module SystemInstance.
Import ImageInstance CacheHelper ThumbnailerInstance PoolInstance.
Import Concurrent PoolCorrect Service ServiceCorrect.

#[local] Instance plain_seconds : LogFormat := { seconds := Cxx.to_string }.

(** A call, and the credentials of its peer: the check is due. *)
Definition asked_loop : DBusInterface := (handle 1 (album "x") new_service).1.
Definition called_loop : DBusInterface := (handle 2 known asked_loop).1.
Definition called : System := mkSystem called_loop (mkPools fresh ∅).

Lemma handled {C} now (e : event (C := C)) s : (handle now e s).2 = Ok tt -> handle now e s = ((handle now e s).1, Ok tt).
Proof. by destruct (handle now e s) as [s' o]; simpl; intros ->. Qed.

(** Its job starts, and runs to its end. *)
Definition fresh_x : Request := needs "x".
Definition looked : System :=
  mkSystem called_loop (play 9 (again 4 1) (start_thread (limits_of fresh) (worker 0) (Lookup fresh_x) (mkPools fresh ∅))).

Lemma fresh_initial : sys_initial fresh (mkSystem new_service (mkPools fresh ∅)).
Proof. split_and!; [apply new_service_initial|done|done|exact fresh_wf|exact caches_valid_fresh]. Qed.

Lemma called_reachable : sys_reachable fresh called.
Proof.
  eexists. split; [apply fresh_initial|].
  assert (H1 : new_work (limits_of fresh) (mkSystem new_service (mkPools fresh ∅)) (mkSystem asked_loop (mkPools fresh ∅))).
  { apply (on_call _ (mkSystem new_service (mkPools fresh ∅)) 1 (album "x") asked_loop (lookup_empty _) eq_refl eq_refl eq_refl Logic.I).
    apply handled. vm_compute. reflexivity. }
  assert (He : enabled known asked_loop) by (split; [vm_compute; by eexists|vm_compute; reflexivity]).
  assert (H2 : goes_on (limits_of fresh) (mkSystem asked_loop (mkPools fresh ∅)) called).
  { apply (on_event _ (mkSystem asked_loop (mkPools fresh ∅)) 2 known called_loop (lookup_empty _) eq_refl eq_refl eq_refl He).
    apply handled. vm_compute. reflexivity. }
  eapply rtc_l; [right; exact H1|]. apply rtc_once. by left.
Qed.

Lemma accesses_run lim s p q : rtc access_step p q -> rtc (sys_step lim) (mkSystem s p) (mkSystem s q).
Proof. induction 1 as [|p1 p2 p3 Hs _ IH]; [reflexivity|]. eapply rtc_l; [left; apply on_access; exact Hs|exact IH]. Qed.

Lemma looked_reachable : sys_reachable fresh looked.
Proof.
  destruct called_reachable as (y0 & Hi & Hr). exists y0. split; [done|]. etrans; [exact Hr|].
  assert (Hx : exists x, heap called_loop !! 0%nat = Some x /\ request x = fresh_x /\ stage_ x = Checking).
  { vm_compute. eexists. split_and!; reflexivity. }
  destruct Hx as (x & Hx & Hreq & Hst). eapply rtc_l.
  { left. apply (on_job _ _ 0 x); [exact Hx|by rewrite Hst|reflexivity]. }
  rewrite Hreq. apply accesses_run, play_accesses.
Qed.

Lemma system_refines_witness :
  sys_reachable fresh looked /\ done_at (pools looked) 1 = Some (needs_download, "") /\ reachable (C := cache) (loop looked).
Proof.
  split; [apply looked_reachable|]. split; [vm_compute; reflexivity|]. apply (system_refines fresh looked looked_reachable).
Defined.

Lemma results_delivered_witness :
  exists r s', handle (C := cache) 10 (job_event (loop looked) 0 r (Ok "")) (loop looked) = (s', Ok tt) /\
    sys_reachable fresh (mkSystem s' (end_thread (worker 0) (pools looked))).
Proof.
  assert (Hv : exists a r, threads (pools looked) !! worker 0 = Some (a, Ret (inl (r, Ok "")))).
  { vm_compute. eexists _, _. reflexivity. }
  destruct Hv as (a & r & Hv). assert (H0 : threads (pools looked) !! 0%nat = None) by (vm_compute; reflexivity).
  destruct (results_delivered fresh looked 0 a _ 10 eq_refl looked_reachable H0 Hv) as (x & r' & o & s' & _ & _ & _ & E & _ & _ & Hs & Hr).
  injection E as <- <-. eauto.
Defined.

Lemma system_drains_witness :
  sys_reachable fresh looked /\ Acc (fun y2 y1 => goes_on (limits_of fresh) y1 y2) looked.
Proof. split; [apply looked_reachable|]. apply (system_drains fresh looked looked_reachable). Defined.
End SystemInstance.
End ServicePools.
