(* ===== verification/Client.v ===== *)
(** * The client library (src/libthumbnailer-qt/libthumbnailer-qt.cpp)

    [ThumbnailerImpl] and the [RequestImpl] objects it creates, on top of the
    rate limiter of RateLimiter.v.  Everything runs on the event loop thread.
    A job of the limiter is the [send_request_] function of a request, written
    as the identity of that request.  Emitting the public [finished] signal is
    the last action of a call here; ClientSlots.v has the emission where the code
    has it, for programs that call the library from the slot. *)

From S2P Require Import Prelude RateLimiter.
Import RateLimiter.

Module Client.

Section Defs.
(** The image type of the toolkit and its decoder [QImage::fromData], which makes a
    null image of bytes it cannot decode: [None]. *)
Context {Img : Type} (fromData : string -> option Img).

(** A D-Bus reply as [QDBusPendingReply] presents it. *)
Inductive reply : Type :=
  | ReplyValue (ba : string)
  | ReplyError (msg : string).

Record RequestImpl : Type := mkRequest {
  details_ : string;
  watcher_ : bool;                  (* a call is on the wire *)
  cancel_func_ : option CancelFunc; (* empty for a request of invalid size *)
  error_message_ : string;
  finished_ : bool;
  is_valid_ : bool;
  cancelled_ : bool;
  cancelled_while_waiting_ : bool;
  image_ : option Img               (* [None]: a null image *)
}.

(** Calls queued with [Qt::QueuedConnection]. *)
Inductive posted_call : Type :=
  | PumpLimiter                     (* ThumbnailerImpl::pump_limiter *)
  | FakeFinished (id : nat).        (* RequestImpl::dbusCallFinished *)

Record ThumbnailerImpl : Type := mkThumbnailer {
  limiter_ : RateLimiter nat;
  requests : gmap nat RequestImpl;  (* the live RequestImpl objects *)
  posted : list posted_call;        (* the event queue, oldest first *)
  next_id : nat
}.

Definition set_limiter (l : RateLimiter nat) (t : ThumbnailerImpl) : ThumbnailerImpl :=
  mkThumbnailer l (requests t) (posted t) (next_id t).
Definition set_request (id : nat) (r : RequestImpl) (t : ThumbnailerImpl) : ThumbnailerImpl :=
  mkThumbnailer (limiter_ t) (<[id := r]> (requests t)) (posted t) (next_id t).
Definition post (c : posted_call) (t : ThumbnailerImpl) : ThumbnailerImpl :=
  mkThumbnailer (limiter_ t) (requests t) (posted t ++ [c]) (next_id t).

Definition get_request (id : nat) (t : ThumbnailerImpl) : outcome RequestImpl :=
  match requests t !! id with
  | Some r => Ok r
  | None => Crash (Undefined "use of a destroyed request")
  end.

(** Constructor: [ClientConfig()] failed ([None]) or returned [max_backlog]. *)
Definition init (max_backlog_default : Z) (config : option Z) : outcome ThumbnailerImpl :=
  l ← RateLimiter.init (default max_backlog_default config);
  Ok (mkThumbnailer l ∅ [] 0).

Definition with_watcher (r : RequestImpl) : RequestImpl :=
  mkRequest (details_ r) true (cancel_func_ r) (error_message_ r) (finished_ r) (is_valid_ r)
    (cancelled_ r) (cancelled_while_waiting_ r) (image_ r).
Definition with_cancel_func (c : CancelFunc) (r : RequestImpl) : RequestImpl :=
  mkRequest (details_ r) (watcher_ r) (Some c) (error_message_ r) (finished_ r) (is_valid_ r)
    (cancelled_ r) (cancelled_while_waiting_ r) (image_ r).

(** The lambda [send_request_]: issue the D-Bus call and watch it. *)
Definition send_request (id : nat) (t : ThumbnailerImpl) : outcome ThumbnailerImpl :=
  r ← get_request id t; Ok (set_request id (with_watcher r) t).

Fixpoint run_jobs (jobs : list nat) (t : ThumbnailerImpl) : outcome ThumbnailerImpl :=
  match jobs with
  | [] => Ok t
  | id :: jobs' => t' ← send_request id t; run_jobs jobs' t'
  end.

(** [thumbnailer_->limiter().done()], including the job it calls. *)
Definition pump_limiter (t : ThumbnailerImpl) : outcome ThumbnailerImpl :=
  '(l, started) ← done (limiter_ t); run_jobs started (set_limiter l t).

(** [createRequest] and the [RequestImpl] constructor. *)
Definition createRequest (details : string) (size_valid : bool) (t : ThumbnailerImpl)
    : outcome ThumbnailerImpl :=
  let id := next_id t in
  if negb size_valid then
    Ok (mkThumbnailer (limiter_ t)
          (<[id := mkRequest details false None (details +:+ ": invalid QSize") true false
                     false false None]> (requests t)) (posted t) (S id))
  else
    let t1 := mkThumbnailer (limiter_ t)
          (<[id := mkRequest details false None "" false false false false None]> (requests t))
          (posted t) (S id) in
    let '(l, c, started) := schedule id (limiter_ t1) in
    t2 ← run_jobs started (set_limiter l t1);
    r ← get_request id t2;
    Ok (set_request id (with_cancel_func c r) t2).

(** Call a request's [cancel_func_]; calling an empty function throws. *)
Definition call_cancel_func (r : RequestImpl) (t : ThumbnailerImpl)
    : outcome (ThumbnailerImpl * bool) :=
  match cancel_func_ r with
  | None => Crash (Undefined "bad_function_call")
  | Some c => let '(l, b) := call_cancel c (limiter_ t) in Ok (set_limiter l t, b)
  end.

Definition finishWithError (msg : string) (r : RequestImpl) : RequestImpl :=
  mkRequest (details_ r) false (cancel_func_ r) msg true false
    (cancelled_ r) (cancelled_while_waiting_ r) None.

Definition finishWithImage (ba : string) (r : RequestImpl) : RequestImpl :=
  mkRequest (details_ r) false (cancel_func_ r) "" true true
    (cancelled_ r) (cancelled_while_waiting_ r) (fromData ba).

Definition dbusCallFinished (id : nat) (rep : reply) (t : ThumbnailerImpl)
    : outcome ThumbnailerImpl :=
  r ← get_request id t;
  _ ← assert_ (negb (finished_ r)) "dbusCallFinished: !finished_";
  t1 ← (if negb (cancelled_ r) || negb (cancelled_while_waiting_ r)
        then pump_limiter t else Ok t);
  r1 ← get_request id t1;
  if cancelled_ r1 then Ok (set_request id (finishWithError "Request cancelled" r1) t1)
  else
    _ ← assert_ (watcher_ r1) "dbusCallFinished: watcher_";
    match rep with
    | ReplyError msg => Ok (set_request id (finishWithError
        ("Thumbnailer: RequestImpl::dbusCallFinished(): D-Bus error: " +:+ msg) r1) t1)
    | ReplyValue ba => Ok (set_request id (finishWithImage ba r1) t1)
    end.

Definition cancel (id : nat) (t : ThumbnailerImpl) : outcome ThumbnailerImpl :=
  r ← get_request id t;
  if finished_ r || cancelled_ r then Ok t
  else
    '(t1, waiting) ← call_cancel_func r t;
    let t2 := set_request id (mkRequest (details_ r) (watcher_ r) (cancel_func_ r)
                (error_message_ r) (finished_ r) (is_valid_ r) true waiting (image_ r)) t1 in
    Ok (if waiting then post (FakeFinished id) t2 else t2).

(** [waitForFinished]; [rep] is the reply the blocking wait ends with.
    [QDBusPendingCallWatcher::waitForFinished] delivers the watcher's
    [finished] signal before it returns. *)
Definition waitForFinished (id : nat) (rep : reply) (t : ThumbnailerImpl)
    : outcome ThumbnailerImpl :=
  r ← get_request id t;
  if finished_ r || cancelled_ r then Ok t
  else
    '(t1, unqueued) ← call_cancel_func r t;
    t2 ← (if unqueued : bool then
            _ ← assert_ (negb (watcher_ r)) "waitForFinished: !watcher_";
            let '(l, _, started) := schedule_now id (limiter_ t1) in
            run_jobs started (set_limiter l t1)
          else Ok t1);
    r2 ← get_request id t2;
    if watcher_ r2 then dbusCallFinished id rep t2
    else Crash (Undefined "waitForFinished: null watcher_").

Definition is_pump (c : posted_call) : bool :=
  match c with PumpLimiter => true | _ => false end.
Definition not_fake_of (id : nat) (c : posted_call) : bool :=
  match c with FakeFinished i => negb (bool_decide (i = id)) | _ => true end.

(** The destructor.  Deleting a QObject removes the calls posted to it, and
    deleting the watcher with it means its reply is never reported. *)
Definition destroy (id : nat) (t : ThumbnailerImpl) : outcome ThumbnailerImpl :=
  r ← get_request id t;
  '(t1, already_sent) ←
    match cancel_func_ r with
    | Some _ => '(t1, b) ← call_cancel_func r t; Ok (t1, negb b)
    | None => Ok (t, false)
    end;
  let t2 := if watcher_ r && already_sent then post PumpLimiter t1 else t1 in
  Ok (mkThumbnailer (limiter_ t2) (delete id (requests t2))
        (List.filter (not_fake_of id) (posted t2)) (next_id t2)).

(** What the event loop and the application do to the library. *)
Inductive event : Type :=
  | Create (details : string) (size_valid : bool)
  | Reply (id : nat) (rep : reply)    (* a pending call of [id] completes *)
  | Deliver                           (* the oldest posted call is delivered *)
  | Cancel (id : nat)
  | Wait (id : nat) (rep : reply)
  | Destroy (id : nat).

(** Calls are made on live objects only, and only a call on the wire can
    be answered. *)
Definition enabled (e : event) (t : ThumbnailerImpl) : bool :=
  match e with
  | Create _ _ => true
  | Reply id _ => match requests t !! id with Some r => watcher_ r | None => false end
  | Deliver => match posted t with [] => false | _ => true end
  | Cancel id | Wait id _ | Destroy id =>
      match requests t !! id with Some _ => true | None => false end
  end.

Definition exec (e : event) (t : ThumbnailerImpl) : outcome ThumbnailerImpl :=
  match e with
  | Create details size_valid => createRequest details size_valid t
  | Reply id rep => dbusCallFinished id rep t
  | Deliver =>
      match posted t with
      | [] => Ok t
      | c :: rest =>
          let t1 := mkThumbnailer (limiter_ t) (requests t) rest (next_id t) in
          match c with
          | PumpLimiter => pump_limiter t1
          | FakeFinished id => dbusCallFinished id (ReplyError "") t1
          end
      end
  | Cancel id => cancel id t
  | Wait id rep => waitForFinished id rep t
  | Destroy id => destroy id t
  end.

Definition step (t t' : ThumbnailerImpl) : Prop :=
  exists e, enabled e t = true /\ exec e t = Ok t'.
End Defs.

(** ** The invariant *)

Section Inv.
Context {Img : Type} (fromData : string -> option Img).
Notation RequestImpl := (@RequestImpl Img).
Notation ThumbnailerImpl := (@ThumbnailerImpl Img).
Implicit Types (t : ThumbnailerImpl) (r : RequestImpl) (l : RateLimiter nat).

(** D-Bus calls on the wire, and queued pump calls. *)
Definition in_flight t : Z := map_count watcher_ (requests t).
Definition pumps t : Z := Z.of_nat (length (List.filter is_pump (posted t))).

(** A cancel function that answers false from now on. *)
Definition dead (c : CancelFunc) l : Prop :=
  match c with
  | cancel_nothing => True
  | cancel_cell cell => cell ∉ slot_id <$> list_ l /\ (cell < next_cell l)%nat
  end.

(** The states of a request. *)
Inductive req_state t (id : nat) r : Prop :=
  | rs_finished : finished_ r = true -> watcher_ r = false -> req_state t id r
  | rs_waiting cell :
      finished_ r = false -> watcher_ r = false -> cancelled_ r = false ->
      cancel_func_ r = Some (cancel_cell cell) ->
      mkSlot cell (Some id) ∈ list_ (limiter_ t) -> req_state t id r
  | rs_sent c :
      finished_ r = false -> watcher_ r = true ->
      cancelled_ r && cancelled_while_waiting_ r = false ->
      cancel_func_ r = Some c -> dead c (limiter_ t) -> req_state t id r
  | rs_cancelled c :
      finished_ r = false -> watcher_ r = false ->
      cancelled_ r = true -> cancelled_while_waiting_ r = true ->
      cancel_func_ r = Some c -> FakeFinished id ∈ posted t -> req_state t id r.

(** [Inv k held t]: the books balance up to [k] limiter slots, and every
    request but [held] (the one a call in progress works on) is in one of
    the states above. *)
Record Inv (k : Z) (held : option nat) t : Prop := mkInv {
  inv_wf : wf (limiter_ t);
  inv_running : running_ (limiter_ t) = in_flight t + pumps t + k;
  inv_id : forall id r, requests t !! id = Some r -> (id < next_id t)%nat;
  inv_req : forall id r, requests t !! id = Some r -> held <> Some id -> req_state t id r;
  inv_cell_lt : forall id r cell, requests t !! id = Some r ->
    cancel_func_ r = Some (cancel_cell cell) -> (cell < next_cell (limiter_ t))%nat;
  inv_cell : forall id1 r1 id2 r2 cell,
    requests t !! id1 = Some r1 -> requests t !! id2 = Some r2 ->
    cancel_func_ r1 = Some (cancel_cell cell) -> cancel_func_ r2 = Some (cancel_cell cell) ->
    id1 = id2;
  inv_slot : forall cell id, mkSlot cell (Some id) ∈ list_ (limiter_ t) ->
    held <> Some id /\ exists r, requests t !! id = Some r /\
      cancel_func_ r = Some (cancel_cell cell) /\
      watcher_ r = false /\ finished_ r = false /\ cancelled_ r = false;
  inv_fake : forall id, FakeFinished id ∈ posted t ->
    held <> Some id /\ exists r, requests t !! id = Some r /\
      cancelled_ r = true /\ cancelled_while_waiting_ r = true /\ finished_ r = false /\
      watcher_ r = false /\ exists c, cancel_func_ r = Some c;
  inv_fake_once : NoDup (omap (fun c => match c with FakeFinished i => Some i | _ => None end)
                           (posted t))
}.

Lemma get_request_Ok id t r : get_request id t = Ok r <-> requests t !! id = Some r.
Proof. unfold get_request. destruct (requests t !! id); naive_solver. Qed.

Lemma dead_weaken c l l' :
  dead c l -> (next_cell l <= next_cell l')%nat ->
  (forall x, x ∈ slot_id <$> list_ l' -> x ∈ slot_id <$> list_ l \/ (next_cell l <= x)%nat) ->
  dead c l'.
Proof.
  destruct c as [|cell]; simpl; [done|]. intros [H1 H2] Hn Hsub. split; [|lia].
  intros Hin. destruct (Hsub _ Hin); [done|lia].
Qed.

Definition fake_ids (p : list posted_call) : list nat :=
  omap (fun c => match c with FakeFinished i => Some i | _ => None end) p.

(** What a call that works on request [j] leaves alone: every other request,
    its queue slot and its posted call. *)
Record frame (j : nat) t t' : Prop := mkFrame {
  fr_cells : (next_cell (limiter_ t) <= next_cell (limiter_ t'))%nat;
  fr_ids : (next_id t <= next_id t')%nat;
  fr_req : forall id, id <> j -> requests t' !! id = requests t !! id;
  fr_slot : forall cell id, id <> j ->
    mkSlot cell (Some id) ∈ list_ (limiter_ t') <-> mkSlot cell (Some id) ∈ list_ (limiter_ t);
  fr_live : forall x, x ∈ slot_id <$> list_ (limiter_ t') ->
    x ∈ slot_id <$> list_ (limiter_ t) \/ (next_cell (limiter_ t) <= x)%nat;
  fr_fake : forall id, id <> j -> FakeFinished id ∈ posted t' <-> FakeFinished id ∈ posted t
}.

Lemma req_state_frame j t t' id r :
  frame j t t' -> id <> j -> req_state t id r -> req_state t' id r.
Proof.
  intros [] Hne [? ?|cell ? ? ? ? Hin|c ? ? ? ? Hd|c ? ? ? ? ? Hin].
  - by apply rs_finished.
  - apply (rs_waiting _ _ _ cell); try done. by apply fr_slot0.
  - apply (rs_sent _ _ _ c); try done. by eapply dead_weaken.
  - apply (rs_cancelled _ _ _ c); try done. by apply fr_fake0.
Qed.

(** What has to be shown of [j] itself after the call. *)
Record own (j : nat) (held : option nat) t t' : Prop := mkOwn {
  own_req : forall r, requests t' !! j = Some r ->
    (j < next_id t')%nat /\ (held <> Some j -> req_state t' j r) /\
    forall cell, cancel_func_ r = Some (cancel_cell cell) ->
      (cell < next_cell (limiter_ t'))%nat /\
      forall id r', id <> j -> requests t !! id = Some r' ->
        cancel_func_ r' <> Some (cancel_cell cell);
  own_slot : forall cell, mkSlot cell (Some j) ∈ list_ (limiter_ t') ->
    held <> Some j /\ exists r, requests t' !! j = Some r /\
      cancel_func_ r = Some (cancel_cell cell) /\
      watcher_ r = false /\ finished_ r = false /\ cancelled_ r = false;
  own_fake : FakeFinished j ∈ posted t' ->
    held <> Some j /\ exists r, requests t' !! j = Some r /\
      cancelled_ r = true /\ cancelled_while_waiting_ r = true /\ finished_ r = false /\
      watcher_ r = false /\ exists c, cancel_func_ r = Some c
}.

Lemma inv_frame k k' held held' j t t' :
  Inv k held t -> frame j t t' -> own j held' t t' ->
  (forall id, id <> j -> held = Some id <-> held' = Some id) ->
  wf (limiter_ t') -> running_ (limiter_ t') = in_flight t' + pumps t' + k' ->
  NoDup (fake_ids (posted t')) ->
  Inv k' held' t'.
Proof.
  intros HI HF HO Hh Hwf Hrun Hnd. pose proof HF as [Hc Hi Hr Hs Hl Hf].
  destruct HI as [_ _ Hid Hst Hlt Hcell Hslot Hfake _], HO as [Oreq Oslot Ofake].
  constructor; [done|done|..].
  - intros id r E. destruct (decide (id = j)) as [->|Hne]; [by destruct (Oreq _ E) as [? _]|].
    rewrite Hr in E by done. apply Hid in E. lia.
  - intros id r E Hx. destruct (decide (id = j)) as [->|Hne]; [by destruct (Oreq _ E) as (_ & ? & _); auto|].
    rewrite Hr in E by done. eapply req_state_frame; [done..|]. apply Hst; [done|].
    by rewrite Hh.
  - intros id r cell E Ec. destruct (decide (id = j)) as [->|Hne].
    + destruct (Oreq _ E) as (_ & _ & Ho). by destruct (Ho _ Ec).
    + rewrite Hr in E by done. specialize (Hlt _ _ _ E Ec). lia.
  - intros id1 r1 id2 r2 cell E1 E2 C1 C2.
    destruct (decide (id1 = j)) as [->|N1], (decide (id2 = j)) as [->|N2]; [done|..].
    + exfalso. rewrite Hr in E2 by done. destruct (Oreq _ E1) as (_ & _ & Ho).
      destruct (Ho _ C1) as [_ Hno]. by apply (Hno id2 r2).
    + exfalso. rewrite Hr in E1 by done. destruct (Oreq _ E2) as (_ & _ & Ho).
      destruct (Ho _ C2) as [_ Hno]. by apply (Hno id1 r1).
    + rewrite Hr in E1, E2 by done. by eapply Hcell.
  - intros cell id Hin. destruct (decide (id = j)) as [->|Hne]; [by apply Oslot|].
    rewrite Hs in Hin by done. rewrite Hr, <- Hh by done. by apply Hslot.
  - intros id Hin. destruct (decide (id = j)) as [->|Hne]; [by apply Ofake|].
    rewrite Hf in Hin by done. rewrite Hr, <- Hh by done. by apply Hfake.
  - done.
Qed.

(** *** Starting the job a freed slot goes to *)

Lemma done_total l : 0 < running_ l -> exists l' started, done l = Ok (l', started).
Proof.
  intros Hpos. unfold done. rewrite (proj2 (Z.ltb_lt _ _) Hpos). simpl.
  destruct (pop_job _) as [rl [j|]]; simpl; eauto.
Qed.

Lemma cleared_no_job (cl : list (slot nat)) cell id :
  Forall (fun s => slot_job s = None) cl -> mkSlot cell (Some id) ∉ cl.
Proof. intros H Hin. rewrite list.Forall_forall in H. by specialize (H _ Hin). Qed.

Lemma pump_idle k held t l' :
  Inv k held t -> done (limiter_ t) = Ok (l', []) ->
  Inv (k - 1) held (set_limiter l' t).
Proof.
  intros HI Hd. pose proof (done_wf _ _ _ Hd (inv_wf _ _ _ HI)) as Hwf'.
  apply done_spec in Hd as (_ & _ & Hn & cl & Hcl & Hl & Hl' & Hr).
  assert (Hnone : requests t !! next_id t = None).
  { destruct (requests t !! next_id t) eqn:E; [|done]. apply (inv_id _ _ _ HI) in E. lia. }
  apply (inv_frame k (k - 1) held held (next_id t) t); try done.
  - constructor; simpl; rewrite ?Hn, ?Hl'; try done.
    + intros cell id _. rewrite Hl, ?Hl'. split; [by intros []%elem_of_nil|].
      intros ?. exfalso. by eapply cleared_no_job.
    + intros x Hx. rewrite ?Hl' in Hx. by apply elem_of_nil in Hx.
  - constructor; simpl; rewrite ?Hnone; try done.
    + intros cell Hin. rewrite ?Hl' in Hin. by apply elem_of_nil in Hin.
    + intros Hin. apply (inv_fake _ _ _ HI) in Hin as (? & r & E & _). congruence.
  - pose proof (inv_running _ _ _ HI). unfold in_flight, pumps in *. simpl. lia.
  - apply (inv_fake_once _ _ _ HI).
Qed.

Lemma pump_start k held t l' j rest :
  Inv k held t -> done (limiter_ t) = Ok (l', j :: rest) ->
  rest = [] /\ held <> Some j /\ exists r, requests t !! j = Some r /\
  Inv (k - 1) held (set_request j (with_watcher r) (set_limiter l' t)).
Proof.
  intros HI Hd. pose proof (done_wf _ _ _ Hd (inv_wf _ _ _ HI)) as Hwf'.
  apply done_spec in Hd as (_ & _ & Hn & cl & Hcl & -> & Hr & i & Hl).
  destruct (inv_slot _ _ _ HI i j) as (Hheld & r & Hj & Hc & Hw & Hf & Hca).
  { rewrite Hl. set_solver. }
  split; [done|]. split; [done|]. exists r. split; [done|].
  assert (Hi : i ∉ slot_id <$> list_ l').
  { destruct (inv_wf _ _ _ HI) as (_ & _ & _ & Hnd & _).
    rewrite Hl, fmap_app, NoDup_app in Hnd. destruct Hnd as (_ & Hnd & _).
    intros Hx. apply (Hnd _ Hx). simpl. set_solver. }
  apply (inv_frame k (k - 1) held held j t); try done.
  - constructor; simpl; rewrite ?Hn; try done.
    + intros id Hne. by rewrite lookup_insert_ne.
    + intros cell id Hne. rewrite Hl, elem_of_app, elem_of_cons. split; [by left|].
      intros [?|[[= ? ?]|?]]; [done|congruence|]. exfalso. by eapply cleared_no_job.
    + intros x Hx. left. rewrite Hl, fmap_app. set_solver.
  - constructor; simpl; rewrite ?lookup_insert_eq, ?Hn.
    + intros r' [= <-]. split_and!; [by eapply (inv_id _ _ _ HI)| |].
      * intros _. apply (rs_sent _ _ _ (cancel_cell i)); simpl; try done; [by rewrite Hca|].
        split; [done|]. rewrite Hn. by eapply (inv_cell_lt _ _ _ HI).
      * simpl. intros cell E. split; [by eapply (inv_cell_lt _ _ _ HI)|].
        intros id r' Hne E' C'. apply Hne. by eapply (inv_cell _ _ _ HI).
    + intros cell Hin. exfalso.
      assert (Hin' : mkSlot cell (Some j) ∈ list_ (limiter_ t)) by (rewrite Hl; set_solver).
      destruct (inv_slot _ _ _ HI _ _ Hin') as (_ & r' & Hid & Hc' & ?). simplify_eq.
      apply Hi. rewrite list_elem_of_fmap. by exists (mkSlot i (Some j)).
    + intros Hin. exfalso. destruct (inv_fake _ _ _ HI _ Hin) as (_ & r' & E & ? & _). congruence.
  - pose proof (inv_running _ _ _ HI). unfold in_flight, pumps in *. simpl.
    rewrite (map_count_update _ _ _ _ _ Hj), Hw. simpl. lia.
  - apply (inv_fake_once _ _ _ HI).
Qed.

Lemma pump_ok k held t :
  Inv k held t -> 0 < running_ (limiter_ t) ->
  exists t', pump_limiter t = Ok t' /\ Inv (k - 1) held t' /\ posted t' = posted t /\
    (forall id, held = Some id -> requests t' !! id = requests t !! id).
Proof.
  intros HI Hpos. destruct (done_total _ Hpos) as (l' & [|j rest] & Hd);
    unfold pump_limiter; rewrite Hd; simpl.
  - eexists. split_and!; [done|by eapply pump_idle|done|done].
  - destruct (pump_start _ _ _ _ _ _ HI Hd) as (-> & Hh & r & Hj & HI').
    unfold send_request, get_request; simpl. rewrite Hj; simpl.
    eexists. split_and!; [done|done|done|]. intros id ->. simpl.
    apply lookup_insert_ne. congruence.
Qed.

(** *** Taking a request out of the books and putting it back *)

Lemma frame_requests j t l' (reqs' : gmap nat RequestImpl) p' :
  list_ l' = list_ (limiter_ t) -> next_cell l' = next_cell (limiter_ t) ->
  (forall id, id <> j -> reqs' !! id = requests t !! id) ->
  (forall id, id <> j -> FakeFinished id ∈ p' <-> FakeFinished id ∈ posted t) ->
  frame j t (mkThumbnailer l' reqs' p' (next_id t)).
Proof. intros Hl Hn Hr Hp. constructor; simpl; rewrite ?Hl, ?Hn; auto. Qed.

Lemma own_held j t l' (reqs' : gmap nat RequestImpl) p' r r' :
  Inv 0 None t \/ (exists k, Inv k (Some j) t) ->
  requests t !! j = Some r -> reqs' !! j = Some r' -> cancel_func_ r' = cancel_func_ r ->
  (forall cell, mkSlot cell (Some j) ∉ list_ l') ->
  next_cell l' = next_cell (limiter_ t) -> FakeFinished j ∉ p' ->
  own j (Some j) t (mkThumbnailer l' reqs' p' (next_id t)).
Proof.
  intros HI Hj Hj' Hc Hs Hn Hf. constructor; simpl.
  - rewrite Hj'. intros r0 [= <-]. rewrite Hc, Hn.
    assert (exists k h, Inv k h t) as (k & h & HI') by (destruct HI as [?|[? ?]]; eauto).
    split_and!; [by eapply (inv_id _ _ _ HI')|done|]. intros cell Hcell.
    split; [by eapply (inv_cell_lt _ _ _ HI')|]. intros id r1 Hne E E'.
    apply Hne. by eapply (inv_cell _ _ _ HI').
  - intros cell Hin. by apply Hs in Hin.
  - done.
Qed.

Lemma held_not_queued k id t :
  Inv k (Some id) t ->
  (forall cell, mkSlot cell (Some id) ∉ list_ (limiter_ t)) /\ FakeFinished id ∉ posted t.
Proof.
  intros HI. split.
  - intros cell Hin. by apply (inv_slot _ _ _ HI) in Hin as [? _].
  - intros Hin. by apply (inv_fake _ _ _ HI) in Hin as [? _].
Qed.

Lemma hold_sent id r t :
  Inv 0 None t -> requests t !! id = Some r -> watcher_ r = true -> Inv 0 (Some id) t.
Proof.
  intros HI Hid Hw. destruct t as [l q p n]; simpl in *.
  apply (inv_frame 0 0 None (Some id) id (mkThumbnailer l q p n)); try done.
  - by apply frame_requests.
  - apply (own_held id (mkThumbnailer l q p n) l q p r r); try done; [by left|..].
    + intros cell Hin. apply (inv_slot _ _ _ HI) in Hin as (_ & r' & E & ? & ? & _).
      simpl in *. congruence.
    + intros Hin. apply (inv_fake _ _ _ HI) in Hin as (_ & r' & E & ? & ? & ? & ? & _).
      simpl in *. congruence.
  - split; [done|]. intros [= ->]. done.
  - apply (inv_wf _ _ _ HI).
  - apply (inv_running _ _ _ HI).
  - apply (inv_fake_once _ _ _ HI).
Qed.

(** A held request changes without being put back. *)
Lemma keep_held k id r r' t :
  Inv k (Some id) t -> requests t !! id = Some r -> cancel_func_ r' = cancel_func_ r ->
  Inv (k + Z.b2z (watcher_ r) - Z.b2z (watcher_ r')) (Some id) (set_request id r' t).
Proof.
  intros HI Hid Hc. destruct (held_not_queued _ _ _ HI) as [Hs Hf].
  eapply (inv_frame k _ (Some id) (Some id) id t); try done.
  - apply frame_requests; try done. intros i Hne. by apply lookup_insert_ne.
  - apply (own_held id t _ _ _ r r'); eauto. apply lookup_insert_eq.
  - apply (inv_wf _ _ _ HI).
  - pose proof (inv_running _ _ _ HI). unfold in_flight, pumps in *; simpl.
    rewrite (map_count_update _ _ _ _ _ Hid). lia.
  - apply (inv_fake_once _ _ _ HI).
Qed.

Lemma put_back id r t :
  Inv 0 (Some id) t -> requests t !! id = Some r -> req_state t id r -> Inv 0 None t.
Proof.
  intros HI Hid Hst. destruct (held_not_queued _ _ _ HI) as [Hs Hf].
  destruct t as [l q p n]; simpl in *.
  apply (inv_frame 0 0 (Some id) None id (mkThumbnailer l q p n)); try done.
  - by apply frame_requests.
  - constructor; simpl.
    + intros r0 E. simplify_eq. split_and!; [by eapply (inv_id _ _ _ HI)|done|].
      intros cell Hc. split; [by eapply (inv_cell_lt _ _ _ HI)|]. intros i r1 Hne E' Hc'.
      apply Hne. by eapply (inv_cell _ _ _ HI).
    + intros cell Hin. by apply Hs in Hin.
    + done.
  - intros i Hne. split; [|done]. intros [= ->]. done.
  - apply (inv_wf _ _ _ HI).
  - apply (inv_running _ _ _ HI).
  - apply (inv_fake_once _ _ _ HI).
Qed.

(** *** The end of a call on the wire *)

Lemma in_flight_pos id r t :
  requests t !! id = Some r -> watcher_ r = true -> 0 < in_flight t.
Proof.
  intros Hid Hw. unfold in_flight. rewrite (map_count_delete _ _ _ _ Hid), Hw. simpl.
  pose proof (map_count_nonneg watcher_ (delete id (requests t))). lia.
Qed.

Lemma finish_held id r rep t :
  Inv 0 (Some id) t -> requests t !! id = Some r -> watcher_ r = true ->
  finished_ r = false -> cancelled_ r && cancelled_while_waiting_ r = false ->
  exists t' r', dbusCallFinished fromData id rep t = Ok t' /\ Inv 0 None t' /\
    requests t' !! id = Some r' /\ finished_ r' = true.
Proof.
  intros HI Hid Hw Hf Hc. unfold dbusCallFinished, get_request. rewrite Hid. simpl.
  rewrite Hf. simpl. rewrite <- negb_andb, Hc. simpl.
  assert (0 < running_ (limiter_ t)) as Hpos.
  { rewrite (inv_running _ _ _ HI). pose proof (in_flight_pos _ _ _ Hid Hw). unfold pumps. lia. }
  destruct (pump_ok _ _ _ HI Hpos) as (t1 & -> & HI1 & _ & Hsame).
  simpl. specialize (Hsame id eq_refl). rewrite Hid in Hsame. rewrite Hsame. simpl.
  assert (Hput : forall r', finished_ r' = true -> watcher_ r' = false ->
            cancel_func_ r' = cancel_func_ r -> Inv 0 None (set_request id r' t1)).
  { intros r' Hf' Hw' Hc'. pose proof (keep_held _ _ _ _ _ HI1 Hsame Hc') as HI2.
    rewrite Hw, Hw' in HI2. apply (put_back id r'); [exact HI2|apply lookup_insert_eq|].
    by apply rs_finished. }
  destruct (cancelled_ r); [|rewrite Hw; destruct rep]; simpl;
    (eexists _, _; split_and!; [done|by apply Hput|apply lookup_insert_eq|done]).
Qed.

(** *** Cancel functions *)

Lemma elem_filter_not_fake id i p :
  FakeFinished i ∈ List.filter (not_fake_of id) p <-> i <> id /\ FakeFinished i ∈ p.
Proof.
  rewrite !list_elem_of_In, List.filter_In. simpl. rewrite negb_true_iff, bool_decide_eq_false.
  naive_solver.
Qed.

Lemma pumps_filter id p :
  length (List.filter is_pump (List.filter (not_fake_of id) p)) =
  length (List.filter is_pump p).
Proof.
  induction p as [|[|i] p IH]; simpl; [done|by rewrite IH|].
  destruct (negb _); simpl; done.
Qed.

Lemma fake_ids_filter id p : NoDup (fake_ids p) -> NoDup (fake_ids (List.filter (not_fake_of id) p)).
Proof.
  assert (Hin : forall i q, i ∈ fake_ids q <-> FakeFinished i ∈ q).
  { intros i q. unfold fake_ids. rewrite list_elem_of_omap. split.
    - intros ([|j] & ? & ?); simplify_eq; done.
    - intros ?. by exists (FakeFinished i). }
  induction p as [|[|i] p IH]; simpl; [done|done|].
  rewrite NoDup_cons. intros [Hni Hnd]. destruct (bool_decide (i = id)) eqn:E; simpl; [by apply IH|].
  apply NoDup_cons. split; [|by apply IH]. rewrite Hin, elem_filter_not_fake.
  change (omap _ p) with (fake_ids p) in Hni. rewrite Hin in Hni. naive_solver.
Qed.

(** A filter that removes nothing. *)
Lemma filter_no_fake id p : FakeFinished id ∉ p -> List.filter (not_fake_of id) p = p.
Proof.
  induction p as [|[|i] p IH]; simpl; [done|..]; rewrite not_elem_of_cons; intros [Hne Hp].
  - by rewrite IH.
  - rewrite bool_decide_eq_false_2 by congruence. simpl. by rewrite IH.
Qed.

Definition drop_fakes (id : nat) t : ThumbnailerImpl :=
  mkThumbnailer (limiter_ t) (requests t) (List.filter (not_fake_of id) (posted t)) (next_id t).

Lemma call_cancel_frame c l :
  running_ (call_cancel c l).1 = running_ l /\
  next_cell (call_cancel c l).1 = next_cell l /\
  slot_id <$> list_ (call_cancel c l).1 = slot_id <$> list_ l /\
  (forall cell id, mkSlot cell (Some id) ∈ list_ (call_cancel c l).1 <->
     mkSlot cell (Some id) ∈ list_ l /\ c <> cancel_cell cell).
Proof.
  destruct c as [|n]; simpl; [naive_solver|].
  destruct (cell_alive n (list_ l)) eqn:E; simpl; split_and!; try done.
  - apply clear_cell_ids.
  - intros cell id. rewrite elem_clear_cell. naive_solver.
  - intros cell id. split; [|naive_solver]. intros Hin. split; [done|]. intros [= ->].
    assert (cell_alive cell (list_ l) = true); [|congruence].
    apply alive_ids, list_elem_of_fmap. by exists (mkSlot cell (Some id)).
Qed.

Lemma cancel_hold id r c t :
  Inv 0 None t -> requests t !! id = Some r -> default cancel_nothing (cancel_func_ r) = c ->
  Inv 0 (Some id) (drop_fakes id (set_limiter (call_cancel c (limiter_ t)).1 t)).
Proof.
  intros HI Hid Hc. destruct (call_cancel_frame c (limiter_ t)) as (Hr & Hn & Hids & Hs).
  unfold drop_fakes, set_limiter; simpl.
  apply (inv_frame 0 0 None (Some id) id t); try done.
  - constructor; simpl; try lia; try done.
    + intros cell i Hne. rewrite Hs. split; [naive_solver|]. intros Hin. split; [done|].
      intros ->. apply (inv_slot _ _ _ HI) in Hin as (_ & r' & E & Hc' & _).
      destruct (cancel_func_ r) as [c|] eqn:Hcr; simpl in *; [subst c|done].
      apply Hne. by eapply (inv_cell _ _ _ HI).
    + rewrite Hids. by left.
    + intros i Hne. rewrite elem_filter_not_fake. naive_solver.
  - apply (own_held id t _ _ _ r r); try done; [by left| |].
    + intros cell [Hin Hne]%Hs. apply (inv_slot _ _ _ HI) in Hin as (_ & r' & E & Hc' & _).
      apply Hne. rewrite <- Hc. simplify_eq. by rewrite Hc'.
    + rewrite elem_filter_not_fake. naive_solver.
  - split; [done|]. intros [= ->]. done.
  - simpl. apply call_cancel_wf, (inv_wf _ _ _ HI).
  - pose proof (inv_running _ _ _ HI). unfold in_flight, pumps in *; simpl.
    rewrite pumps_filter, Hr. done.
  - apply fake_ids_filter, (inv_fake_once _ _ _ HI).
Qed.

(** The answer of the cancel function of an unfinished request. *)
Lemma cancel_answer id r c t :
  Inv 0 None t -> requests t !! id = Some r -> cancel_func_ r = Some c ->
  finished_ r = false -> cancelled_ r = false ->
  (call_cancel c (limiter_ t)).2 = negb (watcher_ r) /\ FakeFinished id ∉ posted t /\
  (watcher_ r = true -> dead c (limiter_ t)).
Proof.
  intros HI Hid Hc Hf Hca. split_and!.
  - destruct (inv_req _ _ _ HI _ _ Hid) as [? ?|cell ? Hw ? Hcf Hin|c' ? Hw ? Hcf Hd|]; try congruence.
    + rewrite Hw. simplify_eq. simpl.
      assert (cell_alive cell (list_ (limiter_ t)) = true) as ->; [|done].
      apply alive_ids, list_elem_of_fmap. by exists (mkSlot cell (Some id)).
    + rewrite Hw. simplify_eq. destruct c as [|cell]; simpl in *; [done|].
      destruct (cell_alive cell _) eqn:E; [|done]. by apply alive_ids in E; destruct Hd.
  - intros Hin. apply (inv_fake _ _ _ HI) in Hin as (_ & r' & E & ? & _). congruence.
  - intros Hw. destruct (inv_req _ _ _ HI _ _ Hid); congruence.
Qed.

(** *** Preservation, event by event *)

Lemma reply_inv id rep t :
  Inv 0 None t -> enabled (Reply id rep) t = true ->
  exists t', exec fromData (Reply id rep) t = Ok t' /\ Inv 0 None t'.
Proof.
  simpl. intros HI He. destruct (requests t !! id) as [r|] eqn:Hid; [|done].
  pose proof (hold_sent _ _ _ HI Hid He) as HH.
  destruct (inv_req _ _ _ HI _ _ Hid) as [? ?|? ? ? |c Hf _ Hc _ _|]; try congruence.
  destruct (finish_held id r rep t HH Hid He Hf Hc) as (t' & r' & E & HI' & _). eauto.
Qed.

Lemma deliver_inv t :
  Inv 0 None t -> enabled (Img:=Img) Deliver t = true ->
  exists t', exec fromData Deliver t = Ok t' /\ Inv 0 None t'.
Proof.
  simpl. intros HI He. destruct t as [l q p n]; simpl in *.
  destruct p as [|c p]; [done|]. clear He. destruct c as [|id].
  - assert (HI1 : Inv 1 None (mkThumbnailer l q p n)).
    { destruct HI. constructor; simpl in *; try done.
      - unfold in_flight, pumps in *; simpl in *. lia.
      - intros id r E Hh. destruct (inv_req0 _ _ E Hh) as [| | |c ? ? ? ? ? Hin];
          [by apply rs_finished|by eapply rs_waiting|by eapply rs_sent|].
        apply (rs_cancelled _ _ _ c); try done. simpl in *. set_solver.
      - intros id Hin. apply inv_fake0. set_solver. }
    assert (0 < running_ l) as Hpos.
    { pose proof (inv_running _ _ _ HI) as E. unfold in_flight, pumps in E; simpl in E.
      pose proof (map_count_nonneg watcher_ q). lia. }
    destruct (pump_ok _ _ _ HI1 Hpos) as (t' & -> & HI' & _). eauto.
  - destruct (inv_fake _ _ _ HI id) as (_ & r & Hid & Hca & Hcw & Hf & Hw & c & Hc);
      [simpl; set_solver|]. simpl in Hid.
    assert (Hnp : FakeFinished id ∉ p).
    { pose proof (inv_fake_once _ _ _ HI) as Hnd. simpl in Hnd.
      apply NoDup_cons in Hnd as [Hnd _]. intros Hin. apply Hnd.
      apply list_elem_of_omap. by exists (FakeFinished id). }
    assert (HI1 : Inv 0 (Some id) (mkThumbnailer l q p n)).
    { apply (inv_frame 0 0 None (Some id) id (mkThumbnailer l q (FakeFinished id :: p) n)); try done.
      - apply frame_requests; try done. simpl. intros i Hne. rewrite elem_of_cons. naive_solver.
      - apply (own_held id (mkThumbnailer l q (FakeFinished id :: p) n) l q p r r); try done; [by left|].
        intros cell Hin. apply (inv_slot _ _ _ HI) in Hin as (_ & r' & E & ? & ? & ? & ?).
        simpl in *. congruence.
      - split; [done|]. intros [= ->]. done.
      - apply (inv_wf _ _ _ HI).
      - pose proof (inv_running _ _ _ HI). unfold in_flight, pumps in *; simpl in *. done.
      - pose proof (inv_fake_once _ _ _ HI) as Hnd. simpl in Hnd. by apply NoDup_cons in Hnd as [_ Hnd]. }
    unfold dbusCallFinished, get_request; simpl. rewrite Hid; simpl.
    rewrite Hf, Hca, Hcw; simpl. rewrite Hid; simpl. rewrite Hca.
    eexists; split; [done|].
    pose proof (keep_held _ _ r (finishWithError "Request cancelled" r) _ HI1 Hid eq_refl) as HI2.
    rewrite Hw in HI2. eapply put_back; [exact HI2|apply lookup_insert_eq|].
    by apply rs_finished.
Qed.

(** A held request that was cancelled while waiting is put back with its posted call. *)
Lemma put_fake id r c t :
  Inv 0 (Some id) t -> requests t !! id = Some r -> finished_ r = false -> watcher_ r = false -> cancelled_ r = true ->
  cancelled_while_waiting_ r = true -> cancel_func_ r = Some c -> FakeFinished id ∉ posted t ->
  Inv 0 None (post (FakeFinished id) t).
Proof.
  intros HI Hid Hf Hw Hca Hww Hc Hnf. destruct (held_not_queued _ _ _ HI) as [Hs _].
  apply (inv_frame 0 0 (Some id) None id t); try done.
  - apply frame_requests; try done. simpl. intros i Hne. rewrite elem_of_app. set_solver.
  - constructor; simpl.
    + intros r0 E. assert (r0 = r) as -> by congruence. split_and!.
      * by eapply (inv_id _ _ _ HI).
      * intros _. apply (rs_cancelled _ _ _ c); simpl; try done. set_solver.
      * intros cell Hcell. split; [by eapply (inv_cell_lt _ _ _ HI id)|].
        intros i r1 Hne E1 Hc1. apply Hne. by eapply (inv_cell _ _ _ HI i _ id).
    + intros cell Hin. by apply Hs in Hin.
    + intros _. split; [done|]. eauto 10.
  - intros i Hne. split; [|done]. intros [= ->]. done.
  - apply (inv_wf _ _ _ HI).
  - pose proof (inv_running _ _ _ HI). unfold in_flight, pumps in *; simpl in *.
    rewrite List.filter_app. simpl. rewrite app_nil_r. done.
  - simpl. unfold fake_ids. rewrite omap_app. apply NoDup_app. split_and!.
    + apply (inv_fake_once _ _ _ HI).
    + intros i Hi Hi'. simpl in Hi'. apply list_elem_of_singleton in Hi' as ->.
      apply list_elem_of_omap in Hi as ([|?] & ? & ?); simplify_eq; done.
    + simpl. apply NoDup_singleton.
Qed.

Lemma cancel_inv id t :
  Inv 0 None t -> enabled (Img:=Img) (Cancel id) t = true ->
  exists t', exec fromData (Cancel id) t = Ok t' /\ Inv 0 None t'.
Proof.
  simpl. intros HI He. destruct (requests t !! id) as [r|] eqn:Hid; [|done].
  unfold cancel, get_request. rewrite Hid; simpl.
  destruct (finished_ r) eqn:Hf; simpl; [eauto|].
  destruct (cancelled_ r) eqn:Hca; simpl; [eauto|].
  assert (exists c, cancel_func_ r = Some c) as [c Hc].
  { destruct (inv_req _ _ _ HI _ _ Hid); eauto; congruence. }
  destruct (cancel_answer _ _ _ _ HI Hid Hc Hf Hca) as (Ha & Hnf & Hd).
  pose proof (cancel_hold _ _ c _ HI Hid) as HH. rewrite Hc in HH. specialize (HH eq_refl). unfold drop_fakes in HH. simpl in HH.
  rewrite filter_no_fake in HH by done.
  destruct (call_cancel_frame c (limiter_ t)) as (_ & Hn & Hids & _).
  unfold call_cancel_func. rewrite Hc.
  destruct (call_cancel c (limiter_ t)) as [l' b] eqn:Ecall; simpl in *. subst b.
  eexists; split; [done|].
  set (r' := mkRequest _ _ _ _ _ _ _ _ _).
  pose proof (keep_held _ _ _ r' _ HH Hid (eq_sym Hc)) as HI2. simpl in HI2.
  replace (0 + _ - _) with 0 in HI2 by lia.
  destruct (watcher_ r) eqn:Hw; simpl.
  - eapply put_back; [exact HI2|apply lookup_insert_eq|]. subst r'.
    apply (rs_sent _ _ _ c); simpl; try done.
    eapply dead_weaken; [by apply Hd|rewrite Hn; done|]. intros x Hx. left. simpl in Hx. congruence.
  - apply (put_fake id r' c); try done. apply lookup_insert_eq.
Qed.

Lemma inv_bump k held j t :
  Inv k held t -> Inv (k + 1) held (set_limiter (schedule_now j (limiter_ t)).1.1 t).
Proof.
  intros []. constructor; simpl; try done.
  - by apply (schedule_now_wf j).
  - unfold in_flight, pumps in *; simpl in *. lia.
  - intros id r E Hh. destruct (inv_req0 _ _ E Hh) as [|cell|c|c];
      [by apply rs_finished|by apply (rs_waiting _ _ _ cell)|by apply (rs_sent _ _ _ c)
      |by apply (rs_cancelled _ _ _ c)].
Qed.

Lemma inv_post_pump k held t : Inv (k + 1) held t -> Inv k held (post PumpLimiter t).
Proof.
  intros []. unfold post. constructor; simpl; try done.
  - unfold in_flight, pumps in *; simpl in *. rewrite List.filter_app, length_app. simpl. lia.
  - intros id r E Hh. destruct (inv_req0 _ _ E Hh) as [|cell|c|c];
      [by apply rs_finished|by apply (rs_waiting _ _ _ cell)|by apply (rs_sent _ _ _ c)
      |apply (rs_cancelled _ _ _ c); try done].
    simpl. set_solver.
  - intros id Hin. apply inv_fake0. apply elem_of_app in Hin as [?|Hin]; [done|].
    by apply list_elem_of_singleton in Hin.
  - rewrite omap_app. simpl. by rewrite app_nil_r.
Qed.

Lemma call_cancel_false c l : (call_cancel c l).2 = false -> (call_cancel c l).1 = l.
Proof. destruct c as [|cell]; simpl; [done|]. by destruct (cell_alive _ _). Qed.

Lemma set_limiter_id t : set_limiter (limiter_ t) t = t.
Proof. by destruct t. Qed.

Lemma wait_inv id rep t :
  Inv 0 None t -> enabled (Img:=Img) (Wait id rep) t = true ->
  exists t', exec fromData (Wait id rep) t = Ok t' /\ Inv 0 None t' /\
    exists r', requests t' !! id = Some r' /\ finished_ r' || cancelled_ r' = true.
Proof.
  simpl. intros HI He. destruct (requests t !! id) as [r|] eqn:Hid; [|done].
  unfold waitForFinished, get_request. rewrite Hid; simpl.
  destruct (finished_ r) eqn:Hf; simpl; [exists t; split_and!; [done|done|]; exists r; by rewrite Hf|].
  destruct (cancelled_ r) eqn:Hca; simpl; [exists t; split_and!; [done|done|]; exists r; by rewrite Hca, orb_true_r|].
  assert (exists c, cancel_func_ r = Some c) as [c Hc].
  { destruct (inv_req _ _ _ HI _ _ Hid); eauto; congruence. }
  destruct (cancel_answer _ _ _ _ HI Hid Hc Hf Hca) as (Ha & Hnf & Hd).
  pose proof (cancel_hold _ _ c _ HI Hid) as HH. rewrite Hc in HH. specialize (HH eq_refl).
  unfold drop_fakes in HH. simpl in HH. rewrite filter_no_fake in HH by done.
  pose proof (call_cancel_false c (limiter_ t)) as Hsame.
  unfold call_cancel_func. rewrite Hc.
  destruct (call_cancel c (limiter_ t)) as [l' b] eqn:Ecall; simpl in *. subst b.
  change (mkThumbnailer l' (requests t) (posted t) (next_id t)) with (set_limiter l' t) in HH.
  destruct (watcher_ r) eqn:Hw; simpl.
  - rewrite Hid; simpl. rewrite Hw.
    destruct (finish_held id r rep (set_limiter l' t) HH Hid Hw Hf) as (t' & r' & -> & ? & ? & Hf');
      [by rewrite Hca|]. eexists; split_and!; eauto. eexists; split; [done|]. by rewrite Hf'.
  - unfold send_request, get_request; simpl. rewrite Hid; simpl. rewrite lookup_insert_eq; simpl.
    pose proof (inv_bump _ _ id _ HH) as HB.
    pose proof (keep_held _ _ r (with_watcher r) _ HB Hid eq_refl) as HK.
    rewrite Hw in HK. simpl in HK.
    destruct (finish_held id (with_watcher r) rep _ HK) as (t' & r' & -> & ? & ? & Hf');
      [apply lookup_insert_eq|done|done|simpl; by rewrite Hca|].
    eexists; split_and!; eauto. eexists; split; [done|]. by rewrite Hf'.
Qed.

Lemma delete_held k id r t :
  Inv k (Some id) t -> requests t !! id = Some r ->
  Inv (k + Z.b2z (watcher_ r)) None
    (mkThumbnailer (limiter_ t) (delete id (requests t)) (posted t) (next_id t)).
Proof.
  intros HI Hid. destruct (held_not_queued _ _ _ HI) as [Hs Hf].
  apply (inv_frame k _ (Some id) None id t); try done.
  - apply frame_requests; try done. intros i Hne. by apply lookup_delete_ne.
  - constructor; simpl; rewrite ?lookup_delete_eq; [done| |done].
    intros cell Hin. by apply Hs in Hin.
  - intros i Hne. split; [|done]. intros [= ->]. done.
  - apply (inv_wf _ _ _ HI).
  - pose proof (inv_running _ _ _ HI). unfold in_flight, pumps in *; simpl.
    rewrite (map_count_delete _ _ _ _ Hid) in *. lia.
  - apply (inv_fake_once _ _ _ HI).
Qed.

Lemma destroy_inv id t :
  Inv 0 None t -> enabled (Img:=Img) (Destroy id) t = true ->
  exists t', exec fromData (Destroy id) t = Ok t' /\ Inv 0 None t'.
Proof.
  simpl. intros HI He. destruct (requests t !! id) as [r|] eqn:Hid; [|done].
  unfold destroy, get_request. rewrite Hid; simpl.
  pose proof (cancel_hold id r _ t HI Hid eq_refl) as HH.
  pose proof (delete_held _ _ r _ HH Hid) as HD. unfold drop_fakes in HD. simpl in HD.
  assert (Hans : forall c, watcher_ r = true -> cancel_func_ r = Some c ->
            (call_cancel c (limiter_ t)).2 = false).
  { intros c Hw Hc. destruct (inv_req _ _ _ HI _ _ Hid) as [|? | c' ? ? ? Hc' Hd|]; try congruence.
    simplify_eq. destruct c as [|cell]; simpl in *; [done|].
    destruct (cell_alive cell _) eqn:E; [|done]. by apply alive_ids in E; destruct Hd. }
  destruct (cancel_func_ r) as [c|] eqn:Hc; simpl in *.
  - unfold call_cancel_func. rewrite Hc. specialize (Hans c).
    destruct (call_cancel c (limiter_ t)) as [l' b] eqn:Ecall; simpl in *.
    eexists; split; [done|]. destruct (watcher_ r) eqn:Hw; simpl in *.
    + rewrite Hans by done. simpl. rewrite List.filter_app. simpl.
      apply (inv_post_pump 0) in HD. exact HD.
    + exact HD.
  - assert (watcher_ r = false) as Hw.
    { destruct (inv_req _ _ _ HI _ _ Hid); congruence. }
    rewrite Hw in *. simpl. eexists; split; [done|]. exact HD.
Qed.

(** A new request whose queue slot, if any, is a fresh cell. *)
Lemma inv_new r l' t :
  Inv 0 None t ->
  (next_cell (limiter_ t) <= next_cell l')%nat ->
  (forall cell id, mkSlot cell (Some id) ∈ list_ l' <->
     mkSlot cell (Some id) ∈ list_ (limiter_ t) \/
     (id = next_id t /\ cancel_func_ r = Some (cancel_cell cell) /\
      mkSlot cell (Some id) ∈ list_ l')) ->
  (forall x, x ∈ slot_id <$> list_ l' ->
     x ∈ slot_id <$> list_ (limiter_ t) \/ (next_cell (limiter_ t) <= x)%nat) ->
  (forall cell, cancel_func_ r = Some (cancel_cell cell) ->
     cell = next_cell (limiter_ t) /\ (cell < next_cell l')%nat /\
     watcher_ r = false /\ finished_ r = false /\ cancelled_ r = false) ->
  wf l' -> running_ l' = running_ (limiter_ t) + Z.b2z (watcher_ r) ->
  let t' := mkThumbnailer l' (<[next_id t := r]> (requests t)) (posted t) (S (next_id t)) in
  req_state t' (next_id t) r -> Inv 0 None t'.
Proof.
  intros HI Hn Hslot Hlive Hcell Hwf Hrun t' Hst.
  assert (Hnone : requests t !! next_id t = None).
  { destruct (requests t !! next_id t) eqn:E; [|done]. apply (inv_id _ _ _ HI) in E. lia. }
  apply (inv_frame 0 0 None None (next_id t) t); try done.
  - constructor; simpl; try done; try lia.
    + intros id Hne. by apply lookup_insert_ne.
    + intros cell id Hne. rewrite Hslot. naive_solver.
  - constructor; simpl; rewrite ?lookup_insert_eq.
    + intros r0 [= <-]. split_and!; [lia|done|]. intros cell Hc.
      destruct (Hcell _ Hc) as (-> & ? & _). split; [done|]. intros id r' Hne E Hc'.
      apply (inv_cell_lt _ _ _ HI _ _ _ E) in Hc'. lia.
    + intros cell [Hin|(_ & Hc & _)]%Hslot; (split; [done|]).
      * apply (inv_slot _ _ _ HI) in Hin as (_ & r' & E & _). congruence.
      * exists r. naive_solver.
    + intros Hin. apply (inv_fake _ _ _ HI) in Hin as (_ & r' & E & _). congruence.
  - pose proof (inv_running _ _ _ HI). unfold in_flight, pumps in *; simpl in *.
    rewrite map_count_insert by done. lia.
  - apply (inv_fake_once _ _ _ HI).
Qed.

Lemma create_inv details size_valid t :
  Inv 0 None t -> exists t', exec fromData (Create details size_valid) t = Ok t' /\ Inv 0 None t'.
Proof.
  intros HI. simpl. unfold createRequest. destruct size_valid; simpl.
  - unfold schedule. destruct (running_ (limiter_ t) <? concurrency_ (limiter_ t)) eqn:E; simpl.
    + unfold send_request, get_request; simpl. rewrite lookup_insert_eq; simpl.
      rewrite lookup_insert_eq; simpl. eexists; split; [done|].
      unfold set_request; simpl. rewrite !insert_insert_eq.
      apply (inv_new _ _ t HI); simpl; try done; try lia.
      * naive_solver.
      * naive_solver.
      * by apply (schedule_now_wf (next_id t)), (inv_wf _ _ _ HI).
      * by apply (rs_sent _ _ _ cancel_nothing).
    + unfold get_request; simpl. rewrite lookup_insert_eq; simpl. eexists; split; [done|].
      unfold set_request; simpl. rewrite insert_insert_eq.
      apply (inv_new _ _ t HI); simpl; try done; try lia.
      * intros cell id. rewrite elem_of_app, list_elem_of_singleton. naive_solver.
      * intros x. rewrite fmap_app, elem_of_app. simpl. rewrite list_elem_of_singleton. naive_solver lia.
      * naive_solver lia.
      * pose proof (schedule_wf (next_id t) _ (inv_wf _ _ _ HI)) as Hw.
        unfold schedule in Hw. by rewrite E in Hw.
      * apply (rs_waiting _ _ _ (next_cell (limiter_ t))); try done. simpl. set_solver.
  - eexists; split; [done|]. apply (inv_new _ _ t HI); simpl; try done; try lia.
    + naive_solver.
    + naive_solver.
    + apply (inv_wf _ _ _ HI).
    + by apply rs_finished.
Qed.

Lemma exec_inv e t :
  Inv 0 None t -> enabled e t = true ->
  exists t', exec fromData e t = Ok t' /\ Inv 0 None t'.
Proof.
  intros HI He. destruct e as [d v|id rep| |id|id rep|id].
  - by apply create_inv.
  - by apply reply_inv.
  - by apply deliver_inv.
  - by apply cancel_inv.
  - destruct (wait_inv _ rep _ HI He) as (t' & ? & ? & _). eauto.
  - by apply destroy_inv.
Qed.

Lemma init_inv dflt config t : init dflt config = Ok t -> Inv 0 None t.
Proof.
  unfold init. intros H. apply outcome_bind_Ok in H as (l & Hl & [= <-]).
  unfold RateLimiter.init in Hl. apply outcome_bind_Ok in Hl as (u & Ha & [= <-]).
  apply assert_Ok in Ha. bsimpl. constructor; simpl; try done.
  - unfold wf; simpl. split_and!; auto; try lia; constructor.
  - intros cell id Hin. by apply elem_of_nil in Hin.
  - intros id Hin. by apply elem_of_nil in Hin.
  - constructor.
Qed.

Lemma reachable_inv dflt config t0 t :
  init dflt config = Ok t0 -> rtc (step fromData) t0 t -> Inv 0 None t.
Proof.
  intros H0 Hr. apply init_inv in H0. revert H0.
  induction Hr as [|a b c (e & He & Hx) _ IH]; [done|]. intros HI. apply IH.
  destruct (exec_inv e a HI He) as (t' & E & HI'). congruence.
Qed.

Lemma settled_finished t id r :
  Inv 0 None t -> in_flight t = 0 -> posted t = [] -> requests t !! id = Some r -> finished_ r = true.
Proof.
  intros HI Hi Hp Hid.
  destruct (inv_req _ _ _ HI _ _ Hid ltac:(done)) as [?|cell _ _ _ _ Hin|c _ Hw _ _ _|c _ _ _ _ _ Hin];
    [done| | |].
  - pose proof (inv_running _ _ _ HI) as Hrun. unfold pumps in Hrun. rewrite Hi, Hp in Hrun.
    simpl in Hrun. destruct (inv_wf _ _ _ HI) as (? & ? & [Hl|?] & _); [|lia].
    rewrite Hl in Hin. by apply elem_of_nil in Hin.
  - pose proof (in_flight_pos _ _ _ Hid Hw). lia.
  - rewrite Hp in Hin. by apply elem_of_nil in Hin.
Qed.

(** ** Properties *)

(** C12. The client library never fails: in every state an application can
    bring it to, each enabled event (a request is created, cancelled, waited
    for or destroyed, a reply arrives, a queued call is delivered) completes
    normally: no assertion fails, no destroyed request is used, no empty
    cancel function is called and no null watcher is waited on. *)
Theorem client_never_crashes dflt config t0 t e :
  init dflt config = Ok t0 -> rtc (step fromData) t0 t -> enabled e t = true ->
  exists t', exec fromData e t = Ok t'.
Proof.
  intros H0 Hr He. pose proof (reachable_inv _ _ _ _ H0 Hr) as HI.
  destruct (exec_inv e t HI He) as (t' & ? & _). eauto.
Qed.

(** The limiter is pumped exactly once per call sent: in every reachable
    state its [running_] counter equals the number of calls on the wire plus
    the number of pump calls still queued, so no slot is lost or freed
    twice, whatever is cancelled, destroyed or waited for. *)
Theorem client_pump_once dflt config t0 t :
  init dflt config = Ok t0 -> rtc (step fromData) t0 t ->
  running_ (limiter_ t) = in_flight t + pumps t.
Proof.
  intros H0 Hr. pose proof (inv_running _ _ _ (reachable_inv _ _ _ _ H0 Hr)). lia.
Qed.

(** No request is stuck: in a reachable state with no call on the wire
    and no queued call, every live request has finished. *)
Theorem client_no_stuck_request dflt config t0 t id r :
  init dflt config = Ok t0 -> rtc (step fromData) t0 t ->
  in_flight t = 0 -> posted t = [] -> requests t !! id = Some r ->
  finished_ r = true.
Proof.
  intros H0 Hr. apply settled_finished. by eapply reachable_inv.
Qed.

(** [waitForFinished()] on a live request in a reachable state always
    returns (the blocking call always has a watcher to wait on), and the
    request is then finished or had been cancelled before. *)
Theorem client_wait_finishes dflt config t0 t id rep :
  init dflt config = Ok t0 -> rtc (step fromData) t0 t -> is_Some (requests t !! id) ->
  exists t' r', waitForFinished fromData id rep t = Ok t' /\ requests t' !! id = Some r' /\
    finished_ r' || cancelled_ r' = true.
Proof.
  intros H0 Hr [r Hid]. pose proof (reachable_inv _ _ _ _ H0 Hr) as HI.
  destruct (wait_inv id rep t HI) as (t' & ? & _ & r' & ? & ?); [simpl; by rewrite Hid|].
  eauto 10.
Qed.
End Inv.

(** ** Witnesses *)

Definition replay {Img} (fromData : string -> option Img) (es : list event)
    (t : outcome (@ThumbnailerImpl Img)) : outcome (@ThumbnailerImpl Img) :=
  fold_left (fun o e => t ← o; if enabled e t then exec fromData e t
                               else Crash (Undefined "disabled event")) es t.

Lemma replay_rtc {Img} (fromData : string -> option Img) es t0 t :
  replay fromData es (Ok t0) = Ok t -> rtc (step fromData) t0 t.
Proof.
  revert t0. induction es as [|e es IH]; intros t0 H; [injection H as ->; apply rtc_refl|].
  simpl in H. destruct (enabled e t0) eqn:He.
  - destruct (exec fromData e t0) as [t1|x|c] eqn:Hx.
    + apply (rtc_l _ _ t1); [by exists e|]. by apply IH.
    + exfalso. clear -H. by induction es.
    + exfalso. clear -H. by induction es.
  - exfalso. clear -H. by induction es.
Qed.

(** A decoder: an image is its bytes, and no bytes are no image. *)
Definition decode (ba : string) : option string := if String.eqb ba "" then None else Some ba.

Definition idle : @ThumbnailerImpl string := mkThumbnailer (mkLimiter 1 0 [] 0) ∅ [] 0.

(** Three requests with room for one: the second waits in the queue and is
    cancelled, the third is sent by [waitForFinished], the first is destroyed
    before its reply. *)
Definition scenario : list event :=
  [Create "a" true; Create "b" true; Create "c" true; Cancel 1; Deliver;
   Wait 2 (ReplyValue "img"); Destroy 0].

Definition busy : @ThumbnailerImpl string :=
  match replay decode scenario (Ok idle) with Ok t => t | _ => idle end.

Lemma busy_reachable : rtc (step decode) idle busy.
Proof. apply (replay_rtc decode scenario). vm_compute. reflexivity. Qed.

Lemma client_never_crashes_witness : exists t', exec decode Deliver busy = Ok t'.
Proof.
  apply (client_never_crashes decode 10 (Some 1) idle busy Deliver);
    [reflexivity|exact busy_reachable|vm_compute; reflexivity].
Defined.

Lemma client_pump_once_witness :
  running_ (limiter_ busy) = 1 /\ running_ (limiter_ busy) = in_flight busy + pumps busy.
Proof.
  split; [vm_compute; reflexivity|].
  apply (client_pump_once decode 10 (Some 1) idle busy); [reflexivity|exact busy_reachable].
Defined.

Definition settled : @ThumbnailerImpl string :=
  match replay decode (scenario ++ [Deliver]) (Ok idle) with Ok t => t | _ => idle end.

Definition settled_request : RequestImpl :=
  match requests settled !! 2%nat with
  | Some r => r
  | None => mkRequest "" false None "" false false false false None
  end.

Lemma client_no_stuck_request_witness :
  requests settled !! 2%nat = Some settled_request /\ finished_ settled_request = true.
Proof.
  split; [vm_compute; reflexivity|].
  apply (client_no_stuck_request decode 10 (Some 1) idle settled 2 settled_request);
    [reflexivity|apply (replay_rtc decode (scenario ++ [Deliver])); vm_compute; reflexivity
    |vm_compute; reflexivity..].
Defined.

Lemma client_wait_finishes_witness :
  exists t' r', waitForFinished decode 2 (ReplyError "x") busy = Ok t' /\
    requests t' !! 2%nat = Some r' /\ finished_ r' || cancelled_ r' = true.
Proof.
  apply (client_wait_finishes decode 10 (Some 1) idle busy);
    [reflexivity|exact busy_reachable|vm_compute; eauto].
Defined.
End Client.
