(* ===== verification/ClientApi.v ===== *)
(** * The public classes of the client library
      (libthumbnailer-qt.cpp, unity/thumbnailer/qt/thumbnailer-qt.h)

    [qt::Thumbnailer] and [qt::Request] on top of Client.v: the three ways to make
    a request, the [finished] signal and what a program can ask a request.  The
    signal of a request refused for its size is queued; any other is emitted by
    the event that finishes the request. *)

From S2P Require Import Prelude CxxLib QtSize RateLimiter Client.
Import Cxx QtSize Client.

Module ClientApi.

(** What is asked for, as the lambda [job] keeps it. *)
Inductive query : Type :=
  | AlbumArt (artist album : string)
  | ArtistArt (artist album : string)
  | LocalFile (filename : string).

Definition quoted (s : string) : string := String "034" EmptyString +:+ s +:+ String "034" EmptyString.

Definition size_text (s : QSize) : string := "(" +:+ to_string (width s) +:+ "," +:+ to_string (height s) +:+ ")".

(** The text of [details]. *)
Definition details (q : query) (requestedSize : QSize) : string :=
  match q with
  | AlbumArt artist album => "getAlbumArt: " +:+ size_text requestedSize +:+ " " +:+ quoted artist +:+ ", " +:+ quoted album
  | ArtistArt artist album => "getArtistArt: " +:+ size_text requestedSize +:+ " " +:+ quoted artist +:+ ", " +:+ quoted album
  | LocalFile filename => "getThumbnail: " +:+ size_text requestedSize +:+ " " +:+ filename
  end.

(** The call that goes to the service when the job runs. *)
Inductive bus_call : Type :=
  | GetAlbumArt (artist album : string) (size : QSize)
  | GetArtistArt (artist album : string) (size : QSize)
  | GetThumbnail (filename : string) (size : QSize).

(** [canonical]: [boost::filesystem::canonical], at the time of the call. *)
Definition run_job (canonical : string -> outcome string) (q : query) (requestedSize : QSize) : outcome bus_call :=
  match q with
  | AlbumArt artist album => Ok (GetAlbumArt artist album requestedSize)
  | ArtistArt artist album => Ok (GetArtistArt artist album requestedSize)
  | LocalFile filename =>
      canonical_name ← try_catch (canonical filename) (fun e => if is_std e then Ok filename else Throw e);
      Ok (GetThumbnail canonical_name requestedSize)
  end.

Section Defs.
Context {Img : Type} (fromData : string -> option Img).
Notation RequestImpl := (@RequestImpl Img).
Notation ThumbnailerImpl := (@ThumbnailerImpl Img).

(** The library; the queries of the requests; the requests with a queued
    [finished]; and those whose [finished] was emitted, in order. *)
Record Library : Type := mkLibrary {
  impl : ThumbnailerImpl;
  jobs : gmap nat (query * QSize);
  signals : list nat;
  emitted : list nat
}.

Definition make (max_backlog_default : Z) (config : option Z) : outcome Library :=
  t ← Client.init max_backlog_default config;
  Ok (mkLibrary t ∅ [] []).

(** [createRequest], with the queued signal of a request that has failed already. *)
Definition createRequest (q : query) (requested_size : QSize) (lib : Library) : outcome (Library * nat) :=
  let request := next_id (impl lib) in
  t ← Client.createRequest (details q requested_size) (isValid requested_size) (impl lib);
  r ← get_request request t;
  Ok (mkLibrary t (<[request := (q, requested_size)]> (jobs lib))
        (if finished_ r && negb (is_valid_ r) then signals lib ++ [request] else signals lib) (emitted lib), request).

Definition getAlbumArt (artist album : string) (requestedSize : QSize) (lib : Library) : outcome (Library * nat) :=
  createRequest (AlbumArt artist album) requestedSize lib.
Definition getArtistArt (artist album : string) (requestedSize : QSize) (lib : Library) : outcome (Library * nat) :=
  createRequest (ArtistArt artist album) requestedSize lib.
Definition getThumbnail (filename : string) (requestedSize : QSize) (lib : Library) : outcome (Library * nat) :=
  createRequest (LocalFile filename) requestedSize lib.

(** [Request]'s accessors. *)
Definition isFinished (r : RequestImpl) : bool := finished_ r.
Definition isValid (r : RequestImpl) : bool := is_valid_ r.
Definition isCancelled (r : RequestImpl) : bool := cancelled_ r.
Definition errorMessage (r : RequestImpl) : string := error_message_ r.
Definition image (r : RequestImpl) : option Img := image_ r.

Definition is_finished (id : nat) (t : ThumbnailerImpl) : bool :=
  match requests t !! id with Some r => finished_ r | None => false end.

(** The request an event works on. *)
Definition subject (e : event) (t : ThumbnailerImpl) : option nat :=
  match e with
  | Create _ _ => Some (next_id t)
  | Reply id _ | Cancel id | Wait id _ | Destroy id => Some id
  | Deliver => match posted t with FakeFinished id :: _ => Some id | _ => None end
  end.

(** [Q_EMIT public_request_->finished()] of the requests the event finished. *)
Definition now_finished (e : event) (t t' : ThumbnailerImpl) : list nat :=
  match subject e t with
  | Some id => if negb (is_finished id t) && is_finished id t' then [id] else []
  | None => []
  end.

(** An event of Client.v, with the signals it emits. *)
Definition client_event (e : event) (lib : Library) : outcome (Library * list nat) :=
  t ← Client.exec fromData e (impl lib);
  let now := now_finished e (impl lib) t in
  Ok (mkLibrary t (jobs lib) (signals lib) (emitted lib ++ now), now).

Definition waitForFinished (id : nat) (rep : reply) (lib : Library) : outcome (Library * list nat) := client_event (Wait id rep) lib.
Definition cancel (id : nat) (lib : Library) : outcome (Library * list nat) := client_event (Cancel id) lib.

(** The signals queued for a request go with it. *)
Definition destroy (id : nat) (lib : Library) : outcome (Library * list nat) :=
  r ← client_event (Destroy id) lib;
  let '(lib, now) := r in
  Ok (mkLibrary (impl lib) (jobs lib) (List.filter (fun i => negb (Nat.eqb i id)) (signals lib)) (emitted lib), now).

Inductive api_event : Type :=
  | Get (q : query) (requestedSize : QSize)
  | BusReply (id : nat) (rep : reply)
  | DeliverCall
  | DeliverSignal                       (* the oldest queued [finished] *)
  | CancelRequest (id : nat)
  | WaitRequest (id : nat) (rep : reply)
  | DestroyRequest (id : nat).

Definition api_enabled (e : api_event) (lib : Library) : bool :=
  match e with
  | Get _ _ => true
  | BusReply id rep => enabled (Reply id rep) (impl lib)
  | DeliverCall => enabled Deliver (impl lib)
  | DeliverSignal => match signals lib with [] => false | _ => true end
  | CancelRequest id => enabled (Cancel id) (impl lib)
  | WaitRequest id rep => enabled (Wait id rep) (impl lib)
  | DestroyRequest id => enabled (Destroy id) (impl lib)
  end.

Definition api_exec (e : api_event) (lib : Library) : outcome (Library * list nat) :=
  match e with
  | Get q requestedSize =>
      r ← createRequest q requestedSize lib;
      Ok (fst r, [])
  | BusReply id rep => client_event (Reply id rep) lib
  | DeliverCall => client_event Deliver lib
  | DeliverSignal =>
      match signals lib with
      | [] => Ok (lib, [])
      | id :: rest => Ok (mkLibrary (impl lib) (jobs lib) rest (emitted lib ++ [id]), [id])
      end
  | CancelRequest id => cancel id lib
  | WaitRequest id rep => waitForFinished id rep lib
  | DestroyRequest id => destroy id lib
  end.

Definition api_step (lib lib' : Library) : Prop :=
  exists e now, api_enabled e lib = true /\ api_exec e lib = Ok (lib', now).

(** ** Lemmas *)

Implicit Types (t : ThumbnailerImpl) (r : RequestImpl) (lib : Library).

(** What a program can see of a request. *)
Record Status : Type := mkStatus {
  s_finished : bool; s_valid : bool; s_cancelled : bool; s_error : string; s_image : option Img
}.

Definition status r : Status := mkStatus (isFinished r) (isValid r) (isCancelled r) (errorMessage r) (image r).
Definition status_of (id : nat) t : option Status := status <$> requests t !! id.

(** What a request shows of a reply. *)
Definition shown (rep : reply) : Status :=
  match rep with
  | ReplyValue ba => mkStatus true true false "" (fromData ba)
  | ReplyError msg =>
      mkStatus true false false ("Thumbnailer: RequestImpl::dbusCallFinished(): D-Bus error: " +:+ msg) None
  end.

Definition fresh : Status := mkStatus false false false "" None.
Definition refused (details : string) : Status := mkStatus true false false (details +:+ ": invalid QSize") None.
Definition gone : Status := mkStatus true false true "Request cancelled" None.

(** What an event brings to the request it works on. *)
Inductive news : Type := NoNews | Cancels | Told (rep : reply).

Definition news_of (e : event) : news :=
  match e with Reply _ rep | Wait _ rep => Told rep | Cancel _ => Cancels | _ => NoNews end.

(** What an event can do to that request. *)
Inductive change (w : news) : option Status -> option Status -> Prop :=
  | ch_same s : change w s s
  | ch_new : change w None (Some fresh)
  | ch_refused d : change w None (Some (refused d))
  | ch_cancel s : w = Cancels -> s_finished s = false ->
      change w (Some s) (Some (mkStatus false (s_valid s) true (s_error s) (s_image s)))
  | ch_gone s : s_finished s = false -> s_cancelled s = true -> change w (Some s) (Some gone)
  | ch_told s rep : w = Told rep -> s_finished s = false -> s_cancelled s = false -> change w (Some s) (Some (shown rep)).

Lemma status_update id j r t : requests t !! j = Some r ->
  forall r', status r' = status r -> status_of id (set_request j r' t) = status_of id t.
Proof.
  intros Hj r' Hs. unfold status_of, set_request; simpl. destruct (decide (j = id)) as [->|Hne].
  - by rewrite lookup_insert_eq, Hj; simpl; rewrite Hs.
  - by rewrite lookup_insert_ne.
Qed.

Lemma run_jobs_status started : forall t t', run_jobs started t = Ok t' ->
  (forall id, status_of id t' = status_of id t) /\ next_id t' = next_id t.
Proof.
  induction started as [|j started IH]; simpl; intros t t' H; [by injection H as <-|].
  unfold send_request, get_request in H. destruct (requests t !! j) as [r|] eqn:Ej; [|done]. simpl in H.
  destruct (IH _ _ H) as [H1 H2]. split; [|done]. intros id. rewrite H1. by eapply status_update.
Qed.

Lemma pump_status t t' : pump_limiter t = Ok t' -> (forall id, status_of id t' = status_of id t) /\ next_id t' = next_id t.
Proof.
  unfold pump_limiter. destruct (RateLimiter.done (limiter_ t)) as [[l started]| |]; simpl; [|done|done]. intros H. by apply run_jobs_status in H.
Qed.

Lemma status_Some id t s : status_of id t = Some s -> exists r, requests t !! id = Some r /\ status r = s.
Proof. unfold status_of. rewrite fmap_Some. naive_solver. Qed.

(** The status after [dbusCallFinished()]. *)
Lemma finished_change id rep t t' : dbusCallFinished fromData id rep t = Ok t' ->
  is_finished id t = false /\ change (Told rep) (status_of id t) (status_of id t') /\ is_finished id t' = true /\
  next_id t' = next_id t /\ forall j, j <> id -> status_of j t' = status_of j t.
Proof.
  unfold dbusCallFinished, get_request, is_finished. destruct (requests t !! id) as [r|] eqn:Hid; simpl; [|discriminate].
  destruct (finished_ r) eqn:Hf; [done|]. simpl. intros H. apply outcome_bind_Ok in H as (t1 & H1 & H).
  assert (Hs : (forall j, status_of j t1 = status_of j t) /\ next_id t1 = next_id t).
  { destruct (negb (cancelled_ r) || negb (cancelled_while_waiting_ r)); [by apply pump_status|by injection H1 as <-]. }
  destruct Hs as [Hs Hn]. destruct (requests t1 !! id) as [r1|] eqn:Hid1; [|done]. simpl in H.
  assert (Hst : status r1 = status r).
  { specialize (Hs id). unfold status_of in Hs. rewrite Hid, Hid1 in Hs. by apply (inj Some) in Hs. }
  assert (Hset : forall r', finished_ r' = true -> change (Told rep) (Some (status r)) (Some (status r')) -> t' = set_request id r' t1 ->
    false = false /\ change (Told rep) (status_of id t) (status_of id t') /\
    match requests t' !! id with Some r => finished_ r | None => false end = true /\
    next_id t' = next_id t /\ forall j, j <> id -> status_of j t' = status_of j t).
  { intros r' Hf' Hc ->. unfold status_of, set_request; simpl. rewrite lookup_insert_eq, Hid. split_and!; try done.
    intros j Hne. rewrite lookup_insert_ne by done. by apply Hs. }
  pose proof (f_equal s_cancelled Hst) as Hca. change (cancelled_ r1 = cancelled_ r) in Hca. rewrite Hca in H.
  destruct (cancelled_ r) eqn:Ec.
  { injection H as <-. eapply Hset; cycle 2; [reflexivity|done|].
    replace (status (finishWithError "Request cancelled" r1)) with gone; [by apply (ch_gone _ (status r))|].
    unfold status, gone. simpl. unfold isCancelled. simpl. by rewrite Hca. }
  destruct (watcher_ r1); [|done]. simpl in H.
  assert (Hshown : forall r', status r' = shown rep -> change (Told rep) (Some (status r)) (Some (status r'))).
  { intros r' ->. by apply (ch_told _ (status r)). }
  destruct rep as [ba|msg]; injection H as <-; (eapply Hset; cycle 2; [reflexivity|done|]); apply Hshown; unfold status; simpl;
    unfold isCancelled; simpl; by rewrite Hca.
Qed.

(** A request that was cancelled makes nothing of a reply. *)
Lemma change_fake w rep s o : s_cancelled s = true -> change (Told rep) (Some s) o -> change w (Some s) o.
Proof.
  intros Hc H. inversion H as [| | |? Hx|? Hf Hca|? ? Hx Hf Hca]; subst; try done; [apply ch_same|by apply ch_gone|congruence].
Qed.

Lemma same_finished id t t' : status_of id t' = status_of id t -> is_finished id t' = is_finished id t.
Proof.
  unfold status_of, is_finished. destruct (requests t !! id), (requests t' !! id); try done. intros H%(inj Some). exact (f_equal s_finished H).
Qed.

(** *** One event *)

(** The statuses before and after, and the identities used so far. *)
Definition changes (w : news) (who : option nat) t t' : Prop :=
  (forall id, who = Some id -> change w (status_of id t) (status_of id t')) /\
  (forall id, who <> Some id -> status_of id t' = status_of id t).

Lemma changes_set w id r t : change w (status_of id t) (Some (status r)) -> changes w (Some id) t (set_request id r t).
Proof.
  intros Hc. split.
  - intros i [= <-]. unfold status_of at 2. simpl. by rewrite lookup_insert_eq.
  - intros i Hne. unfold status_of. simpl. rewrite lookup_insert_ne by congruence. done.
Qed.

Lemma changes_finished id rep t t' : dbusCallFinished fromData id rep t = Ok t' -> changes (Told rep) (Some id) t t' /\ next_id t' = next_id t.
Proof.
  intros H. destruct (finished_change _ _ _ _ H) as (_ & Hc & _ & Hn & Ho). split; [|done]. split.
  - by intros i [= <-].
  - intros i Hne. apply Ho. congruence.
Qed.

(** [t1] differs from [t] in the limiter only. *)
Lemma changes_via w who t t1 t' : (forall id, status_of id t1 = status_of id t) -> changes w who t1 t' -> changes w who t t'.
Proof. intros Hs [H1 H2]. split; intros i Hi; rewrite <- Hs; auto. Qed.

Lemma create_changes d v t t' : requests t !! next_id t = None -> Client.createRequest d v t = Ok t' ->
  changes NoNews (Some (next_id t)) t t' /\ next_id t' = S (next_id t) /\
  status_of (next_id t) t' = Some (if v then fresh else refused d).
Proof.
  intros Hnone. assert (Hst : status_of (next_id t) t = None) by (unfold status_of; by rewrite Hnone).
  unfold Client.createRequest. destruct v; simpl.
  - destruct (RateLimiter.schedule (next_id t) (limiter_ t)) as [[l c] started]. simpl. intros H.
    apply outcome_bind_Ok in H as (t2 & H2 & H). destruct (run_jobs_status _ _ _ H2) as [Hs Hn].
    unfold get_request in H. destruct (requests t2 !! next_id t) as [r|] eqn:Hr; [|done]. simpl in H. injection H as <-.
    assert (Hx : forall j, status_of j (set_request (next_id t) (with_cancel_func c r) t2) = status_of j t2).
    { intros j. by eapply status_update. }
    assert (Hnew : status_of (next_id t) t2 = Some fresh).
    { rewrite Hs. unfold status_of. simpl. by rewrite lookup_insert_eq. }
    split_and!; [|exact Hn|].
    + split; intros i Hi; rewrite Hx.
      * injection Hi as <-. rewrite Hst, Hnew. apply ch_new.
      * rewrite Hs. unfold status_of. simpl. rewrite lookup_insert_ne by congruence. done.
    + by rewrite Hx.
  - intros [= <-]. split_and!; [|done|].
    + split; intros i Hi.
      * injection Hi as <-. rewrite Hst. unfold status_of. simpl. rewrite lookup_insert_eq. apply (ch_refused _ d).
      * unfold status_of. simpl. rewrite lookup_insert_ne by congruence. done.
    + unfold status_of. simpl. by rewrite lookup_insert_eq.
Qed.

Lemma cancel_changes id t t' : Client.cancel id t = Ok t' ->
  changes Cancels (Some id) t t' /\ next_id t' = next_id t /\ is_finished id t' = is_finished id t.
Proof.
  unfold Client.cancel, get_request, is_finished. destruct (requests t !! id) as [r|] eqn:Hid; simpl; [|discriminate].
  destruct (finished_ r) eqn:Hf; [intros [= <-]|]; [|destruct (cancelled_ r); [intros [= <-]|]]; simpl; rewrite ?Hid, ?Hf;
    try (split_and!; [split; [intros; apply ch_same|done]|done..]).
  unfold call_cancel_func. destruct (cancel_func_ r) as [c|]; [|done].
  destruct (RateLimiter.call_cancel c (limiter_ t)) as [l b]. simpl. set (r' := mkRequest _ _ _ _ _ _ _ _ _). intros H.
  assert (Hc : changes Cancels (Some id) t (set_request id r' (set_limiter l t))).
  { split; intros i Hi.
    - injection Hi as <-. unfold status_of. simpl. rewrite Hid, lookup_insert_eq. by apply (ch_cancel _ (status r)).
    - unfold status_of. simpl. rewrite lookup_insert_ne by congruence. done. }
  assert (Ht : changes Cancels (Some id) t t' /\ next_id t' = next_id t /\ requests t' !! id = Some r').
  { destruct b; injection H as <-; (split_and!; [exact Hc|done|apply lookup_insert_eq]). }
  destruct Ht as (H1 & H2 & H3). rewrite H3. done.
Qed.

Lemma wait_changes id rep t t' : Client.waitForFinished fromData id rep t = Ok t' ->
  changes (Told rep) (Some id) t t' /\ next_id t' = next_id t.
Proof.
  unfold Client.waitForFinished, get_request. destruct (requests t !! id) as [r|] eqn:Hid; cbn [mbind outcome_bind]; [|discriminate].
  destruct (finished_ r || cancelled_ r); [intros [= <-]; split; [split; [intros; apply ch_same|done]|done]|].
  intros H. apply outcome_bind_Ok in H as ([t1 b] & H1 & H).
  assert (Hs1 : (forall j, status_of j t1 = status_of j t) /\ next_id t1 = next_id t).
  { unfold call_cancel_func in H1. destruct (cancel_func_ r) as [c|]; [|done].
    destruct (RateLimiter.call_cancel c (limiter_ t)) as [l b']. simpl in H1. injection H1 as <- <-. done. }
  destruct Hs1 as [Hs1 Hn1]. apply outcome_bind_Ok in H as (t2 & H2 & H).
  assert (Hs2 : (forall j, status_of j t2 = status_of j t) /\ next_id t2 = next_id t).
  { destruct b; [|injection H2 as <-; done]. apply outcome_bind_Ok in H2 as (u & _ & H2).
    change (run_jobs [id] (set_limiter (RateLimiter.schedule_now id (limiter_ t1)).1.1 t1) = Ok t2) in H2.
    destruct (run_jobs_status _ _ _ H2) as [Hs Hn]. simpl in Hn. split; [|congruence]. intros j. rewrite Hs. apply Hs1. }
  destruct Hs2 as [Hs2 Hn2]. apply outcome_bind_Ok in H as (r2 & _ & H). destruct (watcher_ r2); [|done].
  destruct (changes_finished _ _ _ _ H) as [Hc Hn]. split; [|congruence]. by eapply changes_via.
Qed.

Lemma destroy_changes id t t' : Client.destroy id t = Ok t' ->
  (forall j, j <> id -> status_of j t' = status_of j t) /\ next_id t' = next_id t /\ status_of id t' = None.
Proof.
  unfold Client.destroy, get_request. destruct (requests t !! id) as [r|] eqn:Hid; simpl; [|discriminate].
  intros H. apply outcome_bind_Ok in H as ([t1 b] & H1 & H).
  assert (Hs1 : requests t1 = requests t /\ next_id t1 = next_id t).
  { destruct (cancel_func_ r) as [c|] eqn:Ec; [|injection H1 as <- <-; done].
    unfold call_cancel_func in H1. rewrite Ec in H1. destruct (RateLimiter.call_cancel c (limiter_ t)) as [l b'].
    simpl in H1. injection H1 as <- <-. done. }
  destruct Hs1 as [Hr Hn].
  assert (Ht : requests t' = delete id (requests t) /\ next_id t' = next_id t).
  { rewrite <- Hr, <- Hn. destruct (watcher_ r && b); injection H as <-; done. }
  destruct Ht as [Ht Hn']. split_and!; [|done|unfold status_of; by rewrite Ht, lookup_delete_eq].
  intros j Hj. unfold status_of. by rewrite Ht, lookup_delete_ne by congruence.
Qed.

Definition creates (e : event) : bool := match e with Create _ _ => true | _ => false end.
Definition destroys (e : event) : bool := match e with Destroy _ => true | _ => false end.

(** What an event of Client.v does to the requests. *)
Lemma exec_changes e t t' : Inv 0 None t -> destroys e = false -> Client.exec fromData e t = Ok t' ->
  changes (news_of e) (subject e t) t t' /\ (next_id t <= next_id t')%nat.
Proof.
  intros HI Hd. destruct e as [d v|id rep| |id|id rep|id]; simpl.
  - assert (Hnone : requests t !! next_id t = None).
    { destruct (requests t !! next_id t) eqn:E; [|done]. apply (inv_id _ _ _ HI) in E. lia. }
    intros H. destruct (create_changes _ _ _ _ Hnone H) as (H1 & -> & _). auto with lia.
  - intros H. destruct (changes_finished _ _ _ _ H) as [H1 ->]. auto.
  - destruct (posted t) as [|[|id] rest] eqn:Hpost; [intros [= <-]; by split| |].
    + intros H. destruct (pump_status _ _ H) as [H1 H2]. simpl in H2. rewrite H2. split; [|done]. split; [done|]. intros; apply H1.
    + intros H. destruct (changes_finished _ _ _ _ H) as [H1 H2]. simpl in H2. rewrite H2. split; [|done].
      destruct (inv_fake _ _ _ HI id) as (_ & r & Hr & Hca & _); [rewrite Hpost; set_solver|].
      destruct H1 as [H1 H3]. split; [|exact H3]. intros i [= <-]. specialize (H1 id eq_refl).
      change (change (Told (ReplyError "")) (status_of id t) (status_of id t')) in H1.
      unfold status_of at 1 in H1. unfold status_of at 1. rewrite Hr in *. by eapply change_fake.
  - intros H. destruct (cancel_changes _ _ _ H) as (H1 & -> & _). auto.
  - intros H. destruct (wait_changes _ _ _ _ H) as [H1 ->]. auto.
  - done.
Qed.

(** *** What a request reports *)

(** No error if it is valid, an error and no image if it has failed, neither while
    it is in progress; and valid only if it was not cancelled before. *)
Definition reports (s : Status) : Prop :=
  if s_valid s then s_finished s = true /\ s_cancelled s = false /\ s_error s = ""
  else s_image s = None /\ (s_error s = "" <-> s_finished s = false).

Lemma change_reports w o o' : change w o o' -> (forall s, o = Some s -> reports s) -> forall s, o' = Some s -> reports s.
Proof.
  intros Hc Hr s' Hs'. destruct Hc as [s| |d|s _ Hf|s Hf Hc|s rep _ Hf Hc]; simplify_eq; try done; try by apply Hr.
  - split; [done|]. split; [|done]. intros H. exfalso. simpl in H. by destruct d.
  - specialize (Hr s eq_refl). unfold reports in *. simpl. rewrite Hf in Hr. destruct (s_valid s); naive_solver.
  - by destruct rep.
Qed.

Lemma change_finished w s s' : change w (Some s) (Some s') -> s_finished s = true -> s_finished s' = true.
Proof. intros Hc. by inversion Hc; subst; simpl; try congruence. Qed.

Lemma change_none w o' : change w None o' -> o' = None \/ exists s, o' = Some s /\ s_valid s = false /\ s_cancelled s = false.
Proof. intros Hc. inversion Hc; subst; [by left|right; by eexists..]. Qed.

(** How often [id] occurs. *)
Definition times (id : nat) (l : list nat) : nat := count_occ Nat.eq_dec l id.

Lemma times_one id j : times id [j] = if bool_decide (j = id) then 1%nat else 0%nat.
Proof. unfold times. simpl. destruct (Nat.eq_dec j id) as [->|Hne]; [by rewrite bool_decide_true|by rewrite bool_decide_false]. Qed.

Lemma finished_status id t : is_finished id t = match status_of id t with Some s => s_finished s | None => false end.
Proof. unfold is_finished, status_of. by destruct (requests t !! id). Qed.

(** The signals of an event, for a request alive before and after. *)
Lemma now_counts w e t t' id s s' : changes w (subject e t) t t' -> status_of id t = Some s -> status_of id t' = Some s' ->
  (times id (now_finished e t t') + Nat.b2n (s_finished s))%nat = Nat.b2n (s_finished s').
Proof.
  intros [H1 H2] Hs Hs'. unfold now_finished. destruct (subject e t) as [j|] eqn:Ej.
  - destruct (decide (j = id)) as [->|Hne].
    + specialize (H1 id eq_refl). rewrite Hs, Hs' in H1. pose proof (change_finished _ _ _ H1) as H3. rewrite !finished_status, Hs, Hs'.
      destruct (s_finished s), (s_finished s'); cbn [negb andb Nat.b2n]; rewrite ?times_one, ?bool_decide_true by done; try done; by specialize (H3 eq_refl).
    + assert (s' = s) as -> by (specialize (H2 id); rewrite Hs, Hs' in H2; apply (inj Some), H2; congruence).
      destruct (_ && _); [rewrite times_one, bool_decide_false by done|]; done.
  - assert (s' = s) as -> by (specialize (H2 id); rewrite Hs, Hs' in H2; apply (inj Some), H2; congruence). done.
Qed.

Lemma now_dead e t t' id : status_of id t' = None -> times id (now_finished e t t') = 0%nat.
Proof.
  intros Hs. unfold now_finished. destruct (subject e t) as [j|]; [|done].
  destruct (decide (j = id)) as [->|Hne]; [rewrite (finished_status id t'), Hs, andb_false_r; done|].
  destruct (_ && _); [rewrite times_one, bool_decide_false by done|]; done.
Qed.

(** An event that creates nothing works on a live request. *)
Lemma subject_alive e t id : Inv 0 None t -> enabled e t = true -> creates e = false -> subject e t = Some id ->
  is_Some (status_of id t).
Proof.
  intros HI He Hc Hs. unfold status_of. rewrite fmap_is_Some. destruct e as [d v|j rep| |j|j rep|j]; simpl in *; try done; simplify_eq;
    try (by destruct (requests t !! id)).
  destruct (posted t) as [|[|j] rest] eqn:Ep; simplify_eq.
  destruct (inv_fake _ _ _ HI id) as (_ & r & Hid & _); [rewrite Ep; set_solver|by exists r].
Qed.

(** *** The invariant of the library *)

Record ApiInv lib : Prop := mkApiInv {
  ai_impl : Inv 0 None (impl lib);
  ai_reports : forall id s, status_of id (impl lib) = Some s -> reports s;
  ai_alive : forall id s, status_of id (impl lib) = Some s ->
    (times id (emitted lib) + times id (signals lib))%nat = Nat.b2n (s_finished s);
  ai_dead : forall id, status_of id (impl lib) = None -> times id (signals lib) = 0%nat /\ (times id (emitted lib) <= 1)%nat;
  ai_new : forall id, (next_id (impl lib) <= id)%nat -> times id (emitted lib) = 0%nat
}.

Lemma unused_dead lib id : ApiInv lib -> (next_id (impl lib) <= id)%nat -> status_of id (impl lib) = None.
Proof.
  intros HA Hle. unfold status_of. destruct (requests (impl lib) !! id) eqn:E; [|done]. apply (inv_id _ _ _ (ai_impl _ HA)) in E. lia.
Qed.

Lemma change_alive w s o' : change w (Some s) o' -> is_Some o'.
Proof. intros Hc. inversion Hc; eauto. Qed.

(** Everything but the making and the deletion of a request. *)
Lemma event_inv e lib : ApiInv lib -> enabled e (impl lib) = true -> creates e = false -> destroys e = false ->
  exists t now, client_event e lib = Ok (mkLibrary t (jobs lib) (signals lib) (emitted lib ++ now), now) /\
    now = now_finished e (impl lib) t /\ changes (news_of e) (subject e (impl lib)) (impl lib) t /\
    ApiInv (mkLibrary t (jobs lib) (signals lib) (emitted lib ++ now)).
Proof.
  intros HA He Hc Hd. pose proof HA as [HI Hrep Halive Hdead Hnew].
  destruct (exec_inv fromData e (impl lib) HI He) as (t & Ht & HI'). destruct (exec_changes e _ _ HI Hd Ht) as [Hch Hle].
  exists t, (now_finished e (impl lib) t). unfold client_event. rewrite Ht. split_and!; try done.
  assert (Hdom : forall id, status_of id (impl lib) = None <-> status_of id t = None).
  { intros id. destruct (decide (subject e (impl lib) = Some id)) as [Hs|Hs]; [|destruct Hch as [_ H2]; by rewrite H2].
    destruct (subject_alive _ _ _ HI He Hc Hs) as [s Hs']. destruct Hch as [H1 _]. specialize (H1 id Hs). rewrite Hs' in *.
    destruct (change_alive _ _ _ H1) as [s2 ->]. done. }
  constructor; simpl; try done.
  - intros id s Hs. destruct (decide (subject e (impl lib) = Some id)) as [Hsub|Hsub].
    + eapply change_reports; [by apply Hch|apply Hrep|done].
    + apply (Hrep id). rewrite <- Hs. symmetry. by apply Hch.
  - intros id s' Hs'. destruct (status_of id (impl lib)) as [s|] eqn:Hs; [|by apply Hdom in Hs; congruence].
    specialize (Halive id s Hs). pose proof (now_counts _ _ _ _ _ _ _ Hch Hs Hs'). unfold times in *. rewrite count_occ_app. lia.
  - intros id Hid. destruct (Hdead id) as [H1 H2]; [by apply Hdom|]. split; [done|].
    unfold times in *. rewrite count_occ_app. pose proof (now_dead e (impl lib) t id Hid). unfold times in *. lia.
  - intros id Hid. assert (Hn : (next_id (impl lib) <= id)%nat) by lia. specialize (Hnew id Hn).
    pose proof (now_dead e (impl lib) t id (proj1 (Hdom _) (unused_dead _ _ HA Hn))). unfold times in *. rewrite count_occ_app. lia.
Qed.

Lemma times_filter id j l :
  times j (List.filter (fun i => negb (Nat.eqb i id)) l) = if bool_decide (j = id) then 0%nat else times j l.
Proof.
  unfold times. induction l as [|i l IH]; simpl; [by destruct (bool_decide _)|].
  destruct (Nat.eqb_spec i id) as [Hi|Hi]; simpl; rewrite ?IH; case_bool_decide; try destruct (Nat.eq_dec i j); congruence.
Qed.

Lemma destroy_api_inv id lib : ApiInv lib -> enabled (Img:=Img) (Destroy id) (impl lib) = true ->
  exists lib', destroy id lib = Ok (lib', []) /\ ApiInv lib' /\ emitted lib' = emitted lib /\
    status_of id (impl lib') = None /\ forall j, j <> id -> status_of j (impl lib') = status_of j (impl lib).
Proof.
  intros HA He. pose proof HA as [HI Hrep Halive Hdead Hnew].
  destruct (exec_inv fromData (Destroy id) (impl lib) HI He) as (t & Ht & HI').
  destruct (destroy_changes _ _ _ Ht) as (Hother & Hn & Hgone).
  unfold destroy, client_event. rewrite Ht. cbn [mbind outcome_bind].
  assert (Hnow : now_finished (Destroy id) (impl lib) t = []).
  { unfold now_finished. simpl. by rewrite (finished_status id t), Hgone, andb_false_r. }
  rewrite Hnow, app_nil_r. eexists. split_and!; [done| |done|done|done].
  assert (Hid : (times id (emitted lib) <= 1)%nat).
  { destruct (status_of id (impl lib)) as [s|] eqn:Hs; [|by apply Hdead].
    specialize (Halive id s Hs). destruct (s_finished s); simpl in Halive; lia. }
  constructor; simpl; try done.
  - intros j s Hs. destruct (decide (j = id)) as [->|Hne]; [congruence|]. rewrite Hother in Hs by done. by eapply Hrep.
  - intros j s Hs. destruct (decide (j = id)) as [->|Hne]; [congruence|]. rewrite Hother in Hs by done.
    rewrite times_filter, bool_decide_false by done. by apply Halive.
  - intros j Hj. rewrite times_filter. case_bool_decide as Hj'; [by subst|]. rewrite Hother in Hj by done. by apply Hdead.
  - intros j Hj. rewrite Hn in Hj. by apply Hnew.
Qed.

Lemma create_api_inv q size lib : ApiInv lib ->
  exists lib', createRequest q size lib = Ok (lib', next_id (impl lib)) /\ ApiInv lib' /\ emitted lib' = emitted lib /\
    next_id (impl lib') = S (next_id (impl lib)) /\
    (forall j, j <> next_id (impl lib) -> status_of j (impl lib') = status_of j (impl lib)) /\
    status_of (next_id (impl lib)) (impl lib') = Some (if QtSize.isValid size then fresh else refused (details q size)) /\
    jobs lib' = <[next_id (impl lib) := (q, size)]> (jobs lib).
Proof.
  intros HA. pose proof HA as [HI Hrep Halive Hdead Hnew]. set (n := next_id (impl lib)).
  destruct (create_inv fromData (details q size) (QtSize.isValid size) (impl lib) HI) as (t & Ht & HI'). simpl in Ht.
  assert (Hnone : requests (impl lib) !! n = None).
  { destruct (requests (impl lib) !! n) eqn:E; [|done]. apply (inv_id _ _ _ HI) in E. unfold n in E. lia. }
  destruct (create_changes _ _ _ _ Hnone Ht) as (Hch & Hn & Hs).
  set (s := if QtSize.isValid size then fresh else refused (details q size)) in *. destruct Hch as [Hch Hother]. fold n in Hs, Hch, Hother, Hn.
  unfold createRequest. rewrite Ht. cbn [mbind outcome_bind]. destruct (status_Some _ _ _ Hs) as (r & Hr & Hrs).
  unfold get_request. fold n. rewrite Hr. cbn [mbind outcome_bind].
  assert (Hf : finished_ r && negb (is_valid_ r) = s_finished s).
  { pose proof (f_equal s_finished Hrs) as H1. pose proof (f_equal s_valid Hrs) as H2. simpl in H1, H2.
    unfold isFinished, isValid in *. rewrite H1, H2. unfold s. by destruct (QtSize.isValid size). }
  rewrite Hf. assert (Hsn : status_of n (impl lib) = None) by (unfold status_of; by rewrite Hnone).
  assert (Ho : forall j, j <> n -> status_of j t = status_of j (impl lib)) by (intros j Hj; apply Hother; congruence).
  assert (Hsig : forall j, times j (if s_finished s then signals lib ++ [n] else signals lib) =
    (times j (signals lib) + if bool_decide (j = n) then Nat.b2n (s_finished s) else 0)%nat).
  { intros j. unfold times. destruct (s_finished s); [rewrite count_occ_app|]; [|by case_bool_decide].
    change (count_occ Nat.eq_dec [n] j) with (times j [n]). rewrite times_one. do 2 case_bool_decide; simpl; (lia || congruence). }
  eexists. split_and!; [done| |done|exact Hn|exact Ho|exact Hs|done]. constructor; simpl; try done.
  - intros j s' Hs'. destruct (decide (j = n)) as [->|Hne]; [|rewrite Ho in Hs' by done; by eapply Hrep].
    specialize (Hch n eq_refl). rewrite Hsn in Hch. eapply change_reports; [exact Hch|done|done].
  - intros j s' Hs'. rewrite Hsig. case_bool_decide as Hj; [subst j|rewrite Ho in Hs' by done; rewrite Nat.add_0_r; by apply Halive].
    destruct (Hdead n Hsn) as [-> _]. rewrite (Hnew n) by (unfold n; lia). simpl. congruence.
  - intros j Hj. assert (j <> n) by congruence. rewrite Hsig, bool_decide_false by done. rewrite Ho in Hj by done.
    rewrite Nat.add_0_r. by apply Hdead.
  - intros j Hj. apply Hnew. lia.
Qed.

Lemma deliver_signal_inv id rest lib : ApiInv lib -> signals lib = id :: rest ->
  ApiInv (mkLibrary (impl lib) (jobs lib) rest (emitted lib ++ [id])).
Proof.
  intros [HI Hrep Halive Hdead Hnew] Hs.
  assert (Ht : forall j, (times j (emitted lib ++ [id]) + times j rest)%nat = (times j (emitted lib) + times j (signals lib))%nat).
  { intros j. unfold times. rewrite Hs, count_occ_app. simpl. destruct (Nat.eq_dec id j); lia. }
  assert (Hle : forall j, (times j rest <= times j (signals lib))%nat).
  { intros j. unfold times. rewrite Hs. simpl. destruct (Nat.eq_dec id j); lia. }
  constructor; simpl; try done.
  - intros j s Hj. rewrite Ht. by apply Halive.
  - intros j Hj. specialize (Ht j). specialize (Hle j). specialize (Hdead j Hj) as [H1 H2]. lia.
  - intros j Hj. specialize (Hnew j Hj). assert (Hd : status_of j (impl lib) = None).
    { unfold status_of. destruct (requests (impl lib) !! j) eqn:E; [|done]. apply (inv_id _ _ _ HI) in E. lia. }
    specialize (Hdead j Hd) as [H1 _]. specialize (Ht j). specialize (Hle j). lia.
Qed.

(** What the events other than the making and the deletion of a request do, for a
    client of this library: at most one signal, of a request that exists; nothing
    changes for a request that has finished. *)
Definition plain_event (e : api_event) : bool :=
  match e with Get _ _ | DestroyRequest _ => false | _ => true end.

Definition effect lib lib' (now : list nat) : Prop :=
  (now = [] \/ exists id, now = [id] /\ is_Some (requests (impl lib') !! id)) /\
  (forall id, times id (emitted lib') = (times id (emitted lib) + times id now)%nat) /\
  (forall id s, status_of id (impl lib) = Some s ->
     exists s', status_of id (impl lib') = Some s' /\ (s_finished s = true -> s' = s)).

Lemma change_final w s o' : change w (Some s) o' -> exists s', o' = Some s' /\ (s_finished s = true -> s' = s).
Proof. intros Hc. inversion Hc; subst; eexists; (split; [done|]); congruence. Qed.

Lemma event_effect e lib : ApiInv lib -> enabled e (impl lib) = true -> creates e = false -> destroys e = false ->
  exists lib' now, client_event e lib = Ok (lib', now) /\ ApiInv lib' /\ effect lib lib' now.
Proof.
  intros HA He Hc Hd. destruct (event_inv e lib HA He Hc Hd) as (t & now & H1 & H2 & H3 & H4).
  eexists _, now. split; [exact H1|]. split; [exact H4|]. split_and!; simpl.
  - subst now. unfold now_finished. destruct (subject e (impl lib)) as [id|]; [|by left].
    destruct (negb (is_finished id (impl lib)) && is_finished id t) eqn:E; [right|by left]. exists id. split; [done|].
    bsimpl. unfold is_finished in *. by destruct (requests t !! id).
  - intros id. unfold times. by rewrite count_occ_app.
  - intros id s Hs. destruct H3 as [H3 H5]. destruct (decide (subject e (impl lib) = Some id)) as [Hsub|Hsub].
    + specialize (H3 id Hsub). rewrite Hs in H3. by eapply change_final.
    + exists s. rewrite H5 by done. done.
Qed.

Lemma api_effect e lib : ApiInv lib -> api_enabled e lib = true -> plain_event e = true ->
  exists lib' now, api_exec e lib = Ok (lib', now) /\ ApiInv lib' /\ effect lib lib' now.
Proof.
  intros HA He Hp. destruct e as [q size|id rep| | |id|id rep|id]; simpl in *; try done;
    try (by apply event_effect).
  destruct (signals lib) as [|id rest] eqn:Hs; [done|]. eexists _, _. split; [done|].
  split; [by apply deliver_signal_inv|]. split_and!; simpl.
  - right. exists id. split; [done|]. destruct (requests (impl lib) !! id) eqn:E; [done|].
    destruct (ai_dead _ HA id) as [H0 _]; [unfold status_of; by rewrite E|]. exfalso.
    unfold times in H0. rewrite Hs in H0. simpl in H0. by destruct (Nat.eq_dec id id).
  - intros j. unfold times. by rewrite count_occ_app.
  - intros j s Hj. by exists s.
Qed.

Lemma api_exec_inv e lib : ApiInv lib -> api_enabled e lib = true ->
  exists lib' now, api_exec e lib = Ok (lib', now) /\ ApiInv lib'.
Proof.
  intros HA He. destruct (plain_event e) eqn:Hp; [destruct (api_effect e lib HA He Hp) as (lib' & now & H1 & H2 & _); eauto|].
  destruct e as [q size|id rep| | |id|id rep|id]; try done; simpl in *.
  - destruct (create_api_inv q size lib HA) as (lib' & -> & H & _). eauto.
  - destruct (destroy_api_inv id lib HA He) as (lib' & -> & H & _). eauto.
Qed.

Lemma make_inv dflt config lib : make dflt config = Ok lib -> ApiInv lib.
Proof.
  unfold make. intros H. apply outcome_bind_Ok in H as (t & Ht & [= <-]). pose proof (init_inv _ _ _ Ht) as HI.
  unfold Client.init in Ht. apply outcome_bind_Ok in Ht as (l & _ & [= <-]).
  constructor; try done; simpl. auto with lia.
Qed.

Lemma api_reachable_inv dflt config lib0 lib : make dflt config = Ok lib0 -> rtc api_step lib0 lib -> ApiInv lib.
Proof.
  intros H0 Hr. apply make_inv in H0. revert H0. induction Hr as [|a b c (e & now & He & Hx) _ IH]; [done|].
  intros HA. apply IH. destruct (api_exec_inv e a HA He) as (lib' & now' & E & HA'). congruence.
Qed.

(** ** Properties *)

(** C13. The [finished] signal: a program that makes, cancels, waits for and
    destroys requests in any order sees it at most once for a request, and once
    for one that has finished, unless it is queued still; with nothing on the
    wire and nothing queued every request it holds has finished and has said so. *)
Theorem finished_signal_once dflt config lib0 lib id :
  make dflt config = Ok lib0 -> rtc api_step lib0 lib ->
  (times id (emitted lib) <= 1)%nat /\
  (forall r, requests (impl lib) !! id = Some r ->
     (times id (emitted lib) + times id (signals lib))%nat = Nat.b2n (isFinished r)) /\
  (in_flight (impl lib) = 0 -> posted (impl lib) = [] -> signals lib = [] ->
   is_Some (requests (impl lib) !! id) -> times id (emitted lib) = 1%nat).
Proof.
  intros H0 Hr. pose proof (api_reachable_inv _ _ _ _ H0 Hr) as HA.
  assert (Hal : forall r, requests (impl lib) !! id = Some r ->
     (times id (emitted lib) + times id (signals lib))%nat = Nat.b2n (isFinished r)).
  { intros r Hid. apply (ai_alive _ HA id (status r)). unfold status_of. by rewrite Hid. }
  split_and!; [|done|].
  - destruct (requests (impl lib) !! id) as [r|] eqn:Hid.
    + specialize (Hal r eq_refl). destruct (isFinished r); simpl in Hal; lia.
    + apply (ai_dead _ HA). unfold status_of. by rewrite Hid.
  - intros Hf Hp Hs [r Hid]. specialize (Hal r Hid). rewrite Hs in Hal.
    unfold isFinished in Hal. rewrite (settled_finished _ _ _ (ai_impl _ HA) Hf Hp Hid) in Hal. simpl in Hal. lia.
Qed.

(** *** Where what a request shows comes from *)

(** A run, with its events. *)
Inductive run lib0 : list api_event -> Library -> Prop :=
  | run_nil : run lib0 [] lib0
  | run_event es lib e lib' now : run lib0 es lib -> api_enabled e lib = true -> api_exec e lib = Ok (lib', now) ->
      run lib0 (es ++ [e]) lib'.

Lemma run_steps lib0 es lib : run lib0 es lib -> rtc api_step lib0 lib.
Proof. induction 1 as [|es lib e lib' now _ IH He Hx]; [done|]. eapply rtc_r; [exact IH|]. by exists e, now. Qed.

(** The reply came to request [id] in one of the events. *)
Definition came (es : list api_event) (id : nat) (rep : reply) : Prop := BusReply id rep ∈ es \/ WaitRequest id rep ∈ es.

(** What request [id], made for [q] with [size], shows after the events. *)
Definition explained (es : list api_event) (id : nat) (q : query) (size : QSize) (s : Status) : Prop :=
  (s_cancelled s = true -> CancelRequest id ∈ es) /\
  if s_finished s then
    (exists rep, came es id rep /\ s_cancelled s = false /\ s = shown rep) \/
    s = gone \/ s = refused (details q size) /\ QtSize.isValid size = false
  else s_valid s = false /\ s_error s = "" /\ s_image s = None /\ QtSize.isValid size = true.

Lemma explained_more es e id q size s : explained es id q size s -> explained (es ++ [e]) id q size s.
Proof.
  intros [H1 H2]. split; [intros Hc; set_solver|]. destruct (s_finished s); [|done].
  destruct H2 as [(rep & Hc & H2)|H2]; [|by right]. left. exists rep. split; [|done]. unfold came in *. set_solver.
Qed.

(** The events of Client.v behind an event that neither makes nor destroys a request. *)
Definition client_of (e : api_event) : option event :=
  match e with
  | BusReply id rep => Some (Reply id rep)
  | DeliverCall => Some Deliver
  | CancelRequest id => Some (Cancel id)
  | WaitRequest id rep => Some (Wait id rep)
  | _ => None
  end.

Lemma explained_event es a e lib t id q size s s' : client_of a = Some e ->
  changes (news_of e) (subject e (impl lib)) (impl lib) t ->
  status_of id (impl lib) = Some s -> status_of id t = Some s' -> explained es id q size s ->
  explained (es ++ [a]) id q size s'.
Proof.
  intros Ha [H1 H2] Hs Hs' He. destruct (decide (subject e (impl lib) = Some id)) as [E|E].
  2: { assert (s' = s) as -> by (specialize (H2 id E); congruence). by apply explained_more. }
  specialize (H1 id E). rewrite Hs, Hs' in H1. inversion H1 as [| | |? Hw Hf|? Hf Hc|? rep Hw Hf Hc]; subst.
  - by apply explained_more.
  - destruct e; try done. destruct a; try done. simpl in *. simplify_eq. destruct He as [_ He]. rewrite Hf in He.
    split; [intros _; simpl; set_solver|]. simpl. naive_solver.
  - destruct He as [He _]. split; [intros _; specialize (He Hc); set_solver|]. simpl. by right; left.
  - split; [by destruct rep|]. replace (s_finished (shown rep)) with true by by destruct rep. left. exists rep.
    split; [|by destruct rep]. unfold came. destruct e; try done; destruct a; try done; simpl in *; simplify_eq; set_solver.
Qed.

(** Every live request is explained by the events. *)
Definition all_explained (es : list api_event) lib : Prop := forall id s, status_of id (impl lib) = Some s ->
  exists q size, jobs lib !! id = Some (q, size) /\ Get q size ∈ es /\ explained es id q size s.

Lemma event_explained es e lib lib' now : ApiInv lib -> all_explained es lib -> api_enabled e lib = true ->
  api_exec e lib = Ok (lib', now) -> all_explained (es ++ [e]) lib'.
Proof.
  intros HA Hall He Hx id s' Hs'.
  assert (Hmore : forall s, status_of id (impl lib) = Some s -> jobs lib' !! id = jobs lib !! id -> s' = s ->
    exists q size, jobs lib' !! id = Some (q, size) /\ Get q size ∈ es ++ [e] /\ explained (es ++ [e]) id q size s').
  { intros s Hs Hj ->. destruct (Hall id s Hs) as (q & size & H1 & H2 & H3). exists q, size. rewrite Hj.
    split_and!; [done|set_solver|by apply explained_more]. }
  destruct (client_of e) as [c|] eqn:Ec.
  - assert (H : enabled c (impl lib) = true /\ creates c = false /\ destroys c = false /\ client_event c lib = Ok (lib', now))
      by (destruct e; simpl in Ec; simplify_eq; done).
    destruct H as (H1 & H2 & H3 & H4). destruct (event_inv c lib HA H1 H2 H3) as (t & now' & H5 & _ & Hch & _).
    rewrite H4 in H5. injection H5 as -> _. simpl in *.
    assert (Hal : is_Some (status_of id (impl lib))).
    { destruct (decide (subject c (impl lib) = Some id)) as [E|E]; [by eapply subject_alive; [apply HA|..]|].
      destruct Hch as [_ Hch]. rewrite <- Hch by done. by eexists. }
    destruct Hal as [s Hs]. destruct (Hall id s Hs) as (q & size & Hj & Hg & Hexp). exists q, size.
    split_and!; [done|set_solver|]. by eapply explained_event.
  - destruct e as [q size|j rep| | |j|j rep|j]; try done; simpl in Hx.
    + apply outcome_bind_Ok in Hx as ([l1 i] & Hc & [= -> <-]).
      destruct (create_api_inv q size lib HA) as (l2 & H2 & _ & _ & _ & Ho & Hnew & Hj). rewrite H2 in Hc. injection Hc as -> <-.
      destruct (decide (id = next_id (impl lib))) as [->|Hne].
      * exists q, size. rewrite Hj, lookup_insert_eq. split_and!; [done|set_solver|]. rewrite Hnew in Hs'. injection Hs' as <-.
        unfold explained. destruct (QtSize.isValid size) eqn:Hv; simpl; [done|]. split; [done|]. by right; right.
      * eapply (Hmore s'); [by rewrite <- Ho|by rewrite Hj, lookup_insert_ne by congruence|done].
    + destruct (signals lib) as [|i rest]; injection Hx as <- _; by apply (Hmore s').
    + destruct (destroy_api_inv j lib HA He) as (l2 & H2 & _ & _ & Hnone & Ho). simpl in H2. rewrite H2 in Hx. injection Hx as <- _.
      destruct (decide (id = j)) as [->|Hne]; [congruence|]. apply (Hmore s'); [by rewrite <- Ho| |done].
      unfold destroy, client_event in H2. apply outcome_bind_Ok in H2 as ([l3 n3] & H3 & [= <- _]).
      apply outcome_bind_Ok in H3 as (t & _ & [= <- _]). done.
Qed.

Lemma run_explained dflt config lib0 es lib : make dflt config = Ok lib0 -> run lib0 es lib -> all_explained es lib.
Proof.
  intros H0. induction 1 as [|es lib e lib' now Hr IH He Hx].
  - unfold make in H0. apply outcome_bind_Ok in H0 as (t & Ht & [= <-]). unfold Client.init in Ht.
    by apply outcome_bind_Ok in Ht as (l & _ & [= <-]).
  - eapply event_explained; [|done..]. by eapply api_reachable_inv, run_steps.
Qed.

(** C14. What a request reports is what happened to it.  After any run of the program
    and the bus a request [id], made for [q] with [size]:
    - that is valid has finished, was not cancelled, has no error, and its image is
      the decoded bytes of a reply that came for this very request (a null image if
      they cannot be decoded);
    - that is not valid has no image, and if it has finished its error says why: it
      was cancelled; or a D-Bus error came for it, whose text it shows; or its size
      was invalid.  While it has not finished it has no error and its size is valid.
    A request that calls itself cancelled was cancelled by the program.  (After a
    request has finished its cancellation is without effect, also on
    [isCancelled()]; and one that was cancelled before never succeeds, whatever
    reply comes, where the note on [isCancelled()] says that it may.) *)
Theorem request_reports dflt config lib0 lib es id r :
  make dflt config = Ok lib0 -> run lib0 es lib -> requests (impl lib) !! id = Some r ->
  exists q size, Get q size ∈ es /\ (isCancelled r = true -> CancelRequest id ∈ es) /\
  if isValid r
  then isFinished r = true /\ isCancelled r = false /\ errorMessage r = "" /\
       exists ba, came es id (ReplyValue ba) /\ image r = fromData ba
  else image r = None /\
       if isFinished r
       then (isCancelled r = true /\ errorMessage r = "Request cancelled") \/
            (isCancelled r = false /\ exists msg, came es id (ReplyError msg) /\
               errorMessage r = "Thumbnailer: RequestImpl::dbusCallFinished(): D-Bus error: " +:+ msg) \/
            (isCancelled r = false /\ QtSize.isValid size = false /\
               errorMessage r = details q size +:+ ": invalid QSize")
       else errorMessage r = "" /\ QtSize.isValid size = true.
Proof.
  intros H0 Hr Hid. destruct (run_explained _ _ _ _ _ H0 Hr id (status r)) as (q & size & _ & Hg & Hc & He);
    [unfold status_of; by rewrite Hid|].
  exists q, size. split; [done|]. split; [done|]. simpl in He. destruct (isFinished r) eqn:Hf.
  - destruct He as [(rep & Hcame & Hca & Hs)|[Hs|[Hs Hv]]]; unfold status in Hs.
    + destruct rep as [ba|msg]; injection Hs as _ -> -> -> ->; simpl; [by split_and!; eauto|]. split; [done|]. right; left. eauto.
    + injection Hs as _ -> -> -> ->. split; [done|]. by left.
    + injection Hs as _ -> -> -> ->. split; [done|]. by right; right.
  - destruct He as (Hv & -> & Hi & Hs). simpl in Hv, Hi. rewrite Hv, Hi. done.
Qed.
End Defs.

(** ** Witnesses *)

Section Replay.
Context {Img : Type} (fromData : string -> option Img).

Fixpoint api_replay (es : list api_event) (lib : Library) : outcome Library :=
  match es with
  | [] => Ok lib
  | e :: es => if api_enabled e lib then r ← api_exec fromData e lib; api_replay es (fst r) else Crash (Undefined "disabled event")
  end.

Lemma api_replay_rtc es : forall lib0 lib, api_replay es lib0 = Ok lib -> rtc (api_step fromData) lib0 lib.
Proof.
  induction es as [|e es IH]; intros lib0 lib; simpl; [intros [= <-]; apply rtc_refl|].
  destruct (api_enabled e lib0) eqn:He; [|done]. destruct (api_exec fromData e lib0) as [[lib1 now]| |] eqn:Hx; [|done..].
  simpl. intros H. eapply rtc_l; [by exists e, now|]. by apply IH.
Qed.

Lemma api_replay_run_from es lib0 : forall lib before, run fromData lib0 before lib -> forall lib', api_replay es lib = Ok lib' ->
  run fromData lib0 (before ++ es) lib'.
Proof.
  induction es as [|e es IH]; intros lib before Hb lib' H; simpl in H; [injection H as <-; by rewrite app_nil_r|].
  destruct (api_enabled e lib) eqn:He; [|done]. destruct (api_exec fromData e lib) as [[lib1 now]| |] eqn:Hx; [|done..].
  change (e :: es) with ([e] ++ es). rewrite (assoc_L (++)). apply (IH lib1); [by eapply run_event|done].
Qed.

Lemma api_replay_run es lib0 lib : api_replay es lib0 = Ok lib -> run fromData lib0 es lib.
Proof. intros H. exact (api_replay_run_from es lib0 lib0 [] (run_nil fromData lib0) lib H). Qed.
End Replay.

Definition started : Library :=
  match make (Img := string) 10 (Some 1) with Ok l => l | _ => mkLibrary idle ∅ [] [] end.

(** One request is answered, one has an invalid size, one is cancelled while it
    waits, and one is destroyed. *)
Definition session : list api_event :=
  [Get (LocalFile "/a.png") (mkSize 64 64); Get (AlbumArt "x" "y") invalid_size; Get (ArtistArt "x" "y") (mkSize 1 1);
   Get (LocalFile "/b") (mkSize 2 2); CancelRequest 2; DestroyRequest 3; BusReply 0 (ReplyValue "img"); DeliverCall; DeliverSignal].

Definition ended : Library :=
  match api_replay decode session started with Ok l => l | _ => started end.

Lemma ended_reachable : rtc (api_step decode) started ended.
Proof. apply (api_replay_rtc decode session). vm_compute. reflexivity. Qed.

Example session_signals : emitted ended = [0; 2; 1]%nat.
Proof. by vm_compute. Qed.

Example album_details : details (AlbumArt "x" "y") (mkSize 3 4) = "getAlbumArt: (3,4) " +:+ quoted "x" +:+ ", " +:+ quoted "y".
Proof. by vm_compute. Qed.

Lemma finished_signal_once_witness :
  (times 2 (emitted ended) <= 1)%nat /\
  (forall r, requests (impl ended) !! 2%nat = Some r ->
     (times 2 (emitted ended) + times 2 (signals ended))%nat = Nat.b2n (isFinished r)) /\
  (in_flight (impl ended) = 0 -> posted (impl ended) = [] -> signals ended = [] ->
   is_Some (requests (impl ended) !! 2%nat) -> times 2 (emitted ended) = 1%nat).
Proof. apply (finished_signal_once decode 10 (Some 1) started ended 2); [reflexivity|exact ended_reachable]. Defined.

Definition the_request (id : nat) : @RequestImpl string :=
  match requests (impl ended) !! id with Some r => r | None => mkRequest "" false None "" false false false false None end.

Lemma request_reports_witness :
  exists q size, Get q size ∈ session /\ (isCancelled (the_request 2) = true -> CancelRequest 2 ∈ session) /\
    image (the_request 2) = None /\
    ((isCancelled (the_request 2) = true /\ errorMessage (the_request 2) = "Request cancelled") \/
     (isCancelled (the_request 2) = false /\ exists msg, came session 2 (ReplyError msg) /\
        errorMessage (the_request 2) = "Thumbnailer: RequestImpl::dbusCallFinished(): D-Bus error: " +:+ msg) \/
     (isCancelled (the_request 2) = false /\ QtSize.isValid size = false /\
        errorMessage (the_request 2) = details q size +:+ ": invalid QSize")).
Proof.
  exact (request_reports decode 10 (Some 1) started ended session 2 (the_request 2) eq_refl
    (api_replay_run decode session started ended ltac:(vm_compute; reflexivity)) ltac:(vm_compute; reflexivity)).
Defined.
End ClientApi.
