(* ===== verification/ClientSlots.v ===== *)
(** * Programs that call the client library from a slot (libthumbnailer-qt.cpp)

    [Q_EMIT public_request_->finished()] runs the slots of the program inside
    [dbusCallFinished].  Client.v takes the emission as the last thing the call
    does; here it is where the code has it, and a slot can call the library again,
    [waitForFinished()] included, which runs the slots of another request inside
    the first.  [slot] gives the calls the slot of each request makes. *)

From S2P Require Import Prelude RateLimiter Client ClientApi.
Import RateLimiter Client.

Module ClientSlots.

Section Defs.
Context {Img : Type} (fromData : string -> option Img).
Notation RequestImpl := (@RequestImpl Img).
Notation ThumbnailerImpl := (@ThumbnailerImpl Img).
Implicit Types (t : ThumbnailerImpl) (r : RequestImpl).

(** What a slot can do to the library; a reply is what a wait ends with. *)
Inductive call : Type :=
  | CallCreate (details : string) (size_valid : bool)
  | CallCancel (id : nat)
  | CallWait (id : nat) (rep : reply)
  | CallDestroy (id : nat).

Context (slot : nat -> list call).

Fixpoint run_calls (f : call -> ThumbnailerImpl -> outcome ThumbnailerImpl) (l : list call) t : outcome ThumbnailerImpl :=
  match l with
  | [] => Ok t
  | c :: l => t ← f c t; run_calls f l t
  end.

Definition set_watcher (b : bool) r : RequestImpl :=
  mkRequest (details_ r) b (cancel_func_ r) (error_message_ r) (finished_ r) (is_valid_ r)
    (cancelled_ r) (cancelled_while_waiting_ r) (image_ r).

(** The members set before the emission; the watcher is still there. *)
Definition set_image (ba : string) r : RequestImpl := set_watcher true (finishWithImage fromData ba r).

(** [trace_client_] is read and [watcher_] reset: the request must be there. *)
Definition drop_watcher (id : nat) t : outcome ThumbnailerImpl :=
  r ← get_request id t; Ok (Client.set_request id (set_watcher false r) t).

(** [Q_ASSERT(!watcher_)]. *)
Definition assert_no_watcher (id : nat) t : outcome ThumbnailerImpl :=
  r ← get_request id t; _ ← assert_ (negb (watcher_ r)) "dbusCallFinished: !watcher_"; Ok t.

Section Finished.
(** [emit]: the slots of a request. *)
Context (emit : nat -> ThumbnailerImpl -> outcome ThumbnailerImpl).

Definition dbusCallFinished (id : nat) (rep : reply) t : outcome ThumbnailerImpl :=
  r ← get_request id t;
  _ ← assert_ (negb (finished_ r)) "dbusCallFinished: !finished_";
  t1 ← (if negb (cancelled_ r) || negb (cancelled_while_waiting_ r) then pump_limiter t else Ok t);
  r1 ← get_request id t1;
  if cancelled_ r1 then
    t2 ← emit id (Client.set_request id (finishWithError "Request cancelled" r1) t1);
    assert_no_watcher id t2
  else
    _ ← assert_ (watcher_ r1) "dbusCallFinished: watcher_";
    match rep with
    | ReplyError msg => emit id (Client.set_request id (finishWithError
        ("Thumbnailer: RequestImpl::dbusCallFinished(): D-Bus error: " +:+ msg) r1) t1)
    | ReplyValue ba =>
        t2 ← emit id (Client.set_request id (set_image ba r1) t1);
        drop_watcher id t2
    end.

Definition waitForFinished (id : nat) (rep : reply) t : outcome ThumbnailerImpl :=
  r ← get_request id t;
  if finished_ r || cancelled_ r then Ok t
  else
    '(t1, unqueued) ← call_cancel_func r t;
    t2 ← (if unqueued : bool then
            _ ← assert_ (negb (watcher_ r)) "waitForFinished: !watcher_";
            let '(l, _, started) := schedule_now id (limiter_ t1) in
            run_jobs started (set_limiter l t1)
          else Ok t1);
    r2 ← get_request id t2;
    if watcher_ r2 then dbusCallFinished id rep t2
    else Crash (Undefined "waitForFinished: null watcher_").

Definition exec_call (c : call) t : outcome ThumbnailerImpl :=
  match c with
  | CallCreate details size_valid => createRequest details size_valid t
  | CallCancel id => cancel id t
  | CallWait id rep => waitForFinished id rep t
  | CallDestroy id => destroy id t
  end.
End Finished.

(** The slots of a request, with those of the requests they wait for, [fuel] deep. *)
Fixpoint emit_finished (fuel id : nat) t : outcome ThumbnailerImpl :=
  match fuel with
  | O => Crash (Undefined "emit_finished: fuel")
  | S fuel => run_calls (exec_call (emit_finished fuel)) (slot id) t
  end.

(** ** The slots at the end *)

Section Later.
Context (emit : nat -> ThumbnailerImpl -> outcome ThumbnailerImpl).

Definition finished_later (id : nat) (rep : reply) t : outcome ThumbnailerImpl :=
  t1 ← Client.dbusCallFinished fromData id rep t; emit id t1.

Definition wait_later (id : nat) (rep : reply) t : outcome ThumbnailerImpl :=
  r ← get_request id t;
  t1 ← Client.waitForFinished fromData id rep t;
  if finished_ r || cancelled_ r then Ok t1 else emit id t1.

Definition exec_later (c : call) t : outcome ThumbnailerImpl :=
  match c with
  | CallCreate details size_valid => createRequest details size_valid t
  | CallCancel id => cancel id t
  | CallWait id rep => wait_later id rep t
  | CallDestroy id => destroy id t
  end.
End Later.

Fixpoint emit_later (fuel id : nat) t : outcome ThumbnailerImpl :=
  match fuel with
  | O => Crash (Undefined "emit_finished: fuel")
  | S fuel => run_calls (exec_later (emit_later fuel)) (slot id) t
  end.

(** ** The events of Client.v *)

(** [finished] ends a request, [wait] waits for one. *)
Definition handle_event (finished wait : nat -> reply -> ThumbnailerImpl -> outcome ThumbnailerImpl) (e : event) t
    : outcome ThumbnailerImpl :=
  match e with
  | Create details size_valid => createRequest details size_valid t
  | Reply id rep => finished id rep t
  | Deliver =>
      match posted t with
      | [] => Ok t
      | c :: rest =>
          let t1 := mkThumbnailer (limiter_ t) (requests t) rest (next_id t) in
          match c with
          | PumpLimiter => pump_limiter t1
          | FakeFinished id => finished id (ReplyError "") t1
          end
      end
  | Cancel id => cancel id t
  | Wait id rep => wait id rep t
  | Destroy id => destroy id t
  end.

Definition exec_slots (fuel : nat) : event -> ThumbnailerImpl -> outcome ThumbnailerImpl :=
  handle_event (dbusCallFinished (emit_finished fuel)) (waitForFinished (emit_finished fuel)).

Definition exec_then_slots (fuel : nat) : event -> ThumbnailerImpl -> outcome ThumbnailerImpl :=
  handle_event (finished_later (emit_later fuel)) (wait_later (emit_later fuel)).
End Defs.

(** ** A watcher that is still there makes no difference *)

Section Commute.
Context {Img : Type} (fromData : string -> option Img).
Notation RequestImpl := (@RequestImpl Img).
Notation ThumbnailerImpl := (@ThumbnailerImpl Img).
Implicit Types (t : ThumbnailerImpl) (r : RequestImpl) (l : RateLimiter nat).

(** The state before the watcher of [id] is reset. *)
Definition rewatch (id : nat) t : ThumbnailerImpl :=
  mkThumbnailer (limiter_ t) (alter (set_watcher true) id (requests t)) (posted t) (next_id t).

(** A finished request. *)
Record over (id : nat) t : Prop := mkOver {
  over_request : exists r, requests t !! id = Some r /\ finished_ r = true /\ watcher_ r = false;
  over_queue : id ∉ waiting (list_ (limiter_ t));
  over_id : (id < next_id t)%nat
}.

Definition commutes (id : nat) (o o' : outcome ThumbnailerImpl) : Prop :=
  match o with
  | Ok t => o' = Ok (rewatch id t) /\ over id t
  | Throw e => o' = Throw e
  | Crash c => o' = Crash c
  end.

Lemma commutes_bind id o o' (f g : ThumbnailerImpl -> outcome ThumbnailerImpl) :
  commutes id o o' -> (forall t, over id t -> commutes id (f t) (g (rewatch id t))) -> commutes id (o ≫= f) (o' ≫= g).
Proof. destruct o as [t|e|c]; simpl; [|by intros ->..]. intros [-> Ht] Hf. by apply Hf. Qed.

Lemma get_rewatch id i t : i <> id -> get_request i (rewatch id t) = get_request i t.
Proof. intros Hne. unfold get_request. simpl. by rewrite lookup_alter_ne. Qed.

Lemma commutes_get id i t (f g : RequestImpl -> outcome ThumbnailerImpl) :
  i <> id -> (forall r, requests t !! i = Some r -> commutes id (f r) (g r)) ->
  commutes id (get_request i t ≫= f) (get_request i (rewatch id t) ≫= g).
Proof.
  intros Hne Hf. rewrite get_rewatch by done. unfold get_request. destruct (requests t !! i) as [r|] eqn:Hr; [|done]. by apply Hf.
Qed.

Lemma commutes_assert id b site (o o' : outcome ThumbnailerImpl) :
  commutes id o o' -> commutes id (_ ← assert_ b site; o) (_ ← assert_ b site; o').
Proof. by destruct b. Qed.

(** Changes of other requests, of the queue and of the posted calls. *)
Lemma set_rewatch id i r t : i <> id -> Client.set_request i r (rewatch id t) = rewatch id (Client.set_request i r t).
Proof. intros Hne. unfold Client.set_request, rewatch. simpl. by rewrite alter_insert_ne. Qed.

Lemma over_set id i r t : i <> id -> over id t -> over id (Client.set_request i r t).
Proof. intros Hne [H1 H2 H3]. split; simpl; try done. by rewrite lookup_insert_ne. Qed.

Lemma over_limiter id l t : (forall x, x ∈ waiting (list_ l) -> x ∈ waiting (list_ (limiter_ t))) -> over id t -> over id (set_limiter l t).
Proof. intros Hl [H1 H2 H3]. split; simpl; try done. auto. Qed.

Lemma over_post id c t : over id t -> over id (post c t).
Proof. by intros [H1 H2 H3]. Qed.

Lemma waiting_clear cell (q : list (slot nat)) x : x ∈ waiting (clear_cell cell q) -> x ∈ waiting q.
Proof.
  unfold waiting, clear_cell. rewrite !list_elem_of_omap. intros (s & Hs & Hx).
  apply list_elem_of_fmap in Hs as (s' & -> & Hs'). destruct (decide _); [done|]. by exists s'.
Qed.

Lemma waiting_cancel c l l' b : call_cancel c l = (l', b) -> forall x, x ∈ waiting (list_ l') -> x ∈ waiting (list_ l).
Proof.
  unfold call_cancel. destruct c as [|cell]; [by intros [= <- <-]|]. destruct (cell_alive _ _); intros [= <- <-]; [|done].
  intros x. apply waiting_clear.
Qed.

Lemma waiting_pop (q q' : list (slot nat)) o : pop_job q = (q', o) ->
  (forall x, x ∈ waiting q' -> x ∈ waiting q) /\ (forall x, o = Some x -> x ∈ waiting q).
Proof.
  induction q as [|s q IH]; simpl; [by intros [= <- <-]|]. unfold waiting at 2 4. simpl. destruct (slot_job s) as [j|] eqn:Hj.
  - intros [= <- <-]. split; [intros x Hx; by right|intros x [= ->]; by left].
  - intros Hq. by apply IH.
Qed.

Lemma waiting_rev (q : list (slot nat)) x : x ∈ waiting (rev q) <-> x ∈ waiting q.
Proof. unfold waiting. rewrite !list_elem_of_omap. by setoid_rewrite list_elem_of_In; setoid_rewrite <- in_rev. Qed.

Lemma waiting_done l l' started : done l = Ok (l', started) ->
  (forall x, x ∈ waiting (list_ l') -> x ∈ waiting (list_ l)) /\ (forall x, x ∈ started -> x ∈ waiting (list_ l)).
Proof.
  unfold done. intros (u & _ & H)%outcome_bind_Ok. simpl in H. destruct (pop_job (rev (list_ l))) as [q o] eqn:Hq.
  destruct (waiting_pop _ _ _ Hq) as [H1 H2].
  assert (Hw : forall x, x ∈ waiting (rev q) -> x ∈ waiting (list_ l)) by (intros x Hx%(proj1 (waiting_rev _ _)); apply (proj1 (waiting_rev _ _)); by apply H1).
  destruct o as [j|]; injection H as <- <-; simpl; (split; [done|]); [|set_solver].
  intros x ->%list_elem_of_singleton. apply (proj1 (waiting_rev _ _)). by apply H2.
Qed.

(** *** The operations *)

Lemma commutes_send id i t : i <> id -> over id t -> commutes id (send_request i t) (send_request i (rewatch id t)).
Proof.
  intros Hne Ht. apply commutes_get; [done|]. intros r Hr. simpl. rewrite set_rewatch by done. split; [done|]. by apply over_set.
Qed.

Lemma commutes_jobs id jobs : forall t, id ∉ jobs -> over id t -> commutes id (run_jobs jobs t) (run_jobs jobs (rewatch id t)).
Proof.
  induction jobs as [|i jobs IH]; intros t Hn Ht; [done|]. cbn [run_jobs].
  apply commutes_bind; [apply commutes_send; [set_solver|done]|]. intros t' Ht'. apply IH; [set_solver|done].
Qed.

Lemma commutes_pump id t : over id t -> commutes id (pump_limiter t) (pump_limiter (rewatch id t)).
Proof.
  intros Ht. unfold pump_limiter. change (limiter_ (rewatch id t)) with (limiter_ t).
  destruct (done (limiter_ t)) as [[l started]|e|c] eqn:Hd; [|done..]. destruct (waiting_done _ _ _ Hd) as [H1 H2]. simpl.
  change (set_limiter l (rewatch id t)) with (rewatch id (set_limiter l t)). apply commutes_jobs; [|by apply over_limiter].
  intros Hin. by apply (over_queue _ _ Ht), H2.
Qed.

(** A call of a cancel function, and what follows. *)
Lemma commutes_cancel_func {B} id r t (f g : ThumbnailerImpl * bool -> outcome ThumbnailerImpl) (b : B) : over id t ->
  (forall t1 w, over id t1 -> commutes id (f (t1, w)) (g (rewatch id t1, w))) ->
  commutes id (call_cancel_func r t ≫= f) (call_cancel_func r (rewatch id t) ≫= g).
Proof.
  intros Ht Hf. unfold call_cancel_func. change (limiter_ (rewatch id t)) with (limiter_ t).
  destruct (cancel_func_ r) as [c|]; [|done]. destruct (call_cancel c (limiter_ t)) as [l w] eqn:Hc. simpl.
  apply (Hf (set_limiter l t) w). apply over_limiter; [|done]. by eapply waiting_cancel.
Qed.

Lemma over_get id t : over id t -> exists r, requests t !! id = Some r /\ finished_ r = true /\
  get_request id t = Ok r /\ get_request id (rewatch id t) = Ok (set_watcher true r).
Proof.
  intros [(r & Hr & Hf & _) _ _]. exists r. unfold get_request. simpl. by rewrite Hr, lookup_alter_eq, Hr.
Qed.

Lemma commutes_cancel id i t : over id t -> commutes id (cancel i t) (cancel i (rewatch id t)).
Proof.
  intros Ht. destruct (decide (i = id)) as [-> |Hne].
  { destruct (over_get id t Ht) as (r & Hr & Hf & H1 & H2). unfold cancel. rewrite H1, H2. simpl. by rewrite Hf. }
  apply commutes_get; [done|]. intros r Hr. destruct (_ || _); [done|]. apply (commutes_cancel_func _ _ _ _ _ tt Ht).
  intros t1 w Ht1. rewrite set_rewatch by done. destruct w; (split; [done|]); [by apply over_post, over_set|by apply over_set].
Qed.

Lemma commutes_create id d v t : over id t -> commutes id (createRequest d v t) (createRequest d v (rewatch id t)).
Proof.
  intros Ht. pose proof (over_id _ _ Ht) as Hid. assert (Hne : next_id t <> id) by lia. unfold createRequest. simpl.
  assert (Hnew : forall (x : RequestImpl), over id (mkThumbnailer (limiter_ t) (<[next_id t := x]> (requests t)) (posted t) (S (next_id t)))).
  { intros x. destruct Ht as [H1 H2 H3]. split; simpl; [by rewrite lookup_insert_ne|done|lia]. }
  assert (Hre : forall (x : RequestImpl), mkThumbnailer (limiter_ t) (<[next_id t := x]> (alter (set_watcher true) id (requests t))) (posted t) (S (next_id t)) =
    rewatch id (mkThumbnailer (limiter_ t) (<[next_id t := x]> (requests t)) (posted t) (S (next_id t)))).
  { intros x. unfold rewatch. simpl. by rewrite alter_insert_ne. }
  rewrite !Hre. destruct (negb v); [by split|]. set (t1 := mkThumbnailer _ _ _ _).
  assert (Ht1 : over id t1) by apply Hnew. destruct (schedule (next_id t) (limiter_ t)) as [[l c] started] eqn:Hs.
  assert (Hl : (forall x, x ∈ waiting (list_ l) -> x ∈ waiting (list_ (limiter_ t)) \/ x = next_id t) /\ (forall x, x ∈ started -> x = next_id t)).
  { unfold schedule, schedule_now in Hs. destruct (_ <? _); injection Hs as <- <- <-; simpl.
    - split; [by left|set_solver].
    - split; [|set_solver]. intros x. unfold waiting. rewrite omap_app. simpl. set_solver. }
  destruct Hl as [Hl1 Hl2]. change (set_limiter l (rewatch id t1)) with (rewatch id (set_limiter l t1)). apply commutes_bind.
  - apply commutes_jobs; [intros Hin; by apply Hl2 in Hin|]. destruct Ht1 as [H1 H2 H3]. split; simpl; try done.
    intros Hin%Hl1. destruct Hin as [Hin|Hin]; [by apply H2|congruence].
  - intros t2 Ht2. apply commutes_get; [done|]. intros r Hr. simpl. rewrite set_rewatch by done. split; [done|]. by apply over_set.
Qed.

(** *** Calls, with slots that commute *)

Definition commuting (emit : nat -> ThumbnailerImpl -> outcome ThumbnailerImpl) : Prop :=
  forall id i t, over id t -> commutes id (emit i t) (emit i (rewatch id t)).

Section Emit.
Context (emit : nat -> ThumbnailerImpl -> outcome ThumbnailerImpl) (Hemit : commuting emit).

Lemma commutes_emit id i r t : i <> id -> over id t ->
  commutes id (emit i (Client.set_request i r t)) (emit i (Client.set_request i r (rewatch id t))).
Proof. intros Hne Ht. rewrite set_rewatch by done. by apply Hemit, over_set. Qed.

Lemma commutes_finished id i rep t : i <> id -> over id t ->
  commutes id (dbusCallFinished fromData emit i rep t) (dbusCallFinished fromData emit i rep (rewatch id t)).
Proof.
  intros Hne Ht. apply commutes_get; [done|]. intros r Hr. apply commutes_assert, commutes_bind.
  { destruct (_ || _); [by apply commutes_pump|done]. }
  intros t1 Ht1. apply commutes_get; [done|]. intros r1 Hr1. destruct (cancelled_ r1).
  - apply commutes_bind; [by apply commutes_emit|]. intros t2 Ht2. apply commutes_get; [done|]. intros r2 Hr2. by apply commutes_assert.
  - apply commutes_assert. destruct rep as [ba|msg]; [|by apply commutes_emit].
    apply commutes_bind; [by apply commutes_emit|]. intros t2 Ht2. apply commutes_get; [done|]. intros r2 Hr2. simpl.
    rewrite set_rewatch by done. split; [done|]. by apply over_set.
Qed.

Lemma commutes_wait id i rep t : over id t ->
  commutes id (waitForFinished fromData emit i rep t) (waitForFinished fromData emit i rep (rewatch id t)).
Proof.
  intros Ht. destruct (decide (i = id)) as [-> |Hne].
  { destruct (over_get id t Ht) as (r & Hr & Hf & H1 & H2). unfold waitForFinished. rewrite H1, H2. simpl. by rewrite Hf. }
  apply commutes_get; [done|]. intros r Hr. destruct (_ || _); [done|]. apply (commutes_cancel_func _ _ _ _ _ tt Ht).
  intros t1 w Ht1. apply commutes_bind.
  - destruct w; [|done]. apply commutes_assert. unfold schedule_now. change (limiter_ (rewatch id t1)) with (limiter_ t1).
    match goal with |- commutes _ (run_jobs _ (set_limiter ?l _)) _ =>
      change (set_limiter l (rewatch id t1)) with (rewatch id (set_limiter l t1)) end.
    apply commutes_jobs; [set_solver|]. by apply over_limiter.
  - intros t2 Ht2. apply commutes_get; [done|]. intros r2 Hr2. destruct (watcher_ r2); [by apply commutes_finished|done].
Qed.

Lemma commutes_call id c t : (forall j, c <> CallDestroy j) -> over id t ->
  commutes id (exec_call fromData emit c t) (exec_call fromData emit c (rewatch id t)).
Proof.
  intros Hc Ht. destruct c as [d v|i|i rep|i]; simpl.
  - by apply commutes_create.
  - by apply commutes_cancel.
  - by apply commutes_wait.
  - by destruct (Hc i).
Qed.

(** *** The end of a request, and its slots at the end *)

Lemma drop_rewatch id t : over id t -> drop_watcher id (rewatch id t) = Ok t.
Proof.
  intros [(r & Hr & Hf & Hw) _ _]. unfold drop_watcher, get_request. simpl. rewrite lookup_alter_eq, Hr. simpl.
  unfold Client.set_request, rewatch. simpl. destruct t as [l q p n]. simpl in *. do 2 f_equal. apply map_eq. intros j.
  destruct (decide (j = id)) as [-> |Hne]; [|by rewrite lookup_insert_ne, lookup_alter_ne].
  rewrite lookup_insert_eq, Hr. f_equal. destruct r. simpl in *. by subst.
Qed.

Lemma finished_eq id rep t : (forall t', Client.dbusCallFinished fromData id rep t = Ok t' -> over id t') ->
  dbusCallFinished fromData emit id rep t = finished_later fromData emit id rep t.
Proof.
  unfold dbusCallFinished, finished_later, Client.dbusCallFinished. intros Hover.
  destruct (get_request id t) as [r|e|c]; [|done..]. cbn [mbind outcome_bind] in *.
  destruct (assert_ _ _) as [[]|e|c]; [|done..]. cbn [mbind outcome_bind] in *.
  destruct (if _ || _ then _ else _) as [t1|e|c]; [|done..]. cbn [mbind outcome_bind] in *.
  destruct (get_request id t1) as [r1|e|c]; [|done..]. cbn [mbind outcome_bind] in *.
  destruct (cancelled_ r1).
  - cbn [mbind outcome_bind] in *. set (t2 := Client.set_request id _ t1) in *.
    pose proof (Hemit id id t2 (Hover t2 eq_refl)) as Hc. destruct (emit id t2) as [t3|e|c]; [|done..].
    destruct Hc as [_ [(r3 & Hr3 & _ & Hw) _ _]]. unfold assert_no_watcher, get_request. simpl. by rewrite Hr3; simpl; rewrite Hw.
  - destruct (assert_ _ _) as [[]|e|c]; [|done..]. cbn [mbind outcome_bind] in *. destruct rep as [ba|msg]; [|done].
    cbn [mbind outcome_bind] in *. set (t2 := Client.set_request id _ t1) in *.
    replace (Client.set_request id (set_image fromData ba r1) t1) with (rewatch id t2).
    2: { unfold rewatch, t2, Client.set_request. simpl. by rewrite alter_insert_eq. }
    pose proof (Hemit id id t2 (Hover t2 eq_refl)) as Hc. destruct (emit id t2) as [t3|e|c]; simpl in *; [|by rewrite Hc..].
    destruct Hc as [-> Ht3]. simpl. by apply drop_rewatch.
Qed.
End Emit.

(** ** The slots of a program *)

Section Slots.
Context (slot : nat -> list call).

Lemma commutes_calls emit id (l : list call) : commuting emit -> (forall j, CallDestroy j ∉ l) -> forall t, over id t ->
  commutes id (run_calls (exec_call fromData emit) l t) (run_calls (exec_call fromData emit) l (rewatch id t)).
Proof.
  intros He. induction l as [|c l IH]; intros Hl t Ht; [done|]. cbn [run_calls].
  apply commutes_bind; [|intros t' Ht'; apply IH; [set_solver|done]].
  apply commutes_call; [done| |done]. intros j ->. by apply (Hl j), elem_of_cons; left.
Qed.

(** A request that has just finished. *)
Lemma finishes id rep t t' : Client.dbusCallFinished fromData id rep t = Ok t' ->
  exists r, requests t' !! id = Some r /\ finished_ r = true /\ watcher_ r = false.
Proof.
  unfold Client.dbusCallFinished. intros (r & _ & H)%outcome_bind_Ok. apply outcome_bind_Ok in H as (u & _ & H).
  apply outcome_bind_Ok in H as (t1 & _ & H). apply outcome_bind_Ok in H as (r1 & _ & H).
  destruct (cancelled_ r1); [injection H as <-; simpl; rewrite lookup_insert_eq; eauto|].
  apply outcome_bind_Ok in H as (u' & _ & H). destruct rep; injection H as <-; simpl; rewrite lookup_insert_eq; eauto.
Qed.

Lemma finished_over id t : Inv 0 None t -> (exists r, requests t !! id = Some r /\ finished_ r = true /\ watcher_ r = false) -> over id t.
Proof.
  intros HI (r & Hr & Hf & Hw). split; [eauto| |by eapply inv_id].
  unfold waiting. rewrite list_elem_of_omap. intros ([cell o] & Hin & Ho). simpl in Ho. subst o.
  apply (inv_slot _ _ _ HI) in Hin as (_ & r' & Hr' & _ & _ & Hf' & _). congruence.
Qed.

(** What the calls of a slot do, at the end, are events of the library. *)
Definition by_events (emit : nat -> ThumbnailerImpl -> outcome ThumbnailerImpl) : Prop :=
  forall i t t', Inv 0 None t -> emit i t = Ok t' -> rtc (Client.step fromData) t t'.

Lemma events_inv t t' : rtc (Client.step fromData) t t' -> Inv 0 None t -> Inv 0 None t'.
Proof.
  intros Hr. induction Hr as [|t1 t2 t3 (e & He & Hx) _ IH]; [done|]. intros HI. apply IH.
  destruct (exec_inv fromData e t1 HI He) as (t' & E & HI'). congruence.
Qed.

Lemma alive_of id (f : RequestImpl -> outcome ThumbnailerImpl) t t1 : get_request id t ≫= f = Ok t1 ->
  match requests t !! id with Some _ => true | None => false end = true.
Proof. intros (r & Hr & _)%outcome_bind_Ok. apply get_request_Ok in Hr. by rewrite Hr. Qed.

Lemma later_events emit c t t' : by_events emit ->
  Inv 0 None t -> exec_later fromData emit c t = Ok t' -> rtc (Client.step fromData) t t'.
Proof.
  intros He HI Hc. assert (Hex : forall e t1, enabled e t = true -> exec fromData e t = Ok t1 -> rtc (Client.step fromData) t t1).
  { intros e t1 Hen Hx. apply rtc_once. by exists e. }
  destruct c as [d v|i|i rep|i]; simpl in Hc.
  - by apply (Hex (Create d v)).
  - apply (Hex (Cancel i)); [|done]. by eapply alive_of.
  - pose proof (alive_of _ _ _ _ Hc) as Hl. unfold wait_later in Hc. apply outcome_bind_Ok in Hc as (r' & _ & Hc).
    apply outcome_bind_Ok in Hc as (t1 & Hw & Hc). pose proof (Hex (Wait i rep) t1 Hl Hw) as H1.
    destruct (_ || _); [by injection Hc as <-|]. etrans; [exact H1|]. eapply He; [|exact Hc]. by eapply events_inv.
  - apply (Hex (Destroy i)); [|done]. by eapply alive_of.
Qed.

Lemma calls_events emit (l : list call) : by_events emit ->
  forall t t', Inv 0 None t -> run_calls (exec_later fromData emit) l t = Ok t' -> rtc (Client.step fromData) t t'.
Proof.
  intros He. induction l as [|c l IH]; intros t t' HI; cbn [run_calls]; [by intros [= <-]|].
  intros (t1 & H1 & H2)%outcome_bind_Ok. pose proof (later_events _ _ _ _ He HI H1) as Hr.
  etrans; [exact Hr|]. eapply IH; [|exact H2]. by eapply events_inv.
Qed.

Lemma emit_events fuel : by_events (emit_later fromData slot fuel).
Proof. induction fuel as [|fuel IH]; intros i t t' HI; [done|]. cbn [emit_later]. by apply calls_events. Qed.

(** *** Slots return *)

(** How many requests have not finished. *)
Definition pending t : nat := length (filter (fun i => ClientApi.is_finished i t = false) (seq 0 (next_id t))).

(** Slots that cancel and wait for live requests. *)
Definition steady (l : list call) t : Prop :=
  forall c, c ∈ l -> match c with CallCancel i | CallWait i _ => is_Some (requests t !! i) | _ => False end.

(** No request is made or lost, and what has finished stays finished. *)
Record progress t t' : Prop := mkProgress {
  pg_next : next_id t' = next_id t;
  pg_live : forall i, is_Some (requests t !! i) -> is_Some (requests t' !! i);
  pg_finished : forall i, ClientApi.is_finished i t = true -> ClientApi.is_finished i t' = true
}.

#[local] Instance progress_preorder : PreOrder progress.
Proof. split; [by split|]. intros t1 t2 t3 [N1 L1 F1] [N2 L2 F2]. split; [congruence|auto..]. Qed.

Lemma steady_progress (l : list call) t t' : progress t t' -> steady l t -> steady l t'.
Proof. intros Hp Hs c Hc. specialize (Hs c Hc). destruct c; try done; by apply (pg_live _ _ Hp). Qed.

Lemma filter_mono {A} (P Q : A -> Prop) `{!forall x, Decision (P x), !forall x, Decision (Q x)} (l : list A) :
  (forall x, Q x -> P x) -> (length (filter Q l) <= length (filter P l))%nat /\
    forall x, x ∈ l -> P x -> ~ Q x -> (length (filter Q l) < length (filter P l))%nat.
Proof.
  intros Hi. induction l as [|y l [IH1 IH2]]; [split; [done|set_solver]|]. rewrite !filter_cons. split.
  - repeat case_decide; simpl; [lia|naive_solver|lia..].
  - intros x [-> |Hx]%elem_of_cons HP HQ; [|specialize (IH2 x Hx HP HQ)]; repeat case_decide; simpl; try lia; naive_solver.
Qed.

Lemma pending_progress t t' : progress t t' -> (pending t' <= pending t)%nat /\
    forall i, (i < next_id t)%nat -> ClientApi.is_finished i t = false -> ClientApi.is_finished i t' = true -> (pending t' < pending t)%nat.
Proof.
  intros [Hn _ Hf]. unfold pending. rewrite Hn.
  destruct (filter_mono (fun i => ClientApi.is_finished i t = false) (fun i => ClientApi.is_finished i t' = false) (seq 0 (next_id t))) as [H1 H2].
  { intros i Hi. specialize (Hf i). destruct (ClientApi.is_finished i t); [|done]. by rewrite Hf in Hi. }
  split; [done|]. intros i Hi H3 H4. apply (H2 i); [apply elem_of_seq; lia|done|by rewrite H4].
Qed.

(** Of the events that make and destroy nothing. *)
Lemma changes_progress w who t t' : ClientApi.changes fromData w who t t' -> next_id t' = next_id t ->
  (forall i, who = Some i -> is_Some (requests t !! i)) -> progress t t'.
Proof.
  intros [H1 H2] Hn Hl.
  assert (Hc : forall i, is_Some (requests t !! i) -> exists s s', ClientApi.status_of i t = Some s /\
    ClientApi.status_of i t' = Some s' /\ (ClientApi.s_finished s = true -> ClientApi.s_finished s' = true)).
  { intros i [r Hr]. exists (ClientApi.status r). assert (Hs : ClientApi.status_of i t = Some (ClientApi.status r)) by (unfold ClientApi.status_of; by rewrite Hr).
    destruct (decide (who = Some i)) as [E|Hne].
    - specialize (H1 i E). rewrite Hs in H1. destruct (ClientApi.status_of i t') as [s'|]; [|inversion H1].
      exists s'. split_and!; [done|done|]. by eapply ClientApi.change_finished.
    - exists (ClientApi.status r). rewrite (H2 i Hne), Hs. done. }
  split; [done| |].
  - intros i (s & s' & _ & Hs' & _)%Hc. apply ClientApi.status_Some in Hs' as (r & Hr & _). by exists r.
  - intros i Hf. destruct (requests t !! i) as [r|] eqn:Hr; [|unfold ClientApi.is_finished in Hf; by rewrite Hr in Hf].
    destruct (Hc i) as (s & s' & Hs & Hs' & Hm); [by exists r|]. rewrite ClientApi.finished_status, Hs in Hf. rewrite ClientApi.finished_status, Hs'. auto.
Qed.

Lemma finished_progress id rep t t' : Client.dbusCallFinished fromData id rep t = Ok t' ->
  progress t t' /\ ClientApi.is_finished id t = false /\ ClientApi.is_finished id t' = true.
Proof.
  intros H. destruct (ClientApi.changes_finished _ _ _ _ _ H) as [Hc Hn]. destruct (ClientApi.finished_change _ _ _ _ _ H) as (H1 & _ & H2 & _).
  split_and!; [|done..]. eapply changes_progress; [exact Hc|done|]. intros i [= <-]. unfold Client.dbusCallFinished in H.
  apply outcome_bind_Ok in H as (r & Hr & _). apply get_request_Ok in Hr. by exists r.
Qed.

Lemma wait_progress id rep t t' r : requests t !! id = Some r -> Client.waitForFinished fromData id rep t = Ok t' ->
  progress t t' /\ (finished_ r || cancelled_ r = false -> ClientApi.is_finished id t' = true).
Proof.
  intros Hr H. destruct (ClientApi.wait_changes _ _ _ _ _ H) as [Hc Hn]. split.
  { eapply changes_progress; [exact Hc|done|]. intros i [= <-]. by exists r. }
  intros Hf. unfold Client.waitForFinished in H. apply outcome_bind_Ok in H as (r' & Hr' & H).
  apply get_request_Ok in Hr'. assert (r' = r) as -> by congruence. rewrite Hf in H.
  apply outcome_bind_Ok in H as ([t1 w] & _ & H). apply outcome_bind_Ok in H as (t2 & _ & H).
  apply outcome_bind_Ok in H as (r2 & _ & H). destruct (watcher_ r2); [|done]. by apply finished_progress in H as (_ & _ & ?).
Qed.

(** Slots with at most [n] unfinished requests left. *)
Definition returns (n : nat) (emit : nat -> ThumbnailerImpl -> outcome ThumbnailerImpl) : Prop :=
  forall i t, Inv 0 None t -> (forall j, steady (slot j) t) -> (pending t < n)%nat ->
    exists t', emit i t = Ok t' /\ Inv 0 None t' /\ progress t t'.

Lemma wait_returns n emit i rep t : returns n emit -> Inv 0 None t -> (forall j, steady (slot j) t) -> (pending t <= n)%nat ->
  is_Some (requests t !! i) -> exists t', wait_later fromData emit i rep t = Ok t' /\ Inv 0 None t' /\ progress t t'.
Proof.
  intros He HI Hs Hn [r Hr]. unfold wait_later. assert (Hg : get_request i t = Ok r) by (by apply get_request_Ok).
  destruct (wait_inv fromData i rep t HI) as (t1 & Hw & HI1 & _); [simpl; by rewrite Hr|]. simpl in Hw.
  destruct (wait_progress _ _ _ _ _ Hr Hw) as [Hp Hf]. rewrite Hg, Hw. cbn [mbind outcome_bind].
  destruct (finished_ r || cancelled_ r) eqn:Hfc; [eauto|]. apply orb_false_iff in Hfc as [Hf1 _].
  destruct (He i t1) as (t2 & H2 & HI2 & Hp2); [done|intros j; by eapply steady_progress| |].
  - apply pending_progress in Hp as [_ Hlt]. specialize (Hlt i). apply (Nat.lt_le_trans _ (pending t)); [|done].
    apply Hlt; [by eapply inv_id|unfold ClientApi.is_finished; by rewrite Hr|by apply Hf].
  - exists t2. split_and!; [done|done|by etrans].
Qed.

Lemma calls_return n emit (l : list call) : returns n emit -> forall t, Inv 0 None t -> (forall j, steady (slot j) t) -> steady l t ->
  (pending t <= n)%nat -> exists t', run_calls (exec_later fromData emit) l t = Ok t' /\ Inv 0 None t' /\ progress t t'.
Proof.
  intros He. induction l as [|c l IH]; intros t HI Hs Hl Hn; [by exists t|]. cbn [run_calls].
  assert (H1 : exists t1, exec_later fromData emit c t = Ok t1 /\ Inv 0 None t1 /\ progress t t1).
  { pose proof (Hl c ltac:(apply elem_of_cons; by left)) as Hc. destruct c as [d v|i|i rep|i]; try done; simpl; [|by eapply wait_returns].
    destruct (exec_inv fromData (Cancel i) t HI) as (t1 & H1 & HI1); [simpl; by destruct Hc as [r ->]|]. exists t1. split_and!; [done|done|].
    simpl in H1. destruct (ClientApi.cancel_changes fromData _ _ _ H1) as (Hch & Hnx & _). eapply changes_progress; [exact Hch|done|]. by intros j [= <-]. }
  destruct H1 as (t1 & -> & HI1 & Hp). cbn [mbind outcome_bind]. destruct (IH t1) as (t' & H' & HI' & Hp'); [done|intros j; by eapply steady_progress| | |].
  - intros c' Hc'. by eapply (steady_progress (c :: l)); [exact Hp|exact Hl|apply elem_of_cons; right].
  - apply pending_progress in Hp as [? _]. lia.
  - exists t'. split_and!; [done|done|by etrans].
Qed.

Lemma emit_returns fuel : returns fuel (emit_later fromData slot fuel).
Proof.
  induction fuel as [|fuel IH]; intros i t HI Hs Hn; [lia|]. cbn [emit_later]. apply (calls_return fuel); [done..|apply Hs|lia].
Qed.

(** *** Slots that destroy nothing *)

Context (keeps_requests : forall i j, CallDestroy j ∉ slot i).

Lemma emit_commutes fuel : commuting (emit_finished fromData slot fuel).
Proof.
  induction fuel as [|fuel IH]; intros id i t Ht; [done|]. cbn [emit_finished]. by apply commutes_calls.
Qed.

(** A wait in the slot and a wait at the end. *)
Lemma wait_eq (emit emit' : nat -> ThumbnailerImpl -> outcome ThumbnailerImpl) id rep t : commuting emit -> Inv 0 None t ->
  (forall t', Inv 0 None t' -> emit id t' = emit' id t') ->
  waitForFinished fromData emit id rep t = wait_later fromData emit' id rep t.
Proof.
  intros Hc HI He. unfold waitForFinished, wait_later. destruct (requests t !! id) as [r|] eqn:Hr; [|by unfold get_request; rewrite Hr].
  destruct (wait_inv fromData id rep t HI) as (tw & Hw & HIw & _); [simpl; by rewrite Hr|]. simpl in Hw. rewrite Hw.
  assert (Hg : get_request id t = Ok r) by (by apply get_request_Ok). unfold Client.waitForFinished in Hw. rewrite Hg in *.
  cbn [mbind outcome_bind] in *. destruct (_ || _); [done|]. rewrite <- (He tw) by done.
  destruct (call_cancel_func r t) as [[t1 w]|e|c]; [|done..]. cbn [mbind outcome_bind] in *.
  destruct (if w then _ else _) as [t2|e|c]; [|done..]. cbn [mbind outcome_bind] in *.
  destruct (get_request id t2) as [r2|e|c]; [|done..]. cbn [mbind outcome_bind] in *. destruct (watcher_ r2); [|done].
  rewrite finished_eq; [unfold finished_later; by rewrite Hw|done|]. intros t' Ht'. assert (t' = tw) as -> by congruence.
  apply finished_over; [done|]. by eapply finishes.
Qed.

Lemma calls_eq emit emit' (l : list call) : commuting emit -> (forall i t, Inv 0 None t -> emit i t = emit' i t) ->
  by_events emit' -> forall t, Inv 0 None t ->
  run_calls (exec_call fromData emit) l t = run_calls (exec_later fromData emit') l t.
Proof.
  intros Hc He Hinv. induction l as [|c l IH]; intros t HI; [done|]. cbn [run_calls].
  replace (exec_call fromData emit c t) with (exec_later fromData emit' c t).
  2: { destruct c; simpl; try done. symmetry. apply wait_eq; auto. }
  destruct (exec_later fromData emit' c t) as [t'|e|k] eqn:Hx; [|done..]. apply IH. eapply events_inv; [|exact HI]. by eapply later_events.
Qed.

Lemma emit_eq fuel : forall i t, Inv 0 None t -> emit_finished fromData slot fuel i t = emit_later fromData slot fuel i t.
Proof.
  induction fuel as [|fuel IH]; intros i t HI; [done|]. cbn [emit_finished emit_later].
  apply calls_eq; [apply emit_commutes|done|apply emit_events|done].
Qed.

Lemma slots_then t e fuel : Inv 0 None t -> enabled e t = true ->
  exec_slots fromData slot fuel e t = exec_then_slots fromData slot fuel e t.
Proof.
  intros HI He. unfold exec_slots, exec_then_slots.
  assert (Hfin : forall id rep t1 t', Client.dbusCallFinished fromData id rep t1 = Ok t' -> Inv 0 None t' ->
    dbusCallFinished fromData (emit_finished fromData slot fuel) id rep t1 =
      finished_later fromData (emit_later fromData slot fuel) id rep t1).
  { intros id rep t1 t' Ht' HI'. rewrite finished_eq; [|apply emit_commutes|].
    - unfold finished_later. rewrite Ht'. simpl. by apply emit_eq.
    - intros t2 Ht2. assert (t2 = t') as -> by congruence. apply finished_over; [done|]. by eapply finishes. }
  destruct (exec_inv fromData e t HI He) as (t' & Ht' & HI'). destruct e as [d v|id rep| |id|id rep|id]; simpl in *; try done.
  - by eapply Hfin.
  - destruct (posted t) as [|[|id] rest]; [done|done|]. by eapply Hfin.
  - apply wait_eq; [apply emit_commutes|done|]. intros t2 HI2. by apply emit_eq.
Qed.

(** C15. A program can call the library from the slot of [finished()]: create, cancel and
    wait for requests, other slots running inside its own.  As long as slots destroy
    no request, every event of the client library does exactly what it does when
    the slots make their calls after it, at any depth of nested waits. *)
Theorem slots_run_after dflt config t0 t e fuel :
  init dflt config = Ok t0 -> rtc (Client.step fromData) t0 t -> enabled e t = true ->
  exec_slots fromData slot fuel e t = exec_then_slots fromData slot fuel e t.
Proof. intros H0 Hr. apply slots_then. by eapply reachable_inv. Qed.
End Slots.

(** The slots after an event. *)
Lemma finished_returns slot fuel id rep t : Inv 0 None t -> (forall i, steady (slot i) t) -> (pending t <= fuel)%nat ->
  forall t1, Client.dbusCallFinished fromData id rep t = Ok t1 -> Inv 0 None t1 ->
  exists t', finished_later fromData (emit_later fromData slot fuel) id rep t = Ok t'.
Proof.
  intros HI Hs Hn t1 H1 HI1. unfold finished_later. rewrite H1. destruct (finished_progress _ _ _ _ H1) as (Hp & Hf & Hf1).
  destruct (emit_returns slot fuel id t1) as (t' & H' & _); [done|intros j; by eapply steady_progress| |by exists t'].
  apply (Nat.lt_le_trans _ (pending t)); [|done]. apply (proj2 (pending_progress _ _ Hp) id); [|done..].
  unfold Client.dbusCallFinished in H1. apply outcome_bind_Ok in H1 as (r & Hr & _). apply get_request_Ok in Hr. by eapply inv_id.
Qed.

Lemma then_returns slot fuel e t : Inv 0 None t -> enabled e t = true -> (forall i, steady (slot i) t) -> (pending t <= fuel)%nat ->
  exists t', exec_then_slots fromData slot fuel e t = Ok t'.
Proof.
  intros HI He Hs Hn. destruct (exec_inv fromData e t HI He) as (t1 & H1 & HI1). unfold exec_then_slots.
  destruct e as [d v|id rep| |id|id rep|id]; simpl in *; try by eauto.
  - by eapply finished_returns.
  - destruct (posted t) as [|[|id] rest] eqn:Hp; [by eauto|by eauto|]. destruct (finished_progress _ _ _ _ H1) as ([Hnx Hl Hf] & H2 & H3).
    assert (Hpr : progress t t1) by (by split).
    unfold finished_later. rewrite H1. cbn [mbind outcome_bind].
    destruct (emit_returns slot fuel id t1) as (t' & H' & _); [done|intros j; by eapply steady_progress| |by exists t'].
    apply (Nat.lt_le_trans _ (pending t)); [|done]. apply (proj2 (pending_progress _ _ Hpr) id); [|done..].
    destruct (inv_fake _ _ _ HI id) as (_ & r & Hr & _); [rewrite Hp; set_solver|by eapply inv_id].
  - destruct (wait_returns slot fuel (emit_later fromData slot fuel) id rep t) as (t' & H' & _); eauto using emit_returns.
    destruct (requests t !! id); [by eexists|done].
Qed.

Lemma then_events slot fuel e t t' : Inv 0 None t -> enabled e t = true ->
  exec_then_slots fromData slot fuel e t = Ok t' -> rtc (Client.step fromData) t t'.
Proof.
  intros HI He. destruct (exec_inv fromData e t HI He) as (t1 & H1 & HI1). assert (Hst : rtc (Client.step fromData) t t1) by (apply rtc_once; by exists e).
  assert (Hem : forall id, emit_later fromData slot fuel id t1 = Ok t' -> rtc (Client.step fromData) t t').
  { intros id Hx. etrans; [exact Hst|]. by eapply emit_events. }
  unfold exec_then_slots. assert (Hsame : Ok t1 = Ok t' -> rtc (Client.step fromData) t t') by (by intros [= <-]).
  destruct e as [d v|id rep| |id|id rep|id]; simpl in *; try by rewrite H1.
  - unfold finished_later. rewrite H1. apply Hem.
  - destruct (posted t) as [|[|id] rest]; try by rewrite H1. unfold finished_later. rewrite H1. apply Hem.
  - unfold wait_later. rewrite H1. intros (r & _ & H)%outcome_bind_Ok. cbn [mbind outcome_bind] in H.
    destruct (_ || _); [by simplify_eq|by eapply Hem].
Qed.

(** C17. Slots that cancel and wait for live requests, nested in any way, always return:
    with [fuel] for the requests that have not finished every event completes, and
    it and its slots leave a state that events without slots lead to, so that the
    properties of the library hold in it. *)
Theorem slots_return slot dflt config t0 t e fuel :
  init dflt config = Ok t0 -> rtc (Client.step fromData) t0 t -> enabled e t = true ->
  (forall i, steady (slot i) t) -> (pending t <= fuel)%nat ->
  exists t', exec_slots fromData slot fuel e t = Ok t' /\ rtc (Client.step fromData) t t'.
Proof.
  intros H0 Hr He Hs Hn. pose proof (reachable_inv _ _ _ _ _ H0 Hr) as HI.
  rewrite (slots_then slot) by (done || intros i j Hc; exact (Hs i _ Hc)).
  destruct (then_returns _ _ _ _ HI He Hs Hn) as (t' & Ht'). exists t'. split; [done|]. by eapply then_events.
Qed.
End Commute.

(** ** Witnesses, and a slot that destroys its request *)

(** Two requests sent, one in the queue; the slot of the first makes another request,
    waits for the second, whose slot waits for the third, and cancels. *)
Definition three : @ThumbnailerImpl string :=
  match replay decode [Create "a" true; Create "b" true; Create "c" true] (Ok (mkThumbnailer (mkLimiter 2 0 [] 0) ∅ [] 0)) with
  | Ok t => t | _ => Client.idle
  end.

Definition nested (i : nat) : list call :=
  match i with
  | 0%nat => [CallCreate "d" true; CallWait 1 (ReplyValue "img b"); CallCancel 3]
  | 1%nat => [CallWait 2 (ReplyError "no c"); CallCancel 1]
  | _ => []
  end.

Lemma slots_run_after_witness :
  exists t, exec_slots decode nested 5 (Reply 0 (ReplyValue "img a")) three = Ok t /\
    (fun r => (finished_ r, is_valid_ r, cancelled_ r)) <$> requests t =
      {[0%nat := (true, true, false); 1%nat := (true, true, false); 2%nat := (true, false, false); 3%nat := (false, false, true)]}.
Proof.
  rewrite (slots_run_after decode nested ltac:(intros [|[|]] j; set_solver) 10 (Some 2) (mkThumbnailer (mkLimiter 2 0 [] 0) ∅ [] 0) three
    (Reply 0 (ReplyValue "img a")) 5).
  - eexists. split; vm_compute; reflexivity.
  - reflexivity.
  - apply (replay_rtc decode [Create "a" true; Create "b" true; Create "c" true]). vm_compute. reflexivity.
  - vm_compute. reflexivity.
Defined.

(** Waits and cancellations in each other's slots. *)
Definition waiting_slots (i : nat) : list call :=
  match i with
  | 0%nat => [CallWait 1 (ReplyValue "img b"); CallCancel 2; CallWait 2 (ReplyError "no c")]
  | 1%nat => [CallCancel 0; CallWait 2 (ReplyError "no c"); CallWait 0 (ReplyError "again")]
  | _ => [CallWait 0 (ReplyError "again")]
  end.

Lemma slots_return_witness :
  pending three = 3%nat /\ exists t', exec_slots decode waiting_slots 3 (Reply 0 (ReplyValue "img a")) three = Ok t' /\ rtc (Client.step decode) three t'.
Proof.
  split; [vm_compute; reflexivity|].
  apply (slots_return decode waiting_slots 10 (Some 2) (mkThumbnailer (mkLimiter 2 0 [] 0) ∅ [] 0) three).
  - reflexivity.
  - apply (replay_rtc decode [Create "a" true; Create "b" true; Create "c" true]). vm_compute. reflexivity.
  - vm_compute. reflexivity.
  - intros [|[|i]] c Hc; repeat (apply elem_of_cons in Hc as [-> |Hc]; [vm_compute; by eexists|]); by apply elem_of_nil in Hc.
  - vm_compute. lia.
Defined.

(** A slot that destroys its own request: nothing happens when the reply is an error,
    as [finishWithError] is the last thing done; an image is delivered by a request
    that goes on to use its members; a cancelled request is looked at by an
    assertion. *)
Definition self_destroying (i : nat) : list call := [CallDestroy i].

Definition one : @ThumbnailerImpl string :=
  match replay decode [Create "a" true] (Ok Client.idle) with Ok t => t | _ => Client.idle end.
Definition one_cancelled : @ThumbnailerImpl string :=
  match replay decode [Create "a" true; Cancel 0] (Ok Client.idle) with Ok t => t | _ => Client.idle end.

Lemma destroyed_in_its_slot :
  is_ok (dbusCallFinished decode (emit_finished decode self_destroying 2) 0 (ReplyError "x") one) = true /\
  dbusCallFinished decode (emit_finished decode self_destroying 2) 0 (ReplyValue "img") one = Crash (Undefined "use of a destroyed request") /\
  dbusCallFinished decode (emit_finished decode self_destroying 2) 0 (ReplyValue "img") one_cancelled = Crash (Undefined "use of a destroyed request").
Proof. vm_compute. repeat split; reflexivity. Qed.
End ClientSlots.
