(* ===== verification/QmlPlugin.v ===== *)
(** * The QML plugin (src/plugins/Ubuntu/Thumbnailer.0.1)

    Three image providers turn an image id into a request of ClientApi.v, and a
    response object per image passes the request's [finished] on to the QML
    engine.  The slots of a signal run inside the emission, as the events of the
    library report it. *)

From S2P Require Import Prelude CxxLib QtSize Client ClientApi.
Import Cxx QtSize Client ClientApi.

Module QmlPlugin.

Section Defs.
Context {Img : Type} (fromData : string -> option Img).
(** [QUrl(id).path()], and [QUrlQuery(id)]'s [hasQueryItem()] and
    [queryItemValue(.., QUrl::FullyDecoded)]. *)
Context (url_path : string -> string) (hasQueryItem : string -> string -> bool)
  (queryItemValue : string -> string -> string).
(** [QQuickTextureFactory::textureFactoryForImage()], which makes none of a null image. *)
Context {Texture : Type} (textureFactoryForImage : option Img -> option Texture).
Notation Library := (@Library Img).

(** [ThumbnailerImageResponse], with the number of times it has emitted its own
    [finished]. *)
Record Response : Type := mkResponse { request_ : option nat; error_message_ : string; finishes : nat }.

(** The library the generators share; the responses alive; and the responses with
    a queued [finished]. *)
Record Plugin : Type := mkPlugin {
  thumbnailer : Library;
  responses : gmap nat Response;
  queued : list nat;
  next_response : nat
}.

Definition with_library (l : Library) (p : Plugin) : Plugin := mkPlugin l (responses p) (queued p) (next_response p).
Definition with_responses (m : gmap nat Response) (p : Plugin) : Plugin :=
  mkPlugin (thumbnailer p) m (queued p) (next_response p).

(** *** [ThumbnailerImageResponse] *)

(** The two constructors. *)
Definition response_of_request (request : nat) (p : Plugin) : Plugin * nat :=
  let i := next_response p in
  (mkPlugin (thumbnailer p) (<[i := mkResponse (Some request) "" 0]> (responses p)) (queued p) (S i), i).
Definition response_of_error (error_message : string) (p : Plugin) : Plugin * nat :=
  let i := next_response p in
  (mkPlugin (thumbnailer p) (<[i := mkResponse None error_message 0]> (responses p)) (queued p ++ [i]) (S i), i).

Definition deref (i : nat) (p : Plugin) : outcome Response :=
  match responses p !! i with Some r => Ok r | None => Crash (Undefined "ThumbnailerImageResponse: lifetime") end.

(** The slot, and the signal it emits. *)
Definition requestFinished (request : @RequestImpl Img) (r : Response) : Response :=
  mkResponse (request_ r) (if negb (isValid request) then errorMessage request else error_message_ r) (S (finishes r)).

(** [request]'s [finished]: the slots connected to it. *)
Definition signal (id : nat) (p : Plugin) : outcome Plugin :=
  request ← get_request id (impl (thumbnailer p));
  Ok (with_responses ((fun r => if bool_decide (request_ r = Some id) then requestFinished request r else r) <$> responses p) p).

Fixpoint run_signals (now : list nat) (p : Plugin) : outcome Plugin :=
  match now with [] => Ok p | id :: now => p ← signal id p; run_signals now p end.

(** An event of the library, with the slots it runs. *)
Definition library_event (e : api_event) (p : Plugin) : outcome Plugin :=
  r ← api_exec fromData e (thumbnailer p);
  run_signals (snd r) (with_library (fst r) p).

Definition textureFactory (i : nat) (p : Plugin) : outcome (option Texture) :=
  r ← deref i p;
  match request_ r with
  | Some id => request ← get_request id (impl (thumbnailer p)); Ok (if isValid request then textureFactoryForImage (image request) else None)
  | None => Ok None
  end.

Definition errorString (i : nat) (p : Plugin) : outcome string := r ← deref i p; Ok (error_message_ r).

Definition cancel (i : nat) (p : Plugin) : outcome Plugin :=
  r ← deref i p;
  match request_ r with
  | Some id =>
      request ← get_request id (impl (thumbnailer p));
      if negb (isFinished request) && negb (isCancelled request) then library_event (CancelRequest id) p else Ok p
  | None => Ok p
  end.

(** The destructor, which cancels, drops the only reference to the request, and
    takes the calls queued for the response with it. *)
Definition destroy (i : nat) (p : Plugin) : outcome Plugin :=
  p ← cancel i p;
  r ← deref i p;
  let p := mkPlugin (thumbnailer p) (delete i (responses p)) (List.filter (fun j => negb (Nat.eqb j i)) (queued p)) (next_response p) in
  match request_ r with
  | Some id => library_event (DestroyRequest id) p
  | None => Ok p
  end.

(** *** The providers *)

Inductive provider : Type := ThumbnailGenerator | AlbumArtGenerator | ArtistArtGenerator.

Definition respond (made : outcome (Library * nat)) (p : Plugin) : outcome (Plugin * nat) :=
  r ← made;
  Ok (response_of_request (snd r) (with_library (fst r) p)).

Definition requestThumbnail (id : string) (requestedSize : QSize) (p : Plugin) : outcome (Plugin * nat) :=
  let src_path := url_path id in
  respond (getThumbnail src_path requestedSize (thumbnailer p)) p.

Definition requestAlbumArt (id : string) (requestedSize : QSize) (p : Plugin) : outcome (Plugin * nat) :=
  if negb (hasQueryItem id "artist") || negb (hasQueryItem id "album")
  then Ok (response_of_error ("Invalid albumart ID: " +:+ id) p)
  else respond (getAlbumArt (queryItemValue id "artist") (queryItemValue id "album") requestedSize (thumbnailer p)) p.

Definition requestArtistArt (id : string) (requestedSize : QSize) (p : Plugin) : outcome (Plugin * nat) :=
  if negb (hasQueryItem id "artist") || negb (hasQueryItem id "album")
  then Ok (response_of_error ("Invalid artistart ID: " +:+ id) p)
  else respond (getArtistArt (queryItemValue id "artist") (queryItemValue id "album") requestedSize (thumbnailer p)) p.

Definition requestImageResponse (g : provider) (id : string) (requestedSize : QSize) (p : Plugin) : outcome (Plugin * nat) :=
  match g with
  | ThumbnailGenerator => requestThumbnail id requestedSize p
  | AlbumArtGenerator => requestAlbumArt id requestedSize p
  | ArtistArtGenerator => requestArtistArt id requestedSize p
  end.

(** [ThumbnailerPlugin::initializeEngine]: [addImageProvider] of the engine may
    fail; the providers added, and the warnings. *)
Definition add_provider (addImageProvider : string -> outcome unit) (name : string) (s : list string * list string)
    : outcome (list string * list string) :=
  match addImageProvider name with
  | Ok _ => Ok (fst s ++ [name], snd s)
  | Throw e =>
      let text := "ThumbnailerPlugin::initializeEngine(): Failed to register " +:+ name +:+ " image provider: " in
      Ok (fst s, snd s ++ [text +:+ (if is_std e then exn_what e else "unknown exception")])
  | Crash f => Crash f
  end.

Definition initializeEngine (addImageProvider : string -> outcome unit) : outcome (list string * list string) :=
  s ← add_provider addImageProvider "albumart" ([], []);
  s ← add_provider addImageProvider "artistart" s;
  add_provider addImageProvider "thumbnailer" s.

(** *** Events *)

Inductive qml_event : Type :=
  | RequestImage (g : provider) (id : string) (requestedSize : QSize)
  | LibraryEvent (e : api_event)          (* a reply, or a queued call or signal of the library *)
  | DeliverFinished                       (* the oldest queued [finished] of a response *)
  | CancelResponse (i : nat)
  | DeleteResponse (i : nat).

Definition qml_enabled (e : qml_event) (p : Plugin) : bool :=
  match e with
  | RequestImage _ _ _ => true
  | LibraryEvent (BusReply _ _ as e) | LibraryEvent (DeliverCall as e) | LibraryEvent (DeliverSignal as e) =>
      api_enabled e (thumbnailer p)
  | LibraryEvent _ => false
  | DeliverFinished => match queued p with [] => false | _ => true end
  | CancelResponse i | DeleteResponse i => bool_decide (is_Some (responses p !! i))
  end.

Definition qml_exec (e : qml_event) (p : Plugin) : outcome Plugin :=
  match e with
  | RequestImage g id requestedSize => r ← requestImageResponse g id requestedSize p; Ok (fst r)
  | LibraryEvent e => library_event e p
  | DeliverFinished =>
      match queued p with
      | [] => Ok p
      | i :: rest =>
          r ← deref i p;
          Ok (mkPlugin (thumbnailer p) (<[i := mkResponse (request_ r) (error_message_ r) (S (finishes r))]> (responses p)) rest (next_response p))
      end
  | CancelResponse i => cancel i p
  | DeleteResponse i => destroy i p
  end.

Definition qml_step (p p' : Plugin) : Prop := exists e, qml_enabled e p = true /\ qml_exec e p = Ok p'.

(** The plugin before the first image. *)
Definition plugin (lib : Library) : Plugin := mkPlugin lib ∅ [] 0.

(** ** Lemmas *)

Implicit Types (p : Plugin) (r : Response) (lib : Library).

(** What a response knows, given the status of its request. *)
Definition tracks lib r (s : @Status Img) (id : nat) : Prop :=
  finishes r = times id (emitted lib) /\
  error_message_ r = if (0 <? finishes r)%nat && negb (s_valid s) then s_error s else "".

Record QInv p : Prop := mkQInv {
  q_lib : ApiInv (thumbnailer p);
  q_request : forall i r id, responses p !! i = Some r -> request_ r = Some id ->
    exists s, status_of id (impl (thumbnailer p)) = Some s /\ tracks (thumbnailer p) r s id;
  q_error : forall i r, responses p !! i = Some r -> request_ r = None ->
    (finishes r + times i (queued p))%nat = 1%nat /\ error_message_ r <> "";
  q_queued : forall i, i ∈ queued p -> exists r, responses p !! i = Some r /\ request_ r = None;
  q_distinct : forall i j r r' id, responses p !! i = Some r -> responses p !! j = Some r' ->
    request_ r = Some id -> request_ r' = Some id -> i = j;
  q_new : forall i, is_Some (responses p !! i) -> (i < next_response p)%nat
}.

(** The slots of at most one signal. *)
Lemma run_signals_spec now p : (now = [] \/ exists id, now = [id] /\ is_Some (requests (impl (thumbnailer p)) !! id)) ->
  exists f, run_signals now p = Ok (with_responses (f <$> responses p) p) /\
    forall r, request_ (f r) = request_ r /\
      match request_ r with
      | None => f r = r
      | Some id =>
          finishes (f r) = (finishes r + times id now)%nat /\
          forall s, status_of id (impl (thumbnailer p)) = Some s ->
            error_message_ (f r) = if (0 <? times id now)%nat && negb (s_valid s) then s_error s else error_message_ r
      end.
Proof.
  intros [-> |(id & -> & q & Hq)].
  - exists (fun r => r). split; [simpl; rewrite map_fmap_id; by destruct p|]. intros r. split; [done|].
    destruct (request_ r); [|done]. split; [unfold times; simpl; lia|done].
  - exists (fun r => if bool_decide (request_ r = Some id) then requestFinished q r else r).
    split; [simpl; unfold signal, get_request; by rewrite Hq|]. intros r. case_bool_decide as Hr.
    + split; [done|]. rewrite Hr. rewrite times_one, bool_decide_true by done. split; [simpl; lia|].
      intros s Hs. unfold status_of in Hs. rewrite Hq in Hs. apply (inj Some) in Hs as <-. done.
    + split; [done|]. destruct (request_ r) as [id'|]; [|done]. rewrite times_one, bool_decide_false by congruence.
      split; [lia|done].
Qed.

(** A status that was reported does not change any more. *)
Lemma tracks_effect lib lib' now r f s id :
  ApiInv lib -> effect lib lib' now -> status_of id (impl lib) = Some s -> tracks lib r s id ->
  finishes (f r) = (finishes r + times id now)%nat ->
  (forall s', status_of id (impl lib') = Some s' ->
     error_message_ (f r) = if (0 <? times id now)%nat && negb (s_valid s') then s_error s' else error_message_ r) ->
  exists s', status_of id (impl lib') = Some s' /\ tracks lib' (f r) s' id.
Proof.
  intros HA (_ & Hem & Hst) Hs [Hf He] Hf' He'. destruct (Hst id s Hs) as (s' & Hs' & Hfin). exists s'. split; [done|].
  split; [rewrite Hf', Hem; lia|]. rewrite (He' s' Hs'), Hf', He. clear Hf' He'.
  pose proof (ai_alive _ HA id s Hs) as Hal.
  destruct (times id now) as [|k]; simpl.
  - rewrite Nat.add_0_r. destruct (Nat.ltb_spec 0 (finishes r)) as [Hlt|_]; [|done].
    rewrite Hfin; [done|]. destruct (s_finished s); [done|]. simpl in Hal. lia.
  - assert (Hn : (0 <? finishes r + S k)%nat = true) by (apply Nat.ltb_lt; lia). rewrite Hn.
    destruct (s_valid s') eqn:Ev; [|done]. simpl. destruct (Nat.ltb_spec 0 (finishes r)) as [Hlt|_]; [|done].
    assert (s' = s) as ->; [apply Hfin; destruct (s_finished s); [done|simpl in Hal; lia]|]. by rewrite Ev.
Qed.

(** The responses of [p'] are those of [p], with the same requests. *)
Definition same_responses p p' : Prop :=
  queued p' = queued p /\ next_response p' = next_response p /\
  forall i, request_ <$> responses p' !! i = request_ <$> responses p !! i.

Lemma library_event_inv e p : QInv p -> api_enabled e (thumbnailer p) = true -> plain_event e = true ->
  exists p', library_event e p = Ok p' /\ QInv p' /\ same_responses p p' /\
    forall id, is_Some (status_of id (impl (thumbnailer p))) -> is_Some (status_of id (impl (thumbnailer p'))).
Proof.
  intros HQ He Hp. destruct HQ as [HA Hreq Herr Hq Hd Hn].
  destruct (api_effect fromData e (thumbnailer p) HA He Hp) as (lib' & now & Hx & HA' & Heff).
  unfold library_event. rewrite Hx. cbn [mbind outcome_bind fst snd].
  destruct (run_signals_spec now (with_library lib' p)) as (f & Hr & Hf); [apply Heff|]. rewrite Hr.
  assert (Hlook : forall i r', (f <$> responses p) !! i = Some r' -> exists r, responses p !! i = Some r /\ r' = f r).
  { intros i r'. rewrite lookup_fmap, fmap_Some. done. }
  eexists. split; [done|]. split_and!.
  - constructor; simpl; try done.
    + intros i r' id (r & Hi & ->)%Hlook Hid. destruct (Hf r) as [Hrq Hfr]. rewrite Hrq in Hid. rewrite Hid in Hfr.
      destruct (Hreq i r id Hi Hid) as (s & Hs & Htr). destruct Hfr as [H1 H2]. exact (tracks_effect _ _ now r f s id HA Heff Hs Htr H1 H2).
    + intros i r' (r & Hi & ->)%Hlook Hid. destruct (Hf r) as [Hrq Hfr]. rewrite Hrq in Hid. rewrite Hid in Hfr. rewrite Hfr.
      by apply Herr.
    + intros i Hi. destruct (Hq i Hi) as (r & Hr' & Hnone). exists (f r). rewrite lookup_fmap, Hr'. split; [done|].
      destruct (Hf r) as [-> _]. done.
    + intros i j r1 r2 id (r & Hi & ->)%Hlook (r' & Hj & ->)%Hlook. destruct (Hf r) as [-> _], (Hf r') as [-> _]. by eapply Hd.
    + intros i [r' (r & Hi & _)%Hlook]. apply Hn. by eexists.
  - split_and!; [done|done|]. simpl. intros i. rewrite lookup_fmap. destruct (responses p !! i) as [r|]; [|done]. simpl. by destruct (Hf r) as [-> _].
  - simpl. intros id [s Hs]. destruct Heff as (_ & _ & Hst). destruct (Hst id s Hs) as (s' & -> & _). done.
Qed.

Lemma add_response i r p : responses p !! i = None -> (next_response p <= i)%nat ->
  times i (queued p) = 0%nat ->
  forall lib q, QInv (with_library lib p) ->
    (match request_ r with
     | Some id => q = queued p /\ finishes r = 0%nat /\ error_message_ r = "" /\ is_Some (status_of id (impl lib)) /\
                  times id (emitted lib) = 0%nat /\ forall j r', responses p !! j = Some r' -> request_ r' <> Some id
     | None => q = queued p ++ [i] /\ finishes r = 0%nat /\ error_message_ r <> ""
     end) ->
    QInv (mkPlugin lib (<[i := r]> (responses p)) q (S i)).
Proof.
  intros Hi Hle Ht lib q [HA Hreq Herr Hq Hd Hn] Hr. simpl in *. constructor; simpl; [done|..].
  - intros j r' id Hj Hid. destruct (decide (j = i)) as [->|Hne].
    + rewrite lookup_insert_eq in Hj. injection Hj as <-. rewrite Hid in Hr. destruct Hr as (_ & Hf & He & [s Hs] & Hem & _).
      exists s. split; [done|]. split; [congruence|]. by rewrite Hf, He.
    + rewrite lookup_insert_ne in Hj by done. by eapply Hreq.
  - intros j r' Hj Hid. destruct (decide (j = i)) as [->|Hne].
    + rewrite lookup_insert_eq in Hj. injection Hj as <-. rewrite Hid in Hr. destruct Hr as (-> & Hf & He).
      split; [|done]. rewrite Hf. unfold times in *. rewrite count_occ_app, Ht. simpl. by destruct (Nat.eq_dec i i).
    + rewrite lookup_insert_ne in Hj by done. specialize (Herr j r' Hj Hid) as [H1 H2]. split; [|done].
      destruct (request_ r); [by destruct Hr as (-> & _)|]. destruct Hr as (-> & _).
      unfold times in *. rewrite count_occ_app. simpl. destruct (Nat.eq_dec i j); [congruence|lia].
  - intros j Hj. assert (Hj' : j = i /\ request_ r = None \/ j ∈ queued p).
    { destruct (request_ r); [destruct Hr as (-> & _); by right|]. destruct Hr as (-> & _).
      apply elem_of_app in Hj as [Hj|Hj%list_elem_of_singleton]; auto. }
    destruct (decide (j = i)) as [->|Hne].
    + exists r. rewrite lookup_insert_eq. split; [done|]. destruct Hj' as [[_ ?]|Hj']; [done|].
      destruct (Hq i Hj') as (r' & Hr' & _). congruence.
    + rewrite lookup_insert_ne by done. destruct Hj' as [[? _]|Hj']; [done|]. by apply Hq.
  - intros j k r1 r2 id Hj Hk H1 H2.
    destruct (decide (j = i)) as [->|Hnj], (decide (k = i)) as [->|Hnk]; [done|..];
      rewrite ?lookup_insert_eq in *; try (rewrite lookup_insert_ne in Hj by done); try (rewrite lookup_insert_ne in Hk by done).
    + injection Hj as <-. rewrite H1 in Hr. destruct Hr as (_ & _ & _ & _ & _ & Hno). by apply Hno in Hk.
    + injection Hk as <-. rewrite H2 in Hr. destruct Hr as (_ & _ & _ & _ & _ & Hno). by apply Hno in Hj.
    + by eapply Hd.
  - intros j Hj. destruct (decide (j = i)) as [->|Hne]; [lia|]. rewrite lookup_insert_ne in Hj by done. apply Hn in Hj. lia.
Qed.

(** The library changes, but not for the requests of the responses. *)
Lemma library_swap lib p : QInv p -> ApiInv lib -> emitted lib = emitted (thumbnailer p) ->
  (forall i r id, responses p !! i = Some r -> request_ r = Some id ->
     status_of id (impl lib) = status_of id (impl (thumbnailer p))) ->
  QInv (with_library lib p).
Proof.
  intros [HA Hreq Herr Hq Hd Hn] HA' Hem Hst. constructor; simpl; try done.
  intros i r id Hi Hid. destruct (Hreq i r id Hi Hid) as (s & Hs & Hf & He). exists s. rewrite (Hst i r id Hi Hid).
  split; [done|]. split; [by rewrite Hem|done].
Qed.

Lemma times_elem i l : times i l = 0%nat <-> i ∉ l.
Proof. unfold times. rewrite <- List.count_occ_not_In. by rewrite list_elem_of_In. Qed.

Lemma request_alive p i r id : QInv p -> responses p !! i = Some r -> request_ r = Some id ->
  exists q, requests (impl (thumbnailer p)) !! id = Some q.
Proof.
  intros HQ Hi Hid. destruct (q_request _ HQ i r id Hi Hid) as (s & Hs & _). destruct (status_Some _ _ _ Hs) as (q & Hq & _). by exists q.
Qed.

Lemma next_unused p : QInv p -> responses p !! next_response p = None /\ times (next_response p) (queued p) = 0%nat.
Proof.
  intros HQ. assert (H : responses p !! next_response p = None).
  { destruct (responses p !! next_response p) eqn:E; [|done].
    assert (next_response p < next_response p)%nat by (apply (q_new _ HQ); by rewrite E). lia. }
  split; [done|]. apply times_elem. intros Hin. destruct (q_queued _ HQ _ Hin) as (r & Hr & _). congruence.
Qed.

Lemma respond_inv q size p : QInv p ->
  exists p' i, respond (createRequest q size (thumbnailer p)) p = Ok (p', i) /\ QInv p'.
Proof.
  intros HQ. destruct (create_api_inv fromData q size (thumbnailer p) (q_lib _ HQ)) as (lib & Hc & HA & Hem & Hn & Ho & Hs & _).
  unfold respond. rewrite Hc. cbn [mbind outcome_bind fst snd]. eexists _, _. split; [reflexivity|].
  destruct (next_unused p HQ) as [Hi Ht].
  assert (Hne : forall j r id, responses p !! j = Some r -> request_ r = Some id -> id <> next_id (impl (thumbnailer p))).
  { intros j r id Hj Hid ->. destruct (request_alive _ _ _ _ HQ Hj Hid) as [q' Hq'].
    apply (inv_id _ _ _ (ai_impl _ (q_lib _ HQ))) in Hq'. lia. }
  apply (add_response (next_response p) (mkResponse (Some (next_id (impl (thumbnailer p)))) "" 0) p Hi (Nat.le_refl _) Ht).
  - apply library_swap; [done|done|done|]. intros i r id Hj Hid. apply Ho. by eapply Hne.
  - assert (Hal : is_Some (status_of (next_id (impl (thumbnailer p))) (impl lib))) by by rewrite Hs.
    simpl. split_and!; try done.
    + rewrite Hem. apply (ai_new _ (q_lib _ HQ)). lia.
    + intros j r' Hj Hr. by apply (Hne j r' _ Hj Hr).
Qed.

Lemma error_inv msg p : QInv p -> msg <> "" -> QInv (response_of_error msg p).1.
Proof.
  intros HQ Hm. destruct (next_unused p HQ) as [Hi Ht].
  apply (add_response (next_response p) (mkResponse None msg 0) p Hi (Nat.le_refl _) Ht); [|done].
  by destruct p.
Qed.

Lemma request_inv g id size p : QInv p -> exists p' i, requestImageResponse g id size p = Ok (p', i) /\ QInv p'.
Proof.
  intros HQ. destruct g; simpl.
  - by apply respond_inv.
  - unfold requestAlbumArt. destruct (_ || _); [|by apply respond_inv]. eexists _, _. split; [reflexivity|]. by apply error_inv.
  - unfold requestArtistArt. destruct (_ || _); [|by apply respond_inv]. eexists _, _. split; [reflexivity|]. by apply error_inv.
Qed.

Lemma cancel_response_inv i r p : QInv p -> responses p !! i = Some r ->
  exists p', cancel i p = Ok p' /\ QInv p' /\ same_responses p p'.
Proof.
  intros HQ Hi. unfold cancel, deref. rewrite Hi. cbn [mbind outcome_bind].
  destruct (request_ r) as [id|] eqn:Hid; [|exists p; by split_and!].
  destruct (request_alive _ _ _ _ HQ Hi Hid) as [q Hq]. unfold get_request. rewrite Hq. cbn [mbind outcome_bind].
  destruct (negb (isFinished q) && negb (isCancelled q)); [|exists p; by split_and!].
  destruct (library_event_inv (CancelRequest id) p HQ) as (p' & H1 & H2 & H3 & _); [simpl; by rewrite Hq|done|]. by exists p'.
Qed.

Lemma delete_response_inv i p : QInv p ->
  QInv (mkPlugin (thumbnailer p) (delete i (responses p)) (List.filter (fun j => negb (Nat.eqb j i)) (queued p)) (next_response p)).
Proof.
  intros [HA Hreq Herr Hq Hd Hn].
  assert (Hdel : forall j r, delete i (responses p) !! j = Some r -> j <> i /\ responses p !! j = Some r).
  { intros j r Hj. apply lookup_delete_Some in Hj as [? ?]. auto. }
  constructor; simpl; [done|..].
  - intros j r id [_ Hj]%Hdel. by apply (Hreq j).
  - intros j r [Hne Hj]%Hdel Hid. rewrite times_filter, bool_decide_false by done. by apply Herr.
  - intros j Hj. rewrite list_elem_of_In, List.filter_In, <- list_elem_of_In in Hj. destruct Hj as [Hj Hne].
    destruct (Hq j Hj) as (r & Hr & Hnone). exists r. split; [|done]. rewrite lookup_delete_ne; [done|].
    intros ->. by rewrite Nat.eqb_refl in Hne.
  - intros j k r r' id [_ Hj]%Hdel [_ Hk]%Hdel. by eapply Hd.
  - intros j [r [_ Hj]%Hdel]. apply Hn. by exists r.
Qed.

Lemma destroy_response_inv i r p : QInv p -> responses p !! i = Some r -> exists p', destroy i p = Ok p' /\ QInv p'.
Proof.
  intros HQ Hi. destruct (cancel_response_inv i r p HQ Hi) as (p1 & H1 & HQ1 & _ & _ & Hsame).
  unfold destroy. rewrite H1. cbn [mbind outcome_bind].
  destruct (responses p1 !! i) as [r1|] eqn:Hi1; [|specialize (Hsame i); rewrite Hi, Hi1 in Hsame; done].
  unfold deref. rewrite Hi1. cbn [mbind outcome_bind]. pose proof (delete_response_inv i p1 HQ1) as HQ2.
  destruct (request_ r1) as [id|] eqn:Hid; [|by eexists].
  destruct (request_alive _ _ _ _ HQ1 Hi1 Hid) as [q Hq].
  destruct (destroy_api_inv fromData id (thumbnailer p1) (q_lib _ HQ1)) as (lib & Hx & HA & Hem & Hgone & Ho); [simpl; by rewrite Hq|].
  unfold library_event. simpl. rewrite Hx. cbn [mbind outcome_bind fst snd run_signals]. eexists. split; [done|].
  apply library_swap; [done|done|done|]. simpl. intros j r' id' Hj Hid'. apply Ho. intros ->.
  apply lookup_delete_Some in Hj as [Hne Hj]. apply Hne. by eapply (q_distinct _ HQ1).
Qed.

Lemma deliver_finished_inv i rest p : QInv p -> queued p = i :: rest ->
  exists p', qml_exec DeliverFinished p = Ok p' /\ QInv p'.
Proof.
  intros [HA Hreq Herr Hq Hd Hn] Hp. simpl. rewrite Hp. destruct (Hq i) as (r & Hi & Hnone); [rewrite Hp; set_solver|].
  unfold deref. rewrite Hi. cbn [mbind outcome_bind]. eexists. split; [done|].
  set (r' := mkResponse (request_ r) (error_message_ r) (S (finishes r))). destruct (Herr i r Hi Hnone) as [Hone Hne].
  assert (Hf : times i rest = 0%nat /\ finishes r = 0%nat).
  { rewrite Hp in Hone. unfold times in *. simpl in Hone. destruct (Nat.eq_dec i i); [lia|done]. }
  assert (Hlook : forall j x, <[i := r']> (responses p) !! j = Some x ->
            (j = i /\ x = r') \/ (j <> i /\ responses p !! j = Some x)).
  { intros j x Hj. apply lookup_insert_Some in Hj. naive_solver. }
  constructor; simpl; [done|..].
  - intros j x id [[-> ->]|[_ Hj]]%Hlook Hid; [simpl in Hid; congruence|]. by eapply Hreq.
  - intros j x [[-> ->]|[Hnj Hj]]%Hlook Hid; [simpl; split; [lia|done]|]. specialize (Herr j x Hj Hid). rewrite Hp in Herr.
    unfold times in *. simpl in Herr. by destruct (Nat.eq_dec i j).
  - intros j Hj. destruct (decide (j = i)) as [->|Hnj]; [apply times_elem in Hj; [done|by destruct Hf]|].
    rewrite lookup_insert_ne by done. apply Hq. rewrite Hp. set_solver.
  - intros j k x y id Hj Hk Hx Hy. apply Hlook in Hj as [[-> ->]|[Hnj Hj]]; [simpl in Hx; congruence|].
    apply Hlook in Hk as [[-> ->]|[Hnk Hk]]; [simpl in Hy; congruence|]. by eapply Hd.
  - intros j [x [[-> _]|[_ Hj]]%Hlook]; [apply Hn; by exists r|apply Hn; by exists x].
Qed.

Lemma qml_exec_inv e p : QInv p -> qml_enabled e p = true -> exists p', qml_exec e p = Ok p' /\ QInv p'.
Proof.
  intros HQ He. destruct e as [g id size|e| |i|i].
  - destruct (request_inv g id size p HQ) as (p' & i & H1 & H2). simpl. rewrite H1. by exists p'.
  - assert (Hp : plain_event e = true /\ api_enabled e (thumbnailer p) = true) by (by destruct e).
    destruct Hp as [Hp He']. destruct (library_event_inv e p HQ He' Hp) as (p' & H1 & H2 & _). by exists p'.
  - simpl in He. destruct (queued p) as [|i rest] eqn:Hq; [done|]. by eapply deliver_finished_inv.
  - simpl in He. apply bool_decide_eq_true in He as [r Hr]. destruct (cancel_response_inv i r p HQ Hr) as (p' & H1 & H2 & _). by exists p'.
  - simpl in He. apply bool_decide_eq_true in He as [r Hr]. by eapply destroy_response_inv.
Qed.

Lemma qml_reachable_inv dflt config lib0 p : make dflt config = Ok lib0 -> rtc qml_step (plugin lib0) p -> QInv p.
Proof.
  intros H0 Hr. assert (HQ : QInv (plugin lib0)).
  { constructor; simpl.
    - by eapply make_inv.
    - intros i r id. by rewrite lookup_empty.
    - intros i r. by rewrite lookup_empty.
    - by intros i Hi%elem_of_nil.
    - intros i j r r' id. by rewrite lookup_empty.
    - intros i [r Hr']. by rewrite lookup_empty in Hr'. }
  clear H0. revert HQ. induction Hr as [|a b c (e & He & Hx) _ IH]; [done|].
  intros HQ. apply IH. destruct (qml_exec_inv e a HQ He) as (p' & E & HQ'). congruence.
Qed.
(** ** Properties *)

(** The plugin never fails: whatever images the QML engine asks for, cancels
    and deletes, and however replies and queued calls arrive in between, every
    event completes; no request or response is used after its deletion, and the
    library keeps its own invariant. *)
Theorem qml_never_crashes dflt config lib0 p e :
  make dflt config = Ok lib0 -> rtc qml_step (plugin lib0) p -> qml_enabled e p = true ->
  exists p', qml_exec e p = Ok p' /\ Inv 0 None (impl (thumbnailer p')).
Proof.
  intros H0 Hr He. destruct (qml_exec_inv e p (qml_reachable_inv _ _ _ _ H0 Hr) He) as (p' & H1 & HQ').
  exists p'. split; [done|]. apply (ai_impl _ (q_lib _ HQ')).
Qed.

(** C16. The QML engine hears of every image once and gets what its request reports: a
    response emits [finished] at most once, and exactly once when nothing is on the
    wire and nothing is queued.  Then, if it was made for a request, that request has
    finished, and if it is valid the response has no error and the texture made of
    its image, otherwise it has the request's error, which is not empty, and no
    texture; and if it was made for an id that names nothing, it has an error and no
    texture.  (Of a null image - bytes that could not be decoded - no texture is
    made, and then the engine gets neither.) *)
Theorem qml_answers_once dflt config lib0 p i r :
  make dflt config = Ok lib0 -> rtc qml_step (plugin lib0) p -> responses p !! i = Some r ->
  (finishes r <= 1)%nat /\
  (in_flight (impl (thumbnailer p)) = 0 -> posted (impl (thumbnailer p)) = [] -> signals (thumbnailer p) = [] -> queued p = [] ->
   finishes r = 1%nat /\ errorString i p = Ok (error_message_ r) /\
   match request_ r with
   | Some id => exists q, requests (impl (thumbnailer p)) !! id = Some q /\ isFinished q = true /\
       if isValid q
       then error_message_ r = "" /\ textureFactory i p = Ok (textureFactoryForImage (image q))
       else error_message_ r = errorMessage q /\ errorMessage q <> "" /\ textureFactory i p = Ok None
   | None => error_message_ r <> "" /\ textureFactory i p = Ok None
   end).
Proof.
  intros H0 Hr Hi. pose proof (qml_reachable_inv _ _ _ _ H0 Hr) as HQ. pose proof (q_lib _ HQ) as HA.
  unfold textureFactory, errorString, deref. rewrite Hi. cbn [mbind outcome_bind].
  destruct (request_ r) as [id|] eqn:Hid.
  - destruct (q_request _ HQ i r id Hi Hid) as (s & Hs & Hf & He). pose proof (ai_alive _ HA id s Hs) as Hal.
    pose proof (ai_reports _ HA id s Hs) as Hrep. destruct (status_Some _ _ _ Hs) as (q & Hq & <-).
    split; [destruct (s_finished (status q)); simpl in Hal; lia|]. intros Hw Hp Hsig _.
    pose proof (settled_finished _ _ _ (ai_impl _ HA) Hw Hp Hq) as Hfin. rewrite Hsig in Hal.
    change (s_finished (status q)) with (finished_ q) in Hal. rewrite Hfin in Hal. simpl in Hal. rewrite Nat.add_0_r in Hal.
    rewrite Hf, Hal in *. split; [done|]. split; [done|]. exists q. unfold get_request. rewrite Hq. cbn [mbind outcome_bind].
    split; [done|]. split; [done|]. rewrite He. simpl. unfold reports in Hrep. simpl in Hrep. unfold isFinished in Hrep. rewrite Hfin in Hrep.
    destruct (isValid q); simpl; [done|]. split_and!; [done| |done]. naive_solver.
  - destruct (q_error _ HQ i r Hi Hid) as [H1 H2]. split; [lia|]. intros _ _ _ Hqe. rewrite Hqe in H1. split; [unfold times in H1; simpl in H1; lia|].
    by split_and!.
Qed.

End Defs.

(** ** Witnesses *)

(** Ids of the form [artist=..&album=..], simplified. *)
Definition has (id key : string) : bool := bool_decide (id = "artist=x&album=y").
Definition value (id key : string) : string := if String.eqb key "artist" then "x" else "y".

Fixpoint qml_replay (es : list qml_event) (p : @Plugin string) : outcome Plugin :=
  match es with
  | [] => Ok p
  | e :: es => if qml_enabled e p then p ← qml_exec decode id has value e p; qml_replay es p else Crash (Undefined "disabled event")
  end.

Lemma qml_replay_rtc es : forall p0 p, qml_replay es p0 = Ok p -> rtc (qml_step decode id has value) p0 p.
Proof.
  induction es as [|e es IH]; intros p0 p; simpl; [intros [= <-]; apply rtc_refl|].
  destruct (qml_enabled e p0) eqn:He; [|done]. destruct (qml_exec decode id has value e p0) as [p1| |] eqn:Hx; [|done..].
  simpl. intros H. eapply rtc_l; [by exists e|]. by apply IH.
Qed.

(** An image that arrives, one with an invalid id, one cancelled, one deleted. *)
Definition qml_session : list qml_event :=
  [RequestImage ThumbnailGenerator "/a.png" (mkSize 64 64); RequestImage AlbumArtGenerator "nonsense" (mkSize 64 64);
   RequestImage ArtistArtGenerator "artist=x&album=y" (mkSize 64 64); CancelResponse 2;
   RequestImage ThumbnailGenerator "/b.png" (mkSize (-1) 0); RequestImage ThumbnailGenerator "/c.png" (mkSize 1 1); DeleteResponse 4;
   LibraryEvent (BusReply 0 (ReplyValue "img")); DeliverFinished; LibraryEvent DeliverCall; LibraryEvent DeliverSignal].

Definition qml_end : @Plugin string :=
  match qml_replay qml_session (plugin started) with Ok p => p | _ => plugin started end.

Lemma qml_end_reachable : rtc (qml_step decode id has value) (plugin started) qml_end.
Proof. apply (qml_replay_rtc qml_session). vm_compute. reflexivity. Qed.

Example qml_session_answers :
  (fun i => (errorString i qml_end, textureFactory id i qml_end)) <$> [0; 1; 2; 3]%nat =
  [(Ok "", Ok (Some "img")); (Ok "Invalid albumart ID: nonsense", Ok None); (Ok "Request cancelled", Ok None);
   (Ok "getThumbnail: (-1,0) /b.png: invalid QSize", Ok None)].
Proof. by vm_compute. Qed.

(** A reply that is no image: the request is valid, and the engine gets neither a
    texture nor an error. *)
Definition undecodable : @Plugin string :=
  match qml_replay [RequestImage ThumbnailGenerator "/a.png" (mkSize 64 64); LibraryEvent (BusReply 0 (ReplyValue ""))] (plugin started) with
  | Ok p => p | _ => plugin started
  end.

Lemma neither_texture_nor_error :
  finishes <$> responses undecodable !! 0%nat = Some 1%nat /\
  errorString 0 undecodable = Ok "" /\ textureFactory id 0 undecodable = Ok None.
Proof. vm_compute. repeat split; reflexivity. Qed.

Lemma qml_never_crashes_witness :
  exists p', qml_exec decode id has value (DeleteResponse 0) qml_end = Ok p' /\ Inv 0 None (impl (thumbnailer p')).
Proof.
  apply (qml_never_crashes decode id has value 10 (Some 1) started qml_end (DeleteResponse 0));
    [reflexivity|exact qml_end_reachable|vm_compute; reflexivity].
Defined.

Definition first_response : Response :=
  match responses qml_end !! 0%nat with Some r => r | None => mkResponse None "" 0 end.

Lemma qml_answers_once_witness :
  request_ first_response = Some 0%nat /\ (finishes first_response <= 1)%nat /\
  (in_flight (impl (thumbnailer qml_end)) = 0 -> posted (impl (thumbnailer qml_end)) = [] -> signals (thumbnailer qml_end) = [] ->
   queued qml_end = [] ->
   finishes first_response = 1%nat /\ errorString 0 qml_end = Ok (error_message_ first_response) /\
   exists q, requests (impl (thumbnailer qml_end)) !! 0%nat = Some q /\ isFinished q = true /\
     if isValid q
     then error_message_ first_response = "" /\ textureFactory id 0 qml_end = Ok (image q)
     else error_message_ first_response = errorMessage q /\ errorMessage q <> "" /\ textureFactory id 0 qml_end = Ok None).
Proof.
  split; [vm_compute; reflexivity|].
  apply (qml_answers_once decode id has value id 10 (Some 1) started qml_end 0 first_response);
    [reflexivity|exact qml_end_reachable|vm_compute; reflexivity].
Defined.
End QmlPlugin.
