(* ===== verification/ServiceMain.v ===== *)
(** * The main program of the service (src/service/main.cpp, src/trace.cpp)

    [main()] as the sequence of things it does that other processes can see, and
    several instances of it side by side: a new one may be started while an old
    one shuts down.  The results of the system, of the bus and of the constructors
    are fields of an environment. *)

From S2P Require Import Prelude CxxLib Files Inactivity Admin.
Import Cxx.

Module ServiceMain.

(** ** [TraceMessageHandler] *)

Inductive QtMsgType : Type := QtDebugMsg | QtWarningMsg | QtCriticalMsg | QtFatalMsg.

Inductive handler : Type := default_handler | trace_message_handler.

(** The handler installed in Qt, the [prefix] of trace.cpp, and what was written
    to [stderr]. *)
Record Trace : Type := mkTrace { installed : handler; prefix : string; stderr : list string }.

Definition label (type : QtMsgType) : string :=
  match type with
  | QtDebugMsg => ""
  | QtWarningMsg => " Warning:"
  | QtCriticalMsg => " Critical:"
  | QtFatalMsg => " Fatal:"
  end.

Definition pad3 (z : Z) : string :=
  let s := to_string z in
  match String.length s with 1%nat => "00" +:+ s | 2%nat => "0" +:+ s | _ => s end.

(** [now] in milliseconds since the epoch; [strftime "%T"] of the local time. *)
Definition handle_message (strftime_T : Z -> string) (now : Z) (type : QtMsgType) (msg : string) (t : Trace) : Trace * outcome unit :=
  let text :=
    (if bool_decide (prefix t = "") then "" else prefix t +:+ ": ") +:+
    "[" +:+ strftime_T (now / 1000) +:+ "." +:+ pad3 (Z.rem now 1000) +:+ "]" +:+ label type +:+ " " +:+ msg +:+ newline in
  (mkTrace (installed t) (prefix t) (stderr t ++ [text]),
   match type with QtFatalMsg => Crash (Aborted "qFatal") | _ => Ok tt end).

(** The constructor returns what the destructor puts back. *)
Definition install (prog_name : string) (t : Trace) : Trace * handler :=
  (mkTrace trace_message_handler prog_name (stderr t), installed t).
Definition uninstall (old_message_handler_ : handler) (t : Trace) : Trace :=
  mkTrace old_message_handler_ (prefix t) (stderr t).

(** ** The statistics in the log *)

(** What [get_summary] needs of [double]: a quotient of integers, and the text with
    two decimals. *)
Class Doubles (F : Type) : Type := { ratio : Z -> Z -> F; fixed2 : F -> string }.

(** A [QString] with place markers, as [QString::arg] sees it: a text, or [%n]. *)
Inductive piece : Type := Text (s : string) | Marker (n : nat).

Definition marker_of (p : piece) : option nat := match p with Marker n => Some n | Text _ => None end.

Definition lowest (l : list nat) : option nat :=
  match l with [] => None | n :: l => Some (foldr Nat.min n l) end.

(** [QString::arg]: every marker with the lowest number is replaced. *)
Definition arg (t : list piece) (a : string) : list piece :=
  match lowest (omap marker_of t) with
  | Some n => map (fun p => if bool_decide (marker_of p = Some n) then Text a else p) t
  | None => t
  end.

Definition show (p : piece) : string := match p with Text s => s | Marker n => "%" +:+ to_string (Z.of_nat n) end.
Definition text_of (t : list piece) : string := foldr (fun p s => show p +:+ s) "" t.

Section Summary.
Context {F : Type} {doubles : Doubles F}.

(** The format of [get_summary]; there is no [%4]. *)
Definition summary_format : list piece :=
  [Marker 1; Text " "; Marker 2; Text ", "; Marker 3; Text " bytes, hit rate "; Marker 5; Text " ("; Marker 6; Text "/";
   Marker 7; Text "), avg hit run "; Marker 8; Text ", avg miss run "; Marker 9].

Definition get_summary (stats : Admin.CacheStats F) : string :=
  let hits := Admin.hits stats in
  let misses := Admin.misses stats in
  let hit_rate := if hits + misses =? 0 then ratio 0 1 else ratio hits (hits + misses) in
  let entries := Admin.size stats in
  let entry_str := if entries =? 1 then "entry" else "entries" in
  text_of (arg (arg (arg (arg (arg (arg (arg (arg summary_format
    (to_string entries))
    entry_str)
    (to_string (Admin.size_in_bytes stats)))
    (fixed2 hit_rate))
    (to_string hits))
    (to_string misses))
    (fixed2 (Admin.avg_hit_run_length stats)))
    (fixed2 (Admin.avg_miss_run_length stats))).

(** The lines [show_stats] writes. *)
Definition stats_lines (stats : Admin.AllStats F) : list string :=
  ["image cache:     " +:+ get_summary (Admin.full_size_stats stats);
   "thumbnail cache: " +:+ get_summary (Admin.thumbnail_stats stats);
   "failure cache:   " +:+ get_summary (Admin.failure_stats stats)].
End Summary.

(** ** [main] *)

Definition BUS_NAME : string := "com.canonical.Thumbnailer".
Definition THUMBNAILER_BUS_PATH : string := "/com/canonical/Thumbnailer".
Definition ADMIN_BUS_PATH : string := "/com/canonical/ThumbnailerAdmin".

(** What others see a process do. *)
Inductive act : Type :=
  | Log (msg : string)
  | LockFile | UnlockFile               (* thumbnailer-service.lock *)
  | OpenCaches | CloseCaches            (* the leveldb databases *)
  | MakeDirectory (path : string)
  | RegisterObject (path : string)      (* an object on the bus *)
  | RegisterName | UnregisterName       (* the name on the bus *)
  | RunLoop.                            (* app.exec() *)

#[export] Instance act_eq_dec : EqDecision act.
Proof. solve_decision. Defined.

Section Main.
Context {F : Type} {doubles : Doubles F}.

(** [opened]: the errno of opening the lock file; [idle_time]: THUMBNAILER_MAX_IDLE;
    [thumbnailer]: whether the constructor of [Thumbnailer] returns; [stats]: what
    [thumbnailer->stats()] does; [exec]: the result of [app.exec()]. *)
Record Env : Type := mkEnv {
  cache_dir : string;
  opened : option Z;
  flock : nat -> Files.flock_result;
  idle_time : option string;
  thumbnailer : outcome unit;
  registerObject : string -> bool;
  registerService : bool;
  stats : outcome (Admin.AllStats F);
  exec : Z;
  unregisterService : bool
}.

Record Run : Type := mkRun { acts : list act; rc : Z }.

Definition emit (a : act) : M Run unit := modify (fun s => mkRun (acts s ++ [a]) (rc s)).

(** [body], and then the destructor that does [release], unless the process died. *)
Definition scoped {A} (release : act) (body : M Run A) : M Run A := fun s =>
  match body s with
  | (s', Crash c) => (s', Crash c)
  | (s', r) => ((emit release s').1, r)
  end.

(** [bus.registerObject()]; the result is not looked at. *)
Definition register_object (e : Env) (path : string) : M Run unit :=
  if registerObject e path then emit (RegisterObject path) else mret tt.

Definition show_stats (e : Env) : M Run unit :=
  st ← lift (stats e);
  modify (fun s => mkRun (acts s ++ map Log (stats_lines st)) (rc s)).

(** The [try] block, with the objects it creates. *)
Definition serve (error_text : Z -> string) (e : Env) : M Run unit :=
  _ ← emit (Log "Initializing");
  _ ← emit (MakeDirectory (cache_dir e));
  file_lock ← lift (Files.make_lock error_text (opened e) (cache_dir e +:+ "/thumbnailer-service.lock"));
  let '(_, locked, _) := Files.lock (flock e) 10000 file_lock in
  locked ← lift locked;
  if negb locked then throw (runtime_error "Could not acquire file lock within 10 seconds")
  else
    _ ← emit LockFile;
    scoped UnlockFile (
      _ ← lift (Inactivity.init (idle_time e));
      _ ← lift (thumbnailer e);
      _ ← emit OpenCaches;
      scoped CloseCaches (
        _ ← register_object e THUMBNAILER_BUS_PATH;
        _ ← register_object e ADMIN_BUS_PATH;
        if negb (registerService e)
        then throw (runtime_error ("thumbnailer-service: Could not acquire DBus name " +:+ BUS_NAME))
        else
          _ ← emit RegisterName;
          _ ← show_stats e;
          _ ← emit RunLoop;
          _ ← modify (fun s => mkRun (acts s) (exec e));
          if negb (unregisterService e)
          then throw (runtime_error ("thumbnailer-service: Could not release DBus name " +:+ BUS_NAME))
          else
            _ ← emit UnregisterName;
            emit (Log "Exiting"))).

Definition main (error_text : Z -> string) (e : Env) : Run * outcome Z :=
  (_ ← catchM (serve error_text e) (fun x => if is_std x then emit (Log (exn_what x)) else throw x);
   s ← getS;
   mret (rc s)) (mkRun [] 1).

(** ** Several instances *)

(** A process: what it has still to do, and whether it holds the lock and has the
    caches open. *)
Record Process : Type := mkProcess { rest : list act; held : bool; open : bool }.

Definition perform (a : act) (p : Process) : Process :=
  match a with
  | LockFile => mkProcess (tail (rest p)) true (open p)
  | UnlockFile => mkProcess (tail (rest p)) false (open p)
  | OpenCaches => mkProcess (tail (rest p)) (held p) true
  | CloseCaches => mkProcess (tail (rest p)) (held p) false
  | _ => mkProcess (tail (rest p)) (held p) (open p)
  end.

(** The processes, and which of them the system has granted the lock. *)
Record System : Type := mkSystem { processes : gmap nat Process; holder : option nat }.

Definition grant (a : act) (i : nat) (h : option nat) : option nat :=
  match a with LockFile => Some i | UnlockFile => None | _ => h end.

(** A process does the next thing; [flock()] grants a lock nobody holds.  A new
    process is started, and a process may end at any point, which closes its
    files. *)
Inductive step : System -> System -> Prop :=
  | step_act s i p a r : processes s !! i = Some p -> rest p = a :: r ->
      (a = LockFile -> holder s = None) ->
      step s (mkSystem (<[i := perform a p]> (processes s)) (grant a i (holder s)))
  | step_start s i error_text e : processes s !! i = None ->
      step s (mkSystem (<[i := mkProcess (acts (main error_text e).1) false false]> (processes s)) (holder s))
  | step_kill s i p : processes s !! i = Some p ->
      step s (mkSystem (delete i (processes s)) (if held p then None else holder s)).

(** ** Lemmas *)

(** The caches are opened, used and closed under the lock. *)
Fixpoint disciplined (held open : bool) (l : list act) : bool :=
  match l with
  | [] => true
  | (Log _ | MakeDirectory _) :: l => disciplined held open l
  | LockFile :: l => negb held && disciplined true open l
  | UnlockFile :: l => held && negb open && disciplined false open l
  | OpenCaches :: l => held && negb open && disciplined held true l
  | CloseCaches :: l => open && disciplined held false l
  | (RegisterObject _ | RegisterName | RunLoop | UnregisterName) :: l => held && open && disciplined held open l
  end.

(** The markers are filled in the order of their numbers, so that the missing [%4]
    does no harm. *)
Lemma summary_text (st : Admin.CacheStats F) :
  get_summary st =
    to_string (Admin.size st) +:+ " " +:+ (if Admin.size st =? 1 then "entry" else "entries") +:+ ", " +:+
    to_string (Admin.size_in_bytes st) +:+ " bytes, hit rate " +:+
    fixed2 (if Admin.hits st + Admin.misses st =? 0 then ratio 0 1 else ratio (Admin.hits st) (Admin.hits st + Admin.misses st)) +:+
    " (" +:+ to_string (Admin.hits st) +:+ "/" +:+ to_string (Admin.misses st) +:+ "), avg hit run " +:+
    fixed2 (Admin.avg_hit_run_length st) +:+ ", avg miss run " +:+ fixed2 (Admin.avg_miss_run_length st) +:+ "".
Proof. reflexivity. Qed.

(** Every way through [main]. *)
#[local] Arguments Files.make_lock : simpl never.
#[local] Arguments Files.lock : simpl never.
#[local] Arguments Inactivity.init : simpl never.
#[local] Arguments get_summary : simpl never.

Ltac if_std :=
  try match goal with |- context [is_std ?x] => is_var x; destruct (is_std x) eqn:?; simpl end.
Tactic Notation "each_way" constr(e) "by" tactic3(fin) :=
  unfold main, serve, register_object, show_stats, catchM, scoped, lift, emit, modify, throw, getS, mbind, M_bind, mret, M_ret; simpl;
  destruct (Files.make_lock _ _ _) as [l| |]; simpl; [|if_std; fin ..];
  destruct (Files.lock (flock e) 10000 l) as [[l' [[]| |]] n]; simpl; [|if_std; fin ..];
  destruct (Inactivity.init (idle_time e)) as [t| |]; simpl; [|if_std; fin ..];
  destruct (thumbnailer e) as [[]| |]; simpl; [|if_std; fin ..];
  destruct (registerObject e THUMBNAILER_BUS_PATH) eqn:?, (registerObject e ADMIN_BUS_PATH) eqn:?; simpl;
  (destruct (registerService e); simpl; [|if_std; fin]);
  (destruct (stats e) as [st| |]; simpl; [|if_std; fin ..]);
  destruct (unregisterService e); simpl; fin.

Lemma main_disciplined error_text e : disciplined false false (acts (main error_text e).1) = true.
Proof. each_way e by done. Qed.

(** The service is up: lock, idle timer, thumbnailer, bus name and statistics. *)
Definition ready (error_text : Z -> string) (e : Env) : bool :=
  match Files.make_lock error_text (opened e) (cache_dir e +:+ "/thumbnailer-service.lock") with
  | Ok l => match (Files.lock (flock e) 10000 l).1.2 with
            | Ok b => b && is_ok (Inactivity.init (idle_time e)) && is_ok (thumbnailer e) && registerService e && is_ok (stats e)
            | _ => false end
  | _ => false
  end.

(** The lock, the flags and what is left to do agree. *)
Definition consistent (s : System) : Prop :=
  forall i p, processes s !! i = Some p ->
    disciplined (held p) (open p) (rest p) = true /\ (open p = true -> held p = true) /\
    (held p = true <-> holder s = Some i).

(** A lock that is held is held by a process that is alive. *)
Definition holder_alive (s : System) : Prop := forall i, holder s = Some i -> is_Some (processes s !! i).

Lemma perform_disciplined a r p : rest p = a :: r -> disciplined (held p) (open p) (rest p) = true ->
  (open p = true -> held p = true) ->
  let p' := perform a p in
  disciplined (held p') (open p') (rest p') = true /\ (open p' = true -> held p' = true) /\
  match a with
  | LockFile => held p = false /\ held p' = true
  | UnlockFile => held p = true /\ held p' = false
  | _ => held p' = held p
  end.
Proof.
  intros Hr. rewrite Hr. destruct p as [r' h o]; simpl in *. subst r'.
  destruct a, h, o; simpl; try done; intros H Ho; split_and!; try done; try congruence.
Qed.

(** Whoever is not the one that acts keeps the lock, or does not have it. *)
Lemma grant_other a i j h (b : bool) :
  i <> j -> (a = LockFile -> h = None) -> (a = UnlockFile -> h = Some i) ->
  (b = true <-> h = Some j) -> (b = true <-> grant a i h = Some j).
Proof. intros Hij Hl Hu Hb. destruct a; simpl; try done; rewrite Hb; [rewrite Hl by done|rewrite Hu by done]; split; congruence. Qed.

Lemma consistent_step s s' : consistent s -> holder_alive s -> step s s' -> consistent s' /\ holder_alive s'.
Proof.
  intros Hc Hal Hs. destruct Hs as [s i p a r Hi Hr Hfree|s i error_text e Hi|s i p Hi].
  - destruct (Hc i p Hi) as (Hd & Ho & Hh). destruct (perform_disciplined a r p Hr Hd Ho) as (Hd' & Ho' & Hh'). split.
    + intros j q Hj; simpl in Hj |- *. destruct (decide (j = i)) as [->|Hne].
      * rewrite lookup_insert_eq in Hj. injection Hj as <-. split_and!; [done|done|].
        destruct a; simpl in Hh' |- *; try done; by rewrite Hh'.
      * rewrite lookup_insert_ne in Hj by done. destruct (Hc j q Hj) as (H1 & H2 & H3). split_and!; [done|done|].
        apply grant_other; [done|done| |done]. intros ->. apply Hh. by destruct Hh'.
    + intros j Hj. simpl in *. destruct (decide (j = i)) as [->|Hne]; [by rewrite lookup_insert_eq|].
      rewrite lookup_insert_ne by done. apply Hal. destruct a; simpl in Hj; congruence.
  - split.
    + intros j q Hj; simpl in Hj |- *. destruct (decide (j = i)) as [->|Hne]; [|rewrite lookup_insert_ne in Hj by done; by apply Hc].
      rewrite lookup_insert_eq in Hj. injection Hj as <-. simpl. split_and!; [apply main_disciplined|done|]. split; [done|].
      intros Hh. destruct (Hal i Hh) as [p Hp]. congruence.
    + intros j Hj. simpl in *. destruct (decide (j = i)) as [->|Hne]; [by rewrite lookup_insert_eq|].
      rewrite lookup_insert_ne by done. by apply Hal.
  - destruct (Hc i p Hi) as (_ & _ & Hh). split.
    + intros j q Hj; simpl in Hj |- *. apply lookup_delete_Some in Hj as [Hne Hj].
      destruct (Hc j q Hj) as (H1 & H2 & H3). split_and!; [done|done|]. rewrite H3. destruct (held p); [|done].
      rewrite (proj1 Hh eq_refl). split; congruence.
    + intros j Hj. simpl in *. destruct (held p) eqn:Ep; [done|]. rewrite lookup_delete_ne; [by apply Hal|].
      intros ->. apply Hh in Hj. congruence.
Qed.

Definition no_process : System := mkSystem ∅ None.

Lemma reachable_consistent s : rtc step no_process s -> consistent s.
Proof.
  intros Hr. assert (H : consistent no_process /\ holder_alive no_process).
  { split; [intros i p Hp; simpl in Hp; by rewrite lookup_empty in Hp|done]. }
  revert H. induction Hr as [|a b c Hs _ IH]; [tauto|]. intros [H1 H2]. apply IH. by eapply consistent_step.
Qed.

(** ** Properties *)

(** C37. Never two services on one cache: however instances are started, run, are
    stopped and are killed next to each other, at most one has the caches open,
    and it holds the lock file; in particular only one serves calls. *)
Theorem one_instance s i j p q :
  rtc step no_process s -> processes s !! i = Some p -> processes s !! j = Some q ->
  open p = true -> (held p = true /\ holder s = Some i) /\ (open q = true -> i = j) /\
  (forall a r, rest q = a :: r -> a = RegisterName \/ a = RunLoop \/ a = OpenCaches -> i = j).
Proof.
  intros Hr Hi Hj Hp. pose proof (reachable_consistent s Hr) as Hc.
  destruct (Hc i p Hi) as (_ & Hpo & Hph), (Hc j q Hj) as (Hqd & Hqo & Hqh).
  assert (Hhold : holder s = Some i) by (apply Hph, Hpo, Hp).
  assert (Hq : held q = true -> i = j) by (intros Hq; apply Hqh in Hq; congruence).
  split_and!; [auto|done|auto|]. intros a r Hrest Ha. apply Hq. rewrite Hrest in Hqd.
  destruct Ha as [-> |[-> | ->]]; simpl in Hqd; by destruct (held q).
Qed.

(** What [main()] does and returns: the event loop runs exactly if the lock was
    granted, the objects could be constructed and the name acquired; the status
    is then the loop's, also when the name could not be released, and 1 otherwise.
    An object that could not be registered is not missed: the loop runs without it.
    Unless the process dies the lock and the caches are given back. *)
Theorem main_status error_text e :
  let '(s, r) := main error_text e in
  (RunLoop ∈ acts s <-> ready error_text e = true) /\
  rc s = (if ready error_text e then exec e else 1) /\
  (RunLoop ∈ acts s -> forall path, RegisterObject path ∈ acts s <->
     (path = THUMBNAILER_BUS_PATH \/ path = ADMIN_BUS_PATH) /\ registerObject e path = true) /\
  match r with
  | Ok n => n = rc s
  | Throw x => is_std x = false
  | Crash _ => True
  end /\
  ((forall c, r <> Crash c) -> (LockFile ∈ acts s <-> UnlockFile ∈ acts s) /\ (OpenCaches ∈ acts s <-> CloseCaches ∈ acts s)).
Proof.
  unfold ready. each_way e by (setoid_rewrite list_elem_of_In; simpl; intuition (subst; try congruence; try discriminate);
    try match goal with H : forall c, Crash ?f = Crash c -> False |- _ => by destruct (H f) end;
    first [left; congruence|right; congruence]).
Qed.

End Main.
Arguments Env : clear implicits.

(** ** Witnesses *)

Section Witnesses.
#[local] Instance whole_numbers : Doubles Z := { ratio a b := a / b; fixed2 z := to_string z +:+ ".00" }.

Definition empty_stats : Admin.CacheStats Z := Admin.mkStats "/c" 0 1 2048 4096 3 0 0 0 0 0 3 0 0 0 0 0 0 0 [].
Definition no_stats : outcome (Admin.AllStats Z) := Ok (Admin.mkAllStats empty_stats empty_stats empty_stats).

Definition good : Env Z :=
  mkEnv "/home/me/.cache" None (fun _ => Files.Locked) None (Ok tt) (fun _ => true) true no_stats 0 true.

(** Start a process, or let one act. *)
Definition move (m : nat + nat) (s : System) : option System :=
  match m with
  | inl i =>
      match processes s !! i with
      | None => Some (mkSystem (<[i := mkProcess (acts (main (fun _ => "") good).1) false false]> (processes s)) (holder s))
      | Some _ => None
      end
  | inr i =>
      match processes s !! i with
      | Some p =>
          match rest p with
          | a :: _ => if bool_decide (a = LockFile) && bool_decide (holder s <> None) then None
                      else Some (mkSystem (<[i := perform a p]> (processes s)) (grant a i (holder s)))
          | [] => None
          end
      | None => None
      end
  end.

Lemma move_step m s s' : move m s = Some s' -> step s s'.
Proof.
  destruct m as [i|i]; simpl; destruct (processes s !! i) as [p|] eqn:Hi; try done.
  - intros [= <-]. by apply (step_start s i (fun _ => "") good).
  - destruct (rest p) as [|a r] eqn:Hr; [done|]. case_bool_decide as Ha; simpl.
    + case_bool_decide as Hh; [done|]. intros [= <-]. eapply step_act; [done|done|]. intros _. by destruct (holder s); [destruct Hh|].
    + intros [= <-]. by eapply step_act.
Qed.

Fixpoint moves (ms : list (nat + nat)) (s : System) : option System :=
  match ms with [] => Some s | m :: ms => match move m s with Some s' => moves ms s' | None => None end end.

Lemma moves_rtc ms : forall s s', moves ms s = Some s' -> rtc step s s'.
Proof.
  induction ms as [|m ms IH]; intros s s'; simpl; [intros [= <-]; apply rtc_refl|].
  destruct (move m s) as [s1|] eqn:Hm; [|done]. intros H. eapply rtc_l; [by eapply move_step|by apply IH].
Qed.

(** The first instance is serving, the second waits for the lock. *)
Definition two : System :=
  match moves [inl 0; inl 1; inr 0; inr 0; inr 0; inr 0; inr 1; inr 1]%nat no_process with Some s => s | None => no_process end.
Definition process (i : nat) (s : System) : Process :=
  match processes s !! i with Some p => p | None => mkProcess [] false false end.

Lemma one_instance_witness :
  (held (process 0 two) = true /\ holder two = Some 0%nat) /\ (open (process 1 two) = true -> 0%nat = 1%nat) /\
  (forall a r, rest (process 1 two) = a :: r -> a = RegisterName \/ a = RunLoop \/ a = OpenCaches -> 0%nat = 1%nat).
Proof.
  apply (one_instance two 0 1); [|vm_compute; reflexivity..].
  apply (moves_rtc [inl 0; inl 1; inr 0; inr 0; inr 0; inr 0; inr 1; inr 1]%nat). vm_compute. reflexivity.
Defined.

(** The second one cannot go on. *)
Example second_waits : move (inr 1%nat) two = None.
Proof. by vm_compute. Qed.

(** The status when the name cannot be released. *)
Example release_fails : (main (fun _ => "") (mkEnv "" None (fun _ => Files.Locked) None (Ok tt) (fun _ => true) true no_stats 0 false)).2 = Ok 0.
Proof. by vm_compute. Qed.

Example summary_example : get_summary empty_stats =
  "1 entry, 2048 bytes, hit rate 1.00 (3/0), avg hit run 3.00, avg miss run 0.00".
Proof. by vm_compute. Qed.
End Witnesses.
End ServiceMain.
