(* ===== verification/EndToEnd.v ===== *)
(** * The client library and the service together

    Client.v and ClientApi.v know the service as replies that arrive in some
    order; Service.v knows its callers as method calls.  Here one client process and the service
    run side by side: a call the library has put on the wire arrives at the
    service, which numbers it, and a reply the service has sent for that number
    arrives at the library.  The application makes, cancels and destroys
    requests, and other clients call the service, at any time.

    A program in [waitForFinished()] does nothing else: its event loop stands still,
    the replies to its other calls lie where they are, and only the service and
    other clients go on, until the reply it waits for is there.  The call sends its
    request first if need be ([begin_wait]); as nothing of the client can see the
    library before the reply, the library of a waiting client is kept as it was
    and takes both halves of the call when the reply comes ([wait_halves]). *)

From S2P Require Import Prelude CxxLib QtSize Thumbnailer RateLimiter Credentials Service ServiceInv ServiceSpec ServiceCorrect.
From S2P Require Import ThumbnailerInstance Client ClientApi.
Import QtSize Thumbnailer Client ClientApi.

Module EndToEnd.

Section Defs.
Context {host : Host} {hlaws : HostLaws host} {fmt : Service.LogFormat} {C : Type}.
Context {Img : Type} (fromData : string -> option Img).
Notation Library := (@Library Img).
Notation DBusInterface := Service.DBusInterface.
Notation work_step := (ServiceCorrect.work_step (C := C)).

(** [calls]: the number the service gave to the call of a request, and the call;
    [blocked]: the request whose [waitForFinished()] the client is in. *)
Record World : Type := mkWorld {
  lib : Library;
  svc : DBusInterface;
  calls : gmap nat (nat * bus_call);
  blocked : option nat
}.

Implicit Types (w : World) (l : Library) (id h : nat).

(** The method of the service a call of the library invokes. *)
Definition method_event (t : Thumbnailer C) (peer : string) (c : bus_call) : Service.event (C := C) :=
  match c with
  | GetAlbumArt artist album size => Service.CallAlbumArt t peer artist album size
  | GetArtistArt artist album size => Service.CallArtistArt t peer artist album size
  | GetThumbnail filename size => Service.CallThumbnail t peer filename size
  end.

(** A reply as the library receives it. *)
Definition answer (m : Service.reply) : reply :=
  match m with
  | Service.ArtReplied ba => ReplyValue ba
  | Service.ErrorReplied msg => ReplyError msg
  end.

(** What the application does, and what the event loop of the client does. *)
Definition app_event (e : api_event) : bool :=
  match e with Get _ _ | CancelRequest _ | DestroyRequest _ => true | _ => false end.
Definition loop_event (e : api_event) : bool :=
  match e with DeliverCall | DeliverSignal => true | _ => false end.

(** [waitForFinished()] as far as the blocking [watcher_->waitForFinished()], and
    whether it gets there. *)
Definition begin_wait (id : nat) (t : @ThumbnailerImpl Img) : outcome (@ThumbnailerImpl Img * bool) :=
  r ← get_request id t;
  if finished_ r || cancelled_ r then Ok (t, false)
  else
    '(t1, unqueued) ← call_cancel_func r t;
    t2 ← (if unqueued : bool then
            _ ← assert_ (negb (watcher_ r)) "waitForFinished: !watcher_";
            let '(l, _, started) := RateLimiter.schedule_now id (limiter_ t1) in
            run_jobs started (set_limiter l t1)
          else Ok t1);
    r2 ← get_request id t2;
    if watcher_ r2 then Ok (t2, true) else Crash (Undefined "waitForFinished: null watcher_").

(** The call of a live request that is on its way to the service. *)
Definition in_transit w id : Prop :=
  exists r, requests (impl (lib w)) !! id = Some r /\ (watcher_ r = true \/ blocked w = Some id) /\ calls w !! id = None.

(** A call arrives at the service. *)
Inductive arrives (t : Thumbnailer C) w : World -> Prop :=
  | arrive id q size canonical c peer now s' :
      in_transit w id -> jobs (lib w) !! id = Some (q, size) -> run_job canonical q size = Ok c ->
      0 < now -> Service.enabled (method_event t peer c) (svc w) ->
      Service.handle now (method_event t peer c) (svc w) = (s', Ok tt) ->
      arrives t w (mkWorld (lib w) s' (<[id := (Service.next_call (svc w), c)]> (calls w)) (blocked w)).

(** The client takes a reply or goes on with what it has queued. *)
Inductive client_side w : World -> Prop :=
  | replied id h c m l' out :
      blocked w = None -> calls w !! id = Some (h, c) -> (h, m) ∈ Service.bus (svc w) ->
      api_enabled (BusReply id (answer m)) (lib w) = true ->
      api_exec fromData (BusReply id (answer m)) (lib w) = Ok (l', out) ->
      client_side w (mkWorld l' (svc w) (calls w) None)
  | waited id h c m l' out :
      blocked w = Some id -> calls w !! id = Some (h, c) -> (h, m) ∈ Service.bus (svc w) ->
      api_exec fromData (WaitRequest id (answer m)) (lib w) = Ok (l', out) ->
      client_side w (mkWorld l' (svc w) (calls w) None)
  | looped e l' out :
      blocked w = None -> loop_event e = true -> api_enabled e (lib w) = true ->
      api_exec fromData e (lib w) = Ok (l', out) -> client_side w (mkWorld l' (svc w) (calls w) None).

(** What the program does with the library. *)
Inductive program w : World -> Prop :=
  | application e l' out :
      blocked w = None -> app_event e = true -> api_enabled e (lib w) = true ->
      api_exec fromData e (lib w) = Ok (l', out) -> program w (mkWorld l' (svc w) (calls w) None)
  | waits id t :
      blocked w = None -> begin_wait id (impl (lib w)) = Ok (t, true) ->
      program w (mkWorld (lib w) (svc w) (calls w) (Some id)).

(** The service moves on alone. *)
Definition with_svc (s' : DBusInterface) w : World := mkWorld (lib w) s' (calls w) (blocked w).

(** The steps that bring requests nearer to their end. *)
Inductive progress w : World -> Prop :=
  | arrived t w' : arrives t w w' -> progress w w'
  | work s' : work_step (svc w) s' -> progress w (with_svc s' w)
  | in_client w' : client_side w w' -> progress w w'.

(** Those, the program, and any other event of the service: calls of other
    clients, of requests destroyed in the meantime, of the administration tool. *)
Inductive step w : World -> Prop :=
  | progressed w' : progress w w' -> step w w'
  | programmed w' : program w w' -> step w w'
  | foreign s' : Service.step (C := C) (svc w) s' -> step w (with_svc s' w).

(** A new library, and a service that may have served others before. *)
Definition initial w : Prop :=
  (exists dflt config, make dflt config = Ok (lib w)) /\ Service.reachable (C := C) (svc w) /\ calls w = ∅ /\ blocked w = None.

Definition reachable w : Prop := exists w0, initial w0 /\ rtc step w0 w.

Notation shown := (shown fromData).

(** ** The library, one event at a time *)

Lemma reply_shows id rep t t' s :
  dbusCallFinished fromData id rep t = Ok t' -> status_of id t = Some s -> s_cancelled s = false ->
  status_of id t' = Some (shown rep).
Proof.
  unfold dbusCallFinished, get_request. intros H (r & Hr & <-)%status_Some Hc. rewrite Hr in H. cbn [mbind outcome_bind] in H.
  apply outcome_bind_Ok in H as (? & _ & H). apply outcome_bind_Ok in H as (t1 & H1 & H).
  assert (Hs : status_of id t1 = status_of id t).
  { destruct (negb (cancelled_ r) || negb (cancelled_while_waiting_ r)); [by apply pump_status|by injection H1 as <-]. }
  unfold status_of in Hs. rewrite Hr in Hs. destruct (requests t1 !! id) as [r1|]; [|done].
  injection Hs as _ _ Hca _ _. change (cancelled_ r1 = cancelled_ r) in Hca. change (cancelled_ r = false) in Hc.
  rewrite Hc in Hca. cbn [mbind outcome_bind] in H. rewrite Hca in H.
  apply outcome_bind_Ok in H as (? & _ & H).
  destruct rep; injection H as <-; unfold status_of, set_request; simpl; rewrite lookup_insert_eq; simpl; unfold status; simpl;
    unfold isCancelled; simpl; by rewrite Hca.
Qed.

Lemma run_jobs_posted started : forall t t', run_jobs started t = Ok t' -> posted (Img := Img) t' = posted t.
Proof.
  induction started as [|j started IH]; simpl; intros t t' H; [by injection H as <-|].
  unfold send_request, get_request in H. destruct (requests t !! j); [|done]. by apply IH in H.
Qed.

Lemma pump_posted t t' : pump_limiter t = Ok t' -> posted (Img := Img) t' = posted t.
Proof.
  unfold pump_limiter. destruct (RateLimiter.done (limiter_ t)) as [[l started]| |]; simpl; [|done|done]. intros H. by apply run_jobs_posted in H.
Qed.

Lemma finished_posted id rep t t' : dbusCallFinished fromData id rep t = Ok t' -> posted t' = posted t.
Proof.
  unfold dbusCallFinished, get_request. destruct (requests t !! id) as [r|]; [|done]. cbn [mbind outcome_bind]. intros H.
  apply outcome_bind_Ok in H as (? & _ & H). apply outcome_bind_Ok in H as (t1 & H1 & H).
  assert (Hp : posted t1 = posted t).
  { destruct (negb (cancelled_ r) || negb (cancelled_while_waiting_ r)); [by apply pump_posted|by injection H1 as <-]. }
  rewrite <- Hp. destruct (requests t1 !! id) as [r1|]; [|done]. cbn [mbind outcome_bind] in H.
  destruct (cancelled_ r1); [by injection H as <-|]. apply outcome_bind_Ok in H as (? & _ & H).
  by destruct rep; injection H as <-.
Qed.

(** *** The two halves of [waitForFinished()] *)

Lemma wait_halves id rep t : Client.waitForFinished fromData id rep t =
  ('(t', blocks) ← begin_wait id t; if blocks : bool then dbusCallFinished fromData id rep t' else Ok t').
Proof.
  unfold Client.waitForFinished, begin_wait. destruct (get_request id t) as [r|e|c]; [|done..]. cbn [mbind outcome_bind].
  destruct (finished_ r || cancelled_ r); [done|]. destruct (call_cancel_func r t) as [[t1 b]|e|c]; [|done..]. cbn [mbind outcome_bind].
  destruct (if b then _ else _) as [t2|e|c]; [|done..]. cbn [mbind outcome_bind].
  destruct (get_request id t2) as [r2|e|c]; [|done..]. cbn [mbind outcome_bind]. by destruct (watcher_ r2).
Qed.

(** The first half changes nothing a program sees. *)
Lemma begin_wait_same id t t' b : begin_wait id t = Ok (t', b) ->
  (forall i, status_of i t' = status_of i t) /\ posted t' = posted t /\
  exists r, requests t !! id = Some r /\ b = negb (finished_ r || cancelled_ r).
Proof.
  unfold begin_wait, get_request. destruct (requests t !! id) as [r|]; [|done]. cbn [mbind outcome_bind].
  destruct (finished_ r || cancelled_ r) eqn:Hf; [intros [= <- <-]; split_and!; [done|done|exists r; by rewrite Hf]|].
  intros H. apply outcome_bind_Ok in H as ([t1 u] & H1 & H).
  assert (Hs1 : (forall i, status_of i t1 = status_of i t) /\ posted t1 = posted t).
  { unfold call_cancel_func in H1. destruct (cancel_func_ r) as [c|]; [|done].
    destruct (RateLimiter.call_cancel c (limiter_ t)) as [l b']. simpl in H1. by injection H1 as <- <-. }
  apply outcome_bind_Ok in H as (t2 & H2 & H).
  assert (Hs2 : (forall i, status_of i t2 = status_of i t1) /\ posted t2 = posted t1).
  { destruct u; [|injection H2 as <-; done]. apply outcome_bind_Ok in H2 as (v & _ & H2).
    change (run_jobs [id] (set_limiter (RateLimiter.schedule_now id (limiter_ t1)).1.1 t1) = Ok t2) in H2.
    destruct (run_jobs_status _ _ _ H2) as [Hs _]. split; [exact Hs|]. by apply run_jobs_posted in H2. }
  apply outcome_bind_Ok in H as (r2 & _ & H). destruct (watcher_ r2); [|done]. injection H as <- <-.
  destruct Hs1 as [S1 P1], Hs2 as [S2 P2]. split_and!; [intros i; by rewrite S2, S1|congruence|exists r; by rewrite Hf].
Qed.

(** A live request can be waited for. *)
Lemma begin_wait_ok id t r : Inv 0 None t -> requests t !! id = Some r -> finished_ r || cancelled_ r = false ->
  exists t', begin_wait id t = Ok (t', true).
Proof.
  intros HI Hr Hf. destruct (wait_inv fromData id (ReplyError "") t HI) as (t' & Hx & _); [simpl; by rewrite Hr|].
  simpl in Hx. rewrite wait_halves in Hx. destruct (begin_wait id t) as [[t1 b]|e|c] eqn:Hb; [|done..].
  destruct (begin_wait_same _ _ _ _ Hb) as (_ & _ & r' & Hr' & ->). exists t1. assert (r' = r) as -> by congruence. by rewrite Hf.
Qed.

Lemma wait_shows id rep t t' r : requests t !! id = Some r -> finished_ r || cancelled_ r = false ->
  Client.waitForFinished fromData id rep t = Ok t' ->
  status_of id t' = Some (shown rep) /\ posted t' = posted t /\ is_finished id t = false /\ is_finished id t' = true.
Proof.
  intros Hr Hf. rewrite wait_halves. intros ([t1 b] & Hb & H)%outcome_bind_Ok.
  destruct (begin_wait_same _ _ _ _ Hb) as (Hs & Hp & r' & Hr' & ->). assert (r' = r) as -> by congruence. rewrite Hf in H. cbn [negb] in H.
  apply orb_false_iff in Hf as [Hf Hc]. assert (Hst : status_of id t1 = Some (status r)) by (rewrite Hs; unfold status_of; by rewrite Hr).
  destruct (finished_change fromData _ _ _ _ H) as (_ & _ & Hfin & _). split_and!; [|rewrite <- Hp; by eapply finished_posted|..|done].
  - by eapply reply_shows.
  - unfold is_finished. by rewrite Hr.
Qed.

(** *** What an event shows *)

(** What a request shows when an event has finished it without cancellation: it
    had finished before, it was refused, or it shows the reply of the event. *)
Definition cause (e : api_event) l l' id (s : Status) : Prop :=
  status_of id (impl l) = Some s \/
  (next_id (impl l) <= id /\ exists q size, jobs l' !! id = Some (q, size) /\ QtSize.isValid size = false)%nat \/
  exists rep, (e = BusReply id rep \/ e = WaitRequest id rep) /\ s = shown rep.

Record lib_step (e : api_event) l l' : Prop := mkLibStep {
  ls_inv : ApiInv l';
  ls_next : (next_id (impl l) <= next_id (impl l'))%nat;
  ls_jobs : forall id, (id < next_id (impl l))%nat -> jobs l' !! id = jobs l !! id;
  ls_new : forall id, (next_id (impl l) <= id < next_id (impl l'))%nat -> is_Some (jobs l' !! id);
  ls_cause : forall id s, status_of id (impl l') = Some s -> s_finished s = true -> s_cancelled s = false -> cause e l l' id s
}.

Lemma client_event_Ok e l l' out : client_event fromData e l = Ok (l', out) ->
  Client.exec fromData e (impl l) = Ok (impl l') /\ jobs l' = jobs l /\ out = now_finished e (impl l) (impl l') /\
  signals l' = signals l /\ emitted l' = emitted l ++ out.
Proof. unfold client_event. by intros (t & Ht & [= <- <-])%outcome_bind_Ok. Qed.

Lemma finished_stays n s s' : change fromData n (Some s) (Some s') -> s_finished s = true -> s' = s.
Proof. intros Hc Hf. destruct (change_final _ _ _ _ Hc) as (s2 & [= <-] & H). auto. Qed.

Lemma cancelled_stays n s s' : change fromData n (Some s) (Some s') -> s_cancelled s = true -> s_cancelled s' = true.
Proof. intros Hc. by inversion Hc; subst; simpl; try congruence. Qed.

(** The events of Client.v the composition uses. *)
Lemma client_cause e l l' out id s :
  ApiInv l -> Client.enabled e (impl l) = true -> client_event fromData e l = Ok (l', out) ->
  match e with Reply _ _ | Deliver | Cancel _ | Wait _ _ => true | _ => false end = true ->
  status_of id (impl l') = Some s -> s_finished s = true -> s_cancelled s = false ->
  status_of id (impl l) = Some s \/ exists rep, (e = Reply id rep \/ e = Wait id rep) /\ s = shown rep.
Proof.
  intros HA He (Hx & _)%client_event_Ok Hk Hs Hf Hc. pose proof (ai_impl _ HA) as HI.
  assert (Hd : destroys e = false) by by destruct e. destruct (exec_changes fromData e _ _ HI Hd Hx) as [[Hsub Hoth] _].
  destruct (decide (subject e (impl l) = Some id)) as [E|E]; [|left; by rewrite <- Hoth].
  destruct (subject_alive e (impl l) id HI He) as [s0 Hs0]; [by destruct e|exact E|]. specialize (Hsub id E). rewrite Hs0, Hs in Hsub.
  destruct (s_finished s0) eqn:Hf0; [left; by rewrite (finished_stays _ _ _ Hsub Hf0)|].
  destruct (s_cancelled s0) eqn:Hc0; [by rewrite (cancelled_stays _ _ _ Hsub Hc0) in Hc|].
  destruct e as [| j rep| |j|j rep|]; try done; simpl in Hx, E.
  - injection E as ->. right. exists rep. split; [by left|]. pose proof (reply_shows _ _ _ _ _ Hx Hs0 Hc0). congruence.
  - exfalso. destruct (posted (impl l)) as [|[|j] rest] eqn:Ep; [done..|]. injection E as ->.
    destruct (inv_fake _ _ _ HI id) as (_ & r & Hr & Hca & _); [rewrite Ep; set_solver|].
    unfold status_of in Hs0. rewrite Hr in Hs0. injection Hs0 as <-. change (cancelled_ r = false) in Hc0. congruence.
  - exfalso. injection E as ->. destruct (cancel_changes fromData _ _ _ Hx) as (_ & _ & Hfin).
    rewrite !finished_status, Hs, Hs0 in Hfin. congruence.
  - injection E as ->. right. exists rep. split; [by right|]. apply status_Some in Hs0 as (r & Hr & <-).
    change (finished_ r = false) in Hf0. change (cancelled_ r = false) in Hc0.
    assert (Hfc : finished_ r || cancelled_ r = false) by (by rewrite Hf0, Hc0).
    destruct (wait_shows _ _ _ _ _ Hr Hfc Hx) as [Hsh _]. congruence.
Qed.

Lemma lib_step_client a e l l' out :
  api_exec fromData a l = client_event fromData e l -> Client.enabled e (impl l) = true -> ApiInv l ->
  match e with Reply _ _ | Deliver | Cancel _ | Wait _ _ => true | _ => false end = true ->
  (forall id rep, e = Reply id rep -> a = BusReply id rep) -> (forall id rep, e = Wait id rep -> a = WaitRequest id rep) ->
  api_exec fromData a l = Ok (l', out) -> lib_step a l l'.
Proof.
  intros Ha He HA Hk Hrep Hwait. rewrite Ha. intros H. pose proof (client_event_Ok _ _ _ _ H) as (Hx & Hj & _).
  destruct (event_inv fromData e l HA He) as (t & now & H1 & _ & _ & HA'); [by destruct e..|].
  assert (l' = mkLibrary t (jobs l) (signals l) (emitted l ++ now)) as E by congruence. rewrite <- E in HA'.
  assert (Hn : next_id (impl l') = next_id (impl l)).
  { destruct e as [| j rep| |j|j rep|]; try done; simpl in Hx.
    - by apply changes_finished in Hx as [_ ?].
    - destruct (posted (impl l)) as [|[|j] rest]; [by injection Hx as <-| |].
      + by apply pump_status in Hx as [_ ?].
      + by apply changes_finished in Hx as [_ ?].
    - by destruct (cancel_changes fromData _ _ _ Hx) as (_ & ? & _).
    - by apply wait_changes in Hx as [_ ?]. }
  constructor; [done|lia|by rewrite Hj|lia|]. intros id s Hs Hf Hc.
  destruct (client_cause _ _ _ _ _ _ HA He H Hk Hs Hf Hc) as [?|(rep & [E'|E'] & ->)]; [by left|..]; right; right; exists rep; auto.
Qed.

Lemma get_step q size l l' out : ApiInv l -> api_exec fromData (Get q size) l = Ok (l', out) -> lib_step (Get q size) l l'.
Proof.
  intros HA H. simpl in H. apply outcome_bind_Ok in H as ([l1 i] & Hc & [= -> <-]).
  destruct (create_api_inv fromData q size l HA) as (l2 & H2 & HA' & _ & Hn & Ho & _). rewrite H2 in Hc. injection Hc as -> <-.
  assert (Hj : jobs l' = <[next_id (impl l) := (q, size)]> (jobs l) /\
               Client.createRequest (details q size) (QtSize.isValid size) (impl l) = Ok (impl l')).
  { unfold createRequest in H2. apply outcome_bind_Ok in H2 as (t & Ht & H2). apply outcome_bind_Ok in H2 as (r & _ & [= <-]). done. }
  destruct Hj as [Hj Ht]. constructor; [done|lia|..].
  - intros id Hid. rewrite Hj, lookup_insert_ne by lia. done.
  - intros id Hid. assert (id = next_id (impl l)) as -> by lia. rewrite Hj, lookup_insert_eq. eauto.
  - intros id s Hs Hf _. destruct (decide (id = next_id (impl l))) as [->|Hne]; [|left; by rewrite <- Ho].
    right. left. split; [done|]. exists q, size. rewrite Hj, lookup_insert_eq. split; [done|].
    assert (Hnone : requests (impl l) !! next_id (impl l) = None).
    { destruct (requests (impl l) !! next_id (impl l)) eqn:E; [|done]. apply (inv_id _ _ _ (ai_impl _ HA)) in E. lia. }
    destruct (create_changes fromData _ _ _ _ Hnone Ht) as (_ & _ & Hs'). rewrite Hs in Hs'. injection Hs' as ->.
    by destruct (QtSize.isValid size).
Qed.

Lemma lib_step_ok e l l' out : ApiInv l -> api_enabled e l = true ->
  api_exec fromData e l = Ok (l', out) -> lib_step e l l'.
Proof.
  intros HA He H. destruct e as [q size|id rep| | |id|id rep|id]; simpl in He.
  - by eapply get_step.
  - eapply (lib_step_client _ (Reply id rep)); try done. by intros ?? [= -> ->].
  - by eapply (lib_step_client _ Deliver).
  - simpl in H. destruct (signals l) as [|i rest] eqn:E; [done|]. injection H as <- <-. pose proof (deliver_signal_inv i rest l HA E).
    constructor; simpl; try done; [lia|]. intros id s Hs _ _. by left.
  - by eapply (lib_step_client _ (Cancel id)).
  - eapply (lib_step_client _ (Wait id rep)); try done. by intros ?? [= -> ->].
  - simpl in H. destruct (destroy_api_inv fromData id l HA He) as (l2 & H2 & HA' & _ & Hnone & Ho). rewrite H2 in H. injection H as <- <-.
    unfold destroy in H2. apply outcome_bind_Ok in H2 as ([l1 o] & (Hx & Hj & _)%client_event_Ok & [= <- ->]). simpl in Hx, Hj.
    destruct (destroy_changes _ _ _ Hx) as (_ & Hn & _). constructor; simpl; try done; [lia|by rewrite Hj|lia|].
    intros j s Hs _ _. left. destruct (decide (j = id)) as [->|Hne]; [simpl in Hnone; congruence|]. by rewrite <- Ho.
Qed.
(** ** The invariant *)

(** Why a finished request that was not cancelled shows what it shows: its size
    was refused, or the service answered its call so. *)
Definition answered w id (s : Status) : Prop :=
  exists q size, jobs (lib w) !! id = Some (q, size) /\
    (QtSize.isValid size = false \/
     exists h canonical c m, calls w !! id = Some (h, c) /\ run_job canonical q size = Ok c /\
       (h, m) ∈ Service.bus (svc w) /\ s = shown (answer m)).

Record WInv w : Prop := mkWInv {
  wi_lib : ApiInv (lib w);
  wi_svc : Service.reachable (C := C) (svc w);
  wi_jobs : forall id, (id < next_id (impl (lib w)))%nat -> is_Some (jobs (lib w) !! id);
  wi_calls : forall id h c, calls w !! id = Some (h, c) ->
    (id < next_id (impl (lib w)))%nat /\ (h < Service.next_call (svc w))%nat /\
    exists q size canonical, jobs (lib w) !! id = Some (q, size) /\ run_job canonical q size = Ok c;
  wi_inj : forall i j h ci cj, calls w !! i = Some (h, ci) -> calls w !! j = Some (h, cj) -> i = j;
  wi_done : forall id s, status_of id (impl (lib w)) = Some s -> s_finished s = true -> s_cancelled s = false ->
    answered w id s;
  wi_blocked : forall id, blocked w = Some id -> exists r, requests (impl (lib w)) !! id = Some r /\ finished_ r || cancelled_ r = false
}.

Lemma live_id l id s : ApiInv l -> status_of id (impl l) = Some s -> (id < next_id (impl l))%nat.
Proof. intros HA (r & Hr & _)%status_Some. by apply (inv_id _ _ _ (ai_impl _ HA) _ _ Hr). Qed.

(** The service moves on: nothing it has sent is taken back. *)
Lemma answered_grows w s' id s : Service.bus (svc w) `prefix_of` Service.bus s' ->
  answered w id s -> answered (with_svc s' w) id s.
Proof.
  intros [k Hk] (q & size & Hj & [Hv|(h & cn & c & m & Hc & Hr & Hin & ->)]); exists q, size; (split; [done|]); [by left|].
  right. exists h, cn, c, m. split_and!; try done. simpl. rewrite Hk. set_solver.
Qed.

Lemma service_inv_step w s' : WInv w -> Service.step (C := C) (svc w) s' ->
  (Service.next_call (svc w) <= Service.next_call s')%nat -> Service.bus (svc w) `prefix_of` Service.bus s' ->
  WInv (with_svc s' w).
Proof.
  intros [HA (s0 & H0 & Hr) Hj Hc Hi Hd Hbl] Hs Hn Hb. constructor; simpl; try done.
  - exists s0. split; [done|]. by eapply rtc_r.
  - intros id h c E. destruct (Hc id h c E) as (H1 & H2 & H3). split_and!; [done|lia|done].
  - intros id s E1 E2 E3. apply answered_grows; auto.
Qed.

Lemma step_grows s s' : Service.step (C := C) s s' ->
  (Service.next_call s <= Service.next_call s')%nat /\ Service.bus s `prefix_of` Service.bus s'.
Proof.
  intros [now e _ _ Hh]. destruct (ServiceCorrect.handle_grows now e s) as [H1 H2]. rewrite Hh in H1, H2. simpl in *.
  split; [|done]. destruct (Service.called e); lia.
Qed.

Lemma work_is_step s s' : work_step s s' -> Service.step (C := C) s s'.
Proof. intros [now e Hn _ He Hh]. by eapply Service.step_event. Qed.

Lemma foreign_inv w s' : WInv w -> Service.step (C := C) (svc w) s' -> WInv (with_svc s' w).
Proof. intros HW Hs. destruct (step_grows _ _ Hs). by apply service_inv_step. Qed.

(** A call arrives: it gets the next number. *)
Lemma arrive_inv t w w' : WInv w -> arrives t w w' -> WInv w'.
Proof.
  intros HW [id q size canonical c peer now s' (r & Hr & _ & Hnone) Hj Hrun Hnow He Hh].
  assert (Hs : Service.step (C := C) (svc w) s') by by eapply Service.step_event.
  destruct (ServiceCorrect.handle_grows now (method_event t peer c) (svc w)) as [_ Hn]. rewrite Hh in Hn. simpl in Hn.
  assert (Hn' : Service.next_call s' = S (Service.next_call (svc w))) by by destruct c. clear Hn.
  destruct (foreign_inv w s' HW Hs) as [HA Hre Hjs Hc Hi Hd Hbl]. simpl in *.
  assert (Hfresh : forall j cj, calls w !! j <> Some (Service.next_call (svc w), cj)).
  { intros j cj E. destruct (wi_calls _ HW _ _ _ E) as (_ & Hlt & _). lia. }
  constructor; simpl; try done.
  - intros j h cj. destruct (decide (j = id)) as [->|Hne]; [|rewrite lookup_insert_ne by done; apply Hc].
    rewrite lookup_insert_eq. intros [= <- <-].
    split_and!; [by apply (inv_id _ _ _ (ai_impl _ HA) _ _ Hr)|lia|eauto].
  - intros i j h ci cj. rewrite !lookup_insert_Some. intros [[-> [= <- <-]]|[Hi1 E1]] [[-> E2]|[Hi2 E2]]; try done.
    + by apply Hfresh in E2.
    + injection E2 as <- <-. by apply Hfresh in E1.
    + by eapply Hi.
  - intros j s E1 E2 E3. destruct (Hd j s E1 E2 E3) as (q' & size' & Hj' & Ha). exists q', size'. split; [done|].
    destruct Ha as [Hv|(h & cn & c' & m & Hcj & Hr' & Hin & ->)]; [by left|]. right. exists h, cn, c', m. split_and!; try done.
    simpl in *. rewrite lookup_insert_ne; [done|]. intros <-. congruence.
Qed.

(** An event of the client; a reply is one the service has sent for the call. *)
Lemma lib_inv w e l' out :
  WInv w -> api_enabled e (lib w) = true -> api_exec fromData e (lib w) = Ok (l', out) ->
  (forall id rep, e = BusReply id rep \/ e = WaitRequest id rep ->
     exists h c m, calls w !! id = Some (h, c) /\ (h, m) ∈ Service.bus (svc w) /\ rep = answer m) ->
  WInv (mkWorld l' (svc w) (calls w) None).
Proof.
  intros HW He Hx Hrep. pose proof HW as [HA Hre Hjs Hc Hi Hd _].
  destruct (lib_step_ok e _ _ _ HA He Hx) as [HA' Hn Hj Hnew Hcause]. constructor; simpl; try done.
  - intros id Hid. destruct (decide (id < next_id (impl (lib w)))%nat) as [Hlt|]; [rewrite Hj by done; auto|apply Hnew; lia].
  - intros id h c E. destruct (Hc id h c E) as (H1 & H2 & H3). rewrite Hj by done. split_and!; [lia|done|done].
  - intros id s E1 E2 E3. destruct (Hcause id s E1 E2 E3) as [Hs|[(_ & q & size & Hq & Hv)|(rep & Hevent & ->)]].
    + destruct (Hd id s Hs E2 E3) as (q & size & Hq & Ha). exists q, size. simpl. rewrite Hj by by eapply live_id. done.
    + exists q, size. auto.
    + destruct (Hrep id rep Hevent) as (h & c & m & Hcall & Hin & ->).
      destruct (Hc id h c Hcall) as (Hlt & _ & q & size & cn & Hq & Hrun). exists q, size. simpl. rewrite Hj by done.
      split; [done|]. right. exists h, cn, c, m. done.
Qed.

Lemma client_inv w w' : WInv w -> client_side w w' -> WInv w'.
Proof.
  intros HW [id h c m l' out Hb Hc Hin He Hx|id h c m l' out Hb Hc Hin Hx|e l' out Hb Hl He Hx].
  - eapply lib_inv; try done. intros i rep [[= <- <-]|?]; [|done]. eauto 10.
  - destruct (wi_blocked _ HW id Hb) as (r & Hr & _). apply (lib_inv w (WaitRequest id (answer m)) l' out HW); [simpl; by rewrite Hr|exact Hx|].
    intros i rep [?|[= <- <-]]; [done|]. eauto 10.
  - eapply lib_inv; try done. by intros i rep [-> | ->].
Qed.

Lemma program_inv w w' : WInv w -> program w w' -> WInv w'.
Proof.
  intros HW [e l' out Hb Ha He Hx|id t Hb Hw].
  - eapply lib_inv; try done. by intros i rep [-> | ->].
  - destruct (begin_wait_same _ _ _ _ Hw) as (_ & _ & r & Hr & Hf). destruct HW as [HA Hre Hjs Hc Hi Hd _].
    constructor; simpl; try done. intros i [= <-]. exists r. split; [done|]. by destruct (_ || _).
Qed.

Lemma progress_inv w w' : WInv w -> progress w w' -> WInv w'.
Proof.
  intros HW [t w2 Ha|s' Hs|w2 Hc]; [by eapply arrive_inv|by apply foreign_inv, work_is_step|by eapply client_inv].
Qed.

Lemma world_step_inv w w' : WInv w -> step w w' -> WInv w'.
Proof. intros HW [w2 Hp|w2 Hp|s' Hs]; [by eapply progress_inv|by eapply program_inv|by apply foreign_inv]. Qed.

Lemma initial_world_inv w : initial w -> WInv w.
Proof.
  intros ((dflt & config & Hm) & Hr & Hc & Hb). pose proof (make_inv _ _ _ Hm) as HA.
  unfold make in Hm. apply outcome_bind_Ok in Hm as (t & Ht & [= Hl]).
  unfold Client.init in Ht. apply outcome_bind_Ok in Ht as (l & _ & [= <-]).
  constructor; rewrite ?Hc, ?Hb, <- ?Hl; simpl; try done; [by rewrite Hl|lia].
Qed.

Lemma reachable_winv w : reachable w -> WInv w.
Proof.
  intros (w0 & H0 & Hr). apply initial_world_inv in H0. revert H0. induction Hr as [|w0 w1 w2 Hs _ IH]; [done|].
  intros HW. by eapply IH, world_step_inv.
Qed.
(** The reply to a call of the library is the only one. *)
Lemma only_reply w h m : WInv w -> (h, m) ∈ Service.bus (svc w) ->
  filter (fun r => r.1 = h) (Service.bus (svc w)) = [(h, m)].
Proof.
  intros HW Hin. destruct (ServiceCorrect.service_inv _ (wi_svc _ HW)) as [W HI]. pose proof (ServiceSpec.inv_bus _ _ _ _ HI h) as Hb.
  unfold Service.replies in Hb. set (l := filter _ _) in *. assert (Hl : (h, m) ∈ l) by (apply list_elem_of_filter; auto).
  destruct l as [|x [|y l]]; [by apply elem_of_nil in Hl|by apply list_elem_of_singleton in Hl as ->|].
  by destruct (decide _).
Qed.

Lemma a_reply w h : WInv w -> Service.heap (svc w) = ∅ -> (h < Service.next_call (svc w))%nat ->
  exists m, (h, m) ∈ Service.bus (svc w).
Proof.
  intros HW He Hh. destruct (ServiceCorrect.service_inv _ (wi_svc _ HW)) as [W HI].
  destruct (ServiceCorrect.no_handlers W _ HI He) as [_ Hb]. specialize (Hb h Hh). unfold Service.replies in Hb.
  destruct (filter _ _) as [|[g m] l] eqn:E; [done|]. exists m.
  assert (Hin : (g, m) ∈ filter (fun r => r.1 = h) (Service.bus (svc w))) by (rewrite E; set_solver).
  apply list_elem_of_filter in Hin as [Hg Hin]. simpl in Hg. by subst.
Qed.

(** ** Termination *)

(** Requests whose call has not arrived. *)
Definition unsent w : nat := length (filter (fun id => calls w !! id = None) (seq 0 (next_id (impl (lib w))))).

(** What the client can still do without the service. *)
Definition undone w : nat := (next_id (impl (lib w)) - length (emitted (lib w)) + length (posted (impl (lib w))))%nat.

Lemma emitted_bound l : ApiInv l -> (length (emitted l) <= next_id (impl l))%nat.
Proof.
  intros HA. assert (Honce : forall id, (times id (emitted l) <= 1)%nat).
  { intros id. destruct (status_of id (impl l)) as [s|] eqn:E; [|by apply (ai_dead _ HA)].
    pose proof (ai_alive _ HA id s E). destruct (s_finished s); simpl in *; lia. }
  apply (NoDup_count_occ Nat.eq_dec) in Honce. rewrite <- (length_seq (next_id (impl l)) 0).
  apply (NoDup_incl_length Honce). intros id Hin. apply in_seq. split; [lia|]. simpl.
  destruct (decide (id < next_id (impl l))%nat) as [|Hge]; [done|]. exfalso.
  apply (count_occ_In Nat.eq_dec) in Hin. pose proof (ai_new _ HA id ltac:(lia)). unfold times in *. lia.
Qed.

Lemma filter_length_lt {A} (P Q : A -> Prop) `{!forall x, Decision (P x), !forall x, Decision (Q x)} (l : list A) x :
  (forall y, Q y -> P y) -> x ∈ l -> P x -> ~ Q x -> (length (filter Q l) < length (filter P l))%nat.
Proof.
  intros HQP Hin HP HQ. assert (Hle : forall k, (length (filter Q k) <= length (filter P k))%nat).
  { induction k as [|y k IH]; [done|]. rewrite !filter_cons. repeat case_decide; simpl; try lia; exfalso; auto. }
  induction l as [|y l IH]; [by apply elem_of_nil in Hin|]. rewrite !filter_cons. apply elem_of_cons in Hin as [<-|Hin].
  - rewrite decide_False by done. rewrite decide_True by done. simpl. specialize (Hle l). lia.
  - specialize (IH Hin). repeat case_decide; simpl; try lia; exfalso; auto.
Qed.

Lemma arrive_unsent t w w' : WInv w -> arrives t w w' -> (unsent w' < unsent w)%nat.
Proof.
  intros HW [id q size canonical c peer now s' (r & Hr & _ & Hnone) _ _ _ _ _]. unfold unsent. simpl. apply (filter_length_lt _ _ _ id); [|..|done|].
  - intros y. destruct (decide (y = id)) as [->|Hne]; [by rewrite lookup_insert_eq|by rewrite lookup_insert_ne].
  - apply elem_of_seq. pose proof (inv_id _ _ _ (ai_impl _ (wi_lib _ HW)) _ _ Hr). lia.
  - by rewrite lookup_insert_eq.
Qed.

(** The events that are not the service's: a signal is emitted or a posted call is taken. *)
Lemma reply_emits id rep l l' out : ApiInv l -> api_enabled (BusReply id rep) l = true ->
  api_exec fromData (BusReply id rep) l = Ok (l', out) ->
  next_id (impl l') = next_id (impl l) /\ posted (impl l') = posted (impl l) /\ length (emitted l') = S (length (emitted l)).
Proof.
  intros HA He (Hx & _ & Ho & _ & Hm)%client_event_Ok. simpl in Hx.
  destruct (finished_change fromData _ _ _ _ Hx) as (Hf & _ & Hf' & Hn & _). split_and!; [done|by eapply finished_posted|].
  rewrite Hm, Ho. unfold now_finished. simpl. rewrite Hf, Hf'. simpl. rewrite length_app. simpl. lia.
Qed.

Lemma wait_emits id rep l l' out r : ApiInv l -> requests (impl l) !! id = Some r -> finished_ r || cancelled_ r = false ->
  api_exec fromData (WaitRequest id rep) l = Ok (l', out) ->
  next_id (impl l') = next_id (impl l) /\ posted (impl l') = posted (impl l) /\ length (emitted l') = S (length (emitted l)).
Proof.
  intros HA Hr Hf (Hx & _ & Ho & _ & Hm)%client_event_Ok. simpl in Hx.
  destruct (wait_shows _ _ _ _ _ Hr Hf Hx) as (_ & Hp & Hf1 & Hf2). split_and!; [by apply wait_changes in Hx as [_ ?]|done|].
  rewrite Hm, Ho. unfold now_finished. simpl. rewrite Hf1, Hf2. simpl. rewrite length_app. simpl. lia.
Qed.

Lemma loop_emits e l l' out : ApiInv l -> loop_event e = true -> api_enabled e l = true ->
  api_exec fromData e l = Ok (l', out) ->
  next_id (impl l') = next_id (impl l) /\
  ((length (posted (impl l')) < length (posted (impl l)) /\ length (emitted l) <= length (emitted l')) \/
   (posted (impl l') = posted (impl l) /\ length (emitted l') = S (length (emitted l))))%nat.
Proof.
  intros HA Hl He Hx. destruct e; try done; simpl in He.
  - apply client_event_Ok in Hx as (Hx & _ & _ & _ & Hm). simpl in Hx.
    destruct (posted (impl l)) as [|c rest] eqn:Ep; [done|].
    assert (H : next_id (impl l') = next_id (impl l) /\ posted (impl l') = rest).
    { destruct c as [|id].
      - split; [by apply pump_status in Hx as [_ ?]|by apply pump_posted in Hx].
      - split; [by apply changes_finished in Hx as [_ ?]|by apply finished_posted in Hx]. }
    destruct H as [Hn ->]. split; [done|]. left. rewrite Hm, length_app. simpl. lia.
  - simpl in Hx. destruct (signals l) as [|i rest]; [done|]. injection Hx as <- <-. split; [done|]. right. simpl. split; [done|].
    rewrite length_app. simpl. lia.
Qed.

Lemma client_undone w l' : WInv w -> ApiInv l' -> next_id (impl l') = next_id (impl (lib w)) ->
  ((length (posted (impl l')) < length (posted (impl (lib w))) /\ length (emitted (lib w)) <= length (emitted l')) \/
   (posted (impl l') = posted (impl (lib w)) /\ length (emitted l') = S (length (emitted (lib w)))))%nat ->
  let w' := mkWorld l' (svc w) (calls w) None in
  unsent w' = unsent w /\ svc w' = svc w /\ (undone w' < undone w)%nat.
Proof.
  intros HW HA Hn Hc. pose proof (emitted_bound _ HA). pose proof (emitted_bound _ (wi_lib _ HW)).
  unfold unsent, undone; simpl. rewrite Hn in *. split_and!; [done..|]. destruct Hc as [[H1 H2]|[-> H2]]; lia.
Qed.

Lemma client_measure w w' : WInv w -> client_side w w' -> unsent w' = unsent w /\ svc w' = svc w /\ (undone w' < undone w)%nat.
Proof.
  intros HW Hp. pose proof (wi_lib _ (client_inv _ _ HW Hp)) as HA.
  destruct Hp as [id h c m l' out _ _ _ He Hx|id h c m l' out Hb _ _ Hx|e l' out _ Hl He Hx].
  - destruct (reply_emits _ _ _ _ _ (wi_lib _ HW) He Hx) as (Hn & Hp & Hm). apply client_undone; auto.
  - destruct (wi_blocked _ HW id Hb) as (r & Hr & Hf). destruct (wait_emits _ _ _ _ _ _ (wi_lib _ HW) Hr Hf Hx) as (Hn & Hp & Hm).
    apply client_undone; auto.
  - destruct (loop_emits _ _ _ _ (wi_lib _ HW) Hl He Hx) as [Hn Hc]. by apply client_undone.
Qed.

(** A step takes a call off the wire, is one of the service's, or is one of the client's. *)
Lemma progress_measure w w' : WInv w -> progress w w' ->
  (unsent w' < unsent w)%nat \/ unsent w' = unsent w /\
  (work_step (svc w) (svc w') \/ svc w' = svc w /\ (undone w' < undone w)%nat).
Proof.
  intros HW [t w2 Ha|s' Hs|w2 Hc]; [left; by eapply arrive_unsent|right; auto|right].
  destruct (client_measure _ _ HW Hc) as (? & ? & ?). auto.
Qed.

Lemma progress_terminates w : WInv w -> Acc (fun w2 w1 => progress w1 w2) w.
Proof.
  apply (lex_acc progress WInv unsent undone svc work_step); [exact progress_inv| |exact progress_measure].
  intros w1 HW. destruct (ServiceCorrect.service_inv _ (wi_svc _ HW)) as [W HI]. by apply (ServiceCorrect.work_terminates W).
Qed.

(** ** What is left when nothing can happen *)

Lemma stuck_service w : WInv w -> ~ (exists w', progress w w') -> Service.heap (svc w) = ∅.
Proof.
  intros HW Hstuck. destruct (decide (Service.heap (svc w) = ∅)) as [|Hne]; [done|]. exfalso. apply Hstuck.
  destruct (ServiceCorrect.service_inv _ (wi_svc _ HW)) as [W HI].
  destruct (ServiceCorrect.service_progress (C := C) W _ HI Hne) as [s' Hs]. eexists. by eapply work.
Qed.

(** A client with nothing to do, beside a service without handlers. *)
Section Stuck.
Context w (HW : WInv w) (Hheap : Service.heap (svc w) = ∅).
Context (Hstuck : ~ (exists w', client_side w w')) (Htr : ~ (exists id, in_transit w id)).

(** A call that has arrived has its reply. *)
Lemma stuck_reply id : calls w !! id <> None -> exists h c m, calls w !! id = Some (h, c) /\ (h, m) ∈ Service.bus (svc w).
Proof.
  destruct (calls w !! id) as [[h c]|] eqn:Hc; [|done]. intros _. destruct (wi_calls _ HW _ _ _ Hc) as (_ & Hh & _).
  destruct (a_reply w h HW Hheap Hh) as [m Hm]. eauto.
Qed.

Lemma stuck_free : blocked w = None.
Proof.
  destruct (blocked w) as [id|] eqn:Hb; [|done]. exfalso. destruct (wi_blocked _ HW id Hb) as (r & Hr & Hf).
  destruct (stuck_reply id) as (h & c & m & Hc & Hm); [intros E; apply Htr; exists id, r; auto|].
  assert (He : api_enabled (WaitRequest id (answer m)) (lib w) = true) by (simpl; by rewrite Hr).
  destruct (api_exec_inv fromData _ _ (wi_lib _ HW) He) as (l' & out & Hx & _). apply Hstuck. eexists. by eapply waited.
Qed.

Lemma stuck_settled : in_flight (impl (lib w)) = 0 /\ posted (impl (lib w)) = [] /\ signals (lib w) = [].
Proof.
  pose proof (wi_lib _ HW) as HA. pose proof stuck_free as Hb.
  assert (Hev : forall e, loop_event e = true -> api_enabled e (lib w) = false).
  { intros e Hl. destruct (api_enabled e (lib w)) eqn:He; [|done]. exfalso. apply Hstuck.
    destruct (api_exec_inv fromData e (lib w) HA He) as (l' & out & Hx & _). eexists. by eapply looped. }
  pose proof (Hev DeliverCall eq_refl) as H1. pose proof (Hev DeliverSignal eq_refl) as H2. simpl in H1, H2.
  destruct (posted (impl (lib w))); [|done]. destruct (signals (lib w)); [|done]. split_and!; try done.
  unfold in_flight. apply map_count_none. intros id r Hr. destruct (watcher_ r) eqn:Hw; [|done]. exfalso.
  destruct (stuck_reply id) as (h & c & m & Hc & Hm); [intros E; apply Htr; exists id, r; auto|].
  assert (Hen : api_enabled (BusReply id (answer m)) (lib w) = true) by (simpl; by rewrite Hr).
  destruct (api_exec_inv fromData _ _ HA Hen) as (l' & out & Hx & _). apply Hstuck. eexists. by eapply replied.
Qed.
(** Every request has finished and has emitted its signal. *)
Lemma stuck_finished id r : requests (impl (lib w)) !! id = Some r -> isFinished r = true /\ times id (emitted (lib w)) = 1%nat.
Proof.
  intros Hid. destruct stuck_settled as (H1 & H2 & H3). pose proof (wi_lib _ HW) as HA.
  pose proof (settled_finished _ _ _ (ai_impl _ HA) H1 H2 Hid) as Hf. split; [done|].
  pose proof (ai_alive _ HA id (status r)) as Ht. unfold status_of in Ht. rewrite Hid, H3 in Ht.
  specialize (Ht eq_refl). change (s_finished (status r)) with (finished_ r) in Ht. rewrite Hf in Ht. simpl in Ht. lia.
Qed.
End Stuck.

(** A world in which nothing can happen. *)
Lemma quiet_stuck w w' :
  Service.heap (svc w) = ∅ -> Credentials.pending_ (Service.credentials_ (svc w)) = ∅ -> Service.deferred (svc w) = [] ->
  posted (impl (lib w)) = [] -> signals (lib w) = [] ->
  (forall id r, requests (impl (lib w)) !! id = Some r -> watcher_ r = false) -> blocked w = None -> progress w w' -> False.
Proof.
  intros Hheap Hpend Hdef Hpost Hsig Hq Hbl.
  assert (Hno : forall h, Service.heap (svc w) !! h = None) by (intros h; rewrite Hheap; apply lookup_empty).
  intros [t w2 [i q size cn c peer now s' (r & Hr & Hw & _) _ _ _ _ _]|s' [now e Hn Hw He Hh]|
    w2 [i h c m l' out _ Hc Hin He Hx|i h c m l' out Hb _ _ _|e l' out _ Hl He Hx]].
  - apply Hq in Hr. destruct Hw; congruence.
  - destruct e; try done; simpl in He.
    + destruct He as [[ks Hk] _]. rewrite Hpend in Hk. by apply lookup_empty_Some in Hk.
    + destruct He as [(x & Hx & _) _]. by rewrite Hno in Hx.
    + destruct He as (x & Hx & _). by rewrite Hno in Hx.
    + destruct He as [(x & Hx & _) _]. by rewrite Hno in Hx.
  - simpl in He. destruct (requests (impl (lib w)) !! i) as [r|] eqn:Hr; [|done]. by rewrite (Hq i r Hr) in He.
  - congruence.
  - destruct e; simpl in He; rewrite ?Hpost, ?Hsig in He; done.
Qed.

(** ** Properties *)

(** C10. What a program sees of a request is what the service did: a finished
    request that was not cancelled was refused for its size, or its query went to
    the service as a method call, the service sent one reply for that call, which
    is of no other request, and the request shows the content of the reply. *)
Theorem request_shows_reply w id r :
  reachable w -> requests (impl (lib w)) !! id = Some r -> isFinished r = true -> isCancelled r = false ->
  exists q size, jobs (lib w) !! id = Some (q, size) /\
    (QtSize.isValid size = false \/
     exists h canonical c m, calls w !! id = Some (h, c) /\ run_job canonical q size = Ok c /\
       (forall j, j <> id -> fst <$> calls w !! j <> Some h) /\
       filter (fun r => r.1 = h) (Service.bus (svc w)) = [(h, m)] /\
       status r = shown (answer m)).
Proof.
  intros HW%reachable_winv Hr Hf Hc.
  destruct (wi_done _ HW id (status r)) as (q & size & Hj & Ha); [unfold status_of; by rewrite Hr|done..|].
  exists q, size. split; [done|]. destruct Ha as [Hv|(h & cn & c & m & Hcall & Hrun & Hin & Hs)]; [by left|].
  right. exists h, cn, c, m. split_and!; try done; [|by apply only_reply].
  intros j Hne Hj'. apply fmap_Some in Hj' as ([g cj] & Hj' & ->). apply Hne. by eapply (wi_inj _ HW).
Qed.

(** Requests come to an end: whatever the application, other clients, the
    answers of the system and the jobs of the service have done, only finitely many
    steps can follow that are not new work; when none can, and no call is lost on
    its way to the service, the application is in no [waitForFinished()] any more
    and every request it holds has finished and has emitted [finished] exactly once. *)
Theorem requests_complete w :
  reachable w ->
  Acc (fun w2 w1 => progress w1 w2) w /\
  forall w', rtc progress w w' -> ~ (exists w2, progress w' w2) -> ~ (exists id, in_transit w' id) ->
    blocked w' = None /\
    forall id r, requests (impl (lib w')) !! id = Some r ->
      isFinished r = true /\ times id (emitted (lib w')) = 1%nat.
Proof.
  intros HW%reachable_winv. split; [by apply progress_terminates|]. intros w' Hr Hstuck Htr.
  assert (HW' : WInv w').
  { clear Hstuck Htr. induction Hr as [|w w1 w2 Hs _ IH]; [done|]. by eapply IH, progress_inv. }
  pose proof (stuck_service w' HW' Hstuck) as Hheap.
  assert (Hc : ~ (exists w2, client_side w' w2)) by (intros [w2 Hc]; apply Hstuck; exists w2; by apply in_client).
  split; [by apply stuck_free|]. intros id r. by apply stuck_finished.
Qed.
End Defs.

(** ** Witnesses *)

Section Witnesses.

#[local] Existing Instance ThumbnailerInstance.small_host.
#[local] Existing Instance ThumbnailerInstance.small_host_laws.
#[local] Existing Instance ServiceCorrect.plain_seconds.

Notation cache := ThumbnailerInstance.cache.
Notation Library := (@ClientApi.Library string).

(** One request for album art, from the call to the reply, which the program waits for. *)
Definition asked : api_event := Get (AlbumArt "a" "x") (mkSize 20 0).
Definition served : list (Service.event (C := cache)) :=
  [ServiceCorrect.known; Service.CheckDone 0 (ServiceCorrect.needs "x") (Ok "img"); Service.DeleteDeferred].

Definition after (e : api_event) (l : Library) : Library :=
  match api_exec decode e l with Ok (l', _) => l' | _ => l end.

Definition call : bus_call := GetAlbumArt "a" "x" (mkSize 20 0).
Definition sent : Library := after asked ClientApi.started.
Definition taken (n : nat) : Service.DBusInterface :=
  ServiceCorrect.run 1 (ServiceCorrect.album "x" :: take n served) ServiceCorrect.new_service.
Definition with_call : gmap nat (nat * bus_call) := {[ 0%nat := (0%nat, call) ]}.

Definition start_world : World := mkWorld ClientApi.started ServiceCorrect.new_service ∅ None.
Definition final_world : World := mkWorld (after (WaitRequest 0 (ReplyValue "img")) sent) (taken 3) with_call None.

Lemma served_progress n e : served !! n = Some e -> ServiceCorrect.works e = true ->
  Service.enabled e (taken n) -> (Service.handle (2 + Z.of_nat n) e (taken n)).2 = Ok tt ->
  (Service.handle (2 + Z.of_nat n) e (taken n)).1 = taken (S n) ->
  progress (C := cache) decode (mkWorld sent (taken n) with_call (Some 0%nat)) (mkWorld sent (taken (S n)) with_call (Some 0%nat)).
Proof.
  intros _ Hw He H1 H2. apply (work decode (mkWorld sent (taken n) with_call (Some 0%nat))).
  apply (ServiceCorrect.work _ _ (2 + Z.of_nat n) e); [lia|done|done|]. simpl. rewrite <- H2, <- H1. by destruct (Service.handle _ _ _).
Qed.

Lemma final_world_reachable : reachable (C := cache) decode final_world.
Proof.
  exists start_world. split.
  - split; [by exists 10, (Some 1)|]. split; [|done]. exists ServiceCorrect.new_service.
    split; [apply ServiceCorrect.new_service_initial|apply rtc_refl].
  - apply (rtc_l _ _ (mkWorld sent ServiceCorrect.new_service ∅ None)).
    { apply programmed. by apply (application decode start_world asked sent []). }
    apply (rtc_l _ _ (mkWorld sent ServiceCorrect.new_service ∅ (Some 0%nat))).
    { apply programmed, (waits decode (mkWorld sent ServiceCorrect.new_service ∅ None) 0 (impl sent)); by vm_compute. }
    apply (rtc_l _ _ (mkWorld sent (taken 0) with_call (Some 0%nat))).
    { eapply progressed, arrived, (arrive ThumbnailerInstance.fresh (mkWorld sent ServiceCorrect.new_service ∅ (Some 0%nat)) 0 (AlbumArt "a" "x") (mkSize 20 0) (fun f => Ok f)
        call ":1.7" 1); try (vm_compute; done). eexists. split_and!; [vm_compute; reflexivity|right; reflexivity|reflexivity]. }
    apply (rtc_l _ _ (mkWorld sent (taken 1) with_call (Some 0%nat))).
    { apply progressed, (served_progress 0 ServiceCorrect.known); try (vm_compute; done). split; vm_compute; [by eexists|done]. }
    apply (rtc_l _ _ (mkWorld sent (taken 2) with_call (Some 0%nat))).
    { eapply progressed, (served_progress 1); [reflexivity|..]; try (vm_compute; done).
      split; [|done]. eexists. split_and!; vm_compute; reflexivity. }
    apply (rtc_l _ _ (mkWorld sent (taken 3) with_call (Some 0%nat))).
    { apply progressed, (served_progress 2 Service.DeleteDeferred); try (vm_compute; done). }
    apply rtc_once, progressed, in_client.
    apply (waited decode (mkWorld sent (taken 3) with_call (Some 0%nat)) 0 0 call (Service.ArtReplied "img") _ [0%nat]); try by vm_compute.
    vm_compute. apply list_elem_of_here.
Qed.

Definition seen : @RequestImpl string :=
  match requests (impl (lib final_world)) !! 0%nat with Some r => r | None => the_request 2 end.

Lemma request_shows_reply_witness :
  image seen = Some "img" /\
  exists q size, jobs (lib final_world) !! 0%nat = Some (q, size) /\
    (QtSize.isValid size = false \/
     exists h canonical c m, calls final_world !! 0%nat = Some (h, c) /\ run_job canonical q size = Ok c /\
       (forall j, j <> 0%nat -> fst <$> calls final_world !! j <> Some h) /\
       filter (fun r => r.1 = h) (Service.bus (svc final_world)) = [(h, m)] /\
       status seen = shown decode (answer m)).
Proof.
  split; [vm_compute; reflexivity|].
  apply (request_shows_reply (C := cache) decode final_world 0 seen final_world_reachable); vm_compute; reflexivity.
Defined.

Lemma final_quiet id r : requests (impl (lib final_world)) !! id = Some r -> watcher_ r = false.
Proof.
  assert (H : map_Forall (fun _ r => watcher_ r = false) (requests (impl (lib final_world)))).
  { apply (bool_decide_unpack _). vm_compute. exact I. }
  apply H.
Qed.

Lemma final_stuck w : progress (C := cache) decode final_world w -> False.
Proof. apply quiet_stuck; [vm_compute; reflexivity..|exact final_quiet|reflexivity]. Qed.

Lemma requests_complete_witness :
  reachable (C := cache) decode final_world /\ blocked final_world = None /\ times 0 (emitted (lib final_world)) = 1%nat.
Proof.
  split; [exact final_world_reachable|].
  assert (Hst : ~ (exists w2, progress (C := cache) decode final_world w2)) by (intros [w Hw]; exact (final_stuck w Hw)).
  assert (Htr : ~ (exists i, in_transit final_world i)).
  { intros (i & r & Hr & [Hw|Hw] & _); [rewrite (final_quiet i r Hr) in Hw; discriminate|discriminate]. }
  assert (Hr : requests (impl (lib final_world)) !! 0%nat = Some seen) by (vm_compute; reflexivity).
  destruct (requests_complete (C := cache) decode final_world final_world_reachable) as [_ H].
  destruct (H final_world (rtc_refl _ _) Hst Htr) as [Hb Hall]. split; [exact Hb|exact (proj2 (Hall 0%nat seen Hr))].
Defined.
End Witnesses.
End EndToEnd.
