(* ===== verification/WholeSystem.v ===== *)
(** * Client, event loop and thread pools in one system

    EndToEnd.v puts a client beside the event loop of the service and lets jobs
    end as they like; ServicePools.v puts the event loop beside its thread pools
    and lets calls come as they like.  Here the three run together: a request of
    the client becomes a method call, the call a handler, the handler a look-up in
    a thread, the look-up accesses to the caches, and its result a reply that the
    program sees, or waits for in [waitForFinished()]. *)

From S2P Require Import Prelude CxxLib QtSize Settings Backoff Image CacheInterface ImageExtractor Threads Keys Thumbnailer.
From S2P Require Import ImageInstance CacheHelper ThumbnailerInstance Concurrent PoolCorrect Credentials Service ServiceInv ServiceSpec ServiceCorrect ServicePools.
From S2P Require Import RateLimiter Client ClientApi EndToEnd.
Import QtSize Image CacheInterface Thumbnailer Threads Concurrent PoolCorrect ServicePools Client ClientApi EndToEnd.

Module WholeSystem.

Section Defs.
Context {P L I E D : Type} {libs : ImageLibs P L I E D} {laws : ImageLaws P L I E D}.
Context {qs : QSizeScale} {qlaws : QSizeScaleLaws qs}.
Context {C : Type} {cacheC : Cache C} {claws : CacheLaws C}.
Context {host : Host} {hlaws : HostLaws host} {fmt : Service.LogFormat}.
Context {Img : Type} (fromData : string -> option Img).
Notation World := (@World Img).
Notation System := (System (C := C)).
Notation Pools := (Pools (C := C)).

(** The event loop of the service is [svc world]. *)
Record Whole : Type := mkWhole { world : World; pools_ : Pools }.
Implicit Types (u : Whole) (w : World) (y : System) (t : Thumbnailer C).

Definition serving u : System := mkSystem (svc (world u)) (pools_ u).
Definition with_service y u : Whole := mkWhole (with_svc (loop y) (world u)) (pools y).

(** What follows of itself.  A call is taken while the event loop is free, and makes
    its request with the thumbnailer the pools share. *)
Inductive proceeds (lim : Limits) u : Whole -> Prop :=
  | call_taken w' : threads (pools_ u) !! 0%nat = None -> arrives (thumbnailer_ (pools_ u)) (world u) w' ->
      proceeds lim u (mkWhole w' (pools_ u))
  | service_works y' : goes_on lim (serving u) y' -> proceeds lim u (with_service y' u)
  | client_works w' : client_side fromData (world u) w' -> proceeds lim u (mkWhole w' (pools_ u)).

(** That, the program, other clients and the administration tool. *)
Inductive whole_step (lim : Limits) u : Whole -> Prop :=
  | whole_proceeds u' : proceeds lim u u' -> whole_step lim u u'
  | program_acts w' : program fromData (world u) w' -> whole_step lim u (mkWhole w' (pools_ u))
  | others_call y' : new_work lim (serving u) y' -> whole_step lim u (with_service y' u).

(** A new library and a new service, whose thumbnailer nothing has used yet. *)
Definition whole_initial t u : Prop :=
  (exists dflt config, make dflt config = Ok (lib (world u))) /\ calls (world u) = ∅ /\ blocked (world u) = None /\
  sys_initial t (serving u).

Definition whole_reachable t u : Prop := exists u0, whole_initial t u0 /\ rtc (whole_step (limits_of t)) u0 u.

(** ** The parts of a step *)

Lemma with_svc_same w : with_svc (svc w) w = w.
Proof. by destruct w. Qed.

Section Steps.
Context t (Hmax : 0 < max_size_ t) (Hb : Backoff.wf (backoff_ t)) (Hc : caches_valid t).

(** What the loop does on its own is one of its events, or nothing. *)
Lemma goes_on_loop y y' : SysInv t y -> goes_on (limits_of t) y y' ->
  loop y' = loop y \/ ServiceCorrect.work_step (C := C) (loop y) (loop y').
Proof.
  intros HI [now e s' Hi Hwk He Hnow Hen Hs|h x Hx Hwk Hno|p' Hs|now h a r o s' Hi Hv Hnow Hs|a v Hv]; try by left.
  - right. by apply (ServiceCorrect.work _ _ now e).
  - right. destruct (result_enabled t y h a _ Hmax Hb Hc HI Hv) as (x & r' & o' & Hx & -> & [= <- <-] & Hen & Hj).
    destruct (job_event_works (C := C) (loop y) h r o) as [Hwk _]. by apply (ServiceCorrect.work _ _ now (job_event (loop y) h r o)).
Qed.

Lemma new_work_loop lim y y' : new_work lim y y' -> loop y' = loop y \/ Service.step (C := C) (loop y) (loop y').
Proof. intros [now e s' Hi Hwk Ht Hnow Hen Hs|a Ha Hno]; [right|by left]. by apply (Service.step_event _ _ now e). Qed.

(** A call of the client is new work for the service. *)
Lemma arrives_work lim w w' (p : Pools) : threads p !! 0%nat = None -> arrives (thumbnailer_ p) w w' ->
  new_work lim (mkSystem (svc w) p) (mkSystem (svc w') p).
Proof.
  intros H0 [id q size canonical c peer now s' _ _ _ Hnow Hen Hs]. simpl.
  apply (on_call lim (mkSystem (svc w) p) now (method_event (thumbnailer_ p) peer c) s'); try done; by destruct c.
Qed.

(** A step of the whole is at most a step of client and service, and at most one of
    service and pools. *)
Lemma whole_parts u u' : SysInv t (serving u) -> whole_step (limits_of t) u u' ->
  rtc (EndToEnd.step (C := C) fromData) (world u) (world u') /\ rtc (sys_step (limits_of t)) (serving u) (serving u').
Proof.
  intros HI [u2 [w' H0 Ha|y' Hg|w' Hw]|w' Hw|y' Hn]; simpl.
  - split; apply rtc_once; [eapply progressed, arrived, Ha|]. right. by apply arrives_work.
  - split; [|apply rtc_once; left; by destruct y'].
    destruct (goes_on_loop _ _ HI Hg) as [Hl|Hl]; simpl; [rewrite Hl; unfold serving; simpl; by rewrite with_svc_same|].
    by apply rtc_once, progressed, work.
  - assert (Hs : svc w' = svc (world u)) by by destruct Hw. split; [by apply rtc_once, progressed, in_client|]. unfold serving. simpl. by rewrite Hs.
  - assert (Hs : svc w' = svc (world u)) by by destruct Hw. split; [by apply rtc_once, programmed|]. unfold serving. simpl. by rewrite Hs.
  - split; [|apply rtc_once; right; by destruct y'].
    destruct (new_work_loop _ _ _ Hn) as [Hl|Hl]; simpl; [rewrite Hl; unfold serving; simpl; by rewrite with_svc_same|]. by apply rtc_once, foreign.
Qed.

Record WholeInv u : Prop := mkWholeInv { wh_world : WInv (C := C) fromData (world u); wh_service : SysInv t (serving u) }.

Lemma whole_inv u u' : WholeInv u -> whole_step (limits_of t) u u' -> WholeInv u'.
Proof.
  intros [HW HS] Hs. destruct (whole_parts _ _ HS Hs) as [Hw Hy]. split.
  - eapply rtc_invariant; [|exact Hw|exact HW]. apply world_step_inv.
  - eapply rtc_invariant; [|exact Hy|exact HS]. intros y1 y2 H1 [H2|H2]; [by eapply goes_on_inv|by eapply new_work_inv].
Qed.

(** ** Progress *)

Lemma proceeds_measure u u' : WholeInv u -> proceeds (limits_of t) u u' ->
  (unsent (world u') < unsent (world u))%nat \/ unsent (world u') = unsent (world u) /\
  (goes_on (limits_of t) (serving u) (serving u') \/ serving u' = serving u /\ (undone (world u') < undone (world u))%nat).
Proof.
  intros [HW _] [w' H0 Ha|y' Hg|w' Hw]; simpl.
  - left. by eapply arrive_unsent.
  - right. split; [done|]. left. by destruct y'.
  - right. destruct (client_measure _ _ _ HW Hw) as (H1 & H2 & H3). split; [done|]. right. split; [|done].
    unfold serving. simpl. by rewrite H2.
Qed.

Lemma proceeds_terminates u : WholeInv u -> Acc (fun u2 u1 => proceeds (limits_of t) u1 u2) u.
Proof.
  apply (lex_acc (proceeds (limits_of t)) WholeInv (fun u => unsent (world u)) (fun u => undone (world u)) serving (goes_on (limits_of t))).
  - intros u1 u2 HI Hp. eapply whole_inv; [exact HI|by apply whole_proceeds].
  - intros u1 [_ HS]. by apply system_terminates.
  - apply proceeds_measure.
Qed.

(** Where nothing follows the service has no handlers. *)
Lemma stuck_no_handlers u : WholeInv u -> ~ (exists u', proceeds (limits_of t) u u') ->
  Service.heap (svc (world u)) = ∅.
Proof.
  intros [_ HS] Hstuck. destruct (decide (Service.heap (svc (world u)) = ∅)) as [|Hne]; [done|]. exfalso. apply Hstuck.
  destruct (system_progress t (serving u) Hmax Hb Hc HS Hne) as [y' Hg]. eexists. by eapply service_works.
Qed.
End Steps.

Lemma whole_initial_inv t u : whole_initial t u -> WholeInv t u.
Proof.
  intros (Hl & Hc & Hb & Hs). split; [|by apply sys_initial_inv]. apply initial_world_inv. split; [done|].
  destruct Hs as (Hi & _). split; [by exists (svc (world u))|done].
Qed.

Lemma whole_reachable_inv t u : whole_reachable t u ->
  0 < max_size_ t /\ Backoff.wf (backoff_ t) /\ caches_valid t /\ WholeInv t u.
Proof.
  intros (u0 & Hi & Hr). pose proof Hi as (_ & _ & _ & _ & _ & H1 & H2 & H3). split_and!; [done..|].
  apply whole_initial_inv in Hi. eapply rtc_invariant; [|exact Hr|exact Hi]. intros u1 u2. by apply whole_inv.
Qed.

(** ** Properties *)

(** Every run of the three together is, seen from either side, a run of client and
    service and a run of service and pools, so that what is proved of those holds. *)
Theorem whole_refines t u : whole_reachable t u ->
  EndToEnd.reachable (C := C) fromData (world u) /\ sys_reachable t (serving u).
Proof.
  intros (u0 & Hi & Hr). pose proof Hi as (_ & _ & _ & _ & _ & H1 & H2 & H3). pose proof (whole_initial_inv _ _ Hi) as HI.
  enough (H : rtc (EndToEnd.step (C := C) fromData) (world u0) (world u) /\ rtc (sys_step (limits_of t)) (serving u0) (serving u)).
  { destruct H as [Hw Hy], Hi as (Hl & Hcs & Hbl & Hs). split; [|by exists (serving u0)]. exists (world u0). split; [|done].
    split; [done|]. destruct Hs as (Hs & _). split; [by exists (svc (world u0))|done]. }
  clear Hi. induction Hr as [|u0 u1 u2 Hs _ IH]; [done|].
  destruct (whole_parts t H1 H2 H3 _ _ (wh_service _ _ HI) Hs) as [Hw Hy]. pose proof (whole_inv t H1 H2 H3 _ _ HI Hs) as HI'.
  destruct (IH HI') as [Hw' Hy']. split; by etrans.
Qed.

(** C11. From a request of a program to the pixels it gets, nothing hangs: from every
    reachable state of client, event loop and thread pools only finitely many steps
    can follow that are not new work, whatever the schedule of the threads; when
    none can and no call is lost on its way, then no call is left at the service, the program is in no [waitForFinished()],
    and every request it holds has finished and has emitted [finished] exactly once. *)
Theorem whole_completes t u : whole_reachable t u ->
  Acc (fun u2 u1 => proceeds (limits_of t) u1 u2) u /\
  forall u', rtc (proceeds (limits_of t)) u u' -> ~ (exists u2, proceeds (limits_of t) u' u2) ->
    ~ (exists id, in_transit (world u') id) ->
    Service.heap (svc (world u')) = ∅ /\ blocked (world u') = None /\
    forall id r, requests (impl (lib (world u'))) !! id = Some r ->
      isFinished r = true /\ times id (emitted (lib (world u'))) = 1%nat.
Proof.
  intros (Hmax & Hb & Hc & HI)%whole_reachable_inv. split; [by apply proceeds_terminates|]. intros u' Hr Hstuck Htr.
  assert (HI' : WholeInv t u').
  { eapply rtc_invariant; [|exact Hr|exact HI]. intros u1 u2 H1 H2. eapply whole_inv; [done..|by apply whole_proceeds]. }
  pose proof (stuck_no_handlers t Hmax Hb Hc u' HI' Hstuck) as Hheap.
  assert (Hcl : ~ (exists w2, client_side fromData (world u') w2)) by (intros [w2 Hw]; apply Hstuck; eexists; by apply client_works).
  pose proof (wh_world _ _ HI') as HW. split; [done|]. split; [by eapply stuck_free|]. intros id r. by eapply stuck_finished.
Qed.
End Defs.

(** ** Witnesses *)

Module WholeInstance.
Import ImageInstance CacheHelper ThumbnailerInstance Concurrent PoolCorrect.PoolInstance ServicePools.SystemInstance.
Import Service ServiceCorrect.

#[local] Existing Instance ServicePools.SystemInstance.plain_seconds.

Notation Whole := (Whole (C := cache) (Img := string)).

(** A program asks for the art of an album that is in the cache, and waits for it. *)
Definition call : bus_call := ClientApi.GetAlbumArt "a" "b" (mkSize 20 0).
Definition asking : @Library string := after (Get (AlbumArt "a" "b") (mkSize 20 0)) ClientApi.started.
Definition shown_art : @Library string := after (WaitRequest 0 (ReplyValue "jpeg:75:20x40")) asking.

(** The service before the call, with its handler, with the credentials, with the
    result of the look-up, and without the handler. *)
Definition taken : DBusInterface := (handle 1 (method_event warm ":1.7" call) new_service).1.
Definition checking : DBusInterface := (handle (C := cache) 2 known taken).1.
Definition started : Pools :=
  start_thread (limits_of warm) (worker 0) (Lookup (needs "b")) (mkPools warm ∅).
Definition looked_up : Pools := play 9 (again 4 1) started.
Definition found : Request :=
  match threads looked_up !! 1%nat with Some (_, Ret (inl (r, _))) => r | _ => needs "b" end.
Definition replied : DBusInterface := (handle (C := cache) 10 (job_event checking 0 found (Ok "jpeg:75:20x40")) checking).1.
Definition settled : DBusInterface := (handle (C := cache) 11 DeleteDeferred replied).1.
Definition ended : Pools := end_thread (worker 0) looked_up.

Definition at_work (s : DBusInterface) (p : Pools) : Whole :=
  mkWhole (mkWorld asking s {[ 0%nat := (0%nat, call) ]} (Some 0%nat)) p.
Definition first : Whole := mkWhole (mkWorld ClientApi.started new_service ∅ None) (mkPools warm ∅).
Definition last : Whole := mkWhole (mkWorld shown_art settled {[ 0%nat := (0%nat, call) ]} None) ended.

Notation whole_step := (whole_step Client.decode (limits_of warm)).
Notation proceeds := (proceeds Client.decode (limits_of warm)).

Lemma first_initial : whole_initial warm first.
Proof.
  split; [by exists 10, (Some 1)|]. split; [done|]. split; [done|]. split; [apply new_service_initial|]. split; [done|].
  split; [reflexivity|]. split; [split; [split; vm_compute; congruence|left; vm_compute; reflexivity]|].
  intros []; (exists tt; split; [done|]; vm_compute; eauto).
Qed.

Lemma asks : rtc whole_step first (at_work taken (mkPools warm ∅)).
Proof.
  eapply rtc_l; [eapply program_acts, (application Client.decode (world first) (Get (AlbumArt "a" "b") (mkSize 20 0)) asking []); by vm_compute|].
  eapply rtc_l; [eapply program_acts, (waits Client.decode _ 0 (impl asking)); by vm_compute|].
  apply rtc_once, whole_proceeds.
  eapply (call_taken _ _ (mkWhole _ (mkPools warm ∅))); [done|].
  eapply (arrive warm (mkWorld asking new_service ∅ (Some 0%nat)) 0 (AlbumArt "a" "b") (mkSize 20 0) (fun f => Ok f) call ":1.7" 1);
    try (vm_compute; done).
  eexists. split_and!; [vm_compute; reflexivity|by right|reflexivity].
Qed.

(** The service on its own. *)
Lemma serves s p s' p' : goes_on (limits_of warm) (mkSystem s p) (mkSystem s' p') -> whole_step (at_work s p) (at_work s' p').
Proof. intros Hg. apply whole_proceeds. exact (service_works Client.decode (limits_of warm) (at_work s p) _ Hg). Qed.

Lemma handles : whole_step (at_work taken (mkPools warm ∅)) (at_work checking (mkPools warm ∅)).
Proof.
  apply serves. assert (He : enabled known taken) by (split; [vm_compute; by eexists|vm_compute; reflexivity]).
  apply (on_event _ (mkSystem taken (mkPools warm ∅)) 2 known checking (lookup_empty _) eq_refl eq_refl eq_refl He).
  apply handled. vm_compute. reflexivity.
Qed.

Lemma looks_up : rtc whole_step (at_work checking (mkPools warm ∅)) (at_work checking looked_up).
Proof.
  assert (Hx : exists x, heap checking !! 0%nat = Some x /\ request x = needs "b" /\ stage_ x = Checking).
  { vm_compute. eexists. split_and!; reflexivity. }
  destruct Hx as (x & Hx & Hreq & Hst). apply (rtc_l _ _ (at_work checking started)).
  - apply serves. unfold started. rewrite <- Hreq. apply (on_job _ (mkSystem checking (mkPools warm ∅)) 0 x); [exact Hx|by rewrite Hst|reflexivity].
  - unfold looked_up. generalize (play_accesses 9 (again 4 1) started). induction 1 as [|p1 p2 p3 Hs _ IH]; [reflexivity|].
    eapply rtc_l; [|exact IH]. by apply serves, (on_access _ (mkSystem checking p1)).
Qed.

Lemma replies_to : rtc whole_step (at_work checking looked_up) (at_work settled ended).
Proof.
  eapply rtc_l; [|apply rtc_once].
  - assert (Hv : exists a, threads looked_up !! worker 0 = Some (a, Ret (inl (found, Ok "jpeg:75:20x40")))) by (vm_compute; eexists; reflexivity).
    destruct Hv as [a Hv]. apply (serves _ _ replied ended).
    apply (on_result _ (mkSystem checking looked_up) 10 0 a found (Ok "jpeg:75:20x40") replied); [vm_compute; reflexivity|exact Hv|reflexivity|].
    unfold replied. cbn [loop]. apply handled. vm_compute. reflexivity.
  - apply serves. apply (on_event _ (mkSystem replied ended) 11 DeleteDeferred settled); vm_compute; done.
Qed.

Lemma shows : client_side Client.decode (world (at_work settled ended)) (world last).
Proof.
  apply (waited Client.decode (world (at_work settled ended)) 0 0 call (ArtReplied "jpeg:75:20x40") shown_art [0%nat]); try by vm_compute.
  vm_compute. apply list_elem_of_here.
Qed.

Lemma last_reachable : whole_reachable Client.decode warm last.
Proof.
  exists first. split; [apply first_initial|]. etrans; [exact asks|]. eapply rtc_l; [exact handles|]. etrans; [exact looks_up|].
  eapply rtc_r; [exact replies_to|]. apply whole_proceeds. exact (client_works Client.decode (limits_of warm) (at_work settled ended) _ shows).
Qed.

Definition seen : @Client.RequestImpl string :=
  match Client.requests (impl (lib (world last))) !! 0%nat with Some r => r | None => ClientApi.the_request 2 end.

Example pixels_seen : image seen = Some "jpeg:75:20x40".
Proof. by vm_compute. Qed.

Example last_refines : EndToEnd.reachable (C := cache) Client.decode (world last) /\ sys_reachable warm (serving last).
Proof. apply (whole_refines Client.decode warm last last_reachable). Qed.

Lemma last_unwatched i r : Client.requests (impl (lib (world last))) !! i = Some r -> Client.watcher_ r = false.
Proof.
  assert (H : map_Forall (fun _ r => Client.watcher_ r = false) (Client.requests (impl (lib (world last))))).
  { apply (bool_decide_unpack _). vm_compute. exact Logic.I. }
  apply H.
Qed.

(** Nothing follows. *)
Lemma last_stuck u : proceeds last u -> False.
Proof.
  assert (Hq : forall w, progress (C := cache) Client.decode (world last) w -> False).
  { intros w. apply quiet_stuck; try by vm_compute. exact last_unwatched. }
  assert (Ht : forall i, threads (pools (serving last)) !! i = None).
  { assert (H : threads (pools (serving last)) = ∅); [|intros i; rewrite H; apply lookup_empty].
    apply map_size_empty_iff. vm_compute. reflexivity. }
  assert (Hh : forall h, heap (loop (serving last)) !! h = None).
  { assert (H : heap (loop (serving last)) = ∅) by (vm_compute; reflexivity). intros h. rewrite H. apply lookup_empty. }
  intros [w' _ Ha|y' Hg|w' Hw].
  - by eapply Hq, arrived.
  - destruct Hg as [now e s' Hi Hwk He Hnow Hen Hs|h x Hx Hwk Hno|p' Hs|now h a r o s' Hi Hv Hnow Hs|a v Hv].
    + by eapply Hq, EndToEnd.work, (ServiceCorrect.work _ _ now e).
    + rewrite Hh in Hx. discriminate Hx.
    + destruct Hs as [i a X e k now Hi]. rewrite Ht in Hi. discriminate Hi.
    + rewrite Ht in Hv. discriminate Hv.
    + rewrite Ht in Hv. discriminate Hv.
  - by eapply Hq, in_client.
Qed.

Lemma whole_completes_witness :
  whole_reachable Client.decode warm last /\ isFinished seen = true /\ ClientApi.times 0 (emitted (lib (world last))) = 1%nat.
Proof.
  split; [exact last_reachable|].
  assert (Hst : ~ (exists u, proceeds last u)) by (intros [u Hu]; exact (last_stuck u Hu)).
  assert (Htr : ~ (exists i, in_transit (world last) i)).
  { intros (i & r & Hr & Hw & _). destruct Hw as [Hw|Hw]; [|discriminate]. rewrite (last_unwatched i r Hr) in Hw. discriminate. }
  assert (Hr : Client.requests (impl (lib (world last))) !! 0%nat = Some seen) by (vm_compute; reflexivity).
  destruct (whole_completes Client.decode warm last last_reachable) as [_ H]. destruct (H last (rtc_refl _ _) Hst Htr) as (_ & _ & Hall).
  exact (Hall 0%nat seen Hr).
Defined.
End WholeInstance.
End WholeSystem.
